(* ===== verification/_CoqProject ===== *)
-Q . S2P
Prelude.v
Text.v
Metrics.v
S3.v
Discovery.v
Clocks.v
ClockTests.v
Proto.v
Crdt.v
OrSet.v
Replication.v
Network.v
Registry.v
Dissemination.v
GcStorage.v
Coordinator.v
UnitTests.v
S3Storage.v
GcProtocol.v
GcSafety.v
GcOverS3.v
Engine.v
PeerMessages.v
Connector.v
Framing.v
Connection.v
EngineSpec.v
GcEffects.v
Sending.v
Typing.v
Cluster.v
ClusterRuns.v
SharedBucket.v
SharedS3.v
ClientRequests.v
Server.v
Config.v
Client.v
Logging.v
Processes.v
