(* ===== verification/Prelude.v ===== *)
(** * Verification of the replicated OR-Set server

    The program is a peer-to-peer server: every node keeps an observed-remove
    set of strings, applies client operations locally, and exchanges deltas with
    its peers.  Causality is tracked by dotted version vectors.  Some nodes are
    garbage collectors: they track what everybody has seen and agree, through an
    S3 bucket, on epochs in which tombstones are dropped.

    ** How the parts interact

    A process sets up its logging, turns its command line into the configurations
    of the parts, spawns a server, and waits for a signal.  Discovery keeps a key per live node in the bucket; a tick of its
    loop compares the keys with the registry of connected peers, and the connector
    opens and closes outbound connections accordingly.  A client command or a
    peer's envelope becomes a request in the engine's queue; the engine owns the
    set, its vector, the dissemination strategy and the collection coordinator, and
    handles one request at a time.  The strategy sends envelopes through the
    registry, whose channels feed the writer tasks of the connections; the readers
    at the other end hand the envelopes to the message handler of that node.  The
    coordinator reads and writes the epochs and the live members in the bucket.

    ** Files: the replicated data

    - [Prelude]: results, machine integers, maps with a default, UTF-8, and the
      lemmas everything shares.  [Text]: the [str] methods the keys use, and the
      decimal format of integers.
    - [Clocks] ([src/src/logical_clocks/dot_version_vector.rs]): dots, version
      vectors and dotted version vectors, method by method, with the lattice of
      knowledge.
    - [Crdt] ([src/src/crdt/mod.rs]): the traits [ElementCodec], [DeltaContext]
      and [DeltaCrdt] as classes, [DeltaCrdtOk] their contract.
    - [OrSet] ([src/src/crdt/or_set.rs]): the set, its deltas, operations and
      codecs, its invariant [orset_wf].
    - [Replication]: the specification of one replica.  The engine's state changes
      on the clock and the set, the history of events, and [represents], the
      refinement relation from a replica to the history it knows.
    - [Network]: a network of replicas as the step relation [net_step] (local
      operations, requests, answers, deliveries in any order and any number of
      times, losses, snapshots and joining from them, leaving, timely dropping of
      tombstones and forgetting of departed nodes), with [net_ok] the inductive
      invariant; [code_step] adds the untimely collections, which nothing in the
      program excludes.
    - [ClockTests], [UnitTests]: the unit tests of the clocks, the set and the
      coordinator as programs of the model, every one evaluated.

    ** Files: garbage collection and the bucket

    - [S3] ([src/src/storage/s3_client.rs]): the client over the operations of the
      SDK (class [AwsS3], documented behaviour [AwsS3Ok]).
    - [GcStorage] ([src/src/gc/storage.rs]): the records and the storage trait as
      calls; programs are trees of calls ([Prog]); [store_exec] is the contract.
    - [S3Storage] (the same file): the storage on the S3 client, a refinement of
      [store_exec].
    - [Coordinator] ([src/src/gc/coordinator.rs], [src/src/gc/mod.rs]): the
      matrix clock, the stable timestamp and the protocol, in the monad [GcM].
    - [GcProtocol]: every run of the protocol, alone and interleaved.
    - [GcSafety]: the coordinator against the network of [Network].  [GcEffects]:
      what the protocol does to a node, given the answers of the storage.
    - [GcOverS3]: the protocol on the S3 storage, with nodes that register and
      deregister, as a simulation of the abstract system of [GcProtocol].
    - [Discovery] ([src/src/peers/discovery.rs]): the registration keys, and
      registering, listing and deregistering.

    ** Files: the node

    - [Proto] ([src/src/proto/mod.rs]): the wire messages; the generated codec is
      the class [Message] with the law classes [MessageOk] and [MessageTyped].
    - [Registry] ([src/src/peers/peer_registry.rs]) and its channels.
    - [Dissemination] ([src/src/network/dissemination.rs]): the three strategies
      as instances of the class [DisseminationStrategy]; [DisseminationOk] is
      what the engine relies on.
    - [Engine] ([src/src/engine/crdt_engine.rs]): the requests and their handlers,
      for any [DeltaCrdt] and any [DisseminationStrategy].
    - [EngineSpec]: the engine's invariant, and the engine over the OR-Set as an
      implementation of [Replication].  [Sending]: what a request makes it send.
      [Typing]: the engine's type invariant.
    - [Cluster]: whole nodes that join, leave and collect, with their queues,
      channels and frames in flight, in any interleaving, as an implementation of
      [Network] while their collections are timely ([timely_step]; the same handlers
      without that condition are [code_step]).  [ClusterRuns]: what follows for the
      runs of them.
    - [SharedBucket]: those nodes on one bucket (class [Bucket], laws [BucketOk]), on
      which the calls of every node are made and may fail, with registration before
      joining and the final counter left behind; every timely run of them is a timely
      run of [Cluster].  [SharedS3]: the bucket of S3, with the storage of [S3Storage] and
      the keys of [Discovery], is such a bucket.
    - [PeerMessages] ([src/src/server/peer_message_handler.rs]): from envelopes
      to requests.
    - [Connector] ([src/src/peers/peer_connector.rs], [src/src/network/mod.rs],
      [src/src/network/simulated.rs]): the trait [Network], its two
      implementations, the simulated one in full, and keeping the connections in
      step with discovery.
    - [Framing] ([src/src/network/protocol.rs], [src/src/common/error.rs]) and
      [Connection] ([src/src/network/tcp_connection.rs], [src/src/common/mod.rs]):
      frames, handshake, reader and writer loops, dialling and accepting.
    - [ClientRequests] ([src/src/server/client_requests_handler.rs]): the listener
      for clients, one client connection, and the parser of commands.
    - [Server] ([src/src/server/mod.rs], [src/src/server/initializer.rs]): starting,
      the main loop and shutdown.
    - [Metrics] and [Logging] ([src/src/logging/]): which events become lines of
      the metrics file, how the file is opened, and the subscriber with its two
      layers.
    - [Config] ([src/src/main.rs], [src/src/experiment/experiment.rs]): the
      configurations, and the replicas and topology of an experiment.
    - [Client] ([src/src/client/crdt_client.rs]): the modes of the client.
    - [Processes] (the three [main] functions, [src/src/common/mod.rs]): the
      processes from their command line to their exit.

    ** What the theorems show

    Convergence: replicas that know the same events hold the same elements, an
    element is contained exactly when the replica knows an addition that no known
    removal has seen, pulls make progress, a minimal delta has the effect of the full
    state, snapshots restore the state, also when nodes leave and are forgotten, and
    removals are final while collections are timely: an addition that is back shows
    that one was not ([Network]); the engine's handlers are those replica steps, and
    a pull followed through request, routing, answer and merge is the abstract
    [pull] ([EngineSpec]); every timely run of whole nodes, in which tasks interleave
    and frames are late or lost, nodes join and leave and epochs are committed and
    observed, is a run of the network, so that two nodes that know the same events
    hold the same elements, and what a node has removed stays removed ([Cluster],
    [ClusterRuns]); and nodes that share one S3 bucket and collect in time are such a
    run, whichever requests fail, for its keys list every node that runs, give the
    final counters of those that left, and hold an epoch that was committed and one
    state for newcomers ([SharedBucket], [SharedS3]).

    Timely means: when a node collects, no request on its way and no state that a
    newcomer may read is older than the frontier, and no answer on its way adds what
    nobody holds any more.  That every replica knows the frontier is proved; that
    nothing older is on its way is assumed, since the program does not check it.  It
    matters: [late_answer_diverges] in [Network] is a run in which an answer arrives
    after a collection, and two replicas with the same vector then differ.

    Collection: the rows of the matrix are lower bounds of what replicas know, the
    stable timestamp is the greatest lower bound it should be, a collection with
    the nodes it forgets is a run of the network, and so is its observation by any
    other node at any later time ([Coordinator], [GcSafety]); every outcome of the protocol, mutual exclusion of epoch writers
    under any interleaving, and, for a commit whose calls fall anywhere between those
    of a joining node, when that node's wait ends and when it never does
    ([GcProtocol]); the
    S3 storage implements the abstract one whatever calls fail ([S3Storage]), so
    the same holds of the objects of one bucket ([GcOverS3]).

    Types and bounds: whatever its peers send, an engine's node ids stay UTF-8 and
    its counters below 2^64, and what it sends can be decoded ([Typing]); the
    pauses between attempts to connect and between collections stay within their
    limits ([Connection], [Engine]).

    The node from end to end: a command from the client's terminal to the engine
    and back ([ClientRequests], [Client]); both ends of a connection learn each
    other's identity and deliver each other's envelopes ([Connection]); a tick
    connects exactly the peers it should ([Connector]); on a bucket that answers every
    request and that its background tasks leave alone ([calm]), a server's process is
    listed while it runs, and after a signal handles what it received, saves its final
    state, leaves no key and exits ([Server], [Processes]); the topology of an
    experiment with a collector is symmetric and connected ([Config]), and which experiments lose
    every replica to a panic ([Processes]).

    Each component: invariants and the functional behaviour of its operations.  A
    few theorems show where the code departs from what it means to do, and their
    comments say so.

    ** Choices

    [u64] values are [N]; the one addition that can matter wraps ([u64_add]), and
    theorems about counters carry the bound.  Hash maps and sets are [gmap] and
    [gset]; a loop over one is a fold over [map_to_list] or [elements], and order
    independence is proved where the source's order is not fixed.  Locks are not
    modelled where one task owns the state; the shared registry is passed as it is
    at the call.  Third-party code is a class parameter with a law class for its
    documented behaviour: prost, serde_json, chrono, the AWS SDK, tokio's channels
    and byte streams, [rand]; each law class has a concrete instance, used by the
    witnesses.

    Fuel: two loops of the coordinator can wait ([await_intent], [await_state])
    and [bootstrap_waits_for_the_commit] gives the fuel that is enough, or shows
    that none is.  [reader_loop] and the loops that serve a client connection take
    one step per frame, and one more for the end; a listing takes one step per
    page.  The theorems about them say that this much is enough.

    ** Not modelled

    The scheduling of tasks by tokio: concurrent parts are related by their queues
    and by the order of the events they take.  The parsing of the command line by
    [clap] (its result is given), the loading of a [.env] file, building the SDK's
    client, and the text of log output.  The pauses of the benchmark client and its
    metrics.  A listing of the bucket is one step, so changes between two of its
    pages are not interleaved.  Each replica of an experiment's process runs in a
    world that is given to it: what the others do to the bucket meanwhile is part
    of that world.

    In [Cluster] the bucket is what it answers, and the answers that a collection
    relies on are those of an honest listing ([truthful]); [SharedS3] proves that one
    bucket shared by all gives them.  There an initiation is one step, and so is a
    departure; the calls of several nodes are interleaved in [GcProtocol] and
    [GcOverS3], and what a node may still do while it leaves is in the findings on
    shutdown ([late_heartbeat_revives_node], [late_operation_outruns_final_dot]).
    Nodes whose id has an underscore do not leave there, since their final counters
    are never read, and that is not harmless ([unread_departure_is_obsolete]).
    Nothing on its way is older than a new frontier ([timely]), which the code does
    not check and an old frame can violate, and so can the old state of a bucket
    after a failed commit ([failed_commit_has_collected]); [late_answer_diverges] shows
    what a frame that a collection has outrun does.
    In [GcProtocol] a joining node meets one commit, of one other node, whose calls
    succeed. *)
From Stdlib Require Import Strings.Byte Strings.String.
From stdpp Require Import base gmap sets list strings fin_maps sorting relations.

(** ** Machine integers

    [Counter], epochs and lengths are Rust [u64] values; they are kept as [N]
    together with the bound below.  The binaries that the repository ships are
    built with [cargo build --release], where [+] on [u64] wraps around. *)
Declare Scope rust_scope.
Delimit Scope rust_scope with rust.

Abbreviation NodeId := string (only parsing).
Abbreviation Counter := N (only parsing).

Definition u64_modulus : N := 18446744073709551616%N.

Definition u64_max : N := 18446744073709551615%N.

Definition u64_add (a b : N) : N := ((a + b) mod u64_modulus)%N.

(** ** Results

    [anyhow::Result<T>] and the crate's own [Result<T>]: the error is kept as
    its message. *)
Inductive result (A : Type) : Type :=
| Ok (a : A)
| Err (e : string).
Arguments Ok {A} a.
Arguments Err {A} e.

Definition result_bind {A B} (r : result A) (f : A → result B) : result B :=
  match r with
  | Ok a => f a
  | Err e => Err e
  end.

Definition is_ok {A} (r : result A) : bool :=
  match r with Ok _ => true | Err _ => false end.

Definition ok_or {A} (o : option A) (e : string) : result A :=
  match o with
  | Some a => Ok a
  | None => Err e
  end.

Notation "x '<-?' r ';;' k" := (result_bind r (λ x, k))
  (at level 100, r at next level, right associativity) : rust_scope.

(** [iter.map(f).collect::<Result<Vec<_>>>()]: the first error wins. *)
Fixpoint collect_results {A B} (f : A → result B) (l : list A) : result (list B) :=
  match l with
  | [] => Ok []
  | x :: l' =>
      match f x with
      | Ok y =>
          match collect_results f l' with
          | Ok ys => Ok (y :: ys)
          | Err e => Err e
          end
      | Err e => Err e
      end
  end.

(** ** Hash maps with a default

    [map.get(k).copied().unwrap_or(0)] and
    [let e = map.entry(k).or_insert(0); *e = ( *e ).max(v)]. *)
Definition get_or0 (m : gmap string N) (k : string) : N := default 0%N (m !! k).

Definition entry_max (k : string) (v : N) (m : gmap string N) : gmap string N :=
  <[k := N.max (get_or0 m k) v]> m.

(** ** Sorted lists of node ids *)
(** [Vec::sort] and [Vec::dedup] on node ids (bytewise order). *)
Definition sort_ids (l : list NodeId) : list NodeId :=
  merge_sort (λ a b, Is_true (String.leb a b)) l.

Fixpoint dedup (l : list NodeId) : list NodeId :=
  match l with
  | [] => []
  | x :: l' =>
      match dedup l' with
      | y :: l'' => if decide (x = y) then y :: l'' else x :: y :: l''
      | [] => [x]
      end
  end.

(** ** Bytes and text

    A Rust [String] is a byte sequence that is valid UTF-8.  Rocq's [string]
    is any byte sequence; [utf8_valid] is the check of [String::from_utf8]
    (RFC 3629: shortest form, no surrogates, at most U+10FFFF). *)
Abbreviation bytes := (list Byte.byte) (only parsing).

#[export] Instance byte_eq_dec : EqDecision Byte.byte := Byte.byte_eq_dec.

Definition byte_in (lo hi : N) (b : Byte.byte) : bool :=
  (lo <=? Byte.to_N b)%N && (Byte.to_N b <=? hi)%N.

Definition is_continuation (b : Byte.byte) : bool := byte_in 128 191 b.

(** [n as u8] *)
Definition to_byte (n : N) : Byte.byte := default x00 (Byte.of_N (n mod 256)%N).

Fixpoint utf8_valid (l : bytes) : bool :=
  match l with
  | [] => true
  | b1 :: l1 =>
      if byte_in 0 127 b1 then utf8_valid l1 else
      match l1 with
      | [] => false
      | b2 :: l2 =>
          if byte_in 194 223 b1 then is_continuation b2 && utf8_valid l2 else
          match l2 with
          | [] => false
          | b3 :: l3 =>
              if byte_in 224 239 b1 then
                (if byte_in 224 224 b1 then byte_in 160 191 b2
                 else if byte_in 237 237 b1 then byte_in 128 159 b2
                 else is_continuation b2) && is_continuation b3 && utf8_valid l3
              else
              match l3 with
              | [] => false
              | b4 :: l4 =>
                  byte_in 240 244 b1 &&
                  (if byte_in 240 240 b1 then byte_in 144 191 b2
                   else if byte_in 244 244 b1 then byte_in 128 143 b2
                   else is_continuation b2) &&
                  is_continuation b3 && is_continuation b4 && utf8_valid l4
              end
          end
      end
  end.

Definition as_bytes (s : string) : bytes := list_byte_of_string s.

Definition from_utf8 (l : bytes) : result string :=
  if utf8_valid l then Ok (string_of_list_byte l)
  else Err "invalid utf-8 sequence".

(** A [string] of the model that is the content of some Rust [String]. *)
Definition rust_string (s : string) : Prop := utf8_valid (as_bytes s) = true.

(** ** Tactics *)
Ltac case_ltb :=
  match goal with
  | |- context [N.ltb ?a ?b] => destruct (N.ltb_spec a b)
  | H : context [N.ltb ?a ?b] |- _ => destruct (N.ltb_spec a b)
  | |- context [N.leb ?a ?b] => destruct (N.leb_spec a b)
  | H : context [N.leb ?a ?b] |- _ => destruct (N.leb_spec a b)
  end.

Create HintDb rust.
Create Rewrite HintDb rust_rw.

(** ** Lemmas shared by the components *)
Lemma get_or0_empty k : get_or0 ∅ k = 0%N.
Proof. reflexivity. Qed.

Lemma get_or0_insert m i v k :
  get_or0 (<[i := v]> m) k = if decide (i = k) then v else get_or0 m k.
Proof. unfold get_or0. rewrite lookup_insert. by case_decide. Qed.

Lemma get_or0_delete m i k :
  get_or0 (delete i m) k = if decide (i = k) then 0%N else get_or0 m k.
Proof. unfold get_or0. rewrite lookup_delete. by case_decide. Qed.

Lemma get_or0_Some m k v : m !! k = Some v → get_or0 m k = v.
Proof. unfold get_or0. by intros ->. Qed.

Lemma get_or0_not_elem m k : k ∉ dom m → get_or0 m k = 0%N.
Proof. unfold get_or0. by intros ->%not_elem_of_dom. Qed.

Lemma get_or0_pos_Some m k : (0 < get_or0 m k)%N → m !! k = Some (get_or0 m k).
Proof. unfold get_or0. destruct (m !! k); simpl; [done | lia]. Qed.

Lemma get_or0_entry_max m i v k :
  get_or0 (entry_max i v m) k =
    if decide (i = k) then N.max (get_or0 m k) v else get_or0 m k.
Proof.
  unfold entry_max. rewrite get_or0_insert. by case_decide; subst.
Qed.

#[export] Hint Rewrite get_or0_empty get_or0_insert get_or0_delete
  get_or0_entry_max : rust_rw.

Lemma lookup_entry_max_ne m i v k : i ≠ k → entry_max i v m !! k = m !! k.
Proof. intros. unfold entry_max. by rewrite lookup_insert_ne. Qed.

Lemma u64_add_small a b : (a + b < u64_modulus)%N → u64_add a b = (a + b)%N.
Proof. intros. unfold u64_add. by apply N.mod_small. Qed.

Lemma u64_add_bound a b : (u64_add a b < u64_modulus)%N.
Proof. unfold u64_add. apply N.mod_lt. by unfold u64_modulus. Qed.

(** The loops over a [HashMap] visit its entries once each, in an order the
    language does not fix: they are folds over [map_to_list], and the lemma
    below is the reason why the order does not matter for a step that only
    touches its own key. *)
Lemma foldl_perm_map {A K V} `{Countable K} (f : A → K * V → A) (a : A)
    (l1 l2 : list (K * V)) (spec : A → gmap K V → A) :
  (∀ l, NoDup l.*1 → foldl f a l = spec a (list_to_map l)) →
  NoDup l1.*1 → l1 ≡ₚ l2 → foldl f a l1 = foldl f a l2.
Proof.
  intros Hspec Hnd Hperm.
  rewrite (Hspec l1), (Hspec l2) by (done || by rewrite <- Hperm).
  f_equal. by apply list_to_map_proper.
Qed.

Lemma collect_results_Ok {A B} (f : A → result B) (g : A → B) (l : list A) :
  (∀ x, x ∈ l → f x = Ok (g x)) → collect_results f l = Ok (g <$> l).
Proof.
  induction l as [|x l IH]; intros Hf; simpl; [done|].
  rewrite (Hf x) by set_solver. rewrite IH by set_solver. done.
Qed.

Lemma collect_results_fmap {A B} (f : B → result A) (g : A → B) (l : list A) :
  (∀ x, f (g x) = Ok x) → collect_results f (g <$> l) = Ok l.
Proof.
  intros Hfg. induction l as [|x l IH]; [done|].
  rewrite fmap_cons. simpl. by rewrite Hfg, IH.
Qed.

Lemma collect_results_Err {A B} (f : A → result B) (l : list A) :
  (∃ x, x ∈ l ∧ is_ok (f x) = false) ↔ is_ok (collect_results f l) = false.
Proof.
  induction l as [|x l IH]; simpl; [set_solver|].
  destruct (f x) eqn:E; simpl.
  - destruct (collect_results f l) eqn:E2; simpl in *.
    + split; [|done]. intros (y & [->|Hy]%elem_of_cons & Hy').
      * by rewrite E in Hy'.
      * apply IH; eauto.
    + split; [done|]. intros _. destruct IH as [_ IH].
      destruct IH as (y & ? & ?); [done|]. exists y. set_solver.
  - split; [done|]. intros _. exists x. rewrite E. set_solver.
Qed.

Lemma from_utf8_as_bytes s : rust_string s → from_utf8 (as_bytes s) = Ok s.
Proof.
  unfold rust_string, from_utf8. intros ->.
  unfold as_bytes. by rewrite string_of_list_byte_of_string.
Qed.

Lemma as_bytes_from_utf8 l s : from_utf8 l = Ok s → as_bytes s = l ∧ rust_string s.
Proof.
  unfold from_utf8, rust_string, as_bytes. destruct (utf8_valid l) eqn:Hl; [|done].
  intros [= <-]. by rewrite list_byte_of_string_of_list_byte.
Qed.

Lemma filter_all_true {A} (f : A → bool) (l : list A) :
  (∀ x, x ∈ l → f x = true) → List.filter f l = l.
Proof.
  induction l as [|x l IH]; intros Hf; simpl; [done|].
  rewrite (Hf x) by set_solver. f_equal. apply IH. set_solver.
Qed.

Lemma bind_ext_in {A B} (f g : A → list B) (l : list A) :
  (∀ x, x ∈ l → f x = g x) → (x ← l; f x) = (x ← l; g x).
Proof.
  induction l as [|x l IH]; intros Hfg; [done|].
  rewrite !bind_cons. f_equal; [|apply IH]; set_solver.
Qed.

Lemma elem_of_dedup l x : x ∈ dedup l ↔ x ∈ l.
Proof.
  induction l as [|y l IH]; simpl; [done|]. rewrite elem_of_cons, <- IH.
  destruct (dedup l) as [|z l'] eqn:Hl; [set_solver|]. case_decide; set_solver.
Qed.

Lemma elem_of_sort_ids l x : x ∈ sort_ids l ↔ x ∈ l.
Proof. unfold sort_ids. by rewrite merge_sort_Permutation. Qed.

(** ** Runs whose steps are of two kinds *)
Section runs.
Context {A : Type} (R S : relation A).

Definition either : relation A := λ x y, R x y ∨ S x y.

(** A run has only steps of the first kind, or there is a first of the second. *)
Lemma rtc_first x y :
  rtc either x y → rtc R x y ∨ ∃ a b, rtc R x a ∧ S a b ∧ rtc either b y.
Proof.
  induction 1 as [x|x y z [HR|HS] Hsteps IH]; [by left|..].
  - destruct IH as [?|(a & b & ? & ? & ?)]; [left; by eapply rtc_l|right].
    exists a, b. split_and!; [by eapply rtc_l|done..].
  - right. exists x, y. split_and!; [apply rtc_refl|done..].
Qed.
End runs.
