(* ===== verification/Text.v ===== *)
(** * Text: the string operations of the keys

    [str] methods of the standard library used to build and parse the keys of
    the bucket, on byte strings (every separator is ASCII, so bytes and
    characters agree), and the decimal format of 64-bit integers. *)
From Stdlib Require Import Strings.Byte Strings.String Strings.Ascii.
From Stdlib Require Import Decimal DecimalString DecimalN DecimalFacts.
From stdpp Require Import base gmap sets list strings.
From S2P Require Import Prelude.
Local Open Scope string_scope.

(** ** Prefixes and suffixes *)
Fixpoint strip_prefix (p s : string) : option string :=
  match p, s with
  | "", _ => Some s
  | String a p', String b s' => if Ascii.eqb a b then strip_prefix p' s' else None
  | String _ _, "" => None
  end.

Fixpoint strip_suffix (p s : string) : option string :=
  if String.eqb s p then Some ""
  else match s with
       | "" => None
       | String c s' => String c <$> strip_suffix p s'
       end.

Definition starts_with (p s : string) : bool := bool_decide (is_Some (strip_prefix p s)).

Definition ends_with (p s : string) : bool := bool_decide (is_Some (strip_suffix p s)).

(** [s.trim_end_matches(c)] *)
Fixpoint trim_end_matches (c : ascii) (s : string) : string :=
  match s with
  | "" => ""
  | String a s' =>
      match trim_end_matches c s' with
      | "" => if Ascii.eqb a c then "" else String a ""
      | t => String a t
      end
  end.

(** [&s[from..to]] for bounds inside [s]. *)
Definition slice (from to : nat) (s : string) : string := substring from (to - from) s.

(** ** Splitting *)
Fixpoint split_once (sep s : string) : option (string * string) :=
  match strip_prefix sep s with
  | Some rest => Some ("", rest)
  | None =>
      match s with
      | "" => None
      | String c s' => (λ p, (String c p.1, p.2)) <$> split_once sep s'
      end
  end.

(** [s.splitn(n, sep)] *)
Fixpoint splitn (n : nat) (sep s : string) : list string :=
  match n with
  | O => []
  | S O => [s]
  | S n' =>
      match split_once sep s with
      | Some (part, rest) => part :: splitn n' sep rest
      | None => [s]
      end
  end.

(** [s.split(c)] for a character *)
Fixpoint split_char (c : ascii) (s : string) : list string :=
  match s with
  | "" => [""]
  | String a s' =>
      if Ascii.eqb a c then "" :: split_char c s'
      else match split_char c s' with
           | part :: parts => String a part :: parts
           | [] => [String a ""]
           end
  end.

(** ** Decimal integers *)
Definition show_u64 (n : N) : string := NilEmpty.string_of_uint (N.to_uint n).

Definition show_i64 (z : Z) : string :=
  if (z <? 0)%Z then "-" ++ show_u64 (Z.to_N (- z)) else show_u64 (Z.to_N z).

(** The digits of [s.parse()], at least one. *)
Definition parse_digits (s : string) : option N :=
  match s with
  | "" => None
  | _ => N.of_uint <$> NilEmpty.uint_of_string s
  end.

Definition parse_u64 (s : string) : option N :=
  let digits := match s with String "+" s' => s' | _ => s end in
  n ← parse_digits digits; if (n <? u64_modulus)%N then Some n else None.

Definition i64_limit : N := 9223372036854775808.

Definition parse_i64 (s : string) : option Z :=
  match s with
  | String "-" s' => n ← parse_digits s'; if (n <=? i64_limit)%N then Some (- Z.of_N n)%Z else None
  | String "+" s' => n ← parse_digits s'; if (n <? i64_limit)%N then Some (Z.of_N n) else None
  | _ => n ← parse_digits s; if (n <? i64_limit)%N then Some (Z.of_N n) else None
  end.

(** ** Lemmas *)
#[local] Arguments String.append !_ _ / : simpl nomatch.

Lemma string_app_assoc (a b c : string) : (a ++ b) ++ c = a ++ (b ++ c).
Proof. induction a as [|x a IH]; simpl; [done|]. by rewrite IH. Qed.

Lemma string_app_nil (a : string) : a ++ "" = a.
Proof. induction a as [|x a IH]; simpl; [done|]. by rewrite IH. Qed.

Lemma length_string_app (a b : string) :
  String.length (a ++ b) = (String.length a + String.length b)%nat.
Proof. induction a as [|x a IH]; simpl; [done|]. by rewrite IH. Qed.

Lemma string_app_inj_l (a b c : string) : a ++ b = a ++ c → b = c.
Proof. induction a as [|x a IH]; simpl; [done|]. intros [= ?]. by apply IH. Qed.

Lemma strip_prefix_app p s : strip_prefix p (p ++ s) = Some s.
Proof. induction p as [|a p IH]; simpl; [done|]. by rewrite Ascii.eqb_refl. Qed.

Lemma strip_prefix_Some p s r : strip_prefix p s = Some r ↔ s = p ++ r.
Proof.
  split; [|intros ->; apply strip_prefix_app].
  revert s. induction p as [|a p IH]; intros s; simpl; [by intros [= ->]|].
  destruct s as [|b s]; [done|]. destruct (Ascii.eqb_spec a b) as [->|]; [|done].
  intros Hs. by rewrite (IH s Hs).
Qed.

Lemma starts_with_spec p s : starts_with p s = true ↔ ∃ r, s = p ++ r.
Proof.
  unfold starts_with. rewrite bool_decide_eq_true. split; intros [r Hr]; exists r;
    by apply strip_prefix_Some.
Qed.

Lemma strip_suffix_Some p s r : strip_suffix p s = Some r ↔ s = r ++ p.
Proof.
  revert r. induction s as [|c s IH]; intros r.
  - destruct p as [|a p]; simpl.
    + split; [by intros [= <-]|]. by destruct r.
    + split; [done|]. by destruct r.
  - change (strip_suffix p (String c s)) with
      (if String.eqb (String c s) p then Some "" else String c <$> strip_suffix p s). destruct (String.eqb_spec (String c s) p) as [Heq|Hne].
    + rewrite <- Heq. split; [by intros [= <-]|]. destruct r as [|x r]; [done|].
      intros Hl. apply (f_equal String.length) in Hl. simpl in Hl.
      rewrite length_string_app in Hl. simpl in Hl. lia.
    + rewrite fmap_Some. split.
      * intros (r' & Hr & ->). apply IH in Hr as ->. done.
      * destruct r as [|x r]; simpl; [congruence|]. intros [= <- ->].
        exists r. split; [|done]. by apply IH.
Qed.

Lemma ends_with_spec p s : ends_with p s = true ↔ ∃ r, s = r ++ p.
Proof.
  unfold ends_with. rewrite bool_decide_eq_true. split; intros [r Hr]; exists r;
    by apply strip_suffix_Some.
Qed.

Lemma substring_app (p m s : string) :
  substring (String.length p) (String.length m) (p ++ m ++ s) = m.
Proof.
  induction p as [|a p IH]; simpl; [|done].
  induction m as [|b m IH]; simpl; [by destruct s|]. by rewrite IH.
Qed.

Lemma slice_app (p m s : string) :
  slice (String.length p) (String.length (p ++ m)) (p ++ m ++ s) = m.
Proof.
  unfold slice. rewrite length_string_app.
  replace (_ + _ - _)%nat with (String.length m) by lia. apply substring_app.
Qed.

(** *** Separators *)
(** [c] does not occur in [s]. *)
Fixpoint char_free (c : ascii) (s : string) : bool :=
  match s with
  | "" => true
  | String a s' => negb (Ascii.eqb a c) && char_free c s'
  end.

Lemma split_char_free c a : char_free c a = true → split_char c a = [a].
Proof.
  induction a as [|x a IH]; simpl; [done|]. intros [Hx Ha]%andb_prop.
  apply negb_true_iff in Hx. by rewrite Hx, IH.
Qed.

Lemma split_char_app c a s :
  char_free c a = true → split_char c (a ++ String c s) = a :: split_char c s.
Proof.
  induction a as [|x a IH]; simpl; [by rewrite Ascii.eqb_refl|].
  intros [Hx Ha]%andb_prop. apply negb_true_iff in Hx. by rewrite Hx, IH.
Qed.

Lemma split_char_cons c s : ∃ a l, split_char c s = a :: l.
Proof.
  destruct s as [|x s]; simpl; [eauto|]. destruct (Ascii.eqb x c); [eauto|].
  destruct (split_char c s); eauto.
Qed.

(** One separator more gives one part more. *)
Lemma split_char_two c s t : ∃ a b l, split_char c (s ++ String c t) = a :: b :: l.
Proof.
  induction s as [|x s (a & b & l & Hs)]; simpl.
  - rewrite Ascii.eqb_refl. destruct (split_char_cons c t) as (b & l & ->). eauto.
  - rewrite Hs. destruct (Ascii.eqb x c); eauto.
Qed.

Lemma split_char_many c n t :
  char_free c n = false → ∃ a b d l, split_char c (n ++ String c t) = a :: b :: d :: l.
Proof.
  induction n as [|x n IH]; simpl; [done|]. destruct (Ascii.eqb x c) eqn:Hx; simpl.
  - intros _. destruct (split_char_two c n t) as (a & b & l & ->). eauto.
  - intros (a & b & d & l & ->)%IH. eauto.
Qed.

Lemma split_char_parts c s a : a ∈ split_char c s → char_free c a = true.
Proof.
  revert a. induction s as [|x s IH]; intros a; simpl; [by intros ->%list_elem_of_singleton|].
  destruct (Ascii.eqb x c) eqn:Hx; [set_solver|].
  destruct (split_char_cons c s) as (b & l & Hs). rewrite Hs in *.
  intros [->|Ha]%elem_of_cons; [simpl; rewrite Hx; apply IH; set_solver|apply IH; set_solver].
Qed.

Lemma split_once_Some sep s a b : split_once sep s = Some (a, b) → s = a ++ sep ++ b.
Proof.
  revert a. induction s as [|c s IH]; intros a; unfold split_once; fold split_once;
    destruct (strip_prefix sep _) as [r|] eqn:Hr.
  - intros [= <- <-]. by apply strip_prefix_Some in Hr.
  - done.
  - intros [= <- <-]. by apply strip_prefix_Some in Hr.
  - destruct (split_once sep s) as [[a' b']|]; [|done]. intros [= <- <-]. simpl. by rewrite (IH a').
Qed.

(** The first separator stays the first when the text goes on. *)
Lemma strip_prefix_longer p s t :
  (String.length p <= String.length s)%nat → strip_prefix p s = None → strip_prefix p (s ++ t) = None.
Proof.
  revert s. induction p as [|a p IH]; intros s; simpl; [done|].
  destruct s as [|b s]; simpl; [lia|]. destruct (Ascii.eqb a b); [|done]. intros Hl. apply IH. lia.
Qed.

Lemma split_once_longer sep s t a b :
  split_once sep s = Some (a, b) → split_once sep (s ++ t) = Some (a, b ++ t).
Proof.
  revert a. induction s as [|c s IH]; intros a Hs.
  - unfold split_once in Hs. destruct (strip_prefix sep "") as [r|] eqn:Hr; [|done]. injection Hs as <- ->.
    apply strip_prefix_Some in Hr. destruct sep; [|done]. simpl in Hr. subst b. by destruct t.
  - apply split_once_Some in Hs as Hlen. apply (f_equal String.length) in Hlen.
    rewrite !length_string_app in Hlen. change (String c s ++ t) with (String c (s ++ t)).
    unfold split_once in Hs |- *. fold split_once in Hs |- *.
    change (String c (s ++ t)) with (String c s ++ t).
    destruct (strip_prefix sep (String c s)) as [r|] eqn:Hr.
    + injection Hs as <- ->. apply strip_prefix_Some in Hr.
      by rewrite Hr, string_app_assoc, strip_prefix_app.
    + rewrite strip_prefix_longer by (done || lia).
      destruct (split_once sep s) as [[a' b']|] eqn:Hs'; [|done]. injection Hs as <- ->.
      by rewrite (IH a').
Qed.

(** Followed by the two-character separator [cc], the first separator is that one. *)
Definition pair_free (c : ascii) (s : string) : bool :=
  bool_decide (split_once (String c (String c "")) (s ++ String c "") = None).

Lemma char_free_pair c a : char_free c a = true → pair_free c a = true.
Proof.
  unfold pair_free. rewrite bool_decide_eq_true. induction a as [|x a IH]; simpl.
  - by rewrite Ascii.eqb_refl.
  - destruct (Ascii.eqb_spec c x) as [<-|Hcx]; [by rewrite Ascii.eqb_refl|]. intros [_ Ha]%andb_prop.
    by rewrite IH.
Qed.

Lemma split_once_app c a s :
  pair_free c a = true →
  split_once (String c (String c "")) (a ++ String c (String c s)) = Some (a, s).
Proof.
  unfold pair_free. rewrite bool_decide_eq_true.
  induction a as [|x a IH]; [simpl; by rewrite Ascii.eqb_refl|].
  simpl. destruct (Ascii.eqb_spec c x) as [<-|Hcx].
  - destruct a as [|y a]; [simpl; by rewrite Ascii.eqb_refl|]. simpl in *.
    destruct (Ascii.eqb_spec c y) as [|Hcy]; [done|]. intros Hnone.
    rewrite IH; [done|]. by destruct (split_once _ _).
  - intros Hnone. rewrite IH; [done|]. by destruct (split_once _ _).
Qed.

(** *** Numbers *)
Lemma show_u64_nonempty n : show_u64 n ≠ "".
Proof.
  unfold show_u64. destruct n as [|p]; simpl; [done|].
  destruct (Pos.to_uint p) eqn:Hp; simpl; try done.
  exfalso. apply (DecimalPos.Unsigned.to_uint_nonnil p). done.
Qed.

Lemma parse_digits_show n : parse_digits (show_u64 n) = Some n.
Proof.
  pose proof (show_u64_nonempty n) as Hne. unfold parse_digits.
  destruct (show_u64 n) as [|a s] eqn:Hs; [done|]. rewrite <- Hs. unfold show_u64.
  rewrite NilEmpty.usu; simpl. by rewrite DecimalN.Unsigned.of_to.
Qed.

Lemma show_u64_inj n m : show_u64 n = show_u64 m → n = m.
Proof. intros Heq. apply (f_equal parse_digits) in Heq. rewrite !parse_digits_show in Heq. congruence. Qed.

(** The digits of a number are digits. *)
Lemma show_u64_char_free n c :
  c = "_"%char ∨ c = "+"%char ∨ c = "-"%char → char_free c (show_u64 n) = true.
Proof.
  unfold show_u64. intros [-> | [-> | ->]]; by induction (N.to_uint n).
Qed.

Lemma char_free_head c s : char_free c (String c s) = true → False.
Proof. simpl. by rewrite Ascii.eqb_refl. Qed.

Lemma parse_u64_show n : (n < u64_modulus)%N → parse_u64 (show_u64 n) = Some n.
Proof.
  intros Hn. pose proof (show_u64_char_free n "+"%char) as Hplus.
  assert (match show_u64 n with String "+" s' => s' | _ => show_u64 n end = show_u64 n) as Heq.
  { destruct (show_u64 n) as [|a s]; [done|].
    destruct (Ascii.eqb_spec a "+") as [->|Ha]; [by destruct (char_free_head "+" s); auto|].
    destruct a as [[] [] [] [] [] [] [] []]; done. }
  unfold parse_u64. rewrite Heq, parse_digits_show; simpl.
  by destruct (N.ltb_spec n u64_modulus); [|lia].
Qed.

Lemma show_u64_first n a s :
  show_u64 n = String a s → a ≠ "+"%char ∧ a ≠ "-"%char ∧ a ≠ "_"%char.
Proof.
  intros Hs. split_and!; intros ->.
  - apply (char_free_head "+" s). rewrite <- Hs. apply show_u64_char_free. auto.
  - apply (char_free_head "-" s). rewrite <- Hs. apply show_u64_char_free. auto.
  - apply (char_free_head "_" s). rewrite <- Hs. apply show_u64_char_free. auto.
Qed.

Lemma parse_i64_show z :
  (- Z.of_N i64_limit <= z < Z.of_N i64_limit)%Z → parse_i64 (show_i64 z) = Some z.
Proof.
  intros Hz. unfold show_i64. destruct (Z.ltb_spec z 0) as [Hneg|Hpos].
  - change ("-" ++ show_u64 (Z.to_N (- z))) with (String "-" (show_u64 (Z.to_N (- z)))).
    cbn -[show_u64]. rewrite parse_digits_show. cbn.
    destruct (N.leb_spec (Z.to_N (- z)) i64_limit); [f_equal|]; lia.
  - assert (parse_i64 (show_u64 (Z.to_N z)) =
      (n ← parse_digits (show_u64 (Z.to_N z));
       if (n <? i64_limit)%N then Some (Z.of_N n) else None)) as ->.
    { unfold parse_i64. destruct (show_u64 (Z.to_N z)) as [|a s] eqn:Hs; [done|].
      apply show_u64_first in Hs as (Hp & Hm & _).
      destruct a as [[] [] [] [] [] [] [] []]; done. }
    rewrite parse_digits_show. cbn.
    destruct (N.ltb_spec (Z.to_N z) i64_limit); [f_equal|]; lia.
Qed.

(** ** White space *)
Local Open Scope N_scope.
Local Open Scope string_scope.

(** The UTF-8 encodings of the characters of Unicode's [White_Space]. *)
Definition utf8 (l : list N) : string := string_of_list_byte (to_byte <$> l).

Definition white_space : list string :=
  (((λ n, utf8 [n]) <$> [9; 10; 11; 12; 13; 32]) ++
   [utf8 [194; 133]; utf8 [194; 160]; utf8 [225; 154; 128]] ++
   ((λ n, utf8 [226; 128; n]) <$>
     [128; 129; 130; 131; 132; 133; 134; 135; 136; 137; 138; 168; 169; 175]) ++
   [utf8 [226; 129; 159]; utf8 [227; 128; 128]])%list.

Fixpoint trim_start (fuel : nat) (s : string) : string :=
  match fuel with
  | O => s
  | S fuel' =>
      match head (omap (λ c, strip_prefix c s) white_space) with
      | Some rest => trim_start fuel' rest
      | None => s
      end
  end.

Fixpoint trim_end (s : string) : string :=
  match s with
  | "" => ""
  | String c s' =>
      let t := String c (trim_end s') in
      if decide (t ∈ white_space) then "" else t
  end.

(** [str::trim]; every step of [trim_start] takes a character away. *)
Definition trim (s : string) : string := trim_end (trim_start (String.length s) s).

Lemma not_white_space c v :
  v ≠ "" → (N_of_ascii c <? 128)%N = true → String c v ∉ white_space.
Proof.
  intros Hv Hc Hin.
  assert (forallb (λ x, match x with
                        | String c s => bool_decide (s = "") || negb (N_of_ascii c <? 128)%N
                        | "" => true
                        end) white_space = true) as Hall by (vm_compute; reflexivity).
  rewrite forallb_forall in Hall. apply list_elem_of_In in Hin. specialize (Hall _ Hin). simpl in Hall.
  rewrite Hc, orb_false_r in Hall. by apply bool_decide_eq_true in Hall.
Qed.

(** Text in front that is ASCII stays in front. *)
Lemma trim_end_ascii a v :
  v ≠ "" → trim_end v = v → forallb (λ c, N_of_ascii c <? 128)%N (list_ascii_of_string a) = true →
  trim_end (a ++ v) = a ++ v ∧ a ++ v ≠ "".
Proof.
  intros Hv Ht. induction a as [|c a IH]; simpl; [done|]. intros [Hc Ha]%andb_prop.
  destruct (IH Ha) as [Hend Hne]. change (String c a ++ v) with (String c (a ++ v)). simpl.
  rewrite Hend, decide_False by by apply not_white_space. done.
Qed.
