(* ===== verification/Metrics.v ===== *)
(** * The metrics file ([src/src/logging/metrics_layer.rs], [src/src/logging/mod.rs],
    [src/src/logging/metrics.rs])

    What [metric!] records reaches a subscriber layer, which collects the fields
    of an event and appends a line of JSON to a file when the event is one of
    seven kinds.  The conversion of floats and the text of an entry are
    serde_json's; the time stamp is chrono's.  The file takes what is written to
    it.  The theorem says which events make a line. *)
From Stdlib Require Import Strings.String.
From stdpp Require Import base gmap sets list strings fin_maps.
From S2P Require Import Prelude.
Local Open Scope string_scope.

(** ** Fields and their JSON *)
Inductive Json : Type :=
| JNull
| JBool (b : bool)
| JNumber (text : string)
| JString (s : string).

Definition json_as_str (v : Json) : option string :=
  if v is JString s then Some s else None.

(** A value of a field, by the method of [Visit] that takes it. *)
Inductive FieldValue (F64 : Type) : Type :=
| F64Value (value : F64)
| I64Value (value : Z)
| U64Value (value : N)
| BoolValue (value : bool)
| StrValue (value : string)
| DebugValue (debug : string).
Arguments F64Value {F64}.
Arguments I64Value {F64}.
Arguments U64Value {F64}.
Arguments BoolValue {F64}.
Arguments StrValue {F64}.
Arguments DebugValue {F64}.

Record Event (F64 : Type) := mkEvent {
  ev_target : string;
  ev_level : string;
  ev_fields : list (string * FieldValue F64)
}.
Arguments mkEvent {F64}.
Arguments ev_target {F64}.
Arguments ev_level {F64}.
Arguments ev_fields {F64}.

(** The open file, and whether its mutex is poisoned. *)
Record MetricsLayer := mkMetricsLayer { ml_file : list string; ml_poisoned : bool }.

Section metrics.
Context {F64 : Type} (json_f64 : F64 → Json) (show_i64 : Z → string) (show_u64 : N → string).
Context (show_entry : string → string → gmap string Json → string).

(** [MetricsVisitor]: the last value of a field stays. *)
Definition record_field (fields : gmap string Json) (f : string * FieldValue F64) : gmap string Json :=
  <[f.1 := match f.2 with
           | F64Value value => json_f64 value
           | I64Value value => JNumber (show_i64 value)
           | U64Value value => JNumber (show_u64 value)
           | BoolValue value => JBool value
           | StrValue value => JString value
           | DebugValue value => JString value
           end]> fields.

Definition visit (event : Event F64) : gmap string Json := foldl record_field ∅ (ev_fields event).

(** The pattern of [matches!]. *)
Definition written_event (name : option string) : bool :=
  match name with
  | Some name =>
      bool_decide (name ∈ ["gc_coordinator_metrics"; "client_operation"; "knowledge_matrix";
                           "network_topology"; "or_set_metrics"; "send_envelope"; "receive_envelope"])
  | None => false
  end.

Definition on_event (self : MetricsLayer) (timestamp : string) (event : Event F64) : MetricsLayer :=
  if negb (bool_decide (ev_target event = "metrics")) then self
  else
    let fields := visit event in
    let entry := show_entry timestamp (ev_level event) fields in
    if negb (written_event (v ← fields !! "event"; json_as_str v)) then self
    else if ml_poisoned self then self
    else mkMetricsLayer (ml_file self ++ [entry]) (ml_poisoned self).

(** The macro [metric!]. *)
Definition metric (fields : list (string * FieldValue F64)) : Event F64 :=
  mkEvent "metrics" "TRACE" fields.

(** The filter of the console. *)
Definition on_console (event : Event F64) : bool := negb (bool_decide (ev_target event = "metrics")).

(** ** Properties *)
(** The name an event is known by: the text of its last [event] field. *)
Definition event_name (event : Event F64) : option string :=
  v ← visit event !! "event"; json_as_str v.

(** The file after any events, in order: what it held, then one line for
    each event of the metrics target whose name is one of the seven; such an
    event is not shown on the console.  Every other event, whatever its fields,
    leaves the file as it was. *)
Theorem metrics_file_lines (events : list (string * Event F64)) file :
  let kept := List.filter (λ te, negb (on_console te.2) && written_event (event_name te.2)) events in
  let self := foldl (λ l te, on_event l te.1 te.2) (mkMetricsLayer file false) events in
  ml_file self =
    (file ++ ((λ te, show_entry te.1 (ev_level te.2) (visit te.2)) <$> kept))%list ∧
  ml_poisoned self = false.
Proof.
  cbv zeta. revert file. induction events as [|[t e] events IH]; intros file; simpl;
    [by rewrite app_nil_r|].
  unfold on_event at 2 4. unfold on_console, event_name. simpl.
  destruct (bool_decide (ev_target e = "metrics")); simpl; [|apply IH].
  destruct (written_event _); simpl; [|apply IH].
  destruct (IH (file ++ [show_entry t (ev_level e) (visit e)])%list) as [-> ->].
  by rewrite <- app_assoc.
Qed.

(** The events that the code records and the file never shows: the S3 client's,
    the client's, and the phases of garbage collection. *)
Theorem unlisted_metrics_are_dropped self timestamp name fields :
  name ∈ ["gc_initiate"; "gc_observe_epoch_change"; "gc_performed"; "new_replica_bootstrap";
          "s3_ensure_bucket"; "s3_put_object"; "s3_put_object_if_absent"; "s3_get_object";
          "s3_get_object_optional"; "s3_delete_object"; "s3_list_object_keys";
          "interactive_command"; "bench_command"] →
  event_name (metric fields) = Some name →
  on_event self timestamp (metric fields) = self.
Proof.
  intros Hin Hname. unfold on_event. simpl. fold (event_name (metric fields)). rewrite Hname.
  repeat (apply elem_of_cons in Hin as [->|Hin]; [done|]). set_solver.
Qed.
End metrics.

(** ** Witnesses *)
Lemma unlisted_metrics_are_dropped_witness :
  on_event (F64 := unit) (λ _, JNull) (λ _, "") (λ _, "") (λ _ _ _, "") (mkMetricsLayer ["line"] false)
    "now" (metric [("event", StrValue "bench_command"); ("command", StrValue "key-1")]) = mkMetricsLayer ["line"] false.
Proof.
  exact (unlisted_metrics_are_dropped (λ _, JNull) (λ _, "") (λ _, "") (λ _ _ _, "")
    (mkMetricsLayer ["line"] false) "now" "bench_command"
    [("event", StrValue "bench_command"); ("command", StrValue "key-1")] ltac:(set_solver) eq_refl).
Defined.
