(* ===== verification/S3.v ===== *)
(** * The S3 client ([src/src/storage/s3_client.rs])

    The methods of [S3Client] over the operations of the AWS SDK, which are the
    class [AwsS3] on a world [W].  [AwsS3Ok] is the service's documented
    behaviour, a map from keys to bodies per bucket: a failed call may or may not
    have been applied, a conditional put fails with [PreconditionFailed] exactly
    when the key exists, a read fails with [NoSuchKey] exactly when it does not,
    and a listing returns the keys with the prefix in byte order, in pages.
    Bodies of records are JSON; serde_json is the class [Json]. *)
From Stdlib Require Import Strings.Byte Strings.String.
From stdpp Require Import base gmap sets list strings fin_maps sorting.
From S2P Require Import Prelude Text.
Local Open Scope N_scope.
Local Open Scope rust_scope.

(** ** The SDK *)
Inductive SdkError : Type :=
| ServiceError (code : option string)
| OtherSdkError (message : string).

#[export] Instance SdkError_eq_dec : EqDecision SdkError.
Proof. solve_decision. Defined.

Class AwsS3 (W : Type) := {
  aws_head_bucket : string → W → (unit + SdkError) * W;
  aws_create_bucket : string → W → (unit + SdkError) * W;
  aws_put_object : string → string → bytes → string → bool → W → (unit + SdkError) * W;
  aws_get_object : string → string → W → (bytes + SdkError) * W;
  aws_delete_object : string → string → W → (unit + SdkError) * W;
  aws_list_objects_v2 : string → string → option string → W →
    (list (option string) * option string + SdkError) * W;
  sdk_display : SdkError → string
}.

(** The keys with a prefix, in the order of a listing. *)
Definition listing (prefix : string) (objects : gmap string bytes) : list string :=
  merge_sort (λ a b, Is_true (String.leb a b))
    (elements (filter (λ k, starts_with prefix k = true) (dom objects))).

Class AwsS3Ok (W : Type) `{AwsS3 W} (objects : W → string → gmap string bytes) := {
  (** the pages of a listing, and the tokens that lead to them *)
  pages : W → string → string → list (list string);
  page_token : W → string → string → nat → string;
  aws_put_ok : ∀ b k v t w, let r := aws_put_object b k v t false w in
    match r.1 with
    | inl _ => objects r.2 b = <[k := v]> (objects w b)
    | inr _ => objects r.2 b = objects w b ∨ objects r.2 b = <[k := v]> (objects w b)
    end;
  aws_put_absent_ok : ∀ b k v t w, let r := aws_put_object b k v t true w in
    match r.1 with
    | inl _ => objects w b !! k = None ∧ objects r.2 b = <[k := v]> (objects w b)
    | inr e =>
        if decide (e = ServiceError (Some "PreconditionFailed"))
        then is_Some (objects w b !! k) ∧ objects r.2 b = objects w b
        else objects r.2 b = objects w b ∨
             (objects w b !! k = None ∧ objects r.2 b = <[k := v]> (objects w b))
    end;
  aws_get_ok : ∀ b k w, let r := aws_get_object b k w in
    objects r.2 b = objects w b ∧
    match r.1 with
    | inl v => objects w b !! k = Some v
    | inr e => e = ServiceError (Some "NoSuchKey") → objects w b !! k = None
    end;
  aws_delete_ok : ∀ b k w, let r := aws_delete_object b k w in
    match r.1 with
    | inl _ => objects r.2 b = delete k (objects w b)
    | inr _ => objects r.2 b = objects w b ∨ objects r.2 b = delete k (objects w b)
    end;
  pages_ok : ∀ b p w, pages w b p ≠ [] ∧ concat (pages w b p) = listing p (objects w b);
  aws_list_ok : ∀ b p i page w, pages w b p !! i = Some page →
    let r := aws_list_objects_v2 b p (if decide (i = 0%nat) then None else Some (page_token w b p i)) w in
    (objects r.2 b = objects w b ∧ pages r.2 b p = pages w b p ∧
     page_token r.2 b p = page_token w b p) ∧
    match r.1 with
    | inl (contents, next) =>
        contents = Some <$> page ∧
        next = if decide (S i < length (pages w b p))%nat then Some (page_token w b p (S i)) else None
    | inr _ => True
    end
}.

Class Json (T : Type) := {
  json_to_vec : T → bytes;
  json_from_slice : bytes → result T
}.

Class JsonOk (T : Type) `{Json T} := {
  json_round_trip : ∀ v : T, json_from_slice (json_to_vec v) = Ok v
}.

(** ** The client *)
Module S3ClientImpl.
Section impl.
Context {W : Type} `{AwsS3 W}.

(** [call().await?] with [anyhow]'s conversion of the error. *)
Definition question {A} (r : (A + SdkError) * W) : result A * W :=
  match r with
  | (inl a, w) => (Ok a, w)
  | (inr e, w) => (Err (sdk_display e), w)
  end.

Definition ensure_bucket (bucket : string) (w : W) : result unit * W :=
  match aws_head_bucket bucket w with
  | (inl _, w) => (Ok tt, w)
  | (inr _, w) =>
      match aws_create_bucket bucket w with
      | (inl _, w) => (Ok tt, w)
      | (inr e, w) => (Err (sdk_display e), w)
      end
  end.

Definition put_object (bucket key : string) (body : bytes) (content_type : string) (w : W)
    : result unit * W :=
  question (aws_put_object bucket key body content_type false w).

Definition put_object_if_absent (bucket key : string) (body : bytes) (content_type : string) (w : W)
    : result bool * W :=
  match aws_put_object bucket key body content_type true w with
  | (inl _, w) => (Ok true, w)
  | (inr (ServiceError code), w) =>
      let code := default "" code in
      if decide (code = "PreconditionFailed") then (Ok false, w)
      else (Err ("put_object_if_absent failed for key " ++ key ++ ": " ++ code)%string, w)
  | (inr e, w) =>
      (Err ("put_object_if_absent failed for key " ++ key ++ ": " ++ sdk_display e)%string, w)
  end.

Definition get_object (bucket key : string) (w : W) : result bytes * W :=
  question (aws_get_object bucket key w).

Definition get_object_optional (bucket key : string) (w : W) : result (option bytes) * W :=
  match aws_get_object bucket key w with
  | (inl body, w) => (Ok (Some body), w)
  | (inr (ServiceError code), w) =>
      let code := default "" code in
      if decide (code = "NoSuchKey") then (Ok None, w)
      else (Err ("get_object_optional failed for key " ++ key ++ ": " ++ code)%string, w)
  | (inr e, w) =>
      (Err ("get_object_optional failed for key " ++ key ++ ": " ++ sdk_display e)%string, w)
  end.

Definition delete_object (bucket key : string) (w : W) : result unit * W :=
  question (aws_delete_object bucket key w).

(** The loop over the pages. *)
Fixpoint list_pages (fuel : nat) (bucket prefix : string) (continuation_token : option string)
    (keys : list string) (w : W) : option (result (list string) * W) :=
  match fuel with
  | O => None
  | S fuel' =>
      match aws_list_objects_v2 bucket prefix continuation_token w with
      | (inr e, w) => Some (Err (sdk_display e), w)
      | (inl (contents, next_token), w) =>
          let keys := keys ++ omap id contents in
          match next_token with
          | Some token => list_pages fuel' bucket prefix (Some token) keys w
          | None => Some (Ok keys, w)
          end
      end
  end.

Definition list_object_keys (fuel : nat) (bucket prefix : string) (w : W)
    : option (result (list string) * W) :=
  list_pages fuel bucket prefix None [] w.

Section json.
Context {T : Type} `{Json T}.

Definition put_json (bucket key : string) (value : T) (w : W) : result unit * W :=
  put_object bucket key (json_to_vec value) "application/json" w.

Definition put_json_if_absent (bucket key : string) (value : T) (w : W) : result bool * W :=
  put_object_if_absent bucket key (json_to_vec value) "application/json" w.

Definition decode_json (key : string) (body : bytes) : result T :=
  match json_from_slice body with
  | Ok v => Ok v
  | Err e => Err ("failed to decode json for key " ++ key ++ ": " ++ e)%string
  end.

Definition get_json (bucket key : string) (w : W) : result T * W :=
  match get_object bucket key w with
  | (Ok body, w) => (decode_json key body, w)
  | (Err e, w) => (Err e, w)
  end.

Definition get_json_optional (bucket key : string) (w : W) : result (option T) * W :=
  match get_object_optional bucket key w with
  | (Ok (Some body), w) => (v <-? decode_json key body ;; Ok (Some v), w)
  | (Ok None, w) => (Ok None, w)
  | (Err e, w) => (Err e, w)
  end.
End json.
End impl.
End S3ClientImpl.

Import S3ClientImpl.

(** ** Lemmas *)
Lemma elem_of_listing p (m : gmap string bytes) k :
  k ∈ listing p m ↔ starts_with p k = true ∧ is_Some (m !! k).
Proof.
  unfold listing. rewrite merge_sort_Permutation, elem_of_elements, elem_of_filter.
  by rewrite elem_of_dom.
Qed.

(** Objects outside a prefix do not show in its listing. *)
Lemma listing_dom p (m m' : gmap string bytes) :
  (∀ k, starts_with p k = true → is_Some (m !! k) ↔ is_Some (m' !! k)) →
  listing p m = listing p m'.
Proof.
  intros Hm. unfold listing. do 2 f_equal. apply set_eq. intros k.
  rewrite !elem_of_filter, !elem_of_dom. specialize (Hm k). tauto.
Qed.

(** *** The order of a listing *)
Abbreviation string_le := (λ a b, Is_true (String.leb a b)).

Lemma compare_le_trans a b c :
  String.compare a b ≠ Gt → String.compare b c ≠ Gt → String.compare a c ≠ Gt.
Proof.
  revert b c. induction a as [|x a IH]; intros [|y b] [|z c]; simpl; try done.
  unfold Ascii.compare. destruct (N.compare_spec (Ascii.N_of_ascii x) (Ascii.N_of_ascii y)) as [Hxy|Hxy|Hxy],
    (N.compare_spec (Ascii.N_of_ascii y) (Ascii.N_of_ascii z)) as [Hyz|Hyz|Hyz]; try done;
    destruct (N.compare_spec (Ascii.N_of_ascii x) (Ascii.N_of_ascii z)); try done; try (exfalso; lia). apply IH.
Qed.

#[local] Instance string_le_trans : Transitive string_le.
Proof.
  intros a b c. unfold String.leb. pose proof (compare_le_trans a b c) as Ht.
  destruct (String.compare a b), (String.compare b c), (String.compare a c); simpl; try done; intros _ _;
    by apply Ht.
Qed.

#[local] Instance string_le_total : Total string_le.
Proof. intros a b. destruct (String.leb_total a b) as [-> | ->]; [by left|by right]. Qed.

#[local] Instance string_le_antisymm : AntiSymm (=) string_le.
Proof. intros a b Ha%Is_true_true Hb%Is_true_true. by apply String.leb_antisym. Qed.

Lemma StronglySorted_filter {A} (R : relation A) (P : A → Prop) `{∀ x, Decision (P x)} l :
  StronglySorted R l → StronglySorted R (filter P l).
Proof.
  induction 1 as [|x l Hl IH Hx]; [constructor|]. rewrite filter_cons. case_decide; [|done].
  constructor; [done|]. apply Forall_forall. intros y [_ Hy]%list_elem_of_filter.
  by apply (proj1 (Forall_forall _ _) Hx).
Qed.

Lemma listing_NoDup p (m : gmap string bytes) : NoDup (listing p m).
Proof. unfold listing. rewrite merge_sort_Permutation. apply NoDup_elements. Qed.

(** The keys of one kind are listed alike when they are the same. *)
Lemma listing_filter p (Q : string → Prop) `{∀ k, Decision (Q k)} (m m' : gmap string bytes) :
  (∀ k, Q k → starts_with p k = true → is_Some (m !! k) ↔ is_Some (m' !! k)) →
  filter Q (listing p m) = filter Q (listing p m').
Proof.
  intros Hm. apply (StronglySorted_unique string_le);
    [apply StronglySorted_filter, StronglySorted_merge_sort; apply _..|].
  apply NoDup_Permutation; [apply NoDup_filter, listing_NoDup..|].
  intros k. rewrite !list_elem_of_filter, !elem_of_listing. naive_solver.
Qed.

Lemma listing_insert p k v (m : gmap string bytes) :
  starts_with p k = false → listing p (<[k := v]> m) = listing p m.
Proof.
  intros Hk. apply listing_dom. intros k' Hk'. rewrite lookup_insert_ne by congruence. done.
Qed.

Lemma listing_delete p k (m : gmap string bytes) :
  starts_with p k = false → listing p (delete k m) = listing p m.
Proof.
  intros Hk. apply listing_dom. intros k' Hk'. rewrite lookup_delete_ne by congruence. done.
Qed.

Section lemmas.
Context {W : Type} `{AwsS3 W} {objects : W → string → gmap string bytes} `{!AwsS3Ok W objects}.

Lemma list_pages_ok n b p i keys w :
  (i < length (pages w b p))%nat → (length (pages w b p) - i <= n)%nat →
  keys = concat (take i (pages w b p)) →
  ∃ r w', list_pages n b p (if decide (i = 0%nat) then None else Some (page_token w b p i)) keys w =
      Some (r, w') ∧ objects w' b = objects w b ∧
    match r with Ok l => l = listing p (objects w b) | Err _ => True end.
Proof.
  revert i keys w. induction n as [|n IH]; intros i keys w Hi Hn Hkeys; [lia|].
  destruct (lookup_lt_is_Some_2 (pages w b p) i Hi) as [page Hpage]. simpl.
  destruct (aws_list_ok b p i page w Hpage) as [(Hobj & Hpages & Htok) Hres].
  destruct (aws_list_objects_v2 b p _ w) as [[[contents next]|e] w1]; simpl in *.
  2: { by eexists _, w1. }
  destruct Hres as [-> ->].
  assert (keys ++ omap id (Some <$> page) = concat (take (S i) (pages w b p))) as Hk.
  { rewrite (take_S_r _ _ page), concat_app, Hkeys by done. simpl. rewrite app_nil_r. f_equal.
    clear. induction page; simpl; [done|]. by f_equal. }
  rewrite Hk. case_decide as Hlast.
  - destruct (IH (S i) (concat (take (S i) (pages w b p))) w1) as (r & w' & Hl & Hobj' & Hr).
    + by rewrite Hpages.
    + rewrite Hpages. lia.
    + by rewrite Hpages.
    + rewrite Htok in Hl. exists r, w'. split; [exact Hl|]. rewrite Hobj', Hobj in *. done.
  - eexists _, w1. split_and!; [done|done|]. rewrite take_ge by lia. by apply pages_ok.
Qed.

(** With fuel for its pages, a listing ends, with the keys or an error. *)
Lemma list_object_keys_ok fuel b p w :
  (length (pages w b p) <= fuel)%nat →
  ∃ r w', list_object_keys fuel b p w = Some (r, w') ∧ objects w' b = objects w b ∧
    match r with Ok l => l = listing p (objects w b) | Err _ => True end.
Proof.
  intros Hf. destruct (pages_ok b p w) as [Hne _].
  apply (list_pages_ok fuel b p 0 [] w); [|lia|done]. destruct (pages w b p); simpl; [done|lia].
Qed.

Lemma put_object_ok b k v t w :
  let '(r, w') := put_object b k v t w in
  objects w' b = <[k := v]> (objects w b) ∨ (is_ok r = false ∧ objects w' b = objects w b).
Proof.
  unfold put_object, question. pose proof (aws_put_ok b k v t w) as Hp.
  destruct (aws_put_object b k v t false w) as [[[]|e] w']; simpl in *; tauto.
Qed.

Lemma put_if_absent_ok b k v t w :
  let '(r, w') := put_object_if_absent b k v t w in
  match r with
  | Ok true => objects w b !! k = None ∧ objects w' b = <[k := v]> (objects w b)
  | Ok false => is_Some (objects w b !! k) ∧ objects w' b = objects w b
  | Err _ => objects w' b = objects w b ∨
             (objects w b !! k = None ∧ objects w' b = <[k := v]> (objects w b))
  end.
Proof.
  unfold put_object_if_absent. pose proof (aws_put_absent_ok b k v t w) as Hp.
  destruct (aws_put_object b k v t true w) as [[[]|[[code|]|m]] w']; simpl in *; try done.
  destruct (decide (code = "PreconditionFailed")) as [->|Hne].
  - by rewrite decide_True in Hp.
  - rewrite decide_False in Hp; [done|]. by intros [= ?].
Qed.

Lemma get_optional_ok b k w :
  let '(r, w') := get_object_optional b k w in
  objects w' b = objects w b ∧ match r with Ok o => o = objects w b !! k | Err _ => True end.
Proof.
  unfold get_object_optional. pose proof (aws_get_ok b k w) as Hg.
  destruct (aws_get_object b k w) as [[v|[[code|]|m]] w']; simpl in *; try tauto.
  - by destruct Hg as [? ->].
  - destruct (decide (code = "NoSuchKey")) as [->|]; [|tauto].
    destruct Hg as [? Hg]. by rewrite Hg.
Qed.

Lemma delete_object_ok b k w :
  let '(r, w') := delete_object b k w in
  objects w' b = delete k (objects w b) ∨ (is_ok r = false ∧ objects w' b = objects w b).
Proof.
  unfold delete_object, question. pose proof (aws_delete_ok b k w) as Hp.
  destruct (aws_delete_object b k w) as [[[]|e] w']; simpl in *; tauto.
Qed.

Lemma get_json_optional_ok {T} `{JsonOk T} b k w (o : option T) :
  objects w b !! k = json_to_vec <$> o →
  let '(r, w') := get_json_optional (T := T) b k w in
  objects w' b = objects w b ∧ match r with Ok o' => o' = o | Err _ => True end.
Proof.
  intros Ho. unfold get_json_optional. pose proof (get_optional_ok b k w) as Hg.
  destruct (get_object_optional b k w) as [[[body|]|e] w']; destruct Hg as [? Hg]; simpl;
    [|split; [done|]; by destruct o; rewrite Ho in Hg|done].
  split; [done|]. rewrite Ho in Hg. destruct o as [v|]; simplify_eq/=.
  unfold decode_json. by rewrite json_round_trip.
Qed.

(** A service that answers every request. *)
Record reliable : Prop := {
  put_reliable : ∀ b k v t w, is_ok (put_object b k v t w).1 = true;
  delete_reliable : ∀ b k w, is_ok (delete_object b k w).1 = true;
  list_reliable : ∀ b p t w, ∃ x, (aws_list_objects_v2 b p t w).1 = inl x
}.

Lemma list_pages_reliable fuel b p t keys w r w' :
  reliable → list_pages fuel b p t keys w = Some (r, w') → is_ok r = true.
Proof.
  intros Hrel. revert t keys w. induction fuel as [|fuel IH]; intros t keys w; simpl; [done|].
  destruct (list_reliable Hrel b p t w) as [x Hx].
  destruct (aws_list_objects_v2 b p t w) as [[[contents next]|e] w1]; [|done].
  destruct next; [apply IH|]. by intros [= <- _].
Qed.
End lemmas.

(** ** A concrete service *)
(** Buckets in memory, which never fail and list in one page. *)
Abbreviation Buckets := (gmap string (gmap string bytes)) (only parsing).

Definition bucket_objects (w : Buckets) (b : string) : gmap string bytes := default ∅ (w !! b).

#[export] Instance memory_s3 : AwsS3 Buckets := {|
  aws_head_bucket := λ b w, (inl tt, w);
  aws_create_bucket := λ b w, (inl tt, w);
  aws_put_object := λ b k v _ if_none_match w,
    if if_none_match && bool_decide (is_Some (bucket_objects w b !! k))
    then (inr (ServiceError (Some "PreconditionFailed")), w)
    else (inl tt, <[b := <[k := v]> (bucket_objects w b)]> w);
  aws_get_object := λ b k w,
    match bucket_objects w b !! k with
    | Some v => (inl v, w)
    | None => (inr (ServiceError (Some "NoSuchKey")), w)
    end;
  aws_delete_object := λ b k w, (inl tt, <[b := delete k (bucket_objects w b)]> w);
  aws_list_objects_v2 := λ b p token w,
    (inl (Some <$> listing p (bucket_objects w b), None), w);
  sdk_display := λ e, match e with ServiceError _ => "service error" | OtherSdkError m => m end
|}.

#[export] Instance memory_s3_ok : AwsS3Ok Buckets bucket_objects.
Proof.
  refine {| pages := λ w b p, [listing p (bucket_objects w b)]; page_token := λ _ _ _ _, "" |}.
  - intros. simpl. unfold bucket_objects at 1. by rewrite lookup_insert_eq.
  - intros. subst r. simpl. case_bool_decide as Hk; simpl; [done|].
    split; [by apply eq_None_not_Some|]. unfold bucket_objects at 1. by rewrite lookup_insert_eq.
  - intros. subst r. simpl. by destruct (bucket_objects w b !! k) eqn:Hk.
  - intros. simpl. unfold bucket_objects at 1. by rewrite lookup_insert_eq.
  - intros. simpl. by rewrite app_nil_r.
  - intros b p i page w Hp. destruct i as [|i]; [|done]. injection Hp as <-. by simpl.
Defined.
