(* ===== verification/Discovery.v ===== *)
(** * Discovery ([src/src/peers/discovery.rs])

    Live nodes are keys under [nodes/] in the bucket.  The text of a key holds
    the registration; [parse_registration_key] reads it back.  Time is chrono's:
    the class [Chrono], with the round trip of millisecond timestamps as its law. *)
From Stdlib Require Import Strings.Byte Strings.String Strings.Ascii.
From stdpp Require Import base gmap sets list strings fin_maps.
From S2P Require Import Prelude Text S3.
Import S3ClientImpl.
Local Open Scope N_scope.
Local Open Scope rust_scope.
Local Open Scope string_scope.

(** ** Time *)
Class Chrono (T : Type) := {
  timestamp_millis : T → Z;
  from_timestamp_millis : Z → option T
}.

Class ChronoOk (T : Type) `{Chrono T} := {
  millis_in_range : ∀ t : T, (- Z.of_N i64_limit <= timestamp_millis t < Z.of_N i64_limit)%Z;
  from_millis : ∀ t : T, ∃ t', from_timestamp_millis (timestamp_millis t) = Some t' ∧
                               timestamp_millis t' = timestamp_millis t
}.

(** ** Registrations *)
(** Durations are nanoseconds. *)
Record DiscoveryConfig := mkDiscoveryConfig {
  dc_endpoint : string;
  dc_bucket : string;
  dc_region : string;
  dc_access_key : string;
  dc_secret_key : string;
  poll_interval : N;
  registration_ttl : N;
  dc_gc_replica : bool;
  connect_node_ids : option (gset NodeId)
}.

Record NodeRegistration (T : Type) := mkNodeRegistration {
  reg_node_id : NodeId;
  reg_node_name : string;
  reg_addr : string;
  reg_gc_replica : bool;
  expires_at : T
}.
Arguments mkNodeRegistration {T}.
Arguments reg_node_id {T}.
Arguments reg_node_name {T}.
Arguments reg_addr {T}.
Arguments reg_gc_replica {T}.
Arguments expires_at {T}.

Definition DISCOVERY_NODES_PREFIX : string := "nodes/".

Definition FINAL_DOTS_PREFIX : string := "final_dots/".

Section registrations.
Context {T : Type} `{Chrono T}.

Definition registration_key (node_id : NodeId) (expires_at : T) (gc_replica : bool) (addr : string)
    : string :=
  DISCOVERY_NODES_PREFIX ++ node_id ++ "__" ++ (if gc_replica then "1" else "0") ++ "__" ++ addr ++
  "__" ++ show_i64 (timestamp_millis expires_at) ++ ".json".

Definition registration_key_prefix (node_id : NodeId) : string :=
  DISCOVERY_NODES_PREFIX ++ node_id ++ "__".

Definition parse_registration_key (key : string) : result (NodeRegistration T) :=
  rest <-? ok_or (strip_prefix DISCOVERY_NODES_PREFIX key) "invalid discovery key prefix" ;;
  stem <-? ok_or (strip_suffix ".json" rest) "invalid discovery key suffix" ;;
  let parts := splitn 4 "__" stem in
  node_id <-? ok_or (match parts !! 0%nat with
                     | Some p => if decide (p = "") then None else Some p
                     | None => None
                     end) "missing node_id in discovery key" ;;
  marker <-? ok_or (parts !! 1%nat) "missing gc_replica in discovery key" ;;
  gc_replica <-? (if decide (marker = "1") then Ok true
                  else if decide (marker = "0") then Ok false
                  else Err ("invalid gc_replica marker `" ++ marker ++ "` in discovery key")) ;;
  addr <-? ok_or (parts !! 2%nat) "missing socket address in discovery key" ;;
  millis <-? ok_or (parts !! 3%nat) "missing ttl timestamp in discovery key" ;;
  expires_millis <-? ok_or (parse_i64 millis) "invalid integer" ;;
  expires_at <-? ok_or (from_timestamp_millis expires_millis) "invalid ttl timestamp in discovery key" ;;
  Ok {| reg_node_id := node_id; reg_node_name := node_id; reg_addr := addr;
        reg_gc_replica := gc_replica; expires_at := expires_at |}.

Context {W : Type} `{AwsS3 W}.

(** The loop over the keys: the last registration of a node wins, keys that do
    not parse are logged. *)
Definition insert_registration (by_node : gmap NodeId (NodeRegistration T)) (key : string)
    : gmap NodeId (NodeRegistration T) :=
  match parse_registration_key key with
  | Ok reg_key => <[reg_node_id reg_key := reg_key]> by_node
  | Err _ => by_node
  end.

Definition list_live_registrations (fuel : nat) (bucket : string) (w : W)
    : option (result (list (NodeRegistration T)) * W) :=
  '(r, w) ← list_object_keys fuel bucket DISCOVERY_NODES_PREFIX w;
  Some (keys <-? r ;; Ok (map_to_list (foldl insert_registration ∅ keys)).*2, w).

Definition list_live_node_ids (fuel : nat) (bucket : string) (w : W)
    : option (result (list NodeId) * W) :=
  '(r, w) ← list_live_registrations fuel bucket w;
  Some (regs <-? r ;; Ok (dedup (sort_ids (reg_node_id <$> regs))), w).

(** ** The service *)
Record Discovery := mkDiscovery {
  d_config : DiscoveryConfig;
  d_self_id : NodeId;
  d_node_name : string;
  listen_host : string;
  listen_port : string
}.

(** The bucket is created when it is missing. *)
Definition new_discovery (config : DiscoveryConfig) (node_id : NodeId)
    (_node_name host port : string) (w : W) : result Discovery * W :=
  match ensure_bucket (dc_bucket config) w with
  | (Err e, w) => (Err e, w)
  | (Ok _, w) => (Ok (mkDiscovery config node_id _node_name host port), w)
  end.

(** [expiry] is [Utc::now() + ttl] when the ttl is in chrono's range. *)
Definition register (fuel : nat) (self : Discovery) (expiry : result T) (w : W)
    : option (result unit * W) :=
  match expiry with
  | Err e => Some (Err e, w)
  | Ok expires_at =>
      let listen_addr := listen_host self ++ ":" ++ listen_port self in
      let key := registration_key (d_self_id self) expires_at (dc_gc_replica (d_config self)) listen_addr in
      let body := [x22; x22] in (* the JSON text of the empty string *)
      '(r, w) ← list_object_keys fuel (dc_bucket (d_config self))
                  (registration_key_prefix (d_self_id self)) w;
      Some match r with
           | Err e => (Err e, w)
           | Ok current_keys =>
               if decide (current_keys = [])
               then put_object (dc_bucket (d_config self)) key body "application/json" w
               else (Ok tt, w)
           end
  end.

Definition deregister (fuel : nat) (self : Discovery) (prefix : string) (final_dot : Counter)
    (final_state : bytes) (w : W) : option (result unit * W) :=
  '(r, w) ← list_object_keys fuel (dc_bucket (d_config self))
              (registration_key_prefix (d_self_id self)) w;
  Some match r with
       | Err e => (Err e, w)
       | Ok current_keys =>
           match put_object (dc_bucket (d_config self))
                   (prefix ++ "/" ++ FINAL_DOTS_PREFIX ++ d_self_id self ++ "_" ++
                    show_u64 final_dot ++ ".json")
                   final_state "application/json" w with
           | (Err e, w) => (Err e, w)
           | (Ok _, w) =>
               (Ok tt, foldl (λ w old_key, (delete_object (dc_bucket (d_config self)) old_key w).2)
                         w current_keys)
           end
       end.

Definition list_live_peers (fuel : nat) (self : Discovery) (w : W)
    : option (result (list (NodeRegistration T)) * W) :=
  '(r, w) ← list_live_registrations fuel (dc_bucket (d_config self)) w;
  Some (all <-? r ;;
        let all := List.filter (λ reg, negb (bool_decide (reg_node_id reg = d_self_id self))) all in
        Ok match connect_node_ids (d_config self) with
           | Some allowed_ids =>
               List.filter (λ reg, bool_decide (reg_node_id reg ∈ allowed_ids)) all
           | None => all
           end, w).
End registrations.

(** ** Lemmas *)
Definition node_id_ok (n : NodeId) : Prop := n ≠ "" ∧ pair_free "_"%char n = true.

Lemma splitn_pair n (a rest : string) :
  pair_free "_"%char a = true →
  splitn (S (S n)) "__" (a ++ "__" ++ rest) = a :: splitn (S n) "__" rest.
Proof.
  intros Ha. change (a ++ "__" ++ rest) with (a ++ String "_" (String "_" rest)).
  change (splitn (S (S n)) "__" (a ++ String "_" (String "_" rest))) with
    (match split_once "__" (a ++ String "_" (String "_" rest)) with
     | Some (part, rest) => part :: splitn (S n) "__" rest
     | None => [a ++ String "_" (String "_" rest)]
     end).
  by rewrite split_once_app.
Qed.

Lemma parse_registration_parts {T} `{ChronoOk T} n g addr (t : T) :
  node_id_ok n → pair_free "_"%char addr = true →
  ∃ t', parse_registration_key (registration_key n t g addr) =
      Ok (mkNodeRegistration n n addr g t') ∧ timestamp_millis t' = timestamp_millis t.
Proof.
  intros [Hne Hn] Haddr. destruct (from_millis t) as (t' & Ht' & Hmillis). exists t'.
  split; [|done]. unfold parse_registration_key, registration_key.
  rewrite strip_prefix_app. cbn [ok_or result_bind].
  replace (strip_suffix ".json" _) with
    (Some (n ++ "__" ++ (if g then "1" else "0") ++ "__" ++ addr ++ "__" ++
           show_i64 (timestamp_millis t))).
  2: { symmetry. apply strip_suffix_Some. by rewrite !string_app_assoc. }
  cbn [ok_or result_bind]. rewrite (splitn_pair 2) by done.
  rewrite (splitn_pair 1) by (by destruct g). rewrite (splitn_pair 0) by done.
  cbn [splitn lookup list_lookup]. rewrite decide_False by done. cbn [ok_or result_bind].
  rewrite parse_i64_show by apply millis_in_range. cbn [ok_or result_bind]. rewrite Ht'.
  by destruct g.
Qed.

(** A key that parses names a node before its first separator. *)
Lemma parse_registration_split {T} `{Chrono T} key (reg : NodeRegistration T) :
  parse_registration_key key = Ok reg →
  ∃ stem rest, key = DISCOVERY_NODES_PREFIX ++ stem ++ ".json" ∧
    split_once "__" stem = Some (reg_node_id reg, rest).
Proof.
  unfold parse_registration_key.
  destruct (strip_prefix DISCOVERY_NODES_PREFIX key) as [rest|] eqn:Hrest; [|done].
  cbn [ok_or result_bind]. destruct (strip_suffix ".json" rest) as [stem|] eqn:Hstem; [|done].
  cbn [ok_or result_bind]. apply strip_prefix_Some in Hrest. apply strip_suffix_Some in Hstem.
  change (splitn 4 "__" stem) with
    (match split_once "__" stem with
     | Some (part, rest) => part :: splitn 3 "__" rest
     | None => [stem]
     end).
  destruct (split_once "__" stem) as [[n rest']|] eqn:Hsplit; cbn [lookup list_lookup].
  2: { case_decide; [done|]. done. }
  case_decide; [done|]. cbn [ok_or result_bind]. intros Hp.
  exists stem, rest'. split; [by rewrite Hrest, Hstem|]. rewrite Hsplit. do 2 f_equal. symmetry.
  revert Hp. destruct (splitn 3 "__" rest' !! 0%nat) as [marker|]; cbn [ok_or result_bind]; [|done].
  destruct (decide (marker = "1")); [|destruct (decide (marker = "0")); [|done]];
    cbn [result_bind];
    (destruct (splitn 3 "__" rest' !! 1%nat); [|done]); cbn [ok_or result_bind];
    (destruct (splitn 3 "__" rest' !! 2%nat) as [millis|]; [|done]); cbn [ok_or result_bind];
    (destruct (parse_i64 millis) as [z|]; [|done]); cbn [ok_or result_bind];
    (destruct (from_timestamp_millis z); [|done]); by intros [= <-].
Qed.

(** Such a key is one of that node's. *)
Lemma parse_registration_prefix {T} `{Chrono T} key (reg : NodeRegistration T) :
  parse_registration_key key = Ok reg →
  starts_with (registration_key_prefix (reg_node_id reg)) key = true.
Proof.
  intros (stem & rest & -> & Hsplit%split_once_Some)%parse_registration_split.
  apply starts_with_spec. exists (rest ++ ".json"). unfold registration_key_prefix.
  by rewrite Hsplit, !string_app_assoc.
Qed.

(** Of the nodes whose id has no separator, only that one has the key. *)
Lemma parse_registration_owner {T} `{Chrono T} key (reg : NodeRegistration T) n :
  parse_registration_key key = Ok reg → pair_free "_"%char n = true →
  starts_with (registration_key_prefix n) key = true → reg_node_id reg = n.
Proof.
  intros (stem & rest & -> & Hsplit)%parse_registration_split Hn [rest' Hk]%starts_with_spec.
  unfold registration_key_prefix in Hk. rewrite !string_app_assoc in Hk. apply string_app_inj_l in Hk.
  apply (split_once_longer _ _ ".json") in Hsplit. rewrite Hk in Hsplit.
  change (n ++ "__" ++ rest') with (n ++ String "_" (String "_" rest')) in Hsplit.
  rewrite split_once_app in Hsplit by done. congruence.
Qed.

Lemma registration_key_own {T} `{Chrono T} n (t : T) g addr :
  starts_with (registration_key_prefix n) (registration_key n t g addr) = true.
Proof.
  apply starts_with_spec. eexists. unfold registration_key_prefix, registration_key.
  by rewrite !string_app_assoc.
Qed.

(** The live node ids that the keys of the bucket stand for. *)
Definition live_ids_of {T} `{Chrono T} (objs : gmap string bytes) : list NodeId :=
  dedup (sort_ids (reg_node_id <$>
    (map_to_list (foldl (insert_registration (T := T)) ∅ (listing DISCOVERY_NODES_PREFIX objs))).*2)).

Lemma registration_loop_lookup {T} `{Chrono T} keys m n :
  is_Some (foldl (insert_registration (T := T)) m keys !! n) →
  is_Some (m !! n) ∨ ∃ k reg, k ∈ keys ∧ parse_registration_key k = Ok reg ∧ reg_node_id reg = n.
Proof.
  revert m. induction keys as [|k keys IH]; intros m; simpl; [by left|].
  intros [Hm|(k' & reg & Hk' & Hp)]%IH; [|right; exists k', reg; set_solver].
  unfold insert_registration in Hm. destruct (parse_registration_key k) as [reg|] eqn:Hk; [|by left].
  destruct (decide (reg_node_id reg = n)) as [Hn|Hn].
  - right. exists k, reg. set_solver.
  - left. by rewrite lookup_insert_ne in Hm.
Qed.

(** Registrations are filed under their node. *)
Lemma registration_loop_ids {T} `{Chrono T} keys (m : gmap NodeId (NodeRegistration T)) n reg :
  (∀ k r, m !! k = Some r → k = reg_node_id r) →
  foldl insert_registration m keys !! n = Some reg → n = reg_node_id reg.
Proof.
  revert m. induction keys as [|k keys IH]; intros m Hm; simpl; [apply Hm|]. apply IH.
  unfold insert_registration. destruct (parse_registration_key k) as [r|]; [|done].
  intros k' r'. rewrite lookup_insert. case_decide; [naive_solver|apply Hm].
Qed.

(** A listed node id has a key that names it. *)
Lemma live_ids_inv {T} `{Chrono T} objs n :
  n ∈ live_ids_of (T := T) objs →
  ∃ k (reg : NodeRegistration T), is_Some (objs !! k) ∧ parse_registration_key k = Ok reg ∧ reg_node_id reg = n.
Proof.
  intros Hin. unfold live_ids_of in Hin.
  rewrite elem_of_dedup, elem_of_sort_ids, list_elem_of_fmap in Hin.
  destruct Hin as (reg & Hreg & Hin). apply list_elem_of_fmap in Hin as ([n' reg'] & -> & Hin).
  apply elem_of_map_to_list in Hin. simpl in Hreg.
  assert (is_Some (foldl (insert_registration (T := T)) ∅ (listing DISCOVERY_NODES_PREFIX objs) !! n'))
    as Hsome by (by eexists).
  assert (n' = n) as ->.
  { subst n. by eapply registration_loop_ids; [|exact Hin]. }
  apply registration_loop_lookup in Hsome as [[? Hemp]|(k & r & Hk & Hparse & Hn)].
  { by rewrite lookup_empty in Hemp. }
  apply elem_of_listing in Hk as [_ Hk]. by exists k, r.
Qed.

Lemma live_ids_keys {T} `{Chrono T} objs n :
  (∀ k, starts_with (registration_key_prefix n) k = true → objs !! k = None) →
  n ∉ live_ids_of (T := T) objs.
Proof.
  intros Hno (k & reg & [v Hv] & Hparse%parse_registration_prefix & <-)%live_ids_inv.
  by rewrite (Hno k Hparse) in Hv.
Qed.

Lemma registration_loop_mono {T} `{Chrono T} keys (m : gmap NodeId (NodeRegistration T)) n :
  is_Some (m !! n) → is_Some (foldl insert_registration m keys !! n).
Proof.
  revert m. induction keys as [|k keys IH]; intros m Hm; simpl; [done|]. apply IH.
  unfold insert_registration. destruct (parse_registration_key k); [|done].
  rewrite lookup_insert. case_decide; eauto.
Qed.

Lemma live_ids_elem {T} `{Chrono T} objs k (reg : NodeRegistration T) :
  is_Some (objs !! k) → parse_registration_key k = Ok reg →
  reg_node_id reg ∈ live_ids_of (T := T) objs.
Proof.
  intros Hk Hparse. unfold live_ids_of.
  assert (is_Some (foldl (insert_registration (T := T)) ∅ (listing DISCOVERY_NODES_PREFIX objs) !!
    reg_node_id reg)) as [r Hr].
  { assert (k ∈ listing DISCOVERY_NODES_PREFIX objs) as Hin.
    { apply elem_of_listing. split; [|done]. apply parse_registration_prefix in Hparse.
      revert Hparse. rewrite !starts_with_spec. intros [rest ->]. unfold registration_key_prefix.
      eexists. by rewrite !string_app_assoc. }
    revert Hin. generalize (∅ : gmap NodeId (NodeRegistration T)).
    induction (listing DISCOVERY_NODES_PREFIX objs) as [|k' keys IH]; intros m; [set_solver|].
    intros [<-|Hin]%elem_of_cons; simpl; [|by apply IH]. apply registration_loop_mono.
    unfold insert_registration. rewrite Hparse, lookup_insert_eq. eauto. }
  rewrite elem_of_dedup, elem_of_sort_ids, list_elem_of_fmap. exists r. split.
  - by eapply registration_loop_ids in Hr.
  - apply list_elem_of_fmap. eexists (_, r). split; [done|]. by apply elem_of_map_to_list.
Qed.

(** A node stays listed when its keys stay. *)
Lemma live_ids_keep {T} `{Chrono T} (objs objs' : gmap string bytes) n :
  (∀ k (reg : NodeRegistration T), parse_registration_key k = Ok reg → reg_node_id reg = n →
     is_Some (objs !! k) → is_Some (objs' !! k)) →
  n ∈ live_ids_of (T := T) objs → n ∈ live_ids_of (T := T) objs'.
Proof.
  intros Hkeep (k & reg & Hk & Hparse & <-)%live_ids_inv. eapply live_ids_elem; [by eapply Hkeep|done].
Qed.

(** ** Properties *)
(** A registration key gives its registration back (to the
    millisecond) when the node id is not empty, and neither the id nor the
    address contains or ends with a separator; such a key belongs to its own
    node's prefix only. *)
Theorem registration_key_round_trip {T} `{ChronoOk T} n g addr (t : T) :
  node_id_ok n → pair_free "_"%char addr = true →
  ∃ t', parse_registration_key (registration_key n t g addr) =
      Ok (mkNodeRegistration n n addr g t') ∧
    registration_key n t' g addr = registration_key n t g addr ∧
    ∀ m, node_id_ok m →
      starts_with (registration_key_prefix m) (registration_key n t g addr) = true → m = n.
Proof.
  intros Hn Haddr. destruct (parse_registration_parts n g addr t Hn Haddr) as (t' & Hparse & Hmillis).
  exists t'. split_and!; [done|by unfold registration_key; rewrite Hmillis|].
  intros m [_ Hm] Hs. apply starts_with_spec in Hs as [rest Hs].
  unfold registration_key_prefix, registration_key in Hs. rewrite string_app_assoc in Hs.
  apply string_app_inj_l in Hs. rewrite string_app_assoc in Hs.
  match type of Hs with n ++ "__" ++ ?r = m ++ "__" ++ ?r' =>
    pose proof (split_once_app "_"%char n r (proj2 Hn)) as Hsn;
    pose proof (split_once_app "_"%char m r' Hm) as Hsm;
    change (n ++ String "_" (String "_" r)) with (n ++ "__" ++ r) in Hsn;
    change (m ++ String "_" (String "_" r')) with (m ++ "__" ++ r') in Hsm end.
  rewrite Hs, Hsm in Hsn. congruence.
Qed.

(** What a heartbeat does: the first one writes the key of the
    registration, which makes the node live; once the node has any key, a
    heartbeat writes nothing, so the expiry in the key is never moved. *)
Theorem registration_is_written_once {T W} `{ChronoOk T} `{AwsS3 W}
    {objects : W → string → gmap string bytes} `{!AwsS3Ok W objects} fuel (self : Discovery)
    (t : T) w w' :
  let b := dc_bucket (d_config self) in
  let addr := listen_host self ++ ":" ++ listen_port self in
  let key := registration_key (d_self_id self) t (dc_gc_replica (d_config self)) addr in
  (∀ p, (length (pages w b p) <= fuel)%nat) →
  register fuel self (Ok t) w = Some (Ok tt, w') →
  ((∃ k, is_Some (objects w b !! k) ∧ starts_with (registration_key_prefix (d_self_id self)) k = true) →
   objects w' b = objects w b) ∧
  ((∀ k, starts_with (registration_key_prefix (d_self_id self)) k = true → objects w b !! k = None) →
   objects w' b = <[key := [x22; x22]]> (objects w b) ∧
   (node_id_ok (d_self_id self) → pair_free "_"%char addr = true →
    d_self_id self ∈ live_ids_of (T := T) (objects w' b))).
Proof.
  intros b addr key Hfuel. unfold register. fold b addr key.
  destruct (list_object_keys_ok fuel b (registration_key_prefix (d_self_id self)) w (Hfuel _))
    as (r & w1 & -> & Hobj1 & Hr). simpl. destruct r as [keys|]; [|done]. subst keys.
  intros Hreg. split.
  - intros (k & Hk & Hs). rewrite decide_False in Hreg; [by simplify_eq|].
    intros Hnil. assert (k ∈ listing (registration_key_prefix (d_self_id self)) (objects w b)) as Hin
      by by apply elem_of_listing.
    rewrite Hnil in Hin. set_solver.
  - intros Hnone. rewrite decide_True in Hreg.
    2: { destruct (listing _ _) as [|k l] eqn:Hl; [done|].
         assert (k ∈ listing (registration_key_prefix (d_self_id self)) (objects w b)) as Hin
           by (rewrite Hl; by left).
         apply elem_of_listing in Hin as [Hs [v Hv]]. by rewrite Hnone in Hv. }
    pose proof (put_object_ok b key [x22; x22] "application/json" w1) as Hput.
    destruct (put_object b key [x22; x22] "application/json" w1) as [r w2]. simplify_eq.
    destruct Hput as [Hobj2|[? _]]; [|done]. rewrite Hobj2, Hobj1. split; [done|].
    intros Hn Haddr. destruct (parse_registration_parts (d_self_id self)
      (dc_gc_replica (d_config self)) addr t Hn Haddr) as (t' & Hparse & _).
    eapply live_ids_elem in Hparse; [exact Hparse|]. rewrite lookup_insert_eq. eauto.
Qed.

(** ** Witnesses *)
(** Time as a 64-bit count of milliseconds. *)
Definition in_i64 (z : Z) : bool := (- Z.of_N i64_limit <=? z)%Z && (z <? Z.of_N i64_limit)%Z.

#[export] Instance millis_chrono : Chrono { z : Z | in_i64 z = true } := {|
  timestamp_millis := λ t, `t;
  from_timestamp_millis := λ z,
    match decide (in_i64 z = true) with left Hz => Some (z ↾ Hz) | right _ => None end
|}.

#[export] Instance millis_chrono_ok : ChronoOk { z : Z | in_i64 z = true }.
Proof.
  split.
  - intros [z Hz]. simpl. unfold in_i64 in Hz. apply andb_prop in Hz as [H1 H2].
    apply Z.leb_le in H1. apply Z.ltb_lt in H2. unfold i64_limit in *. lia.
  - intros [z Hz]. simpl. case_decide; [|done]. by eexists.
Qed.

Definition demo_time : { z : Z | in_i64 z = true } := 1700000000000%Z ↾ eq_refl.

Definition demo_discovery_config (gc_replica : bool) : DiscoveryConfig :=
  mkDiscoveryConfig "http://localhost:9000" "crdt-peers" "us-east-1" "key" "secret" 30000000000
    30000000000 gc_replica None.

Definition demo_node : Discovery :=
  mkDiscovery (demo_discovery_config true) "A" "A" "10.0.0.1" "7000".

Lemma registration_key_round_trip_witness :
  ∃ t', parse_registration_key (registration_key "A" demo_time true "10.0.0.1:7000") =
    Ok (mkNodeRegistration "A" "A" "10.0.0.1:7000" true t').
Proof.
  destruct (registration_key_round_trip "A" true "10.0.0.1:7000" demo_time) as (t' & Ht & _).
  - split; [discriminate|reflexivity].
  - reflexivity.
  - exists t'. exact Ht.
Defined.

Lemma registration_is_written_once_witness :
  ∃ w', register 1 demo_node (Ok demo_time) (∅ : Buckets) = Some (Ok tt, w') ∧
    "A" ∈ live_ids_of (T := { z : Z | in_i64 z = true }) (bucket_objects w' "crdt-peers").
Proof.
  eexists. split; [reflexivity|].
  refine (proj2 (proj2 (registration_is_written_once (objects := bucket_objects) 1 demo_node demo_time
    (∅ : Buckets) _ _ eq_refl) _) _ _).
  - intros p. simpl. lia.
  - intros k _. reflexivity.
  - split; [discriminate|reflexivity].
  - reflexivity.
Defined.
