(* ===== verification/Clocks.v ===== *)
(** * Logical clocks ([src/src/logical_clocks/dot_version_vector.rs])

    Version vectors as hash maps from node ids to counters with the free
    functions [vv_join], [vv_meet], [vv_leq], [vv_lt], and dotted version
    vectors with their methods.  A method that takes [&mut self] returns the
    new value.  Loops over hash maps are folds over [map_to_list]; the theorems
    on their order independence are in this file. *)
From stdpp Require Import base gmap sets list strings fin_maps.
From S2P Require Import Prelude.
Local Open Scope N_scope.

(** ** Dots and contexts *)
Abbreviation CausalContext := (gmap string N) (only parsing).

Record Dot := mkDot { d_node_id : NodeId; d_counter : Counter }.

#[export] Instance Dot_eq_dec : EqDecision Dot.
Proof. solve_decision. Defined.

#[export] Instance Dot_countable : Countable Dot.
Proof.
  refine (inj_countable' (λ d, (d_node_id d, d_counter d))
            (λ p, mkDot p.1 p.2) _).
  by intros [].
Defined.

(** ** Version vectors *)
Definition all_keys (a b : CausalContext) : list NodeId :=
  elements (dom a ∪ dom b : gset string).

Definition vv_join_step (out : CausalContext) (kv : NodeId * Counter) : CausalContext :=
  entry_max kv.1 kv.2 out.

Definition vv_join (a b : CausalContext) : CausalContext :=
  foldl vv_join_step a (map_to_list b).

Definition vv_meet_step (a b out : CausalContext) (k : NodeId) : CausalContext :=
  let a_val := get_or0 a k in
  let b_val := get_or0 b k in
  let m := N.min a_val b_val in
  if 0 <? m then <[k := m]> out else out.

Definition vv_meet (a b : CausalContext) : CausalContext :=
  foldl (vv_meet_step a b) ∅ (all_keys a b).

Definition vv_leq (a b : CausalContext) : bool :=
  forallb (λ k, get_or0 a k <=? get_or0 b k) (all_keys a b).

Definition vv_lt (a b : CausalContext) : bool :=
  vv_leq a b && bool_decide (a ≠ b).

(** ** Dotted version vectors *)
Record DotVersionVector := mkDVV { dot : Dot; context : CausalContext }.

#[export] Instance DotVersionVector_eq_dec : EqDecision DotVersionVector.
Proof. solve_decision. Defined.

Definition frontier_dvv (node_id : NodeId) (frontier : CausalContext) : DotVersionVector :=
  let counter := default 0 (frontier !! node_id) in
  {| dot := mkDot node_id counter; context := frontier |}.

Module Dvv.

Definition new (node_id : NodeId) : DotVersionVector :=
  {| dot := mkDot node_id 0; context := ∅ |}.

Definition remove (self : DotVersionVector) (node_id : NodeId) : DotVersionVector :=
  {| dot := dot self; context := delete node_id (context self) |}.

Definition effective_counter (self : DotVersionVector) (node_id : NodeId) : Counter :=
  let counter := get_or0 (context self) node_id in
  if decide (node_id = d_node_id (dot self))
  then N.max counter (d_counter (dot self))
  else counter.

Definition effective_map (self : DotVersionVector) : CausalContext :=
  if 0 <? d_counter (dot self)
  then entry_max (d_node_id (dot self)) (d_counter (dot self)) (context self)
  else context self.

Definition descends (self other : DotVersionVector) : bool :=
  let self_eff := effective_map self in
  let other_eff := effective_map other in
  forallb (λ nid, negb (get_or0 self_eff nid <? get_or0 other_eff nid))
    (all_keys self_eff other_eff).

Definition dominates_dot (self : DotVersionVector) (d : Dot) : bool :=
  d_counter d <=? effective_counter self (d_node_id d).

Definition partial_cmp_step (self_eff other_eff : CausalContext)
    (flags : bool * bool) (nid : NodeId) : bool * bool :=
  match get_or0 self_eff nid ?= get_or0 other_eff nid with
  | Lt => (true, flags.2)
  | Gt => (flags.1, true)
  | Eq => flags
  end.

Definition partial_cmp (self other : DotVersionVector) : option comparison :=
  let self_eff := effective_map self in
  let other_eff := effective_map other in
  match foldl (partial_cmp_step self_eff other_eff) (false, false)
          (all_keys self_eff other_eff) with
  | (false, false) => Some Eq
  | (true, false) => Some Lt
  | (false, true) => Some Gt
  | (true, true) => None
  end.

Definition is_concurrent_with (self other : DotVersionVector) : bool :=
  match partial_cmp self other with None => true | Some _ => false end.

Definition event (self : DotVersionVector) : DotVersionVector :=
  let context' :=
    if 0 <? d_counter (dot self)
    then entry_max (d_node_id (dot self)) (d_counter (dot self)) (context self)
    else context self in
  {| dot := mkDot (d_node_id (dot self)) (u64_add (d_counter (dot self)) 1);
     context := context' |}.

Definition merge_entry (self : DotVersionVector) (e : NodeId * Counter) : DotVersionVector :=
  let nid := e.1 in
  let remote_counter := e.2 in
  if decide (nid = d_node_id (dot self)) then
    if remote_counter <? d_counter (dot self) then
      {| dot := dot self; context := entry_max nid remote_counter (context self) |}
    else if d_counter (dot self) <? remote_counter then
      {| dot := mkDot (d_node_id (dot self)) remote_counter;
         context := entry_max nid (remote_counter - 1) (context self) |}
    else self
  else
    {| dot := dot self; context := entry_max nid remote_counter (context self) |}.

Definition merge (self other : DotVersionVector) : DotVersionVector :=
  foldl merge_entry self (map_to_list (effective_map other)).

Definition delta_since_step (self : DotVersionVector) (remote_knowledge : CausalContext)
    (delta_ctx : CausalContext) (e : NodeId * Counter) : CausalContext :=
  let known := get_or0 remote_knowledge e.1 in
  if (known <? e.2) && bool_decide (e.1 ≠ d_node_id (dot self))
  then <[e.1 := e.2]> delta_ctx
  else delta_ctx.

Definition delta_since (self : DotVersionVector) (remote_knowledge : CausalContext)
    : DotVersionVector :=
  let eff := effective_map self in
  let delta_ctx := foldl (delta_since_step self remote_knowledge) ∅ (map_to_list eff) in
  let remote_knows_us := get_or0 remote_knowledge (d_node_id (dot self)) in
  let dot_counter :=
    if remote_knows_us <? d_counter (dot self) then d_counter (dot self) else 0 in
  {| dot := mkDot (d_node_id (dot self)) dot_counter; context := delta_ctx |}.

Definition full_delta (self : DotVersionVector) : DotVersionVector := self.

End Dvv.

(** ** Specification vocabulary

    The order on knowledge compares counters with 0 as the default, so it does
    not tell an absent entry from an explicit 0. *)
Definition ctx_le (a b : CausalContext) : Prop := ∀ k, get_or0 a k <= get_or0 b k.

Definition ctx_eqv (a b : CausalContext) : Prop := ∀ k, get_or0 a k = get_or0 b k.

Infix "⊑c" := ctx_le (at level 70, no associativity) : rust_scope.
Infix "≡c" := ctx_eqv (at level 70, no associativity) : rust_scope.
Local Open Scope rust_scope.

(** The event [d] is covered by the knowledge [m]. *)
Definition ctx_covers (m : CausalContext) (d : Dot) : Prop :=
  d_counter d <= get_or0 m (d_node_id d).

#[export] Instance ctx_covers_dec m d : Decision (ctx_covers m d).
Proof. unfold ctx_covers. apply _. Defined.

Definition zero_free (m : CausalContext) : Prop := ∀ k v, m !! k = Some v → 0 < v.

Definition ctx_bounded (m : CausalContext) : Prop :=
  ∀ k v, m !! k = Some v → v < u64_modulus.

(** Knowledge order on dotted version vectors. *)
Definition dvv_le (x y : DotVersionVector) : Prop :=
  ∀ k, Dvv.effective_counter x k <= Dvv.effective_counter y k.

(** The invariant the doc comment of [DotVersionVector] states, with the fresh
    vector (no event yet) having no entry for itself. *)
Definition dot_outside (x : DotVersionVector) : Prop :=
  get_or0 (context x) (d_node_id (dot x)) < d_counter (dot x) ∨
  (d_counter (dot x) = 0 ∧ get_or0 (context x) (d_node_id (dot x)) = 0).

Definition dvv_bounded (x : DotVersionVector) : Prop :=
  d_counter (dot x) < u64_modulus ∧ ctx_bounded (context x).

(** Declarative form of [Dvv.merge] against a finite map of remote counters. *)
Definition merge_own (counter : N) (c r : option N) : option N :=
  match r with
  | None => c
  | Some r =>
      if r <? counter then Some (N.max (default 0 c) r)
      else if counter <? r then Some (N.max (default 0 c) (r - 1))
      else c
  end.

Definition max_opt (c r : option N) : option N :=
  match r with
  | None => c
  | Some r => Some (N.max (default 0 c) r)
  end.

Definition merge_spec (x : DotVersionVector) (m : CausalContext) : DotVersionVector :=
  let me := d_node_id (dot x) in
  let others := map_imap (λ k v, max_opt (context x !! k) (Some v)) m ∪ context x in
  {| dot := mkDot me (N.max (d_counter (dot x)) (get_or0 m me));
     context :=
       match merge_own (d_counter (dot x)) (context x !! me) (m !! me) with
       | Some v => <[me := v]> others
       | None => delete me others
       end |}.

(** ** Orders on knowledge *)
#[export] Instance ctx_le_preorder : PreOrder ctx_le.
Proof. split; [intros m k; lia | intros x y z H1 H2 k; etrans; [apply H1|apply H2]]. Qed.

#[export] Instance ctx_eqv_equivalence : Equivalence ctx_eqv.
Proof.
  split; [intros m k; done | intros x y H k; by rewrite H |].
  intros x y z H1 H2 k. by rewrite H1.
Qed.

#[export] Instance ctx_le_proper : Proper (ctx_eqv ==> ctx_eqv ==> iff) ctx_le.
Proof.
  intros a a' Ha b b' Hb. unfold ctx_le.
  split; intros H k; [rewrite <- Ha, <- Hb | rewrite Ha, Hb]; apply H.
Qed.

#[export] Instance get_or0_proper : Proper (ctx_eqv ==> eq ==> eq) get_or0.
Proof. intros a b Hab k ? <-. apply Hab. Qed.

Lemma ctx_le_antisymm a b : a ⊑c b → b ⊑c a → a ≡c b.
Proof. intros H1 H2 k. specialize (H1 k). specialize (H2 k). lia. Qed.

Lemma ctx_covers_mono a b d : a ⊑c b → ctx_covers a d → ctx_covers b d.
Proof. intros Hab Ha. unfold ctx_covers in *. etrans; [apply Ha | apply Hab]. Qed.

Lemma ctx_le_empty m : ∅ ⊑c m.
Proof. intros k. rewrite get_or0_empty. lia. Qed.

#[export] Hint Resolve ctx_le_empty ctx_covers_mono : rust.

Lemma all_keys_elem a b k : k ∈ all_keys a b ↔ k ∈ dom a ∪ dom b.
Proof. apply elem_of_elements. Qed.

(** A test that holds wherever both maps have no entry need only look at the
    keys of the two maps. *)
Lemma forallb_all_keys (a b : CausalContext) (p : NodeId → bool) :
  (∀ k, get_or0 a k = 0 → get_or0 b k = 0 → p k = true) →
  forallb p (all_keys a b) = true ↔ ∀ k, p k = true.
Proof.
  intros Hp. rewrite forallb_forall. split; [|auto].
  intros Hall k. destruct (decide (k ∈ all_keys a b)) as [Hk|Hk].
  - apply Hall. by apply list_elem_of_In.
  - rewrite all_keys_elem, not_elem_of_union in Hk. destruct Hk.
    apply Hp; by apply get_or0_not_elem.
Qed.

Lemma vv_leq_spec a b : vv_leq a b = true ↔ a ⊑c b.
Proof.
  unfold vv_leq. rewrite forallb_all_keys.
  - by setoid_rewrite N.leb_le.
  - intros k -> ->. done.
Qed.

Lemma descends_spec x y :
  Dvv.descends x y = true ↔ Dvv.effective_map y ⊑c Dvv.effective_map x.
Proof.
  unfold Dvv.descends. rewrite forallb_all_keys.
  - unfold ctx_le. split; intros H k; specialize (H k); revert H; case_ltb;
      simpl; done || lia.
  - intros k -> ->. done.
Qed.

(** ** The join of two version vectors *)
Lemma entry_max_loop_lookup l a k :
  NoDup l.*1 →
  foldl vv_join_step a l !! k = max_opt (a !! k) ((list_to_map l : CausalContext) !! k).
Proof.
  revert a. induction l as [|[i v] l IH]; intros a; simpl; [done|].
  intros [Hi Hnd]%NoDup_cons. rewrite IH by done. unfold vv_join_step at 1; simpl.
  destruct (decide (i = k)) as [->|Hne].
  - rewrite lookup_insert_eq, (not_elem_of_list_to_map_1 _ _ Hi). simpl.
    unfold entry_max. by rewrite lookup_insert_eq.
  - rewrite lookup_insert_ne by done. by rewrite lookup_entry_max_ne.
Qed.

Lemma lookup_vv_join a b k : vv_join a b !! k = max_opt (a !! k) (b !! k).
Proof.
  unfold vv_join. rewrite entry_max_loop_lookup by apply NoDup_fst_map_to_list.
  by rewrite list_to_map_to_list.
Qed.

Lemma get_or0_vv_join a b k :
  get_or0 (vv_join a b) k = N.max (get_or0 a k) (get_or0 b k).
Proof.
  unfold get_or0. rewrite lookup_vv_join.
  destruct (a !! k), (b !! k); simpl; lia.
Qed.
#[export] Hint Rewrite get_or0_vv_join : rust_rw.

Lemma vv_join_comm a b : vv_join a b = vv_join b a.
Proof.
  apply map_eq. intros k. rewrite !lookup_vv_join.
  destruct (a !! k), (b !! k); simpl; f_equal; lia.
Qed.

Lemma vv_join_assoc a b c : vv_join a (vv_join b c) = vv_join (vv_join a b) c.
Proof.
  apply map_eq. intros k. rewrite !lookup_vv_join.
  destruct (a !! k), (b !! k), (c !! k); simpl; f_equal; lia.
Qed.

Lemma vv_join_idemp a : vv_join a a = a.
Proof.
  apply map_eq. intros k. rewrite lookup_vv_join.
  destruct (a !! k); simpl; f_equal; lia.
Qed.

Lemma vv_join_le_l a b : a ⊑c vv_join a b.
Proof. intros k. rewrite get_or0_vv_join. lia. Qed.

Lemma vv_join_le_r a b : b ⊑c vv_join a b.
Proof. intros k. rewrite get_or0_vv_join. lia. Qed.

Lemma vv_join_lub a b c : a ⊑c c → b ⊑c c → vv_join a b ⊑c c.
Proof.
  intros Ha Hb k. rewrite get_or0_vv_join.
  specialize (Ha k). specialize (Hb k). lia.
Qed.
#[export] Hint Resolve vv_join_le_l vv_join_le_r vv_join_lub : rust.

(** ** The meet of two version vectors *)
Lemma vv_meet_loop_lookup a b l out k :
  foldl (vv_meet_step a b) out l !! k =
    if decide (k ∈ l ∧ 0 < N.min (get_or0 a k) (get_or0 b k))
    then Some (N.min (get_or0 a k) (get_or0 b k)) else out !! k.
Proof.
  revert out. induction l as [|i l IH]; intros out; simpl.
  { done. }
  rewrite IH. unfold vv_meet_step.
  destruct (N.ltb_spec 0 (N.min (get_or0 a i) (get_or0 b i))).
  - destruct (decide (i = k)) as [->|].
    + rewrite lookup_insert_eq. repeat case_decide; set_unfold; naive_solver.
    + rewrite lookup_insert_ne by done.
      repeat case_decide; set_unfold; naive_solver.
  - repeat case_decide; set_unfold; naive_solver lia.
Qed.

Lemma lookup_vv_meet a b k :
  vv_meet a b !! k =
    if decide (0 < N.min (get_or0 a k) (get_or0 b k))
    then Some (N.min (get_or0 a k) (get_or0 b k)) else None.
Proof.
  unfold vv_meet. rewrite vv_meet_loop_lookup, lookup_empty.
  repeat case_decide; try done; [tauto|].
  destruct (decide (k ∈ all_keys a b)) as [|Hk]; [tauto|].
  rewrite all_keys_elem, not_elem_of_union in Hk. destruct Hk as [Ha Hb].
  rewrite (get_or0_not_elem a), (get_or0_not_elem b) in * by done. lia.
Qed.

Lemma get_or0_vv_meet a b k :
  get_or0 (vv_meet a b) k = N.min (get_or0 a k) (get_or0 b k).
Proof.
  unfold get_or0 at 1. rewrite lookup_vv_meet. case_decide; simpl; lia.
Qed.
#[export] Hint Rewrite get_or0_vv_meet : rust_rw.

Lemma vv_meet_zero_free a b : zero_free (vv_meet a b).
Proof. intros k v. rewrite lookup_vv_meet. case_decide; naive_solver. Qed.

Lemma vv_meet_comm a b : vv_meet a b = vv_meet b a.
Proof. apply map_eq. intros k. rewrite !lookup_vv_meet. by rewrite N.min_comm. Qed.

Lemma vv_meet_assoc a b c : vv_meet a (vv_meet b c) = vv_meet (vv_meet a b) c.
Proof.
  apply map_eq. intros k. rewrite !lookup_vv_meet, !get_or0_vv_meet.
  by rewrite N.min_assoc.
Qed.

Lemma vv_meet_le_l a b : vv_meet a b ⊑c a.
Proof. intros k. rewrite get_or0_vv_meet. lia. Qed.

Lemma vv_meet_le_r a b : vv_meet a b ⊑c b.
Proof. intros k. rewrite get_or0_vv_meet. lia. Qed.

Lemma vv_meet_glb a b c : c ⊑c a → c ⊑c b → c ⊑c vv_meet a b.
Proof.
  intros Ha Hb k. rewrite get_or0_vv_meet.
  specialize (Ha k). specialize (Hb k). lia.
Qed.
#[export] Hint Resolve vv_meet_le_l vv_meet_le_r vv_meet_glb : rust.

Lemma zero_free_eqv_eq a b : zero_free a → zero_free b → a ≡c b → a = b.
Proof.
  intros Ha Hb Heq. apply map_eq. intros k. specialize (Heq k).
  unfold get_or0 in Heq. specialize (Ha k). specialize (Hb k).
  destruct (a !! k), (b !! k); simpl in *; try congruence;
    [specialize (Ha _ eq_refl) | specialize (Hb _ eq_refl)]; lia.
Qed.

(** ** Effective knowledge *)
Lemma get_or0_effective_map x k :
  get_or0 (Dvv.effective_map x) k = Dvv.effective_counter x k.
Proof.
  unfold Dvv.effective_map, Dvv.effective_counter.
  destruct (N.ltb_spec 0 (d_counter (dot x))).
  - rewrite get_or0_entry_max. repeat case_decide; congruence.
  - case_decide; lia.
Qed.
#[export] Hint Rewrite get_or0_effective_map : rust_rw.

Lemma effective_counter_other x k :
  k ≠ d_node_id (dot x) → Dvv.effective_counter x k = get_or0 (context x) k.
Proof. intros. unfold Dvv.effective_counter. by rewrite decide_False. Qed.

Lemma effective_counter_own x :
  Dvv.effective_counter x (d_node_id (dot x)) =
    N.max (get_or0 (context x) (d_node_id (dot x))) (d_counter (dot x)).
Proof. unfold Dvv.effective_counter. by rewrite decide_True. Qed.

Lemma effective_counter_own_outside x :
  dot_outside x →
  Dvv.effective_counter x (d_node_id (dot x)) = d_counter (dot x).
Proof. intros [|[]]; rewrite effective_counter_own; lia. Qed.

Lemma dvv_le_maps x y :
  dvv_le x y ↔ Dvv.effective_map x ⊑c Dvv.effective_map y.
Proof.
  unfold dvv_le, ctx_le. by setoid_rewrite get_or0_effective_map.
Qed.

Lemma dominates_dot_covers x d :
  Dvv.dominates_dot x d = true ↔ ctx_covers (Dvv.effective_map x) d.
Proof.
  unfold Dvv.dominates_dot, ctx_covers.
  by rewrite get_or0_effective_map, N.leb_le.
Qed.

(** ** The merge loop *)
Lemma lookup_merge_spec x m k :
  context (merge_spec x m) !! k =
    if decide (k = d_node_id (dot x))
    then merge_own (d_counter (dot x)) (context x !! k) (m !! k)
    else max_opt (context x !! k) (m !! k).
Proof.
  unfold merge_spec; simpl. case_decide as Hk.
  - subst k. destruct (merge_own _ _ _).
    + by rewrite lookup_insert_eq.
    + by rewrite lookup_delete_eq.
  - destruct (merge_own _ _ _).
    + rewrite lookup_insert_ne by done. rewrite lookup_union, map_lookup_imap.
      destruct (m !! k), (context x !! k); done.
    + rewrite lookup_delete_ne by done. rewrite lookup_union, map_lookup_imap.
      destruct (m !! k), (context x !! k); done.
Qed.

Lemma dvv_ext x y :
  dot x = dot y → (∀ k, context x !! k = context y !! k) → x = y.
Proof.
  destruct x, y; simpl. intros -> Hctx. f_equal. by apply map_eq.
Qed.

Lemma merge_spec_empty x : merge_spec x ∅ = x.
Proof.
  apply dvv_ext.
  - destruct x as [[n c] ctx]; simpl. rewrite get_or0_empty. f_equal. lia.
  - intros k. rewrite lookup_merge_spec, lookup_empty. by case_decide.
Qed.

Lemma merge_entry_dot x i v :
  dot (Dvv.merge_entry x (i, v)) =
    mkDot (d_node_id (dot x))
      (if decide (i = d_node_id (dot x)) then N.max (d_counter (dot x)) v
       else d_counter (dot x)).
Proof.
  unfold Dvv.merge_entry; simpl. destruct x as [[n c] ctx]; simpl.
  repeat case_decide; repeat case_ltb; simpl; f_equal; lia.
Qed.

Lemma merge_entry_lookup x i v k :
  context (Dvv.merge_entry x (i, v)) !! k =
    if decide (k = i) then
      if decide (k = d_node_id (dot x))
      then merge_own (d_counter (dot x)) (context x !! k) (Some v)
      else max_opt (context x !! k) (Some v)
    else context x !! k.
Proof.
  unfold Dvv.merge_entry; simpl.
  repeat case_decide; repeat case_ltb; subst; simpl; try done;
    unfold entry_max, get_or0; rewrite ?lookup_insert_eq, ?lookup_insert_ne by done;
    repeat case_ltb; try done; lia.
Qed.

Lemma merge_entry_spec x i v m :
  m !! i = None →
  merge_spec (Dvv.merge_entry x (i, v)) m = merge_spec x (<[i := v]> m).
Proof.
  intros Hi. apply dvv_ext.
  - unfold merge_spec; simpl. rewrite !merge_entry_dot; simpl. f_equal.
    rewrite get_or0_insert. case_decide; [|done].
    subst. unfold get_or0. rewrite Hi. simpl. lia.
  - intros k. rewrite !lookup_merge_spec, merge_entry_lookup, merge_entry_dot; simpl.
    destruct (decide (k = i)) as [->|Hne].
    + rewrite lookup_insert_eq, Hi. repeat case_decide; done.
    + rewrite lookup_insert_ne by done. repeat case_decide; try done; congruence.
Qed.

Lemma merge_loop_spec x l :
  NoDup l.*1 → foldl Dvv.merge_entry x l = merge_spec x (list_to_map l).
Proof.
  revert x. induction l as [|[i v] l IH]; intros x; simpl.
  { by rewrite merge_spec_empty. }
  intros [Hi Hnd]%NoDup_cons. rewrite IH by done.
  apply merge_entry_spec. by apply not_elem_of_list_to_map_1.
Qed.

Lemma merge_unfold x y : Dvv.merge x y = merge_spec x (Dvv.effective_map y).
Proof.
  unfold Dvv.merge. rewrite merge_loop_spec by apply NoDup_fst_map_to_list.
  by rewrite list_to_map_to_list.
Qed.

Lemma merge_node x y : d_node_id (dot (Dvv.merge x y)) = d_node_id (dot x).
Proof. by rewrite merge_unfold. Qed.

Lemma merge_counter x y :
  d_counter (dot (Dvv.merge x y)) =
    N.max (d_counter (dot x)) (Dvv.effective_counter y (d_node_id (dot x))).
Proof. rewrite merge_unfold; simpl. by rewrite get_or0_effective_map. Qed.

Lemma lookup_merge x y k :
  context (Dvv.merge x y) !! k =
    if decide (k = d_node_id (dot x))
    then merge_own (d_counter (dot x)) (context x !! k) (Dvv.effective_map y !! k)
    else max_opt (context x !! k) (Dvv.effective_map y !! k).
Proof. by rewrite merge_unfold, lookup_merge_spec. Qed.

Lemma merge_effective x y k :
  Dvv.effective_counter (Dvv.merge x y) k =
    N.max (Dvv.effective_counter x k) (Dvv.effective_counter y k).
Proof.
  rewrite <- (get_or0_effective_map y). unfold Dvv.effective_counter.
  rewrite merge_node, merge_counter, <- get_or0_effective_map.
  unfold get_or0. rewrite !lookup_merge. case_decide as Hk; [subst k|].
  - unfold merge_own. destruct (Dvv.effective_map y !! _); simpl; [|lia].
    repeat case_ltb; simpl; lia.
  - destruct (Dvv.effective_map y !! k); simpl; lia.
Qed.
#[export] Hint Rewrite merge_effective merge_node : rust_rw.

(** ** Comparison *)
Lemma partial_cmp_loop a b l flags :
  foldl (Dvv.partial_cmp_step a b) flags l =
    (flags.1 || existsb (λ k, get_or0 a k <? get_or0 b k) l,
     flags.2 || existsb (λ k, get_or0 b k <? get_or0 a k) l).
Proof.
  revert flags. induction l as [|k l IH]; intros [f1 f2]; simpl.
  { by rewrite !orb_false_r. }
  rewrite IH. unfold Dvv.partial_cmp_step; simpl.
  destruct (N.compare_spec (get_or0 a k) (get_or0 b k)); repeat case_ltb;
    simpl; rewrite ?orb_true_r, ?orb_false_r; done || lia.
Qed.

Lemma existsb_all_keys_false (a b : CausalContext) :
  existsb (λ k, get_or0 b k <? get_or0 a k) (all_keys a b) = false ↔ a ⊑c b.
Proof.
  rewrite <- vv_leq_spec. unfold vv_leq.
  induction (all_keys a b) as [|k l IH]; simpl; [done|].
  rewrite orb_false_iff, andb_true_iff, IH, N.ltb_ge, N.leb_le. done.
Qed.

Lemma existsb_all_keys_false' (a b : CausalContext) :
  existsb (λ k, get_or0 a k <? get_or0 b k) (all_keys a b) = false ↔ b ⊑c a.
Proof.
  rewrite <- existsb_all_keys_false. unfold all_keys. by rewrite (comm_L (∪)).
Qed.

Lemma partial_cmp_cases x y :
  match Dvv.partial_cmp x y with
  | Some Eq => dvv_le x y ∧ dvv_le y x
  | Some Lt => dvv_le x y ∧ ¬ dvv_le y x
  | Some Gt => dvv_le y x ∧ ¬ dvv_le x y
  | None => ¬ dvv_le x y ∧ ¬ dvv_le y x
  end.
Proof.
  pose proof (existsb_all_keys_false (Dvv.effective_map x) (Dvv.effective_map y)) as Hle.
  pose proof (existsb_all_keys_false' (Dvv.effective_map x) (Dvv.effective_map y)) as Hge.
  rewrite <- dvv_le_maps in Hle, Hge.
  unfold Dvv.partial_cmp. rewrite partial_cmp_loop; simpl.
  destruct (existsb _ _), (existsb _ _); naive_solver.
Qed.

(** ** Local events *)
Lemma event_node x : d_node_id (dot (Dvv.event x)) = d_node_id (dot x).
Proof. done. Qed.

Lemma event_context x :
  get_or0 (context (Dvv.event x)) (d_node_id (dot x)) =
    Dvv.effective_counter x (d_node_id (dot x)).
Proof.
  unfold Dvv.event; simpl. rewrite effective_counter_own.
  destruct (N.ltb_spec 0 (d_counter (dot x))).
  - rewrite get_or0_entry_max. by rewrite decide_True.
  - lia.
Qed.

Lemma event_other x k :
  k ≠ d_node_id (dot x) →
  Dvv.effective_counter (Dvv.event x) k = Dvv.effective_counter x k.
Proof.
  intros Hk. rewrite !effective_counter_other by done.
  unfold Dvv.event; simpl. case_ltb; [|done].
  rewrite get_or0_entry_max. by rewrite decide_False.
Qed.

Lemma event_own x :
  dot_outside x → d_counter (dot x) < u64_max →
  Dvv.effective_counter (Dvv.event x) (d_node_id (dot x)) = d_counter (dot x) + 1 ∧
  d_counter (dot (Dvv.event x)) = d_counter (dot x) + 1.
Proof.
  intros Hout Hmax.
  assert (u64_add (d_counter (dot x)) 1 = d_counter (dot x) + 1) as Hadd.
  { apply u64_add_small. unfold u64_max, u64_modulus in *. lia. }
  split; [|done].
  rewrite <- event_node, effective_counter_own, event_node, event_context.
  rewrite effective_counter_own_outside by done. simpl. rewrite Hadd. lia.
Qed.

Lemma event_dot_outside x :
  dot_outside x → d_counter (dot x) < u64_max → dot_outside (Dvv.event x).
Proof.
  intros Hout Hmax. left. rewrite event_node, event_context.
  destruct (event_own x) as [_ ->]; [done..|].
  rewrite effective_counter_own_outside by done. lia.
Qed.

(** ** The invariant and the other operations *)
Lemma new_dot_outside n : dot_outside (Dvv.new n).
Proof. right. done. Qed.

Lemma remove_dot_outside x n : dot_outside x → dot_outside (Dvv.remove x n).
Proof.
  unfold dot_outside, Dvv.remove; simpl. rewrite get_or0_delete.
  case_decide; [|done]. intros _. destruct (decide (d_counter (dot x) = 0)); [by right|].
  left. lia.
Qed.

Lemma merge_dot_outside x y : dot_outside x → dot_outside (Dvv.merge x y).
Proof.
  intros Hout. unfold dot_outside. rewrite merge_node, merge_counter.
  unfold get_or0 at 1 2. rewrite lookup_merge, decide_True by done.
  rewrite <- get_or0_effective_map. unfold dot_outside, get_or0 in *.
  unfold merge_own. destruct (Dvv.effective_map y !! _); simpl; [|lia].
  repeat case_ltb; simpl; lia.
Qed.

(** ** Deltas *)
Lemma delta_loop_lookup x K out l k :
  NoDup l.*1 →
  foldl (Dvv.delta_since_step x K) out l !! k =
    match (list_to_map l : CausalContext) !! k with
    | Some v =>
        if decide (get_or0 K k < v ∧ k ≠ d_node_id (dot x)) then Some v else out !! k
    | None => out !! k
    end.
Proof.
  revert out. induction l as [|[i v] l IH]; intros out; simpl; [done|].
  intros [Hi Hnd]%NoDup_cons. rewrite IH by done.
  unfold Dvv.delta_since_step; simpl.
  destruct (decide (i = k)) as [->|Hne].
  - rewrite lookup_insert_eq, (not_elem_of_list_to_map_1 _ _ Hi).
    destruct (N.ltb_spec (get_or0 K k) v), (decide (k = d_node_id (dot x)));
      simpl; repeat case_bool_decide; repeat case_decide; simplify_map_eq; naive_solver lia.
  - rewrite lookup_insert_ne by done.
    destruct (_ && _); [by rewrite lookup_insert_ne|done].
Qed.

Lemma lookup_delta_context x K k :
  context (Dvv.delta_since x K) !! k =
    if decide (get_or0 K k < Dvv.effective_counter x k ∧ k ≠ d_node_id (dot x))
    then Dvv.effective_map x !! k else None.
Proof.
  unfold Dvv.delta_since; simpl.
  rewrite delta_loop_lookup by apply NoDup_fst_map_to_list.
  rewrite list_to_map_to_list, lookup_empty, <- get_or0_effective_map.
  destruct (Dvv.effective_map x !! k) as [v|] eqn:Hv; [|by case_decide].
  by rewrite (get_or0_Some _ _ _ Hv).
Qed.

Lemma delta_effective x K k :
  dot_outside x →
  Dvv.effective_counter (Dvv.delta_since x K) k =
    if get_or0 K k <? Dvv.effective_counter x k then Dvv.effective_counter x k else 0.
Proof.
  intros Hout. unfold Dvv.effective_counter at 1.
  unfold get_or0 at 1 2. rewrite lookup_delta_context.
  rewrite <- get_or0_effective_map. simpl. case_decide as Hk.
  - subst k. rewrite get_or0_effective_map, effective_counter_own_outside by done.
    rewrite decide_False by naive_solver. simpl. repeat case_ltb; lia.
  - repeat case_decide; repeat case_ltb; naive_solver lia.
Qed.

Lemma delta_context_own x K :
  get_or0 (context (Dvv.delta_since x K)) (d_node_id (dot x)) = 0.
Proof.
  unfold get_or0. rewrite lookup_delta_context, decide_False; [done|naive_solver].
Qed.

Lemma delta_dot_outside x K : dot_outside (Dvv.delta_since x K).
Proof.
  unfold dot_outside.
  change (d_node_id (dot (Dvv.delta_since x K))) with (d_node_id (dot x)).
  rewrite delta_context_own. simpl. case_ltb; [left; lia | by right].
Qed.

(** The engine tests the delta for emptiness to decide whether it has anything
    to send. *)
Definition delta_is_empty (delta : DotVersionVector) : Prop :=
  d_counter (dot delta) = 0 ∧ context delta = ∅.

Lemma delta_empty_iff x K :
  dot_outside x → delta_is_empty (Dvv.delta_since x K) ↔ Dvv.effective_map x ⊑c K.
Proof.
  intros Hout. split.
  - intros [Hd Hc] k. rewrite get_or0_effective_map.
    pose proof (delta_effective x K k Hout) as He.
    unfold Dvv.effective_counter at 1 in He. rewrite Hc, Hd, get_or0_empty in He.
    revert He. case_decide; case_ltb; lia.
  - intros Hle. split.
    + simpl. case_ltb; [|done]. specialize (Hle (d_node_id (dot x))).
      rewrite get_or0_effective_map, effective_counter_own in Hle. lia.
    + apply map_eq. intros k. rewrite lookup_delta_context, lookup_empty.
      specialize (Hle k). rewrite get_or0_effective_map in Hle.
      rewrite decide_False by lia. done.
Qed.

(** ** Properties *)

(** C39. [merge] is the least upper bound of the two vectors in the order
    of effective knowledge, merging the same vector twice is the same as
    merging it once (equality of the whole structure, not only of the
    knowledge), and it keeps the replica's own node id. *)
Theorem dvv_merge_is_join x y :
  (∀ k, Dvv.effective_counter (Dvv.merge x y) k =
          N.max (Dvv.effective_counter x k) (Dvv.effective_counter y k)) ∧
  (∀ z, dvv_le (Dvv.merge x y) z ↔ dvv_le x z ∧ dvv_le y z) ∧
  Dvv.merge (Dvv.merge x y) y = Dvv.merge x y ∧
  d_node_id (dot (Dvv.merge x y)) = d_node_id (dot x).
Proof.
  split; [apply merge_effective|]. split; [|split; [|apply merge_node]].
  - intros z. unfold dvv_le. setoid_rewrite merge_effective. split.
    + intros H. split; intros k; specialize (H k); lia.
    + intros [Hx Hy] k. specialize (Hx k). specialize (Hy k). lia.
  - apply dvv_ext.
    + rewrite (merge_unfold (Dvv.merge x y)); simpl.
      rewrite merge_node, merge_counter, get_or0_effective_map.
      rewrite (merge_unfold x y); simpl. rewrite get_or0_effective_map.
      f_equal. lia.
    + intros k. rewrite !lookup_merge, merge_node, merge_counter.
      rewrite <- get_or0_effective_map. case_decide as Hk; [subst k|].
      * unfold get_or0, merge_own. destruct (Dvv.effective_map y !! _); simpl; [|done].
        repeat case_ltb; simpl; try done; f_equal; lia.
      * destruct (Dvv.effective_map y !! k); simpl; [|done]. f_equal. lia.
Qed.

(** The loop of [merge] walks a [HashMap], whose order is
    unspecified, and rewrites its own dot on the way: every order gives the
    same vector, the one [merge_spec] states without a loop. *)
Theorem merge_any_iteration_order x y l :
  l ≡ₚ map_to_list (Dvv.effective_map y) →
  foldl Dvv.merge_entry x l = merge_spec x (Dvv.effective_map y).
Proof.
  intros Hl. rewrite <- merge_unfold. unfold Dvv.merge.
  symmetry. eapply (foldl_perm_map _ _ _ _ merge_spec);
    [apply merge_loop_spec | apply NoDup_fst_map_to_list | done].
Qed.

(** The documented invariant of [DotVersionVector] (the dot is strictly
    above the own entry of the context, or there is no event yet) holds of a
    fresh vector and is preserved by [event], [merge], [remove] and
    [delta_since]. *)
Theorem dot_stays_outside_context x y n K :
  dot_outside x → d_counter (dot x) < u64_max →
  dot_outside (Dvv.new n) ∧ dot_outside (Dvv.event x) ∧
  dot_outside (Dvv.merge x y) ∧ dot_outside (Dvv.remove x n) ∧
  dot_outside (Dvv.delta_since x K).
Proof.
  intros Hout Hmax. split_and!.
  - apply new_dot_outside.
  - by apply event_dot_outside.
  - by apply merge_dot_outside.
  - by apply remove_dot_outside.
  - apply delta_dot_outside.
Qed.

(** [partial_cmp], [descends], [is_concurrent_with] and [dominates_dot]
    decide the order of effective knowledge: all four outcomes of the
    comparison are exact. *)
Theorem partial_cmp_decides_knowledge x y d :
  match Dvv.partial_cmp x y with
  | Some Eq => dvv_le x y ∧ dvv_le y x
  | Some Lt => dvv_le x y ∧ ¬ dvv_le y x
  | Some Gt => dvv_le y x ∧ ¬ dvv_le x y
  | None => ¬ dvv_le x y ∧ ¬ dvv_le y x
  end ∧
  (Dvv.descends x y = true ↔ dvv_le y x) ∧
  (Dvv.is_concurrent_with x y = true ↔ ¬ dvv_le x y ∧ ¬ dvv_le y x) ∧
  (Dvv.dominates_dot x d = true ↔
     d_counter d <= Dvv.effective_counter x (d_node_id d)).
Proof.
  pose proof (partial_cmp_cases x y) as Hcmp. split_and!.
  - done.
  - by rewrite descends_spec, <- dvv_le_maps.
  - unfold Dvv.is_concurrent_with.
    destruct (Dvv.partial_cmp x y) as [[]|]; naive_solver.
  - unfold Dvv.dominates_dot. apply N.leb_le.
Qed.

(** Delta round trip: a delta computed against the knowledge [K] a
    peer advertised, merged by that peer at any later time (its knowledge is
    then at least [K]), gives it exactly what merging the whole vector would;
    and the delta is empty exactly when the peer already knew everything. *)
Theorem delta_brings_peer_up_to_date x y K :
  dot_outside x → K ⊑c Dvv.effective_map y →
  (∀ k, Dvv.effective_counter (Dvv.merge y (Dvv.delta_since x K)) k =
          Dvv.effective_counter (Dvv.merge y x) k) ∧
  (delta_is_empty (Dvv.delta_since x K) ↔ Dvv.effective_map x ⊑c K).
Proof.
  intros Hout HK. split; [|by apply delta_empty_iff].
  intros k. rewrite !merge_effective, delta_effective by done.
  specialize (HK k). rewrite get_or0_effective_map in HK. case_ltb; lia.
Qed.

(** Below the bound of [u64], a local event adds one to the replica's
    own effective counter and changes nothing else; the new dot was covered by
    no one who knew at most this replica's past. *)
Theorem event_advances_own_counter x :
  dot_outside x → d_counter (dot x) < u64_max →
  dot (Dvv.event x) = mkDot (d_node_id (dot x)) (d_counter (dot x) + 1) ∧
  (∀ k, Dvv.effective_counter (Dvv.event x) k =
     if decide (k = d_node_id (dot x)) then Dvv.effective_counter x k + 1
     else Dvv.effective_counter x k) ∧
  ¬ ctx_covers (Dvv.effective_map x) (dot (Dvv.event x)).
Proof.
  intros Hout Hmax. destruct (event_own x Hout Hmax) as [He Hc].
  assert (dot (Dvv.event x) = mkDot (d_node_id (dot x)) (d_counter (dot x) + 1)) as Hdot.
  { rewrite <- Hc. done. }
  split; [done|]. split.
  - intros k. case_decide as Hk; [subst k|by apply event_other].
    rewrite He, effective_counter_own_outside; done.
  - rewrite Hdot. unfold ctx_covers; simpl.
    rewrite get_or0_effective_map, effective_counter_own_outside by done. lia.
Qed.

(** At [u64::MAX] the addition of the release build wraps: the own
    dot falls back to 0 while the knowledge stays at [u64::MAX], so the
    invariant is lost and the event has no dot of its own. *)
Theorem event_wraps_at_u64_max x :
  dot_outside x → d_counter (dot x) = u64_max →
  d_counter (dot (Dvv.event x)) = 0 ∧
  Dvv.effective_counter (Dvv.event x) (d_node_id (dot x)) = u64_max ∧
  ¬ dot_outside (Dvv.event x) ∧
  ctx_covers (Dvv.effective_map x) (dot (Dvv.event x)).
Proof.
  intros Hout Hmax.
  assert (d_counter (dot (Dvv.event x)) = 0) as Hd by (simpl; by rewrite Hmax).
  assert (get_or0 (context (Dvv.event x)) (d_node_id (dot x)) = u64_max) as Hctx.
  { by rewrite event_context, effective_counter_own_outside. }
  split_and!; [done| |intros Hno|].
  - rewrite <- event_node, effective_counter_own, event_node, Hctx, Hd. done.
  - unfold dot_outside in Hno. rewrite event_node, Hctx, Hd in Hno.
    destruct Hno as [|[_ ?]]; unfold u64_max in *; lia.
  - unfold ctx_covers. rewrite Hd. lia.
Qed.

(** [vv_join] and [vv_meet] are the join and the meet of the knowledge
    order; both are associative and commutative as maps, and absorb each other
    as knowledge; [vv_leq] decides the order. *)
Theorem vv_lattice_laws a b c :
  (vv_join a b ⊑c c ↔ a ⊑c c ∧ b ⊑c c) ∧
  (c ⊑c vv_meet a b ↔ c ⊑c a ∧ c ⊑c b) ∧
  vv_join a b = vv_join b a ∧ vv_join a (vv_join b c) = vv_join (vv_join a b) c ∧
  vv_meet a b = vv_meet b a ∧ vv_meet a (vv_meet b c) = vv_meet (vv_meet a b) c ∧
  vv_join a (vv_meet a b) ≡c a ∧ vv_meet a (vv_join a b) ≡c a ∧
  (vv_leq a b = true ↔ a ⊑c b).
Proof.
  split_and!; try (intros k; autorewrite with rust_rw; lia).
  - split; [|intros []; auto with rust].
    intros H. split; etrans; [|exact H| |exact H]; auto with rust.
  - split; [|intros []; auto with rust].
    intros H. split; etrans; [exact H| |exact H|]; auto with rust.
  - apply vv_join_comm.
  - apply vv_join_assoc.
  - apply vv_meet_comm.
  - apply vv_meet_assoc.
  - apply vv_leq_spec.
Qed.

(** On maps without explicit zero entries [vv_lt] is strict progress
    of knowledge. *)
Theorem vv_lt_strict_progress a b :
  zero_free a → zero_free b → vv_lt a b = true ↔ a ⊑c b ∧ ¬ b ⊑c a.
Proof.
  intros Ha Hb. unfold vv_lt.
  rewrite andb_true_iff, vv_leq_spec, bool_decide_eq_true. split.
  - intros [Hle Hne]. split; [done|]. intros Hge.
    apply Hne. apply zero_free_eqv_eq; [done..|]. by apply ctx_le_antisymm.
  - intros [Hle Hnle]. split; [done|]. intros ->. by apply Hnle.
Qed.

(** ** Witnesses and concrete runs *)
Definition dvv_a3 : DotVersionVector := Nat.iter 3 Dvv.event (Dvv.new "A").
Definition dvv_b2 : DotVersionVector := Nat.iter 2 Dvv.event (Dvv.new "B").

Lemma dvv_a3_outside : dot_outside dvv_a3.
Proof. by left. Qed.

Example merge_fast_forward :
  Dvv.merge dvv_a3 (mkDVV (mkDot "B" 0) {["A" := 10]}) =
    mkDVV (mkDot "A" 10) {["A" := 9]}.
Proof. vm_compute. reflexivity. Qed.

Lemma merge_any_iteration_order_witness :
  foldl Dvv.merge_entry dvv_a3 (rev (map_to_list (Dvv.effective_map dvv_b2))) =
    merge_spec dvv_a3 (Dvv.effective_map dvv_b2).
Proof.
  apply (merge_any_iteration_order dvv_a3 dvv_b2).
  apply Permutation_sym, Permutation_rev.
Defined.

Lemma dot_stays_outside_context_witness :
  dot_outside (Dvv.event dvv_a3) ∧ dot_outside (Dvv.merge dvv_a3 dvv_b2).
Proof.
  destruct (dot_stays_outside_context dvv_a3 dvv_b2 "C" ∅) as (_ & H1 & H2 & _).
  - left. vm_compute. reflexivity.
  - vm_compute. reflexivity.
  - exact (conj H1 H2).
Defined.

Definition dvv_b2_seen_a1 : DotVersionVector :=
  Dvv.merge dvv_b2 (mkDVV (mkDot "A" 1) ∅).

Lemma delta_brings_peer_up_to_date_witness :
  Dvv.effective_counter (Dvv.merge dvv_b2_seen_a1 (Dvv.delta_since dvv_a3 {["A" := 1]})) "A" =
    Dvv.effective_counter (Dvv.merge dvv_b2_seen_a1 dvv_a3) "A".
Proof.
  refine (proj1 (delta_brings_peer_up_to_date dvv_a3 dvv_b2_seen_a1 {["A" := 1]} _ _) "A").
  - left. vm_compute. reflexivity.
  - apply vv_leq_spec. vm_compute. reflexivity.
Defined.

Lemma event_advances_own_counter_witness :
  dot (Dvv.event dvv_a3) = mkDot "A" 4.
Proof.
  refine (proj1 (event_advances_own_counter dvv_a3 _ _)).
  - left. vm_compute. reflexivity.
  - vm_compute. reflexivity.
Defined.

Lemma event_wraps_at_u64_max_witness :
  d_counter (dot (Dvv.event (mkDVV (mkDot "A" u64_max) ∅))) = 0.
Proof.
  refine (proj1 (event_wraps_at_u64_max (mkDVV (mkDot "A" u64_max) ∅) _ _)).
  - left. vm_compute. reflexivity.
  - reflexivity.
Defined.

Lemma vv_lt_strict_progress_witness :
  vv_lt {["A" := 2]} {["A" := 2; "B" := 1]} = true ↔
    {["A" := 2]} ⊑c {["A" := 2; "B" := 1]} ∧ ¬ {["A" := 2; "B" := 1]} ⊑c {["A" := 2]}.
Proof.
  apply (vv_lt_strict_progress {["A" := 2]} {["A" := 2; "B" := 1]}).
  - apply map_Forall_singleton. lia.
  - apply map_Forall_insert_2; [lia|]. apply map_Forall_singleton. lia.
Defined.
