(* ===== verification/ClockTests.v ===== *)
(** * The unit tests of the clocks, on the model
    (module [tests] of [src/src/logical_clocks/dot_version_vector.rs])

    Every test is a definition that runs its steps and returns the conjunction
    of its assertions.  [clock_tests] lists them in the order of the source, and
    the theorem evaluates them all: the model gives what the authors of the code
    expect of it. *)
From Stdlib Require Import Strings.String.
From stdpp Require Import base gmap sets list strings fin_maps.
From S2P Require Import Prelude Clocks.
Import Dvv.
Local Open Scope string_scope.
Local Open Scope N_scope.

Module DvvTests.

(** ** Helpers *)
Definition create_dvv_with_counter (node : NodeId) (counter : N) : DotVersionVector :=
  N.iter counter event (new node).

Definition assert_dot_outside_context (dvv : DotVersionVector) : bool :=
  (d_counter (dot dvv) =? 0) ||
  (get_or0 (context dvv) (d_node_id (dot dvv)) <? d_counter (dot dvv)).

Definition set_context (n : NodeId) (c : N) (dvv : DotVersionVector) : DotVersionVector :=
  {| dot := dot dvv; context := <[n := c]> (context dvv) |}.

Definition cmp_is (o : comparison) (a b : DotVersionVector) : bool :=
  bool_decide (partial_cmp a b = Some o).

Definition agree (a b : DotVersionVector) (ns : list NodeId) : bool :=
  forallb (λ n, effective_counter a n =? effective_counter b n) ns.

(** ** New vectors and local events *)
Definition new_dvv_has_zero_counter_and_empty_context : bool :=
  let dvv := new "A" in
  (d_counter (dot dvv) =? 0) && bool_decide (d_node_id (dot dvv) = "A") &&
  bool_decide (context dvv = ∅).

Definition effective_counter_of_new_dvv_is_zero : bool :=
  let dvv := new "A" in
  (effective_counter dvv "A" =? 0) && (effective_counter dvv "B" =? 0).

Definition single_event : bool :=
  let dvv := event (new "A") in
  (d_counter (dot dvv) =? 1) && (effective_counter dvv "A" =? 1) && assert_dot_outside_context dvv.

Definition multiple_events_monotonic : bool :=
  (foldl (λ s i, let dvv := event s.1 in
     (dvv, s.2 && (d_counter (dot dvv) =? i) && (effective_counter dvv "A" =? i) &&
           assert_dot_outside_context dvv))
   (new "A", true) (N.of_nat <$> seq 1 10)).2.

Definition event_retires_previous_dot_into_context : bool :=
  let dvv := event (new "A") in
  let dvv := event dvv in
  let ok := (d_counter (dot dvv) =? 2) && (get_or0 (context dvv) "A" =? 1) in
  let dvv := event dvv in
  ok && (d_counter (dot dvv) =? 3) && (get_or0 (context dvv) "A" =? 2).

Definition event_does_not_affect_other_nodes : bool :=
  effective_counter (event (new "A")) "B" =? 0.

(** ** The invariant *)
Definition invariant_new : bool :=
  let dvv := new "A" in (d_counter (dot dvv) =? 0) && bool_decide (context dvv = ∅).

Definition invariant_after_events : bool :=
  forallb (λ n, assert_dot_outside_context (create_dvv_with_counter "A" n)) (N.of_nat <$> seq 1 10).

Definition invariant_after_merge : bool :=
  let a := create_dvv_with_counter "A" 3 in
  let b := create_dvv_with_counter "B" 5 in
  assert_dot_outside_context (merge a b).

Definition invariant_after_merge_then_event : bool :=
  let a := create_dvv_with_counter "A" 3 in
  let b := create_dvv_with_counter "B" 5 in
  assert_dot_outside_context (event (merge a b)).

Definition invariant_complex_scenario : bool :=
  let a := create_dvv_with_counter "A" 2 in
  let b := create_dvv_with_counter "B" 3 in
  let c := create_dvv_with_counter "C" 1 in
  let a := merge a b in
  let a := merge a c in
  let a := event a in
  let b := merge b a in
  let b := event b in
  assert_dot_outside_context a && assert_dot_outside_context b.

(** ** Effective knowledge *)
Definition effective_counter_combines_dot_and_context : bool :=
  let dvv := create_dvv_with_counter "A" 3 in
  (effective_counter dvv "A" =? 3) && (get_or0 (context dvv) "A" =? 2).

Definition effective_counter_for_remote_uses_context_only : bool :=
  let a := merge (create_dvv_with_counter "A" 2) (create_dvv_with_counter "B" 5) in
  (effective_counter a "B" =? 5) && (get_or0 (context a) "B" =? 5).

Definition effective_map_includes_dot_and_context : bool :=
  let eff := effective_map (merge (create_dvv_with_counter "A" 3) (create_dvv_with_counter "B" 2)) in
  bool_decide (eff !! "A" = Some 3) && bool_decide (eff !! "B" = Some 2).

Definition effective_map_excludes_zero_dot : bool :=
  bool_decide (effective_map (new "A") !! "A" = None).

(** ** Merging *)
Definition merge_acquires_new_nodes : bool :=
  let a := merge (create_dvv_with_counter "A" 2) (create_dvv_with_counter "B" 3) in
  (effective_counter a "B" =? 3) && assert_dot_outside_context a.

Definition merge_takes_pointwise_maximum : bool :=
  let a := create_dvv_with_counter "A" 5 in
  let b := set_context "A" 2 (new "B") in
  let a := merge a b in
  (effective_counter a "A" =? 5) && assert_dot_outside_context a.

Definition merge_does_not_decrease_counters : bool :=
  let a := create_dvv_with_counter "A" 5 in
  let before := effective_counter a "A" in
  before <=? effective_counter (merge a (new "B")) "A".

Definition merge_is_commutative_on_effective_knowledge : bool :=
  let a := create_dvv_with_counter "A" 3 in
  let b := create_dvv_with_counter "B" 2 in
  agree (merge a b) (merge b a) ["A"; "B"].

Definition merge_is_idempotent : bool :=
  let b := create_dvv_with_counter "B" 2 in
  let a := merge (create_dvv_with_counter "A" 3) b in
  let snapshot := effective_map a in
  bool_decide (effective_map (merge a b) = snapshot).

Definition merge_is_associative_on_effective_knowledge : bool :=
  let a := create_dvv_with_counter "A" 3 in
  let b := create_dvv_with_counter "B" 2 in
  let c := create_dvv_with_counter "C" 4 in
  agree (merge (merge a b) c) (merge a (merge b c)) ["A"; "B"; "C"].

Definition merge_self_does_not_change_effective_knowledge : bool :=
  let a := create_dvv_with_counter "A" 3 in
  let a2 := merge a a in
  bool_decide (effective_map a2 = effective_map a) && assert_dot_outside_context a2.

Definition merge_does_not_create_events : bool :=
  let a := create_dvv_with_counter "A" 3 in
  let b := create_dvv_with_counter "B" 5 in
  effective_counter (merge a b) "A" =? effective_counter a "A".

Definition merge_three_nodes_full_sync : bool :=
  let a_snap := create_dvv_with_counter "A" 2 in
  let b_snap := create_dvv_with_counter "B" 3 in
  let c_snap := create_dvv_with_counter "C" 1 in
  let a := merge (merge a_snap b_snap) c_snap in
  let b := merge (merge b_snap a_snap) c_snap in
  let c := merge (merge c_snap a_snap) b_snap in
  agree a b ["A"; "B"; "C"] && agree b c ["A"; "B"; "C"].

Definition merge_remote_knows_more_about_us : bool :=
  let a := create_dvv_with_counter "A" 3 in
  let b := set_context "A" 10 (new "B") in
  let a := merge a b in
  assert_dot_outside_context a && (effective_counter a "A" =? 10).

(** ** The partial order *)
Definition equal_dvvs_are_equal : bool :=
  let a := create_dvv_with_counter "A" 3 in cmp_is Eq a a.

Definition fresh_dvvs_different_nodes_are_equal : bool := cmp_is Eq (new "A") (new "B").

Definition more_events_is_greater_same_node : bool :=
  let a := create_dvv_with_counter "A" 2 in
  let b := create_dvv_with_counter "A" 5 in
  cmp_is Lt a b && cmp_is Gt b a.

Definition independent_nodes_with_events_are_concurrent : bool :=
  is_concurrent_with (create_dvv_with_counter "A" 1) (create_dvv_with_counter "B" 1).

Definition after_merge_and_event_is_greater : bool :=
  let a := create_dvv_with_counter "A" 2 in
  let b := create_dvv_with_counter "B" 3 in
  let c := event (merge a b) in
  cmp_is Gt c a && cmp_is Gt c b.

Definition concurrent_after_independent_events : bool :=
  let a_snap := create_dvv_with_counter "A" 1 in
  let b_snap := create_dvv_with_counter "B" 1 in
  let a := merge a_snap b_snap in
  let b := merge b_snap a_snap in
  is_concurrent_with (event a) (event b).

Definition partial_order_after_one_sided_sync : bool :=
  let b := create_dvv_with_counter "B" 1 in
  let a := merge (create_dvv_with_counter "A" 2) b in
  cmp_is Gt a b && cmp_is Lt b a.

Definition concurrent_three_way : bool :=
  let a := create_dvv_with_counter "A" 1 in
  let b := create_dvv_with_counter "B" 1 in
  let c := create_dvv_with_counter "C" 1 in
  is_concurrent_with a b && is_concurrent_with b c && is_concurrent_with a c.

Definition partial_cmp_with_unknown_nodes : bool :=
  let a := create_dvv_with_counter "A" 5 in
  let b := new "B" in
  cmp_is Gt a b && cmp_is Lt b a.

Definition partial_ord_antisymmetry : bool :=
  let a := create_dvv_with_counter "A" 3 in
  let b := create_dvv_with_counter "A" 5 in
  cmp_is Lt a b && cmp_is Gt b a.

Definition partial_ord_reflexive : bool :=
  let a := create_dvv_with_counter "A" 7 in cmp_is Eq a a.

Definition causality_is_transitive : bool :=
  let a := create_dvv_with_counter "A" 1 in
  let b := event a in
  let c := event b in
  cmp_is Lt a b && cmp_is Lt b c && cmp_is Lt a c.

(** ** Descent and domination *)
Definition descends_self : bool :=
  let a := create_dvv_with_counter "A" 3 in descends a a.

Definition descends_after_merge : bool :=
  let b := create_dvv_with_counter "B" 3 in
  let a := merge (create_dvv_with_counter "A" 2) b in
  descends a b && negb (descends b a).

Definition does_not_descend_concurrent : bool :=
  let a := create_dvv_with_counter "A" 1 in
  let b := create_dvv_with_counter "B" 1 in
  negb (descends a b) && negb (descends b a).

Definition dominates_dot_after_event : bool :=
  let a := create_dvv_with_counter "A" 3 in
  dominates_dot a (mkDot "A" 2) && dominates_dot a (mkDot "A" 3).

Definition does_not_dominate_future_dot : bool :=
  negb (dominates_dot (create_dvv_with_counter "A" 3) (mkDot "A" 4)).

Definition dominates_remote_dot_after_merge : bool :=
  let a := merge (create_dvv_with_counter "A" 1) (create_dvv_with_counter "B" 5) in
  dominates_dot a (mkDot "B" 3) && dominates_dot a (mkDot "B" 5) &&
  negb (dominates_dot a (mkDot "B" 6)).

Definition dominates_dot_counter_zero : bool :=
  let a := new "A" in dominates_dot a (mkDot "A" 0) && dominates_dot a (mkDot "B" 0).

(** ** Deltas *)
Definition delta_since_empty_knowledge : bool :=
  d_counter (dot (delta_since (create_dvv_with_counter "A" 3) ∅)) =? 3.

Definition delta_since_up_to_date : bool :=
  d_counter (dot (delta_since (create_dvv_with_counter "A" 3) {["A" := 3]})) =? 0.

Definition delta_since_partial_knowledge : bool :=
  let a := merge (create_dvv_with_counter "A" 5) (create_dvv_with_counter "B" 3) in
  let delta := delta_since a {["A" := 5]} in
  (effective_counter delta "B" =? 3) && (d_counter (dot delta) =? 0).

Definition delta_merge_brings_peer_up_to_date : bool :=
  let a := merge (create_dvv_with_counter "A" 4) (create_dvv_with_counter "B" 2) in
  let c := new "C" in
  let delta := delta_since a (effective_map c) in
  let c := merge c delta in
  (effective_counter c "A" =? 4) && (effective_counter c "B" =? 2) && assert_dot_outside_context c.

Definition full_delta_is_clone : bool :=
  let a := create_dvv_with_counter "A" 3 in bool_decide (a = full_delta a).

Definition accumulate_multiple_deltas : bool :=
  let '(_, sink, ok) :=
    foldl (λ '(source, sink, ok) batch,
      let source := event (event source) in
      let delta := delta_since source (effective_map sink) in
      let sink := merge sink delta in
      (source, sink, ok && (effective_counter sink "S" =? (batch + 1) * 2) &&
                     assert_dot_outside_context sink))
    (new "S", new "T", true) (N.of_nat <$> seq 0 5) in
  ok && (effective_counter sink "S" =? 10).

Definition delta_crdt_protocol_round_trip : bool :=
  let a := create_dvv_with_counter "A" 3 in
  let b := create_dvv_with_counter "B" 2 in
  let a := merge a (full_delta b) in
  let b := merge b (full_delta a) in
  let a := event (event a) in
  let delta := delta_since a (effective_map b) in
  let b := merge b delta in
  (effective_counter b "A" =? 5) && descends b a && assert_dot_outside_context b.

(** ** Scenarios *)
Definition replicated_counter_scenario : bool :=
  let r1 := event (event (new "R1")) in
  let r2 := event (new "R2") in
  let r2 := merge r2 r1 in
  let r2 := event r2 in
  let r3 := event (new "R3") in
  let r3 := merge r3 r2 in
  let total := foldr N.add 0 (effective_counter r3 <$> ["R1"; "R2"; "R3"]) in
  (total =? 5) && assert_dot_outside_context r1 && assert_dot_outside_context r2 &&
  assert_dot_outside_context r3.

Definition network_partition_and_heal : bool :=
  let a_snap := event (new "A") in
  let b := event (new "B") in
  let a := merge a_snap b in
  let b := merge b a_snap in
  let a := event (event a) in
  let b := event (event (event b)) in
  let partitioned := is_concurrent_with a b in
  let a_snap := a in
  let a := merge a b in
  let b := merge b a_snap in
  partitioned && descends a b && descends b a && assert_dot_outside_context a &&
  assert_dot_outside_context b.

Definition late_joiner_catches_up : bool :=
  let a := merge (create_dvv_with_counter "A" 10) (create_dvv_with_counter "B" 7) in
  let c := merge (new "C") (full_delta a) in
  (effective_counter c "A" =? 10) && (effective_counter c "B" =? 7) && assert_dot_outside_context c.

Definition conflicting_writes_detected : bool :=
  let a_snap := create_dvv_with_counter "A" 1 in
  let b := create_dvv_with_counter "B" 1 in
  let a := event (merge a_snap b) in
  let b := event (merge b a_snap) in
  let conflict := is_concurrent_with a b && negb (dominates_dot b (dot a)) &&
                  negb (dominates_dot a (dot b)) in
  let a_snap := a in
  let a := merge a b in
  let b := merge b a_snap in
  conflict && descends a b && descends b a.

Definition dot_domination_for_dedup : bool :=
  let a := merge (create_dvv_with_counter "A" 5) (create_dvv_with_counter "B" 3) in
  dominates_dot a (mkDot "B" 2) && dominates_dot a (mkDot "B" 3) &&
  negb (dominates_dot a (mkDot "B" 4)).

Definition chain_of_gossip : bool :=
  let a := create_dvv_with_counter "A" 3 in
  let b := event (merge (new "B") a) in
  let c := event (merge (new "C") b) in
  let d := event (merge (new "D") c) in
  (effective_counter d "A" =? 3) && descends d a && descends d b && descends d c &&
  assert_dot_outside_context d.

Definition merge_concurrent_creates_common_descendant : bool :=
  let a := create_dvv_with_counter "A" 2 in
  let b := create_dvv_with_counter "B" 3 in
  let ma := merge a b in
  let mb := merge b a in
  is_concurrent_with a b && descends ma a && descends ma b && descends mb a && descends mb b.

Definition dot_equality : bool :=
  bool_decide (mkDot "A" 3 = mkDot "A" 3) && bool_decide (mkDot "A" 3 ≠ mkDot "A" 4) &&
  bool_decide (mkDot "A" 3 ≠ mkDot "B" 3).

Definition dot_in_hashset : bool :=
  Nat.eqb (size ({[mkDot "A" 2]} ∪ ({[mkDot "A" 1]} ∪ {[mkDot "A" 1]}) : gset Dot)) 2.

Definition clone_is_independent : bool :=
  let b := create_dvv_with_counter "A" 3 in
  let a := event b in
  (d_counter (dot b) =? 3) && (d_counter (dot a) =? 4).

Definition five_node_cluster_full_replication : bool :=
  let names := ["N0"; "N1"; "N2"; "N3"; "N4"] in
  let snaps := zip_with create_dvv_with_counter names (N.of_nat <$> seq 1 5) in
  let dvvs := (λ dvv, foldl merge dvv snaps) <$> snaps in
  match dvvs with
  | dvv0 :: others =>
      forallb (λ dvv, agree dvv dvv0 names && assert_dot_outside_context dvv) others &&
      bool_decide ((effective_counter dvv0 <$> names) = (N.of_nat <$> seq 1 5))
  | [] => false
  end.

Definition rapid_event_sync_interleave : bool :=
  let '(a, b) :=
    foldl (λ '(a, b) round,
      let a := event a in
      let b := event b in
      if (round mod 5 =? 0) then let a := merge a b in (a, merge b a) else (a, b))
    (new "A", new "B") (N.of_nat <$> seq 1 20) in
  let a := merge a b in
  let b := merge b a in
  forallb (λ dvv, (effective_counter dvv "A" =? 20) && (effective_counter dvv "B" =? 20) &&
                  assert_dot_outside_context dvv) [a; b].

(** ** Edges *)
Definition merge_two_fresh_dvvs : bool :=
  let a := merge (new "A") (new "B") in
  (effective_counter a "A" =? 0) && (effective_counter a "B" =? 0) && (d_counter (dot a) =? 0).

Definition effective_counter_unknown_returns_zero : bool :=
  effective_counter (new "A") "UNKNOWN" =? 0.

Definition event_after_merge_preserves_remote_knowledge : bool :=
  let a := merge (create_dvv_with_counter "A" 2) (create_dvv_with_counter "B" 4) in
  let b_before := effective_counter a "B" in
  let a := event a in
  (effective_counter a "B" =? b_before) && assert_dot_outside_context a.

Definition state_transfer_fast_forward : bool :=
  let remote := set_context "A" 10 (new "B") in
  let a := merge (create_dvv_with_counter "A" 3) remote in
  let a' := event a in
  assert_dot_outside_context a && (effective_counter a "A" =? 10) &&
  (effective_counter a' "A" =? 11) && assert_dot_outside_context a'.

Definition mutual_full_sync_yields_equal_effective_maps : bool :=
  let c := create_dvv_with_counter "C" 2 in
  let a_snap := merge (create_dvv_with_counter "A" 4) c in
  let b_snap := merge (create_dvv_with_counter "B" 7) c in
  agree (merge a_snap b_snap) (merge b_snap a_snap) ["A"; "B"; "C"].

Definition vv_lt_accepts_progress : bool :=
  let prev : gmap string N := <["A" := 2]> ∅ in
  let next : gmap string N := <["B" := 1]> (<["A" := 2]> ∅) in
  vv_lt prev next.

Definition vv_lt_rejects_no_progress : bool :=
  let prev : gmap string N := <["A" := 2]> ∅ in
  let next : gmap string N := <["A" := 2]> ∅ in
  negb (vv_lt prev next).

Definition clock_tests : list bool :=
  [new_dvv_has_zero_counter_and_empty_context; effective_counter_of_new_dvv_is_zero; single_event;
   multiple_events_monotonic; event_retires_previous_dot_into_context;
   event_does_not_affect_other_nodes; invariant_new; invariant_after_events; invariant_after_merge;
   invariant_after_merge_then_event; invariant_complex_scenario;
   effective_counter_combines_dot_and_context; effective_counter_for_remote_uses_context_only;
   effective_map_includes_dot_and_context; effective_map_excludes_zero_dot;
   merge_acquires_new_nodes; merge_takes_pointwise_maximum; merge_does_not_decrease_counters;
   merge_is_commutative_on_effective_knowledge; merge_is_idempotent;
   merge_is_associative_on_effective_knowledge; merge_self_does_not_change_effective_knowledge;
   merge_does_not_create_events; merge_three_nodes_full_sync; merge_remote_knows_more_about_us;
   equal_dvvs_are_equal; fresh_dvvs_different_nodes_are_equal; more_events_is_greater_same_node;
   independent_nodes_with_events_are_concurrent; after_merge_and_event_is_greater;
   concurrent_after_independent_events; partial_order_after_one_sided_sync; concurrent_three_way;
   partial_cmp_with_unknown_nodes; partial_ord_antisymmetry; partial_ord_reflexive;
   causality_is_transitive; descends_self; descends_after_merge; does_not_descend_concurrent;
   dominates_dot_after_event; does_not_dominate_future_dot; dominates_remote_dot_after_merge;
   dominates_dot_counter_zero; delta_since_empty_knowledge; delta_since_up_to_date;
   delta_since_partial_knowledge; delta_merge_brings_peer_up_to_date; full_delta_is_clone;
   accumulate_multiple_deltas; delta_crdt_protocol_round_trip; replicated_counter_scenario;
   network_partition_and_heal; late_joiner_catches_up; conflicting_writes_detected;
   dot_domination_for_dedup; chain_of_gossip; merge_concurrent_creates_common_descendant;
   dot_equality; dot_in_hashset; clone_is_independent; five_node_cluster_full_replication;
   rapid_event_sync_interleave; merge_two_fresh_dvvs; effective_counter_unknown_returns_zero;
   event_after_merge_preserves_remote_knowledge; state_transfer_fast_forward;
   mutual_full_sync_yields_equal_effective_maps; vv_lt_accepts_progress; vv_lt_rejects_no_progress].
End DvvTests.

(** All the unit tests of the clocks hold of the model. *)
Theorem clock_unit_tests_hold : forallb id DvvTests.clock_tests = true.
Proof. vm_compute. reflexivity. Qed.
