(* ===== verification/Proto.v ===== *)
(** * Wire messages ([src/src/proto/mod.rs])

    The prost message structs as records and their oneofs as inductive types,
    field by field.  Encoding and decoding are generated by the third-party
    [prost] derive macros: they are the operations of the class [Message], and
    the documented round trip of well-formed messages is the class [MessageOk].
    [countable_message] is a concrete codec for any countable type, and
    [checked_message] one that also checks what it decodes; they show
    that the interface can be implemented and are used in witnesses. *)
From Stdlib Require Import Strings.Byte Strings.String.
From stdpp Require Import base gmap sets list strings fin_maps.
From S2P Require Import Prelude.
Local Open Scope N_scope.
Local Open Scope rust_scope.

(** ** Messages *)
Record VectorClock := mkVectorClock { vc_entries : gmap string N }.

Record Handshake := mkHandshake {
  hs_node_id : string;
  hs_node_name : string;
  hs_version : N;
  hs_gc_replica : bool
}.

Record KnowledgeMatrix := mkKnowledgeMatrix { km_entries : gmap string VectorClock }.

Record CrdtOp := mkCrdtOp {
  op_crdt_id : string;
  op_payload : bytes;
  op_origin_node_id : string;
  op_requester_knowledge : option VectorClock;
  op_knowledge_matrix : option KnowledgeMatrix
}.

Record CrdtPullRequest := mkCrdtPullRequest {
  pr_crdt_id : string;
  pr_origin_node_id : string;
  pr_knowledge : option VectorClock;
  pr_gc_replica : bool
}.

Inductive Payload : Type :=
| PHandshake (hs : Handshake)
| PCrdtOp (op : CrdtOp)
| PCrdtPullRequest (req : CrdtPullRequest).

Record Envelope := mkEnvelope { env_payload : option Payload }.

Record ProtoDot := mkProtoDot { pd_node_id : string; pd_counter : N }.

Record ProtoElemDot := mkProtoElemDot {
  ped_element : bytes;
  ped_dot : option ProtoDot
}.

Record ProtoDotPair := mkProtoDotPair {
  pdp_add_dot : option ProtoDot;
  pdp_remove_dot : option ProtoDot
}.

Record ProtoOrSetDelta := mkProtoOrSetDelta {
  pod_adds : list ProtoElemDot;
  pod_tombstones : list ProtoDotPair;
  pod_context : gmap string N;
  pod_dot_node : string;
  pod_dot_counter : N
}.

Inductive ProtoOrSetOpKind : Type :=
| AddElement (b : bytes)
| RemoveElement (b : bytes).

Record ProtoOrSetOp := mkProtoOrSetOp { poo_op : option ProtoOrSetOpKind }.

Inductive Command : Type :=
| CmdAdd (value : string)
| CmdRemove (value : string)
| CmdPrintState (b : bool)
| CmdPrintInternals (b : bool)
| CmdPrintMatrix (b : bool)
| CmdRemoveRandom (b : bool).

Record ProtoClientCommand := mkProtoClientCommand { command : option Command }.

(** ** The codec interface *)
Class Message (T : Type) := {
  encode_to_vec : T → bytes;
  decode : bytes → result T
}.

(** The fields of a message hold Rust values: text is UTF-8 and integers fit
    their width.  Decoding an encoded message then gives the message back. *)
Class MessageOk (T : Type) `{Message T} (wf : T → Prop) := {
  decode_encode : ∀ m, wf m → decode (encode_to_vec m) = Ok m
}.

(** What decodes holds such values: prost rejects text that is not UTF-8, and a
    field of a fixed width holds an integer of that width. *)
Class MessageTyped (T : Type) `{Message T} (wf : T → Prop) := {
  decode_typed : ∀ b m, decode b = Ok m → wf m
}.

Definition encoded_len {T} `{Message T} (m : T) : N :=
  N.of_nat (length (encode_to_vec m)).

(** ** Well-formed field values *)
Definition clock_ok (m : gmap string N) : Prop :=
  map_Forall (λ k v, rust_string k ∧ v < u64_modulus) m.

Definition proto_dot_ok (d : ProtoDot) : Prop :=
  rust_string (pd_node_id d) ∧ pd_counter d < u64_modulus.

Definition opt_ok {A} (P : A → Prop) (o : option A) : Prop :=
  match o with Some a => P a | None => True end.

Definition proto_or_set_delta_ok (d : ProtoOrSetDelta) : Prop :=
  Forall (λ e, opt_ok proto_dot_ok (ped_dot e)) (pod_adds d) ∧
  Forall (λ p, opt_ok proto_dot_ok (pdp_add_dot p) ∧ opt_ok proto_dot_ok (pdp_remove_dot p))
    (pod_tombstones d) ∧
  clock_ok (pod_context d) ∧ rust_string (pod_dot_node d) ∧
  pod_dot_counter d < u64_modulus.

Definition handshake_ok (h : Handshake) : Prop :=
  rust_string (hs_node_id h) ∧ rust_string (hs_node_name h) ∧
  hs_version h < 4294967296.

Definition crdt_op_ok (o : CrdtOp) : Prop :=
  rust_string (op_crdt_id o) ∧ rust_string (op_origin_node_id o) ∧
  opt_ok (λ vc, clock_ok (vc_entries vc)) (op_requester_knowledge o) ∧
  opt_ok (λ km, map_Forall (λ k vc, rust_string k ∧ clock_ok (vc_entries vc)) (km_entries km))
    (op_knowledge_matrix o).

Definition pull_request_ok (r : CrdtPullRequest) : Prop :=
  rust_string (pr_crdt_id r) ∧ rust_string (pr_origin_node_id r) ∧
  opt_ok (λ vc, clock_ok (vc_entries vc)) (pr_knowledge r).

Definition payload_ok (p : Payload) : Prop :=
  match p with
  | PHandshake h => handshake_ok h
  | PCrdtOp o => crdt_op_ok o
  | PCrdtPullRequest r => pull_request_ok r
  end.

Definition envelope_ok (e : Envelope) : Prop := opt_ok payload_ok (env_payload e).

Definition command_ok (c : ProtoClientCommand) : Prop :=
  match command c with
  | Some (CmdAdd v) | Some (CmdRemove v) => rust_string v
  | _ => True
  end.

(** ** Decidable equality and enumeration of the messages *)
#[export] Instance VectorClock_eq_dec : EqDecision VectorClock.
Proof. solve_decision. Defined.
#[export] Instance VectorClock_countable : Countable VectorClock.
Proof. by refine (inj_countable' vc_entries mkVectorClock _); intros []. Defined.

#[export] Instance KnowledgeMatrix_eq_dec : EqDecision KnowledgeMatrix.
Proof. solve_decision. Defined.
#[export] Instance KnowledgeMatrix_countable : Countable KnowledgeMatrix.
Proof. by refine (inj_countable' km_entries mkKnowledgeMatrix _); intros []. Defined.

#[export] Instance byte_countable : Countable Byte.byte.
Proof.
  refine (inj_countable Byte.to_N Byte.of_N _). intros b. apply Byte.of_to_N.
Defined.

#[export] Instance Handshake_eq_dec : EqDecision Handshake.
Proof. solve_decision. Defined.
#[export] Instance Handshake_countable : Countable Handshake.
Proof.
  by refine (inj_countable'
    (λ h, (hs_node_id h, hs_node_name h, hs_version h, hs_gc_replica h))
    (λ '(a, b, c, d), mkHandshake a b c d) _); intros [].
Defined.

#[export] Instance CrdtOp_eq_dec : EqDecision CrdtOp.
Proof. solve_decision. Defined.
#[export] Instance CrdtOp_countable : Countable CrdtOp.
Proof.
  by refine (inj_countable'
    (λ o, (op_crdt_id o, op_payload o, op_origin_node_id o,
           op_requester_knowledge o, op_knowledge_matrix o))
    (λ '(a, b, c, d, e), mkCrdtOp a b c d e) _); intros [].
Defined.

#[export] Instance CrdtPullRequest_eq_dec : EqDecision CrdtPullRequest.
Proof. solve_decision. Defined.
#[export] Instance CrdtPullRequest_countable : Countable CrdtPullRequest.
Proof.
  by refine (inj_countable'
    (λ r, (pr_crdt_id r, pr_origin_node_id r, pr_knowledge r, pr_gc_replica r))
    (λ '(a, b, c, d), mkCrdtPullRequest a b c d) _); intros [].
Defined.

#[export] Instance Payload_eq_dec : EqDecision Payload.
Proof. solve_decision. Defined.
#[export] Instance Payload_countable : Countable Payload.
Proof.
  by refine (inj_countable'
    (λ p, match p with
          | PHandshake h => inl h
          | PCrdtOp o => inr (inl o)
          | PCrdtPullRequest r => inr (inr r)
          end)
    (λ s, match s with
          | inl h => PHandshake h
          | inr (inl o) => PCrdtOp o
          | inr (inr r) => PCrdtPullRequest r
          end) _); intros [].
Defined.

#[export] Instance Envelope_eq_dec : EqDecision Envelope.
Proof. solve_decision. Defined.
#[export] Instance Envelope_countable : Countable Envelope.
Proof. by refine (inj_countable' env_payload mkEnvelope _); intros []. Defined.

#[export] Instance ProtoDot_eq_dec : EqDecision ProtoDot.
Proof. solve_decision. Defined.
#[export] Instance ProtoDot_countable : Countable ProtoDot.
Proof.
  by refine (inj_countable' (λ d, (pd_node_id d, pd_counter d))
    (λ '(a, b), mkProtoDot a b) _); intros [].
Defined.

#[export] Instance ProtoElemDot_eq_dec : EqDecision ProtoElemDot.
Proof. solve_decision. Defined.
#[export] Instance ProtoElemDot_countable : Countable ProtoElemDot.
Proof.
  by refine (inj_countable' (λ d, (ped_element d, ped_dot d))
    (λ '(a, b), mkProtoElemDot a b) _); intros [].
Defined.

#[export] Instance ProtoDotPair_eq_dec : EqDecision ProtoDotPair.
Proof. solve_decision. Defined.
#[export] Instance ProtoDotPair_countable : Countable ProtoDotPair.
Proof.
  by refine (inj_countable' (λ d, (pdp_add_dot d, pdp_remove_dot d))
    (λ '(a, b), mkProtoDotPair a b) _); intros [].
Defined.

#[export] Instance ProtoOrSetDelta_eq_dec : EqDecision ProtoOrSetDelta.
Proof. solve_decision. Defined.
#[export] Instance ProtoOrSetDelta_countable : Countable ProtoOrSetDelta.
Proof.
  by refine (inj_countable'
    (λ d, (pod_adds d, pod_tombstones d, pod_context d, pod_dot_node d, pod_dot_counter d))
    (λ '(a, b, c, d, e), mkProtoOrSetDelta a b c d e) _); intros [].
Defined.

#[export] Instance ProtoOrSetOpKind_eq_dec : EqDecision ProtoOrSetOpKind.
Proof. solve_decision. Defined.
#[export] Instance ProtoOrSetOpKind_countable : Countable ProtoOrSetOpKind.
Proof.
  by refine (inj_countable'
    (λ o, match o with AddElement b => inl b | RemoveElement b => inr b end)
    (λ s, match s with inl b => AddElement b | inr b => RemoveElement b end) _);
    intros [].
Defined.

#[export] Instance ProtoOrSetOp_eq_dec : EqDecision ProtoOrSetOp.
Proof. solve_decision. Defined.
#[export] Instance ProtoOrSetOp_countable : Countable ProtoOrSetOp.
Proof. by refine (inj_countable' poo_op mkProtoOrSetOp _); intros []. Defined.

#[export] Instance Command_eq_dec : EqDecision Command.
Proof. solve_decision. Defined.
#[export] Instance Command_countable : Countable Command.
Proof.
  refine (inj_countable'
    (λ c, match c with
          | CmdAdd v => (0%nat, inl v)
          | CmdRemove v => (1%nat, inl v)
          | CmdPrintState b => (2%nat, inr b)
          | CmdPrintInternals b => (3%nat, inr b)
          | CmdPrintMatrix b => (4%nat, inr b)
          | CmdRemoveRandom b => (5%nat, inr b)
          end : nat * (string + bool))
    (λ p, match p with
          | (0%nat, inl v) => CmdAdd v
          | (1%nat, inl v) => CmdRemove v
          | (2%nat, inr b) => CmdPrintState b
          | (3%nat, inr b) => CmdPrintInternals b
          | (4%nat, inr b) => CmdPrintMatrix b
          | (_, inr b) => CmdRemoveRandom b
          | (_, inl v) => CmdAdd v
          end) _).
  by intros [].
Defined.

#[export] Instance ProtoClientCommand_eq_dec : EqDecision ProtoClientCommand.
Proof. solve_decision. Defined.
#[export] Instance ProtoClientCommand_countable : Countable ProtoClientCommand.
Proof. by refine (inj_countable' command mkProtoClientCommand _); intros []. Defined.

(** ** A concrete codec *)
Fixpoint positive_to_bytes (p : positive) : bytes :=
  match p with
  | xH => []
  | xO p => x00 :: positive_to_bytes p
  | xI p => x01 :: positive_to_bytes p
  end.

Fixpoint bytes_to_positive (l : bytes) : option positive :=
  match l with
  | [] => Some xH
  | x00 :: l => xO <$> bytes_to_positive l
  | x01 :: l => xI <$> bytes_to_positive l
  | _ :: _ => None
  end.

Definition countable_message (T : Type) `{Countable T} : Message T := {|
  encode_to_vec := λ m, positive_to_bytes (encode m);
  decode := λ l, ok_or (bytes_to_positive l ≫= countable.decode) "invalid message"
|}.

Lemma bytes_to_positive_to_bytes p :
  bytes_to_positive (positive_to_bytes p) = Some p.
Proof. induction p; simpl; by rewrite ?IHp. Qed.

Lemma countable_message_ok (T : Type) `{Countable T} (wf : T → Prop) :
  @MessageOk T (countable_message T) wf.
Proof.
  split. intros m _. simpl.
  rewrite bytes_to_positive_to_bytes; simpl. by rewrite countable.decode_encode.
Qed.

(** A codec that refuses what is not well formed. *)
Definition checked_message (T : Type) `{Countable T} (wf : T → Prop) `{∀ m, Decision (wf m)}
    : Message T := {|
  encode_to_vec := encode_to_vec (Message := countable_message T);
  decode := λ l,
    m <-? decode (Message := countable_message T) l ;;
    if decide (wf m) then Ok m else Err "invalid field"
|}.

Section checked.
Context (T : Type) `{Countable T} (wf : T → Prop) `{∀ m, Decision (wf m)}.

Lemma checked_message_ok : @MessageOk T (checked_message T wf) wf.
Proof.
  split. intros m Hm. pose proof (decode_encode (MessageOk := countable_message_ok T wf) m Hm) as Hd.
  cbn -[countable_message]. cbn in Hd |- *. rewrite Hd. cbn. by rewrite decide_True.
Qed.

Lemma checked_message_typed : @MessageTyped T (checked_message T wf) wf.
Proof.
  split. intros b m. cbn. destruct (ok_or _ _); cbn; [|done]. case_decide; [|done].
  by intros [= <-].
Qed.
End checked.
