(* ===== verification/Crdt.v ===== *)
(** * The delta-CRDT interface ([src/src/crdt/mod.rs])

    The traits [ElementCodec], [DeltaContext] and [DeltaCrdt] as type classes.
    The engine and the GC coordinator are written, and their theorems proved,
    against [DeltaCrdt]; [DeltaCrdtOk] is the part of the trait's documented
    contract that they rely on.  [OrSet] implements both. *)
From Stdlib Require Import Strings.Byte Strings.String.
From stdpp Require Import base gmap sets list strings fin_maps.
From S2P Require Import Prelude Clocks.
Local Open Scope N_scope.

(** ** [ElementCodec] *)
Class ElementCodec (E : Type) := {
  encode_elem : E → bytes;
  decode_elem : bytes → result E
}.

(** "Implementations must be inverse of each other". *)
Class ElementCodecOk (E : Type) `{ElementCodec E} := {
  decode_encode_elem : ∀ e, decode_elem (encode_elem e) = Ok e
}.

(** The text type of the source: UTF-8 byte strings. *)
Definition RustString : Type := { s : string | utf8_valid (as_bytes s) = true }.

Definition rust_string_eq_dec (s t : RustString) : Decision (s = t).
Proof. apply (sig_eq_dec (λ s : string, utf8_valid (as_bytes s) = true)). Defined.

#[export] Instance RustString_eq_dec : EqDecision RustString := rust_string_eq_dec.

#[export] Instance RustString_countable : Countable RustString.
Proof. unfold RustString. apply _. Defined.

(** [String::from_utf8] with the validity of the result made part of it. *)
Definition from_utf8_checked (l : bytes) : result RustString :=
  match decide (utf8_valid (as_bytes (string_of_list_byte l)) = true) with
  | left H => Ok (string_of_list_byte l ↾ H)
  | right _ => Err "invalid utf-8 sequence"
  end.

#[export] Instance String_ElementCodec : ElementCodec RustString := {|
  encode_elem := λ s, as_bytes (`s);
  decode_elem := from_utf8_checked
|}.

(** ** [DeltaContext] and [DeltaCrdt] *)
Class DeltaContext (Delta : Type) := {
  causal_context : Delta → CausalContext * NodeId * Counter
}.

Class DeltaCrdt (C Op Delta : Type) `{DeltaContext Delta} := {
  apply_local : C → Dot → Op → C;
  merge_delta : C → Delta → C;
  full_state : C → DotVersionVector → Delta;
  delta_since : C → CausalContext → DotVersionVector → Delta;
  perform_gc : C → DotVersionVector → C;
  print_state : C → string;
  print_internals : C → string;
  get_random_element : C → option string;
  encode_delta : Delta → bytes;
  decode_delta : bytes → result Delta;
  encode_op : Op → bytes;
  decode_op : bytes → result Op
}.

(** The causal metadata that a vector stands for in a delta. *)
Definition dvv_metadata (dvv : DotVersionVector) : CausalContext * NodeId * Counter :=
  (Dvv.effective_map dvv, d_node_id (dot dvv), d_counter (dot dvv)).

(** What the engine relies on: the state queries fill the causal metadata of
    the delta from the vector they are given, and a delta with representable
    fields survives its encoding. *)
Class DeltaCrdtOk (C Op Delta : Type) `{DeltaCrdt C Op Delta} (delta_ok : Delta → Prop) := {
  full_state_context : ∀ c dvv, causal_context (full_state c dvv) = dvv_metadata dvv;
  delta_since_context : ∀ c K dvv, causal_context (delta_since c K dvv) = dvv_metadata dvv;
  decode_encode_delta : ∀ d, delta_ok d → decode_delta (encode_delta d) = Ok d
}.

(** The vector the engine rebuilds from a delta's metadata. *)
Definition dvv_of_context (m : CausalContext * NodeId * Counter) : DotVersionVector :=
  let '(ctx, node, counter) := m in
  {| dot := mkDot node counter; context := ctx |}.

(** ** Lemmas *)
#[export] Instance String_ElementCodecOk : ElementCodecOk RustString.
Proof.
  split. intros [s Hs]. cbn -[utf8_valid]. unfold from_utf8_checked.
  assert (string_of_list_byte (as_bytes s) = s) as Heq.
  { apply string_of_list_byte_of_string. }
  case_decide as Hd.
  - f_equal. apply (sig_eq_pi (λ s : string, utf8_valid (as_bytes s) = true)). done.
  - exfalso. apply Hd.
    change (utf8_valid (as_bytes (string_of_list_byte (as_bytes s))) = true).
    by rewrite Heq.
Qed.

(** Rebuilding the vector from the metadata loses the documented invariant (the
    dot is inside the context) but none of the knowledge. *)
Lemma dvv_of_metadata_effective x k :
  Dvv.effective_counter (dvv_of_context (dvv_metadata x)) k = Dvv.effective_counter x k.
Proof.
  unfold dvv_of_context, dvv_metadata, Dvv.effective_counter at 1; simpl.
  rewrite get_or0_effective_map. unfold Dvv.effective_counter.
  case_decide; lia.
Qed.

Lemma merge_metadata x y :
  Dvv.merge x (dvv_of_context (dvv_metadata y)) = Dvv.merge x y.
Proof.
  rewrite !merge_unfold. f_equal. unfold dvv_of_context, dvv_metadata; simpl.
  unfold Dvv.effective_map; simpl. case_ltb; [|done].
  unfold entry_max. rewrite insert_insert_eq, get_or0_insert, decide_True by done.
  f_equal. lia.
Qed.
