(* ===== verification/OrSet.v ===== *)
(** * The observed-remove set ([src/src/crdt/or_set.rs])

    The state of the OR-Set with its operations, deltas and codecs, for any
    element type; the instance of [DeltaCrdt]; the well-formedness invariant
    and the functional behaviour of every operation.  A loop over a [HashMap]
    or a [HashSet] is a fold over [map_to_list] or [elements]. *)
From Stdlib Require Import Strings.Byte Strings.String.
From stdpp Require Import base gmap sets list strings fin_maps sorting.
From S2P Require Import Prelude Clocks Proto Crdt.
Local Open Scope N_scope.

(** ** Operations, deltas, state *)
Inductive OrSetOp (E : Type) : Type :=
| Add (e : E)
| Remove (e : E).
Arguments Add {E} e.
Arguments Remove {E} e.

Record OrSetDelta (E : Type) := mkOrSetDelta {
  delta_adds : list (E * Dot);
  delta_tombstones : list (Dot * Dot);
  delta_context : CausalContext;
  delta_dot_node : NodeId;
  delta_dot_counter : Counter
}.
Arguments mkOrSetDelta {E}.
Arguments delta_adds {E}.
Arguments delta_tombstones {E}.
Arguments delta_context {E}.
Arguments delta_dot_node {E}.
Arguments delta_dot_counter {E}.

#[export] Instance OrSetDelta_DeltaContext (E : Type) : DeltaContext (OrSetDelta E) := {|
  causal_context := λ d, (delta_context d, delta_dot_node d, delta_dot_counter d)
|}.

Record OrSet (E : Type) `{Countable E} := mkOrSet {
  adds : gmap E (gset Dot);
  tombstones : gmap Dot Dot
}.
Arguments mkOrSet {E _ _}.
Arguments adds {E _ _}.
Arguments tombstones {E _ _}.

Module OrSetImpl.
Section impl.
Context {E : Type} `{Countable E}.
Implicit Types self : OrSet E.

Definition new : OrSet E := {| adds := ∅; tombstones := ∅ |}.

(** [dots.iter().any(|d| !self.tombstones.contains_key(d))] *)
Definition any_live self (dots : gset Dot) : bool :=
  existsb (λ d, bool_decide (tombstones self !! d = None)) (elements dots).

Definition contains self (elem : E) : bool :=
  match adds self !! elem with
  | Some dots => any_live self dots
  | None => false
  end.

(** The items of the iterator, in iteration order. *)
Definition elements_of self : list E :=
  (List.filter (λ p, any_live self p.2) (map_to_list (adds self))).*1.

Definition len self : nat :=
  length (List.filter (any_live self) (map_to_list (adds self)).*2).

Definition is_empty self : bool := Nat.eqb (len self) 0.

Definition add_dot (m : gmap E (gset Dot)) (elem : E) (d : Dot) : gmap E (gset Dot) :=
  <[elem := {[d]} ∪ default ∅ (m !! elem)]> m.

Definition apply_local self (d : Dot) (op : OrSetOp E) : OrSet E :=
  match op with
  | Add elem =>
      {| adds := add_dot (adds self) elem d; tombstones := tombstones self |}
  | Remove elem =>
      let add_dots := elements (default ∅ (adds self !! elem)) in
      {| adds := delete elem (adds self);
         tombstones := foldl (λ t a, <[a := d]> t) (tombstones self) add_dots |}
  end.

Definition merge_tombstone self (p : Dot * Dot) : OrSet E :=
  {| adds := (λ dots, dots ∖ {[p.1]}) <$> adds self;
     tombstones := <[p.1 := p.2]> (tombstones self) |}.

Definition retain_nonempty self : OrSet E :=
  {| adds := filter (λ p, p.2 ≠ ∅) (adds self); tombstones := tombstones self |}.

Definition merge_add self (p : E * Dot) : OrSet E :=
  match tombstones self !! p.2 with
  | None => {| adds := add_dot (adds self) p.1 p.2; tombstones := tombstones self |}
  | Some _ => self
  end.

Definition merge_delta self (delta : OrSetDelta E) : OrSet E :=
  let s1 := foldl merge_tombstone self (delta_tombstones delta) in
  let s2 := retain_nonempty s1 in
  foldl merge_add s2 (delta_adds delta).

Definition get_random_element (display : E → string) self : option string :=
  display <$> head (elements_of self).

(** [elems.sort_by(|a, b| format!("{:?}", a).cmp(..))] then [join(", ")]; the
    debug format of the elements is the parameter [debug]. *)
Definition print_state (debug : E → string) self : string :=
  String.concat ", " (debug <$> merge_sort (λ a b, Is_true (String.leb (debug a) (debug b)))
                                  (elements_of self)).

Definition print_internals (debug_add : E * gset Dot → string)
    (debug_tombstone : Dot * Dot → string) self : string :=
  "adds: [" ++ String.concat ", " (debug_add <$> map_to_list (adds self)) ++
  "] | tombstones: [" ++
  String.concat ", " (debug_tombstone <$> map_to_list (tombstones self)) ++ "]".

Definition full_state self (dvv : DotVersionVector) : OrSetDelta E :=
  {| delta_adds :=
       p ← map_to_list (adds self); (λ d, (p.1, d)) <$> elements p.2;
     delta_tombstones := map_to_list (tombstones self);
     delta_context := Dvv.effective_map dvv;
     delta_dot_node := d_node_id (dot dvv);
     delta_dot_counter := d_counter (dot dvv) |}.

(** [d.counter > remote_knowledge.get(&d.node_id).copied().unwrap_or(0)] *)
Definition unseen (remote_knowledge : CausalContext) (d : Dot) : bool :=
  get_or0 remote_knowledge (d_node_id d) <? d_counter d.

Definition delta_since self (remote_knowledge : CausalContext) (dvv : DotVersionVector)
    : OrSetDelta E :=
  {| delta_adds :=
       p ← map_to_list (adds self);
       (λ d, (p.1, d)) <$> List.filter (unseen remote_knowledge) (elements p.2);
     delta_tombstones :=
       List.filter (λ p, unseen remote_knowledge p.2) (map_to_list (tombstones self));
     delta_context := Dvv.effective_map dvv;
     delta_dot_node := d_node_id (dot dvv);
     delta_dot_counter := d_counter (dot dvv) |}.

Definition perform_gc self (frontier : DotVersionVector) : OrSet E :=
  {| adds := adds self;
     tombstones :=
       filter (λ p, Dvv.dominates_dot frontier p.2 = false) (tombstones self) |}.

(** ** Codecs *)
Context `{ElementCodec E} `{Message ProtoOrSetDelta} `{Message ProtoOrSetOp}.

Definition proto_of_dot (d : Dot) : ProtoDot :=
  {| pd_node_id := d_node_id d; pd_counter := d_counter d |}.

Definition dot_of_proto (p : ProtoDot) : Dot := mkDot (pd_node_id p) (pd_counter p).

Definition proto_of_delta (delta : OrSetDelta E) : ProtoOrSetDelta :=
  {| pod_adds :=
       (λ p, {| ped_element := encode_elem p.1; ped_dot := Some (proto_of_dot p.2) |})
         <$> delta_adds delta;
     pod_tombstones :=
       (λ p, {| pdp_add_dot := Some (proto_of_dot p.1);
                pdp_remove_dot := Some (proto_of_dot p.2) |})
         <$> delta_tombstones delta;
     pod_context := delta_context delta;
     pod_dot_node := delta_dot_node delta;
     pod_dot_counter := delta_dot_counter delta |}.

Definition encode_delta (delta : OrSetDelta E) : bytes :=
  encode_to_vec (proto_of_delta delta).

Definition decode_elem_dot (ed : ProtoElemDot) : result (E * Dot) :=
  match decode_elem (ped_element ed) with
  | Err e => Err e
  | Ok elem =>
      match ok_or (ped_dot ed) "missing dot in ProtoElemDot" with
      | Err e => Err e
      | Ok dot_proto => Ok (elem, dot_of_proto dot_proto)
      end
  end.

Definition decode_dot_pair (dp : ProtoDotPair) : result (Dot * Dot) :=
  match ok_or (pdp_add_dot dp) "missing add_dot in ProtoDotPair" with
  | Err e => Err e
  | Ok add_proto =>
      match ok_or (pdp_remove_dot dp) "missing remove_dot in ProtoDotPair" with
      | Err e => Err e
      | Ok remove_proto => Ok (dot_of_proto add_proto, dot_of_proto remove_proto)
      end
  end.

Definition delta_of_proto (p : ProtoOrSetDelta) : result (OrSetDelta E) :=
  match collect_results decode_elem_dot (pod_adds p) with
  | Err e => Err e
  | Ok a =>
      match collect_results decode_dot_pair (pod_tombstones p) with
      | Err e => Err e
      | Ok t =>
          Ok {| delta_adds := a; delta_tombstones := t;
                delta_context := pod_context p;
                delta_dot_node := pod_dot_node p;
                delta_dot_counter := pod_dot_counter p |}
      end
  end.

Definition decode_delta (b : bytes) : result (OrSetDelta E) :=
  match decode b with
  | Err e => Err e
  | Ok p => delta_of_proto p
  end.

Definition encode_op (op : OrSetOp E) : bytes :=
  encode_to_vec {| poo_op := Some match op with
                                  | Add elem => AddElement (encode_elem elem)
                                  | Remove elem => RemoveElement (encode_elem elem)
                                  end |}.

Definition decode_op (b : bytes) : result (OrSetOp E) :=
  match decode b with
  | Err e => Err e
  | Ok proto_op =>
      match poo_op proto_op with
      | Some (AddElement b) =>
          match decode_elem b with Ok e => Ok (Add e) | Err e => Err e end
      | Some (RemoveElement b) =>
          match decode_elem b with Ok e => Ok (Remove e) | Err e => Err e end
      | None => Err "empty ProtoOrSetOp"
      end
  end.

End impl.
End OrSetImpl.

(** [Display] and [Debug] of the element type and of the entries that
    [print_internals] prints (standard-library formatting). *)
Class ElementFormat (E : Type) := {
  display : E → string;
  debug : E → string;
  debug_add_entry : E * gset Dot → string;
  debug_tombstone_entry : Dot * Dot → string
}.

#[export] Instance OrSet_DeltaCrdt {E : Type} `{Countable E} `{ElementCodec E}
    `{ElementFormat E} `{Message ProtoOrSetDelta} `{Message ProtoOrSetOp} :
  DeltaCrdt (OrSet E) (OrSetOp E) (OrSetDelta E) := {|
  Crdt.apply_local := OrSetImpl.apply_local;
  Crdt.merge_delta := OrSetImpl.merge_delta;
  Crdt.full_state := OrSetImpl.full_state;
  Crdt.delta_since := OrSetImpl.delta_since;
  Crdt.perform_gc := OrSetImpl.perform_gc;
  Crdt.print_state := OrSetImpl.print_state debug;
  Crdt.print_internals :=
    OrSetImpl.print_internals debug_add_entry debug_tombstone_entry;
  Crdt.get_random_element := OrSetImpl.get_random_element display;
  Crdt.encode_delta := OrSetImpl.encode_delta;
  Crdt.decode_delta := OrSetImpl.decode_delta;
  Crdt.encode_op := OrSetImpl.encode_op;
  Crdt.decode_op := OrSetImpl.decode_op
|}.

(** ** Specification vocabulary *)
Section spec.
Context {E : Type} `{Countable E}.

(** The dot [d] justifies the presence of [e]. *)
Definition in_adds (s : OrSet E) (e : E) (d : Dot) : Prop :=
  d ∈ (default ∅ (adds s !! e) : gset Dot).

Definition tombed (s : OrSet E) (d : Dot) : Prop := is_Some (tombstones s !! d).

#[export] Instance tombed_dec s d : Decision (tombed s d).
Proof. unfold tombed. apply _. Defined.

#[export] Instance in_adds_dec s e d : Decision (in_adds s e d).
Proof. unfold in_adds. apply _. Defined.

(** No element is kept with an empty set of dots, no kept dot is tombstoned,
    and a dot justifies one element only. *)
Record orset_wf (s : OrSet E) : Prop := {
  wf_nonempty : ∀ e, adds s !! e ≠ Some ∅;
  wf_live : ∀ e d, in_adds s e d → ¬ tombed s d;
  wf_unique : ∀ e e' d, in_adds s e d → in_adds s e' d → e = e'
}.

(** The state a reader can see: the justified pairs and the dead dots. *)
Definition same_visible (s t : OrSet E) : Prop :=
  (∀ e d, in_adds s e d ↔ in_adds t e d) ∧ (∀ d, tombed s d ↔ tombed t d).

(** The two states agree on which element a dot was minted for. *)
Definition agree_on_dots (s t : OrSet E) : Prop :=
  ∀ e e' d, in_adds s e d → in_adds t e' d → e = e'.

Definition delta_of (s : OrSet E) : OrSetDelta E :=
  OrSetImpl.full_state s (Dvv.new "").

Definition merge_state (s t : OrSet E) : OrSet E := OrSetImpl.merge_delta s (delta_of t).

End spec.

Section lemmas.
Context {E : Type} `{Countable E}.
Implicit Types s t : OrSet E.
Implicit Types e : E.
Implicit Types d : Dot.

(** ** Reading the state *)
Lemma any_live_spec s dots :
  OrSetImpl.any_live s dots = true ↔ ∃ d, d ∈ dots ∧ ¬ tombed s d.
Proof.
  unfold OrSetImpl.any_live, tombed. rewrite existsb_exists.
  split; intros (d & H1 & H2); exists d.
  - apply list_elem_of_In, elem_of_elements in H1.
    apply bool_decide_eq_true in H2. rewrite H2. split; [done|].
    by intros [? ?].
  - split; [by apply list_elem_of_In, elem_of_elements|].
    apply bool_decide_eq_true. by apply eq_None_not_Some.
Qed.

Lemma contains_spec s e :
  OrSetImpl.contains s e = true ↔ ∃ d, in_adds s e d ∧ ¬ tombed s d.
Proof.
  unfold OrSetImpl.contains, in_adds. destruct (adds s !! e) as [dots|] eqn:He; simpl.
  - apply any_live_spec.
  - split; [done|]. intros (d & Hd & _). set_solver.
Qed.

Lemma contains_wf s e :
  orset_wf s → OrSetImpl.contains s e = true ↔ e ∈ dom (adds s).
Proof.
  intros Hwf. rewrite contains_spec, elem_of_dom. split.
  - intros (d & Hd & _). unfold in_adds in Hd.
    destruct (adds s !! e); simpl in *; [eauto | set_solver].
  - intros [dots He].
    assert (dots ≠ ∅) as [d Hd]%set_choose_L.
    { intros ->. by destruct (wf_nonempty _ Hwf e). }
    assert (in_adds s e d) by (unfold in_adds; by rewrite He).
    exists d. split; [done|]. by eapply wf_live.
Qed.

Lemma elements_of_spec s e :
  e ∈ OrSetImpl.elements_of s ↔ OrSetImpl.contains s e = true.
Proof.
  unfold OrSetImpl.elements_of, OrSetImpl.contains.
  rewrite list_elem_of_fmap. setoid_rewrite list_elem_of_In.
  setoid_rewrite filter_In. setoid_rewrite <- list_elem_of_In. split.
  - intros ([e' dots] & -> & Hin & Hl); simpl in *.
    apply elem_of_map_to_list in Hin. by rewrite Hin.
  - destruct (adds s !! e) as [dots|] eqn:He; [|done]. intros Hl.
    exists (e, dots). split_and!; [done| |done]. by apply elem_of_map_to_list.
Qed.

Lemma NoDup_elements_of s : NoDup (OrSetImpl.elements_of s).
Proof.
  unfold OrSetImpl.elements_of.
  pose proof (NoDup_fst_map_to_list (adds s)) as Hnd. revert Hnd.
  induction (map_to_list (adds s)) as [|[e dots] l IH]; simpl; [done|].
  intros [Hni Hnd]%NoDup_cons. case_match; simpl; [|by apply IH].
  apply NoDup_cons. split; [|by apply IH].
  intros Hin. apply Hni. apply list_elem_of_fmap in Hin as (p & -> & Hp).
  apply list_elem_of_In, filter_In in Hp as [Hp _].
  apply list_elem_of_fmap. exists p. split; [done|]. by apply list_elem_of_In.
Qed.

Lemma len_elements_of s : OrSetImpl.len s = length (OrSetImpl.elements_of s).
Proof.
  unfold OrSetImpl.len, OrSetImpl.elements_of. rewrite length_fmap.
  induction (map_to_list (adds s)) as [|[e dots] l IH]; simpl; [done|].
  case_match; simpl; [f_equal|]; apply IH.
Qed.

(** ** Local operations *)
Lemma in_adds_add_dot (m : gmap E (gset Dot)) e d e' d' :
  d' ∈ (default ∅ (OrSetImpl.add_dot m e d !! e') : gset Dot) ↔
    (e' = e ∧ d' = d) ∨ d' ∈ (default ∅ (m !! e') : gset Dot).
Proof.
  unfold OrSetImpl.add_dot. rewrite lookup_insert. case_decide; simpl; set_solver.
Qed.

Lemma in_adds_apply_add s d e e' d' :
  in_adds (OrSetImpl.apply_local s d (Add e)) e' d' ↔
    (e' = e ∧ d' = d) ∨ in_adds s e' d'.
Proof. apply in_adds_add_dot. Qed.

Lemma tombed_apply_add s d e d' :
  tombed (OrSetImpl.apply_local s d (Add e)) d' ↔ tombed s d'.
Proof. done. Qed.

Lemma in_adds_apply_remove s d e e' d' :
  in_adds (OrSetImpl.apply_local s d (Remove e)) e' d' ↔ e' ≠ e ∧ in_adds s e' d'.
Proof.
  unfold in_adds; simpl. rewrite lookup_delete. case_decide; simpl; set_solver.
Qed.

Lemma tombstone_loop_lookup (r : Dot) (l : list Dot) (m : gmap Dot Dot) d :
  foldl (λ (t : gmap Dot Dot) a, <[a := r]> t) m l !! d = if decide (d ∈ l) then Some r else m !! d.
Proof.
  revert m. induction l as [|a l IH]; intros m; simpl; [done|].
  rewrite IH, lookup_insert. repeat case_decide; set_solver.
Qed.

Lemma lookup_tombstones_remove s d e d' :
  tombstones (OrSetImpl.apply_local s d (Remove e)) !! d' =
    if decide (in_adds s e d') then Some d else tombstones s !! d'.
Proof.
  simpl. rewrite tombstone_loop_lookup. unfold in_adds.
  repeat case_decide; set_solver.
Qed.

Lemma tombed_apply_remove s d e d' :
  tombed (OrSetImpl.apply_local s d (Remove e)) d' ↔ in_adds s e d' ∨ tombed s d'.
Proof.
  unfold tombed. rewrite lookup_tombstones_remove. case_decide; naive_solver.
Qed.

(** ** Merging a delta *)
Lemma in_adds_merge_tombstones s l e d :
  in_adds (foldl OrSetImpl.merge_tombstone s l) e d ↔ in_adds s e d ∧ d ∉ l.*1.
Proof.
  revert s. induction l as [|[a r] l IH]; intros s; simpl; [set_solver|].
  rewrite IH. unfold in_adds at 1; simpl. rewrite lookup_fmap.
  unfold in_adds. destruct (adds s !! e); simpl; set_solver.
Qed.

Lemma lookup_merge_tombstones s l d :
  tombstones (foldl OrSetImpl.merge_tombstone s l) !! d =
    foldl (λ (t : gmap Dot Dot) p, <[p.1 := p.2]> t) (tombstones s) l !! d.
Proof. revert s. induction l as [|[a r] l IH]; intros s; simpl; [done|]. apply IH. Qed.

Lemma insert_loop_cases (m : gmap Dot Dot) (l : list (Dot * Dot)) d :
  match foldl (λ (t : gmap Dot Dot) p, <[p.1 := p.2]> t) m l !! d with
  | Some r => (d, r) ∈ l ∨ (d ∉ l.*1 ∧ m !! d = Some r)
  | None => d ∉ l.*1 ∧ m !! d = None
  end.
Proof.
  revert m. induction l as [|[a r] l IH]; intros m; simpl.
  { destruct (m !! d); set_solver. }
  specialize (IH (<[a := r]> m)). destruct (foldl _ _ _ !! d) as [r'|].
  - destruct IH as [?|[Hni Hl]]; [set_solver|].
    rewrite lookup_insert in Hl. case_decide; [|set_solver].
    simplify_eq. set_solver.
  - destruct IH as [Hni Hl]. rewrite lookup_insert in Hl. case_decide; set_solver.
Qed.

Lemma insert_loop_NoDup (m : gmap Dot Dot) (l : list (Dot * Dot)) d :
  NoDup l.*1 →
  foldl (λ (t : gmap Dot Dot) p, <[p.1 := p.2]> t) m l !! d =
    match (list_to_map l : gmap Dot Dot) !! d with Some r => Some r | None => m !! d end.
Proof.
  revert m. induction l as [|[a r] l IH]; intros m; simpl; [done|].
  intros [Hni Hnd]%NoDup_cons. rewrite IH by done. simpl.
  destruct (decide (a = d)) as [->|Hne].
  - by rewrite (not_elem_of_list_to_map_1 _ _ Hni), !lookup_insert_eq.
  - by rewrite !lookup_insert_ne.
Qed.

Lemma in_adds_retain s e d : in_adds (OrSetImpl.retain_nonempty s) e d ↔ in_adds s e d.
Proof.
  unfold in_adds; simpl. rewrite map_lookup_filter.
  destruct (adds s !! e) as [dots|]; simpl; [|done].
  case_guard as Hd; simpl; [done|].
  by subst.
Qed.

Lemma retain_nonempty_lookup s e : adds (OrSetImpl.retain_nonempty s) !! e ≠ Some ∅.
Proof. simpl. rewrite map_lookup_filter_Some. by intros [_ ?]. Qed.

Lemma tombstones_merge_adds s l :
  tombstones (foldl OrSetImpl.merge_add s l) = tombstones s.
Proof.
  revert s. induction l as [|[e d] l IH]; intros s; simpl; [done|].
  rewrite IH. unfold OrSetImpl.merge_add. by case_match.
Qed.

Lemma in_adds_merge_add s p e d :
  in_adds (OrSetImpl.merge_add s p) e d ↔
    in_adds s e d ∨ ((e, d) = p ∧ ¬ tombed s d).
Proof.
  destruct p as [e' d']. unfold OrSetImpl.merge_add; simpl.
  destruct (tombstones s !! d') eqn:Ht.
  - split; [by left|]. intros [?|[[= -> ->] Hn]]; [done|]. destruct Hn. eexists. done.
  - change (in_adds (OrSetImpl.apply_local s d' (Add e')) e d ↔
      in_adds s e d ∨ ((e, d) = (e', d') ∧ ¬ tombed s d)).
    rewrite in_adds_apply_add.
    split; [|naive_solver]. intros [[-> ->]|?]; [right|by left].
    split; [done|]. unfold tombed. rewrite Ht. by intros [? ?].
Qed.

Lemma in_adds_merge_adds s l e d :
  in_adds (foldl OrSetImpl.merge_add s l) e d ↔
    in_adds s e d ∨ ((e, d) ∈ l ∧ ¬ tombed s d).
Proof.
  revert s. induction l as [|p l IH]; intros s; simpl; [set_solver|].
  rewrite IH, in_adds_merge_add.
  assert (tombed (OrSetImpl.merge_add s p) d ↔ tombed s d) as ->.
  { unfold tombed. pose proof (tombstones_merge_adds s [p]) as Ht; simpl in Ht.
    by rewrite Ht. }
  set_solver.
Qed.

Lemma merge_adds_nonempty s l :
  (∀ e, adds s !! e ≠ Some ∅) →
  ∀ e, adds (foldl OrSetImpl.merge_add s l) !! e ≠ Some ∅.
Proof.
  revert s. induction l as [|[e d] l IH]; intros s Hs; simpl; [done|].
  apply IH. intros e'. unfold OrSetImpl.merge_add; simpl. case_match; [done|].
  simpl. unfold OrSetImpl.add_dot. rewrite lookup_insert. case_decide; [|done].
  intros [=]. set_solver.
Qed.

Lemma lookup_tombstones_merge s (delta : OrSetDelta E) d :
  match tombstones (OrSetImpl.merge_delta s delta) !! d with
  | Some r => (d, r) ∈ delta_tombstones delta ∨
              (d ∉ (delta_tombstones delta).*1 ∧ tombstones s !! d = Some r)
  | None => d ∉ (delta_tombstones delta).*1 ∧ tombstones s !! d = None
  end.
Proof.
  unfold OrSetImpl.merge_delta. rewrite tombstones_merge_adds. simpl.
  rewrite lookup_merge_tombstones. apply insert_loop_cases.
Qed.

Lemma lookup_tombstones_merge_NoDup s (delta : OrSetDelta E) d :
  NoDup (delta_tombstones delta).*1 →
  tombstones (OrSetImpl.merge_delta s delta) !! d =
    match (list_to_map (delta_tombstones delta) : gmap Dot Dot) !! d with
    | Some r => Some r
    | None => tombstones s !! d
    end.
Proof.
  intros Hnd. unfold OrSetImpl.merge_delta. rewrite tombstones_merge_adds. simpl.
  rewrite lookup_merge_tombstones. by apply insert_loop_NoDup.
Qed.

Lemma tombed_merge s (delta : OrSetDelta E) d :
  tombed (OrSetImpl.merge_delta s delta) d ↔
    d ∈ (delta_tombstones delta).*1 ∨ tombed s d.
Proof.
  pose proof (lookup_tombstones_merge s delta d) as Hd. unfold tombed.
  destruct (tombstones (OrSetImpl.merge_delta s delta) !! d) as [r|].
  - split; [|eauto]. intros _. destruct Hd as [Hin|[_ ->]]; [|eauto].
    left. apply list_elem_of_fmap. by exists (d, r).
  - destruct Hd as [Hni ->]. split; [by intros []|]. intros [?|[]]; done.
Qed.

Lemma in_adds_merge s (delta : OrSetDelta E) e d :
  in_adds (OrSetImpl.merge_delta s delta) e d ↔
    (in_adds s e d ∧ d ∉ (delta_tombstones delta).*1) ∨
    ((e, d) ∈ delta_adds delta ∧ ¬ tombed (OrSetImpl.merge_delta s delta) d).
Proof.
  rewrite tombed_merge. unfold OrSetImpl.merge_delta.
  rewrite in_adds_merge_adds, in_adds_retain, in_adds_merge_tombstones.
  assert (tombed (OrSetImpl.retain_nonempty
            (foldl OrSetImpl.merge_tombstone s (delta_tombstones delta))) d ↔
          d ∈ (delta_tombstones delta).*1 ∨ tombed s d) as ->; [|done].
  rewrite <- (tombed_merge s delta). unfold tombed, OrSetImpl.merge_delta.
  by rewrite tombstones_merge_adds.
Qed.

Lemma merge_nonempty s (delta : OrSetDelta E) e :
  adds (OrSetImpl.merge_delta s delta) !! e ≠ Some ∅.
Proof. apply merge_adds_nonempty, retain_nonempty_lookup. Qed.

(** ** The deltas a state produces *)
Lemma elem_of_pairs (f : list Dot → list Dot) s e d :
  (e, d) ∈ (p ← map_to_list (adds s); (λ d, (p.1, d)) <$> f (elements p.2)) ↔
    ∃ dots, adds s !! e = Some dots ∧ d ∈ f (elements dots).
Proof.
  rewrite list_elem_of_bind. split.
  - intros ([e' dots] & Hin & Hp). simpl in Hin.
    apply list_elem_of_fmap in Hin as (d' & [= <- <-] & Hd').
    apply elem_of_map_to_list in Hp. eauto.
  - intros (dots & He & Hd). exists (e, dots). simpl. split.
    + apply list_elem_of_fmap. eauto.
    + by apply elem_of_map_to_list.
Qed.

Lemma in_adds_lookup s e d :
  in_adds s e d ↔ ∃ dots, adds s !! e = Some dots ∧ d ∈ dots.
Proof. unfold in_adds. destruct (adds s !! e); simpl; set_solver. Qed.

Lemma full_state_adds s dvv e d :
  (e, d) ∈ delta_adds (OrSetImpl.full_state s dvv) ↔ in_adds s e d.
Proof.
  simpl. rewrite (elem_of_pairs id). unfold id. setoid_rewrite elem_of_elements.
  by rewrite in_adds_lookup.
Qed.

Lemma full_state_tombstones s dvv d r :
  (d, r) ∈ delta_tombstones (OrSetImpl.full_state s dvv) ↔ tombstones s !! d = Some r.
Proof. apply elem_of_map_to_list. Qed.

Lemma delta_since_adds s K dvv e d :
  (e, d) ∈ delta_adds (OrSetImpl.delta_since s K dvv) ↔
    in_adds s e d ∧ ¬ ctx_covers K d.
Proof.
  simpl. rewrite (elem_of_pairs (List.filter (OrSetImpl.unseen K))).
  setoid_rewrite list_elem_of_In. setoid_rewrite filter_In.
  setoid_rewrite <- list_elem_of_In. setoid_rewrite elem_of_elements.
  rewrite in_adds_lookup. unfold OrSetImpl.unseen, ctx_covers.
  setoid_rewrite N.ltb_lt. setoid_rewrite N.nle_gt. naive_solver.
Qed.

Lemma delta_since_tombstones s K dvv d r :
  (d, r) ∈ delta_tombstones (OrSetImpl.delta_since s K dvv) ↔
    tombstones s !! d = Some r ∧ ¬ ctx_covers K r.
Proof.
  simpl. rewrite list_elem_of_In, filter_In, <- list_elem_of_In, elem_of_map_to_list.
  unfold OrSetImpl.unseen, ctx_covers. simpl. by rewrite N.ltb_lt, N.nle_gt.
Qed.

Lemma fst_tombstones_tombed s dvv d :
  d ∈ (delta_tombstones (OrSetImpl.full_state s dvv)).*1 ↔ tombed s d.
Proof.
  rewrite list_elem_of_fmap. unfold tombed. split.
  - intros ([d' r] & -> & Hin). apply full_state_tombstones in Hin. simpl. eauto.
  - intros [r Hr]. exists (d, r). split; [done|]. by apply full_state_tombstones.
Qed.

(** ** Garbage collection *)
Lemma in_adds_gc s f e d : in_adds (OrSetImpl.perform_gc s f) e d ↔ in_adds s e d.
Proof. done. Qed.

Lemma lookup_tombstones_gc s f d r :
  tombstones (OrSetImpl.perform_gc s f) !! d = Some r ↔
    tombstones s !! d = Some r ∧ ¬ ctx_covers (Dvv.effective_map f) r.
Proof.
  simpl. rewrite map_lookup_filter_Some, <- dominates_dot_covers. simpl.
  by rewrite not_true_iff_false.
Qed.


(** ** Well-formedness *)
Lemma new_wf : orset_wf (OrSetImpl.new : OrSet E).
Proof. split; unfold in_adds; simpl; set_solver. Qed.

Lemma apply_add_wf s d e :
  orset_wf s → (∀ e', ¬ in_adds s e' d) → ¬ tombed s d →
  orset_wf (OrSetImpl.apply_local s d (Add e)).
Proof.
  intros Hwf Hfresh Ht. split.
  - intros e'. simpl. unfold OrSetImpl.add_dot. rewrite lookup_insert.
    case_decide; [intros [=]; set_solver | apply Hwf].
  - intros e' d'. rewrite in_adds_apply_add, tombed_apply_add.
    intros [[-> ->]|Hd]; [done|]. by eapply wf_live.
  - intros e1 e2 d'. rewrite !in_adds_apply_add.
    intros [[-> ->]|H1] [[-> Hd]|H2]; try done.
    + by destruct (Hfresh e2).
    + subst. by destruct (Hfresh e1).
    + by eapply wf_unique.
Qed.

Lemma apply_remove_wf s d e :
  orset_wf s → orset_wf (OrSetImpl.apply_local s d (Remove e)).
Proof.
  intros Hwf. split.
  - intros e'. simpl. rewrite lookup_delete. case_decide; [done|apply Hwf].
  - intros e' d'. rewrite in_adds_apply_remove, tombed_apply_remove.
    intros [Hne Hd] [He|Ht].
    + by apply Hne, (wf_unique _ Hwf _ _ d').
    + by eapply wf_live.
  - intros e1 e2 d'. rewrite !in_adds_apply_remove.
    intros [_ H1] [_ H2]. by eapply wf_unique.
Qed.

(** The pairs of the state and of the delta mint each dot for one element. *)
Definition delta_agrees s (delta : OrSetDelta E) : Prop :=
  ∀ e e' d, in_adds s e d ∨ (e, d) ∈ delta_adds delta →
            in_adds s e' d ∨ (e', d) ∈ delta_adds delta → e = e'.

Lemma merge_live t (delta : OrSetDelta E) e d :
  orset_wf t → in_adds (OrSetImpl.merge_delta t delta) e d → ¬ tombed (OrSetImpl.merge_delta t delta) d.
Proof.
  intros Hwf. rewrite in_adds_merge, tombed_merge.
  intros [[Hd Hni]|[_ Hnt]]; [|done]. intros [?|Ht]; [done|]. by eapply wf_live.
Qed.

Lemma merge_wf s (delta : OrSetDelta E) :
  orset_wf s → delta_agrees s delta → orset_wf (OrSetImpl.merge_delta s delta).
Proof.
  intros Hwf Hag. split.
  - apply merge_nonempty.
  - intros e d. by apply merge_live.
  - intros e e' d. rewrite !in_adds_merge.
    intros H1 H2. apply (Hag e e' d); naive_solver.
Qed.

(** What a peer with knowledge [K] lacks is enough for it, if it has what [K]
    covers or has removed it. *)
Lemma merge_minimal t s K dvv e d :
  orset_wf s →
  (∀ e d, in_adds s e d → ctx_covers K d → in_adds t e d ∨ tombed t d) →
  (∀ e d r, tombstones s !! d = Some r → ctx_covers K r → ¬ in_adds t e d) →
  in_adds (OrSetImpl.merge_delta t (OrSetImpl.delta_since s K dvv)) e d ↔
  in_adds (OrSetImpl.merge_delta t (OrSetImpl.full_state s dvv)) e d.
Proof.
  intros Hwf Hadds Htombs.
  assert (∀ d, d ∈ (delta_tombstones (OrSetImpl.delta_since s K dvv)).*1 ↔
    ∃ r, tombstones s !! d = Some r ∧ ¬ ctx_covers K r) as Hsince.
  { intros d'. rewrite list_elem_of_fmap. split.
    - intros ([d2 r] & -> & Hin%delta_since_tombstones). by exists r.
    - intros [r Hr]. exists (d', r). split; [done|by apply delta_since_tombstones]. }
  rewrite !in_adds_merge, !tombed_merge, Hsince, fst_tombstones_tombed, delta_since_adds, full_state_adds.
  split.
  - intros [[Ht Hno]|[[Hs Hc] Hno]]; [left|right].
    + split; [done|]. intros [r Hr]. destruct (decide (ctx_covers K r)); [by eapply Htombs|naive_solver].
    + split; [done|]. intros [Hd|Hd]; [by eapply wf_live|tauto].
  - intros [[Ht Hno]|[Hs Hno]].
    + left. split; [done|]. intros (r & Hr & _). apply Hno. by exists r.
    + assert (¬ ∃ r, tombstones s !! d = Some r ∧ ¬ ctx_covers K r) as Hd
        by (intros (r & Hr & _); apply Hno; left; by exists r).
      destruct (decide (ctx_covers K d)) as [Hc|Hc]; [|right; tauto].
      destruct (Hadds e d Hs Hc); [by left|tauto].
Qed.

Lemma contains_merge t (delta : OrSetDelta E) e :
  orset_wf t →
  OrSetImpl.contains (OrSetImpl.merge_delta t delta) e = true ↔
  ∃ d, in_adds (OrSetImpl.merge_delta t delta) e d.
Proof. intros Hwf. rewrite contains_spec. pose proof (λ d, merge_live t delta e d Hwf). naive_solver. Qed.

Lemma gc_wf s f : orset_wf s → orset_wf (OrSetImpl.perform_gc s f).
Proof.
  intros Hwf. split; [apply Hwf| |apply Hwf].
  intros e d Hd [r Hr]. apply lookup_tombstones_gc in Hr as [Hr _].
  eapply wf_live; [exact Hwf|exact Hd|]. by exists r.
Qed.

Lemma merge_state_tombed s t d : tombed (merge_state s t) d ↔ tombed s d ∨ tombed t d.
Proof. unfold merge_state. rewrite tombed_merge. unfold delta_of. rewrite fst_tombstones_tombed. tauto. Qed.

Lemma merge_state_adds s t e d :
  orset_wf s → orset_wf t →
  in_adds (merge_state s t) e d ↔
    (in_adds s e d ∨ in_adds t e d) ∧ ¬ tombed s d ∧ ¬ tombed t d.
Proof.
  intros Hs Ht. unfold merge_state. rewrite in_adds_merge.
  change (OrSetImpl.merge_delta s (delta_of t)) with (merge_state s t).
  rewrite merge_state_tombed. unfold delta_of.
  rewrite fst_tombstones_tombed, full_state_adds.
  pose proof (wf_live _ Hs e d). tauto.
Qed.

Lemma merge_state_wf s t :
  orset_wf s → orset_wf t → agree_on_dots s t → orset_wf (merge_state s t).
Proof.
  intros Hs Ht Hag. apply merge_wf; [done|].
  intros e e' d. unfold delta_of. rewrite !full_state_adds.
  intros [H1|H1] [H2|H2].
  - by eapply (wf_unique _ Hs).
  - by eapply Hag.
  - symmetry. by eapply Hag.
  - by eapply (wf_unique _ Ht).
Qed.

(** ** Codecs *)
Lemma dot_of_proto_of_dot d : OrSetImpl.dot_of_proto (OrSetImpl.proto_of_dot d) = d.
Proof. by destruct d. Qed.

Lemma delta_of_proto_of_delta `{ElementCodecOk E} (delta : OrSetDelta E) :
  OrSetImpl.delta_of_proto (OrSetImpl.proto_of_delta delta) = Ok delta.
Proof.
  unfold OrSetImpl.delta_of_proto; cbn [OrSetImpl.proto_of_delta pod_adds pod_tombstones].
  rewrite !collect_results_fmap.
  - by destruct delta.
  - intros [d r]. unfold OrSetImpl.decode_dot_pair; simpl. by rewrite !dot_of_proto_of_dot.
  - intros [e d]. unfold OrSetImpl.decode_elem_dot; simpl.
    by rewrite decode_encode_elem, dot_of_proto_of_dot.
Qed.

End lemmas.

(** The fields of the delta are Rust values: node ids are UTF-8, counters fit
    in 64 bits. *)
Definition dot_ok (d : Dot) : Prop := rust_string (d_node_id d) ∧ d_counter d < u64_modulus.

Definition orset_delta_ok {E} (delta : OrSetDelta E) : Prop :=
  Forall (λ p, dot_ok p.2) (delta_adds delta) ∧
  Forall (λ p, dot_ok p.1 ∧ dot_ok p.2) (delta_tombstones delta) ∧
  clock_ok (delta_context delta) ∧ rust_string (delta_dot_node delta) ∧
  delta_dot_counter delta < u64_modulus.

Section codec_lemmas.
Context {E : Type} `{Countable E} `{ElementCodecOk E}.
Context `{!Message ProtoOrSetDelta, !Message ProtoOrSetOp}.
Context `{!MessageOk ProtoOrSetDelta proto_or_set_delta_ok}.

Lemma proto_of_delta_ok (delta : OrSetDelta E) :
  orset_delta_ok delta → proto_or_set_delta_ok (OrSetImpl.proto_of_delta delta).
Proof.
  intros (Ha & Ht & Hc & Hn & Hd). split_and!; [| |done..]; simpl.
  - apply Forall_fmap. eapply Forall_impl; [exact Ha|]. done.
  - apply Forall_fmap. eapply Forall_impl; [exact Ht|]. done.
Qed.

Lemma decode_encode_orset_delta (delta : OrSetDelta E) :
  orset_delta_ok delta →
  OrSetImpl.decode_delta (OrSetImpl.encode_delta delta) = Ok delta.
Proof.
  intros Hok. unfold OrSetImpl.decode_delta, OrSetImpl.encode_delta.
  rewrite decode_encode by by apply proto_of_delta_ok.
  apply delta_of_proto_of_delta.
Qed.

#[export] Instance OrSet_DeltaCrdtOk `{!ElementFormat E} :
  DeltaCrdtOk (OrSet E) (OrSetOp E) (OrSetDelta E) orset_delta_ok.
Proof. split; [done|done|]. apply decode_encode_orset_delta. Qed.
End codec_lemmas.

(** ** Properties *)
Section properties.
Context {E : Type} `{Countable E}.
Implicit Types s t : OrSet E.
Implicit Types e : E.
Implicit Types d : Dot.

(** The invariant of the set (no empty dot set, no kept dot tombstoned,
    one element per dot) holds initially and is preserved by an addition with
    a fresh dot, a removal, the merge of any delta that agrees on the element of
    each dot, and garbage collection. *)
Theorem orset_wf_preserved s (delta : OrSetDelta E) d e f :
  orset_wf s → (∀ e', ¬ in_adds s e' d) → ¬ tombed s d → delta_agrees s delta →
  orset_wf (OrSetImpl.new : OrSet E) ∧
  orset_wf (OrSetImpl.apply_local s d (Add e)) ∧
  orset_wf (OrSetImpl.apply_local s d (Remove e)) ∧
  orset_wf (OrSetImpl.merge_delta s delta) ∧
  orset_wf (OrSetImpl.perform_gc s f).
Proof.
  intros Hwf Hfresh Ht Hag. split_and!.
  - apply new_wf.
  - by apply apply_add_wf.
  - by apply apply_remove_wf.
  - by apply merge_wf.
  - by apply gc_wf.
Qed.

(** After [Add e] with an unused dot exactly [e] has joined the
    members; after [Remove e] exactly [e] has left, and the tombstones are the
    old ones plus every dot that justified [e], each mapped to the remove dot. *)
Theorem local_ops_update_membership s d e :
  orset_wf s → ¬ tombed s d →
  (∀ e', OrSetImpl.contains (OrSetImpl.apply_local s d (Add e)) e' = true ↔
           e' = e ∨ OrSetImpl.contains s e' = true) ∧
  (∀ e', OrSetImpl.contains (OrSetImpl.apply_local s d (Remove e)) e' = true ↔
           e' ≠ e ∧ OrSetImpl.contains s e' = true) ∧
  (∀ d', tombstones (OrSetImpl.apply_local s d (Remove e)) !! d' =
           if decide (in_adds s e d') then Some d else tombstones s !! d').
Proof.
  intros Hwf Ht. split_and!.
  - intros e'. rewrite !contains_spec. setoid_rewrite in_adds_apply_add.
    setoid_rewrite tombed_apply_add. naive_solver.
  - intros e'. rewrite !contains_spec. setoid_rewrite in_adds_apply_remove.
    setoid_rewrite tombed_apply_remove. split; [naive_solver|].
    intros (Hne & d' & Hd & Hnt). exists d'. split; [done|].
    intros [He|?]; [|done]. by apply Hne, (wf_unique _ Hwf _ _ d').
  - intros d'. apply lookup_tombstones_remove.
Qed.

(** The readers agree with each other: [elements] lists every contained
    element once, [len] and [is_empty] count them, [get_random_element] prints
    one of them when there is one, and on well-formed states the members are
    the keys of [adds]. *)
Theorem readers_agree s (display : E → string) :
  NoDup (OrSetImpl.elements_of s) ∧
  (∀ e, e ∈ OrSetImpl.elements_of s ↔ OrSetImpl.contains s e = true) ∧
  OrSetImpl.len s = length (OrSetImpl.elements_of s) ∧
  (OrSetImpl.is_empty s = true ↔ ∀ e, OrSetImpl.contains s e = false) ∧
  (match OrSetImpl.get_random_element display s with
   | Some str => ∃ e, OrSetImpl.contains s e = true ∧ str = display e
   | None => OrSetImpl.is_empty s = true
   end) ∧
  (orset_wf s → ∀ e, OrSetImpl.contains s e = true ↔ e ∈ dom (adds s)).
Proof.
  split_and!.
  - apply NoDup_elements_of.
  - apply elements_of_spec.
  - apply len_elements_of.
  - unfold OrSetImpl.is_empty. rewrite Nat.eqb_eq, len_elements_of, length_zero_iff_nil.
    setoid_rewrite <- not_true_iff_false. setoid_rewrite <- elements_of_spec.
    split; [intros -> e; set_solver|]. intros Hno.
    destruct (OrSetImpl.elements_of s) as [|e l]; [done|]. destruct (Hno e). set_solver.
  - unfold OrSetImpl.get_random_element, OrSetImpl.is_empty.
    rewrite len_elements_of. pose proof (elements_of_spec s) as Hs.
    destruct (OrSetImpl.elements_of s) as [|e l]; simpl; [done|].
    exists e. split; [|done]. apply Hs. set_solver.
  - intros Hwf e. by apply contains_wf.
Qed.

(** C30. On the visible state (members with their dots, dead dots) merging
    full states is idempotent, commutative and associative, and keeps states
    well formed: replicas converge whatever the order and multiplicity of the
    exchanges. *)
Theorem merge_is_a_semilattice s t u :
  orset_wf s → orset_wf t → orset_wf u →
  agree_on_dots s t → agree_on_dots s u → agree_on_dots t u →
  same_visible (merge_state s s) s ∧
  same_visible (merge_state s t) (merge_state t s) ∧
  same_visible (merge_state (merge_state s t) u) (merge_state s (merge_state t u)) ∧
  orset_wf (merge_state s t).
Proof.
  intros Hs Ht Hu Hst Hsu Htu.
  assert (orset_wf (merge_state s t)) by by apply merge_state_wf.
  assert (orset_wf (merge_state t u)) by by apply merge_state_wf.
  split_and!; [| | |done]; (split; [intros e d | intros d]);
    rewrite ?merge_state_adds, ?merge_state_tombed by done; try tauto.
  pose proof (wf_live _ Hs e d). tauto.
Qed.

(** What a merge does to each pair: an element keeps a dot the delta does
    not kill (so an addition concurrent with a removal survives it), loses every
    dot the delta kills, and gains a dot of the delta unless it is dead here or
    in the delta. *)
Theorem merge_delta_outcome s (delta : OrSetDelta E) e d :
  let merged := OrSetImpl.merge_delta s delta in
  (in_adds merged e d ↔
     (in_adds s e d ∧ d ∉ (delta_tombstones delta).*1) ∨
     ((e, d) ∈ delta_adds delta ∧ d ∉ (delta_tombstones delta).*1 ∧ ¬ tombed s d)) ∧
  (tombed merged d ↔ d ∈ (delta_tombstones delta).*1 ∨ tombed s d) ∧
  (orset_wf s → in_adds s e d → d ∉ (delta_tombstones delta).*1 →
     OrSetImpl.contains merged e = true).
Proof.
  simpl. split_and!.
  - rewrite in_adds_merge, tombed_merge. tauto.
  - apply tombed_merge.
  - intros Hwf Hd Hni. apply contains_spec. exists d. split.
    + apply in_adds_merge. by left.
    + rewrite tombed_merge. intros [?|Ht]; [done|]. by eapply wf_live.
Qed.

(** The vectors of a delta come out of the sender's hash maps in an
    unspecified order; merging does not depend on it. *)
Theorem delta_order_is_irrelevant s a a' (l l' : list (Dot * Dot)) ctx n c :
  a ≡ₚ a' → l ≡ₚ l' → NoDup l.*1 →
  let merged := OrSetImpl.merge_delta s (mkOrSetDelta a l ctx n c) in
  let merged' := OrSetImpl.merge_delta s (mkOrSetDelta a' l' ctx n c) in
  tombstones merged = tombstones merged' ∧
  ∀ e d, in_adds merged e d ↔ in_adds merged' e d.
Proof.
  intros Ha Hl Hnd. simpl.
  assert (tombstones (OrSetImpl.merge_delta s (mkOrSetDelta a l ctx n c)) =
          tombstones (OrSetImpl.merge_delta s (mkOrSetDelta a' l' ctx n c))) as Ht.
  { assert (NoDup l'.*1) as Hnd' by by rewrite <- Hl.
    apply map_eq. intros d. rewrite !lookup_tombstones_merge_NoDup by done.
    simpl. by rewrite (list_to_map_proper l l'). }
  split; [done|]. intros e d. rewrite !in_adds_merge. unfold tombed. rewrite Ht.
  cbn [delta_adds delta_tombstones].
  assert (d ∈ l.*1 ↔ d ∈ l'.*1) as -> by by rewrite Hl.
  assert ((e, d) ∈ a ↔ (e, d) ∈ a') as -> by by rewrite Ha. done.
Qed.

(** [delta_since] sends exactly the live pairs whose add dot, and the
    tombstones whose remove dot, the peer's knowledge does not cover: to a peer
    that knows nothing it is the full state, to one that knows every dot it is
    empty. *)
Theorem delta_since_is_minimal s K dvv :
  (∀ e d, in_adds s e d → 0 < d_counter d) →
  (∀ d r, tombstones s !! d = Some r → 0 < d_counter r) →
  (∀ e d, (e, d) ∈ delta_adds (OrSetImpl.delta_since s K dvv) ↔
            in_adds s e d ∧ ¬ ctx_covers K d) ∧
  (∀ d r, (d, r) ∈ delta_tombstones (OrSetImpl.delta_since s K dvv) ↔
            tombstones s !! d = Some r ∧ ¬ ctx_covers K r) ∧
  OrSetImpl.delta_since s ∅ dvv = OrSetImpl.full_state s dvv.
Proof.
  intros Ha Ht. split_and!.
  - intros e d. apply delta_since_adds.
  - intros d r. apply delta_since_tombstones.
  - unfold OrSetImpl.delta_since, OrSetImpl.full_state. f_equal.
    + apply bind_ext_in. intros [e dots] Hin%elem_of_map_to_list. simpl.
      rewrite filter_all_true; [done|]. intros d Hd%elem_of_elements.
      apply N.ltb_lt. apply (Ha e d), in_adds_lookup. eauto.
    + apply filter_all_true. intros [d r] Hin%elem_of_map_to_list.
      apply N.ltb_lt. by apply (Ht d r).
Qed.

(** C31. Garbage collection drops exactly the tombstones whose remove
    dot the frontier dominates; the pairs, and on a well-formed state the
    members, are untouched. *)
Theorem gc_drops_only_stable_tombstones s f :
  orset_wf s →
  (∀ d r, tombstones (OrSetImpl.perform_gc s f) !! d = Some r ↔
     tombstones s !! d = Some r ∧ Dvv.dominates_dot f r = false) ∧
  adds (OrSetImpl.perform_gc s f) = adds s ∧
  (∀ e, OrSetImpl.contains (OrSetImpl.perform_gc s f) e = OrSetImpl.contains s e).
Proof.
  intros Hwf. split_and!; [|done|].
  - intros d r. rewrite lookup_tombstones_gc, <- dominates_dot_covers.
    by rewrite not_true_iff_false.
  - intros e. apply eq_true_iff_eq.
    by rewrite !contains_wf by (done || by apply gc_wf).
Qed.

(** The set consults only its tombstones when it merges additions, not
    the vector of events the replica has seen: once the tombstone of a removed
    dot has been collected, a delta computed before the removal and delivered
    late brings the element back, while without the collection it would not. *)
Theorem stale_delta_resurrects s (delta : OrSetDelta E) e d r f :
  orset_wf s → tombstones s !! d = Some r → Dvv.dominates_dot f r = true →
  (e, d) ∈ delta_adds delta → delta_tombstones delta = [] →
  OrSetImpl.contains (OrSetImpl.merge_delta (OrSetImpl.perform_gc s f) delta) e = true ∧
  ¬ in_adds (OrSetImpl.merge_delta s delta) e d.
Proof.
  intros Hwf Hr Hf Hin Hnil.
  assert (¬ tombed (OrSetImpl.merge_delta (OrSetImpl.perform_gc s f) delta) d) as Hnt.
  { rewrite tombed_merge, Hnil. intros [?|[r' Hr']]; [set_solver|].
    apply lookup_tombstones_gc in Hr' as [Hr' Hn]. simplify_eq.
    by apply Hn, dominates_dot_covers. }
  split.
  - apply contains_spec. exists d. split; [|done].
    apply in_adds_merge. by right.
  - rewrite in_adds_merge, tombed_merge. intros [[Hd _]|[_ Hnt']].
    + eapply wf_live; [done..|]. by exists r.
    + apply Hnt'. right. by exists r.
Qed.

(** The members converge but the tombstone values do not: the last
    merge wins.  When two replicas remove the same dot concurrently and then
    exchange full states, they swap their remove dots instead of agreeing. *)
Theorem tombstone_values_diverge d r1 r2 :
  r1 ≠ r2 →
  let s := {| adds := ∅ : gmap E (gset Dot); tombstones := {[d := r1]} |} in
  let t := {| adds := ∅ : gmap E (gset Dot); tombstones := {[d := r2]} |} in
  same_visible (merge_state s t) (merge_state t s) ∧
  tombstones (merge_state s t) = tombstones t ∧
  tombstones (merge_state t s) = tombstones s ∧
  tombstones (merge_state s t) ≠ tombstones (merge_state t s).
Proof.
  intros Hne. simpl.
  assert (∀ m r r', tombstones (merge_state
      {| adds := m : gmap E (gset Dot); tombstones := {[d := r]} |}
      {| adds := m; tombstones := {[d := r']} |}) = {[d := r']}) as Ht.
  { intros m r r'. apply map_eq. intros d'.
    unfold merge_state, delta_of. rewrite lookup_tombstones_merge_NoDup.
    - simpl. rewrite map_to_list_singleton. simpl.
      by destruct (decide (d = d')); simplify_map_eq.
    - simpl. rewrite map_to_list_singleton. apply NoDup_singleton. }
  rewrite !Ht. split_and!; [|done|done|].
  - split; [intros e d'|intros d'].
    + unfold merge_state. rewrite !in_adds_merge.
      unfold in_adds; simpl. rewrite lookup_empty, map_to_list_empty. set_solver.
    + unfold tombed. rewrite !Ht, !lookup_singleton. by case_decide.
  - intros Heq. apply Hne. by simplify_map_eq.
Qed.

End properties.

(** C32. A delta whose fields are Rust values survives its encoding, and so
    does an operation; decoding rejects an operation message without a body and
    every delta message with a missing dot. *)
Theorem delta_codec_round_trip {E : Type} `{Countable E} `{ElementCodecOk E}
    `{!Message ProtoOrSetDelta, !Message ProtoOrSetOp}
    `{!MessageOk ProtoOrSetDelta proto_or_set_delta_ok}
    `{!MessageOk ProtoOrSetOp (λ _, True)} (delta : OrSetDelta E) (op : OrSetOp E)
    (p : ProtoOrSetDelta) :
  orset_delta_ok delta →
  OrSetImpl.decode_delta (OrSetImpl.encode_delta delta) = Ok delta ∧
  OrSetImpl.decode_op (OrSetImpl.encode_op op) = Ok op ∧
  is_ok (OrSetImpl.decode_op (E := E) (encode_to_vec (mkProtoOrSetOp None))) = false ∧
  ((∃ ed, ed ∈ pod_adds p ∧ ped_dot ed = None) →
   is_ok (OrSetImpl.delta_of_proto (E := E) p) = false).
Proof.
  intros Hok. split_and!.
  - by apply decode_encode_orset_delta.
  - unfold OrSetImpl.decode_op, OrSetImpl.encode_op. rewrite decode_encode by done.
    destruct op; simpl; by rewrite decode_encode_elem.
  - unfold OrSetImpl.decode_op. by rewrite decode_encode.
  - intros (ed & Hin & Hnone). unfold OrSetImpl.delta_of_proto.
    assert (is_ok (collect_results (OrSetImpl.decode_elem_dot (E := E)) (pod_adds p)) = false)
      as Herr.
    { apply collect_results_Err. exists ed. split; [done|].
      unfold OrSetImpl.decode_elem_dot. rewrite Hnone. by destruct (decode_elem _). }
    by destruct (collect_results _ (pod_adds p)).
Qed.

(** ** Witnesses and concrete runs *)
Definition single (e : string) (d : Dot) : OrSet string :=
  OrSetImpl.apply_local OrSetImpl.new d (Add e).

Lemma in_adds_single e d e' d' : in_adds (single e d) e' d' ↔ e' = e ∧ d' = d.
Proof.
  unfold single. rewrite in_adds_apply_add. unfold in_adds; simpl. set_solver.
Qed.

Lemma tombed_single e d d' : ¬ tombed (single e d) d'.
Proof. unfold tombed, single; simpl. by intros [? ?]. Qed.

Lemma single_wf e d : orset_wf (single e d).
Proof.
  apply apply_add_wf; [apply new_wf| |].
  - intros e'. unfold in_adds; simpl. set_solver.
  - by intros [? ?].
Qed.

Lemma single_agree e d e' d' : d ≠ d' → agree_on_dots (single e d) (single e' d').
Proof. intros Hne e1 e2 d0. rewrite !in_adds_single. naive_solver. Qed.

Definition removed_x : OrSet string :=
  OrSetImpl.apply_local (single "x" (mkDot "A" 1)) (mkDot "A" 2) (Remove "x").

Definition stale_delta : OrSetDelta string :=
  OrSetImpl.full_state (single "x" (mkDot "A" 1)) (mkDVV (mkDot "A" 1) ∅).

Example two_replica_add_wins :
  let a := single "x" (mkDot "A" 1) in
  let b := OrSetImpl.apply_local a (mkDot "B" 1) (Remove "x") in
  let a' := OrSetImpl.apply_local a (mkDot "A" 2) (Add "x") in
  OrSetImpl.contains (merge_state a' b) "x" = true ∧
  OrSetImpl.contains (merge_state b a') "x" = true.
Proof. vm_compute. split; reflexivity. Qed.

Lemma orset_wf_preserved_witness :
  orset_wf (OrSetImpl.apply_local (single "x" (mkDot "A" 1)) (mkDot "A" 2) (Remove "x")).
Proof.
  apply (orset_wf_preserved (single "x" (mkDot "A" 1)) stale_delta (mkDot "A" 2) "x"
           (Dvv.new "A")).
  - apply single_wf.
  - intros e'. rewrite in_adds_single. intros [_ [=]].
  - apply tombed_single.
  - intros e e' d. unfold stale_delta. rewrite !full_state_adds, !in_adds_single.
    intros [[-> _]|[-> _]] [[-> _]|[-> _]]; reflexivity.
Defined.

Lemma local_ops_update_membership_witness :
  OrSetImpl.contains removed_x "x" = true ↔
    "x" ≠ "x" ∧ OrSetImpl.contains (single "x" (mkDot "A" 1)) "x" = true.
Proof.
  apply (local_ops_update_membership (single "x" (mkDot "A" 1)) (mkDot "A" 2) "x").
  - apply single_wf.
  - apply tombed_single.
Defined.

Lemma merge_is_a_semilattice_witness :
  same_visible (merge_state (single "x" (mkDot "A" 1)) (single "x" (mkDot "B" 1)))
               (merge_state (single "x" (mkDot "B" 1)) (single "x" (mkDot "A" 1))).
Proof.
  apply (merge_is_a_semilattice (single "x" (mkDot "A" 1)) (single "x" (mkDot "B" 1))
           (single "y" (mkDot "C" 1))); first [apply single_wf | apply single_agree; congruence].
Defined.

Lemma delta_order_is_irrelevant_witness :
  tombstones (OrSetImpl.merge_delta (single "x" (mkDot "A" 1))
    (mkOrSetDelta [] [(mkDot "A" 1, mkDot "B" 1); (mkDot "A" 2, mkDot "B" 2)] ∅ "B" 2)) =
  tombstones (OrSetImpl.merge_delta (single "x" (mkDot "A" 1))
    (mkOrSetDelta [] [(mkDot "A" 2, mkDot "B" 2); (mkDot "A" 1, mkDot "B" 1)] ∅ "B" 2)).
Proof.
  apply (delta_order_is_irrelevant (single "x" (mkDot "A" 1)) [] []
    [(mkDot "A" 1, mkDot "B" 1); (mkDot "A" 2, mkDot "B" 2)]
    [(mkDot "A" 2, mkDot "B" 2); (mkDot "A" 1, mkDot "B" 1)] ∅ "B" 2).
  - apply Permutation_refl.
  - apply Permutation_swap.
  - apply (bool_decide_unpack _). vm_compute. exact I.
Defined.

Lemma removed_x_wf : orset_wf removed_x.
Proof. apply apply_remove_wf, single_wf. Qed.

Lemma delta_since_is_minimal_witness :
  OrSetImpl.delta_since removed_x ∅ (Dvv.new "A") =
    OrSetImpl.full_state removed_x (Dvv.new "A").
Proof.
  apply (delta_since_is_minimal removed_x ∅ (Dvv.new "A")).
  - intros e d. unfold removed_x. rewrite in_adds_apply_remove, in_adds_single.
    intros [Hne [-> _]]. congruence.
  - intros d r. unfold removed_x. rewrite lookup_tombstones_remove.
    case_decide; [by intros [= <-] | done].
Defined.

Lemma gc_drops_only_stable_tombstones_witness :
  OrSetImpl.contains (OrSetImpl.perform_gc removed_x (mkDVV (mkDot "F" 0) {["A" := 2]})) "x" =
    OrSetImpl.contains removed_x "x".
Proof.
  apply (gc_drops_only_stable_tombstones removed_x (mkDVV (mkDot "F" 0) {["A" := 2]})).
  apply removed_x_wf.
Defined.

Lemma stale_delta_resurrects_witness :
  OrSetImpl.contains
    (OrSetImpl.merge_delta
       (OrSetImpl.perform_gc removed_x (mkDVV (mkDot "F" 0) {["A" := 2]})) stale_delta)
    "x" = true.
Proof.
  apply (stale_delta_resurrects removed_x stale_delta "x" (mkDot "A" 1) (mkDot "A" 2)
           (mkDVV (mkDot "F" 0) {["A" := 2]})).
  - apply removed_x_wf.
  - vm_compute. reflexivity.
  - vm_compute. reflexivity.
  - unfold stale_delta. apply full_state_adds, in_adds_single. split; reflexivity.
  - vm_compute. reflexivity.
Defined.

Lemma tombstone_values_diverge_witness :
  let s := {| adds := ∅ : gmap string (gset Dot);
              tombstones := {[mkDot "A" 1 := mkDot "A" 2]} |} in
  let t := {| adds := ∅ : gmap string (gset Dot);
              tombstones := {[mkDot "A" 1 := mkDot "B" 1]} |} in
  tombstones (merge_state s t) ≠ tombstones (merge_state t s).
Proof.
  apply (tombstone_values_diverge (E := string) (mkDot "A" 1) (mkDot "A" 2) (mkDot "B" 1)).
  congruence.
Defined.

(** The codec interface is inhabited, by [countable_message]. *)
Definition hello : RustString := "hello" ↾ eq_refl.

Definition hello_delta : OrSetDelta RustString :=
  mkOrSetDelta [(hello, mkDot "A" 1)] [(mkDot "A" 1, mkDot "A" 2)] {["A" := 2]} "A" 2.

Lemma delta_codec_round_trip_witness :
  let _ := countable_message ProtoOrSetDelta in
  let _ := countable_message ProtoOrSetOp in
  OrSetImpl.decode_delta (OrSetImpl.encode_delta hello_delta) = Ok hello_delta.
Proof.
  intros M1 M2.
  pose proof (countable_message_ok ProtoOrSetDelta proto_or_set_delta_ok) as O1.
  pose proof (countable_message_ok ProtoOrSetOp (λ _, True)) as O2.
  apply (delta_codec_round_trip hello_delta (Add hello) (mkProtoOrSetDelta [] [] ∅ "" 0)).
  split_and!.
  - repeat constructor.
  - repeat constructor.
  - apply map_Forall_singleton. split; reflexivity.
  - reflexivity.
  - reflexivity.
Defined.
