(* ===== verification/Replication.v ===== *)
(** * Replication of the OR-Set between replicas

    How the engine composes the clock and the set (the helpers
    [engine_apply_local] and [engine_merge_delta] of the tests of
    [src/src/crdt/or_set.rs], which are the state changes of
    [src/src/engine/crdt_engine.rs]), and their abstract specification, the
    history of events.

    [represents h F K s] says that the set [s] is what a replica that knows
    exactly the events under [K] must hold, when the removals under [F] may have
    lost their tombstones.  Every operation of a replica preserves it; the
    networks of replicas are in [Network]. *)
From Stdlib Require Import Strings.Byte Strings.String.
From stdpp Require Import base gmap sets list strings fin_maps relations.
From S2P Require Import Prelude Clocks Proto Crdt OrSet.
Local Open Scope N_scope.
Local Open Scope rust_scope.

(** ** The engine's state changes *)
Section replica.
Context {E : Type} `{Countable E}.

Record Replica := mkReplica { r_set : OrSet E; r_dvv : DotVersionVector }.

Definition engine_apply_local (r : Replica) (op : OrSetOp E) : Replica :=
  let dvv := Dvv.event (r_dvv r) in
  let d := mkDot (d_node_id (dot dvv)) (d_counter (dot dvv)) in
  {| r_set := OrSetImpl.apply_local (r_set r) d op; r_dvv := dvv |}.

Definition engine_merge_delta (r : Replica) (delta : OrSetDelta E) : Replica :=
  let set := OrSetImpl.merge_delta (r_set r) delta in
  let remote_dvv := dvv_of_context (causal_context delta) in
  {| r_set := set; r_dvv := Dvv.merge (r_dvv r) remote_dvv |}.

(** The answer to a pull request, and the state published for new replicas. *)
Definition engine_delta_since (r : Replica) (remote_knowledge : CausalContext) : OrSetDelta E :=
  OrSetImpl.delta_since (r_set r) remote_knowledge (r_dvv r).

Definition engine_full_state (r : Replica) : OrSetDelta E :=
  OrSetImpl.full_state (r_set r) (r_dvv r).

Definition engine_bootstrap (node_id : NodeId) (r : Replica)
    (state : OrSetDelta E) (initiator_clock : CausalContext) : Replica :=
  let frontier := frontier_dvv node_id initiator_clock in
  {| r_set := OrSetImpl.merge_delta (r_set r) state;
     r_dvv := Dvv.merge (r_dvv r) frontier |}.

Definition engine_new (node_id : NodeId) : Replica :=
  {| r_set := OrSetImpl.new; r_dvv := Dvv.new node_id |}.

Definition engine_gc (r : Replica) (frontier : DotVersionVector) : Replica :=
  {| r_set := OrSetImpl.perform_gc (r_set r) frontier; r_dvv := r_dvv r |}.

(** A departed node is dropped from the vector. *)
Definition engine_forget (r : Replica) (p : NodeId) : Replica :=
  {| r_set := r_set r; r_dvv := Dvv.remove (r_dvv r) p |}.

Definition knowledge (r : Replica) : CausalContext := Dvv.effective_map (r_dvv r).

(** ** Histories *)
Inductive Event : Type :=
| EvAdd (e : E)
| EvRemove (removed : gset Dot).

Abbreviation History := (gmap Dot Event) (only parsing).

(** The event an operation stands for at the replica that performs it. *)
Definition event_of (s : OrSet E) (op : OrSetOp E) : Event :=
  match op with
  | Add e => EvAdd e
  | Remove e => EvRemove (default ∅ (adds s !! e))
  end.

Definition removed_by (h : History) (K : CausalContext) (d : Dot) : Prop :=
  ∃ r D, h !! r = Some (EvRemove D) ∧ ctx_covers K r ∧ d ∈ D.

(** The specification of the set: [e] is a member for whoever knows the events
    under [K] when some known addition of [e] is in no known removal. *)
Definition spec_member (h : History) (K : CausalContext) (e : E) : Prop :=
  ∃ d, h !! d = Some (EvAdd e) ∧ ctx_covers K d ∧ ¬ removed_by h K d.

Record history_ok (h : History) : Prop := {
  hist_positive : ∀ d ev, h !! d = Some ev → 0 < d_counter d;
  hist_removed : ∀ r D d, h !! r = Some (EvRemove D) → d ∈ D → ∃ e, h !! d = Some (EvAdd e)
}.

(** Whoever knows a removal knows the additions it removes. *)
Definition causally_closed (h : History) (K : CausalContext) : Prop :=
  ∀ r D d, h !! r = Some (EvRemove D) → ctx_covers K r → d ∈ D → ctx_covers K d.

Record represents (h : History) (F K : CausalContext) (s : OrSet E) : Prop := {
  rep_adds : ∀ e d, in_adds s e d ↔
    h !! d = Some (EvAdd e) ∧ ctx_covers K d ∧ ¬ removed_by h K d;
  rep_tombstones : ∀ d r, tombstones s !! d = Some r →
    ∃ D, h !! r = Some (EvRemove D) ∧ ctx_covers K r ∧ d ∈ D;
  rep_removed : ∀ d, removed_by h K d → tombed s d ∨ removed_by h F d;
  rep_nonempty : ∀ e, adds s !! e ≠ Some ∅
}.

(** What a delta carries that was computed against [K], advertised by a replica
    that knew at least [B], by a replica that knew [C]. *)
Record delta_represents (h : History) (K B C : CausalContext) (delta : OrSetDelta E) : Prop := {
  drep_adds : ∀ e d, (e, d) ∈ delta_adds delta ↔
    h !! d = Some (EvAdd e) ∧ ctx_covers C d ∧ ¬ removed_by h C d ∧ ¬ ctx_covers K d;
  drep_tombstones : ∀ d r, (d, r) ∈ delta_tombstones delta →
    ∃ D, h !! r = Some (EvRemove D) ∧ ctx_covers C r ∧ d ∈ D;
  drep_removed : ∀ d, removed_by h C d →
    d ∈ (delta_tombstones delta).*1 ∨ removed_by h B d
}.
End replica.
Arguments Replica E {_ _}.
Arguments Event E : clear implicits.

Section lemmas.
Context {E : Type} `{Countable E}.
Implicit Types h : gmap Dot (Event E).
Implicit Types s : OrSet E.
Implicit Types r : Replica E.

(** ** Removals *)
Lemma removed_by_mono h K K' d : K ⊑c K' → removed_by h K d → removed_by h K' d.
Proof. intros HK (r & D & ? & ? & ?). exists r, D. eauto using ctx_covers_mono. Qed.

Lemma removed_by_union h K1 K2 K d :
  (∀ d', ctx_covers K d' ↔ ctx_covers K1 d' ∨ ctx_covers K2 d') →
  removed_by h K d ↔ removed_by h K1 d ∨ removed_by h K2 d.
Proof.
  intros HK. unfold removed_by. setoid_rewrite HK. naive_solver.
Qed.

Lemma represents_proper h F K K' s : K ≡c K' → represents h F K s → represents h F K' s.
Proof.
  intros HK [Ha Ht Hr Hn].
  assert (∀ d, ctx_covers K d ↔ ctx_covers K' d) as Hc.
  { intros d. unfold ctx_covers. by rewrite (HK (d_node_id d)). }
  assert (∀ d, removed_by h K d ↔ removed_by h K' d) as Hrem.
  { intros d. unfold removed_by. by setoid_rewrite Hc. }
  split; [setoid_rewrite <- Hc; setoid_rewrite <- Hrem| | |]; try done.
  - setoid_rewrite <- Hc. done.
  - setoid_rewrite <- Hrem. done.
Qed.

Lemma represents_stable_mono h F F' K s :
  F ⊑c F' → represents h F K s → represents h F' K s.
Proof.
  intros HF [Ha Ht Hr Hn]. split; [done|done| |done].
  intros d Hd. destruct (Hr d Hd); [by left|right]. by eapply removed_by_mono.
Qed.

Lemma represents_wf h F K s : represents h F K s → orset_wf s.
Proof.
  intros Hrep. split.
  - apply (rep_nonempty _ _ _ _ Hrep).
  - intros e d Hd [r Hr]. apply (rep_adds _ _ _ _ Hrep) in Hd as (_ & _ & Hn).
    apply Hn. apply (rep_tombstones _ _ _ _ Hrep) in Hr as (D & ? & ? & ?).
    by exists r, D.
  - intros e e' d. rewrite !(rep_adds _ _ _ _ Hrep). naive_solver.
Qed.

Lemma represents_member h F K s e :
  represents h F K s → OrSetImpl.contains s e = true ↔ spec_member h K e.
Proof.
  intros Hrep. rewrite contains_spec. unfold spec_member.
  setoid_rewrite (rep_adds _ _ _ _ Hrep). split; [naive_solver|].
  intros (d & ? & ? & Hn). exists d. split; [done|]. intros [r Hr].
  apply Hn. apply (rep_tombstones _ _ _ _ Hrep) in Hr as (D & ? & ? & ?). by exists r, D.
Qed.

Lemma represents_agree h F F' K s s' e :
  represents h F K s → represents h F' K s' →
  (∀ d, in_adds s e d ↔ in_adds s' e d) ∧ OrSetImpl.contains s e = OrSetImpl.contains s' e.
Proof.
  intros Hrep Hrep'. split.
  - intros d. by rewrite (rep_adds _ _ _ _ Hrep), (rep_adds _ _ _ _ Hrep').
  - apply eq_true_iff_eq.
    by rewrite (represents_member _ _ _ _ _ Hrep), (represents_member _ _ _ _ _ Hrep').
Qed.

Lemma represents_new h F n :
  history_ok h → represents h F ∅ (r_set (engine_new n : Replica E)).
Proof.
  intros Hh. assert (∀ d ev, h !! d = Some ev → ¬ ctx_covers ∅ d) as Hno.
  { intros d ev Hd Hc. apply (hist_positive _ Hh) in Hd.
    unfold ctx_covers in Hc. rewrite get_or0_empty in Hc. lia. }
  split; simpl.
  - intros e d. unfold in_adds; simpl. rewrite lookup_empty; simpl.
    split; [set_solver|]. intros (Hd & Hc & _). by destruct (Hno _ _ Hd).
  - intros d r. by rewrite lookup_empty.
  - intros d (r & D & Hr & Hc & _). by destruct (Hno _ _ Hr).
  - intros e. by rewrite lookup_empty.
Qed.

(** ** A delta represents what its sender knew *)
Lemma delta_since_represents h F K B C s dvv :
  represents h F C s → K ⊑c B → F ⊑c B →
  delta_represents h K B C (OrSetImpl.delta_since s K dvv).
Proof.
  intros Hrep HK HF. split.
  - intros e d. rewrite delta_since_adds, (rep_adds _ _ _ _ Hrep). tauto.
  - intros d r. rewrite delta_since_tombstones. intros [Hr _].
    by apply (rep_tombstones _ _ _ _ Hrep).
  - intros d Hd. destruct (rep_removed _ _ _ _ Hrep d Hd) as [[r Hr]|Hr].
    + destruct (decide (ctx_covers K r)) as [Hc|Hc].
      * right. apply (rep_tombstones _ _ _ _ Hrep) in Hr as (D & ? & ? & ?). exists r, D.
        split_and!; [done|by apply (ctx_covers_mono K)|done].
      * left. apply list_elem_of_fmap. exists (d, r). split; [done|].
        by apply delta_since_tombstones.
    + right. by eapply removed_by_mono.
Qed.

(** A computed delta adds nothing that was removed under the frontier. *)
Lemma delta_since_allowed h F K C s dvv e d :
  represents h F C s → F ⊑c C → (e, d) ∈ delta_adds (OrSetImpl.delta_since s K dvv) →
  ¬ removed_by h F d.
Proof.
  intros Hrep HF [Hin _]%delta_since_adds Hr. apply (rep_adds _ _ _ _ Hrep) in Hin as (_ & _ & Hn).
  apply Hn. by eapply removed_by_mono.
Qed.

Lemma delta_represents_mono h K B B' C (delta : OrSetDelta E) :
  B ⊑c B' → delta_represents h K B C delta → delta_represents h K B' C delta.
Proof.
  intros HB [Ha Ht Hr]. split; [done|done|]. intros d Hd.
  destruct (Hr d Hd); [by left|right]. by eapply removed_by_mono.
Qed.

(** ** Merging a delta *)
(** The delta must not bring back what was removed under the frontier. *)
Lemma merge_represents h F K B C Kn s (delta : OrSetDelta E) Kn' :
  represents h F Kn s → delta_represents h K B C delta → K ⊑c Kn → B ⊑c Kn →
  (∀ e d, (e, d) ∈ delta_adds delta → ¬ removed_by h F d) →
  (∀ d, ctx_covers Kn' d ↔ ctx_covers Kn d ∨ ctx_covers C d) →
  represents h F Kn' (OrSetImpl.merge_delta s delta).
Proof.
  intros Hrep Hd HK HB HF Hun.
  pose proof (λ d, removed_by_union h Kn C Kn' d) as Hrem.
  assert (∀ d, d ∈ (delta_tombstones delta).*1 → removed_by h C d) as Htomb.
  { intros d ([d' r] & -> & Hin)%list_elem_of_fmap.
    apply (drep_tombstones _ _ _ _ _ Hd) in Hin as (D & ? & ? & ?). by exists r, D. }
  assert (∀ d, tombed s d → removed_by h Kn d) as Htomb'.
  { intros d [r Hr]. apply (rep_tombstones _ _ _ _ Hrep) in Hr as (D & ? & ? & ?).
    by exists r, D. }
  split.
  - intros e d. rewrite in_adds_merge, tombed_merge. pose proof (HF e d) as HFd.
    rewrite (rep_adds _ _ _ _ Hrep), Hun, (Hrem d Hun).
    rewrite (drep_adds _ _ _ _ _ Hd) in *. split.
    + intros [[(He & Hc & Hn) Hni]|[(He & Hc & Hn & Hk) Hnt]].
      * split_and!; [done|by left|]. intros [?|Hr]; [done|].
        destruct (drep_removed _ _ _ _ _ Hd d Hr); [done|].
        by eapply Hn, removed_by_mono.
      * split_and!; [done|by right|]. intros [Hr|?]; [|done].
        destruct (rep_removed _ _ _ _ Hrep d Hr); [by apply Hnt; right|by apply HFd].
    + intros (He & Hc & Hn). destruct (decide (ctx_covers Kn d)) as [HKn|HKn].
      * left. split_and!; [done..| |]; [naive_solver|].
        intros Hin%Htomb. naive_solver.
      * right. destruct Hc as [?|Hc]; [done|]. split; [split_and!|]; [done..| | |].
        { naive_solver. }
        { intros ?. by apply HKn, (ctx_covers_mono K). }
        intros [Hin%Htomb|Ht%Htomb']; naive_solver.
  - intros d r Hr. pose proof (lookup_tombstones_merge s delta d) as Hl.
    rewrite Hr in Hl. destruct Hl as [Hin|[_ Hs]].
    + apply (drep_tombstones _ _ _ _ _ Hd) in Hin as (D & ? & ? & ?).
      exists D. rewrite Hun. tauto.
    + apply (rep_tombstones _ _ _ _ Hrep) in Hs as (D & ? & ? & ?).
      exists D. rewrite Hun. tauto.
  - intros d. rewrite (Hrem d Hun), tombed_merge. intros [Hr|Hr].
    + destruct (rep_removed _ _ _ _ Hrep d Hr); tauto.
    + destruct (drep_removed _ _ _ _ _ Hd d Hr) as [?|HrK]; [tauto|].
      destruct (rep_removed _ _ _ _ Hrep d); [by eapply removed_by_mono|tauto..].
  - apply merge_nonempty.
Qed.

(** ** Joining with a snapshot, collecting tombstones *)
Lemma snapshot_represents h F K s dvv :
  represents h F K s →
  represents h F K (OrSetImpl.merge_delta OrSetImpl.new (OrSetImpl.full_state s dvv)).
Proof.
  intros Hrep. pose proof (represents_wf _ _ _ _ Hrep) as Hwf.
  set (s' := OrSetImpl.merge_delta _ _).
  assert (∀ d, tombed s' d ↔ tombed s d) as Ht.
  { intros d. unfold s'. rewrite tombed_merge, fst_tombstones_tombed.
    pose proof (lookup_empty (M := gmap Dot) (A := Dot) d).
    unfold tombed at 2; simpl. rewrite lookup_empty. split; [|tauto].
    by intros [?|[]]. }
  assert (∀ e d, in_adds s' e d ↔ in_adds s e d) as Ha.
  { intros e d. unfold s'. rewrite in_adds_merge. fold s'. rewrite Ht, full_state_adds.
    unfold in_adds at 1; simpl. rewrite lookup_empty; simpl.
    pose proof (wf_live _ Hwf e d). set_solver. }
  split.
  - intros e d. rewrite Ha. apply (rep_adds _ _ _ _ Hrep).
  - intros d r Hr. apply (rep_tombstones _ _ _ _ Hrep).
    pose proof (lookup_tombstones_merge OrSetImpl.new (OrSetImpl.full_state s dvv) d) as Hl.
    fold s' in Hl. rewrite Hr in Hl. destruct Hl as [Hin|[_ Hs]].
    + by apply full_state_tombstones in Hin.
    + simpl in Hs. by rewrite lookup_empty in Hs.
  - intros d. rewrite Ht. apply (rep_removed _ _ _ _ Hrep).
  - apply merge_nonempty.
Qed.

Lemma frontier_dvv_effective n f : Dvv.effective_map (frontier_dvv n f) ≡c f.
Proof.
  intros k. rewrite get_or0_effective_map. unfold Dvv.effective_counter, frontier_dvv; simpl.
  case_decide; [|done]. subst. unfold get_or0. lia.
Qed.

Lemma ctx_covers_proper K K' d : K ≡c K' → ctx_covers K d ↔ ctx_covers K' d.
Proof. intros HK. unfold ctx_covers. by rewrite (HK (d_node_id d)). Qed.

Lemma gc_represents h F K s n f :
  represents h F K s →
  represents h (vv_join F f) K (OrSetImpl.perform_gc s (frontier_dvv n f)).
Proof.
  intros Hrep. split.
  - intros e d. rewrite in_adds_gc. apply (rep_adds _ _ _ _ Hrep).
  - intros d r [Hr _]%lookup_tombstones_gc. by apply (rep_tombstones _ _ _ _ Hrep).
  - intros d Hd. destruct (rep_removed _ _ _ _ Hrep d Hd) as [[r Hr]|HF].
    + destruct (decide (ctx_covers f r)) as [Hc|Hc].
      * right. apply (rep_tombstones _ _ _ _ Hrep) in Hr as (D & ? & ? & ?).
        exists r, D. split_and!; [done| |done].
        eapply ctx_covers_mono; [apply vv_join_le_r|done].
      * left. exists r. apply lookup_tombstones_gc. split; [done|].
        by rewrite ctx_covers_proper by apply frontier_dvv_effective.
    + right. eapply removed_by_mono; [apply vv_join_le_l|done].
  - apply (rep_nonempty _ _ _ _ Hrep).
Qed.

(** ** A new event *)
(** [d] is the dot of a new event: nobody knows it yet. *)
Definition fresh h (K : CausalContext) (d : Dot) : Prop := h !! d = None ∧ ¬ ctx_covers K d.

Lemma removed_by_extend h K d ev x :
  fresh h K d → removed_by (<[d := ev]> h) K x ↔ removed_by h K x.
Proof.
  intros [Hh Hk]. unfold removed_by. split; intros (r & D & Hr & Hc & Hx).
  - exists r, D. rewrite lookup_insert_ne in Hr; [done|by intros ->].
  - exists r, D. rewrite lookup_insert_ne; [done|by intros ->].
Qed.

Lemma lookup_extend h K d ev x ev' :
  fresh h K d → ctx_covers K x → <[d := ev]> h !! x = Some ev' ↔ h !! x = Some ev'.
Proof. intros [Hh Hk] Hx. rewrite lookup_insert_ne; [done|by intros ->]. Qed.

Lemma represents_extend h F K s d ev :
  fresh h K d → F ⊑c K → represents h F K s → represents (<[d := ev]> h) F K s.
Proof.
  intros Hf HF Hrep. assert (fresh h F d) as HfF.
  { destruct Hf as [? Hn]. split; [done|]. intros ?. by eapply Hn, ctx_covers_mono. }
  split.
  - intros e x. rewrite (rep_adds _ _ _ _ Hrep), removed_by_extend by done.
    pose proof (lookup_extend h K d ev x (EvAdd e) Hf). tauto.
  - intros x r (D & ? & ? & ?)%(rep_tombstones _ _ _ _ Hrep).
    exists D. by rewrite (lookup_extend h K) by done.
  - intros x. rewrite !removed_by_extend by done. apply (rep_removed _ _ _ _ Hrep).
  - apply (rep_nonempty _ _ _ _ Hrep).
Qed.

Lemma causally_closed_extend h K d ev :
  fresh h K d → causally_closed h K → causally_closed (<[d := ev]> h) K.
Proof.
  intros Hf Hcl r D x Hr Hc Hx. rewrite (lookup_extend h K) in Hr by done. by eapply Hcl.
Qed.

Lemma delta_represents_extend h K B C (delta : OrSetDelta E) d ev :
  fresh h B d → fresh h C d →
  delta_represents h K B C delta → delta_represents (<[d := ev]> h) K B C delta.
Proof.
  intros HfB HfC Hd. split.
  - intros e x. rewrite (drep_adds _ _ _ _ _ Hd), removed_by_extend by done.
    pose proof (lookup_extend h C d ev x (EvAdd e) HfC). tauto.
  - intros x r (D & ? & ? & ?)%(drep_tombstones _ _ _ _ _ Hd).
    exists D. by rewrite (lookup_extend h C) by done.
  - intros x. rewrite !removed_by_extend by done. apply (drep_removed _ _ _ _ _ Hd).
Qed.

Lemma removed_by_insert h K d ev x :
  h !! d = None → removed_by h K x → removed_by (<[d := ev]> h) K x.
Proof.
  intros Hd (r & D & Hr & ?). exists r, D.
  rewrite lookup_insert_ne; [done|]. intros ->. congruence.
Qed.

(** ** A local operation *)
Lemma add_nonempty s d e e' :
  (∀ e, adds s !! e ≠ Some ∅) → adds (OrSetImpl.apply_local s d (Add e)) !! e' ≠ Some ∅.
Proof.
  intros Hne. simpl. unfold OrSetImpl.add_dot. rewrite lookup_insert.
  case_decide; [intros [=]; set_solver|apply Hne].
Qed.

Definition dots_of s e : gset Dot := default ∅ (adds s !! e).

Lemma op_removes h K K' s d op x :
  (∀ x, ctx_covers K' x ↔ ctx_covers K x ∨ x = d) → fresh h K d →
  removed_by (<[d := event_of s op]> h) K' x ↔
    removed_by h K x ∨ (∃ e, op = Remove e ∧ in_adds s e x).
Proof.
  intros HK [Hh Hk]. unfold removed_by. split.
  - intros (r & D & Hr & Hc & Hx). apply HK in Hc as [Hc| ->].
    + left. exists r, D. rewrite lookup_insert_ne in Hr; [done|by intros ->].
    + rewrite lookup_insert_eq in Hr. right. destruct op as [e|e]; [done|].
      exists e. split; [done|]. injection Hr as <-. done.
  - intros [(r & D & Hr & Hc & Hx)|(e & -> & Hx)].
    + exists r, D. rewrite HK, lookup_insert_ne; [tauto|by intros ->].
    + exists d, (dots_of s e). rewrite HK, lookup_insert_eq. tauto.
Qed.

Lemma op_represents h F K K' s d op :
  history_ok h → represents h F K s →
  (∀ x, ctx_covers K' x ↔ ctx_covers K x ∨ x = d) → fresh h K d →
  represents (<[d := event_of s op]> h) F K' (OrSetImpl.apply_local s d op).
Proof.
  intros Hh Hrep HK Hf. pose proof (represents_wf _ _ _ _ Hrep) as Hwf.
  pose proof (λ x, op_removes h K K' s d op x HK Hf) as Hrem.
  pose proof (proj1 Hf) as Hnew.
  assert (¬ removed_by h K d) as Hnd.
  { intros (r & D & Hr & _ & Hx). destruct (hist_removed _ Hh r D d Hr Hx) as [e He].
    destruct Hf as [Hn _]. by rewrite He in Hn. }
  destruct op as [e|e].
  - assert (∀ x, removed_by (<[d := event_of s (Add e)]> h) K' x ↔ removed_by h K x) as Hr.
    { intros x. rewrite Hrem. naive_solver. }
    split.
    + intros e' x. rewrite in_adds_apply_add, (rep_adds _ _ _ _ Hrep), Hr, HK.
      destruct Hf as [Hnone Hk]. destruct (decide (x = d)) as [->|Hx].
      * rewrite lookup_insert_eq. naive_solver.
      * rewrite lookup_insert_ne by done. naive_solver.
    + intros x r (D & ? & ? & ?)%(rep_tombstones _ _ _ _ Hrep).
      exists D. rewrite HK, (lookup_extend h K) by done. tauto.
    + intros x. rewrite Hr. intros [?|?]%(rep_removed _ _ _ _ Hrep); [by left|right].
      by apply removed_by_insert.
    + intros e'. apply add_nonempty, (rep_nonempty _ _ _ _ Hrep).
  - split.
    + intros e' x. rewrite in_adds_apply_remove, (rep_adds _ _ _ _ Hrep), Hrem, HK.
      pose proof (rep_adds _ _ _ _ Hrep e' x) as He'. destruct Hf as [Hnone Hk].
      destruct (decide (x = d)) as [->|Hx]; [rewrite lookup_insert_eq; naive_solver|].
      rewrite lookup_insert_ne by done. split.
      * intros (Hne & Hh' & Hc & Hn). split_and!; [done|by left|].
        intros [?|(e0 & [= <-] & Hin)]; [done|]. apply Hne.
        apply (wf_unique _ Hwf _ _ x); tauto.
      * intros (Hh' & Hc & Hn). assert (ctx_covers K x) by tauto.
        split_and!; [|done..|tauto]. intros ->. apply Hn. right. exists e. tauto.
    + intros x r. rewrite lookup_tombstones_remove. case_decide as Hx.
      * intros [= <-]. exists (dots_of s e). rewrite HK, lookup_insert_eq. tauto.
      * intros (D & ? & ? & ?)%(rep_tombstones _ _ _ _ Hrep).
        exists D. rewrite HK, (lookup_extend h K) by done. tauto.
    + intros x. rewrite Hrem, tombed_apply_remove.
      intros [[?|?]%(rep_removed _ _ _ _ Hrep)|(e' & [= <-] & ?)]; [tauto| |tauto].
      right. by apply removed_by_insert.
    + intros e'. simpl. rewrite lookup_delete. case_decide; [done|].
      apply (rep_nonempty _ _ _ _ Hrep).
Qed.

Lemma event_covers x d :
  dot_outside x → d_counter (dot x) < u64_max →
  ctx_covers (Dvv.effective_map (Dvv.event x)) d ↔
    ctx_covers (Dvv.effective_map x) d ∨ d = dot (Dvv.event x).
Proof.
  intros Hout Hmax. destruct (event_own x) as [Hown Hc]; [done..|].
  unfold ctx_covers. rewrite !get_or0_effective_map.
  destruct (decide (d_node_id d = d_node_id (dot x))) as [Hn|Hn].
  - rewrite Hn, Hown, effective_counter_own_outside by done. split.
    + intros Hle. destruct (decide (d_counter d <= d_counter (dot x))) as [|Hgt]; [by left|right].
      destruct d as [m c]. unfold Dvv.event in *. simpl in *. f_equal; [done|lia].
    + intros [?| ->]; lia.
  - rewrite event_other by done. split; [by left|]. intros [?|Hd]; [done|].
    destruct Hn. rewrite Hd. apply event_node.
Qed.

Lemma event_dvv_le x :
  dot_outside x → d_counter (dot x) < u64_max → dvv_le x (Dvv.event x).
Proof.
  intros Hout Hmax k. destruct (decide (k = d_node_id (dot x))) as [->|Hk].
  - destruct (event_own x) as [-> _]; [done..|].
    rewrite effective_counter_own_outside by done. lia.
  - by rewrite event_other.
Qed.
Lemma new_knowledge n : knowledge (engine_new n : Replica E) ≡c ∅.
Proof.
  intros k. unfold knowledge. rewrite get_or0_effective_map, get_or0_empty.
  unfold Dvv.effective_counter; simpl. rewrite get_or0_empty. by case_decide.
Qed.

Lemma history_ok_empty : history_ok (∅ : gmap Dot (Event E)).
Proof. split; intros *; by rewrite lookup_empty. Qed.

Lemma op_history_ok h F K s d op :
  history_ok h → represents h F K s → 0 < d_counter d → h !! d = None →
  history_ok (<[d := event_of s op]> h).
Proof.
  intros Hh Hrep Hd Hnone. split.
  - intros d' ev. rewrite lookup_insert. case_decide; [by subst|apply Hh].
  - intros r D x. rewrite lookup_insert. case_decide as Hr.
    + intros [= Hop] Hx. destruct op as [e|e]; [done|]. injection Hop as <-.
      apply (rep_adds _ _ _ _ Hrep e x) in Hx as [Hx _].
      exists e. rewrite lookup_insert_ne; [done|]. intros ->. congruence.
    + intros Hlook Hx. destruct (hist_removed _ Hh r D x) as [e He]; [done..|].
      exists e. rewrite lookup_insert_ne; [done|]. intros ->. congruence.
Qed.

Lemma op_closed h F K K' s d op :
  represents h F K s → causally_closed h K → h !! d = None →
  (∀ x, ctx_covers K' x ↔ ctx_covers K x ∨ x = d) →
  causally_closed (<[d := event_of s op]> h) K'.
Proof.
  intros Hrep Hcl Hnone HK r D x. rewrite lookup_insert, !HK. case_decide as Hr.
  - intros [= Hop] _ Hx. destruct op as [e|e]; [done|]. injection Hop as <-.
    left. apply (rep_adds _ _ _ _ Hrep e x) in Hx. apply Hx.
  - intros Hlook [?|]; [left; by eapply Hcl|by subst].
Qed.

Lemma merge_covers x y C d :
  (∀ k, Dvv.effective_counter y k = get_or0 C k) →
  ctx_covers (Dvv.effective_map (Dvv.merge x y)) d ↔
    ctx_covers (Dvv.effective_map x) d ∨ ctx_covers C d.
Proof.
  intros HC. unfold ctx_covers. rewrite !get_or0_effective_map, merge_effective, HC. lia.
Qed.

Lemma causally_closed_union h K1 K2 K :
  (∀ d, ctx_covers K d ↔ ctx_covers K1 d ∨ ctx_covers K2 d) →
  causally_closed h K1 → causally_closed h K2 → causally_closed h K.
Proof.
  intros HK H1 H2 r D d Hr. rewrite !HK. intros [?|?] ?; [left; by eapply H1|right; by eapply H2].
Qed.

Lemma bootstrap_knowledge n clock (state : OrSetDelta E) :
  knowledge (engine_bootstrap n (engine_new n) state clock) ≡c clock.
Proof.
  intros k. unfold knowledge. rewrite get_or0_effective_map. simpl.
  rewrite merge_effective, <- !get_or0_effective_map, frontier_dvv_effective.
  pose proof (new_knowledge n k) as Hk. unfold knowledge in Hk. simpl in Hk.
  rewrite Hk, get_or0_empty. lia.
Qed.

(** One pull of [r] from [r']. *)
Definition pull r r' : Replica E :=
  engine_merge_delta r (engine_delta_since r' (knowledge r)).

Lemma pull_knowledge r r' k :
  get_or0 (knowledge (pull r r')) k = N.max (get_or0 (knowledge r) k) (get_or0 (knowledge r') k).
Proof.
  unfold knowledge. rewrite !get_or0_effective_map. simpl. rewrite merge_effective.
  by rewrite (dvv_of_metadata_effective (r_dvv r')).
Qed.

(** Forgetting a node takes its entry out of the vector. *)
Lemma forget_knowledge r p k :
  p ≠ d_node_id (dot (r_dvv r)) →
  get_or0 (knowledge (engine_forget r p)) k = if decide (k = p) then 0 else get_or0 (knowledge r) k.
Proof.
  intros Hp. unfold knowledge. rewrite !get_or0_effective_map. unfold Dvv.effective_counter, get_or0.
  simpl. rewrite lookup_delete. repeat case_decide; subst; done.
Qed.
End lemmas.
