(* ===== verification/Network.v ===== *)
(** * Networks of replicas

    The replicas of [Replication] as a step relation: local operations, pull
    requests, deltas computed against the advertised knowledge, delivery in any
    order and any number of times, loss, snapshots and the replicas that join from
    them, replicas that leave, and the two parts of garbage collection, dropping
    tombstones under a frontier and forgetting departed nodes.

    A replica that forgets a departed node drops the node from its vector, but has
    seen all its events: [learnt] adds the forgotten nodes to what a vector says,
    and [known net r] is what the replica really knows.  The set of every replica
    represents the history as far as the replica knows it, so replicas that know
    the same have the same members. *)
From Stdlib Require Import Strings.Byte Strings.String.
From stdpp Require Import base gmap sets list strings fin_maps relations.
From S2P Require Import Prelude Clocks Crdt OrSet Replication.
Local Open Scope N_scope.
Local Open Scope rust_scope.

(** ** Networks *)
Section network.
Context {E : Type} `{Countable E}.

Inductive Msg : Type :=
| PullRequest (from : NodeId) (K : CausalContext)
| DeltaResponse (to : NodeId) (K : CausalContext) (delta : OrSetDelta E)
| Snapshot (clock : CausalContext) (state : OrSetDelta E).

(** [pool] holds the messages on their way and the snapshots that a node may
    read; whichever replica gets a request may answer it.  The other fields are ghost state that no step of the program reads: the
    history of events, the join of the frontiers collected so far, the departed
    nodes and those that some replica has forgotten, with their last counters. *)
Record Net := mkNet {
  replicas : gmap NodeId (Replica E);
  pool : list Msg;
  history : gmap Dot (Event E);
  stable : CausalContext;
  departed : CausalContext;
  forgotten : CausalContext
}.
Implicit Types net : Net.
Implicit Types r : Replica E.

(** What is known by whoever has the vector [K]. *)
Definition learnt net (K : CausalContext) : CausalContext := vv_join K (forgotten net).

Definition known net r : CausalContext := learnt net (knowledge r).

(** A node id that is or was in use. *)
Definition used net (n : NodeId) : Prop :=
  is_Some (replicas net !! n) ∨ is_Some (departed net !! n).

Definition issued net (k : NodeId) : Counter :=
  match replicas net !! k with
  | Some r => d_counter (dot (r_dvv r))
  | None => get_or0 (departed net) k
  end.

(** Dropping the tombstones under [f] does not matter to the message: it was made
    for somebody who knows [f], or it adds nothing removed under [f]. *)
Definition allows net (f : CausalContext) (m : Msg) : Prop :=
  match m with
  | PullRequest _ K => f ⊑c learnt net K
  | DeltaResponse _ _ delta => ∀ e d, (e, d) ∈ delta_adds delta → ¬ removed_by (history net) f d
  | Snapshot clock _ => f ⊑c learnt net clock
  end.

(** Whoever made the message knew the events of [p] up to [c]. *)
Definition mentions net (p : NodeId) (c : Counter) (m : Msg) : Prop :=
  match m with
  | PullRequest _ K => c <= get_or0 (learnt net K) p
  | DeltaResponse _ _ _ => True
  | Snapshot clock _ => c <= get_or0 (learnt net clock) p
  end.

Definition with_replica net n r : Net :=
  {| replicas := <[n := r]> (replicas net); pool := pool net; history := history net;
     stable := stable net; departed := departed net; forgotten := forgotten net |}.

Definition with_pool net (pool' : list Msg) : Net :=
  {| replicas := replicas net; pool := pool'; history := history net;
     stable := stable net; departed := departed net; forgotten := forgotten net |}.

Definition op_net net n r op : Net :=
  let r' := engine_apply_local r op in
  {| replicas := <[n := r']> (replicas net); pool := pool net;
     history := <[dot (r_dvv r') := event_of (r_set r) op]> (history net);
     stable := stable net; departed := departed net; forgotten := forgotten net |}.

Definition leave_net net n r : Net :=
  {| replicas := delete n (replicas net); pool := pool net; history := history net;
     stable := stable net; departed := <[n := d_counter (dot (r_dvv r))]> (departed net);
     forgotten := forgotten net |}.

Definition gc_net net n r f : Net :=
  {| replicas := <[n := engine_gc r (frontier_dvv n f)]> (replicas net); pool := pool net;
     history := history net; stable := vv_join (stable net) f; departed := departed net;
     forgotten := forgotten net |}.

Definition forget_net net n r p c : Net :=
  {| replicas := <[n := engine_forget r p]> (replicas net); pool := pool net;
     history := history net; stable := stable net; departed := departed net;
     forgotten := <[p := c]> (forgotten net) |}.

Inductive net_step : Net → Net → Prop :=
| step_op net n r op :
    replicas net !! n = Some r → d_counter (dot (r_dvv r)) < u64_max →
    net_step net (op_net net n r op)
| step_request net n r :
    replicas net !! n = Some r →
    net_step net (with_pool net (PullRequest n (knowledge r) :: pool net))
| step_answer net n m r K :
    PullRequest n K ∈ pool net → replicas net !! m = Some r →
    net_step net (with_pool net (DeltaResponse n K (engine_delta_since r K) :: pool net))
| step_deliver net n r K delta :
    DeltaResponse n K delta ∈ pool net → replicas net !! n = Some r →
    net_step net (with_replica net n (engine_merge_delta r delta))
| step_lose net pool' :
    pool' ⊆ pool net →
    net_step net (with_pool net pool')
| step_publish net m r :
    replicas net !! m = Some r →
    net_step net (with_pool net (Snapshot (knowledge r) (engine_full_state r) :: pool net))
| step_join net n clock state :
    Snapshot clock state ∈ pool net → ¬ used net n →
    net_step net (with_replica net n (engine_bootstrap n (engine_new n) state clock))
| step_leave net n r :
    replicas net !! n = Some r →
    net_step net (leave_net net n r)
| step_gc net n r f :
    replicas net !! n = Some r →
    (∀ m r', replicas net !! m = Some r' → f ⊑c known net r') →
    (∀ msg, msg ∈ pool net → allows net f msg) →
    net_step net (gc_net net n r f)
| step_forget net n r p c :
    replicas net !! n = Some r →
    departed net !! p = Some c →
    (∀ m r', replicas net !! m = Some r' → c <= get_or0 (known net r') p) →
    (∀ msg, msg ∈ pool net → mentions net p c msg) →
    net_step net (forget_net net n r p c).

(** [step_gc] and [step_forget] are *timely*: whoever is there knows what is
    collected, and nothing on its way is older.  The coordinator establishes the
    first half (see [GcSafety]); nothing in the program checks the second, so it
    also takes the steps below. *)
Definition timely_gc net (f : CausalContext) : Prop :=
  (∀ m r, replicas net !! m = Some r → f ⊑c known net r) ∧
  ∀ msg, msg ∈ pool net → allows net f msg.

Definition timely_forget net (p : NodeId) (c : Counter) : Prop :=
  departed net !! p = Some c ∧
  (∀ m r, replicas net !! m = Some r → c <= get_or0 (known net r) p) ∧
  ∀ msg, msg ∈ pool net → mentions net p c msg.

Inductive untimely_step : Net → Net → Prop :=
| untimely_gc net n r f :
    replicas net !! n = Some r → ¬ timely_gc net f → untimely_step net (gc_net net n r f)
| untimely_forget net n r p c :
    replicas net !! n = Some r → ¬ timely_forget net p c → untimely_step net (forget_net net n r p c).

(** With collections at any time, under any frontier. *)
Definition code_step : Net → Net → Prop := either net_step untimely_step.

(** The first snapshots are those of a bucket without an epoch. *)
Definition net_init net : Prop :=
  (∀ n r, replicas net !! n = Some r → r = engine_new n) ∧
  (∀ m, m ∈ pool net → ∃ x, m = Snapshot ∅ (OrSetImpl.full_state OrSetImpl.new x)) ∧
  history net = ∅ ∧ stable net = ∅ ∧ departed net = ∅ ∧ forgotten net = ∅.

Definition reachable net : Prop := ∃ net0, net_init net0 ∧ rtc net_step net0 net.

(** ** The invariant *)
Definition context_ok net (C : CausalContext) : Prop :=
  (∀ k, get_or0 C k <= issued net k) ∧ causally_closed (history net) C.

Record replica_ok net (n : NodeId) r : Prop := {
  rok_node : d_node_id (dot (r_dvv r)) = n;
  rok_outside : dot_outside (r_dvv r);
  rok_context : context_ok net (known net r);
  rok_stable : stable net ⊑c known net r;
  rok_rep : represents (history net) (stable net) (known net r) (r_set r)
}.

(** Whoever [K] was advertised by has not lost it. *)
Definition kept_by net (n : NodeId) (K : CausalContext) : Prop :=
  used net n ∧ ∀ r, replicas net !! n = Some r → K ⊑c known net r.

(** What a delta computed against [K] stands for: its vector says [V], and its
    sender knew [C]. *)
Definition delta_ok net (K : CausalContext) (delta : OrSetDelta E) : Prop :=
  ∃ V C, (∀ k, Dvv.effective_counter (dvv_of_context (causal_context delta)) k = get_or0 V k) ∧
    V ⊑c C ∧ C ⊑c learnt net V ∧ context_ok net C ∧
    delta_represents (history net) K (learnt net K) C delta.

Definition msg_ok net (m : Msg) : Prop :=
  allows net (stable net) m ∧
  match m with
  | PullRequest from K => context_ok net (learnt net K) ∧ kept_by net from K
  | DeltaResponse to K delta =>
      (∀ k, get_or0 (learnt net K) k <= issued net k) ∧ kept_by net to K ∧ delta_ok net K delta
  | Snapshot clock state =>
      context_ok net (learnt net clock) ∧
      ∃ s x, represents (history net) (stable net) (learnt net clock) s ∧
             state = OrSetImpl.full_state s x
  end.

Record net_ok net : Prop := {
  nok_history : history_ok (history net);
  nok_issued : ∀ d ev, history net !! d = Some ev → d_counter d <= issued net (d_node_id d);
  nok_replicas : ∀ n r, replicas net !! n = Some r → replica_ok net n r;
  nok_pool : ∀ m, m ∈ pool net → msg_ok net m;
  nok_departed : ∀ p c, departed net !! p = Some c → replicas net !! p = None;
  nok_forgotten : ∀ p c, forgotten net !! p = Some c → departed net !! p = Some c
}.
End network.
Arguments Msg E : clear implicits.
Arguments Net E {_ _}.

Section lemmas.
Context {E : Type} `{Countable E}.
Implicit Types net : Net E.
Implicit Types r : Replica E.

(** ** What is learnt *)
Lemma get_or0_learnt net K k :
  get_or0 (learnt net K) k = N.max (get_or0 K k) (get_or0 (forgotten net) k).
Proof. unfold learnt. by rewrite get_or0_vv_join. Qed.

Lemma learnt_above net K : K ⊑c learnt net K.
Proof. apply vv_join_le_l. Qed.

Lemma forgotten_learnt net K : forgotten net ⊑c learnt net K.
Proof. apply vv_join_le_r. Qed.

Lemma learnt_mono net net' K K' :
  K ⊑c K' → forgotten net ⊑c forgotten net' → learnt net K ⊑c learnt net' K'.
Proof.
  intros HK Hf k. rewrite !get_or0_learnt. specialize (HK k). specialize (Hf k). lia.
Qed.

Lemma learnt_known net K r : K ⊑c known net r → learnt net K ⊑c known net r.
Proof. intros HK. apply vv_join_lub; [done|apply forgotten_learnt]. Qed.

Lemma known_above net r : knowledge r ⊑c known net r.
Proof. apply learnt_above. Qed.

Lemma issued_live net n r : replicas net !! n = Some r → issued net n = d_counter (dot (r_dvv r)).
Proof. unfold issued. by intros ->. Qed.

Lemma issued_departed net p c :
  net_ok net → departed net !! p = Some c → issued net p = c.
Proof.
  intros Hok Hp. unfold issued. rewrite (nok_departed _ Hok _ _ Hp). by apply get_or0_Some.
Qed.

Lemma forgotten_issued net k : net_ok net → get_or0 (forgotten net) k <= issued net k.
Proof.
  intros Hok. unfold get_or0. destruct (forgotten net !! k) as [c|] eqn:Hk; simpl; [|lia].
  by rewrite (issued_departed net k c Hok (nok_forgotten _ Hok _ _ Hk)).
Qed.

Lemma issued_unused net n : ¬ used net n → issued net n = 0.
Proof.
  intros Hn. unfold issued, get_or0. destruct (replicas net !! n) eqn:Hr; [by destruct Hn; left|].
  destruct (departed net !! n) eqn:Hd; [by destruct Hn; right|done].
Qed.

(** A replica's own entry is never one of a forgotten node. *)
Lemma known_own net n r :
  net_ok net → replicas net !! n = Some r → get_or0 (known net r) n = get_or0 (knowledge r) n.
Proof.
  intros Hok Hr. unfold known. rewrite get_or0_learnt. unfold get_or0 at 2.
  destruct (forgotten net !! n) as [c|] eqn:Hf; simpl; [|lia].
  apply (nok_forgotten _ Hok), (nok_departed _ Hok) in Hf. congruence.
Qed.

(** ** Growth of the network *)
Definition history_grows net net' : Prop :=
  history net' = history net ∨
  ∃ d ev, history net' = <[d := ev]> (history net) ∧
          history net !! d = None ∧ issued net (d_node_id d) < d_counter d.

(** Every step but the loss of messages only adds to what is known. *)
Record net_grows net net' : Prop := {
  ng_history : history_grows net net';
  ng_issued : ∀ k, issued net k <= issued net' k;
  ng_used : ∀ n, used net n → used net' n;
  ng_live : ∀ n r', used net n → replicas net' !! n = Some r' →
    ∃ r, replicas net !! n = Some r ∧ known net r ⊑c known net' r';
  ng_stable : stable net ⊑c stable net';
  ng_forgotten : forgotten net ⊑c forgotten net';
  ng_departed : departed net ⊆ departed net'
}.

Lemma issued_fresh net d K :
  history net !! d = None → issued net (d_node_id d) < d_counter d →
  (∀ k, get_or0 K k <= issued net k) → fresh (history net) K d.
Proof.
  intros ? Hd HK. split; [done|]. unfold ctx_covers. specialize (HK (d_node_id d)). lia.
Qed.

Lemma grows_represents net net' F K s :
  net_grows net net' → (∀ k, get_or0 K k <= issued net k) → F ⊑c K →
  represents (history net) F K s → represents (history net') F K s.
Proof.
  intros Hg HK HF Hr. destruct (ng_history _ _ Hg) as [->|(d & ev & -> & ? & ?)]; [done|].
  apply represents_extend; [by apply issued_fresh|done..].
Qed.

Lemma grows_context net net' K :
  net_grows net net' → context_ok net K → context_ok net' K.
Proof.
  intros Hg [HK Hcl]. split.
  - intros k. specialize (HK k). pose proof (ng_issued _ _ Hg k). lia.
  - destruct (ng_history _ _ Hg) as [->|(d & ev & -> & ? & ?)]; [done|].
    apply causally_closed_extend; [by apply issued_fresh|done].
Qed.

Lemma context_proper net K K' : K ≡c K' → context_ok net K → context_ok net K'.
Proof.
  intros HK [Hi Hcl]. split; [intros k; by rewrite <- HK|].
  intros r D d Hr. rewrite <- !(ctx_covers_proper K K') by done. by apply Hcl.
Qed.

Lemma grows_kept net net' n K : net_grows net net' → kept_by net n K → kept_by net' n K.
Proof.
  intros Hg [Hu HK]. split; [by apply (ng_used _ _ Hg)|]. intros r' Hr'.
  destruct (ng_live _ _ Hg n r') as (r & Hr & Hle); [done..|]. etrans; [by apply HK|done].
Qed.

Lemma grows_delta net net' K (delta : OrSetDelta E) :
  net_grows net net' → (∀ k, get_or0 (learnt net K) k <= issued net k) →
  delta_ok net K delta → delta_ok net' K delta.
Proof.
  intros Hg HK (V & C & HV & HVC & HCV & HC & Hd). exists V, C.
  pose proof (ng_forgotten _ _ Hg) as Hf. split_and!; [done|done| |by eapply grows_context|].
  - etrans; [exact HCV|by apply learnt_mono].
  - apply (delta_represents_mono _ _ (learnt net K)); [by apply learnt_mono|].
    destruct (ng_history _ _ Hg) as [->|(d & ev & -> & ? & ?)]; [done|].
    apply delta_represents_extend; [by apply issued_fresh|apply issued_fresh; [done..|apply HC]|done].
Qed.

(** The vectors in a message say what they said before. *)
Definition same_message net net' (m : Msg E) : Prop :=
  match m with
  | PullRequest _ K | Snapshot K _ => learnt net' K ≡c learnt net K
  | DeltaResponse _ _ _ => True
  end.

Lemma grows_msg net net' m :
  net_grows net net' → (∀ k, get_or0 (forgotten net') k <= issued net' k) →
  same_message net net' m → allows net' (stable net') m → msg_ok net m → msg_ok net' m.
Proof.
  intros Hg Hf Hs Ha [Ha0 Hm]. split; [done|]. destruct m as [from K|to K delta|clock st]; simpl in *.
  - destruct Hm as [HK Hkept]. split; [|by eapply grows_kept].
    eapply context_proper; [by symmetry|by eapply grows_context].
  - destruct Hm as (Hi & Hkept & Hd). split_and!; [|by eapply grows_kept|by eapply grows_delta].
    intros k. specialize (Hi k). specialize (Hf k). pose proof (ng_issued _ _ Hg k).
    rewrite get_or0_learnt in *. lia.
  - destruct Hm as (HK & s & x & Hrep & ->). split.
    + eapply context_proper; [by symmetry|by eapply grows_context].
    + exists s, x. split; [|done]. eapply represents_stable_mono; [apply (ng_stable _ _ Hg)|].
      eapply represents_proper; [by symmetry|]. eapply grows_represents; [done|apply HK|done..].
Qed.

Lemma grows_replica net net' n r :
  net_grows net net' → known net' r ≡c known net r → stable net' ⊑c known net' r →
  replica_ok net n r → replica_ok net' n r.
Proof.
  intros Hg Hk HF [Hn Hout Hc Hs Hrep]. split; [done..| |done|].
  - eapply context_proper; [by symmetry|by eapply grows_context].
  - eapply represents_stable_mono; [apply (ng_stable _ _ Hg)|].
    eapply represents_proper; [by symmetry|]. eapply grows_represents; [done|apply Hc|done..].
Qed.

(** A step that keeps the invariant: what is new is in order, what was there says
    what it said. *)
Lemma net_ok_grows net net' :
  net_ok net → net_grows net net' → history_ok (history net') →
  (∀ d ev, history net' !! d = Some ev → d_counter d <= issued net' (d_node_id d)) →
  (∀ p c, departed net' !! p = Some c → replicas net' !! p = None) →
  (∀ p c, forgotten net' !! p = Some c → departed net' !! p = Some c) →
  (∀ n r, replicas net' !! n = Some r → replica_ok net' n r ∨
     (replicas net !! n = Some r ∧ known net' r ≡c known net r ∧ stable net' ⊑c known net' r)) →
  (∀ m, m ∈ pool net' → msg_ok net' m ∨
     (m ∈ pool net ∧ same_message net net' m ∧ allows net' (stable net') m)) →
  net_ok net'.
Proof.
  intros Hok Hg Hh Hi Hd Hf Hr Hp.
  assert (∀ k, get_or0 (forgotten net') k <= issued net' k) as Hfi.
  { intros k. unfold get_or0. destruct (forgotten net' !! k) as [c|] eqn:Hk; simpl; [|lia].
    apply Hf in Hk. unfold issued. rewrite (Hd _ _ Hk). by rewrite (get_or0_Some _ _ _ Hk). }
  split; [done|done| | |done|done].
  - intros n r Hn. destruct (Hr n r Hn) as [?|(Hn' & ? & ?)]; [done|].
    eapply grows_replica; [done..|by apply (nok_replicas _ Hok)].
  - intros m Hm. destruct (Hp m Hm) as [?|(Hm' & ? & ?)]; [done|].
    eapply grows_msg; [done..|by apply (nok_pool _ Hok)].
Qed.

(** ** Every step preserves the invariant *)
Lemma net_init_ok net : net_init net → net_ok net.
Proof.
  intros (Hr & Hp & Hh & Hs & Hd & Hf).
  assert (∀ K, learnt net K ≡c K) as Hl.
  { intros K k. rewrite get_or0_learnt, Hf, get_or0_empty. lia. }
  assert (∀ K, K ≡c ∅ → context_ok net (learnt net K) ∧ stable net ⊑c learnt net K) as Hempty.
  { intros K HK. rewrite Hs. split; [|apply ctx_le_empty]. split.
    - intros k. rewrite Hl, HK, get_or0_empty. lia.
    - intros r D d. by rewrite Hh, lookup_empty. }
  assert (∀ n K, K ≡c ∅ → represents (history net) (stable net) (learnt net K)
    (r_set (engine_new n : Replica E))) as Hrep.
  { intros n K HK. eapply represents_proper; [symmetry; etrans; [apply Hl|exact HK]|].
    rewrite Hh. apply represents_new, history_ok_empty. }
  split.
  - rewrite Hh. apply history_ok_empty.
  - intros d ev. by rewrite Hh, lookup_empty.
  - intros n r Hn. rewrite (Hr n r Hn). pose proof (new_knowledge (E := E) n) as Hk.
    split; [done|apply new_dot_outside|by apply Hempty|by apply Hempty|by apply Hrep].
  - intros m Hm. destruct (Hp m Hm) as [x ->]. split; [by apply Hempty|]. split; [by apply Hempty|].
    exists OrSetImpl.new, x. split; [|done]. by apply (Hrep "" ∅).
  - intros p c. by rewrite Hd, lookup_empty.
  - intros p c. by rewrite Hf, lookup_empty.
Qed.

(** A step that only changes the messages. *)
Lemma net_ok_pool net pool' :
  net_ok net → (∀ m, m ∈ pool' → m ∈ pool net ∨ msg_ok net m) → net_ok (with_pool net pool').
Proof.
  intros Hok Hp. split; [apply Hok..| | |apply Hok|apply Hok].
  - intros n r Hr. by destruct (nok_replicas _ Hok n r Hr).
  - intros m Hm. assert (msg_ok net m) as Hmsg by (by destruct (Hp m Hm); [apply (nok_pool _ Hok)|]).
    by destruct m.
Qed.

Lemma issued_insert net net' n r' k :
  replicas net' = <[n := r']> (replicas net) → departed net' = departed net →
  issued net' k = if decide (k = n) then d_counter (dot (r_dvv r')) else issued net k.
Proof.
  intros Hr Hd. unfold issued. rewrite Hr, Hd, lookup_insert. repeat case_decide; by subst.
Qed.

Lemma allows_join net F f m : allows net F m → allows net f m → allows net (vv_join F f) m.
Proof.
  destruct m; simpl; [intros; by apply vv_join_lub| |intros; by apply vv_join_lub].
  intros HF Hf e d Hin Hr. apply (removed_by_union _ F f) in Hr as [Hr|Hr].
  - by apply (HF e d).
  - by apply (Hf e d).
  - intros d'. unfold ctx_covers. rewrite get_or0_vv_join. lia.
Qed.

Definition stable_net net n r' F' : Net E :=
  {| replicas := <[n := r']> (replicas net); pool := pool net; history := history net;
     stable := F'; departed := departed net; forgotten := forgotten net |}.

(** A step that gives a replica known events and mints nothing. *)
Lemma net_ok_merge net n r' F' :
  net_ok net → departed net !! n = None → stable net ⊑c F' →
  (∀ m r, replicas net !! m = Some r → F' ⊑c known net r) →
  (∀ m, m ∈ pool net → allows net F' m) →
  d_counter (dot (r_dvv r')) = issued net n →
  (used net n → ∃ r, replicas net !! n = Some r ∧ knowledge r ⊑c knowledge r') →
  ((∀ k, issued (stable_net net n r' F') k = issued net k) →
     replica_ok (stable_net net n r' F') n r') →
  net_ok (stable_net net n r' F') ∧ net_grows net (stable_net net n r' F').
Proof.
  intros Hok Hdep HF HFr HFp Hc Hle Hr. set (net' := stable_net net n r' F').
  assert (∀ k, issued net' k = issued net k) as Hiss.
  { intros k. rewrite (issued_insert net net' n r') by done. by case_decide; subst. }
  assert (net_grows net net') as Hg.
  { split; simpl; [by left|intros k; by rewrite Hiss| | |done..].
    - intros m [Hm|Hm]; [|by right]. left. simpl. rewrite lookup_insert_is_Some'. by right.
    - intros m rm Hu. simpl. intros [[<- <-]|[Hmn Hm]]%lookup_insert_Some; [|by exists rm].
      destruct (Hle Hu) as (r & ? & ?). exists r. split; [done|]. by apply learnt_mono. }
  split; [|done]. apply (net_ok_grows net); [done|done|apply Hok| | |apply Hok| |].
  - intros d ev. rewrite Hiss. apply (nok_issued _ Hok).
  - intros p c Hp. simpl in *. rewrite lookup_insert_ne by congruence. by apply (nok_departed _ Hok p c).
  - intros m rm. simpl. intros [[<- <-]|[Hmn Hm]]%lookup_insert_Some; [left; by apply Hr|].
    right. split_and!; [done|done|by eapply HFr].
  - intros m Hm. right. split_and!; [done|by destruct m|]. by apply (HFp m) in Hm; destruct m.
Qed.

Lemma pool_stable net m : net_ok net → m ∈ pool net → allows net (stable net) m.
Proof. intros Hok Hm. by apply (nok_pool _ Hok). Qed.

Lemma live_not_departed net n r :
  net_ok net → replicas net !! n = Some r → departed net !! n = None.
Proof.
  intros Hok Hr. destruct (departed net !! n) as [c|] eqn:Hd; [|done].
  apply (nok_departed _ Hok) in Hd. congruence.
Qed.

Lemma deliver_known net r V C (delta : OrSetDelta E) :
  (∀ k, Dvv.effective_counter (dvv_of_context (causal_context delta)) k = get_or0 V k) →
  V ⊑c C → C ⊑c learnt net V →
  known net (engine_merge_delta r delta) ≡c vv_join (known net r) C.
Proof.
  intros HV HVC HCV k. specialize (HVC k). specialize (HCV k). unfold known, knowledge.
  rewrite get_or0_vv_join, !get_or0_learnt in *. rewrite !get_or0_effective_map. simpl.
  rewrite merge_effective, HV. lia.
Qed.

Lemma ctx_covers_join K1 K2 K d :
  K ≡c vv_join K1 K2 → ctx_covers K d ↔ ctx_covers K1 d ∨ ctx_covers K2 d.
Proof. intros HK. unfold ctx_covers. rewrite (HK (d_node_id d)), get_or0_vv_join. lia. Qed.

Lemma context_join net K1 K2 K :
  K ≡c vv_join K1 K2 → context_ok net K1 → context_ok net K2 → context_ok net K.
Proof.
  intros HK [Hi1 Hc1] [Hi2 Hc2]. split.
  - intros k. rewrite (HK k), get_or0_vv_join. specialize (Hi1 k). specialize (Hi2 k). lia.
  - eapply causally_closed_union; [|exact Hc1|exact Hc2]. intros d. by apply ctx_covers_join.
Qed.

Lemma step_deliver_ok net n r K (delta : OrSetDelta E) :
  DeltaResponse n K delta ∈ pool net → replicas net !! n = Some r → net_ok net →
  let net' := with_replica net n (engine_merge_delta r delta) in net_ok net' ∧ net_grows net net'.
Proof.
  intros Hin Hr Hok. destruct (nok_replicas _ Hok n r Hr) as [Hn Hout Hc Hs Hrep].
  destruct (nok_pool _ Hok _ Hin) as (Ha & _ & [_ HK] & V & C & HV & HVC & HCV & HC & Hd).
  specialize (HK r Hr). pose proof (deliver_known net r V C delta HV HVC HCV) as Hkn.
  assert (knowledge r ⊑c knowledge (engine_merge_delta r delta)) as Hle.
  { apply dvv_le_maps. intros k. simpl. rewrite merge_effective. lia. }
  pose proof (issued_live net n r Hr) as Hiss.
  apply (net_ok_merge net n (engine_merge_delta r delta) (stable net)); try done.
  - by eapply live_not_departed.
  - intros m rm Hm. by apply (nok_replicas _ Hok m).
  - intros m Hm. by apply pool_stable.
  - simpl. rewrite merge_counter, HV, Hn, Hiss. destruct HC as [HC _]. specialize (HC n).
    specialize (HVC n). lia.
  - intros _. by exists r.
  - intros Hiss'. split.
    + simpl. by rewrite merge_node.
    + simpl. by apply merge_dot_outside.
    + assert (context_ok net (known net (engine_merge_delta r delta))) as [? ?] by (by eapply context_join).
      split; [intros k; rewrite Hiss'|]; done.
    + etrans; [exact Hs|]. by apply learnt_mono.
    + simpl. eapply merge_represents; [done|exact Hd|done|by apply learnt_known|done|].
      intros d. by apply ctx_covers_join.
Qed.

Lemma step_join_ok net n clock (state : OrSetDelta E) :
  Snapshot clock state ∈ pool net → ¬ used net n → net_ok net →
  let net' := with_replica net n (engine_bootstrap n (engine_new n) state clock) in
  net_ok net' ∧ net_grows net net'.
Proof.
  intros Hin Hun Hok. destruct (nok_pool _ Hok _ Hin) as (HF & HC & s & x & Hrep & ->). simpl in HF.
  set (r' := engine_bootstrap n (engine_new n) (OrSetImpl.full_state s x) clock).
  pose proof (issued_unused net n Hun) as Hiss.
  pose proof (bootstrap_knowledge n clock (OrSetImpl.full_state s x)) as Hkn. fold r' in Hkn.
  assert (known net r' ≡c learnt net clock) as Hlearnt.
  { intros k. unfold known. by rewrite !get_or0_learnt, Hkn. }
  apply (net_ok_merge net n r' (stable net)); try done.
  - destruct (departed net !! n) eqn:Hd; [|done]. destruct Hun. by right.
  - intros m rm Hm. by apply (nok_replicas _ Hok m).
  - intros m Hm. by apply pool_stable.
  - simpl. rewrite merge_counter, <- get_or0_effective_map, frontier_dvv_effective, Hiss.
    destruct HC as [HC _]. specialize (HC n). rewrite get_or0_learnt in HC. simpl in *. lia.
  - intros Hiss'. split.
    + simpl. by rewrite merge_node.
    + simpl. by apply merge_dot_outside, new_dot_outside.
    + assert (context_ok net (known net r')) as [? ?] by (by eapply context_proper).
      split; [intros k; rewrite Hiss'|]; done.
    + change (stable net ⊑c known net r'). by rewrite Hlearnt.
    + eapply represents_proper; [by symmetry|]. by apply snapshot_represents.
Qed.

Lemma step_gc_ok net n r f :
  replicas net !! n = Some r →
  (∀ m r', replicas net !! m = Some r' → f ⊑c known net r') →
  (∀ msg, msg ∈ pool net → allows net f msg) → net_ok net →
  net_ok (gc_net net n r f) ∧ net_grows net (gc_net net n r f).
Proof.
  intros Hr Hf Hfp Hok. destruct (nok_replicas _ Hok n r Hr) as [Hn Hout Hc Hs Hrep].
  assert (vv_join (stable net) f ⊑c known net r) as Hs' by (apply vv_join_lub; [done|by eapply Hf]).
  apply (net_ok_merge net n (engine_gc r (frontier_dvv n f)) (vv_join (stable net) f)); try done.
  - by eapply live_not_departed.
  - apply vv_join_le_l.
  - intros m rm Hm. apply vv_join_lub; [by apply (nok_replicas _ Hok m)|by eapply Hf].
  - intros m Hm. apply allows_join; [by apply pool_stable|by apply Hfp].
  - simpl. by rewrite (issued_live net n r Hr).
  - intros _. by exists r.
  - intros Hiss'. destruct Hc as [Hi Hcl]. split; [done|done| |done|].
    + split; [|done]. intros k. rewrite Hiss'. apply Hi.
    + by apply gc_represents.
Qed.

(** *** A local operation *)
(** The dot of an operation is new to everyone. *)
Lemma op_dot net n r op :
  replicas net !! n = Some r → d_counter (dot (r_dvv r)) < u64_max → net_ok net →
  let d := dot (r_dvv (engine_apply_local r op)) in
  d = mkDot n (issued net n + 1) ∧ history net !! d = None ∧
  ∀ K, (∀ k, get_or0 K k <= issued net k) → fresh (history net) K d.
Proof.
  intros Hr Hmax Hok d. destruct (nok_replicas _ Hok n r Hr) as [Hn Hout Hi _ _].
  destruct (event_own (r_dvv r)) as [_ Hcnt]; [done..|].
  assert (d = mkDot n (issued net n + 1)) as Hd.
  { rewrite (issued_live _ _ _ Hr), <- Hcnt, <- Hn. done. }
  assert (history net !! d = None) as Hnone.
  { destruct (history net !! d) eqn:Hh; [|done].
    apply (nok_issued _ Hok) in Hh. rewrite Hd in Hh. simpl in Hh. lia. }
  split_and!; [done..|]. intros K HK. apply issued_fresh; [done| |done]. rewrite Hd. simpl. lia.
Qed.

Lemma op_issued net n r op k :
  replicas net !! n = Some r → d_counter (dot (r_dvv r)) < u64_max → net_ok net →
  issued (op_net net n r op) k = if decide (k = n) then issued net n + 1 else issued net k.
Proof.
  intros Hr Hmax Hok. rewrite (issued_insert net _ n (engine_apply_local r op)) by done.
  destruct (op_dot net n r op) as [-> _]; done.
Qed.

Lemma op_known_le net r op :
  dot_outside (r_dvv r) → d_counter (dot (r_dvv r)) < u64_max →
  known net r ⊑c known net (engine_apply_local r op).
Proof. intros. apply learnt_mono; [|done]. by apply dvv_le_maps, event_dvv_le. Qed.

Lemma op_grows net n r op :
  replicas net !! n = Some r → d_counter (dot (r_dvv r)) < u64_max → net_ok net →
  net_grows net (op_net net n r op).
Proof.
  intros Hr Hmax Hok. destruct (op_dot net n r op) as (Hd & Hnone & _); [done..|].
  destruct (nok_replicas _ Hok n r Hr) as [_ Hout _ _ _]. split.
  - right. exists (dot (r_dvv (engine_apply_local r op))), (event_of (r_set r) op).
    split_and!; [done..|]. rewrite Hd. simpl. lia.
  - intros k. rewrite op_issued by done. case_decide; [subst k|]; lia.
  - intros m [Hm|Hm]; [left|by right]. simpl. rewrite lookup_insert_is_Some'. by right.
  - intros m rm Hu. simpl. intros [[<- <-]|[Hmn Hm]]%lookup_insert_Some; [|by exists rm].
    exists r. split; [done|]. by apply (op_known_le net).
  - done.
  - done.
  - done.
Qed.

Lemma op_covers net n r op x :
  replicas net !! n = Some r → d_counter (dot (r_dvv r)) < u64_max → net_ok net →
  ctx_covers (known net (engine_apply_local r op)) x ↔
    ctx_covers (known net r) x ∨ x = dot (r_dvv (engine_apply_local r op)).
Proof.
  intros Hr Hmax Hok. destruct (nok_replicas _ Hok n r Hr) as [_ Hout _ _ _].
  pose proof (event_covers (r_dvv r) x Hout Hmax) as Hev. unfold ctx_covers in *. unfold known, knowledge.
  rewrite !get_or0_learnt. simpl in *. rewrite N.max_le_iff, Hev, N.max_le_iff. tauto.
Qed.

Lemma op_replica_ok net n r op :
  replicas net !! n = Some r → d_counter (dot (r_dvv r)) < u64_max → net_ok net →
  replica_ok (op_net net n r op) n (engine_apply_local r op).
Proof.
  intros Hr Hmax Hok. destruct (op_dot net n r op) as (Hd & Hnone & Hf); [done..|].
  destruct (nok_replicas _ Hok n r Hr) as [Hn Hout [Hi Hcl] Hs Hrep].
  destruct (event_own (r_dvv r)) as [Hown Hcnt]; [done..|].
  pose proof (λ x, op_covers net n r op x Hr Hmax Hok) as Hcov.
  split; [done|by apply event_dot_outside| | |].
  - split; [|by eapply op_closed]. intros k. rewrite op_issued by done.
    unfold known. rewrite get_or0_learnt. simpl. specialize (Hi k). unfold known in Hi.
    rewrite get_or0_learnt in Hi. unfold knowledge in *. rewrite get_or0_effective_map in *. simpl.
    case_decide as Hk.
    + subst k. pose proof (known_own net n r Hok Hr) as Ho. unfold known, knowledge in Ho.
      rewrite get_or0_learnt, get_or0_effective_map in Ho.
      rewrite Hn in Hown. rewrite (issued_live net n r) in * by done. rewrite Hown. lia.
    + rewrite event_other by congruence. lia.
  - etrans; [exact Hs|]. by apply (op_known_le net).
  - simpl. eapply op_represents; [apply Hok|exact Hrep|exact Hcov|by apply Hf].
Qed.

Lemma step_op_ok net n r op :
  replicas net !! n = Some r → d_counter (dot (r_dvv r)) < u64_max → net_ok net →
  net_ok (op_net net n r op) ∧ net_grows net (op_net net n r op).
Proof.
  intros Hr Hmax Hok. pose proof (op_grows net n r op Hr Hmax Hok) as Hg. split; [|done].
  destruct (op_dot net n r op) as (Hd & Hnone & Hf); [done..|].
  destruct (nok_replicas _ Hok n r Hr) as [Hn Hout [Hi Hcl] Hs Hrep].
  assert (∀ k, get_or0 (stable net) k <= issued net k) as Hsi.
  { intros k. etrans; [apply Hs|apply Hi]. }
  apply (net_ok_grows net); [done|done|..].
  - simpl. eapply op_history_ok; [apply Hok|done| |done]. simpl in Hd. rewrite Hd. simpl. lia.
  - intros d ev Hev. rewrite op_issued by done.
    apply (lookup_insert_Some (history net)) in Hev as [[<- _]|[_ Hev]].
    + rewrite Hd. simpl. by rewrite decide_True.
    + apply (nok_issued _ Hok) in Hev. case_decide as Hk; [rewrite Hk in *|done]. lia.
  - intros p c Hp. simpl in *. pose proof (live_not_departed _ _ _ Hok Hr).
    rewrite lookup_insert_ne by congruence. by apply (nok_departed _ Hok p c).
  - apply Hok.
  - intros m rm. simpl. intros [[<- <-]|[Hmn Hm]]%lookup_insert_Some; [left; by apply op_replica_ok|].
    right. split_and!; [done|done|]. exact (rok_stable _ _ _ (nok_replicas _ Hok m rm Hm)).
  - intros m Hm. right. split_and!; [done|by destruct m|].
    apply (pool_stable net) in Hm; [|done].
    destruct m as [| |]; simpl in *; [done| |done]. intros e x Hin Hrem.
    apply (Hm e x Hin). by eapply removed_by_extend; [apply Hf|].
Qed.

(** *** Leaving and forgetting *)
Lemma step_leave_ok net n r :
  replicas net !! n = Some r → net_ok net →
  net_ok (leave_net net n r) ∧ net_grows net (leave_net net n r).
Proof.
  intros Hr Hok. set (net' := leave_net net n r).
  pose proof (live_not_departed net n r Hok Hr) as Hdep.
  assert (∀ k, issued net' k = issued net k) as Hiss.
  { intros k. unfold issued, get_or0. simpl. rewrite lookup_delete, lookup_insert.
    repeat case_decide; subst; [by rewrite Hr|done]. }
  assert (net_grows net net') as Hg.
  { split; simpl; [by left|intros k; by rewrite Hiss| | |done|done|].
    - intros m Hm. unfold used. simpl. rewrite lookup_delete, lookup_insert.
      case_decide; [right; by eexists|exact Hm].
    - intros m rm _. simpl. intros [_ Hm]%lookup_delete_Some. by exists rm.
    - by apply insert_subseteq. }
  split; [|done]. apply (net_ok_grows net); [done|done|apply Hok|..].
  - intros d ev. rewrite Hiss. apply (nok_issued _ Hok).
  - intros p c. simpl. rewrite lookup_delete, lookup_insert. case_decide; [done|].
    apply (nok_departed _ Hok).
  - intros p c Hp. apply (nok_forgotten _ Hok) in Hp. simpl.
    rewrite lookup_insert_ne by congruence. done.
  - intros m rm. simpl. intros [_ Hm]%lookup_delete_Some. right. split_and!; [done|done|].
    exact (rok_stable _ _ _ (nok_replicas _ Hok m rm Hm)).
  - intros m Hm. right. split_and!; [done|by destruct m|].
    apply (pool_stable net) in Hm; [|done]. by destruct m.
Qed.

(** Whoever knows all the events of a departed node has nothing to learn from its
    being forgotten. *)
Lemma learnt_forget net n r p c K :
  net_ok net → departed net !! p = Some c →
  (∀ k, get_or0 (learnt net K) k <= issued net k) → c <= get_or0 (learnt net K) p →
  learnt (forget_net net n r p c) K ≡c learnt net K.
Proof.
  intros Hok Hp HK Hc k. rewrite !get_or0_learnt. simpl. rewrite get_or0_insert.
  specialize (HK k). case_decide as Hk; [|done]. subst k.
  pose proof (issued_departed net p c Hok Hp). rewrite get_or0_learnt in *. lia.
Qed.

Lemma forget_known net n r p c :
  net_ok net → replicas net !! n = Some r → departed net !! p = Some c →
  c <= get_or0 (known net r) p →
  known (forget_net net n r p c) (engine_forget r p) ≡c known net r.
Proof.
  intros Hok Hr Hp Hc k. destruct (nok_replicas _ Hok n r Hr) as [Hn _ [Hi _] _ _].
  assert (p ≠ d_node_id (dot (r_dvv r))) as Hne.
  { intros ->. apply (nok_departed _ Hok) in Hp. congruence. }
  specialize (Hi p). pose proof (issued_departed net p c Hok Hp) as Hiss.
  unfold known in *. rewrite !get_or0_learnt in *. simpl.
  rewrite forget_knowledge, get_or0_insert by done. repeat case_decide; subst; try lia; congruence.
Qed.

Lemma step_forget_ok net n r p c :
  replicas net !! n = Some r → departed net !! p = Some c →
  (∀ m r', replicas net !! m = Some r' → c <= get_or0 (known net r') p) →
  (∀ msg, msg ∈ pool net → mentions net p c msg) → net_ok net →
  net_ok (forget_net net n r p c) ∧ net_grows net (forget_net net n r p c).
Proof.
  intros Hr Hp Hall Hpool Hok. set (net' := forget_net net n r p c).
  pose proof (forget_known net n r p c Hok Hr Hp (Hall n r Hr)) as Hkn.
  assert (∀ m r', replicas net !! m = Some r' → known net' r' ≡c known net r') as Hsame.
  { intros m r' Hm. apply learnt_forget; [done..| |by eapply Hall]. by apply (nok_replicas _ Hok m). }
  assert (forgotten net ⊑c forgotten net') as Hf.
  { intros k. simpl. rewrite get_or0_insert. case_decide as Hk; [|done]. subst k.
    pose proof (forgotten_issued net p Hok). by rewrite (issued_departed net p c Hok Hp) in *. }
  assert (∀ k, issued net' k = issued net k) as Hiss.
  { intros k. rewrite (issued_insert net net' n (engine_forget r p)) by done. case_decide; [|done].
    subst. by rewrite (issued_live net n r Hr). }
  assert (net_grows net net') as Hg.
  { split; [by left|intros k; by rewrite Hiss| | |done..].
    - intros m [Hm|Hm]; [left|by right]. simpl. rewrite lookup_insert_is_Some'. by right.
    - intros m rm _. simpl. intros [[<- <-]|[Hmn Hm]]%lookup_insert_Some.
      + exists r. split; [done|]. unfold net'. by rewrite Hkn.
      + exists rm. split; [done|]. by rewrite (Hsame m rm Hm). }
  split; [|done]. apply (net_ok_grows net); [done|done|apply Hok|..].
  - intros d ev. rewrite Hiss. apply (nok_issued _ Hok).
  - intros q c' Hq. simpl in *. pose proof (live_not_departed _ _ _ Hok Hr).
    rewrite lookup_insert_ne by congruence. by apply (nok_departed _ Hok q c').
  - intros q c'. simpl. intros [[<- <-]|[_ Hq]]%lookup_insert_Some; [done|]. by apply (nok_forgotten _ Hok).
  - intros m rm. simpl. intros [[<- <-]|[Hmn Hm]]%lookup_insert_Some.
    + left. destruct (nok_replicas _ Hok n r Hr) as [Hn Hout Hc Hs Hrep]. split; [done|..].
      * unfold dot_outside, get_or0 in *. simpl. rewrite lookup_delete. case_decide; simpl; lia.
      * eapply context_proper; [by symmetry|]. destruct Hc as [Hi Hcl]. split; [|done].
        intros k. rewrite Hiss. apply Hi.
      * unfold net'. by rewrite Hkn.
      * eapply represents_proper; [by symmetry|done].
    + right. split_and!; [done|by eapply Hsame|]. rewrite (Hsame m rm Hm).
      exact (rok_stable _ _ _ (nok_replicas _ Hok m rm Hm)).
  - intros m Hm. right. pose proof (pool_stable net m Hok Hm) as Hst. specialize (Hpool m Hm).
    destruct (nok_pool _ Hok m Hm) as [_ Hmsg].
    destruct m as [from K|to K delta|clock st]; simpl in *; split_and!; try done.
    + apply learnt_forget; [done..| |done]. apply Hmsg.
    + unfold net'. rewrite (learnt_forget net n r p c K); [done..| |done]. apply Hmsg.
    + apply learnt_forget; [done..| |done]. apply Hmsg.
    + unfold net'. rewrite (learnt_forget net n r p c clock); [done..| |done]. apply Hmsg.
Qed.

(** *** All steps *)
Lemma pool_grows net pool' : net_grows net (with_pool net pool').
Proof. split; [by left|done|done| |done..]. intros n r _ Hr. by exists r. Qed.

Lemma kept_by_live net n r : replicas net !! n = Some r → kept_by net n (knowledge r).
Proof.
  intros Hr. split; [left; by eexists|]. intros r' Hr'. simplify_eq. apply known_above.
Qed.

Lemma request_ok net n r :
  net_ok net → replicas net !! n = Some r → msg_ok net (PullRequest n (knowledge r)).
Proof.
  intros Hok Hr. destruct (nok_replicas _ Hok n r Hr) as [_ _ Hc Hs _].
  split; [exact Hs|]. split; [exact Hc|by apply kept_by_live].
Qed.

Lemma answer_ok net n m r K :
  net_ok net → PullRequest n K ∈ pool net → replicas net !! m = Some r →
  msg_ok net (DeltaResponse n K (engine_delta_since r K)).
Proof.
  intros Hok Hin Hr. destruct (nok_pool _ Hok _ Hin) as (Ha & HK & Hkept).
  destruct (nok_replicas _ Hok m r Hr) as [_ _ Hc Hs Hrep]. split.
  - intros e d. by apply (delta_since_allowed _ _ K (known net r)).
  - split_and!; [apply HK|done|]. exists (knowledge r), (known net r).
    split_and!; [|apply known_above|done|done|].
    + intros k. unfold knowledge. rewrite get_or0_effective_map. apply (dvv_of_metadata_effective (r_dvv r)).
    + apply (delta_since_represents _ (stable net)); [done|apply learnt_above|exact Ha].
Qed.

Lemma snapshot_ok net m r :
  net_ok net → replicas net !! m = Some r → msg_ok net (Snapshot (knowledge r) (engine_full_state r)).
Proof.
  intros Hok Hr. destruct (nok_replicas _ Hok m r Hr) as [_ _ Hc Hs Hrep].
  split; [exact Hs|]. split; [exact Hc|]. by exists (r_set r), (r_dvv r).
Qed.

Lemma net_step_ok net net' : net_step net net' → net_ok net → net_ok net' ∧ net_grows net net'.
Proof.
  assert (∀ net m, net_ok net → msg_ok net m →
    net_ok (with_pool net (m :: pool net)) ∧ net_grows net (with_pool net (m :: pool net))) as Hsend.
  { intros net0 m Hok Hm. split; [|apply pool_grows]. apply net_ok_pool; [done|].
    intros m' [->|?]%elem_of_cons; [by right|by left]. }
  intros Hstep Hok. destruct Hstep.
  - by apply step_op_ok.
  - by apply Hsend, request_ok.
  - by eapply Hsend, answer_ok.
  - by eapply step_deliver_ok.
  - split; [|apply pool_grows]. apply net_ok_pool; [done|]. intros m Hm. left. auto.
  - by apply Hsend, snapshot_ok with m.
  - by apply step_join_ok.
  - by apply step_leave_ok.
  - by apply step_gc_ok.
  - by apply step_forget_ok.
Qed.

Lemma grows_refl net : net_grows net net.
Proof. split; [by left|done|done| |done..]. intros n r _ Hr. by exists r. Qed.

(** What stays true along a run. *)
Record net_later net net' : Prop := {
  nl_used : ∀ n, used net n → used net' n;
  nl_live : ∀ n r', used net n → replicas net' !! n = Some r' →
    ∃ r, replicas net !! n = Some r ∧ known net r ⊑c known net' r';
  nl_history : ∀ d ev, history net !! d = Some ev → history net' !! d = Some ev;
  nl_back : ∀ d ev, d_counter d <= issued net (d_node_id d) →
    history net' !! d = Some ev → history net !! d = Some ev;
  nl_issued : ∀ k, issued net k <= issued net' k;
  nl_stable : stable net ⊑c stable net';
  nl_forgotten : forgotten net ⊑c forgotten net';
  nl_departed : departed net ⊆ departed net'
}.

Lemma grows_later net net' : net_grows net net' → net_later net net'.
Proof.
  intros [Hh Hi Hu Hl ? ? ?]. split; try done.
  - intros d ev Hd. destruct Hh as [->|(d' & ev' & -> & Hd' & _)]; [done|].
    rewrite lookup_insert_ne; [done|]. intros ->. congruence.
  - intros d ev Hle. destruct Hh as [->|(d' & ev' & -> & Hd' & ?)]; [done|].
    rewrite lookup_insert_ne; [done|]. intros ->. lia.
Qed.

Lemma net_steps_ok net net' :
  rtc net_step net net' → net_ok net → net_ok net' ∧ net_later net net'.
Proof.
  intros Hsteps. induction Hsteps as [net|net1 net2 net3 Hstep _ IH]; intros Hok.
  - split; [done|]. apply grows_later, grows_refl.
  - destruct (net_step_ok _ _ Hstep Hok) as [Hok2 Hg%grows_later].
    destruct (IH Hok2) as [Hok3 Hg3]. split; [done|]. destruct Hg, Hg3. split; auto.
    + intros n r3 Hu Hr3. destruct (nl_live1 n r3) as (r2 & Hr2 & ?); [auto..|].
      destruct (nl_live0 n r2) as (r1 & ? & ?); [auto..|]. exists r1. split; [done|by etrans].
    + intros d ev Hle Hd. apply nl_back0; [done|]. apply nl_back1; [|done].
      specialize (nl_issued0 (d_node_id d)). lia.
    + intros k. specialize (nl_issued0 k). specialize (nl_issued1 k). lia.
    + by etrans.
    + by etrans.
    + by etrans.
Qed.

Lemma reachable_ok net : reachable net → net_ok net.
Proof.
  intros (net0 & Hinit & Hsteps). eapply net_steps_ok; [done|]. by apply net_init_ok.
Qed.

Lemma reachable_steps net net' : reachable net → rtc net_step net net' → reachable net'.
Proof. intros (net0 & Hinit & ?) ?. exists net0. split; [done|]. by etrans. Qed.

Lemma reachable_represents net n r :
  reachable net → replicas net !! n = Some r →
  represents (history net) (stable net) (known net r) (r_set r).
Proof. intros Hreach Hr. by apply (nok_replicas _ (reachable_ok _ Hreach) n). Qed.

(** ** Pulls *)
Lemma pull_known net r r' :
  known net (pull r r') ≡c vv_join (known net r) (known net r').
Proof.
  intros k. unfold known. rewrite get_or0_vv_join, !get_or0_learnt, pull_knowledge. lia.
Qed.

Lemma pull_represents net r r' :
  let h := history net in
  let F := stable net in
  F ⊑c known net r → F ⊑c known net r' →
  represents h F (known net r) (r_set r) → represents h F (known net r') (r_set r') →
  represents h F (known net (pull r r')) (r_set (pull r r')).
Proof.
  intros h F HF HF' Hr Hr'.
  apply (merge_represents _ _ (knowledge r) (known net r) (known net r') (known net r)); try done.
  - apply (delta_since_represents _ F); [done|apply known_above|done].
  - apply known_above.
  - intros e d. by apply (delta_since_allowed _ _ _ (known net r')).
  - intros d. apply ctx_covers_join, pull_known.
Qed.

(** Both directions of a pull exchange. *)
Lemma exchange_represents net n m r r' :
  net_ok net → replicas net !! n = Some r → replicas net !! m = Some r' →
  let r1 := pull r r' in
  let r2 := pull r' r1 in
  let K := vv_join (known net r) (known net r') in
  (known net r1 ≡c K ∧ known net r2 ≡c K) ∧
  represents (history net) (stable net) K (r_set r1) ∧
  represents (history net) (stable net) K (r_set r2).
Proof.
  intros Hok Hr Hr' r1 r2 K.
  destruct (nok_replicas _ Hok n r Hr) as [_ _ _ Hs Hrep].
  destruct (nok_replicas _ Hok m r' Hr') as [_ _ _ Hs' Hrep'].
  assert (known net r1 ≡c K) as HK1 by apply pull_known.
  assert (known net r2 ≡c K) as HK2.
  { intros k. unfold r2. rewrite pull_known, get_or0_vv_join, (HK1 k). unfold K.
    rewrite get_or0_vv_join. lia. }
  assert (represents (history net) (stable net) (known net r1) (r_set r1)) as H1
    by (by apply pull_represents).
  split; [done|]. split; [by apply (represents_proper _ _ _ _ _ HK1)|].
  apply (represents_proper _ _ _ _ _ HK2). apply pull_represents; try done.
  rewrite HK1. etrans; [exact Hs|apply vv_join_le_l].
Qed.
(** What a replica has dropped does not come back. *)
Lemma dropped_for_good net net' n r r' d e :
  net_ok net → rtc net_step net net' →
  replicas net !! n = Some r → replicas net' !! n = Some r' →
  ctx_covers (knowledge r) d → (∀ e, ¬ in_adds (r_set r) e d) → ¬ in_adds (r_set r') e d.
Proof.
  intros Hok Hsteps Hr Hr' Hc Hgone Hin.
  destruct (net_steps_ok _ _ Hsteps Hok) as [Hok' Hl].
  destruct (nl_live _ _ Hl n r') as (r'' & ? & Hle); [left; by eexists|done|]. simplify_eq.
  destruct (nok_replicas _ Hok' n r' Hr') as [_ _ _ _ Hrep'].
  destruct (nok_replicas _ Hok n r Hr) as [_ _ [Hi _] _ Hrep].
  apply (ctx_covers_mono _ _ _ (known_above net r)) in Hc.
  apply (rep_adds _ _ _ _ Hrep') in Hin as (Hh & _ & Hnr).
  apply (nl_back _ _ Hl) in Hh; [|etrans; [exact Hc|apply Hi]].
  apply (Hgone e). apply (rep_adds _ _ _ _ Hrep). split_and!; [done..|].
  intros (x & D & Hx & Hcx & HdD). apply Hnr. exists x, D.
  split_and!; [by apply (nl_history _ _ Hl)|by eapply ctx_covers_mono|done].
Qed.

End lemmas.

(** ** Properties *)
Section theorems.
Context {E : Type} `{Countable E}.
Implicit Types net : Net E.
Implicit Types r : Replica E.

(** C1. Strong eventual consistency: in every reachable network (local
    operations, deltas lost, repeated and reordered, replicas that join from
    snapshots and leave, tombstones collected and departed nodes forgotten, in any
    interleaving) two replicas that know the same events hold the same pairs and
    answer [contains] alike; replicas whose vectors agree know the same events. *)
Theorem strong_eventual_consistency net n m r r' e :
  reachable net → replicas net !! n = Some r → replicas net !! m = Some r' →
  (knowledge r ≡c knowledge r' → known net r ≡c known net r') ∧
  (known net r ≡c known net r' →
   (∀ d, in_adds (r_set r) e d ↔ in_adds (r_set r') e d) ∧
   OrSetImpl.contains (r_set r) e = OrSetImpl.contains (r_set r') e).
Proof.
  intros Hreach Hr Hr'. split.
  - intros HK k. unfold known. by rewrite !get_or0_learnt, (HK k).
  - intros HK. pose proof (reachable_represents _ _ _ Hreach Hr) as Hrep.
    pose proof (reachable_represents _ _ _ Hreach Hr') as Hrep'.
    apply (represents_proper _ _ _ _ _ HK) in Hrep. by eapply represents_agree.
Qed.

(** C2. The set refines its specification: in every reachable network a
    replica contains [e] exactly when it knows an addition of [e] that no
    removal it knows has seen.  What it knows is its vector and all the events of
    the nodes it may have forgotten. *)
Theorem membership_is_history net n r e :
  reachable net → replicas net !! n = Some r →
  (OrSetImpl.contains (r_set r) e = true ↔ spec_member (history net) (known net r) e) ∧
  knowledge r ⊑c known net r ∧
  ∀ k, get_or0 (known net r) k ≠ get_or0 (knowledge r) k →
    ∃ c, departed net !! k = Some c ∧ get_or0 (known net r) k = c.
Proof.
  intros Hreach Hr. split_and!; [by eapply represents_member, reachable_represents|apply known_above|].
  pose proof (reachable_ok _ Hreach) as Hok. intros k. unfold known. rewrite get_or0_learnt. intros Hne.
  destruct (forgotten net !! k) as [c|] eqn:Hf.
  - pose proof (nok_forgotten _ Hok _ _ Hf) as Hd. exists c. split; [done|].
    rewrite (get_or0_Some _ _ _ Hf) in *. lia.
  - unfold get_or0 at 2 in Hne. rewrite Hf in Hne. simpl in Hne. lia.
Qed.

(** C15. Every replica of a reachable network keeps its identity, a dot
    outside its context and a well-formed set, no replica knows an event its
    author has not issued, and a dot stands for one element everywhere. *)
Theorem reachable_replicas_well_formed net n m r r' :
  reachable net → replicas net !! n = Some r → replicas net !! m = Some r' →
  d_node_id (dot (r_dvv r)) = n ∧ dot_outside (r_dvv r) ∧ orset_wf (r_set r) ∧
  get_or0 (knowledge r') n <= d_counter (dot (r_dvv r)) ∧
  (∀ e e' d, in_adds (r_set r) e d → in_adds (r_set r') e' d → e = e').
Proof.
  intros Hreach Hr Hr'. pose proof (reachable_ok _ Hreach) as Hok.
  destruct (nok_replicas _ Hok n r Hr) as [Hn Hout _ _ Hrep].
  destruct (nok_replicas _ Hok m r' Hr') as [_ _ [Hi' _] _ Hrep'].
  split_and!; [done|done|by eapply represents_wf| |].
  - specialize (Hi' n). rewrite (issued_live net n r Hr) in Hi'. etrans; [apply known_above|done].
  - intros e e' d. rewrite (rep_adds _ _ _ _ Hrep), (rep_adds _ _ _ _ Hrep'). naive_solver.
Qed.

(** C4. Anti-entropy makes progress: after one pull in each direction two
    replicas of a reachable network know exactly what either knew, and both
    contain exactly the members that joint knowledge specifies. *)
Theorem pull_exchange_converges net n m r r' e :
  reachable net → replicas net !! n = Some r → replicas net !! m = Some r' →
  let r1 := pull r r' in
  let r2 := pull r' r1 in
  let K := vv_join (known net r) (known net r') in
  known net r1 ≡c K ∧ known net r2 ≡c K ∧
  (OrSetImpl.contains (r_set r1) e = true ↔ spec_member (history net) K e) ∧
  OrSetImpl.contains (r_set r2) e = OrSetImpl.contains (r_set r1) e.
Proof.
  intros Hreach Hr Hr' r1 r2 K.
  destruct (exchange_represents net n m r r') as ([? ?] & H1 & H2);
    [by apply reachable_ok|done..|].
  split_and!; [done..|by eapply represents_member|].
  by eapply represents_agree.
Qed.

(** C29. The minimal delta is enough: merged by a replica with the knowledge that
    it was computed for, it has the effect of the sender's whole state, on the pairs
    and on the members, and brings the same vector; it carries exactly the live
    pairs and the tombstones whose dots that knowledge does not cover. *)
Theorem minimal_delta_is_enough net n m r r' e d :
  reachable net → replicas net !! n = Some r → replicas net !! m = Some r' →
  let delta := engine_delta_since r' (knowledge r) in
  let full := engine_full_state r' in
  (in_adds (r_set (engine_merge_delta r delta)) e d ↔ in_adds (r_set (engine_merge_delta r full)) e d) ∧
  OrSetImpl.contains (r_set (engine_merge_delta r delta)) e =
    OrSetImpl.contains (r_set (engine_merge_delta r full)) e ∧
  r_dvv (engine_merge_delta r delta) = r_dvv (engine_merge_delta r full) ∧
  ((e, d) ∈ delta_adds delta ↔ in_adds (r_set r') e d ∧ ¬ ctx_covers (knowledge r) d) ∧
  ∀ x, (d, x) ∈ delta_tombstones delta ↔ tombstones (r_set r') !! d = Some x ∧ ¬ ctx_covers (knowledge r) x.
Proof.
  intros Hreach Hr Hr' delta full.
  assert (∀ e d, in_adds (r_set (engine_merge_delta r delta)) e d ↔
    in_adds (r_set (engine_merge_delta r full)) e d) as Hsame.
  { pose proof (reachable_ok _ Hreach) as Hok.
    destruct (nok_replicas _ Hok n r Hr) as [_ _ _ Hs Hrep].
    destruct (nok_replicas _ Hok m r' Hr') as [_ _ _ Hs' Hrep'].
    assert (∀ d, ctx_covers (knowledge r) d → ctx_covers (known net r) d) as Hk
      by (intros d'; apply ctx_covers_mono, known_above).
    intros e' d'. apply merge_minimal; [by eapply represents_wf|..].
    - intros e1 d1 Hin Hc%Hk. apply (rep_adds _ _ _ _ Hrep') in Hin as (Hadd & _ & Hn).
      destruct (decide (in_adds (r_set r) e1 d1)) as [?|Hno]; [by left|right].
      destruct (decide (tombed (r_set r) d1)) as [?|Ht]; [done|].
      destruct Hno. apply (rep_adds _ _ _ _ Hrep). split_and!; [done..|].
      intros [?|(x & D & ? & ? & ?)]%(rep_removed _ _ _ _ Hrep); [done|].
      apply Hn. exists x, D. split_and!; [done|by eapply ctx_covers_mono|done].
    - intros e1 d1 x Hx Hc%Hk Hin. apply (rep_tombstones _ _ _ _ Hrep') in Hx as (D & HD & _ & Hd).
      apply (rep_adds _ _ _ _ Hrep) in Hin as (_ & _ & Hn). apply Hn. by exists x, D. }
  split_and!; [done| |done|apply delta_since_adds|intros; apply delta_since_tombstones].
  assert (orset_wf (r_set r)) by (eapply represents_wf; by eapply reachable_represents).
  apply eq_true_iff_eq. simpl. rewrite !contains_merge by done. split; intros [d' Hd']; exists d'; by apply Hsame.
Qed.

(** C14. Add wins: when one replica adds [e] while another, which has not
    heard of it, removes [e], the remover no longer has [e], and both have it
    after an exchange. *)
Theorem concurrent_add_wins net n m r r' e :
  reachable net → n ≠ m → replicas net !! n = Some r → replicas net !! m = Some r' →
  d_counter (dot (r_dvv r)) < u64_max → d_counter (dot (r_dvv r')) < u64_max →
  let ra := engine_apply_local r (Add e) in
  let rb := engine_apply_local r' (Remove e) in
  OrSetImpl.contains (r_set rb) e = false ∧
  OrSetImpl.contains (r_set (pull rb ra)) e = true ∧
  OrSetImpl.contains (r_set (pull ra (pull rb ra))) e = true.
Proof.
  intros Hreach Hne Hr Hr' Hmax Hmax' ra rb.
  set (net1 := op_net net n r (Add e)). set (net2 := op_net net1 m r' (Remove e)).
  pose proof (reachable_ok _ Hreach) as Hok.
  destruct (op_dot net n r (Add e)) as (Hd & Hnone & _); [done..|]. fold ra in Hd, Hnone.
  assert (net_ok net1) as Hok1 by (by apply step_op_ok).
  assert (replicas net1 !! m = Some r') as Hr1' by (simpl; by rewrite lookup_insert_ne).
  assert (net_ok net2) as Hok2 by (by apply step_op_ok).
  assert (replicas net2 !! n = Some ra) as Hra.
  { simpl. rewrite lookup_insert_ne by done. by rewrite lookup_insert_eq. }
  assert (replicas net2 !! m = Some rb) as Hrb by (simpl; by rewrite lookup_insert_eq).
  destruct (op_dot net1 m r' (Remove e)) as (Hdb & Hnoneb & _); [done..|].
  fold rb in Hdb, Hnoneb.
  destruct (exchange_represents net2 m n rb ra) as (_ & H1 & H2); [done..|].
  pose proof (reachable_represents _ _ _ Hreach Hr') as Hrep'.
  assert (history net2 = <[dot (r_dvv rb) := event_of (r_set r') (Remove e)]>
            (<[dot (r_dvv ra) := EvAdd e]> (history net))) as Hh2 by done.
  assert (spec_member (history net2) (vv_join (known net2 rb) (known net2 ra)) e) as Hmem.
  { exists (dot (r_dvv ra)). split_and!.
    - rewrite Hh2, lookup_insert_ne, lookup_insert_eq; [done|]. rewrite Hd, Hdb. congruence.
    - eapply ctx_covers_mono; [apply vv_join_le_r|].
      apply (op_covers net n r (Add e)); [done..|by right].
    - intros (rr & D & Hrr & _ & Hin). rewrite Hh2 in Hrr.
      apply lookup_insert_Some in Hrr as [[_ [= <-]]|[_ Hrr]].
      + apply (rep_adds _ _ _ _ Hrep' e) in Hin as [Hin _]. congruence.
      + apply lookup_insert_Some in Hrr as [[_ [=]]|[_ Hrr]].
        destruct (hist_removed _ (nok_history _ Hok) _ _ _ Hrr Hin). congruence. }
  split_and!; [|by apply (represents_member _ _ _ _ _ H1)|by apply (represents_member _ _ _ _ _ H2)].
  apply not_true_iff_false. rewrite contains_spec. intros (d & Hin & _).
  by apply in_adds_apply_remove in Hin as [? _].
Qed.

(** C3. Once a replica knows an addition and has dropped it, the addition comes
    back only through an untimely collection.  In a run whose collections are all
    timely, nothing brings it back: delivery of old deltas, newcomers, and
    collections and forgetting included.  In a run with collections at any time and
    under any frontier, which the program does not exclude, an addition that is back
    shows that some replica collected or forgot while another did not know what was
    collected or something older was still on its way. *)
Theorem removals_are_final net net' n r r' d :
  reachable net → replicas net !! n = Some r → replicas net' !! n = Some r' →
  ctx_covers (knowledge r) d → (∀ e, ¬ in_adds (r_set r) e d) →
  (rtc net_step net net' → ∀ e, ¬ in_adds (r_set r') e d) ∧
  (rtc code_step net net' → ∀ e, in_adds (r_set r') e d →
   ∃ net1 net2, rtc net_step net net1 ∧ untimely_step net1 net2 ∧ rtc code_step net2 net').
Proof.
  intros Hreach Hr Hr' Hc Hgone.
  assert (rtc net_step net net' → ∀ e, ¬ in_adds (r_set r') e d) as Htimely.
  { intros Hsteps e. eapply dropped_for_good; [by apply reachable_ok|done..]. }
  split; [done|]. intros [Hsteps|?]%rtc_first e Hin; [|done]. by destruct (Htimely Hsteps e).
Qed.

(** C28. A joining replica that installs a published snapshot knows what the
    publisher knew and holds exactly its pairs, under its own identity. *)
Theorem bootstrap_copies_state net m n r e d :
  reachable net → replicas net !! m = Some r →
  let r' := engine_bootstrap n (engine_new n) (engine_full_state r) (knowledge r) in
  d_node_id (dot (r_dvv r')) = n ∧ knowledge r' ≡c knowledge r ∧
  (in_adds (r_set r') e d ↔ in_adds (r_set r) e d) ∧
  OrSetImpl.contains (r_set r') e = OrSetImpl.contains (r_set r) e.
Proof.
  intros Hreach Hr r'. pose proof (reachable_represents _ _ _ Hreach Hr) as Hrep.
  assert (represents (history net) (stable net) (known net r) (r_set r')) as Hrep'.
  { by apply snapshot_represents. }
  destruct (represents_agree _ _ _ _ _ _ e Hrep' Hrep) as [Ha Hm].
  split_and!; [|apply bootstrap_knowledge|apply Ha|done].
  simpl. by rewrite merge_node.
Qed.
End theorems.

(** ** Concrete runs *)
Section runs.
Context {E : Type} `{Countable E}.
Implicit Types net : Net E.

Definition pull_net net n (r r' : Replica E) : Net E :=
  {| replicas := <[n := pull r r']> (replicas net);
     pool := DeltaResponse n (knowledge r) (engine_delta_since r' (knowledge r)) ::
             PullRequest n (knowledge r) :: pool net;
     history := history net; stable := stable net; departed := departed net;
     forgotten := forgotten net |}.

Lemma op_reachable net n r op :
  reachable net → replicas net !! n = Some r → d_counter (dot (r_dvv r)) < u64_max →
  reachable (op_net net n r op).
Proof. intros ? ? ?. eapply reachable_steps; [done|]. by apply rtc_once, step_op. Qed.

Lemma pull_reachable net n m r r' :
  reachable net → replicas net !! n = Some r → replicas net !! m = Some r' →
  reachable (pull_net net n r r').
Proof.
  intros Hreach Hr Hr'. eapply reachable_steps; [done|].
  eapply rtc_l; [by eapply (step_request net n r)|].
  eapply rtc_l; [eapply (step_answer _ n m r'); [by apply list_elem_of_here|done]|].
  match goal with |- rtc _ ?net1 _ => apply rtc_once, (step_deliver net1 n r (knowledge r)) end;
    [by apply list_elem_of_here|done].
Qed.
End runs.

Definition demo0 : Net string :=
  {| replicas := <["A" := engine_new "A"]> (<["B" := engine_new "B"]> ∅);
     pool := []; history := ∅; stable := ∅; departed := ∅; forgotten := ∅ |}.

(** [A] adds an element, [B] pulls it, [B] removes it. *)
Definition demo_a : Replica string := engine_apply_local (engine_new "A") (Add "x").
Definition demo_b : Replica string := pull (engine_new "B") demo_a.
Definition demo_b' : Replica string := engine_apply_local demo_b (Remove "x").
Definition demo1 : Net string := op_net demo0 "A" (engine_new "A") (Add "x").
Definition demo2 : Net string := pull_net demo1 "B" (engine_new "B") demo_a.
Definition demo3 : Net string := op_net demo2 "B" demo_b (Remove "x").
Definition demo_b'' : Replica string :=
  engine_merge_delta demo_b' (engine_delta_since demo_a (knowledge (engine_new "B" : Replica string))).

Lemma demo0_reachable : reachable demo0.
Proof.
  exists demo0. split; [|done]. split_and!; [|set_solver|done..].
  intros n r. simpl. rewrite !lookup_insert. repeat case_decide; subst; simpl; try congruence.
  by rewrite lookup_empty.
Qed.

Lemma demo1_reachable : reachable demo1.
Proof. by apply op_reachable; [apply demo0_reachable|..]. Qed.

Lemma demo2_reachable : reachable demo2.
Proof. by apply (pull_reachable _ "B" "A"); [apply demo1_reachable|..]. Qed.

Lemma demo3_reachable : reachable demo3.
Proof. by apply op_reachable; [apply demo2_reachable|..]. Qed.

(** [A] leaves, everybody knowing its events, and [B] forgets it. *)
Definition demo4 : Net string := leave_net (with_pool demo2 []) "A" demo_a.
Definition demo5 : Net string := forget_net demo4 "B" demo_b "A" 1.

Lemma demo5_reachable : reachable demo5.
Proof.
  eapply reachable_steps; [apply demo2_reachable|].
  eapply rtc_l; [by apply step_lose, list_subseteq_nil|].
  eapply rtc_l; [by apply (step_leave (with_pool demo2 []) "A" demo_a)|].
  apply rtc_once, (step_forget demo4 "B" demo_b "A" 1); [done|done| |set_solver].
  intros m r. simpl. intros [Hm Hr]%lookup_delete_Some. rewrite !lookup_insert in Hr.
  repeat case_decide; simplify_eq; try done; try by vm_compute.
Qed.

Lemma strong_eventual_consistency_witness :
  OrSetImpl.contains (r_set demo_a) "x" = true ∧
  OrSetImpl.contains (r_set demo_a) "x" = OrSetImpl.contains (r_set demo_b) "x".
Proof.
  split; [by vm_compute|].
  destruct (strong_eventual_consistency demo2 "A" "B" demo_a demo_b "x") as [HK Hc];
    [apply demo2_reachable|done|done|].
  apply Hc, HK. assert (knowledge demo_a = knowledge demo_b) as ->; [by vm_compute|done].
Defined.

(** [B] has forgotten [A], whose addition it still has. *)
Lemma membership_is_history_witness :
  spec_member (history demo5) (known demo5 (engine_forget demo_b "A")) "x" ∧
  get_or0 (knowledge (engine_forget demo_b "A")) "A" = 0.
Proof.
  split; [|by vm_compute].
  destruct (membership_is_history demo5 "B" (engine_forget demo_b "A") "x") as (Hm & _);
    [apply demo5_reachable|done|].
  apply Hm. by vm_compute.
Defined.

Lemma reachable_replicas_well_formed_witness :
  orset_wf (r_set demo_a) ∧ get_or0 (knowledge demo_b) "A" <= 1.
Proof.
  destruct (reachable_replicas_well_formed demo2 "A" "B" demo_a demo_b)
    as (_ & _ & Hwf & Hle & _); [apply demo2_reachable|done|done|].
  split; [exact Hwf|exact Hle].
Defined.

Lemma pull_exchange_converges_witness :
  OrSetImpl.contains (r_set (pull (engine_new "B") demo_a)) "x" = true ∧
  known demo1 (pull demo_a (pull (engine_new "B") demo_a)) ≡c
    vv_join (known demo1 (engine_new "B" : Replica string)) (known demo1 demo_a).
Proof.
  split; [by vm_compute|].
  apply (pull_exchange_converges demo1 "B" "A" (engine_new "B") demo_a "x");
    [apply demo1_reachable|done..].
Defined.

Lemma minimal_delta_is_enough_witness :
  let delta := engine_delta_since demo_a (knowledge demo_b') in
  delta_adds delta = [] ∧ delta_adds (engine_full_state demo_a) = [("x", mkDot "A" 1)] ∧
  OrSetImpl.contains (r_set (engine_merge_delta demo_b' (engine_full_state demo_a))) "x" = false ∧
  OrSetImpl.contains (r_set (engine_merge_delta demo_b' delta)) "x" =
    OrSetImpl.contains (r_set (engine_merge_delta demo_b' (engine_full_state demo_a))) "x".
Proof.
  split_and!; [by vm_compute..|].
  apply (minimal_delta_is_enough demo3 "B" "A" demo_b' demo_a "x" (mkDot "A" 1));
    [apply demo3_reachable|done..].
Defined.

Lemma concurrent_add_wins_witness :
  OrSetImpl.contains (r_set (pull (engine_apply_local demo_b (Remove "x"))
                                  (engine_apply_local demo_a (Add "x")))) "x" = true.
Proof.
  apply (concurrent_add_wins demo2 "A" "B" demo_a demo_b "x"); [apply demo2_reachable|done..].
Defined.

(** A run with an untimely collection: ["A"] learns of the removal, so both know
    everything; ["B"] collects, and then receives the answer to its first request,
    which is older than the removal. *)
Definition demo6 : Net string := pull_net demo3 "A" demo_a demo_b'.
Definition demo_frontier : CausalContext := {["A" := 1; "B" := 1]}.
Definition demo_old : OrSetDelta string :=
  engine_delta_since demo_a (knowledge (engine_new "B" : Replica string)).
Definition demo7 : Net string := gc_net demo6 "B" demo_b' demo_frontier.
Definition demo_back : Replica string :=
  engine_merge_delta (engine_gc demo_b' (frontier_dvv "B" demo_frontier)) demo_old.
Definition demo8 : Net string := with_replica demo7 "B" demo_back.

Lemma demo6_steps : rtc net_step demo3 demo6.
Proof.
  eapply rtc_l; [by eapply (step_request demo3 "A" demo_a)|].
  eapply rtc_l; [eapply (step_answer _ "A" "B" demo_b'); [by apply list_elem_of_here|done]|].
  match goal with |- rtc _ ?net1 _ => apply rtc_once, (step_deliver net1 "A" demo_a (knowledge demo_a)) end;
    [by apply list_elem_of_here|done].
Qed.

(** Everybody knows the frontier: only the late answer is in the way. *)
Lemma demo6_all_know m r : replicas demo6 !! m = Some r → demo_frontier ⊑c known demo6 r.
Proof.
  intros Hr. assert (map_Forall (λ _ r, knowledge r = demo_frontier) (replicas demo6)) as Hall.
  { apply (bool_decide_unpack _). vm_compute. exact I. }
  rewrite <- (Hall m r Hr). apply known_above.
Qed.

Lemma demo6_untimely : ¬ timely_gc demo6 demo_frontier.
Proof.
  intros [_ Hpool].
  assert (DeltaResponse "B" (knowledge (engine_new "B" : Replica string)) demo_old ∈ pool demo6) as Hin.
  { apply list_elem_of_further, list_elem_of_further, list_elem_of_here. }
  apply Hpool in Hin. apply (Hin "x" (mkDot "A" 1)).
  - by vm_compute; left.
  - exists (mkDot "B" 1), {[mkDot "A" 1]}. split_and!; [by vm_compute|by vm_compute|set_solver].
Qed.

Lemma demo8_steps : rtc code_step demo3 demo8.
Proof.
  etrans; [eapply rtc_subrel; [|apply demo6_steps]; intros ??; by left|].
  eapply rtc_l; [right; apply (untimely_gc demo6 "B" demo_b' demo_frontier); [done|apply demo6_untimely]|].
  apply rtc_once. left.
  eapply (step_deliver demo7 "B" _ (knowledge (engine_new "B" : Replica string)) demo_old); [|done].
  apply list_elem_of_further, list_elem_of_further, list_elem_of_here.
Qed.

(** The two then have the same vector and different members. *)
Example late_answer_diverges :
  rtc code_step demo3 demo8 ∧
  replicas demo8 !! "A" = Some (pull demo_a demo_b') ∧ replicas demo8 !! "B" = Some demo_back ∧
  knowledge (pull demo_a demo_b') = knowledge demo_back ∧
  OrSetImpl.contains (r_set (pull demo_a demo_b')) "x" = false ∧
  OrSetImpl.contains (r_set demo_back) "x" = true.
Proof. split; [apply demo8_steps|]. split_and!; by vm_compute. Qed.

(** Without the collection the late answer changes nothing (first part); after it,
    the element is back (second part). *)
Lemma removals_are_final_witness :
  (∀ m r, replicas demo6 !! m = Some r → demo_frontier ⊑c known demo6 r) ∧
  ¬ in_adds (r_set demo_b'') "x" (mkDot "A" 1) ∧
  in_adds (r_set demo_back) "x" (mkDot "A" 1) ∧
  ∃ net1 net2, rtc net_step demo3 net1 ∧ untimely_step net1 net2 ∧ rtc code_step net2 demo8.
Proof.
  assert (∀ e, ¬ in_adds (r_set demo_b') e (mkDot "A" 1)) as Hgone.
  { intros e. unfold in_adds. assert (adds (r_set demo_b') = ∅) as -> by (by vm_compute).
    rewrite lookup_empty. simpl. set_solver. }
  assert (in_adds (r_set demo_back) "x" (mkDot "A" 1)) as Hback by by vm_compute.
  split_and!; [apply demo6_all_know| |done|].
  - eapply (proj1 (removals_are_final demo3 (with_replica demo3 "B" demo_b'')
      "B" demo_b' demo_b'' (mkDot "A" 1) demo3_reachable eq_refl eq_refl _ Hgone)).
    apply rtc_once. by eapply (step_deliver demo3 "B" demo_b' (knowledge (engine_new "B" : Replica string)));
      [apply list_elem_of_here|].
  - by eapply (proj2 (removals_are_final demo3 demo8
      "B" demo_b' demo_back (mkDot "A" 1) demo3_reachable eq_refl eq_refl _ Hgone) demo8_steps).
    Unshelve. all: vm_compute; discriminate.
Defined.

Lemma bootstrap_copies_state_witness :
  OrSetImpl.contains (r_set (engine_bootstrap "C" (engine_new "C")
    (engine_full_state demo_a) (knowledge demo_a))) "x" = true.
Proof.
  destruct (bootstrap_copies_state demo1 "A" "C" demo_a "x" (mkDot "A" 1))
    as (_ & _ & _ & ->); [apply demo1_reachable|done|]. by vm_compute.
Defined.
