(* ===== verification/Registry.v ===== *)
(** * The registry of connected peers ([src/src/peers/peer_registry.rs])

    The table from node ids to the sending half of the channel that feeds a
    peer's writer task.  The channel is tokio's bounded [mpsc]: its [try_send]
    is the operation of the class [Channel] on a world [W] that holds every
    channel, and its documented behaviour (an item is queued when there is room,
    refused without effect otherwise, and other channels are untouched) is the
    class [ChannelOk].  [queues] is a concrete implementation. *)
From Stdlib Require Import Strings.String.
From stdpp Require Import base gmap sets list strings fin_maps.
From S2P Require Import Prelude Proto.

(** ** Channels *)
Class Channel (Tx Item W : Type) := {
  try_send : Tx → Item → W → result unit * W
}.

Class ChannelOk (Tx Item W : Type) `{Channel Tx Item W}
    (queued : W → Tx → list Item) (has_room : W → Tx → bool) := {
  try_send_room : ∀ c m w, has_room w c = true →
    (try_send c m w).1 = Ok tt ∧ queued (try_send c m w).2 c = queued w c ++ [m];
  try_send_full : ∀ c m w, has_room w c = false →
    is_ok (try_send c m w).1 = false ∧ (try_send c m w).2 = w;
  try_send_other : ∀ c m w c', c' ≠ c →
    queued (try_send c m w).2 c' = queued w c' ∧
    has_room (try_send c m w).2 c' = has_room w c'
}.

(** The waiting [send] of the same channels: the item is appended, or the channel
    is closed and nothing happens. *)
Class Sender (Tx Item W : Type) := { send : Tx → Item → W → result unit * W }.

Class SenderOk (Tx Item W : Type) `{Sender Tx Item W}
    (received : W → Tx → list Item) (is_open : W → Tx → bool) := {
  send_open : ∀ c m w, is_open w c = true →
    (send c m w).1 = Ok tt ∧ received (send c m w).2 c = received w c ++ [m] ∧
    is_open (send c m w).2 c = true;
  send_closed : ∀ c m w, is_open w c = false →
    is_ok (send c m w).1 = false ∧ (send c m w).2 = w
}.

(** ** The registry *)
Record PeerHandle (Tx : Type) := mkPeerHandle { tx : Tx }.
Arguments mkPeerHandle {Tx}.
Arguments tx {Tx}.

Record PeerRegistry (Tx : Type) := mkPeerRegistry {
  peers : gmap NodeId (bool * PeerHandle Tx)
}.
Arguments mkPeerRegistry {Tx}.
Arguments peers {Tx}.

Module PeerRegistryImpl.
Section impl.
Context {Tx W : Type} `{Channel Tx Envelope W}.
Implicit Types self : PeerRegistry Tx.

Definition new : PeerRegistry Tx := {| peers := ∅ |}.

Definition insert self (node_id : NodeId) (gc_replica : bool) (handle : PeerHandle Tx)
    : PeerRegistry Tx :=
  {| peers := <[node_id := (gc_replica, handle)]> (peers self) |}.

Definition remove self (node_id : NodeId) : option (PeerHandle Tx) * PeerRegistry Tx :=
  (snd <$> peers self !! node_id, {| peers := delete node_id (peers self) |}).

Definition get self (node_id : NodeId) : option (bool * PeerHandle Tx) :=
  peers self !! node_id.

Definition peer_ids self : list NodeId := (map_to_list (peers self)).*1.

Definition get_all_non_gc_replicas self : list NodeId :=
  (List.filter (λ r, negb r.2.1) (map_to_list (peers self))).*1.

Definition send_to_peer self (node_id : NodeId) (envelope : Envelope) (w : W)
    : result unit * W :=
  match peers self !! node_id with
  | Some entry =>
      let '(r, w') := try_send (tx entry.2) envelope w in
      (match r with
       | Ok _ => Ok tt
       | Err e => Err ("failed to send to peer " ++ node_id ++ ": " ++ e)%string
       end, w')
  | None => (Err ("peer " ++ node_id ++ " not found")%string, w)
  end.

(** A failed [try_send] is logged and the loop goes on. *)
Definition broadcast self (envelope : Envelope) (w : W) : W :=
  foldl (λ w entry, (try_send (tx entry.2.2) envelope w).2) w (map_to_list (peers self)).

Definition len self : nat := size (peers self).

Definition is_empty self : bool := bool_decide (peers self = ∅).
End impl.
End PeerRegistryImpl.

(** ** Lemmas *)
Section lemmas.
Context {Tx W : Type} `{Channel Tx Envelope W}.
Implicit Types reg : PeerRegistry Tx.

Lemma elem_of_peer_ids reg n :
  n ∈ PeerRegistryImpl.peer_ids reg ↔ is_Some (peers reg !! n).
Proof.
  unfold PeerRegistryImpl.peer_ids. rewrite list_elem_of_fmap. split.
  - intros ([n' e] & -> & Hin%elem_of_map_to_list). by exists e.
  - intros [e He]. exists (n, e). split; [done|]. by apply elem_of_map_to_list.
Qed.

Lemma NoDup_peer_ids reg : NoDup (PeerRegistryImpl.peer_ids reg).
Proof. apply NoDup_fst_map_to_list. Qed.

Lemma length_peer_ids reg :
  length (PeerRegistryImpl.peer_ids reg) = PeerRegistryImpl.len reg.
Proof.
  unfold PeerRegistryImpl.peer_ids, PeerRegistryImpl.len.
  by rewrite length_fmap, length_map_to_list.
Qed.

Lemma elem_of_non_gc reg n :
  n ∈ PeerRegistryImpl.get_all_non_gc_replicas reg ↔
    ∃ h, PeerRegistryImpl.get reg n = Some (false, h).
Proof.
  unfold PeerRegistryImpl.get_all_non_gc_replicas, PeerRegistryImpl.get.
  rewrite list_elem_of_fmap. setoid_rewrite list_elem_of_In. setoid_rewrite filter_In.
  setoid_rewrite <- list_elem_of_In. split.
  - intros ([n' [[] h]] & -> & Hin & Hf); simpl in *; [done|].
    exists h. by apply elem_of_map_to_list.
  - intros [h Hh]. exists (n, (false, h)). split_and!; [done| |done].
    by apply elem_of_map_to_list.
Qed.

Context `{EqDecision Tx} {queued : W → Tx → list Envelope} {has_room : W → Tx → bool}
  `{!ChannelOk Tx Envelope W queued has_room}.

(** What one [try_send] leaves in every channel. *)
Lemma try_send_queued c m w c' :
  queued (try_send c m w).2 c' =
    queued w c' ++ (if decide (c' = c) then if has_room w c then [m] else [] else []).
Proof.
  case_decide as Hc.
  - subst. destruct (has_room w c) eqn:Hr.
    + by apply try_send_room.
    + rewrite app_nil_r. by destruct (try_send_full c m w Hr) as [_ ->].
  - rewrite app_nil_r. by apply try_send_other.
Qed.

(** A loop of [try_send] over distinct channels queues the item once in each of
    those that has room, and touches no other channel. *)
Lemma send_loop {K : Type} (f : K → Tx) (l : list K) m w c :
  NoDup (f <$> l) →
  queued (foldl (λ w k, (try_send (f k) m w).2) w l) c =
    queued w c ++ (if decide (c ∈ f <$> l) then if has_room w c then [m] else [] else []).
Proof.
  revert w. induction l as [|k l IH]; intros w; simpl; [by rewrite app_nil_r|].
  intros [Hni Hnd]%NoDup_cons. rewrite IH by done. rewrite try_send_queued, <- app_assoc.
  f_equal. destruct (decide (c = f k)) as [->|Hne].
  - rewrite (decide_False _ _ Hni), app_nil_r. by rewrite decide_True by set_solver.
  - destruct (try_send_other (f k) m w c Hne) as [_ ->]. simpl.
    destruct (decide (c ∈ f <$> l)); [by rewrite decide_True by set_solver|].
    by rewrite decide_False by set_solver.
Qed.

(** [send_to_peer] to a registered peer is one [try_send] on its channel. *)
Lemma send_to_peer_registered reg n g h m w :
  peers reg !! n = Some (g, h) →
  (PeerRegistryImpl.send_to_peer reg n m w).2 = (try_send (tx h) m w).2 ∧
  is_ok (PeerRegistryImpl.send_to_peer reg n m w).1 = is_ok (try_send (tx h) m w).1.
Proof.
  intros Hn. unfold PeerRegistryImpl.send_to_peer. rewrite Hn; simpl.
  by destruct (try_send (tx h) m w) as [[] w'].
Qed.

Lemma send_to_peer_unknown reg n m w :
  peers reg !! n = None →
  (PeerRegistryImpl.send_to_peer reg n m w).2 = w ∧
  is_ok (PeerRegistryImpl.send_to_peer reg n m w).1 = false.
Proof. intros Hn. unfold PeerRegistryImpl.send_to_peer. by rewrite Hn. Qed.

(** No two peers share a channel: each handle is made with a channel of its own. *)
Definition own_channels reg : Prop :=
  ∀ n1 n2 p1 p2, peers reg !! n1 = Some p1 → peers reg !! n2 = Some p2 →
    tx p1.2 = tx p2.2 → n1 = n2.

Lemma own_channels_NoDup reg :
  own_channels reg → NoDup ((λ e, tx e.2.2) <$> map_to_list (peers reg)).
Proof.
  intros Hown. apply NoDup_fmap_2_strong; [|apply NoDup_map_to_list].
  intros [n1 p1] [n2 p2] H1%elem_of_map_to_list H2%elem_of_map_to_list Heq; simpl in *.
  assert (n1 = n2) as -> by eauto. by simplify_eq.
Qed.
End lemmas.

(** ** Properties *)
Section theorems.
Context {Tx W : Type} `{Channel Tx Envelope W} `{EqDecision Tx}
  {queued : W → Tx → list Envelope} {has_room : W → Tx → bool}
  `{!ChannelOk Tx Envelope W queued has_room}.
Implicit Types reg : PeerRegistry Tx.

(** A broadcast queues the envelope exactly once at every peer whose
    channel has room, whatever the order of the table; peers with a full or
    closed channel and channels of nobody in the table are left as they were. *)
Theorem broadcast_delivers_once reg m w c :
  own_channels reg →
  queued (PeerRegistryImpl.broadcast reg m w) c =
    queued w c ++
    (if decide (c ∈ (λ e, tx e.2.2) <$> map_to_list (peers reg))
     then if has_room w c then [m] else [] else []).
Proof.
  intros Hown. apply (send_loop (λ e : NodeId * (bool * PeerHandle Tx), tx e.2.2)).
  by apply own_channels_NoDup.
Qed.

(** The registry is a table of the live peers: a registered peer is found with the
    last role and handle given, is listed, and is listed as a non-GC replica
    exactly when it is not one; a removed peer is gone and its handle returned,
    and no other peer is affected. *)
Theorem registry_is_a_table reg n m g h :
  let ins := PeerRegistryImpl.insert reg n g h in
  let '(old, del) := PeerRegistryImpl.remove reg n in
  PeerRegistryImpl.get ins m = (if decide (n = m) then Some (g, h) else PeerRegistryImpl.get reg m) ∧
  PeerRegistryImpl.get del m = (if decide (n = m) then None else PeerRegistryImpl.get reg m) ∧
  old = snd <$> PeerRegistryImpl.get reg n ∧
  (m ∈ PeerRegistryImpl.peer_ids reg ↔ is_Some (PeerRegistryImpl.get reg m)) ∧
  (m ∈ PeerRegistryImpl.get_all_non_gc_replicas reg ↔
     ∃ h', PeerRegistryImpl.get reg m = Some (false, h')) ∧
  length (PeerRegistryImpl.peer_ids reg) = PeerRegistryImpl.len reg ∧
  (PeerRegistryImpl.is_empty reg = true ↔ PeerRegistryImpl.peer_ids reg = []).
Proof.
  simpl. split_and!.
  - apply lookup_insert.
  - apply lookup_delete.
  - done.
  - apply elem_of_peer_ids.
  - apply elem_of_non_gc.
  - apply length_peer_ids.
  - unfold PeerRegistryImpl.is_empty. rewrite bool_decide_eq_true.
    rewrite <- length_zero_iff_nil, length_peer_ids. unfold PeerRegistryImpl.len.
    by rewrite map_size_empty_iff.
Qed.
End theorems.

(** ** A concrete channel implementation *)
(** Bounded queues indexed by number; an absent index is a closed channel. *)
Definition channel_buf : nat := 256.

Abbreviation Queues := (gmap nat (list Envelope)) (only parsing).

Definition queues_queued (w : Queues) (c : nat) : list Envelope := default [] (w !! c).

Definition queues_room (w : Queues) (c : nat) : bool :=
  match w !! c with Some q => Nat.ltb (length q) channel_buf | None => false end.

#[export] Instance queues : Channel nat Envelope Queues := {|
  try_send := λ c m w,
    if queues_room w c then (Ok tt, <[c := queues_queued w c ++ [m]]> w)
    else (Err (if decide (is_Some (w !! c)) then "no available capacity" else "channel closed")%string, w)
|}.

#[export] Instance queues_ok : ChannelOk nat Envelope Queues queues_queued queues_room.
Proof.
  split; intros c m w; simpl.
  - intros ->. simpl. split; [done|]. unfold queues_queued. by rewrite lookup_insert_eq.
  - intros ->. done.
  - intros c' Hne. destruct (queues_room w c); simpl; [|done].
    unfold queues_queued, queues_room. by rewrite lookup_insert_ne by done.
Qed.

(** A queue that is always open. *)
#[export] Instance list_sender (Item : Type) : Sender unit Item (list Item) := {|
  send := λ _ m w, (Ok tt, w ++ [m])
|}.

#[export] Instance list_sender_ok (Item : Type) :
  SenderOk unit Item (list Item) (λ w _, w) (λ _ _, true).
Proof. by split. Qed.

Definition two_peers : PeerRegistry nat :=
  PeerRegistryImpl.insert
    (PeerRegistryImpl.insert PeerRegistryImpl.new "A" true (mkPeerHandle 1%nat))
    "B" false (mkPeerHandle 2%nat).

Definition two_queues : Queues := <[1%nat := []]> (<[2%nat := []]> ∅).

Lemma two_peers_own : own_channels two_peers.
Proof.
  intros n1 n2 [] [] H1 H2 Heq. revert H1 H2. unfold two_peers; simpl.
  rewrite !lookup_insert, lookup_empty. repeat case_decide; naive_solver.
Qed.

Lemma broadcast_delivers_once_witness :
  queues_queued (PeerRegistryImpl.broadcast two_peers (mkEnvelope None) two_queues) 1 =
    [mkEnvelope None].
Proof.
  rewrite (broadcast_delivers_once (queued := queues_queued) (has_room := queues_room));
    [by vm_compute|apply two_peers_own].
Defined.
