(* ===== verification/Dissemination.v ===== *)
(** * Dissemination strategies ([src/src/network/dissemination.rs])

    The trait [DisseminationStrategy] as a class on a strategy type [D], the
    world [W] holding the channels and the random source, with the three
    strategies as instances.  [DisseminationOk] is what the engine relies on:
    an answer goes to the requester only and carries the delta it was given,
    and gossip advertises the given knowledge to at most one registered peer.
    The registry is shared, so each call is given the table as it is then.
    [rand]'s [choose] is the operation of the class [Rng]. *)
From Stdlib Require Import Strings.Byte Strings.String.
From stdpp Require Import base gmap sets list strings fin_maps.
From S2P Require Import Prelude Clocks Proto Registry.
Local Open Scope N_scope.

(** ** The random source *)
Class Rng (W : Type) := { choose : list NodeId → W → option NodeId * W }.

Class RngOk (Tx W : Type) `{Rng W} (queued : W → Tx → list Envelope)
    (has_room : W → Tx → bool) := {
  choose_elem : ∀ l w n, (choose l w).1 = Some n → n ∈ l;
  choose_none : ∀ l w, (choose l w).1 = None → l = [];
  choose_queues : ∀ l w c, queued (choose l w).2 c = queued w c ∧
                           has_room (choose l w).2 c = has_room w c
}.

Abbreviation MatrixClock := (gmap string (gmap string N)) (only parsing).

(** ** The trait *)
Class DisseminationStrategy (D Tx W : Type) := {
  push_version_vector : D → PeerRegistry Tx → NodeId → string → bool → CausalContext → W → D * W;
  on_post_merge : D → PeerRegistry Tx → NodeId → string → bool → CausalContext → W → D * W;
  respond_to_pull_request : D → PeerRegistry Tx → NodeId → string → NodeId →
    option bytes → bool → option MatrixClock → option CausalContext → W → D * W;
  do_pull_round : D → PeerRegistry Tx → NodeId → string → bool → CausalContext → W → D * W;
  get_dissemination_round : D → N
}.

(** ** Envelopes *)
Definition make_crdt_op_envelope (crdt_id : string) (origin_node_id : NodeId) (payload : bytes)
    (knowledge_matrix : option MatrixClock) (requester_knowledge : option CausalContext)
    : Envelope :=
  {| env_payload := Some (PCrdtOp
       {| op_crdt_id := crdt_id;
          op_payload := payload;
          op_origin_node_id := origin_node_id;
          op_requester_knowledge := mkVectorClock <$> requester_knowledge;
          op_knowledge_matrix :=
            (λ m : MatrixClock, {| km_entries := mkVectorClock <$> m |}) <$> knowledge_matrix |}) |}.

Definition make_pull_request_envelope (crdt_id : string) (origin_node_id : NodeId)
    (gc_replica : bool) (knowledge : CausalContext) : Envelope :=
  {| env_payload := Some (PCrdtPullRequest
       {| pr_crdt_id := crdt_id;
          pr_origin_node_id := origin_node_id;
          pr_knowledge := Some {| vc_entries := knowledge |};
          pr_gc_replica := gc_replica |}) |}.

Section strategies.
Context {Tx W : Type} `{Channel Tx Envelope W} `{Rng W}.
Implicit Types reg : PeerRegistry Tx.

(** [if let Some(id) = peer_ids().choose(..) { round += 1; let _ = send_to_peer(id, ..) }];
    the counter is a [usize]. *)
Definition gossip reg (dissemination_round : N) (envelope : Envelope) (w : W) : N * W :=
  match choose (PeerRegistryImpl.peer_ids reg) w with
  | (Some random_peer_id, w1) =>
      (u64_add dissemination_round 1,
       (PeerRegistryImpl.send_to_peer reg random_peer_id envelope w1).2)
  | (None, w1) => (dissemination_round, w1)
  end.

(** The answer of the pushing strategies, which piggyback the request. *)
Definition push_response (dissemination_round : N) (crdt_id : string) (origin_node_id : NodeId)
    (delta_payload : option bytes) (gc_replica : bool) (knowledge_matrix : option MatrixClock)
    (our_knowledge : option CausalContext) : N * option Envelope :=
  match delta_payload, our_knowledge with
  | Some payload, Some knowledge =>
      (u64_add dissemination_round 1,
       Some (make_crdt_op_envelope crdt_id origin_node_id payload knowledge_matrix (Some knowledge)))
  | Some payload, None =>
      (dissemination_round,
       Some (make_crdt_op_envelope crdt_id origin_node_id payload knowledge_matrix None))
  | None, Some knowledge =>
      (u64_add dissemination_round 1,
       Some (make_pull_request_envelope crdt_id origin_node_id gc_replica knowledge))
  | None, None => (dissemination_round, None)
  end.

Definition send_response reg (from_node : NodeId) (envelope : option Envelope) (w : W) : W :=
  match envelope with
  | Some e => (PeerRegistryImpl.send_to_peer reg from_node e w).2
  | None => w
  end.

(** *** Push *)
Record PushDissemination := mkPush { push_round : N }.

Definition push_new : PushDissemination := {| push_round := 0 |}.

Definition push_push_version_vector (self : PushDissemination) reg (origin_node_id : NodeId)
    (crdt_id : string) (gc_replica : bool) (knowledge : CausalContext) (w : W)
    : PushDissemination * W :=
  let envelope := make_pull_request_envelope crdt_id origin_node_id gc_replica knowledge in
  let '(r, w') := gossip reg (push_round self) envelope w in (mkPush r, w').

Definition push_respond_to_pull_request (self : PushDissemination) reg (from_node : NodeId)
    (crdt_id : string) (origin_node_id : NodeId) (delta_payload : option bytes)
    (gc_replica : bool) (knowledge_matrix : option MatrixClock)
    (our_knowledge : option CausalContext) (w : W) : PushDissemination * W :=
  let '(r, envelope) := push_response (push_round self) crdt_id origin_node_id delta_payload
                          gc_replica knowledge_matrix our_knowledge in
  (mkPush r, send_response reg from_node envelope w).

(** [do_pull_round] is the trait's default: nothing. *)
#[export] Instance Push_DisseminationStrategy : DisseminationStrategy PushDissemination Tx W := {|
  push_version_vector := push_push_version_vector;
  on_post_merge := push_push_version_vector;
  respond_to_pull_request := push_respond_to_pull_request;
  do_pull_round := λ self _ _ _ _ _ w, (self, w);
  get_dissemination_round := push_round
|}.

(** *** Pull *)
Record PullPeriodic := mkPull { pull_round : N; pull_interval : N }.

Definition pull_new (interval : N) : PullPeriodic :=
  {| pull_round := 0; pull_interval := interval |}.

Definition pull_respond_to_pull_request (self : PullPeriodic) reg (from_node : NodeId)
    (crdt_id : string) (origin_node_id : NodeId) (delta_payload : option bytes)
    (_gc_replica : bool) (knowledge_matrix : option MatrixClock)
    (_our_knowledge : option CausalContext) (w : W) : PullPeriodic * W :=
  (self,
   send_response reg from_node
     ((λ payload, make_crdt_op_envelope crdt_id origin_node_id payload knowledge_matrix None)
        <$> delta_payload) w).

Definition pull_do_pull_round (self : PullPeriodic) reg (node_id : NodeId) (crdt_id : string)
    (gc_replica : bool) (knowledge : CausalContext) (w : W) : PullPeriodic * W :=
  let envelope := make_pull_request_envelope crdt_id node_id gc_replica knowledge in
  let '(r, w') := gossip reg (pull_round self) envelope w in
  (mkPull r (pull_interval self), w').

(** [push_version_vector] and [on_post_merge] do nothing. *)
#[export] Instance Pull_DisseminationStrategy : DisseminationStrategy PullPeriodic Tx W := {|
  push_version_vector := λ self _ _ _ _ _ w, (self, w);
  on_post_merge := λ self _ _ _ _ _ w, (self, w);
  respond_to_pull_request := pull_respond_to_pull_request;
  do_pull_round := pull_do_pull_round;
  get_dissemination_round := pull_round
|}.

(** *** Push and pull *)
Record PushPull := mkPushPull { pp_round : N; pp_interval : N }.

Definition push_pull_new (interval : N) : PushPull :=
  {| pp_round := 0; pp_interval := interval |}.

Definition pp_push_version_vector (self : PushPull) reg (origin_node_id : NodeId)
    (crdt_id : string) (gc_replica : bool) (knowledge : CausalContext) (w : W) : PushPull * W :=
  let envelope := make_pull_request_envelope crdt_id origin_node_id gc_replica knowledge in
  let '(r, w') := gossip reg (pp_round self) envelope w in
  (mkPushPull r (pp_interval self), w').

Definition pp_respond_to_pull_request (self : PushPull) reg (from_node : NodeId)
    (crdt_id : string) (origin_node_id : NodeId) (delta_payload : option bytes)
    (gc_replica : bool) (knowledge_matrix : option MatrixClock)
    (our_knowledge : option CausalContext) (w : W) : PushPull * W :=
  let '(r, envelope) := push_response (pp_round self) crdt_id origin_node_id delta_payload
                          gc_replica knowledge_matrix our_knowledge in
  (mkPushPull r (pp_interval self), send_response reg from_node envelope w).

Definition pp_do_pull_round (self : PushPull) reg (node_id : NodeId) (crdt_id : string)
    (gc_replica : bool) (knowledge : CausalContext) (w : W) : PushPull * W :=
  let envelope := make_pull_request_envelope crdt_id node_id gc_replica knowledge in
  let '(r, w') := gossip reg (pp_round self) envelope w in
  (mkPushPull r (pp_interval self), w').

#[export] Instance PushPull_DisseminationStrategy : DisseminationStrategy PushPull Tx W := {|
  push_version_vector := pp_push_version_vector;
  on_post_merge := pp_push_version_vector;
  respond_to_pull_request := pp_respond_to_pull_request;
  do_pull_round := pp_do_pull_round;
  get_dissemination_round := pp_round
|}.
End strategies.

(** ** What the engine relies on *)
(** [w'] is [w] after advertising [envelope] to one registered peer, or to
    nobody; in the second case, the table was empty or the strategy is silent. *)
Definition gossips {Tx W} `{Channel Tx Envelope W} `{Rng W} (reg : PeerRegistry Tx)
    (envelope : Envelope) (w w' : W) : Prop :=
  w' = w ∨ ∃ r, w' = (gossip reg r envelope w).2.

(** The envelopes an answer may consist of. *)
Definition answers (crdt_id : string) (origin_node_id : NodeId) (delta_payload : option bytes)
    (gc_replica : bool) (knowledge_matrix : option MatrixClock)
    (our_knowledge : option CausalContext) (envelope : option Envelope) : Prop :=
  match delta_payload with
  | Some payload =>
      ∃ rk, (rk = None ∨ rk = our_knowledge) ∧
        envelope = Some (make_crdt_op_envelope crdt_id origin_node_id payload knowledge_matrix rk)
  | None =>
      envelope = None ∨
      ∃ K, our_knowledge = Some K ∧
        envelope = Some (make_pull_request_envelope crdt_id origin_node_id gc_replica K)
  end.

Class DisseminationOk (D Tx W : Type) `{Channel Tx Envelope W} `{Rng W}
    `{DisseminationStrategy D Tx W} := {
  push_gossips : ∀ d reg n cid gc K w,
    gossips reg (make_pull_request_envelope cid n gc K) w (push_version_vector d reg n cid gc K w).2;
  merge_gossips : ∀ d reg n cid gc K w,
    gossips reg (make_pull_request_envelope cid n gc K) w (on_post_merge d reg n cid gc K w).2;
  round_gossips : ∀ d reg n cid gc K w,
    gossips reg (make_pull_request_envelope cid n gc K) w (do_pull_round d reg n cid gc K w).2;
  respond_answers : ∀ d reg from cid n delta gc km our w, ∃ e,
    answers cid n delta gc km our e ∧
    (respond_to_pull_request d reg from cid n delta gc km our w).2 = send_response reg from e w
}.

Section lemmas.
Context {Tx W : Type} `{Channel Tx Envelope W} `{Rng W}.
Implicit Types reg : PeerRegistry Tx.

Lemma push_response_answers r cid n delta gc km our :
  answers cid n delta gc km our (push_response r cid n delta gc km our).2.
Proof. destruct delta, our; simpl; eauto. Qed.

Ltac by_gossip f := intros d *; right; exists (f d); cbn;
  unfold push_push_version_vector, pp_push_version_vector, pp_do_pull_round, pull_do_pull_round;
  by destruct (gossip _ _ _ _).

#[export] Instance Push_DisseminationOk : DisseminationOk PushDissemination Tx W.
Proof.
  split; [by_gossip push_round|by_gossip push_round|by left|].
  intros. exists (push_response (push_round d) cid n delta gc km our).2.
  split; [apply push_response_answers|]. cbn. unfold push_respond_to_pull_request.
  by destruct (push_response _ _ _ _ _ _ _).
Qed.

#[export] Instance Pull_DisseminationOk : DisseminationOk PullPeriodic Tx W.
Proof.
  split; [by left|by left|by_gossip pull_round|].
  intros. eexists. split; [|done]. destruct delta; simpl; eauto.
Qed.

#[export] Instance PushPull_DisseminationOk : DisseminationOk PushPull Tx W.
Proof.
  split; [by_gossip pp_round..|].
  intros. exists (push_response (pp_round d) cid n delta gc km our).2.
  split; [apply push_response_answers|]. cbn. unfold pp_respond_to_pull_request.
  by destruct (push_response _ _ _ _ _ _ _).
Qed.
End lemmas.

(** ** Properties *)
Section theorems.
Context {Tx W : Type} `{Channel Tx Envelope W} `{!Rng W} `{EqDecision Tx}
  {queued : W → Tx → list Envelope} {has_room : W → Tx → bool}
  `{!ChannelOk Tx Envelope W queued has_room} `{!RngOk Tx W queued has_room}.
Implicit Types reg : PeerRegistry Tx.

(** What a send to a registered peer leaves in every channel. *)
Lemma send_to_peer_queued reg n g h e w c :
  peers reg !! n = Some (g, h) →
  queued (PeerRegistryImpl.send_to_peer reg n e w).2 c =
    queued w c ++ (if decide (c = tx h) then if has_room w c then [e] else [] else []).
Proof.
  intros Hn. destruct (send_to_peer_registered reg n g h e w Hn) as [-> _].
  rewrite (try_send_queued (has_room := has_room)). case_decide; by subst.
Qed.

(** Gossip (a pushed version vector or a pull round) sends the request to
    exactly one registered peer and counts a round; with nobody registered it
    sends nothing and counts nothing.  No other channel is touched, so the
    documented broadcast to every peer does not happen. *)
Theorem gossip_reaches_one_peer (self : PushPull) reg n cid gc K w :
  let e := make_pull_request_envelope cid n gc K in
  let '(self', w') := push_version_vector self reg n cid gc K w in
  do_pull_round self reg n cid gc K w = (self', w') ∧
  on_post_merge self reg n cid gc K w = (self', w') ∧
  if decide (peers reg = ∅)
  then self' = self ∧ ∀ c, queued w' c = queued w c
  else pp_round self' = u64_add (pp_round self) 1 ∧
       ∃ m g h, peers reg !! m = Some (g, h) ∧
         ∀ c, queued w' c =
           queued w c ++ (if decide (c = tx h) then if has_room w c then [e] else [] else []).
Proof.
  cbn. unfold pp_do_pull_round, pp_push_version_vector. destruct (gossip _ _ _ _) as [r w'] eqn:Hg.
  split_and!; [done..|]. unfold gossip in Hg. pose proof (choose_queues (has_room := has_room)
    (PeerRegistryImpl.peer_ids reg) w) as Hq.
  destruct (choose (PeerRegistryImpl.peer_ids reg) w) as [[m|] w1] eqn:Hc; simplify_eq; simpl in *.
  - assert (m ∈ PeerRegistryImpl.peer_ids reg) as Hm.
    { apply (choose_elem (Tx := Tx) _ w). by rewrite Hc. }
    apply elem_of_peer_ids in Hm as [[g h] Hm]. rewrite decide_False.
    2: { intros Hemp. by rewrite Hemp, lookup_empty in Hm. }
    split; [done|]. exists m, g, h. split; [done|]. intros c.
    rewrite (send_to_peer_queued _ _ g h) by done. destruct (Hq c) as [-> ->]. done.
  - assert (PeerRegistryImpl.peer_ids reg = []) as Hnil.
    { apply (choose_none (Tx := Tx) _ w). by rewrite Hc. }
    rewrite decide_True; [split; [by destruct self|apply Hq]|].
    apply map_eq. intros m. rewrite lookup_empty. apply eq_None_not_Some.
    rewrite <- elem_of_peer_ids, Hnil. set_solver.
Qed.

(** What each strategy answers a pull request with: the pushing
    strategies send the delta, with their own request piggybacked when they are
    behind, or the request alone, counting a round when they ask; the pull-only
    strategy sends the delta or nothing and never asks.  The answer is queued
    at the requester and nowhere else. *)
Theorem answer_goes_to_the_requester reg from g h cid n delta gc km our w c rd iv :
  peers reg !! from = Some (g, h) →
  let op K := make_crdt_op_envelope cid n (default [] delta) km K in
  let asked := match delta, our with
               | Some _, _ => [op our]
               | None, Some K => [make_pull_request_envelope cid n gc K]
               | None, None => []
               end in
  let round := match our with Some _ => u64_add rd 1 | None => rd end in
  let at_requester l := queued w c ++ (if decide (c = tx h) then if has_room w c then l else [] else []) in
  let '(pp, w1) := respond_to_pull_request (mkPushPull rd iv) reg from cid n delta gc km our w in
  let '(pu, w2) := respond_to_pull_request (mkPush rd) reg from cid n delta gc km our w in
  let '(pl, w3) := respond_to_pull_request (mkPull rd iv) reg from cid n delta gc km our w in
  (queued w1 c = at_requester asked ∧ pp = mkPushPull round iv) ∧
  (queued w2 c = at_requester asked ∧ pu = mkPush round) ∧
  (queued w3 c = at_requester (match delta with Some _ => [op None] | None => [] end) ∧
   pl = mkPull rd iv).
Proof.
  intros Hfrom. cbn.
  unfold pp_respond_to_pull_request, push_respond_to_pull_request, pull_respond_to_pull_request.
  destruct delta, our; simpl; rewrite ?(send_to_peer_queued _ _ g h) by done;
    repeat case_decide; repeat case_match; by rewrite ?app_nil_r.
Qed.
End theorems.

(** ** A concrete world *)
(** Bounded queues, with a random source that takes the first entry. *)
#[export] Instance first_rng : Rng Queues := {| choose := λ l w, (head l, w) |}.

#[export] Instance first_rng_ok : RngOk nat Queues queues_queued queues_room.
Proof. split; [by intros [] ? ? [= ->]; set_solver|by intros []|done]. Qed.

Lemma answer_goes_to_the_requester_witness :
  queues_queued (respond_to_pull_request (D := PushPull) (mkPushPull 0 1) two_peers "B" "default-orset" "C"
    (Some []) false None (Some ∅) two_queues).2 2%nat =
  [make_crdt_op_envelope "default-orset" "C" [] None (Some ∅)].
Proof.
  exact (proj1 (proj1 (answer_goes_to_the_requester (queued := queues_queued)
    (has_room := queues_room) two_peers "B" false (mkPeerHandle 2%nat) "default-orset" "C"
    (Some []) false None (Some ∅) two_queues 2%nat 0 1 eq_refl))).
Defined.

Lemma gossip_reaches_one_peer_witness :
  pp_round (push_version_vector (mkPushPull 4 1) two_peers "C" "default-orset" false ∅ two_queues).1 = 5 ∧
  ∃ m g h, peers two_peers !! m = Some (g, h) ∧
    ∀ c, queues_queued (push_version_vector (mkPushPull 4 1) two_peers "C" "default-orset" false ∅
           two_queues).2 c =
      queues_queued two_queues c ++
      (if decide (c = tx h) then if queues_room two_queues c
       then [make_pull_request_envelope "default-orset" "C" false ∅] else [] else []).
Proof.
  pose proof (gossip_reaches_one_peer (queued := queues_queued) (has_room := queues_room)
    (mkPushPull 4 1) two_peers "C" "default-orset" false ∅ two_queues) as Hg.
  exact (proj2 (proj2 Hg)).
Defined.
