(* ===== verification/GcStorage.v ===== *)
(** * The durable state of garbage collection ([src/src/gc/storage.rs])

    The records kept in storage and the trait [GcStorage], whose methods (with
    the membership query of the coordinator and its sleeps) are the calls of an
    effect signature.  A method of the coordinator is a [Prog]: a tree of calls
    and continuations, so that the same definition can be run alone
    ([run_prog]), or interleaved call by call with other replicas
    ([Coordinator]).  [Store] is the abstract specification of the storage. *)
From Stdlib Require Import Strings.Byte Strings.String.
From stdpp Require Import base gmap sets list strings fin_maps.
From S2P Require Import Prelude Clocks.
Local Open Scope N_scope.

(** ** Records *)
Record EpochMetadata := mkEpochMetadata {
  em_epoch : N;
  em_v_stable : CausalContext;
  em_obsolete_dots : gset NodeId
}.

Record EpochState := mkEpochState {
  es_epoch : N;
  es_initiator_clock : CausalContext;
  es_state_payload : bytes
}.

Record GcIntentRecord := mkGcIntentRecord {
  gi_epoch : N;
  gi_initiator : NodeId
}.

#[export] Instance GcIntentRecord_eq_dec : EqDecision GcIntentRecord.
Proof. solve_decision. Defined.

(** ** Calls *)
(** The methods of [GcStorage], the query of the live node ids in discovery, and
    [tokio::time::sleep] in milliseconds. *)
Inductive StorageCall : Type :=
| ReadEpochMetadata
| ReadEpochState
| WriteEpochMetadata (m : EpochMetadata)
| WriteEpochState (s : EpochState)
| ReadFinalDots
| ClaimGcIntent (epoch : N) (initiator : NodeId)
| ReadGcIntent (epoch : N)
| ReleaseGcIntent (epoch : N)
| ListLiveNodeIds
| Sleep (ms : N).

Definition resp (c : StorageCall) : Type :=
  match c with
  | ReadEpochMetadata => EpochMetadata
  | ReadEpochState => EpochState
  | WriteEpochMetadata _ | WriteEpochState _ | ReleaseGcIntent _ | Sleep _ => unit
  | ReadFinalDots => gmap NodeId Counter
  | ClaimGcIntent _ _ => bool
  | ReadGcIntent _ => option GcIntentRecord
  | ListLiveNodeIds => list NodeId
  end.

(** ** Programs *)
(** [OutOfFuel] marks a loop that was not run to its end. *)
Inductive Prog (A : Type) : Type :=
| Ret (a : A)
| Call (c : StorageCall) (k : result (resp c) → Prog A)
| OutOfFuel.
Arguments Ret {A} a.
Arguments Call {A} c k.
Arguments OutOfFuel {A}.

Fixpoint prog_bind {A B} (f : A → Prog B) (p : Prog A) : Prog B :=
  match p with
  | Ret a => f a
  | Call c k => Call c (λ r, prog_bind f (k r))
  | OutOfFuel => OutOfFuel
  end.

(** An implementation answers a call in a world [W] (which may also move on by
    itself between calls). *)
Definition Exec (W : Type) : Type := ∀ c : StorageCall, W → result (resp c) * W.

Fixpoint run_prog {A W} (exec : Exec W) (p : Prog A) (w : W) : option (A * W) :=
  match p with
  | Ret a => Some (a, w)
  | Call c k => let '(r, w') := exec c w in run_prog exec (k r) w'
  | OutOfFuel => None
  end.

Lemma run_prog_bind {A B W} (exec : Exec W) (f : A → Prog B) (p : Prog A) w :
  run_prog exec (prog_bind f p) w =
    '(a, w') ← run_prog exec p w; run_prog exec (f a) w'.
Proof.
  revert w. induction p as [a|c k IH|]; intros w; simpl; [done| |done].
  destruct (exec c w) as [r w']. apply IH.
Qed.

(** ** The specification of the storage *)
(** Default records are read while nothing has been written. *)
Record Store := mkStore {
  st_metadata : option EpochMetadata;
  st_state : option EpochState;
  st_intents : gmap N GcIntentRecord;
  st_final_dots : gmap NodeId Counter;
  st_members : list NodeId
}.

Definition default_metadata : EpochMetadata :=
  {| em_epoch := 0; em_v_stable := ∅; em_obsolete_dots := ∅ |}.

Definition default_state : EpochState :=
  {| es_epoch := 0; es_initiator_clock := ∅; es_state_payload := [] |}.

(** The contract of the trait: reads return what was last written, an intent
    is claimed only when nobody holds it, and a release frees it. *)
Definition store_exec : Exec Store := λ c st,
  match c with
  | ReadEpochMetadata => (Ok (default default_metadata (st_metadata st)), st)
  | ReadEpochState => (Ok (default default_state (st_state st)), st)
  | WriteEpochMetadata m =>
      (Ok tt, mkStore (Some m) (st_state st) (st_intents st) (st_final_dots st) (st_members st))
  | WriteEpochState s =>
      (Ok tt, mkStore (st_metadata st) (Some s) (st_intents st) (st_final_dots st) (st_members st))
  | ReadFinalDots => (Ok (st_final_dots st), st)
  | ClaimGcIntent epoch initiator =>
      match st_intents st !! epoch with
      | Some _ => (Ok false, st)
      | None =>
          (Ok true,
           mkStore (st_metadata st) (st_state st)
             (<[epoch := {| gi_epoch := epoch; gi_initiator := initiator |}]> (st_intents st))
             (st_final_dots st) (st_members st))
      end
  | ReadGcIntent epoch => (Ok (st_intents st !! epoch), st)
  | ReleaseGcIntent epoch =>
      (Ok tt, mkStore (st_metadata st) (st_state st) (delete epoch (st_intents st))
                (st_final_dots st) (st_members st))
  | ListLiveNodeIds => (Ok (st_members st), st)
  | Sleep _ => (Ok tt, st)
  end.
