(* ===== verification/Coordinator.v ===== *)
(** * The garbage-collection coordinator ([src/src/gc/coordinator.rs])

    The matrix clock, the stable timestamp, and the protocol that replicas run
    over the shared storage: initiating a collection, observing an epoch, and
    bootstrapping a new replica.  The methods are programs of [GcStorage] over
    the local state of a replica (the coordinator, the CRDT and the vector),
    which keep the changes made before a failing call.  They are written
    against the class [DeltaCrdt], as in the source. *)
From Stdlib Require Import Strings.Byte Strings.String.
From stdpp Require Import base gmap sets list strings fin_maps sorting relations.
From S2P Require Import Prelude Clocks Proto Crdt Registry Dissemination GcStorage.
Local Open Scope N_scope.
Local Open Scope rust_scope.

(** ** Configuration and state ([src/src/gc/mod.rs]) *)
Record GcReplicaConfig := mkGcReplicaConfig { initiate_interval : N }.

Record GcStorageConfig := mkGcStorageConfig { cfg_bucket : string; cfg_prefix : string }.

Record GcConfig := mkGcConfig {
  gc_replica : bool;
  observe_interval : N;
  storage_config : GcStorageConfig;
  gc_replica_config : option GcReplicaConfig
}.

Inductive GcInitiationAbortReason : Type :=
| MembershipChange
| NoProgress
| ConcurrentInitiator.

(** The registry is shared with the network and given to the operations that
    read it; the storage and the membership provider are the calls. *)
Record GcCoordinator := mkGcCoordinator {
  epoch : N;
  config : GcConfig;
  matrix_clock : option MatrixClock
}.

Record Local (C : Type) := mkLocal {
  l_gc : GcCoordinator;
  l_crdt : C;
  l_dvv : DotVersionVector
}.
Arguments mkLocal {C}.
Arguments l_gc {C}.
Arguments l_crdt {C}.
Arguments l_dvv {C}.

(** ** The monad of the methods *)
Definition GcM (C A : Type) : Type := Local C → Prog (result A * Local C).

Section monad.
Context {C A B : Type}.

Definition gc_ret (a : A) : GcM C A := λ l, Ret (Ok a, l).

(** [m?] followed by [f]: an error returns with the state reached so far. *)
Definition gc_bind (m : GcM C A) (f : A → GcM C B) : GcM C B := λ l,
  prog_bind (λ p : result A * Local C,
    match p.1 with
    | Ok a => f a p.2
    | Err e => Ret (Err e, p.2)
    end) (m l).

Definition gc_lift (r : result A) : GcM C A := λ l, Ret (r, l).

Definition gc_out_of_fuel : GcM C A := λ _, OutOfFuel.
End monad.

Section calls.
Context {C : Type}.

Definition gc_get : GcM C (Local C) := λ l, Ret (Ok l, l).

Definition gc_modify (f : Local C → Local C) : GcM C unit := λ l, Ret (Ok tt, f l).

(** [call().await?] *)
Definition gc_call (c : StorageCall) : GcM C (resp c) := λ l, Call c (λ r, Ret (r, l)).

(** [if let Err(e) = call().await { warn!(..) }], and calls that cannot fail. *)
Definition gc_try (c : StorageCall) : GcM C unit := λ l, Call c (λ _, Ret (Ok tt, l)).
End calls.

Notation "x '<-!' m ';;' k" := (gc_bind m (λ x, k))
  (at level 100, m at next level, right associativity) : rust_scope.

(** ** Membership *)
Definition live_members {C} : GcM C (list NodeId) := λ l,
  Call ListLiveNodeIds (λ r,
    match r with
    | Ok regs => Ret (Ok (dedup (sort_ids regs)), l)
    | Err e => Ret (Err ("failed to fetch live members from discovery: " ++ e)%string, l)
    end).

Definition new_member_exists (old new : list NodeId) : bool :=
  let old_set : gset NodeId := list_to_set old in
  existsb (λ node, negb (bool_decide (node ∈ old_set))) new.

(** ** The matrix clock *)
Module GcCoordinatorImpl.

Definition new (cfg : GcConfig) : GcCoordinator :=
  {| epoch := 0; config := cfg;
     matrix_clock := if gc_replica cfg then Some ∅ else None |}.

Definition initiate_interval (self : GcCoordinator) : option N :=
  initiate_interval <$> gc_replica_config (config self).

Definition observe_interval (self : GcCoordinator) : N := observe_interval (config self).

Definition set_matrix (self : GcCoordinator) (mc : MatrixClock) : GcCoordinator :=
  {| epoch := epoch self; config := config self; matrix_clock := Some mc |}.

Definition set_epoch (self : GcCoordinator) (n : N) : GcCoordinator :=
  {| epoch := n; config := config self; matrix_clock := matrix_clock self |}.

(** The [unwrap] of the clock cannot fail in a GC replica ([coordinator_ok]);
    the other branch is never taken. *)
Definition with_matrix (f : MatrixClock → MatrixClock) (self : GcCoordinator) : GcCoordinator :=
  if negb (gc_replica (config self)) then self
  else match matrix_clock self with
       | Some mc => set_matrix self (f mc)
       | None => self
       end.

Definition update_entry (mc : MatrixClock) (e : NodeId * CausalContext) : MatrixClock :=
  match mc !! e.1 with
  | Some ctx => <[e.1 := vv_join e.2 ctx]> mc
  | None => <[e.1 := e.2]> mc
  end.

Definition update_matrix_clock (knowledge_matrix : MatrixClock) : GcCoordinator → GcCoordinator :=
  with_matrix (λ mc, foldl update_entry mc (map_to_list knowledge_matrix)).

Definition remove_matrix_clock_row (node_id : NodeId) : GcCoordinator → GcCoordinator :=
  with_matrix (delete node_id).

Definition remove_matrix_clock_column (node_id : NodeId) : GcCoordinator → GcCoordinator :=
  with_matrix (fmap (M := gmap NodeId) (delete node_id)).

Definition get_knowledge_matrix {Tx} (self : GcCoordinator) (registry : PeerRegistry Tx)
    : option MatrixClock :=
  if negb (gc_replica (config self)) then None
  else
    let non_gc_peers := PeerRegistryImpl.get_all_non_gc_replicas registry in
    match matrix_clock self with
    | None => None
    | Some matrix_clock =>
        Some (foldl (λ km node, match matrix_clock !! node with
                                | Some ctx => <[node := ctx]> km
                                | None => km
                                end) ∅ non_gc_peers)
    end.

(** The text of the clock is the standard library's debug format. *)
Definition print_matrix_clock (debug : MatrixClock → string) (self : GcCoordinator) : string :=
  if negb (gc_replica (config self)) then "Matrix Clock: GC replica disabled"
  else match matrix_clock self with
       | Some mc => "Matrix Clock: " ++ debug mc
       | None => "" (* unreachable *)
       end.

(** ** The stable timestamp *)
(** The loop over the members; [None] is the early return for a member without
    a row.  ([v_merge] of the source is never read.) *)
Fixpoint meet_members (mc : MatrixClock) (node_id : NodeId) (self_clock : CausalContext)
    (members : list NodeId) (v_live : option CausalContext) : option (option CausalContext) :=
  match members with
  | [] => Some v_live
  | p :: members' =>
      match (if decide (p = node_id) then Some self_clock else mc !! p) with
      | Some ctx =>
          meet_members mc node_id self_clock members'
            (Some match v_live with
                  | None => ctx
                  | Some acc => vv_meet acc ctx
                  end)
      | None => None
      end
  end.

Definition compute_stable_timestamp (self : GcCoordinator) (node_id : NodeId)
    (members : list NodeId) (final_dots : gmap NodeId Counter) (self_clock : CausalContext)
    : CausalContext * gset NodeId :=
  match matrix_clock self with
  | None => (∅, ∅)
  | Some mc =>
      match meet_members mc node_id self_clock members None with
      | None => (∅, ∅)
      | Some v_live =>
          let v_live := default ∅ v_live in
          let non_members : gset NodeId :=
            filter (λ p, p ∉ members) (dom mc ∪ dom v_live) in
          let obsolete := filter (λ p, final_dots !! p = v_live !! p) non_members in
          let pending := filter (λ p, final_dots !! p ≠ v_live !! p) non_members in
          (foldl (λ v p, match mc !! p with
                         | Some ctx => vv_meet v ctx
                         | None => v
                         end) v_live (elements pending),
           obsolete)
      end
  end.

(** ** The protocol *)
Section protocol.
Context {C Op Delta : Type} `{DeltaCrdt C Op Delta}.

Definition update_gc (f : GcCoordinator → GcCoordinator) : GcM C unit :=
  gc_modify (λ l, mkLocal (f (l_gc l)) (l_crdt l) (l_dvv l)).

Definition update_crdt (f : C → C) : GcM C unit :=
  gc_modify (λ l, mkLocal (l_gc l) (f (l_crdt l)) (l_dvv l)).

Definition update_dvv (f : DotVersionVector → DotVersionVector) : GcM C unit :=
  gc_modify (λ l, mkLocal (l_gc l) (l_crdt l) (f (l_dvv l))).

(** The reads that the metrics line makes; its result is discarded. *)
Definition log_metrics (node_id : NodeId) : GcM C CausalContext :=
  l <-! gc_get ;;
  if negb (gc_replica (config (l_gc l))) then gc_ret ∅
  else match matrix_clock (l_gc l) with
       | Some _ =>
           m1 <-! live_members ;;
           final_dots <-! gc_call ReadFinalDots ;;
           gc_ret (compute_stable_timestamp (l_gc l) node_id m1 final_dots
                     (Dvv.effective_map (l_dvv l))).1
       | None => gc_ret ∅
       end.

Definition drop_departed (l : Local C) (p : NodeId) : Local C :=
  mkLocal
    (if gc_replica (config (l_gc l))
     then remove_matrix_clock_column p (remove_matrix_clock_row p (l_gc l))
     else l_gc l)
    (l_crdt l) (Dvv.remove (l_dvv l) p).

Definition observe_epoch_change (node_id : NodeId) : GcM C bool :=
  epoch_state <-! gc_call ReadEpochMetadata ;;
  let current_epoch := em_epoch epoch_state in
  l <-! gc_get ;;
  if current_epoch <=? epoch (l_gc l) then gc_ret false
  else
    let frontier := frontier_dvv node_id (em_v_stable epoch_state) in
    _ <-! update_crdt (λ crdt, perform_gc crdt frontier) ;;
    _ <-! update_gc (λ gc, set_epoch gc current_epoch) ;;
    _ <-! gc_modify (λ l, foldl drop_departed l (elements (em_obsolete_dots epoch_state))) ;;
    gc_ret true.

(** One pass of the loop that forgets the obsolete nodes. *)
Definition forget (s : Local C * CausalContext) (p : NodeId) : Local C * CausalContext :=
  (mkLocal (remove_matrix_clock_column p (remove_matrix_clock_row p (l_gc s.1)))
     (l_crdt s.1) (Dvv.remove (l_dvv s.1) p),
   delete p s.2).

(** The local part of a collection: forgetting the obsolete nodes, collecting
    under the frontier and recording the state. *)
Definition collect (node_id : NodeId) (n : N) (v_stable : CausalContext)
    (obsolete : gset NodeId) : GcM C (EpochState * EpochMetadata) := λ l,
  let '(l, v_stable) := foldl forget (l, v_stable) (elements obsolete) in
  let frontier := frontier_dvv node_id v_stable in
  let crdt := perform_gc (l_crdt l) frontier in
  let gc_state_payload := encode_delta (full_state crdt (l_dvv l)) in
  Ret (Ok ({| es_epoch := n; es_initiator_clock := Dvv.effective_map (l_dvv l);
              es_state_payload := gc_state_payload |},
           {| em_epoch := n; em_v_stable := v_stable; em_obsolete_dots := obsolete |}),
       mkLocal (l_gc l) crdt (l_dvv l)).

Definition initiate_gc (node_id : NodeId) : GcM C (option GcInitiationAbortReason) :=
  epoch_state <-! gc_call ReadEpochMetadata ;;
  let n := u64_add (em_epoch epoch_state) 1 in
  m0 <-! live_members ;;
  claimed <-! gc_call (ClaimGcIntent n node_id) ;;
  if negb claimed then gc_ret (Some ConcurrentInitiator)
  else
    m1 <-! live_members ;;
    if new_member_exists m0 m1 then
      _ <-! gc_try (ReleaseGcIntent n) ;;
      gc_ret (Some MembershipChange)
    else
      final_dots <-! gc_call ReadFinalDots ;;
      l <-! gc_get ;;
      let '(v_stable, obsolete) :=
        compute_stable_timestamp (l_gc l) node_id m1 final_dots (Dvv.effective_map (l_dvv l)) in
      if vv_leq v_stable (em_v_stable epoch_state) then
        _ <-! gc_try (ReleaseGcIntent n) ;;
        gc_ret (Some NoProgress)
      else
        records <-! collect node_id n v_stable obsolete ;;
        _ <-! gc_call (WriteEpochState records.1) ;;
        _ <-! gc_call (WriteEpochMetadata records.2) ;;
        _ <-! update_gc (λ gc, set_epoch gc n) ;;
        _ <-! gc_try (ReleaseGcIntent n) ;;
        gc_ret None.

Definition GC_INTENT_POLL_INTERVAL_MS : N := 200.

(** The loop that waits for the next epoch or for the intent to go. *)
Fixpoint await_intent (fuel : nat) (next_epoch current_epoch : N) : GcM C N :=
  match fuel with
  | O => gc_out_of_fuel
  | S fuel' =>
      _ <-! gc_try (Sleep GC_INTENT_POLL_INTERVAL_MS) ;;
      new_epoch_metadata <-! gc_call ReadEpochMetadata ;;
      let new_epoch := em_epoch new_epoch_metadata in
      intent <-! gc_call (ReadGcIntent next_epoch) ;;
      if (current_epoch <? new_epoch) || bool_decide (intent = None) then gc_ret new_epoch
      else await_intent fuel' next_epoch current_epoch
  end.

(** The loop that waits for the state of the epoch. *)
Fixpoint await_state (fuel : nat) (current_epoch : N) : GcM C EpochState :=
  match fuel with
  | O => gc_out_of_fuel
  | S fuel' =>
      epoch_state <-! gc_call ReadEpochState ;;
      if es_epoch epoch_state =? current_epoch then gc_ret epoch_state
      else
        _ <-! gc_try (Sleep GC_INTENT_POLL_INTERVAL_MS) ;;
        await_state fuel' current_epoch
  end.

Definition new_replica_bootstrap (fuel : nat) (node_id : NodeId) : GcM C unit :=
  epoch_metadata <-! gc_call ReadEpochMetadata ;;
  let current_epoch := em_epoch epoch_metadata in
  let next_epoch := u64_add current_epoch 1 in
  intent <-! gc_call (ReadGcIntent next_epoch) ;;
  current_epoch <-! match intent with
                    | Some _ => await_intent fuel next_epoch current_epoch
                    | None => gc_ret current_epoch
                    end ;;
  epoch_state <-! await_state fuel current_epoch ;;
  let frontier := frontier_dvv node_id (es_initiator_clock epoch_state) in
  delta <-! gc_lift (decode_delta (es_state_payload epoch_state)) ;;
  _ <-! update_crdt (λ crdt, merge_delta crdt delta) ;;
  _ <-! update_dvv (λ dvv, Dvv.merge dvv frontier) ;;
  update_gc (λ gc, set_epoch gc current_epoch).
End protocol.
End GcCoordinatorImpl.

(** ** Lemmas *)
(** *** Membership *)
Lemma new_member_exists_spec old new :
  new_member_exists old new = true ↔ ∃ p, p ∈ new ∧ p ∉ old.
Proof.
  unfold new_member_exists. rewrite existsb_exists. setoid_rewrite <- list_elem_of_In.
  setoid_rewrite negb_true_iff. setoid_rewrite bool_decide_eq_false.
  setoid_rewrite elem_of_list_to_set. done.
Qed.

Lemma new_member_exists_refl l : new_member_exists l l = false.
Proof. apply not_true_iff_false. rewrite new_member_exists_spec. naive_solver. Qed.

(** *** The matrix clock *)
Definition coordinator_ok (self : GcCoordinator) : Prop :=
  gc_replica (config self) = true ↔ is_Some (matrix_clock self).

(** The row of a node; a node without a row has no known event. *)
Definition row (self : GcCoordinator) (p : NodeId) : CausalContext :=
  default ∅ (default (∅ : MatrixClock) (matrix_clock self) !! p).

Lemma update_loop_lookup (l : list (NodeId * CausalContext)) (mc : MatrixClock) p :
  NoDup l.*1 →
  foldl GcCoordinatorImpl.update_entry mc l !! p =
    match (list_to_map l : MatrixClock) !! p, mc !! p with
    | Some ctx, Some old => Some (vv_join ctx old)
    | Some ctx, None => Some ctx
    | None, old => old
    end.
Proof.
  revert mc. induction l as [|[q ctx] l IH]; intros mc; simpl.
  - intros _. rewrite lookup_empty. by destruct (mc !! p).
  - intros [Hni Hnd]%NoDup_cons. rewrite IH by done.
    assert ((list_to_map l : MatrixClock) !! q = None) as Hq by (by apply not_elem_of_list_to_map_1).
    unfold GcCoordinatorImpl.update_entry; simpl.
    destruct (decide (p = q)) as [->|Hne].
    + rewrite Hq, lookup_insert_eq. destruct (mc !! q); by rewrite lookup_insert_eq.
    + rewrite lookup_insert_ne by done.
      destruct (mc !! q); by rewrite lookup_insert_ne by done.
Qed.

Lemma lookup_update_matrix km self p :
  coordinator_ok self → gc_replica (config self) = true →
  matrix_clock (GcCoordinatorImpl.update_matrix_clock km self) =
    Some (foldl GcCoordinatorImpl.update_entry (default ∅ (matrix_clock self)) (map_to_list km)) ∧
  default (∅ : MatrixClock) (matrix_clock (GcCoordinatorImpl.update_matrix_clock km self)) !! p =
    match km !! p, default (∅ : MatrixClock) (matrix_clock self) !! p with
    | Some ctx, Some old => Some (vv_join ctx old)
    | Some ctx, None => Some ctx
    | None, old => old
    end.
Proof.
  intros [Hok _] Hgc. destruct (Hok Hgc) as [mc Hmc].
  unfold GcCoordinatorImpl.update_matrix_clock, GcCoordinatorImpl.with_matrix.
  rewrite Hgc, Hmc; simpl. split; [done|].
  rewrite update_loop_lookup by apply NoDup_fst_map_to_list. by rewrite list_to_map_to_list.
Qed.

(** *** The stable timestamp *)
(** The clock a member is counted with. *)
Definition member_clock (mc : MatrixClock) (node_id : NodeId) (self_clock : CausalContext)
    (p : NodeId) : option CausalContext :=
  if decide (p = node_id) then Some self_clock else mc !! p.

(** [v] is the greatest lower bound of the clocks that [P] selects. *)
Definition is_meet (P : CausalContext → Prop) (v : CausalContext) : Prop :=
  (∀ ctx, P ctx → v ⊑c ctx) ∧ ∀ c, (∀ ctx, P ctx → c ⊑c ctx) → c ⊑c v.

Lemma meet_members_None mc n sc ms acc :
  GcCoordinatorImpl.meet_members mc n sc ms acc = None ↔
    ∃ p, p ∈ ms ∧ member_clock mc n sc p = None.
Proof.
  revert acc. induction ms as [|q ms IH]; intros acc; simpl; [set_solver|].
  fold (member_clock mc n sc q). destruct (member_clock mc n sc q) as [ctx|] eqn:Hq.
  - rewrite IH. split; [set_solver|]. intros (p & [->|]%elem_of_cons & ?); [congruence|eauto].
  - split; [|done]. intros _. exists q. set_solver.
Qed.

Lemma meet_members_nonempty mc n sc ms acc v :
  GcCoordinatorImpl.meet_members mc n sc ms acc = Some v →
  v = None ↔ acc = None ∧ ms = [].
Proof.
  revert acc. induction ms as [|q ms IH]; intros acc; simpl; [naive_solver|].
  case_match; [|done]. intros Hm. rewrite (IH _ Hm). naive_solver.
Qed.

Lemma meet_members_is_meet mc n sc ms acc v :
  GcCoordinatorImpl.meet_members mc n sc ms acc = Some (Some v) →
  is_meet (λ ctx, acc = Some ctx ∨ ∃ p, p ∈ ms ∧ member_clock mc n sc p = Some ctx) v.
Proof.
  revert acc. induction ms as [|q ms IH]; intros acc; simpl.
  - intros [= ->]. split; [|eauto]. intros ctx [[= ->]|(p & Hp & _)]; [done|set_solver].
  - fold (member_clock mc n sc q).
    destruct (member_clock mc n sc q) as [cq|] eqn:Hq; [|done].
    intros [Hlow Hglb]%IH. split.
    + intros ctx [->|(p & [->|Hp]%elem_of_cons & Hctx)].
      * etrans; [by apply Hlow; left|apply vv_meet_le_l].
      * rewrite Hq in Hctx; simplify_eq. etrans; [by apply Hlow; left|].
        destruct acc; [apply vv_meet_le_r|done].
      * apply Hlow. right. eauto.
    + intros c Hc. apply Hglb. intros ctx [[= <-]|(p & Hp & Hctx)].
      * destruct acc as [a|]; [apply vv_meet_glb|]; apply Hc; [by left| |];
          right; exists q; set_solver.
      * apply Hc. right. exists p. set_solver.
Qed.

Lemma meet_pending_is_meet (mc : MatrixClock) l v :
  is_meet (λ ctx, ctx = v ∨ ∃ p, p ∈ l ∧ mc !! p = Some ctx)
    (foldl (λ v p, match mc !! p with Some ctx => vv_meet v ctx | None => v end) v l).
Proof.
  revert v. induction l as [|p l IH]; intros v; simpl.
  - split; [|eauto]. intros ctx [->|(p & Hp & _)]; [done|set_solver].
  - destruct (IH match mc !! p with Some ctx => vv_meet v ctx | None => v end) as [Hlow Hglb].
    split.
    + intros ctx [->|(q & [->|Hq]%elem_of_cons & Hctx)].
      * etrans; [by apply Hlow; left|]. destruct (mc !! p); [apply vv_meet_le_l|done].
      * etrans; [by apply Hlow; left|]. rewrite Hctx. apply vv_meet_le_r.
      * apply Hlow. eauto.
    + intros c Hc. apply Hglb. intros ctx [->|(q & Hq & Hctx)].
      * destruct (mc !! p) as [cp|] eqn:Hp; [apply vv_meet_glb|]; apply Hc; [by left| |by left].
        right. exists p. set_solver.
      * apply Hc. right. exists q. set_solver.
Qed.

(** Members that have no entry for [k] have none in their meet. *)
Lemma meet_members_absent mc n sc ms acc v k :
  GcCoordinatorImpl.meet_members mc n sc ms acc = Some (Some v) →
  (∀ a, acc = Some a → a !! k = None) →
  (∀ p ctx, p ∈ ms → member_clock mc n sc p = Some ctx → ctx !! k = None) →
  v !! k = None.
Proof.
  revert acc. induction ms as [|q ms IH]; intros acc; simpl; [intros [= ->]; eauto|].
  fold (member_clock mc n sc q). destruct (member_clock mc n sc q) as [cq|] eqn:Hq; [|done].
  intros Hm Hacc Hall. assert (cq !! k = None) as Hcq by (eapply Hall; [by left|done]).
  eapply IH; [exact Hm| |intros p ctx Hp; by apply Hall; right].
  intros a [= <-]. destruct acc as [a|]; [|done].
  rewrite lookup_vv_meet. replace (get_or0 cq k) with 0 by (unfold get_or0; by rewrite Hcq).
  by rewrite N.min_0_r.
Qed.

(** The clocks that bound the frontier: those of the members and those of the
    departed nodes that are still pending. *)
Definition bounds_frontier (mc : MatrixClock) (n : NodeId) (sc : CausalContext)
    (members : list NodeId) (obsolete : gset NodeId) (ctx : CausalContext) : Prop :=
  (∃ p, p ∈ members ∧ member_clock mc n sc p = Some ctx) ∨
  (∃ p, p ∉ members ∧ p ∉ obsolete ∧ mc !! p = Some ctx).

Lemma compute_early self mc n ms fd sc :
  matrix_clock self = Some mc → (∃ p, p ∈ ms ∧ member_clock mc n sc p = None) →
  GcCoordinatorImpl.compute_stable_timestamp self n ms fd sc = (∅, ∅).
Proof.
  intros Hmc Hp. unfold GcCoordinatorImpl.compute_stable_timestamp. rewrite Hmc.
  by apply (meet_members_None _ _ _ _ None) in Hp as ->.
Qed.

Lemma compute_full self mc n ms fd sc v obsolete :
  matrix_clock self = Some mc → ms ≠ [] →
  (∀ p, p ∈ ms → is_Some (member_clock mc n sc p)) →
  GcCoordinatorImpl.compute_stable_timestamp self n ms fd sc = (v, obsolete) →
  ∃ v_live,
    is_meet (λ ctx, ∃ p, p ∈ ms ∧ member_clock mc n sc p = Some ctx) v_live ∧
    (∀ p, p ∈ obsolete ↔ p ∉ ms ∧ (p ∈ dom mc ∨ p ∈ dom v_live) ∧ fd !! p = v_live !! p) ∧
    is_meet (bounds_frontier mc n sc ms obsolete) v.
Proof.
  intros Hmc Hne Hall. unfold GcCoordinatorImpl.compute_stable_timestamp. rewrite Hmc.
  destruct (GcCoordinatorImpl.meet_members mc n sc ms None) as [[v_live|]|] eqn:Hm.
  - pose proof (meet_members_is_meet _ _ _ _ _ _ Hm) as [Hlow Hglb]. simpl.
    intros [= <- <-]. set (obsolete := filter _ (filter _ _)).
    assert (∀ p, p ∈ obsolete ↔
      p ∉ ms ∧ (p ∈ dom mc ∨ p ∈ dom v_live) ∧ fd !! p = v_live !! p) as Hobs.
    { intros p. unfold obsolete. rewrite !elem_of_filter, elem_of_union. tauto. }
    exists v_live. split_and!; [|done|].
    + split; [intros ctx Hctx; apply Hlow; by right|].
      intros c Hc. apply Hglb. intros ctx [?|?]; [done|by apply Hc].
    + destruct (meet_pending_is_meet mc (elements (filter (λ p, fd !! p ≠ v_live !! p)
        (filter (λ p, p ∉ ms) (dom mc ∪ dom v_live)))) v_live) as [Hlow' Hglb'].
      split.
      * intros ctx [Hctx|(p & Hpm & Hpo & Hctx)].
        { etrans; [by apply Hlow'; left|apply Hlow; by right]. }
        apply Hlow'. right. exists p. split; [|done]. apply elem_of_elements.
        assert (p ∈ dom mc) by (by apply elem_of_dom_2 in Hctx).
        rewrite !elem_of_filter, elem_of_union. rewrite Hobs in Hpo. tauto.
      * intros c Hc. apply Hglb'. intros ctx [->|(p & Hp & Hctx)].
        { apply Hglb. intros ctx [?|?]; [done|]. apply Hc. by left. }
        apply Hc. right. exists p. apply elem_of_elements in Hp.
        rewrite !elem_of_filter in Hp. rewrite Hobs. tauto.
  - destruct (meet_members_nonempty _ _ _ _ _ _ Hm) as [Hnil _]. by destruct (Hnil eq_refl).
  - apply meet_members_None in Hm as (p & Hp & Hnone).
    destruct (Hall p Hp). congruence.
Qed.

(** Whatever the matrix, the frontier is below the clock of every member. *)
Lemma compute_below_members self mc n ms fd sc p ctx :
  matrix_clock self = Some mc → p ∈ ms → member_clock mc n sc p = Some ctx →
  (GcCoordinatorImpl.compute_stable_timestamp self n ms fd sc).1 ⊑c ctx.
Proof.
  intros Hmc Hp Hctx.
  destruct (GcCoordinatorImpl.compute_stable_timestamp self n ms fd sc) as [v obs] eqn:Hc.
  destruct (GcCoordinatorImpl.meet_members mc n sc ms None) as [o|] eqn:Hm.
  - edestruct compute_full as (v_live & _ & _ & Hlow & _); [done| | |done|].
    + intros ->. set_solver.
    + intros q Hq. apply not_eq_None_Some. intros Hnone.
      assert (GcCoordinatorImpl.meet_members mc n sc ms None = None); [|congruence].
      apply meet_members_None. eauto.
    + apply Hlow. left. eauto.
  - apply meet_members_None in Hm. rewrite (compute_early self mc) in Hc by done.
    simplify_eq. apply ctx_le_empty.
Qed.

(** *** The invariant of the coordinator *)
Lemma new_coordinator_ok cfg : coordinator_ok (GcCoordinatorImpl.new cfg).
Proof.
  unfold coordinator_ok, GcCoordinatorImpl.new; simpl.
  destruct (gc_replica cfg); split; [by eauto|done..|by intros []].
Qed.

Lemma with_matrix_config f self :
  config (GcCoordinatorImpl.with_matrix f self) = config self ∧
  epoch (GcCoordinatorImpl.with_matrix f self) = epoch self.
Proof. unfold GcCoordinatorImpl.with_matrix. repeat case_match; done. Qed.

Lemma with_matrix_clock f self :
  coordinator_ok self →
  matrix_clock (GcCoordinatorImpl.with_matrix f self) = f <$> matrix_clock self.
Proof.
  intros [H1 H2]. unfold GcCoordinatorImpl.with_matrix.
  destruct (gc_replica (config self)), (matrix_clock self) as [mc|] eqn:Hmc; simpl; try done.
  discriminate H2. eauto.
Qed.

Lemma with_matrix_ok f self :
  coordinator_ok self → coordinator_ok (GcCoordinatorImpl.with_matrix f self).
Proof.
  intros Hok. unfold coordinator_ok. rewrite with_matrix_clock by done.
  destruct (with_matrix_config f self) as [-> _]. rewrite fmap_is_Some. apply Hok.
Qed.

Lemma restrict_loop_lookup (mc km : MatrixClock) (l : list NodeId) p :
  foldl (λ (km : MatrixClock) node, match mc !! node with
                  | Some ctx => <[node := ctx]> km
                  | None => km
                  end) km l !! p =
    if decide (p ∈ l) then match mc !! p with Some ctx => Some ctx | None => km !! p end
    else km !! p.
Proof.
  revert km. induction l as [|q l IH]; intros km; simpl; [done|]. rewrite IH.
  destruct (decide (p = q)) as [->|Hne].
  - rewrite (decide_True (P := q ∈ q :: l)) by set_solver.
    destruct (mc !! q) eqn:Hq; [rewrite lookup_insert_eq|]; by case_decide.
  - destruct (mc !! q); rewrite ?lookup_insert_ne by done;
      repeat case_decide; set_solver.
Qed.

Section theorems.
Context {Tx : Type}.
Implicit Types self : GcCoordinator.

(** The two outcomes of the computation. *)
Lemma stable_timestamp_cases self mc n members final_dots self_clock :
  matrix_clock self = Some mc → members ≠ [] →
  let '(v, obsolete) :=
    GcCoordinatorImpl.compute_stable_timestamp self n members final_dots self_clock in
  ((∃ p, p ∈ members ∧ member_clock mc n self_clock p = None) ∧ v = ∅ ∧ obsolete = ∅) ∨
  ((∀ p, p ∈ members → is_Some (member_clock mc n self_clock p)) ∧
   is_meet (bounds_frontier mc n self_clock members obsolete) v ∧
   ∃ v_live,
     is_meet (λ ctx, ∃ p, p ∈ members ∧ member_clock mc n self_clock p = Some ctx) v_live ∧
     ∀ p, p ∈ obsolete ↔
       p ∉ members ∧ (p ∈ dom mc ∨ p ∈ dom v_live) ∧ final_dots !! p = v_live !! p).
Proof.
  intros Hmc Hne.
  destruct (GcCoordinatorImpl.compute_stable_timestamp _ _ _ _ _) as [v obsolete] eqn:Hc.
  destruct (GcCoordinatorImpl.meet_members mc n self_clock members None) eqn:Hm.
  - right. assert (∀ p, p ∈ members → is_Some (member_clock mc n self_clock p)) as Hall.
    { intros p Hp. apply not_eq_None_Some. intros Hnone.
      assert (GcCoordinatorImpl.meet_members mc n self_clock members None = None); [|congruence].
      apply meet_members_None. eauto. }
    destruct (compute_full self mc n members final_dots self_clock v obsolete)
      as (v_live & ? & ? & ?); eauto.
  - left. apply meet_members_None in Hm. rewrite (compute_early self mc) in Hc by done.
    by simplify_eq.
Qed.

(** C13. The stable timestamp is the greatest frontier below the clocks of all
    members and of the departed nodes still pending; the obsolete nodes are the
    departed ones whose final counter the members' common knowledge equals; and
    when a member has no row nothing is stable. *)
Theorem stable_timestamp_is_the_safe_frontier self mc n members final_dots self_clock :
  matrix_clock self = Some mc → members ≠ [] →
  let '(v, obsolete) :=
    GcCoordinatorImpl.compute_stable_timestamp self n members final_dots self_clock in
  ((∃ p, p ∈ members ∧ member_clock mc n self_clock p = None) ∧ v = ∅ ∧ obsolete = ∅) ∨
  ((∀ p, p ∈ members → is_Some (member_clock mc n self_clock p)) ∧
   is_meet (bounds_frontier mc n self_clock members obsolete) v ∧
   ∃ v_live,
     is_meet (λ ctx, ∃ p, p ∈ members ∧ member_clock mc n self_clock p = Some ctx) v_live ∧
     ∀ p, p ∈ obsolete ↔
       p ∉ members ∧ (p ∈ dom mc ∨ p ∈ dom v_live) ∧ final_dots !! p = v_live !! p).
Proof. apply stable_timestamp_cases. Qed.

(** A node that leaves without ever having issued an event blocks collection:
    it publishes the final counter 0, which is not the absent entry that the
    members have for it, so it stays pending for ever and the frontier never
    passes its last row, which nobody advances any more. *)
Theorem silent_leaver_blocks_collection self mc n members final_dots self_clock p row :
  matrix_clock self = Some mc → members ≠ [] → p ∉ members → mc !! p = Some row →
  final_dots !! p = Some 0 →
  (∀ q ctx, q ∈ members → member_clock mc n self_clock q = Some ctx → ctx !! p = None) →
  let '(v, obsolete) :=
    GcCoordinatorImpl.compute_stable_timestamp self n members final_dots self_clock in
  p ∉ obsolete ∧ v ⊑c row.
Proof.
  intros Hmc Hne Hp Hrow Hfd Hsilent.
  destruct (GcCoordinatorImpl.compute_stable_timestamp _ _ _ _ _) as [v obsolete] eqn:Hc.
  destruct (GcCoordinatorImpl.meet_members mc n self_clock members None) as [[v_live|]|] eqn:Hm.
  - assert (p ∉ obsolete) as Hpo.
    { unfold GcCoordinatorImpl.compute_stable_timestamp in Hc. rewrite Hmc, Hm in Hc.
      injection Hc as _ <-. rewrite !elem_of_filter. simpl.
      rewrite (meet_members_absent _ _ _ _ _ _ p Hm) by done. naive_solver. }
    split; [done|]. destruct (compute_full self mc n members final_dots self_clock v obsolete)
      as (_ & _ & _ & [Hlow _]); [done..| |done|].
    + intros q Hq. apply not_eq_None_Some. intros Hnone.
      enough (GcCoordinatorImpl.meet_members mc n self_clock members None = None) by congruence.
      apply meet_members_None. eauto.
    + apply Hlow. right. eauto.
  - by apply meet_members_nonempty in Hm as [[_ ?] _].
  - apply meet_members_None in Hm. rewrite (compute_early self mc) in Hc by done.
    simplify_eq. split; [set_solver|]. apply ctx_le_empty.
Qed.

(** Merging a received knowledge matrix joins it row by row: no row loses
    an event, rows that both sides have are joined, the others are taken over,
    and a replica that does not collect keeps no matrix. *)
Theorem matrix_update_joins_rows self (km : MatrixClock) p k :
  coordinator_ok self →
  let self' := GcCoordinatorImpl.update_matrix_clock km self in
  coordinator_ok self' ∧ epoch self' = epoch self ∧ config self' = config self ∧
  get_or0 (row self' p) k =
    (if gc_replica (config self)
     then N.max (get_or0 (default ∅ (km !! p)) k) (get_or0 (row self p) k)
     else 0) ∧
  (gc_replica (config self) = true → ∀ q,
     q ∈ dom (default (∅ : MatrixClock) (matrix_clock self')) ↔
     q ∈ dom km ∨ q ∈ dom (default (∅ : MatrixClock) (matrix_clock self))).
Proof.
  intros Hok self'. split; [by apply with_matrix_ok|].
  destruct (with_matrix_config (λ mc, foldl GcCoordinatorImpl.update_entry mc (map_to_list km)) self)
    as [Hcfg Hep].
  split_and!; [exact Hep|exact Hcfg| |].
  - unfold row, self'. destruct (gc_replica (config self)) eqn:Hgc.
    + destruct (lookup_update_matrix km self p) as [_ ->]; [done..|].
      destruct (km !! p), (default ∅ (matrix_clock self) !! p); simpl;
        rewrite ?get_or0_vv_join, ?get_or0_empty; lia.
    + unfold GcCoordinatorImpl.update_matrix_clock. rewrite with_matrix_clock by done.
      destruct Hok as [_ Hok]. destruct (matrix_clock self); [|done].
      rewrite Hok in Hgc by eauto. done.
  - intros Hgc q. rewrite !elem_of_dom. unfold self'.
    destruct (lookup_update_matrix km self q) as [_ ->]; [done..|].
    destruct (km !! q), (default ∅ (matrix_clock self) !! q);
      rewrite ?is_Some_alt; naive_solver.
Qed.

(** The matrix sent to another GC replica is the matrix clock restricted
    to the connected peers that are not GC replicas. *)
Theorem knowledge_matrix_is_a_restriction self (registry : PeerRegistry Tx) p :
  coordinator_ok self →
  match GcCoordinatorImpl.get_knowledge_matrix self registry with
  | None => gc_replica (config self) = false
  | Some km =>
      gc_replica (config self) = true ∧
      km !! p = match PeerRegistryImpl.get registry p with
                | Some (false, _) => default (∅ : MatrixClock) (matrix_clock self) !! p
                | _ => None
                end
  end.
Proof.
  intros [Hok _]. unfold GcCoordinatorImpl.get_knowledge_matrix.
  destruct (gc_replica (config self)) eqn:Hgc; simpl; [|done].
  destruct (Hok eq_refl) as [mc ->]; simpl. split; [done|].
  rewrite restrict_loop_lookup, lookup_empty.
  pose proof (elem_of_non_gc registry p) as Hp.
  case_decide as Hin; rewrite Hp in Hin.
  - destruct Hin as [h ->]. by destruct (mc !! p).
  - destruct (PeerRegistryImpl.get registry p) as [[[] h]|]; try done. naive_solver.
Qed.
End theorems.

(** ** Concrete instances *)
Definition demo_config : GcConfig := {|
  gc_replica := true; observe_interval := 120;
  storage_config := mkGcStorageConfig "crdt-peers" "gc";
  gc_replica_config := Some (mkGcReplicaConfig 300)
|}.

(** The coordinator of [id], which has recorded what [other] has seen. *)
Definition demo_gc (id other : NodeId) (seen : CausalContext) : GcCoordinator :=
  GcCoordinatorImpl.update_matrix_clock (<[other := seen]> ∅) (GcCoordinatorImpl.new demo_config).

Lemma stable_timestamp_is_the_safe_frontier_witness :
  is_meet (bounds_frontier (<["B" := {["A" := 1]}]> ∅) "A" {["A" := 2]} ["A"; "B"] ∅)
    {["A" := 1]}.
Proof.
  pose proof (stable_timestamp_is_the_safe_frontier (demo_gc "A" "B" {["A" := 1]})
    (<["B" := {["A" := 1]}]> ∅) "A" ["A"; "B"] ∅ {["A" := 2]}) as Hst.
  assert (GcCoordinatorImpl.compute_stable_timestamp (demo_gc "A" "B" {["A" := 1]}) "A" ["A"; "B"] ∅
            {["A" := 2]} = ({["A" := 1]}, ∅)) as Hc by (vm_compute; reflexivity).
  rewrite Hc in Hst. destruct Hst as [(_ & Hv & _)|(_ & Hm & _)].
  - vm_compute. reflexivity.
  - discriminate.
  - apply (f_equal (λ m : CausalContext, m !! "A")) in Hv. vm_compute in Hv. discriminate Hv.
  - exact Hm.
Defined.

(** [C] was registered, saw one event of [A] and left without an event. *)
Lemma silent_leaver_blocks_collection_witness :
  vv_leq (GcCoordinatorImpl.compute_stable_timestamp (demo_gc "A" "C" {["A" := 1]}) "A" ["A"]
            {["C" := 0]} {["A" := 9]}).1 {["A" := 1]} = true.
Proof.
  apply vv_leq_spec.
  refine (proj2 (silent_leaver_blocks_collection (demo_gc "A" "C" {["A" := 1]})
    (<["C" := {["A" := 1]}]> ∅) "A" ["A"] {["C" := 0]} {["A" := 9]} "C" {["A" := 1]}
    eq_refl _ _ eq_refl eq_refl _)).
  - discriminate.
  - rewrite list_elem_of_singleton. discriminate.
  - intros q ctx ->%list_elem_of_singleton [= <-]. reflexivity.
Defined.

Lemma matrix_update_joins_rows_witness :
  get_or0 (row (GcCoordinatorImpl.update_matrix_clock (<["B" := {["C" := 4]}]> ∅)
                  (demo_gc "A" "B" {["A" := 1]})) "B") "C" = 4.
Proof.
  destruct (matrix_update_joins_rows (demo_gc "A" "B" {["A" := 1]}) (<["B" := {["C" := 4]}]> ∅)
    "B" "C") as (_ & _ & _ & Hrow & _).
  - apply with_matrix_ok, new_coordinator_ok.
  - etransitivity; [exact Hrow|]. vm_compute. reflexivity.
Defined.

Lemma knowledge_matrix_is_a_restriction_witness :
  GcCoordinatorImpl.get_knowledge_matrix (demo_gc "A" "B" {["A" := 1]}) two_peers ≠ None ∧
  match GcCoordinatorImpl.get_knowledge_matrix (demo_gc "A" "B" {["A" := 1]}) two_peers with
  | None => False
  | Some km => km !! "B" = Some {["A" := 1]}
  end.
Proof.
  pose proof (knowledge_matrix_is_a_restriction (demo_gc "A" "B" {["A" := 1]}) two_peers "B") as Hkm.
  destruct (GcCoordinatorImpl.get_knowledge_matrix _ two_peers).
  - split; [discriminate|]. destruct Hkm as [_ ->]; [apply with_matrix_ok, new_coordinator_ok|].
    vm_compute. reflexivity.
  - discriminate Hkm. apply with_matrix_ok, new_coordinator_ok.
Defined.
