(* ===== verification/UnitTests.v ===== *)
(** * The unit tests of the set and of the coordinator, on the model
    (modules [tests] of [src/src/crdt/or_set.rs] and [src/src/gc/coordinator.rs])

    As in [ClockTests]: a test is a definition that returns the conjunction of
    its assertions, and the theorems evaluate the lists of all tests.  The
    engine steps the tests use are those of [Replication]; the bytes of a delta
    are those of the concrete codec [countable_message]. *)
From Stdlib Require Import Strings.Byte Strings.String.
From stdpp Require Import base gmap sets list strings fin_maps.
From S2P Require Import Prelude Clocks Proto Crdt OrSet Replication Coordinator.
Local Open Scope string_scope.
Local Open Scope N_scope.

Module OrSetTests.
#[local] Instance delta_codec : Message ProtoOrSetDelta := countable_message ProtoOrSetDelta.

Definition x : RustString := "x" ↾ eq_refl.
Definition y : RustString := "y" ↾ eq_refl.

(** ** Helpers *)
Abbreviation Node := (Replica RustString) (only parsing).

Definition local (op : OrSetOp RustString) (r : Node) : Node := engine_apply_local r op.

Definition contains (r : Node) (e : RustString) : bool := OrSetImpl.contains (r_set r) e.

Definition effective_counter (r : Node) (n : NodeId) : N := Dvv.effective_counter (r_dvv r) n.

Definition counter_of (r : Node) : N := d_counter (dot (r_dvv r)).

Definition frontier_at (n : NodeId) (c : N) : DotVersionVector :=
  {| dot := mkDot "F" 0; context := <[n := c]> ∅ |}.

(** The delta after a trip through its bytes. *)
Definition decoded (delta : OrSetDelta RustString) : option (OrSetDelta RustString) :=
  match OrSetImpl.decode_delta (OrSetImpl.encode_delta delta) with
  | Ok d => Some d
  | Err _ => None
  end.

(** ** Operations *)
Definition add_uses_dot : bool :=
  let a := local (Add x) (engine_new "A") in
  contains a x && (counter_of a =? 1).

Definition remove_clears_element : bool :=
  let a := local (Add x) (engine_new "A") in
  let a' := local (Remove x) a in
  (counter_of a =? 1) && (counter_of a' =? 2) && negb (contains a' x).

Definition concurrent_add_wins_test : bool :=
  let a := local (Add x) (engine_new "A") in
  let b := engine_new "B" in
  let delta_a := engine_delta_since a (knowledge b) in
  let b := engine_merge_delta b delta_a in
  let seen := contains b x in
  let b := local (Remove x) b in
  let remove_delta := engine_delta_since b (knowledge a) in
  let a := local (Add x) a in
  let readd_delta := engine_delta_since a (knowledge b) in
  let a := engine_merge_delta a remove_delta in
  let b := engine_merge_delta b readd_delta in
  seen && contains a x && contains b x.

(** ** Deltas and codecs *)
Definition delta_roundtrip_through_bytes : bool :=
  let a := local (Add hello) (engine_new "A") in
  match decoded (engine_delta_since a ∅) with
  | Some delta =>
      let remote := engine_merge_delta (engine_new "B") delta in
      contains remote hello && (effective_counter remote "A" =? 1)
  | None => false
  end.

(** Two additions, and the removal of the first. *)
Definition x_removed : Node := local (Remove x) (local (Add y) (local (Add x) (engine_new "A"))).

Definition synced (r : Node) : bool :=
  negb (contains r x) && contains r y && (effective_counter r "A" =? 3).

Definition full_state_sync : bool :=
  let state := engine_full_state x_removed in
  negb (bool_decide (delta_tombstones state = [])) &&
  (delta_dot_counter state =? counter_of x_removed) &&
  match decoded state with
  | Some state => synced (engine_merge_delta (engine_new "B") state)
  | None => false
  end.

Definition incremental_delta_only_contains_new_ops : bool :=
  let a := local (Add x) (engine_new "A") in
  let a' := local (Remove x) a in
  Nat.eqb (size (adds (r_set a))) 1 && Nat.eqb (size (tombstones (r_set a))) 0 &&
  Nat.eqb (size (adds (r_set a'))) 0 && Nat.eqb (size (tombstones (r_set a'))) 1.

Definition delta_since_empty_remote_equals_full_state : bool :=
  let delta := engine_delta_since x_removed ∅ in
  let full := engine_full_state x_removed in
  Nat.eqb (length (delta_adds delta)) (length (delta_adds full)) &&
  Nat.eqb (length (delta_tombstones delta)) (length (delta_tombstones full)).

Definition delta_since_up_to_date_remote_is_empty : bool :=
  let a := local (Add y) (local (Add x) (engine_new "A")) in
  let delta := engine_delta_since a (knowledge a) in
  bool_decide (delta_adds delta = []) && bool_decide (delta_tombstones delta = []).

Definition delta_since_sends_only_missing_adds : bool :=
  let a := local (Add x) (engine_new "A") in
  let snapshot_knowledge := knowledge a in
  let a := local (Add y) a in
  let delta := engine_delta_since a snapshot_knowledge in
  bool_decide ((delta_adds delta).*1 = [y]) && bool_decide (delta_tombstones delta = []).

Definition delta_since_sends_only_missing_tombstones : bool :=
  let a := local (Add y) (local (Add x) (engine_new "A")) in
  let b_knowledge := knowledge a in
  let a := local (Remove x) a in
  let delta := engine_delta_since a b_knowledge in
  bool_decide (delta_adds delta = []) && Nat.eqb (length (delta_tombstones delta)) 1.

(** ** Garbage collection *)
Definition perform_gc_removes_eligible_tombstones : bool :=
  let a := local (Remove x) (local (Add x) (engine_new "A")) in
  let a' := engine_gc a (frontier_at "A" 2) in
  Nat.eqb (size (tombstones (r_set a))) 1 && bool_decide (tombstones (r_set a') = ∅).

Definition perform_gc_keeps_non_eligible_tombstones : bool :=
  let a := local (Remove x) (local (Add x) (engine_new "A")) in
  let a' := engine_gc a (frontier_at "A" 1) in
  Nat.eqb (size (tombstones (r_set a))) 1 && Nat.eqb (size (tombstones (r_set a'))) 1.

(** ** Pulls *)
Definition delta_since_pull_response_converges : bool :=
  let b := engine_new "B" in
  let response := engine_delta_since x_removed (knowledge b) in
  synced (engine_merge_delta b response).

Definition delta_since_partial_pull_response_converges : bool :=
  let a := local (Add x) (engine_new "A") in
  let b := engine_new "B" in
  let b := engine_merge_delta b (engine_delta_since a (knowledge b)) in
  let seen := contains b x in
  let a := local (Remove x) (local (Add y) a) in
  let response := engine_delta_since a (knowledge b) in
  seen && Nat.eqb (length (delta_adds response)) 1 &&
  Nat.eqb (length (delta_tombstones response)) 1 && synced (engine_merge_delta b response).

Definition orset_tests : list bool :=
  [add_uses_dot; remove_clears_element; concurrent_add_wins_test; delta_roundtrip_through_bytes;
   full_state_sync; incremental_delta_only_contains_new_ops;
   delta_since_empty_remote_equals_full_state; delta_since_up_to_date_remote_is_empty;
   delta_since_sends_only_missing_adds; delta_since_sends_only_missing_tombstones;
   perform_gc_removes_eligible_tombstones; perform_gc_keeps_non_eligible_tombstones;
   delta_since_pull_response_converges; delta_since_partial_pull_response_converges].
End OrSetTests.

Module CoordinatorTests.

Definition no_new_members_same_lists : bool := negb (new_member_exists ["1"; "2"; "3"] ["1"; "2"; "3"]).
Definition no_new_members_subset : bool := negb (new_member_exists ["1"; "2"; "3"] ["1"; "2"]).
Definition detects_single_new_member : bool := new_member_exists ["1"; "2"; "3"] ["1"; "2"; "3"; "4"].
Definition detects_multiple_new_members : bool := new_member_exists ["1"; "2"] ["1"; "2"; "3"; "4"].
Definition empty_old_with_new_members : bool := new_member_exists [] ["1"].
Definition both_empty : bool := negb (new_member_exists [] []).
Definition order_does_not_matter : bool := negb (new_member_exists ["1"; "2"; "3"] ["3"; "2"; "1"]).
Definition detects_new_member_with_reordering : bool :=
  new_member_exists ["1"; "2"; "3"] ["3"; "4"; "2"; "1"].
Definition handles_duplicates_in_new : bool :=
  negb (new_member_exists ["1"; "2"; "3"] ["1"; "2"; "2"; "3"]).

Definition coordinator_tests : list bool :=
  [no_new_members_same_lists; no_new_members_subset; detects_single_new_member;
   detects_multiple_new_members; empty_old_with_new_members; both_empty; order_does_not_matter;
   detects_new_member_with_reordering; handles_duplicates_in_new].
End CoordinatorTests.

(** All the unit tests of the set hold of the model. *)
Theorem orset_unit_tests_hold : forallb id OrSetTests.orset_tests = true.
Proof. vm_compute. reflexivity. Qed.

(** All the unit tests of the coordinator hold of the model. *)
Theorem coordinator_unit_tests_hold : forallb id CoordinatorTests.coordinator_tests = true.
Proof. vm_compute. reflexivity. Qed.
