(* ===== verification/S3Storage.v ===== *)
(** * Garbage-collection storage in S3 ([src/src/gc/storage.rs])

    [S3GcStorage] keeps the records as JSON objects under a configured prefix.
    [s3_exec] runs the calls of [GcStorage] (and the membership query) on the
    client of [S3]; the refinement theorem shows that it implements the abstract
    storage [store_exec]. *)
From Stdlib Require Import Strings.Byte Strings.String Strings.Ascii.
From stdpp Require Import base gmap sets list strings fin_maps.
From S2P Require Import Prelude Text S3 Discovery Clocks Proto Coordinator GcStorage.
Import S3ClientImpl.
Local Open Scope N_scope.
Local Open Scope rust_scope.
Local Open Scope string_scope.

Module S3GcStorageImpl.
Section impl.
Context {W T : Type} `{AwsS3 W} `{Chrono T}
  `{Json EpochMetadata} `{Json EpochState} `{Json GcIntentRecord}.
Implicit Types self : GcStorageConfig.

Definition bucket self : string := cfg_bucket self.

Definition key self (namespace suffix : string) : string :=
  trim_end_matches "/"%char (cfg_prefix self) ++ "/" ++ namespace ++ suffix.

Definition gc_intent_key self (epoch : N) : string :=
  key self "gc_intent" ("_" ++ show_u64 epoch ++ ".json").

Definition epoch_metadata_key self : string := key self "epoch_metadata" ".json".

Definition epoch_state_key self : string := key self "epoch_state" ".json".

Definition final_dots_key_prefix self : string := key self "final_dots" "/".

Definition parse_final_dot_key self (key : string) : option (NodeId * Counter) :=
  let prefix := trim_end_matches "/"%char (cfg_prefix self) ++ "/final_dots/" in
  if starts_with prefix key && ends_with ".json" key then
    let raw := slice (String.length prefix) (String.length key - String.length ".json") key in
    match split_char "_"%char raw with
    | [node_id; counter] => n ← parse_u64 counter; Some (node_id, n)
    | _ => None
    end
  else None.

Definition read_epoch_metadata self (w : W) : result EpochMetadata * W :=
  let '(r, w) := get_json_optional (bucket self) (epoch_metadata_key self) w in
  (o <-? r ;; Ok (default default_metadata o), w).

Definition read_epoch_state self (w : W) : result EpochState * W :=
  let '(r, w) := get_json_optional (bucket self) (epoch_state_key self) w in
  (o <-? r ;; Ok (default default_state o), w).

Definition write_epoch_metadata self (m : EpochMetadata) (w : W) : result unit * W :=
  put_json (bucket self) (epoch_metadata_key self) m w.

Definition write_epoch_state self (s : EpochState) (w : W) : result unit * W :=
  put_json (bucket self) (epoch_state_key self) s w.

Definition claim_gc_intent self (epoch : N) (initiator : NodeId) (w : W) : result bool * W :=
  put_json_if_absent (bucket self) (gc_intent_key self epoch)
    {| gi_epoch := epoch; gi_initiator := initiator |} w.

Definition read_gc_intent self (epoch : N) (w : W) : result (option GcIntentRecord) * W :=
  get_json_optional (bucket self) (gc_intent_key self epoch) w.

Definition release_gc_intent self (epoch : N) (w : W) : result unit * W :=
  delete_object (bucket self) (gc_intent_key self epoch) w.

(** [collect::<HashMap>()]: the last entry of a node wins. *)
Definition collect_final_dots self (keys : list string) : gmap NodeId Counter :=
  foldl (λ m e, <[e.1 := e.2]> m) ∅ (omap (parse_final_dot_key self) keys).

Definition read_final_dots (fuel : nat) self (w : W) : option (result (gmap NodeId Counter) * W) :=
  '(r, w) ← list_object_keys fuel (bucket self) (final_dots_key_prefix self) w;
  Some (keys <-? r ;; Ok (collect_final_dots self keys), w).

(** A call of the coordinator; [fuel] bounds the pages of a listing, a sleep
    does not touch the bucket. *)
Definition s3_exec (fuel : nat) self (c : StorageCall) : W → option (result (resp c) * W) :=
  match c with
  | ReadEpochMetadata => λ w, Some (read_epoch_metadata self w)
  | ReadEpochState => λ w, Some (read_epoch_state self w)
  | WriteEpochMetadata m => λ w, Some (write_epoch_metadata self m w)
  | WriteEpochState s => λ w, Some (write_epoch_state self s w)
  | ReadFinalDots => λ w, read_final_dots fuel self w
  | ClaimGcIntent epoch initiator => λ w, Some (claim_gc_intent self epoch initiator w)
  | ReadGcIntent epoch => λ w, Some (read_gc_intent self epoch w)
  | ReleaseGcIntent epoch => λ w, Some (release_gc_intent self epoch w)
  | ListLiveNodeIds => λ w, list_live_node_ids (T := T) fuel (bucket self) w
  | Sleep _ => λ w, Some (Ok tt, w)
  end.
End impl.
End S3GcStorageImpl.

Import S3GcStorageImpl.

(** ** Keys *)
Lemma string_app_cancel (p a b : string) : p ++ a = p ++ b ↔ a = b.
Proof. split; [apply string_app_inj_l|by intros ->]. Qed.

Lemma intent_key_inj cfg n m : gc_intent_key cfg n = gc_intent_key cfg m → n = m.
Proof.
  unfold gc_intent_key, key. rewrite !string_app_cancel. intros Heq.
  apply (f_equal (strip_suffix ".json")) in Heq.
  rewrite (proj2 (strip_suffix_Some _ _ _) eq_refl), (proj2 (strip_suffix_Some _ _ _) eq_refl) in Heq.
  apply show_u64_inj. congruence.
Qed.

(** The namespaces of a prefix are disjoint. *)
Lemma namespaces_disjoint cfg n :
  epoch_metadata_key cfg ≠ epoch_state_key cfg ∧
  epoch_metadata_key cfg ≠ gc_intent_key cfg n ∧ epoch_state_key cfg ≠ gc_intent_key cfg n.
Proof.
  unfold epoch_metadata_key, epoch_state_key, gc_intent_key, key.
  rewrite !string_app_cancel. done.
Qed.

Lemma not_starts_with p s : (∀ r, s ≠ p ++ r) → starts_with p s = false.
Proof. intros Hs. apply not_true_iff_false. rewrite starts_with_spec. naive_solver. Qed.

Lemma records_outside_final_dots cfg n k :
  k = epoch_metadata_key cfg ∨ k = epoch_state_key cfg ∨ k = gc_intent_key cfg n →
  starts_with (final_dots_key_prefix cfg) k = false.
Proof.
  intros Hk. apply not_starts_with. intros r.
  unfold epoch_metadata_key, epoch_state_key, gc_intent_key, final_dots_key_prefix, key in *.
  rewrite !string_app_assoc. destruct Hk as [-> | [-> | ->]]; rewrite string_app_cancel; done.
Qed.

(** The prefix of the records is not under [nodes/]. *)
Definition apart_from_nodes (cfg : GcStorageConfig) : Prop :=
  ∀ s, starts_with DISCOVERY_NODES_PREFIX (trim_end_matches "/"%char (cfg_prefix cfg) ++ "/" ++ s) = false.

(** ** The refinement relation *)
Section refinement.
Context {W T : Type} `{AwsS3 W} `{Chrono T}
  `{Json EpochMetadata} `{Json EpochState} `{Json GcIntentRecord}.
Context (cfg : GcStorageConfig).

(** The objects of the bucket represent the abstract storage. *)
Record store_rel (objs : gmap string bytes) (st : Store) : Prop := {
  sr_metadata : objs !! epoch_metadata_key cfg = json_to_vec <$> st_metadata st;
  sr_state : objs !! epoch_state_key cfg = json_to_vec <$> st_state st;
  sr_intents : ∀ n, objs !! gc_intent_key cfg n = json_to_vec <$> st_intents st !! n;
  sr_final_dots :
    st_final_dots st = collect_final_dots cfg (listing (final_dots_key_prefix cfg) objs);
  sr_members : st_members st = live_ids_of (T := T) objs
}.

Definition record_key (k : string) : Prop :=
  k = epoch_metadata_key cfg ∨ k = epoch_state_key cfg ∨ ∃ n, k = gc_intent_key cfg n.

(** Writing or deleting a record touches that record only. *)
Lemma listings_same objs objs' k :
  apart_from_nodes cfg → record_key k → (∀ k', k' ≠ k → objs' !! k' = objs !! k') →
  collect_final_dots cfg (listing (final_dots_key_prefix cfg) objs') =
    collect_final_dots cfg (listing (final_dots_key_prefix cfg) objs) ∧
  live_ids_of (T := T) objs' = live_ids_of (T := T) objs.
Proof.
  intros Hapart Hk Hsame.
  assert (starts_with (final_dots_key_prefix cfg) k = false) as Hf.
  { destruct Hk as [Hk|[Hk|[n Hk]]].
    - apply (records_outside_final_dots cfg 0). auto.
    - apply (records_outside_final_dots cfg 0). auto.
    - apply (records_outside_final_dots cfg n). auto. }
  assert (starts_with DISCOVERY_NODES_PREFIX k = false) as Hn.
  { destruct Hk as [-> | [-> | [n ->]]]; apply Hapart. }
  split; [f_equal|unfold live_ids_of; do 6 f_equal]; apply listing_dom;
    intros k' Hk'; rewrite Hsame by congruence; done.
Qed.

Lemma store_rel_metadata objs st m :
  apart_from_nodes cfg → store_rel objs st →
  store_rel (<[epoch_metadata_key cfg := json_to_vec m]> objs)
    (mkStore (Some m) (st_state st) (st_intents st) (st_final_dots st) (st_members st)).
Proof.
  intros Hap [H1' H2' H3' H4' H5'].
  destruct (listings_same objs (<[epoch_metadata_key cfg := json_to_vec m]> objs)
    (epoch_metadata_key cfg) Hap) as [Hf Hl].
  { by left. }
  { intros k' Hk'. by apply lookup_insert_ne. }
  split; simpl; [by apply lookup_insert_eq| | |congruence|congruence].
  - rewrite lookup_insert_ne; [done|]. apply (namespaces_disjoint cfg 0).
  - intros n. rewrite lookup_insert_ne; [done|]. apply (namespaces_disjoint cfg n).
Qed.

Lemma store_rel_state objs st s :
  apart_from_nodes cfg → store_rel objs st →
  store_rel (<[epoch_state_key cfg := json_to_vec s]> objs)
    (mkStore (st_metadata st) (Some s) (st_intents st) (st_final_dots st) (st_members st)).
Proof.
  intros Hap [H1' H2' H3' H4' H5'].
  destruct (listings_same objs (<[epoch_state_key cfg := json_to_vec s]> objs)
    (epoch_state_key cfg) Hap) as [Hf Hl].
  { by right; left. }
  { intros k' Hk'. by apply lookup_insert_ne. }
  split; simpl; [|by apply lookup_insert_eq| |congruence|congruence].
  - rewrite lookup_insert_ne; [done|]. apply not_eq_sym, (namespaces_disjoint cfg 0).
  - intros n. rewrite lookup_insert_ne; [done|]. apply (namespaces_disjoint cfg n).
Qed.

Lemma store_rel_intents objs objs' st n i :
  apart_from_nodes cfg → store_rel objs st →
  (∀ k, objs' !! k = if decide (k = gc_intent_key cfg n) then json_to_vec <$> i else objs !! k) →
  store_rel objs' (mkStore (st_metadata st) (st_state st) (partial_alter (λ _, i) n (st_intents st))
                     (st_final_dots st) (st_members st)).
Proof.
  intros Hap [H1' H2' H3' H4' H5'] Hobjs.
  destruct (listings_same objs objs' (gc_intent_key cfg n) Hap) as [Hf Hl].
  { right; right. by exists n. }
  { intros k' Hk'. rewrite Hobjs. by rewrite decide_False. }
  destruct (namespaces_disjoint cfg n) as (_ & Hm & Hs).
  split; simpl; [| | |congruence|congruence].
  - by rewrite Hobjs, decide_False.
  - by rewrite Hobjs, decide_False.
  - intros n'. rewrite Hobjs. destruct (decide (n' = n)) as [->|Hne].
    + by rewrite decide_True, lookup_partial_alter_eq.
    + rewrite lookup_partial_alter_ne by done. rewrite decide_False; [done|].
      intros Heq. by apply intent_key_inj in Heq.
Qed.

Context {objects : W → string → gmap string bytes} `{!AwsS3Ok W objects}
  `{!JsonOk EpochMetadata} `{!JsonOk EpochState} `{!JsonOk GcIntentRecord}.

(** What a call may leave: on success the result and the state of the abstract
    call, on failure the old state or that of the call. *)
Definition refines (c : StorageCall) (st : Store) (x : option (result (resp c) * W)) : Prop :=
  ∃ r w', x = Some (r, w') ∧
    match r with
    | Ok v => ∃ st', store_exec c st = (Ok v, st') ∧ store_rel (objects w' (bucket cfg)) st'
    | Err _ => store_rel (objects w' (bucket cfg)) st ∨
               store_rel (objects w' (bucket cfg)) (store_exec c st).2
    end.

Lemma read_refines (c : StorageCall) st (x : result (resp c) * W) :
  (store_exec c st).2 = st → store_rel (objects x.2 (bucket cfg)) st →
  match x.1 with Ok v => (store_exec c st).1 = Ok v | Err _ => True end →
  refines c st (Some x).
Proof.
  intros Hst Hrel Hv. destruct x as [[v|e] w']; eexists _, w';
    (split; [done|]); simpl in *; [|by left].
  exists st. split; [|done]. rewrite <- Hst at 2. rewrite <- Hv. by destruct (store_exec c st).
Qed.

Lemma write_refines (c : StorageCall) st (x : result (resp c) * W) v :
  store_exec c st = (Ok v, (store_exec c st).2) →
  (store_rel (objects x.2 (bucket cfg)) (store_exec c st).2 ∧ (is_ok x.1 = true → x.1 = Ok v)) ∨
  (is_ok x.1 = false ∧ store_rel (objects x.2 (bucket cfg)) st) →
  refines c st (Some x).
Proof.
  intros Hst Hx. destruct x as [[u|e] w']; eexists _, w'; (split; [done|]); simpl in *.
  - destruct Hx as [[Hrel Hu]|[? _]]; [|done]. injection (Hu eq_refl) as ->. eauto.
  - destruct Hx as [[Hrel _]|[_ Hrel]]; auto.
Qed.

Lemma claim_refines epoch initiator w st :
  apart_from_nodes cfg → store_rel (objects w (bucket cfg)) st →
  refines (ClaimGcIntent epoch initiator) st (Some (claim_gc_intent cfg epoch initiator w)).
Proof.
  intros Hap Hrel. pose proof (sr_intents _ _ Hrel epoch) as Hi.
  unfold claim_gc_intent, put_json_if_absent.
  pose proof (put_if_absent_ok (bucket cfg) (gc_intent_key cfg epoch)
    (json_to_vec {| gi_epoch := epoch; gi_initiator := initiator |}) "application/json" w) as Hp.
  assert (∀ objs', st_intents st !! epoch = None →
    objs' = <[gc_intent_key cfg epoch := json_to_vec {| gi_epoch := epoch; gi_initiator := initiator |}]>
              (objects w (bucket cfg)) →
    store_rel objs' (mkStore (st_metadata st) (st_state st)
      (<[epoch := {| gi_epoch := epoch; gi_initiator := initiator |}]> (st_intents st))
      (st_final_dots st) (st_members st))) as Hclaim.
  { intros objs' _ ->. apply (store_rel_intents _ _ st epoch (Some _) Hap Hrel). intros k.
    rewrite lookup_insert. by repeat case_decide; subst. }
  destruct (put_object_if_absent _ _ _ _ w) as [[[]|e] w']; eexists _, w'; (split; [done|]); simpl.
  + destruct Hp as [Hnone Hobj]. rewrite Hi in Hnone. apply fmap_None in Hnone. rewrite Hnone.
    eexists. split; [done|]. by apply Hclaim.
  + destruct Hp as [Hsome Hobj]. rewrite Hi, fmap_is_Some in Hsome. destruct Hsome as [i Hsome].
    rewrite Hsome. eexists. split; [done|]. by rewrite Hobj.
  + destruct Hp as [Hobj|[Hnone Hobj]]; [left; by rewrite Hobj|].
    right. rewrite Hi in Hnone. apply fmap_None in Hnone. rewrite Hnone. by apply Hclaim.
Qed.

(** One call on the bucket. *)
Lemma s3_call_refines fuel (c : StorageCall) w st :
  apart_from_nodes cfg → store_rel (objects w (bucket cfg)) st →
  (∀ p, (length (pages w (bucket cfg) p) <= fuel)%nat) →
  refines c st (s3_exec (T := T) fuel cfg c w).
Proof.
  intros Hap Hrel Hfuel. pose proof Hrel as [Hm Hs Hi Hf Hl]. destruct c; simpl.
  - apply read_refines; [done|..]; unfold read_epoch_metadata;
      pose proof (get_json_optional_ok (bucket cfg) _ w _ Hm) as Hg;
      destruct (get_json_optional _ _ w) as [[o|e] w']; destruct Hg as [Hobj Ho]; simpl;
      by rewrite ?Hobj, ?Ho.
  - apply read_refines; [done|..]; unfold read_epoch_state;
      pose proof (get_json_optional_ok (bucket cfg) _ w _ Hs) as Hg;
      destruct (get_json_optional _ _ w) as [[o|e] w']; destruct Hg as [Hobj Ho]; simpl;
      by rewrite ?Hobj, ?Ho.
  - apply write_refines with tt; [done|]. unfold write_epoch_metadata, put_json.
    pose proof (put_object_ok (bucket cfg) (epoch_metadata_key cfg) (json_to_vec m)
      "application/json" w) as Hp.
    destruct (put_object _ _ _ _ w) as [[[]|e] w']; destruct Hp as [Hobj|[Hno Hobj]]; simpl in *;
      rewrite Hobj; try done; [left|left|by right]; (split; [by apply store_rel_metadata|done]).
  - apply write_refines with tt; [done|]. unfold write_epoch_state, put_json.
    pose proof (put_object_ok (bucket cfg) (epoch_state_key cfg) (json_to_vec s)
      "application/json" w) as Hp.
    destruct (put_object _ _ _ _ w) as [[[]|e] w']; destruct Hp as [Hobj|[Hno Hobj]]; simpl in *;
      rewrite Hobj; try done; [left|left|by right]; (split; [by apply store_rel_state|done]).
  - unfold read_final_dots.
    destruct (list_object_keys_ok fuel (bucket cfg) (final_dots_key_prefix cfg) w (Hfuel _))
      as (r & w' & -> & Hobj & Hr). simpl. apply read_refines; [done|by simpl; rewrite Hobj|].
    destruct r as [keys|e]; simpl; [|done]. by rewrite Hr, Hf.
  - by apply claim_refines.
  - apply read_refines; [done|..]; unfold read_gc_intent;
      pose proof (get_json_optional_ok (bucket cfg) _ w _ (Hi epoch)) as Hg;
      destruct (get_json_optional _ _ w) as [[o|e] w']; destruct Hg as [Hobj Ho]; simpl;
      by rewrite ?Hobj, ?Ho.
  - apply write_refines with tt; [done|]. unfold release_gc_intent.
    assert (∀ objs', objs' = delete (gc_intent_key cfg epoch) (objects w (bucket cfg)) →
      store_rel objs' (mkStore (st_metadata st) (st_state st) (delete epoch (st_intents st))
        (st_final_dots st) (st_members st))) as Hrelease.
    { intros objs' ->. apply (store_rel_intents _ _ st epoch None Hap Hrel). intros k.
      rewrite lookup_delete. by repeat case_decide; subst. }
    pose proof (delete_object_ok (bucket cfg) (gc_intent_key cfg epoch) w) as Hp.
    destruct (delete_object _ _ w) as [[[]|e] w']; destruct Hp as [Hobj|[Hno Hobj]]; simpl in *;
      rewrite Hobj; try done; [left|left|by right]; (split; [by apply Hrelease|done]).
  - unfold list_live_node_ids, list_live_registrations.
    destruct (list_object_keys_ok fuel (bucket cfg) DISCOVERY_NODES_PREFIX w (Hfuel _))
      as (r & w' & -> & Hobj & Hr). simpl. apply read_refines; [done|by simpl; rewrite Hobj|].
    destruct r as [keys|e]; simpl; [|done]. by rewrite Hr, Hl.
  - apply write_refines with tt; [done|]. left. by split.
Qed.

(** A bucket without objects. *)
Lemma store_rel_empty : store_rel ∅ (mkStore None None ∅ ∅ []).
Proof.
  assert (∀ p, listing p ∅ = []) as Hl.
  { intros p. apply list.elem_of_nil_inv. intros k [_ [v Hk]]%elem_of_listing. by rewrite lookup_empty in Hk. }
  split; simpl; [done..| |]; unfold live_ids_of; by rewrite Hl.
Qed.

(** C21. The bucket implements the abstract storage that the protocol
    theorems assume.  Every call ends (a listing needs fuel for its pages); when
    it succeeds, its result and the objects it leaves are those of the abstract
    call, and when it fails the bucket stands for the storage before or after
    that call.  The keys of the records, of the intents of different epochs, of
    the final dots and of the registrations never collide. *)
Theorem s3_storage_refines_store fuel (c : StorageCall) w st :
  apart_from_nodes cfg → store_rel (objects w (bucket cfg)) st →
  (∀ p, (length (pages w (bucket cfg) p) <= fuel)%nat) →
  refines c st (s3_exec (T := T) fuel cfg c w).
Proof. apply s3_call_refines. Qed.
End refinement.

(** ** Departed nodes *)
Lemma parse_final_dot_key_ok cfg n d :
  trim_end_matches "/"%char (cfg_prefix cfg) = cfg_prefix cfg → d < u64_modulus →
  let key := cfg_prefix cfg ++ "/" ++ FINAL_DOTS_PREFIX ++ n ++ "_" ++ show_u64 d ++ ".json" in
  parse_final_dot_key cfg key = (if char_free "_"%char n then Some (n, d) else None) ∧
  starts_with (final_dots_key_prefix cfg) key = true.
Proof.
  intros Htrim Hd. cbv zeta. unfold parse_final_dot_key, final_dots_key_prefix, key. rewrite Htrim.
  assert (cfg_prefix cfg ++ "/" ++ FINAL_DOTS_PREFIX ++ n ++ "_" ++ show_u64 d ++ ".json" =
    (cfg_prefix cfg ++ "/final_dots/") ++ (n ++ "_" ++ show_u64 d) ++ ".json") as Hkey.
  { rewrite !string_app_assoc. done. }
  split.
  2: { apply starts_with_spec. eexists. rewrite !string_app_assoc. done. }
  rewrite Hkey.
  rewrite (proj2 (starts_with_spec _ _)) by eauto.
  rewrite (proj2 (ends_with_spec _ _)) by (rewrite <- string_app_assoc; eauto). cbn [andb].
  replace (String.length _ - String.length ".json")%nat with
    (String.length ((cfg_prefix cfg ++ "/final_dots/") ++ (n ++ "_" ++ show_u64 d)))
    by (rewrite !length_string_app; lia).
  rewrite slice_app. change (n ++ "_" ++ show_u64 d) with (n ++ String "_" (show_u64 d)).
  destruct (char_free "_"%char n) eqn:Hn.
  - rewrite split_char_app, (split_char_free _ (show_u64 d)) by (done || apply show_u64_char_free; auto).
    by rewrite parse_u64_show.
  - destruct (split_char_many "_"%char n (show_u64 d) Hn) as (a & b & c & l & ->). done.
Qed.

Lemma parse_final_dot_key_free cfg k n d :
  parse_final_dot_key cfg k = Some (n, d) → char_free "_"%char n = true.
Proof.
  unfold parse_final_dot_key. destruct (_ && _); [|done].
  destruct (split_char "_"%char _) as [|a [|b [|]]] eqn:Hs; try done.
  destruct (parse_u64 b); [|done]. intros [= <- _].
  eapply split_char_parts. rewrite Hs. by left.
Qed.

Lemma collect_loop_lookup (l : list (NodeId * Counter)) m n :
  foldl (λ (m : gmap NodeId Counter) e, <[e.1 := e.2]> m) m l !! n =
    match last (List.filter (λ e, bool_decide (e.1 = n)) l) with
    | Some e => Some e.2
    | None => m !! n
    end.
Proof.
  revert m. induction l as [|[p c] l IH]; intros m; simpl; [done|]. rewrite IH.
  case_bool_decide as Hp; subst.
  - rewrite last_cons. destruct (last _); [done|]. by rewrite lookup_insert_eq.
  - by rewrite lookup_insert_ne.
Qed.

(** A node has a final dot when some key says so. *)
Lemma collect_final_dots_Some cfg keys n d :
  collect_final_dots cfg keys !! n = Some d →
  ∃ k, k ∈ keys ∧ parse_final_dot_key cfg k = Some (n, d).
Proof.
  unfold collect_final_dots. rewrite collect_loop_lookup, lookup_empty.
  destruct (last _) as [[p c]|] eqn:Hlast; [|done]. intros [= ->].
  apply last_Some_elem_of, list_elem_of_In, filter_In in Hlast as [Hin Hp].
  apply list_elem_of_In, list_elem_of_omap in Hin as (k & Hk & Hparse).
  apply bool_decide_eq_true in Hp. simpl in Hp. subst p. eauto.
Qed.

Lemma collect_final_dots_None cfg keys k n c :
  collect_final_dots cfg keys !! n = None → k ∈ keys → parse_final_dot_key cfg k ≠ Some (n, c).
Proof.
  unfold collect_final_dots. rewrite collect_loop_lookup, lookup_empty. intros Hnone Hk Hparse.
  destruct (last _) eqn:Hlast; [done|]. apply last_None in Hlast.
  assert ((n, c) ∈ List.filter (λ e, bool_decide (e.1 = n)) (omap (parse_final_dot_key cfg) keys)) as Hin.
  { apply list_elem_of_In, filter_In. rewrite bool_decide_eq_true. split; [|done].
    apply list_elem_of_In, list_elem_of_omap. eauto. }
  rewrite Hlast in Hin. by apply elem_of_nil in Hin.
Qed.

Lemma collect_final_dots_lookup cfg keys k n d :
  (∀ k c, k ∈ keys → parse_final_dot_key cfg k = Some (n, c) → c = d) →
  k ∈ keys → parse_final_dot_key cfg k = Some (n, d) →
  collect_final_dots cfg keys !! n = Some d.
Proof.
  intros Hd Hk Hparse. destruct (collect_final_dots cfg keys !! n) as [c|] eqn:Hc.
  - apply collect_final_dots_Some in Hc as (k' & Hk' & Hparse'). f_equal. by eapply Hd.
  - by destruct (collect_final_dots_None cfg keys k n d Hc Hk).
Qed.

Lemma parse_final_dot_key_apart cfg k e :
  apart_from_nodes cfg → parse_final_dot_key cfg k = Some e → starts_with DISCOVERY_NODES_PREFIX k = false.
Proof.
  intros Hap. unfold parse_final_dot_key. destruct (starts_with _ k) eqn:Hs; [|done]. simpl. intros _.
  apply starts_with_spec in Hs as [rest ->]. rewrite !string_app_assoc. apply (Hap ("final_dots/" ++ rest)).
Qed.

(** What is read of a node depends on the keys that name it. *)
Lemma collect_final_dots_same cfg p (objs objs' : gmap string bytes) :
  (∀ k c, parse_final_dot_key cfg k = Some (p, c) → is_Some (objs !! k) ↔ is_Some (objs' !! k)) →
  collect_final_dots cfg (listing (final_dots_key_prefix cfg) objs) !! p =
  collect_final_dots cfg (listing (final_dots_key_prefix cfg) objs') !! p.
Proof.
  intros Hsame. unfold collect_final_dots. rewrite !collect_loop_lookup.
  assert (∀ keys, List.filter (λ e, bool_decide (e.1 = p)) (omap (parse_final_dot_key cfg) keys) =
    omap (parse_final_dot_key cfg) (filter (λ k, fst <$> parse_final_dot_key cfg k = Some p) keys)) as Hf.
  { induction keys as [|k keys IH]; [done|]. rewrite filter_cons. simpl.
    destruct (parse_final_dot_key cfg k) as [[q c]|] eqn:Hk; simpl; [|done].
    case_bool_decide as Hq; case_decide; simplify_eq; [|done].
    simpl. rewrite Hk. f_equal. exact IH. }
  rewrite !Hf. rewrite (listing_filter _ _ objs objs'); [done|].
  intros k Hk _. destruct (parse_final_dot_key cfg k) as [[q c]|] eqn:Hp; simplify_eq/=. by eapply Hsame.
Qed.

Section departure.
Context {W T : Type} `{AwsS3 W} {objects : W → string → gmap string bytes} `{!AwsS3Ok W objects}
  `{Chrono T}.
Context (cfg : GcStorageConfig).

Lemma delete_loop b keys w :
  (∀ b k w, is_ok (delete_object b k w).1 = true) →
  ∀ k, objects (foldl (λ w old_key, (delete_object b old_key w).2) w keys) b !! k =
    if decide (k ∈ keys) then None else objects w b !! k.
Proof.
  intros Hok. revert w. induction keys as [|k' keys IH]; intros w k; simpl; [done|].
  rewrite IH. pose proof (delete_object_ok b k' w) as Hd. specialize (Hok b k' w).
  destruct (delete_object b k' w) as [r w1]. simpl in *.
  destruct Hd as [-> | [Hno _]]; [|congruence]. rewrite lookup_delete.
  repeat case_decide; set_solver.
Qed.

Definition final_dot_key (n : NodeId) (d : Counter) : string :=
  cfg_prefix cfg ++ "/" ++ FINAL_DOTS_PREFIX ++ n ++ "_" ++ show_u64 d ++ ".json".

Lemma registration_prefix_nodes n k :
  starts_with (registration_key_prefix n) k = true → starts_with DISCOVERY_NODES_PREFIX k = true.
Proof.
  rewrite !starts_with_spec. intros [rest ->]. unfold registration_key_prefix.
  eexists. by rewrite !string_app_assoc.
Qed.

(** The keys of the node are gone, its final dot is there. *)
Lemma deregister_objects fuel (self : Discovery) d payload w w' :
  dc_bucket (d_config self) = bucket cfg →
  (∀ p, (length (pages w (bucket cfg) p) <= fuel)%nat) →
  (∀ b k w, is_ok (delete_object b k w).1 = true) →
  starts_with DISCOVERY_NODES_PREFIX (final_dot_key (d_self_id self) d) = false →
  deregister fuel self (cfg_prefix cfg) d payload w = Some (Ok tt, w') →
  ∀ k, objects w' (bucket cfg) !! k =
    if decide (starts_with (registration_key_prefix (d_self_id self)) k = true) then None
    else if decide (k = final_dot_key (d_self_id self) d) then Some payload
    else objects w (bucket cfg) !! k.
Proof.
  intros Hb Hfuel Hdel Hkey. unfold deregister. rewrite Hb.
  set (n := d_self_id self) in *. set (b := bucket cfg) in *. fold (final_dot_key n d).
  destruct (list_object_keys_ok fuel b (registration_key_prefix n) w (Hfuel _))
    as (r & w1 & -> & Hobj1 & Hr). simpl. destruct r as [keys|]; [|done]. subst keys.
  pose proof (put_object_ok b (final_dot_key n d) payload "application/json" w1) as Hput.
  destruct (put_object b _ payload "application/json" w1) as [[[]|e] w2]; [|done].
  destruct Hput as [Hobj2|[? _]]; [|done]. intros [= <-] k.
  rewrite (delete_loop b (listing (registration_key_prefix n) (objects w b)) w2 Hdel k).
  rewrite Hobj2, Hobj1, lookup_insert.
  destruct (decide (k ∈ listing _ _)) as [Hin|Hnin].
  - apply elem_of_listing in Hin as [Hin _]. by rewrite decide_True.
  - rewrite elem_of_listing in Hnin. destruct (decide (starts_with _ k = true)) as [Hs|Hs].
    + rewrite decide_False by (intros <-; apply registration_prefix_nodes in Hs; congruence).
      apply eq_None_not_Some. tauto.
    + repeat case_decide; congruence.
Qed.

(** What the bucket says of a node whose keys were replaced by a final dot. *)
Lemma departed_bucket n d payload (objs objs' : gmap string bytes) :
  apart_from_nodes cfg →
  trim_end_matches "/"%char (cfg_prefix cfg) = cfg_prefix cfg → d < u64_modulus →
  (∀ k c, is_Some (objs !! k) → parse_final_dot_key cfg k = Some (n, c) → c = d) →
  (∀ k, objs' !! k =
     if decide (starts_with (registration_key_prefix n) k = true) then None
     else if decide (k = final_dot_key n d) then Some payload else objs !! k) →
  n ∉ live_ids_of (T := T) objs' ∧
  objs' !! final_dot_key n d = Some payload ∧
  collect_final_dots cfg (listing (final_dots_key_prefix cfg) objs') !! n =
    if char_free "_"%char n then Some d else None.
Proof.
  intros Hap Htrim Hd Huniq Hobjs.
  destruct (parse_final_dot_key_ok cfg n d Htrim Hd) as [Hparse Hstarts]. fold (final_dot_key n d) in *.
  assert (starts_with (registration_key_prefix n) (final_dot_key n d) ≠ true) as Hne.
  { intros Hs%registration_prefix_nodes. assert (starts_with DISCOVERY_NODES_PREFIX (final_dot_key n d) = false)
      by (unfold final_dot_key; rewrite <- Htrim; apply Hap). congruence. }
  split; [by apply live_ids_keys; intros k Hk; rewrite Hobjs, decide_True|].
  split; [by rewrite Hobjs, decide_False, decide_True|].
  destruct (char_free "_"%char n) eqn:Hfree.
  - apply (collect_final_dots_lookup cfg _ (final_dot_key n d)); [|apply elem_of_listing|done].
    + intros k c [_ Hk]%elem_of_listing Hp. rewrite Hobjs in Hk.
      case_decide; [by destruct Hk|]. case_decide; [congruence|]. by eapply Huniq.
    + split; [done|]. rewrite Hobjs, decide_False, decide_True by done. by eexists.
  - destruct (collect_final_dots _ _ !! n) as [c|] eqn:Hc; [|done].
    apply collect_final_dots_Some in Hc as (k & _ & Hp%parse_final_dot_key_free). congruence.
Qed.

(** C22. After a node has deregistered without an error, it is no longer listed as a
    member, and the collectors read its final dot if its id has no underscore, and
    none if it has.  This takes a service in which every deletion succeeds (the
    program logs a deletion that fails and goes on, which leaves the node listed), a
    storage prefix without trailing slash (the keys do not match otherwise), records
    of the storage apart from the registrations, pages enough, and no other final dot
    of the node in the bucket, which could contradict this one. *)
Theorem deregistration_reaches_the_collectors fuel (self : Discovery) d payload w w' :
  let n := d_self_id self in
  let b := bucket cfg in
  dc_bucket (d_config self) = b → apart_from_nodes cfg →
  trim_end_matches "/"%char (cfg_prefix cfg) = cfg_prefix cfg → d < u64_modulus →
  (∀ p, (length (pages w b p) <= fuel)%nat) →
  (∀ b k w, is_ok (delete_object b k w).1 = true) →
  (∀ k c, is_Some (objects w b !! k) → parse_final_dot_key cfg k = Some (n, c) → c = d) →
  deregister fuel self (cfg_prefix cfg) d payload w = Some (Ok tt, w') →
  n ∉ live_ids_of (T := T) (objects w' b) ∧
  collect_final_dots cfg (listing (final_dots_key_prefix cfg) (objects w' b)) !! n =
    if char_free "_"%char n then Some d else None.
Proof.
  intros n b Hb Hap Htrim Hd Hfuel Hdel Huniq Hder.
  assert (starts_with DISCOVERY_NODES_PREFIX (final_dot_key n d) = false) as Hkey
    by (unfold final_dot_key; rewrite <- Htrim; apply Hap).
  pose proof (deregister_objects fuel self d payload w w' Hb Hfuel Hdel Hkey Hder) as Hobjs.
  destruct (departed_bucket n d payload _ _ Hap Htrim Hd Huniq Hobjs) as (? & _ & ?). done.
Qed.
End departure.

(** ** Witnesses *)
#[local] Instance EpochMetadata_eq_dec : EqDecision EpochMetadata.
Proof. solve_decision. Defined.
#[local] Instance EpochMetadata_countable : Countable EpochMetadata.
Proof.
  by refine (inj_countable' (λ m, (em_epoch m, em_v_stable m, em_obsolete_dots m))
    (λ '(a, b, c), mkEpochMetadata a b c) _); intros [].
Defined.
#[local] Instance EpochState_eq_dec : EqDecision EpochState.
Proof. solve_decision. Defined.
#[local] Instance EpochState_countable : Countable EpochState.
Proof.
  by refine (inj_countable' (λ m, (es_epoch m, es_initiator_clock m, es_state_payload m))
    (λ '(a, b, c), mkEpochState a b c) _); intros [].
Defined.
#[local] Instance GcIntentRecord_countable : Countable GcIntentRecord.
Proof.
  by refine (inj_countable' (λ m, (gi_epoch m, gi_initiator m))
    (λ '(a, b), mkGcIntentRecord a b) _); intros [].
Defined.

Definition countable_json (T : Type) `{Countable T} : Json T := {|
  json_to_vec := encode_to_vec (Message := countable_message T);
  json_from_slice := decode (Message := countable_message T)
|}.

Lemma countable_json_ok (T : Type) `{Countable T} : @JsonOk T (countable_json T).
Proof. split. intros v. by apply (decode_encode (MessageOk := countable_message_ok T (λ _, True))). Qed.

#[local] Instance metadata_json : Json EpochMetadata := countable_json EpochMetadata.
#[local] Instance metadata_json_ok : JsonOk EpochMetadata := countable_json_ok EpochMetadata.
#[local] Instance state_json : Json EpochState := countable_json EpochState.
#[local] Instance state_json_ok : JsonOk EpochState := countable_json_ok EpochState.
#[local] Instance intent_json : Json GcIntentRecord := countable_json GcIntentRecord.
#[local] Instance intent_json_ok : JsonOk GcIntentRecord := countable_json_ok GcIntentRecord.

Definition demo_storage : GcStorageConfig := mkGcStorageConfig "crdt-peers" "gc".

Lemma demo_apart : apart_from_nodes demo_storage.
Proof. intros s. reflexivity. Qed.

Abbreviation Millis := ({ z : Z | in_i64 z = true }) (only parsing).

Lemma s3_storage_refines_store_witness :
  refines (T := Millis) demo_storage (objects := bucket_objects) (ClaimGcIntent 1 "A")
    (mkStore None None ∅ ∅ [])
    (s3_exec (T := Millis) 1 demo_storage (ClaimGcIntent 1 "A") (∅ : Buckets)).
Proof.
  apply (s3_storage_refines_store (T := Millis) demo_storage).
  - exact demo_apart.
  - split; [reflexivity|reflexivity|reflexivity|reflexivity|reflexivity].
  - intros p. simpl. lia.
Defined.

Lemma deregistration_reaches_the_collectors_witness :
  ∃ w', deregister 1 demo_node "gc" 7 [x00] (∅ : Buckets) = Some (Ok tt, w') ∧
    collect_final_dots demo_storage
      (listing (final_dots_key_prefix demo_storage) (bucket_objects w' "crdt-peers")) !! "A" = Some 7.
Proof.
  eexists. split; [reflexivity|].
  refine (proj2 (deregistration_reaches_the_collectors (T := Millis) (objects := bucket_objects)
    demo_storage 1 demo_node 7 [x00] (∅ : Buckets) _ _ _ _ _ _ _ _ eq_refl)).
  - reflexivity.
  - exact demo_apart.
  - reflexivity.
  - reflexivity.
  - intros p. simpl. lia.
  - reflexivity.
  - intros k c [v Hv]. exfalso. unfold bucket_objects in Hv. rewrite lookup_empty in Hv. simpl in Hv.
    rewrite lookup_empty in Hv. discriminate Hv.
Defined.
