(* ===== verification/GcProtocol.v ===== *)
(** * The garbage-collection protocol over shared storage

    Properties of the programs of [Coordinator]: what a run of [initiate_gc],
    [observe_epoch_change] and [new_replica_bootstrap] does on every branch,
    for any answers of the storage ([trace_of]); the mutual exclusion that the
    intent records give when any number of replicas interleave call by call
    ([sys_step]); and where the protocol gets stuck. *)
From Stdlib Require Import Strings.Byte Strings.String.
From stdpp Require Import base gmap sets list strings fin_maps sorting relations.
From S2P Require Import Prelude Clocks Proto Crdt OrSet Registry Dissemination GcStorage.
From S2P Require Import Coordinator.
Local Open Scope N_scope.
Local Open Scope rust_scope.
Import GcCoordinatorImpl.

#[local] Arguments new_member_exists : simpl never.
#[local] Arguments sort_ids : simpl never.
#[local] Arguments dedup : simpl never.
#[local] Arguments compute_stable_timestamp : simpl never.

(** ** Traces *)
(** A call with the answer it got. *)
Record Event := mkEvent { ev_call : StorageCall; ev_resp : result (resp ev_call) }.

(** [p] can make the calls of [tr], given those answers, and end with [a]. *)
Fixpoint trace_of {A} (p : Prog A) (tr : list Event) (a : A) : Prop :=
  match p with
  | Ret b => tr = [] ∧ b = a
  | Call c k =>
      match tr with
      | [] => False
      | e :: tr' => ∃ r, e = mkEvent c r ∧ trace_of (k r) tr' a
      end
  | OutOfFuel => False
  end.

(** One call of a trace, with its answer. *)
Ltac next_call H :=
  cbn in H;
  match type of H with
  | match ?tr with [] => False | _ :: _ => _ end =>
      let r := fresh "r" in
      let tr' := fresh "tr" in
      destruct tr as [|? tr']; [done|]; destruct H as (r & -> & H)
  end.

(** The end of a run, with its result; and of a run that a call failed. *)
Ltac ended H := cbn in H; destruct H as [-> H]; injection H; intros; subst; cbn.

Ltac failed H := ended H; split_and!; [done|set_solver|set_solver].

(** ** What the loops over the departed nodes do *)
Section loops.
Context {C : Type}.
Implicit Types l : Local C.

Definition without (ps : list NodeId) (m : CausalContext) : CausalContext :=
  foldl (λ m p, delete p m) m ps.

Lemma lookup_without ps (m : CausalContext) k :
  without ps m !! k = if decide (k ∈ ps) then None else m !! k.
Proof.
  revert m. induction ps as [|p ps IH]; intros m; simpl; [done|].
  unfold without in *; simpl. rewrite IH, lookup_delete. repeat case_decide; set_solver.
Qed.

Lemma forget_loop ps l v :
  let '(l', v') := foldl forget (l, v) ps in
  l_crdt l' = l_crdt l ∧ v' = without ps v ∧
  l_dvv l' = {| dot := dot (l_dvv l); context := without ps (context (l_dvv l)) |} ∧
  epoch (l_gc l') = epoch (l_gc l) ∧ config (l_gc l') = config (l_gc l).
Proof.
  revert l v. induction ps as [|p ps IH]; intros l v; simpl.
  - split_and!; try done. by destruct (l_dvv l).
  - specialize (IH (forget (l, v) p).1 (forget (l, v) p).2).
    change (foldl forget (forget (l, v) p) ps) with
      (foldl forget ((forget (l, v) p).1, (forget (l, v) p).2) ps).
    destruct (foldl _ _ ps) as [l' v'].
    destruct IH as (-> & -> & -> & -> & ->). split_and!; [done..| |];
      unfold forget; cbn; unfold remove_matrix_clock_column, remove_matrix_clock_row.
    + destruct (with_matrix_config (fmap (M := gmap NodeId) (delete p))
        (with_matrix (delete p) (l_gc l))) as [_ ->]. by apply with_matrix_config.
    + destruct (with_matrix_config (fmap (M := gmap NodeId) (delete p))
        (with_matrix (delete p) (l_gc l))) as [-> _]. by apply with_matrix_config.
Qed.

Lemma drop_loop ps l :
  let l' := foldl drop_departed l ps in
  l_crdt l' = l_crdt l ∧
  l_dvv l' = {| dot := dot (l_dvv l); context := without ps (context (l_dvv l)) |} ∧
  epoch (l_gc l') = epoch (l_gc l) ∧ config (l_gc l') = config (l_gc l).
Proof.
  revert l. induction ps as [|p ps IH]; intros l; simpl.
  - split_and!; try done. by destruct (l_dvv l).
  - destruct (IH (drop_departed l p)) as (-> & -> & -> & ->).
    split_and!; [done..| |]; unfold drop_departed; cbn; (destruct (gc_replica _); [|done]);
      unfold remove_matrix_clock_column, remove_matrix_clock_row.
    + destruct (with_matrix_config (fmap (M := gmap NodeId) (delete p))
        (with_matrix (delete p) (l_gc l))) as [_ ->]. by apply with_matrix_config.
    + destruct (with_matrix_config (fmap (M := gmap NodeId) (delete p))
        (with_matrix (delete p) (l_gc l))) as [-> _]. by apply with_matrix_config.
Qed.
End loops.

Section protocol.
Context {C Op Delta : Type} `{DeltaCrdt C Op Delta}.
Implicit Types l : Local C.

(** What a committed collection of epoch [n] has done locally and recorded. *)
Definition committed (id : NodeId) l (previous : EpochMetadata) (n : N)
    (s : EpochState) (m : EpochMetadata) l' : Prop :=
  ∃ members final_dots,
    let '(v, obsolete) := compute_stable_timestamp (l_gc l) id members final_dots
                            (Dvv.effective_map (l_dvv l)) in
    ¬ v ⊑c em_v_stable previous ∧
    m = mkEpochMetadata n (without (elements obsolete) v) obsolete ∧
    l_crdt l' = perform_gc (l_crdt l) (frontier_dvv id (em_v_stable m)) ∧
    l_dvv l' = {| dot := dot (l_dvv l);
                  context := without (elements obsolete) (context (l_dvv l)) |} ∧
    s = mkEpochState n (Dvv.effective_map (l_dvv l'))
          (encode_delta (full_state (l_crdt l') (l_dvv l'))).

(** C18. Every run of [initiate_gc], whatever the storage answers.  An abort
    leaves the replica as it was, and releases the intent it claimed; a commit
    writes the state, then the metadata, of the epoch after the one read, moves
    the replica to it and releases the intent; a failing call leaves the epoch
    and never releases the intent, even when it was claimed. *)
Theorem initiate_gc_protocol id l tr res l' :
  trace_of (initiate_gc id l) tr (res, l') →
  let calls := ev_call <$> tr in
  match res with
  | Err _ =>
      epoch (l_gc l') = epoch (l_gc l) ∧ (∀ n, ReleaseGcIntent n ∉ calls) ∧
      (∀ m, WriteEpochMetadata m ∈ calls → ∃ s, WriteEpochState s ∈ calls ∧ es_epoch s = em_epoch m)
  | Ok outcome => ∃ previous rest,
      tr = mkEvent ReadEpochMetadata (Ok previous) :: rest ∧
      let n := u64_add (em_epoch previous) 1 in
      match outcome with
      | Some ConcurrentInitiator =>
          l' = l ∧ calls = [ReadEpochMetadata; ListLiveNodeIds; ClaimGcIntent n id]
      | Some MembershipChange =>
          l' = l ∧ calls = [ReadEpochMetadata; ListLiveNodeIds; ClaimGcIntent n id;
                            ListLiveNodeIds; ReleaseGcIntent n]
      | Some NoProgress =>
          l' = l ∧ calls = [ReadEpochMetadata; ListLiveNodeIds; ClaimGcIntent n id;
                            ListLiveNodeIds; ReadFinalDots; ReleaseGcIntent n]
      | None => ∃ s m,
          calls = [ReadEpochMetadata; ListLiveNodeIds; ClaimGcIntent n id; ListLiveNodeIds;
                   ReadFinalDots; WriteEpochState s; WriteEpochMetadata m; ReleaseGcIntent n] ∧
          committed id l previous n s m l' ∧ epoch (l_gc l') = n
      end
  end.
Proof.
  intros Htr. next_call Htr. destruct r as [previous|e]; [|by failed Htr].
  next_call Htr. destruct r as [regs|e]; [|by failed Htr].
  next_call Htr. destruct r as [[]|e]; [| |by failed Htr].
  2: { ended Htr. exists previous. eauto 10. }
  next_call Htr. destruct r as [regs'|e]; [|by failed Htr].
  cbn in Htr. destruct (new_member_exists _ _).
  { next_call Htr. ended Htr. exists previous. eauto 10. }
  next_call Htr. destruct r as [final_dots|e]; [|by failed Htr].
  cbn in Htr. destruct (compute_stable_timestamp _ _ _ _ _) as [v obsolete] eqn:Hc.
  destruct (vv_leq _ _) eqn:Hleq.
  { next_call Htr. ended Htr. exists previous. eauto 10. }
  unfold collect in Htr. cbn in Htr.
  pose proof (forget_loop (elements obsolete) l v) as Hf.
  destruct (foldl forget (l, v) (elements obsolete)) as [l1 v1].
  destruct Hf as (Hcrdt & -> & Hdvv & Hep & Hcfg). cbn in Htr.
  next_call Htr. destruct r as [[]|e]; [|by failed Htr].
  next_call Htr. destruct r as [[]|e].
  2: { ended Htr. split_and!; [done|set_solver|]. intros m Hm.
       rewrite !elem_of_cons, elem_of_nil in Hm.
       assert (em_epoch m = u64_add (em_epoch previous) 1) as -> by naive_solver.
       eexists. split; [by do 5 right; left|done]. }
  next_call Htr. ended Htr. exists previous. eexists. split; [done|]. do 2 eexists.
  split; [done|]. split; [|done]. exists (dedup (sort_ids regs')), final_dots. rewrite Hc. cbn.
  rewrite Hcrdt. split_and!; try done. by rewrite <- vv_leq_spec, Hleq.
Qed.

(** C20. Every run of [observe_epoch_change]: a failed read or an epoch
    that is not newer changes nothing; a newer one collects under its frontier,
    moves to it, and forgets the obsolete nodes in the vector, keeping the
    replica's own dot.  Observing the same metadata again does nothing. *)
Theorem observe_epoch_change_protocol id l tr res l' :
  trace_of (observe_epoch_change id l) tr (res, l') →
  ∃ r, tr = [mkEvent ReadEpochMetadata r] ∧
  match r with
  | Err e => res = Err e ∧ l' = l
  | Ok md =>
      if em_epoch md <=? epoch (l_gc l) then res = Ok false ∧ l' = l
      else
        res = Ok true ∧ epoch (l_gc l') = em_epoch md ∧
        config (l_gc l') = config (l_gc l) ∧
        l_crdt l' = perform_gc (l_crdt l) (frontier_dvv id (em_v_stable md)) ∧
        dot (l_dvv l') = dot (l_dvv l) ∧
        (∀ k, context (l_dvv l') !! k =
           if decide (k ∈ em_obsolete_dots md) then None else context (l_dvv l) !! k) ∧
        trace_of (observe_epoch_change id l') [mkEvent ReadEpochMetadata (Ok md)] (Ok false, l')
  end.
Proof.
  intros Htr. next_call Htr. exists r. destruct r as [md|e]; [|by ended Htr].
  cbn in Htr. destruct (_ <=? _) eqn:Hle; [by ended Htr|].
  pose proof (drop_loop (elements (em_obsolete_dots md))
    (mkLocal (set_epoch (l_gc l) (em_epoch md))
       (perform_gc (l_crdt l) (frontier_dvv id (em_v_stable md))) (l_dvv l))) as Hd.
  ended Htr. destruct Hd as (Hcrdt & Hdvv & Hep & Hcfg). split_and!; try done.
  - by rewrite Hdvv.
  - intros k. rewrite Hdvv. cbn. rewrite lookup_without.
    by rewrite (decide_ext _ (k ∈ em_obsolete_dots md)) by apply elem_of_elements.
  - exists (Ok md). split; [done|]. cbn. rewrite Hep, N.leb_refl. done.
Qed.

(** ** Mutual exclusion *)
(** The rules a program keeps towards the intents it holds: it claims when it
    holds nothing, releases what it holds, and writes the records of an epoch
    only while it holds that epoch's intent. *)
Fixpoint disciplined {A} (held : option N) (p : Prog A) : Prop :=
  match p with
  | Ret _ | OutOfFuel => True
  | Call c k =>
      (match c as c return (result (resp c) → Prog A) → Prop with
       | ClaimGcIntent n _ => λ k,
           held = None ∧ disciplined (Some n) (k (Ok true)) ∧
           disciplined None (k (Ok false)) ∧ ∀ e, disciplined None (k (Err e))
       | ReleaseGcIntent n => λ k, held = Some n ∧ ∀ r, disciplined None (k r)
       | WriteEpochMetadata m => λ k, held = Some (em_epoch m) ∧ ∀ r, disciplined held (k r)
       | WriteEpochState s => λ k, held = Some (es_epoch s) ∧ ∀ r, disciplined held (k r)
       | _ => λ k, ∀ r, disciplined held (k r)
       end) k
  end.

(** A program that only reads and sleeps. *)
Definition is_read (c : StorageCall) : bool :=
  match c with
  | ReadEpochMetadata | ReadEpochState | ReadFinalDots | ReadGcIntent _
  | ListLiveNodeIds | Sleep _ => true
  | _ => false
  end.

Fixpoint read_only {A} (p : Prog A) : Prop :=
  match p with
  | Ret _ | OutOfFuel => True
  | Call c k => is_read c = true ∧ ∀ r, read_only (k r)
  end.

Lemma read_only_disciplined {A} held (p : Prog A) : read_only p → disciplined held p.
Proof.
  induction p as [a|c k IH|]; simpl; [done| |done]. intros [Hc Hk].
  destruct c; try done; intros r; by apply IH.
Qed.

Lemma read_only_bind {A B} (f : A → Prog B) (p : Prog A) :
  read_only p → (∀ a, read_only (f a)) → read_only (prog_bind f p).
Proof.
  intros Hp Hf. induction p as [a|c k IH|]; simpl in *; [apply Hf| |done].
  destruct Hp as [Hc Hk]. split; [done|]. intros r. by apply IH.
Qed.

Lemma read_only_gc_bind {A B} (m : GcM C A) (f : A → GcM C B) l :
  read_only (m l) → (∀ a l', read_only (f a l')) → read_only (gc_bind m f l).
Proof.
  intros Hm Hf. apply read_only_bind; [done|]. intros [[a|e] l']; cbn; [apply Hf|done].
Qed.

Ltac read_only_step := apply read_only_gc_bind; [done|intros; cbv beta zeta].

Lemma await_intent_read_only fuel a b l : read_only (await_intent fuel a b l).
Proof.
  revert l. induction fuel as [|fuel IH]; intros l; [done|]. cbn [await_intent].
  do 3 (read_only_step). case_match; [done|apply IH].
Qed.

Lemma await_state_read_only fuel a l : read_only (await_state fuel a l).
Proof.
  revert l. induction fuel as [|fuel IH]; intros l; [done|]. cbn [await_state].
  read_only_step. case_match; [done|]. read_only_step. apply IH.
Qed.

Lemma bootstrap_read_only fuel id l : read_only (new_replica_bootstrap fuel id l).
Proof.
  unfold new_replica_bootstrap. do 2 read_only_step.
  apply read_only_gc_bind; [case_match; [apply await_intent_read_only|done]|intros].
  apply read_only_gc_bind; [apply await_state_read_only|intros].
  do 3 read_only_step. done.
Qed.

Lemma observe_read_only id l : read_only (observe_epoch_change id l).
Proof.
  unfold observe_epoch_change. do 2 read_only_step. case_match; [done|].
  do 3 read_only_step. done.
Qed.

Lemma initiate_gc_disciplined id l : disciplined None (initiate_gc id l).
Proof.
  cbn. intros [previous|e]; cbn; [|done].
  intros [regs|e]; cbn; [|done].
  split_and!; [done| |done..].
  intros [regs'|e]; cbn; [|done].
  destruct (new_member_exists _ _); cbn; [done|].
  intros [final_dots|e]; cbn; [|done].
  destruct (compute_stable_timestamp _ _ _ _ _) as [v obsolete].
  destruct (vv_leq _ _); cbn; [done|].
  unfold collect; cbn. destruct (foldl forget _ _) as [l1 v1]; cbn.
  split; [done|]. intros [[]|e]; cbn; [|done].
  split; [done|]. intros [[]|e]; cbn; done.
Qed.

(** *** Replicas sharing the storage *)
Record Thread := mkThread { t_prog : Prog unit; t_held : option N }.

Record System := mkSystem { s_store : Store; s_threads : list Thread }.

Definition erase {A} (p : Prog A) : Prog unit := prog_bind (λ _, Ret tt) p.

(** The programs replicas run, from any local state. *)
Inductive gc_program : Prog unit → Prop :=
| run_initiate id l : gc_program (erase (initiate_gc id l))
| run_observe id l : gc_program (erase (observe_epoch_change id l))
| run_bootstrap fuel id l : gc_program (erase (new_replica_bootstrap fuel id l)).

(** The intent a program holds after a call. *)
Definition hold (c : StorageCall) (r : result (resp c)) (held : option N) : option N :=
  match c as c return result (resp c) → option N with
  | ClaimGcIntent n _ => λ r, match r with Ok true => Some n | _ => held end
  | ReleaseGcIntent _ => λ _, None
  | _ => λ _, held
  end r.

(** A replica starts a program, a call takes effect and is answered, a call
    fails before or after taking effect, or members and final dots change. *)
Inductive sys_step : System → System → Prop :=
| sys_start st ts p :
    gc_program p → sys_step (mkSystem st ts) (mkSystem st (ts ++ [mkThread p None]))
| sys_call st ts i c k held :
    ts !! i = Some (mkThread (Call c k) held) →
    sys_step (mkSystem st ts)
      (mkSystem (store_exec c st).2
         (<[i := mkThread (k (store_exec c st).1) (hold c (store_exec c st).1 held)]> ts))
| sys_fail st ts i c k held e (took_effect : bool) :
    ts !! i = Some (mkThread (Call c k) held) →
    sys_step (mkSystem st ts)
      (mkSystem (if took_effect then (store_exec c st).2 else st)
         (<[i := mkThread (k (Err e)) (hold c (Err e) held)]> ts))
| sys_members st ts dots members :
    sys_step (mkSystem st ts)
      (mkSystem (mkStore (st_metadata st) (st_state st) (st_intents st) dots members) ts).

Definition sys_reachable (sys : System) : Prop :=
  ∃ st, rtc sys_step (mkSystem st []) sys.

(** The next call writes the records of epoch [n]. *)
Definition writes_next (p : Prog unit) (n : N) : Prop :=
  match p with
  | Call (WriteEpochMetadata m) _ => em_epoch m = n
  | Call (WriteEpochState s) _ => es_epoch s = n
  | _ => False
  end.

Record sys_ok (sys : System) : Prop := {
  sok_disciplined : ∀ i t, s_threads sys !! i = Some t → disciplined (t_held t) (t_prog t);
  sok_intent : ∀ i t n, s_threads sys !! i = Some t → t_held t = Some n →
    is_Some (st_intents (s_store sys) !! n);
  sok_exclusive : ∀ i j t u n, s_threads sys !! i = Some t → s_threads sys !! j = Some u →
    t_held t = Some n → t_held u = Some n → i = j
}.

Lemma erase_disciplined {A} held (p : Prog A) : disciplined held p → disciplined held (erase p).
Proof.
  unfold erase. revert held. induction p as [a|c k IH|]; intros held; simpl; [done| |done].
  destruct c; simpl; naive_solver.
Qed.

Lemma gc_program_disciplined p : gc_program p → disciplined None p.
Proof.
  intros []; apply erase_disciplined; [apply initiate_gc_disciplined|..];
    apply read_only_disciplined; [apply observe_read_only|apply bootstrap_read_only].
Qed.

(** What a call leaves of the intents, and what a disciplined caller may hold
    before it. *)
Lemma intents_after c st n :
  st_intents (store_exec c st).2 !! n =
    match c with
    | ClaimGcIntent m id =>
        if decide (m = n) then
          match st_intents st !! n with
          | Some rec => Some rec
          | None => Some (mkGcIntentRecord n id)
          end
        else st_intents st !! n
    | ReleaseGcIntent m => if decide (m = n) then None else st_intents st !! n
    | _ => st_intents st !! n
    end.
Proof.
  destruct c as [| | | | |m id|m|m| |]; simpl; try done; [|by rewrite lookup_delete].
  destruct (st_intents st !! m) eqn:He; simpl.
  - case_decide; [subst|done]. by rewrite He.
  - rewrite lookup_insert. case_decide; [subst; by rewrite He|done].
Qed.

Lemma hold_after c st held n :
  hold c (store_exec c st).1 held = Some n →
  held = Some n ∨ ∃ id, c = ClaimGcIntent n id ∧ st_intents st !! n = None.
Proof.
  destruct c as [| | | | |m id|m|m| |]; simpl; try (by left).
  destruct (st_intents st !! m) eqn:He; simpl; [by left|].
  intros [= <-]. eauto.
Qed.

Lemma hold_failed c e held n : hold c (Err e) held = Some n → held = Some n.
Proof. by destruct c. Qed.

(** A caller that keeps the rules stays within them, and does not release an
    intent of somebody else. *)
Lemma disciplined_call {A} held c (k : result (resp c) → Prog A) st :
  disciplined held (Call c k) →
  disciplined (hold c (store_exec c st).1 held) (k (store_exec c st).1) ∧
  ∀ e, disciplined (hold c (Err e) held) (k (Err e)).
Proof.
  destruct c as [| | | | |m id|m|m| |]; simpl; try (split; intros; naive_solver).
  intros (-> & Ht & Hf & He). destruct (st_intents st !! m); simpl; eauto.
Qed.

(** Replacing the program of one thread. *)
Lemma sys_ok_update st ts i p held p' held' st' :
  sys_ok (mkSystem st ts) → ts !! i = Some (mkThread p held) →
  disciplined held' p' →
  (∀ n, held' = Some n → held = Some n ∨ st_intents st !! n = None) →
  (∀ n, held' = Some n → is_Some (st_intents st' !! n)) →
  (∀ n, is_Some (st_intents st !! n) → held ≠ Some n → is_Some (st_intents st' !! n)) →
  sys_ok (mkSystem st' (<[i := mkThread p' held']> ts)).
Proof.
  intros [Hd Hi Hx] Hti Hd' Hnew Hheld Hkeep. simpl in *.
  assert (∀ j u n, i ≠ j → ts !! j = Some u → t_held u = Some n → held' = Some n → False) as Hother.
  { intros j u n Hij Hu Hun Hn. destruct (Hnew n Hn) as [Hold|Hnone].
    - apply Hij. by eapply (Hx i j (mkThread p held) u n).
    - destruct (Hi j u n Hu Hun). congruence. }
  split; simpl.
  - intros j t [(-> & <- & _)|[_ Ht]]%list_lookup_insert_Some; [done|by eapply Hd].
  - intros j t n [(-> & <- & _)|[Hij Ht]]%list_lookup_insert_Some Hn; [by apply Hheld|].
    apply Hkeep; [by eapply Hi|]. intros ->. apply Hij. by eapply (Hx i j (mkThread p (Some n)) t n).
  - intros j1 j2 t u n [(-> & <- & _)|[Hij1 Ht]]%list_lookup_insert_Some
      [(-> & <- & _)|[Hij2 Hu]]%list_lookup_insert_Some Hn Hn'; simpl in *; try done.
    + by destruct (Hother j2 u n).
    + by destruct (Hother j1 t n).
    + by eapply Hx.
Qed.

Lemma sys_step_ok sys sys' : sys_step sys sys' → sys_ok sys → sys_ok sys'.
Proof.
  intros Hstep Hok. destruct Hstep as [st ts p Hp|st ts i c k held Hi|st ts i c k held e eff Hi|].
  - destruct Hok as [Hd Hi Hx]; simpl in *.
    assert (∀ j t, (ts ++ [mkThread p None]) !! j = Some t → ts !! j = Some t ∨ t = mkThread p None)
      as Hlook.
    { intros j t [?|[_ Ht]]%lookup_app_Some; [by left|right].
      by apply list_lookup_singleton_Some in Ht as [_ <-]. }
    split; simpl.
    + intros j t [?| ->]%Hlook; [by eapply Hd|by apply gc_program_disciplined].
    + intros j t n [?| ->]%Hlook; [by eapply Hi|done].
    + intros j1 j2 t u n [?| ->]%Hlook [?| ->]%Hlook; try done. by eapply Hx.
  - pose proof (sok_disciplined _ Hok i _ Hi) as Hd; simpl in Hd.
    eapply sys_ok_update; [done..| | | |].
    + by apply disciplined_call.
    + intros n [?|(id & -> & ?)]%hold_after; eauto.
    + intros n Hn. rewrite intents_after. apply hold_after in Hn as Hn'.
      destruct Hn' as [->|(id & -> & Hnone)].
      * pose proof (sok_intent _ Hok i _ n Hi eq_refl) as Hin; simpl in Hin.
        destruct c; simpl in *; try done. repeat case_match; done.
      * rewrite decide_True, Hnone by done. done.
    + intros n Hn Hne. rewrite intents_after. destruct c; try done; case_decide; try done.
      * subst. by destruct (st_intents st !! n).
      * subst. destruct Hne. by apply Hd.
  - pose proof (sok_disciplined _ Hok i _ Hi) as Hd; simpl in Hd.
    eapply sys_ok_update; [done..| | | |].
    + by apply (disciplined_call _ _ _ st).
    + intros n ?%hold_failed. by left.
    + intros n Hn. apply hold_failed in Hn as Hn'. subst held.
      pose proof (sok_intent _ Hok i _ n Hi eq_refl) as Hin; simpl in Hin.
      destruct eff; [|done]. rewrite intents_after.
      destruct c; simpl in *; try done. by repeat case_match.
    + intros n Hn Hne. destruct eff; [|done]. rewrite intents_after.
      destruct c; try done; case_decide; try done.
      * subst. by destruct (st_intents st !! n).
      * subst. destruct Hne. by apply Hd.
  - destruct Hok as [Hd Hi Hx]. by split.
Qed.

Lemma sys_reachable_ok sys : sys_reachable sys → sys_ok sys.
Proof.
  intros [st Hsteps]. assert (sys_ok (mkSystem st [])) as Hok by (split; done).
  remember (mkSystem st []) as sys0 eqn:Heq. clear Heq.
  induction Hsteps; [done|]. eauto using sys_step_ok.
Qed.

(** The next writer of an epoch's records. *)
Lemma writer_is_exclusive sys i t n :
  sys_ok sys → s_threads sys !! i = Some t → writes_next (t_prog t) n →
  t_held t = Some n ∧ is_Some (st_intents (s_store sys) !! n) ∧
  ∀ j u, s_threads sys !! j = Some u → j ≠ i →
    t_held u ≠ Some n ∧ ¬ writes_next (t_prog u) n.
Proof.
  intros Hok Ht Hw.
  assert (∀ j u, s_threads sys !! j = Some u → writes_next (t_prog u) n → t_held u = Some n)
    as Hwriter.
  { intros j u Hu Hwu. pose proof (sok_disciplined _ Hok j u Hu) as Hd.
    destruct (t_prog u) as [|[]|]; simpl in *; try done; destruct Hd as [-> _]; by subst. }
  assert (t_held t = Some n) as Hheld by eauto.
  split_and!; [done|by eapply sok_intent|]. intros j u Hu Hji.
  assert (t_held u ≠ Some n) as Hne.
  { intros Hun. apply Hji. by eapply (sok_exclusive _ Hok). }
  split; [done|]. eauto.
Qed.

(** Any number of replicas initiate, observe and bootstrap over one storage,
    interleaved call by call, with calls that fail before or after taking
    effect: whoever is about to write the state or the metadata of an epoch
    holds that epoch's intent, which is recorded in the storage, and nobody else
    holds it or is about to write that epoch. *)
Theorem epoch_writes_are_exclusive sys i t n :
  sys_reachable sys → s_threads sys !! i = Some t → writes_next (t_prog t) n →
  t_held t = Some n ∧ is_Some (st_intents (s_store sys) !! n) ∧
  ∀ j u, s_threads sys !! j = Some u → j ≠ i →
    t_held u ≠ Some n ∧ ¬ writes_next (t_prog u) n.
Proof. intros ?%sys_reachable_ok. by apply writer_is_exclusive. Qed.

(** ** Runs over the storage alone *)
Lemma run_gc_bind {A B W} (exec : Exec W) (m : GcM C A) (f : A → GcM C B) l w :
  run_prog exec (gc_bind m f l) w =
    '(p, w') ← run_prog exec (m l) w;
    match p.1 with
    | Ok a => run_prog exec (f a p.2) w'
    | Err e => Some ((Err e, p.2), w')
    end.
Proof.
  unfold gc_bind. rewrite run_prog_bind.
  destruct (run_prog exec (m l) w) as [[[[a|e] l'] w']|]; done.
Qed.

Definition metadata_of (st : Store) : EpochMetadata := default default_metadata (st_metadata st).

Definition state_of (st : Store) : EpochState := default default_state (st_state st).

Definition members_of (st : Store) : list NodeId := dedup (sort_ids (st_members st)).

(** The stable timestamp a replica computes from the storage and its matrix. *)
Definition stable_of (id : NodeId) l (st : Store) : CausalContext :=
  (compute_stable_timestamp (l_gc l) id (members_of st) (st_final_dots st)
     (Dvv.effective_map (l_dvv l))).1.

(** [initiate_gc] after it has read the metadata [previous]. *)
Definition initiate_rest (id : NodeId) l (previous : EpochMetadata)
    : Prog (result (option GcInitiationAbortReason) * Local C) :=
  match initiate_gc id l with
  | Call c k =>
      match c as c return (result (resp c) → _) → _ with
      | ReadEpochMetadata => λ k, k (Ok previous)
      | _ => λ _, OutOfFuel
      end k
  | p => p
  end.

Lemma run_initiate_rest id l st :
  run_prog store_exec (initiate_gc id l) st =
    run_prog store_exec (initiate_rest id l (metadata_of st)) st.
Proof. done. Qed.

Lemma concurrent_run id l previous st :
  is_Some (st_intents st !! u64_add (em_epoch previous) 1) →
  run_prog store_exec (initiate_rest id l previous) st =
    Some ((Ok (Some ConcurrentInitiator), l), st).
Proof. intros [rec Hrec]. cbn. rewrite Hrec. done. Qed.

Lemma commit_run id l previous st :
  let n := u64_add (em_epoch previous) 1 in
  st_intents st !! n = None → vv_leq (stable_of id l st) (em_v_stable previous) = false →
  ∃ l' s m,
    run_prog store_exec (initiate_rest id l previous) st =
      Some ((Ok None, l'),
            mkStore (Some m) (Some s) (st_intents st) (st_final_dots st) (st_members st)) ∧
    committed id l previous n s m l' ∧ epoch (l_gc l') = n.
Proof.
  intros n Hnone Hleq. unfold n, stable_of in *. cbn. rewrite Hnone. cbn.
  rewrite new_member_exists_refl. cbn.
  destruct (compute_stable_timestamp _ _ _ _ _) as [v obsolete] eqn:Hc; cbn in Hleq.
  rewrite Hleq. cbn. unfold collect; cbn. pose proof (forget_loop (elements obsolete) l v) as Hf.
  destruct (foldl forget (l, v) (elements obsolete)) as [l1 v1].
  destruct Hf as (Hcrdt & -> & Hdvv & Hep & Hcfg). cbn.
  rewrite delete_insert_id by done. do 3 eexists. split; [done|]. split; [|done].
  exists (members_of st), (st_final_dots st). rewrite Hc. cbn. rewrite Hcrdt.
  split_and!; try done. by rewrite <- vv_leq_spec, Hleq.
Qed.

(** An epoch number can be committed twice: a replica that read
    the metadata before another one committed and released the next epoch still
    claims that epoch's intent, and its commit replaces the records of the other
    with records of the same number, which the replicas that observed the first
    ones take for old. *)
Theorem stale_initiator_recommits_epoch idA idB lA lB st :
  let n := u64_add (em_epoch (metadata_of st)) 1 in
  st_intents st !! n = None →
  vv_leq (stable_of idA lA st) (em_v_stable (metadata_of st)) = false →
  vv_leq (stable_of idB lB st) (em_v_stable (metadata_of st)) = false →
  ∃ k lB' st1 lA' st2,
    initiate_gc idA lA = Call ReadEpochMetadata k ∧
    run_prog store_exec (initiate_gc idB lB) st = Some ((Ok None, lB'), st1) ∧
    run_prog store_exec (k (Ok (metadata_of st))) st1 = Some ((Ok None, lA'), st2) ∧
    em_epoch (metadata_of st1) = n ∧ em_epoch (metadata_of st2) = n ∧
    epoch (l_gc lB') = n ∧ epoch (l_gc lA') = n ∧
    ∀ id l', l_gc l' = l_gc lB' →
      run_prog store_exec (observe_epoch_change id l') st2 = Some ((Ok false, l'), st2).
Proof.
  intros n Hnone HA HB.
  destruct (commit_run idB lB (metadata_of st) st Hnone HB) as (lB' & sB & mB & HrunB & HcB & HeB).
  set (st1 := mkStore _ _ _ _ _) in HrunB.
  destruct (commit_run idA lA (metadata_of st) st1) as (lA' & sA & mA & HrunA & HcA & HeA);
    [done..|].
  set (st2 := mkStore _ _ _ _ _) in HrunA.
  assert (∀ id l previous s m l', committed id l previous n s m l' → em_epoch m = n) as Hm.
  { intros id l previous s m l' (ms & fd & Hcm). destruct (compute_stable_timestamp _ _ _ _ _).
    by destruct Hcm as (_ & -> & _). }
  eexists _, lB', st1, lA', st2. split; [done|]. split_and!; try done.
  - cbn. by eapply Hm.
  - cbn. by eapply Hm.
  - intros id l' Hl'. cbn. rewrite Hl', HeB.
    assert (em_epoch mA = n) as -> by (by eapply Hm). rewrite N.leb_refl. done.
Qed.

(** *** A failed commit *)
(** The storage refuses to write an epoch's state. *)
Definition failing_exec (e : string) : Exec Store := λ c st,
  match c with
  | WriteEpochState _ => (Err e, st)
  | _ => store_exec c st
  end.

Lemma await_intent_stuck fuel (l : Local C) st n cur :
  is_Some (st_intents st !! n) → em_epoch (metadata_of st) = cur →
  run_prog store_exec (await_intent fuel n cur l) st = None.
Proof.
  intros [rec Hrec] Hcur. induction fuel as [|fuel IH]; [done|]. cbn.
  fold (metadata_of st). rewrite Hcur, N.ltb_irrefl, Hrec. apply IH.
Qed.

(** A commit whose write fails leaves its intent claimed for good:
    the replica has dropped its tombstones but not moved to the epoch, every
    later initiation of every replica finds a concurrent initiator, and every
    replica that joins polls without end. *)
Theorem failed_commit_blocks_the_protocol id l st e :
  let n := u64_add (em_epoch (metadata_of st)) 1 in
  st_intents st !! n = None →
  vv_leq (stable_of id l st) (em_v_stable (metadata_of st)) = false →
  ∃ l' st',
    run_prog (failing_exec e) (initiate_gc id l) st = Some ((Err e, l'), st') ∧
    st' = mkStore (st_metadata st) (st_state st) (<[n := mkGcIntentRecord n id]> (st_intents st))
            (st_final_dots st) (st_members st) ∧
    epoch (l_gc l') = epoch (l_gc l) ∧
    (∃ v, l_crdt l' = perform_gc (l_crdt l) (frontier_dvv id v)) ∧
    (∀ id' l'', run_prog store_exec (initiate_gc id' l'') st' =
       Some ((Ok (Some ConcurrentInitiator), l''), st')) ∧
    (∀ fuel id' l'', run_prog store_exec (new_replica_bootstrap fuel id' l'') st' = None).
Proof.
  intros n Hnone Hleq. unfold stable_of in Hleq. cbn. fold (metadata_of st) n.
  rewrite Hnone. cbn. rewrite new_member_exists_refl. cbn.
  change (dedup (sort_ids (st_members st))) with (members_of st).
  destruct (compute_stable_timestamp _ _ _ _ _) as [v obsolete] eqn:Hc; cbn in Hleq.
  rewrite Hleq. cbn. unfold collect; cbn. pose proof (forget_loop (elements obsolete) l v) as Hf.
  destruct (foldl forget (l, v) (elements obsolete)) as [l1 v1].
  destruct Hf as (Hcrdt & -> & Hdvv & Hep & Hcfg). cbn.
  do 2 eexists. split; [done|]. split; [done|]. cbn. split_and!; [done|rewrite Hcrdt; eauto| |].
  - intros id' l''. fold (metadata_of st) n. by rewrite lookup_insert_eq.
  - intros fuel id' l''. fold (metadata_of st) n. rewrite lookup_insert_eq.
    rewrite run_gc_bind, await_intent_stuck; [done|..]; cbn.
    + rewrite lookup_insert_eq. eauto.
    + done.
Qed.

(** ** Bootstrapping *)
(** A storage on which another node commits while a program runs.  The calls of the
    program are numbered from 0; each number says which call is the first to come
    after the claim of the other node, after its state, and so on.  A release that
    fails, or comes late, is one after the last call. *)
Record Commit := mkCommit {
  claimed : nat; state_written : nat; metadata_written : nat; released : nat
}.

Definition in_order (c : Commit) : Prop :=
  (claimed c <= state_written c <= metadata_written c)%nat ∧ (metadata_written c <= released c)%nat.

Section commit.
Context (before : Store) (initiator : NodeId) (md : EpochMetadata) (x : EpochState) (c : Commit).

(** What the other node has called when the program makes its [t]-th call. *)
Definition committing (t : nat) : list StorageCall :=
  (if decide (claimed c <= t)%nat then [ClaimGcIntent (em_epoch md) initiator] else []) ++
  (if decide (state_written c <= t)%nat then [WriteEpochState x] else []) ++
  (if decide (metadata_written c <= t)%nat then [WriteEpochMetadata md] else []) ++
  (if decide (released c <= t)%nat then [ReleaseGcIntent (em_epoch md)] else []).

Definition store_during (t : nat) : Store :=
  foldl (λ st call, (store_exec call st).2) before (committing t).

Definition exec_during : Exec nat := λ call t, ((store_exec call (store_during t)).1, S t).

Abbreviation n := (em_epoch (metadata_of before)).
Hypothesis Hn : n + 1 < u64_max.
Hypothesis Hbefore : es_epoch (state_of before) = n.
Hypothesis Hfree : st_intents before !! (n + 1) = None ∧ st_intents before !! (n + 2) = None.
Hypothesis Hmd : em_epoch md = n + 1.
Hypothesis Hx : es_epoch x = n + 1.
Hypothesis Horder : in_order c.

Ltac phases t := unfold store_during, committing; rewrite Hmd; destruct Horder, Hfree as [Hf _];
  destruct (decide (claimed c <= t)%nat), (decide (state_written c <= t)%nat),
    (decide (metadata_written c <= t)%nat), (decide (released c <= t)%nat);
    try lia; cbn; rewrite ?Hf; cbn.

Lemma during_epoch t :
  em_epoch (metadata_of (store_during t)) = if decide (metadata_written c <= t)%nat then n + 1 else n.
Proof using All. by phases t. Qed.

Lemma during_state t :
  state_of (store_during t) = if decide (state_written c <= t)%nat then x else state_of before.
Proof using All. by phases t. Qed.

Lemma during_intent t :
  st_intents (store_during t) !! (n + 1) = None ↔ (t < claimed c ∨ released c <= t)%nat.
Proof using All. phases t; rewrite ?lookup_delete_eq, ?lookup_insert_eq; split; by (done || lia). Qed.

Lemma during_next_intent t : st_intents (store_during t) !! (n + 2) = None.
Proof using All.
  destruct Hfree as [_ Hf2].
  phases t; rewrite ?lookup_delete_ne, ?lookup_insert_ne by lia; done.
Qed.

Lemma during_state_epoch t :
  es_epoch (state_of (store_during t)) = if decide (state_written c <= t)%nat then n + 1 else n.
Proof using All. rewrite during_state. by case_decide. Qed.

(** One pass of the loop reads the epoch with the second call of the pass and
    the intent with the third. *)
Lemma await_intent_pass fuel l t :
  (claimed c <= t)%nat →
  run_prog exec_during (await_intent (S fuel) (n + 1) n l) t =
    if decide (metadata_written c <= t + 1)%nat then Some ((Ok (n + 1), l), (t + 3)%nat)
    else if decide (released c <= t + 2)%nat then Some ((Ok n, l), (t + 3)%nat)
    else run_prog exec_during (await_intent fuel (n + 1) n l) (t + 3)%nat.
Proof using All.
  intros Ht. cbn. fold (metadata_of (store_during (S t))). rewrite during_epoch.
  replace (S (S (S t))) with (t + 3)%nat by lia. replace (S t) with (t + 1)%nat by lia.
  pose proof (during_intent (S (t + 1))) as Hi.
  destruct (decide (metadata_written c <= t + 1)%nat) as [HM|HM], (decide (released c <= t + 2)%nat) as [HR|HR].
  1, 2: by rewrite (proj2 (N.ltb_lt _ _)) by lia.
  - rewrite N.ltb_irrefl. cbn. rewrite bool_decide_true by (apply Hi; lia). done.
  - rewrite N.ltb_irrefl. cbn. rewrite bool_decide_false by (rewrite Hi; lia). done.
Qed.

Lemma await_intent_fresh fuel l t :
  (claimed c <= t)%nat → (∀ j, ¬ (metadata_written c = t + 2 + 3 * j ∧ released c = t + 2 + 3 * j))%nat →
  (metadata_written c + 2 <= t + 3 * fuel)%nat → (0 < fuel)%nat →
  ∃ t', run_prog exec_during (await_intent fuel (n + 1) n l) t = Some ((Ok (n + 1), l), t') ∧
    (metadata_written c <= t')%nat.
Proof using All.
  destruct Horder as [_ HMR].
  revert t. induction fuel as [|fuel IH]; intros t Hc Hj Hf Hf0; [lia|]. rewrite await_intent_pass by done.
  pose proof (Hj 0%nat). case_decide; [eexists; split; [done|lia]|]. rewrite decide_False by lia.
  apply IH; [lia|intros j; specialize (Hj (S j)); lia|lia..].
Qed.

Lemma await_intent_stale fuel l t j :
  (claimed c <= t)%nat → metadata_written c = (t + 2 + 3 * j)%nat → released c = (t + 2 + 3 * j)%nat →
  run_prog exec_during (await_intent fuel (n + 1) n l) t = None ∨
  ∃ t', run_prog exec_during (await_intent fuel (n + 1) n l) t = Some ((Ok n, l), t') ∧
    (metadata_written c <= t')%nat.
Proof using All.
  revert t j. induction fuel as [|fuel IH]; intros t j Hc HM HR; [by left|].
  rewrite await_intent_pass by done. rewrite decide_False by lia.
  case_decide; [right; eexists; split; [done|lia]|]. apply (IH _ (j - 1)%nat); lia.
Qed.

Lemma await_state_ready fuel k l t :
  es_epoch (state_of (store_during t)) = k →
  run_prog exec_during (await_state (S fuel) k l) t = Some ((Ok (state_of (store_during t)), l), S t).
Proof using All. intros <-. cbn. fold (state_of (store_during t)). by rewrite N.eqb_refl. Qed.

Lemma await_state_overtaken fuel l t :
  (state_written c <= t)%nat → run_prog exec_during (await_state fuel n l) t = None.
Proof using All.
  revert t. induction fuel as [|fuel IH]; intros t Ht; [done|]. cbn.
  fold (state_of (store_during t)). rewrite during_state_epoch, decide_True by done.
  rewrite (proj2 (N.eqb_neq _ _)) by lia. apply IH. lia.
Qed.

(** What a replica makes of the state that it settled on. *)
Definition installed (id : NodeId) (l : Local C) (s : EpochState) : result unit * Local C :=
  match decode_delta (es_state_payload s) with
  | Ok delta => (Ok tt, mkLocal (set_epoch (l_gc l) (es_epoch s)) (merge_delta (l_crdt l) delta)
                          (Dvv.merge (l_dvv l) (frontier_dvv id (es_initiator_clock s))))
  | Err e => (Err e, l)
  end.

(** The rest of the bootstrap, once the epoch has been chosen. *)
Definition settle (fuel : nat) (id : NodeId) (k : N) : GcM C unit :=
  epoch_state <-! await_state fuel k ;;
  delta <-! gc_lift (decode_delta (es_state_payload epoch_state)) ;;
  _ <-! update_crdt (λ crdt, merge_delta crdt delta) ;;
  _ <-! update_dvv (λ dvv, Dvv.merge dvv (frontier_dvv id (es_initiator_clock epoch_state))) ;;
  update_gc (λ gc, set_epoch gc k).

Lemma settle_ready fuel id k l t :
  (0 < fuel)%nat → es_epoch (state_of (store_during t)) = k →
  ∃ t', run_prog exec_during (settle fuel id k l) t = Some (installed id l (state_of (store_during t)), t').
Proof using All.
  intros Hf Hk. unfold settle. rewrite run_gc_bind. destruct fuel as [|fuel]; [lia|].
  rewrite await_state_ready by done. subst k. unfold installed. cbn.
  destruct (decode_delta _); cbn; by eexists.
Qed.

Lemma settle_overtaken fuel id l t :
  (state_written c <= t)%nat → run_prog exec_during (settle fuel id n l) t = None.
Proof using All. intros Ht. unfold settle. by rewrite run_gc_bind, await_state_overtaken. Qed.

(** The two first reads. *)
Lemma bootstrap_reads fuel id l :
  run_prog exec_during (new_replica_bootstrap fuel id l) 0%nat =
    if decide (metadata_written c = 0%nat) then run_prog exec_during (settle fuel id (n + 1) l) 2%nat
    else if decide (claimed c <= 1 < released c)%nat
    then run_prog exec_during ((k <-! await_intent fuel (n + 1) n ;; settle fuel id k) l) 2%nat
    else run_prog exec_during (settle fuel id n l) 2%nat.
Proof using All.
  cbn. fold (metadata_of (store_during 0)). rewrite during_epoch.
  pose proof (during_intent 1) as Hi. pose proof (during_next_intent 1) as Hi2.
  destruct (decide (metadata_written c = 0%nat)) as [HM|HM].
  - rewrite decide_True by lia. rewrite u64_add_small by (unfold u64_max, u64_modulus in *; lia).
    replace (n + 1 + 1) with (n + 2) by lia. by rewrite Hi2.
  - rewrite decide_False by lia. rewrite u64_add_small by (unfold u64_max, u64_modulus in *; lia).
    destruct (st_intents (store_during 1) !! (n + 1)) as [rec|] eqn:Hrec.
    + rewrite decide_True; [done|]. destruct (decide (claimed c <= 1 < released c)%nat); [done|].
      exfalso. assert (Some rec = None) by (apply Hi; lia). done.
    + rewrite decide_False; [done|]. pose proof (proj1 Hi eq_refl). lia.
Qed.

(** The bootstrap never ends: the metadata and the release fall between reading the
    epoch and reading the intent, in the first two reads or in a pass of the loop; or
    the claim and the state fall between reading the intent and reading the state. *)
Definition overtaken : Prop :=
  (∃ j, metadata_written c = 3 * j + 1 ∧ released c = 3 * j + 1 ∧ claimed c <= 1)%nat ∨
  (claimed c = 2 ∧ state_written c = 2)%nat.

(** C19. A joining replica that meets a collection in progress.  Another node claims
    the next epoch, writes its state, its metadata, and releases its claim, in this
    order, at any points between the calls of the bootstrap, sleeps included (before
    the first of them and after the last too); the storage was at rest before, with the
    state of its epoch and no claims of the next two; no other collection runs and no
    call fails.  If the commit overtakes the bootstrap, the replica has settled on the old epoch, whose
    state is gone, and it polls without end.  In every other case the bootstrap ends,
    for any fuel beyond the write of the metadata, with the new epoch's state if the
    claim came before its second call, and with the old epoch's otherwise. *)
Theorem bootstrap_waits_for_the_commit id l :
  (overtaken → ∀ fuel, run_prog exec_during (new_replica_bootstrap fuel id l) 0%nat = None) ∧
  (¬ overtaken → ∀ fuel, (metadata_written c < fuel)%nat → ∃ t,
     run_prog exec_during (new_replica_bootstrap fuel id l) 0%nat =
       Some (installed id l (if decide (claimed c <= 1)%nat then x else state_of before), t)).
Proof using All.
  pose proof Horder as [HCSM HMR]. split.
  - intros Hover fuel. rewrite bootstrap_reads, decide_False by (destruct Hover as [(j & ?)|?]; lia).
    destruct Hover as [(j & HM & HR & HC)|[HC HS]];
      [|rewrite decide_False by lia; apply settle_overtaken; lia].
    case_decide; [|apply settle_overtaken; lia]. rewrite run_gc_bind.
    destruct (await_intent_stale fuel l 2 (j - 1)) as [->|(t & -> & Ht)]; [lia..|done|].
    apply settle_overtaken. lia.
  - intros Hno fuel Hfuel. rewrite bootstrap_reads. unfold overtaken in Hno.
    assert (∀ k t, es_epoch (state_of (store_during t)) = k →
      state_of (store_during t) = (if decide (claimed c <= 1)%nat then x else state_of before) →
      ∃ t', run_prog exec_during (settle fuel id k l) t =
        Some (installed id l (if decide (claimed c <= 1)%nat then x else state_of before), t')) as Hend.
    { intros k t Hk <-. apply settle_ready; [lia|done]. }
    destruct (decide (metadata_written c = 0%nat)) as [HM|HM].
    { apply Hend; [rewrite during_state_epoch|rewrite during_state]; rewrite !decide_True by lia; done. }
    destruct (decide (claimed c <= 1 < released c)%nat) as [Hc|Hc].
    + rewrite run_gc_bind. destruct (await_intent_fresh fuel l 2) as (t & -> & Ht); [lia| |lia|lia|].
      { intros j [? ?]. apply Hno. left. exists (S j). lia. }
      apply Hend; [rewrite during_state_epoch|rewrite during_state]; rewrite !decide_True by lia; done.
    + assert (1 < claimed c)%nat as Hlate.
      { destruct (decide (1 < claimed c)%nat); [done|]. destruct Hno. left. exists 0%nat. lia. }
      assert (2 < state_written c)%nat by (destruct (decide (state_written c <= 2)%nat); [destruct Hno; right|]; lia).
      apply Hend; [rewrite during_state_epoch|rewrite during_state]; rewrite !decide_False by lia; done.
Qed.
End commit.
End protocol.

(** ** Concrete runs *)
(** Two replicas that have both seen the first event of [A]; [A] collects. *)
#[local] Instance demo_delta_message : Message ProtoOrSetDelta := countable_message ProtoOrSetDelta.
#[local] Instance demo_op_message : Message ProtoOrSetOp := countable_message ProtoOrSetOp.
#[local] Instance demo_format : ElementFormat RustString := {|
  display := proj1_sig;
  debug := proj1_sig;
  debug_add_entry := λ _, "";
  debug_tombstone_entry := λ _, ""
|}.

Definition demo_local (id other : NodeId) : Local (OrSet RustString) :=
  let seen := {["A" := 1]} in
  mkLocal (demo_gc id other seen) (OrSetImpl.new)
    (Dvv.merge (Dvv.new id) (frontier_dvv id seen)).

Definition demo_store : Store := mkStore None None ∅ ∅ ["B"; "A"].

Lemma initiate_gc_protocol_witness :
  trace_of (initiate_gc "A" (demo_local "A" "B"))
    [mkEvent ReadEpochMetadata (Ok default_metadata); mkEvent ListLiveNodeIds (Ok ["A"]);
     mkEvent (ClaimGcIntent 1 "A") (Ok false)]
    (Ok (Some ConcurrentInitiator), demo_local "A" "B") ∧
  ∃ previous rest,
    [mkEvent ReadEpochMetadata (Ok default_metadata); mkEvent ListLiveNodeIds (Ok ["A"]);
     mkEvent (ClaimGcIntent 1 "A") (Ok false)] = mkEvent ReadEpochMetadata (Ok previous) :: rest.
Proof.
  assert (trace_of (initiate_gc "A" (demo_local "A" "B"))
    [mkEvent ReadEpochMetadata (Ok default_metadata); mkEvent ListLiveNodeIds (Ok ["A"]);
     mkEvent (ClaimGcIntent 1 "A") (Ok false)]
    (Ok (Some ConcurrentInitiator), demo_local "A" "B")) as Htr.
  { do 3 (eexists; split; [reflexivity|]). split; reflexivity. }
  split; [exact Htr|].
  destruct (initiate_gc_protocol "A" (demo_local "A" "B") _ _ _ Htr) as (previous & rest & Heq & _).
  exists previous, rest. exact Heq.
Defined.

(** The metadata that the first call of a trace read. *)
Definition read_metadata (tr : list Event) : option EpochMetadata :=
  match tr with
  | mkEvent ReadEpochMetadata (Ok md) :: _ => Some md
  | _ => None
  end.

Lemma observe_epoch_change_protocol_witness :
  epoch (l_gc (mkLocal (set_epoch (l_gc (demo_local "A" "B")) 3)
    (OrSetImpl.perform_gc (OrSetImpl.new (E := RustString)) (frontier_dvv "A" ∅))
    (l_dvv (demo_local "A" "B")))) = 3.
Proof.
  destruct (observe_epoch_change_protocol "A" (demo_local "A" "B")
    [mkEvent ReadEpochMetadata (Ok (mkEpochMetadata 3 ∅ ∅))] (Ok true) _
    (ltac:(eexists; split; [reflexivity|split; reflexivity]))) as (r & Hr & Hout).
  apply (f_equal read_metadata) in Hr. destruct r as [md|e]; [|discriminate Hr].
  injection Hr as <-. apply Hout.
Defined.

Lemma stale_initiator_recommits_epoch_witness :
  ∃ k lB' st1 lA' st2,
    initiate_gc "A" (demo_local "A" "B") = Call ReadEpochMetadata k ∧
    run_prog store_exec (initiate_gc "B" (demo_local "B" "A")) demo_store =
      Some ((Ok None, lB'), st1) ∧
    run_prog store_exec (k (Ok default_metadata)) st1 = Some ((Ok None, lA'), st2) ∧
    em_epoch (metadata_of st1) = 1 ∧ em_epoch (metadata_of st2) = 1.
Proof.
  destruct (stale_initiator_recommits_epoch "A" "B" (demo_local "A" "B") (demo_local "B" "A")
    demo_store) as (k & lB' & st1 & lA' & st2 & H1 & H2 & H3 & H4 & H5 & _);
    [reflexivity|vm_compute; reflexivity|vm_compute; reflexivity|].
  exists k, lB', st1, lA', st2. split_and!; assumption.
Defined.

Lemma failed_commit_blocks_the_protocol_witness :
  ∃ l' st',
    run_prog (failing_exec "put failed") (initiate_gc "A" (demo_local "A" "B")) demo_store =
      Some ((Err "put failed", l'), st') ∧
    ∀ fuel id l'', run_prog store_exec (new_replica_bootstrap fuel id l'') st' = None.
Proof.
  destruct (failed_commit_blocks_the_protocol "A" (demo_local "A" "B") demo_store "put failed")
    as (l' & st' & Hrun & _ & _ & _ & _ & Hstuck); [reflexivity|vm_compute; reflexivity|].
  exists l', st'. split; assumption.
Defined.

Definition demo_metadata : EpochMetadata := mkEpochMetadata 1 {["A" := 1]} ∅.

Definition demo_epoch_state : EpochState :=
  mkEpochState 1 {["A" := 1]} (encode_delta (full_state (OrSetImpl.new (E := RustString)) (Dvv.new "A"))).

Lemma bootstrap_waits_for_the_commit_witness :
  (∃ t, run_prog (exec_during demo_store "A" demo_metadata demo_epoch_state (mkCommit 1 3 4 6))
     (new_replica_bootstrap 5 "C" (demo_local "C" "A")) 0%nat =
   Some (installed "C" (demo_local "C" "A") demo_epoch_state, t)) ∧
  (installed "C" (demo_local "C" "A") demo_epoch_state).1 = Ok tt ∧
  ∀ fuel, run_prog (exec_during demo_store "A" demo_metadata demo_epoch_state (mkCommit 0 0 1 1))
    (new_replica_bootstrap fuel "C" (demo_local "C" "A")) 0%nat = None.
Proof.
  split_and!.
  - assert (¬ overtaken (mkCommit 1 3 4 6)) as Hno
      by (unfold overtaken; simpl; intros [(j & ? & ? & ?)|?]; lia).
    destruct (proj2 (bootstrap_waits_for_the_commit demo_store "A" demo_metadata demo_epoch_state
      (mkCommit 1 3 4 6) eq_refl eq_refl (conj eq_refl eq_refl) eq_refl eq_refl
      ltac:(unfold in_order; simpl; lia) "C" (demo_local "C" "A")) Hno 5%nat ltac:(simpl; lia)) as (t & Ht).
    exists t. exact Ht.
  - vm_compute. reflexivity.
  - apply (proj1 (bootstrap_waits_for_the_commit demo_store "A" demo_metadata demo_epoch_state
      (mkCommit 0 0 1 1) eq_refl eq_refl (conj eq_refl eq_refl) eq_refl eq_refl
      ltac:(unfold in_order; simpl; lia) "C" (demo_local "C" "A"))).
    left. exists 0%nat. simpl. lia.
Defined.

(** The scheduler lets thread [i] make its next call. *)
Definition step_thread (i : nat) (sys : System) : System :=
  match s_threads sys !! i with
  | Some (mkThread (Call c k) held) =>
      let '(r, st) := store_exec c (s_store sys) in
      mkSystem st (<[i := mkThread (k r) (hold c r held)]> (s_threads sys))
  | _ => sys
  end.

Lemma step_thread_steps i sys :
  rtc (sys_step (C := OrSet RustString)) sys (step_thread i sys).
Proof.
  unfold step_thread. destruct sys as [st ts]; simpl.
  destruct (ts !! i) as [[[a|c k|] held]|] eqn:Hi; try done.
  pose proof (sys_call st ts i c k held Hi) as Hstep.
  destruct (store_exec c st). by apply rtc_once.
Qed.

(** [A] has claimed the intent and is about to write the state. *)
Definition demo_system : System :=
  Nat.iter 5 (step_thread 0)
    (mkSystem demo_store [mkThread (erase (initiate_gc "A" (demo_local "A" "B"))) None]).

Lemma demo_system_reachable : sys_reachable (C := OrSet RustString) demo_system.
Proof.
  exists demo_store. eapply rtc_l; [apply sys_start, (run_initiate "A" (demo_local "A" "B"))|].
  unfold demo_system. generalize 5%nat. intros fuel. induction fuel as [|fuel IH]; [done|].
  simpl. etrans; [apply IH|apply step_thread_steps].
Qed.

Lemma demo_writer :
  ∃ t, s_threads demo_system !! 0%nat = Some t ∧ writes_next (t_prog t) 1.
Proof. eexists. split; [reflexivity|]. vm_compute. reflexivity. Qed.

Lemma epoch_writes_are_exclusive_witness :
  is_Some (st_intents (s_store demo_system) !! 1) ∧
  ∀ j u, s_threads demo_system !! j = Some u → j ≠ 0%nat → ¬ writes_next (t_prog u) 1.
Proof.
  destruct demo_writer as (t & Ht & Hw).
  destruct (epoch_writes_are_exclusive demo_system 0 t 1 demo_system_reachable Ht Hw)
    as (_ & Hi & Hother).
  split; [exact Hi|]. intros j u Hu Hj. apply (Hother j u Hu Hj).
Defined.
