(* ===== verification/GcSafety.v ===== *)
(** * Why collecting is safe

    The coordinator against the network of replicas: the rows of the matrix clock
    are lower bounds of what the replicas really know, whatever messages and
    steps feed them, and so forgetting the obsolete nodes and collecting
    tombstones under the stable timestamp are steps of the network of [Network],
    to which its consistency theorems apply.  What one replica has collected every
    other may collect, whenever it observes the epoch. *)
From Stdlib Require Import Strings.Byte Strings.String.
From stdpp Require Import base gmap sets list strings fin_maps relations.
From S2P Require Import Prelude Clocks Proto Crdt OrSet Replication Network Registry Dissemination.
From S2P Require Import GcStorage Coordinator GcProtocol.
Local Open Scope N_scope.
Local Open Scope rust_scope.
Import GcCoordinatorImpl.

Section safety.
Context {E : Type} `{Countable E} {Tx : Type}.
Implicit Types net : Net E.
Implicit Types r : Replica E.
Implicit Types self : GcCoordinator.

(** Every row is kept for a node that is or was there, and claims no more than
    that node knows. *)
Definition rows_sound net (mc : MatrixClock) : Prop :=
  ∀ p ctx, mc !! p = Some ctx → kept_by net p ctx.

Definition matrix_sound net self : Prop := rows_sound net (default ∅ (matrix_clock self)).

Lemma later_kept net net' p ctx : net_later net net' → kept_by net p ctx → kept_by net' p ctx.
Proof.
  intros Hl [Hu Hctx]. split; [by apply (nl_used _ _ Hl)|]. intros r' Hr'.
  destruct (nl_live _ _ Hl p r') as (r & Hr & Hle); [done..|]. etrans; [by apply Hctx|done].
Qed.

Lemma kept_join net p a b : kept_by net p a → kept_by net p b → kept_by net p (vv_join a b).
Proof. intros [Hu Ha] [_ Hb]. split; [done|]. intros r Hr. apply vv_join_lub; auto. Qed.

Lemma kept_below net p a b : a ⊑c b → kept_by net p b → kept_by net p a.
Proof. intros Hab [Hu Hb]. split; [done|]. intros r Hr. etrans; [exact Hab|by apply Hb]. Qed.

Lemma rows_sound_steps net net' mc :
  reachable net → rtc net_step net net' → rows_sound net mc → rows_sound net' mc.
Proof.
  intros Hreach Hsteps Hmc p ctx Hp.
  destruct (net_steps_ok _ _ Hsteps (reachable_ok _ Hreach)) as [_ Hl].
  eapply later_kept; [done|by apply Hmc].
Qed.

Lemma update_sound net self km :
  coordinator_ok self → matrix_sound net self → rows_sound net km →
  matrix_sound net (update_matrix_clock km self).
Proof.
  intros Hok Hself Hkm p ctx. destruct (gc_replica (config self)) eqn:Hgc.
  - destruct (lookup_update_matrix km self p) as [_ ->]; [done..|].
    destruct (km !! p) as [new|] eqn:Hnew, (default ∅ (matrix_clock self) !! p) as [old|] eqn:Hold;
      intros Heq; simplify_eq; [|by apply Hkm|by apply Hself].
    apply kept_join; [by apply Hkm|by apply Hself].
  - unfold update_matrix_clock, with_matrix. rewrite Hgc. apply Hself.
Qed.

Lemma restricted_sound net self (registry : PeerRegistry Tx) km :
  coordinator_ok self → matrix_sound net self →
  get_knowledge_matrix self registry = Some km → rows_sound net km.
Proof.
  intros Hok Hself Hkm p ctx Hp. apply Hself.
  unfold get_knowledge_matrix in Hkm.
  destruct (negb _); [done|]. destruct (matrix_clock self) as [mc|]; [|done].
  simplify_eq/=. rewrite restrict_loop_lookup, lookup_empty in Hp.
  case_decide; [|done]. by destruct (mc !! p).
Qed.

(** The rows of a matrix clock never claim more than the replica really
    knows: it stays so while the network runs, when the knowledge advertised in
    any pull request in flight is recorded for its sender, and when another
    replica's knowledge matrix is merged. *)
Theorem matrix_rows_are_lower_bounds net net' self self' (registry : PeerRegistry Tx) from K km :
  reachable net → rtc net_step net net' → coordinator_ok self → matrix_sound net self →
  coordinator_ok self' → matrix_sound net' self' →
  PullRequest from K ∈ pool net' → get_knowledge_matrix self' registry = Some km →
  matrix_sound net' self ∧
  matrix_sound net' (update_matrix_clock (<[from := K]> ∅) self) ∧
  matrix_sound net' (update_matrix_clock km self).
Proof.
  intros Hreach Hsteps Hok Hself Hok' Hself' Hreq Hkm.
  assert (matrix_sound net' self) as Hs by (by eapply rows_sound_steps).
  split_and!; [done|apply update_sound; try done..].
  - intros p ctx [[-> ->]|[_ Hp]]%lookup_insert_Some; [|by rewrite lookup_empty in Hp].
    pose proof (reachable_ok _ (reachable_steps _ _ Hreach Hsteps)) as Hnet.
    by destruct (nok_pool _ Hnet _ Hreq) as (_ & _ & ?).
  - by eapply restricted_sound.
Qed.

Lemma without_below ps (v : CausalContext) : without ps v ⊑c v.
Proof.
  intros k. unfold get_or0. rewrite lookup_without. case_decide; simpl; lia.
Qed.

(** *** What a collection computes *)
Lemma member_clock_known net n r self mc p rp ctx :
  replicas net !! n = Some r → matrix_clock self = Some mc → matrix_sound net self →
  replicas net !! p = Some rp → member_clock mc n (knowledge r) p = Some ctx → ctx ⊑c known net rp.
Proof.
  intros Hr Hmc Hsound Hp. unfold matrix_sound in Hsound. rewrite Hmc in Hsound. simpl in Hsound.
  unfold member_clock. case_decide as Hpn; [subst p|].
  - intros [= <-]. simplify_eq. apply known_above.
  - intros Hctx. by apply (Hsound p ctx).
Qed.

(** The frontier is below what every replica knows. *)
Lemma frontier_below net n r self members final_dots p rp :
  replicas net !! n = Some r → matrix_sound net self →
  (∀ p, is_Some (replicas net !! p) → p ∈ members) → replicas net !! p = Some rp →
  let '(v, obsolete) := compute_stable_timestamp self n members final_dots (knowledge r) in
  without (elements obsolete) v ⊑c known net rp.
Proof.
  intros Hr Hsound Hcover Hp.
  destruct (compute_stable_timestamp _ _ _ _ _) as [v obsolete] eqn:Hc.
  etrans; [apply without_below|].
  replace v with (compute_stable_timestamp self n members final_dots (knowledge r)).1
    by (by rewrite Hc).
  destruct (matrix_clock self) as [mc|] eqn:Hmc.
  2: { unfold compute_stable_timestamp. rewrite Hmc. apply ctx_le_empty. }
  assert (p ∈ members) as Hpm by (apply Hcover; by eexists).
  destruct (member_clock mc n (knowledge r) p) as [ctx|] eqn:Hctx.
  - transitivity ctx; [by eapply compute_below_members|by eapply (member_clock_known net n r self mc)].
  - rewrite (compute_early self mc); [apply ctx_le_empty|done|]. by exists p.
Qed.

(** Every obsolete node has departed, and every replica knows all its events, when
    the final counters are right for the nodes that are not listed. *)
Lemma obsolete_known net n r self members final_dots p :
  replicas net !! n = Some r → matrix_sound net self →
  (∀ p, is_Some (replicas net !! p) → p ∈ members) →
  (∀ p, p ∉ members → final_dots !! p = departed net !! p) →
  p ∈ (compute_stable_timestamp self n members final_dots (knowledge r)).2 →
  ∃ c, departed net !! p = Some c ∧
    ∀ m rm, replicas net !! m = Some rm → c <= get_or0 (known net rm) p.
Proof.
  intros Hr Hsound Hcover Hdots Hp.
  destruct (matrix_clock self) as [mc|] eqn:Hmc.
  2: { unfold compute_stable_timestamp in Hp. by rewrite Hmc in Hp. }
  assert (members ≠ []) as Hne.
  { intros ->. assert (n ∈ []) as Hn by (apply Hcover; by eexists). by apply elem_of_nil in Hn. }
  destruct (compute_stable_timestamp _ _ _ _ _) as [v obsolete] eqn:Hc.
  pose proof (stable_timestamp_cases self mc n members final_dots (knowledge r) Hmc Hne) as Hst.
  rewrite Hc in Hst. destruct Hst as [(_ & _ & ->)|(Hall & _ & v_live & [Hlow _] & Hobs)];
    [by apply elem_of_empty in Hp|].
  destruct (proj1 (Hobs p) Hp) as (Hpm & Hdom & Heq). rewrite Hdots in Heq by done.
  assert (∃ c, departed net !! p = Some c) as [c Hpc].
  { destruct Hdom as [[ctx Hctx]%elem_of_dom|[c Hcp]%elem_of_dom]; [|exists c; congruence].
    assert (kept_by net p ctx) as [[Hlive|Hdep] _]
      by (apply Hsound; by rewrite Hmc); [|exact Hdep].
    by destruct Hpm; apply Hcover. }
  exists c. split; [done|]. intros m rm Hm.
  assert (m ∈ members) as Hmm by (apply Hcover; by eexists).
  destruct (Hall m Hmm) as [ctx Hctx].
  transitivity (get_or0 ctx p).
  - assert (v_live ⊑c ctx) as Hle by (apply Hlow; by exists m).
    specialize (Hle p). by rewrite (get_or0_Some v_live p c) in Hle by congruence.
  - by eapply (member_clock_known net n r self mc).
Qed.

(** *** Collections as runs of the network *)
Definition forget_all (r : Replica E) (ps : list NodeId) : Replica E := foldl engine_forget r ps.

Lemma forget_all_replica r ps :
  forget_all r ps = mkReplica (r_set r)
    {| dot := dot (r_dvv r); context := without ps (context (r_dvv r)) |}.
Proof.
  unfold forget_all, without. revert r.
  induction ps as [|p ps IH]; intros r; simpl; [by destruct r as [? []]|]. by rewrite IH.
Qed.

Lemma allows_mono net net' f m :
  history net' = history net → forgotten net ⊑c forgotten net' → allows net f m → allows net' f m.
Proof.
  intros Hh Hf. destruct m as [from K|to K delta|clock st]; simpl; rewrite ?Hh; try done;
    intros Ha; (etrans; [exact Ha|by apply learnt_mono]).
Qed.

Lemma mentions_mono net net' p c (m : Msg E) :
  forgotten net ⊑c forgotten net' → mentions net p c m → mentions net' p c m.
Proof.
  intros Hf. destruct m as [from K|to K delta|clock st]; simpl; try done;
    rewrite !get_or0_learnt; specialize (Hf p); lia.
Qed.

(** Everybody, and whoever made a message on its way, knows all of [p]'s events. *)
Definition forgettable net (p : NodeId) : Prop :=
  ∃ c, departed net !! p = Some c ∧
    (∀ m r, replicas net !! m = Some r → c <= get_or0 (known net r) p) ∧
    ∀ msg, msg ∈ pool net → mentions net p c msg.

(** A step that changes one replica and what is known of departed nodes. *)
Record same_but net net' (n : NodeId) r' : Prop := {
  sb_steps : rtc net_step net net';
  sb_replicas : replicas net' = <[n := r']> (replicas net);
  sb_pool : pool net' = pool net;
  sb_history : history net' = history net;
  sb_departed : departed net' = departed net
}.

Lemma same_but_later net net' n r' :
  net_ok net → same_but net net' n r' → net_ok net' ∧ net_later net net'.
Proof. intros Hok Hs. apply net_steps_ok; [apply Hs|done]. Qed.

Lemma same_but_trans net1 net2 net3 n r2 r3 :
  same_but net1 net2 n r2 → same_but net2 net3 n r3 → same_but net1 net3 n r3.
Proof.
  intros [? Hr ? ? ?] [? Hr' ? ? ?]. split; try congruence; [by etrans|].
  by rewrite Hr', Hr, insert_insert_eq.
Qed.

Lemma forgettable_later net net' n r r' p :
  net_ok net → replicas net !! n = Some r → same_but net net' n r' →
  forgettable net p → forgettable net' p.
Proof.
  intros Hok Hr Hs (c & Hc & Hall & Hmsg). destruct (same_but_later _ _ _ _ Hok Hs) as [_ Hl].
  exists c. split_and!; [by rewrite (sb_departed _ _ _ _ Hs)| |].
  - intros m rm Hm. assert (used net m) as Hu.
    { rewrite (sb_replicas _ _ _ _ Hs) in Hm. left.
      apply lookup_insert_Some in Hm as [[<- _]|[_ Hm]]; by eexists. }
    destruct (nl_live _ _ Hl m rm Hu Hm) as (r0 & Hr0 & Hle).
    transitivity (get_or0 (known net r0) p); [by eapply Hall|apply Hle].
  - intros msg. rewrite (sb_pool _ _ _ _ Hs). intros Hin.
    eapply mentions_mono; [apply (nl_forgotten _ _ Hl)|by apply Hmsg].
Qed.

Lemma forget_run net n r ps :
  net_ok net → replicas net !! n = Some r → (∀ p, p ∈ ps → forgettable net p) →
  ∃ net', same_but net net' n (forget_all r ps) ∧ stable net' = stable net ∧
    ∀ p, p ∈ ps → get_or0 (departed net) p <= get_or0 (forgotten net') p.
Proof.
  revert net r. induction ps as [|p ps IH]; intros net r Hok Hr Hps.
  { exists net. split_and!; [split; try done|done|set_solver].
    unfold forget_all. simpl. by rewrite insert_id. }
  destruct (Hps p) as (c & Hc & Hall & Hmsg); [set_solver|].
  set (net1 := forget_net net n r p c). assert (same_but net net1 n (engine_forget r p)) as Hs.
  { split; try done. by apply rtc_once, step_forget. }
  destruct (same_but_later _ _ _ _ Hok Hs) as [Hok1 _].
  destruct (IH net1 (engine_forget r p)) as (net' & Hs' & Hst & Hf).
  - done.
  - simpl. by rewrite lookup_insert_eq.
  - intros q Hq. eapply forgettable_later; [exact Hok|done..|]. apply Hps. set_solver.
  - exists net'. split_and!; [by eapply same_but_trans|done|].
    destruct (same_but_later _ _ _ _ Hok1 Hs') as [_ Hl].
    intros q [->|Hq]%elem_of_cons; [|by apply Hf].
    transitivity (get_or0 (forgotten net1) p); [|apply (nl_forgotten _ _ Hl)].
    simpl. rewrite get_or0_insert, decide_True, (get_or0_Some _ _ _ Hc) by done. done.
Qed.

Lemma gc_run net n r f :
  replicas net !! n = Some r →
  (∀ m r', replicas net !! m = Some r' → f ⊑c known net r') →
  (∀ msg, msg ∈ pool net → allows net f msg) →
  same_but net (gc_net net n r f) n (engine_gc r (frontier_dvv n f)).
Proof. intros Hr Hf Hmsg. split; try done. by apply rtc_once, step_gc. Qed.

(** The network accounts for an epoch with the frontier [f] and these obsolete
    nodes: they are forgotten, and the tombstones under [f] do not matter. *)
Definition epoch_recorded net (f : CausalContext) (obsolete : gset NodeId) : Prop :=
  f ⊑c stable net ∧
  ∀ p, p ∈ obsolete → ∃ c, departed net !! p = Some c ∧ c <= get_or0 (forgotten net) p.

Lemma epoch_recorded_later net net' f obsolete :
  net_later net net' → epoch_recorded net f obsolete → epoch_recorded net' f obsolete.
Proof.
  intros Hl [Hf Hobs]. split; [etrans; [exact Hf|apply (nl_stable _ _ Hl)]|].
  intros p Hp. destruct (Hobs p Hp) as (c & Hc & Hle). exists c.
  split; [by eapply lookup_weaken; [|apply (nl_departed _ _ Hl)]|].
  etrans; [exact Hle|apply (nl_forgotten _ _ Hl)].
Qed.

(** The collection of the node [n]: the nodes first, then the tombstones. *)
Lemma collection_run net n r f (obsolete : gset NodeId) :
  net_ok net → replicas net !! n = Some r →
  (∀ m r', replicas net !! m = Some r' → f ⊑c known net r') →
  (∀ msg, msg ∈ pool net → allows net f msg) →
  (∀ p, p ∈ obsolete → forgettable net p) →
  ∃ net', same_but net net' n
            (engine_gc (forget_all r (elements obsolete)) (frontier_dvv n f)) ∧
    epoch_recorded net' f obsolete.
Proof.
  intros Hok Hr Hf Hmsg Hobs.
  destruct (forget_run net n r (elements obsolete)) as (net1 & Hs & Hst & Hfor); [done..| |].
  { intros p Hp%elem_of_elements. by apply Hobs. }
  destruct (same_but_later _ _ _ _ Hok Hs) as [Hok1 Hl].
  exists (gc_net net1 n (forget_all r (elements obsolete)) f). split.
  - eapply same_but_trans; [exact Hs|]. apply gc_run.
    + by rewrite (sb_replicas _ _ _ _ Hs), lookup_insert_eq.
    + intros m rm Hm. assert (used net m) as Hu.
      { rewrite (sb_replicas _ _ _ _ Hs) in Hm. left.
        apply lookup_insert_Some in Hm as [[<- _]|[_ Hm]]; by eexists. }
      destruct (nl_live _ _ Hl m rm Hu Hm) as (r0 & Hr0 & Hle). etrans; [by eapply Hf|done].
    + intros msg. rewrite (sb_pool _ _ _ _ Hs). intros Hin.
      eapply allows_mono; [apply Hs|apply (nl_forgotten _ _ Hl)|by apply Hmsg].
  - split; [apply vv_join_le_r|]. intros p Hp. destruct (Hobs p Hp) as (c & Hc & _). exists c. simpl.
    rewrite (sb_departed _ _ _ _ Hs). split; [done|].
    rewrite <- (get_or0_Some _ _ _ Hc). by apply Hfor, elem_of_elements.
Qed.

(** The frontier and the obsolete nodes of an epoch are known to all. *)
Lemma recorded_known net f obsolete m r :
  net_ok net → epoch_recorded net f obsolete → replicas net !! m = Some r → f ⊑c known net r.
Proof.
  intros Hok [Hf _] Hm. etrans; [exact Hf|]. exact (rok_stable _ _ _ (nok_replicas _ Hok m r Hm)).
Qed.

Lemma recorded_allowed net f obsolete msg :
  net_ok net → epoch_recorded net f obsolete → msg ∈ pool net → allows net f msg.
Proof.
  intros Hok [Hf _] Hin. pose proof (pool_stable net msg Hok Hin) as Ha.
  destruct msg as [from K|to K delta|clock st]; simpl in *; [by etrans| |by etrans].
  intros e d Hd Hr. apply (Ha e d Hd). by eapply removed_by_mono.
Qed.

Lemma recorded_forgettable net f obsolete p :
  net_ok net → epoch_recorded net f obsolete → p ∈ obsolete → forgettable net p.
Proof.
  intros Hok [_ Hobs] Hp. destruct (Hobs p Hp) as (c & Hc & Hle). exists c.
  split_and!; [done| |].
  - intros m r Hm. etrans; [exact Hle|apply forgotten_learnt].
  - intros msg Hin. destruct msg as [from K|to K delta|clock st]; simpl; [|done|];
      (etrans; [exact Hle|apply forgotten_learnt]).
Qed.

Lemma engine_gc_members net n r f e :
  net_ok net → replicas net !! n = Some r →
  OrSetImpl.contains (r_set (engine_gc r (frontier_dvv n f))) e = OrSetImpl.contains (r_set r) e.
Proof.
  intros Hok Hr. destruct (nok_replicas _ Hok n r Hr) as [_ _ _ _ Hrep].
  eapply represents_agree; [|exact Hrep]. by apply gc_represents.
Qed.

(** Observing an epoch drops the tombstones, then the nodes. *)
Definition observed r (n : NodeId) (f : CausalContext) (obsolete : gset NodeId) : Replica E :=
  forget_all (engine_gc r (frontier_dvv n f)) (elements obsolete).

Lemma observed_collected r n f obsolete :
  observed r n f obsolete = engine_gc (forget_all r (elements obsolete)) (frontier_dvv n f).
Proof. unfold observed, engine_gc. by rewrite !forget_all_replica. Qed.

Lemma observation_run net n r f obsolete :
  net_ok net → replicas net !! n = Some r → epoch_recorded net f obsolete →
  ∃ net', same_but net net' n (observed r n f obsolete).
Proof.
  intros Hok Hr Hep. rewrite observed_collected.
  destruct (collection_run net n r f obsolete) as (net' & Hs & _); [done..| | | |by exists net'].
  - intros m rm. by apply (recorded_known net f obsolete).
  - intros msg. by apply (recorded_allowed net f obsolete).
  - intros p. by apply (recorded_forgettable net f obsolete).
Qed.

(** *** Losing what is too old *)
(** A vector that claims the frontier and all that the obsolete nodes did. *)
Definition recent_vector net (f : CausalContext) (obsolete : gset NodeId) (K : CausalContext) : Prop :=
  f ⊑c learnt net K ∧
  ∀ p, p ∈ elements obsolete → get_or0 (departed net) p <= get_or0 (learnt net K) p.

(** Some replica still has the pair. *)
Definition held net (x : E * Dot) : Prop :=
  map_Exists (λ _ r, in_adds (r_set r) x.1 x.2) (replicas net).

Definition recent net (f : CausalContext) (obsolete : gset NodeId) (m : Msg E) : Prop :=
  match m with
  | PullRequest _ K | Snapshot K _ => recent_vector net f obsolete K
  | DeltaResponse _ _ delta => Forall (held net) (delta_adds delta)
  end.

#[local] Instance below_dec (a b : CausalContext) : Decision (a ⊑c b).
Proof. refine (cast_if (decide (vv_leq a b = true))); by rewrite <- vv_leq_spec. Defined.

#[local] Instance held_dec net x : Decision (held net x).
Proof.
  refine (cast_if (decide (Exists (uncurry (λ _ r, in_adds (r_set r) x.1 x.2)) (map_to_list (replicas net)))));
    unfold held; by rewrite map_Exists_to_list.
Defined.

#[local] Instance recent_dec net f obsolete m : Decision (recent net f obsolete m).
Proof.
  assert (∀ K, Decision (recent_vector net f obsolete K)).
  { intros K. unfold recent_vector. apply and_dec; [apply _|].
    refine (cast_if (decide (Forall (λ p, get_or0 (departed net) p <= get_or0 (learnt net K) p)
      (elements obsolete)))); by rewrite <- Forall_forall. }
  destruct m; simpl; apply _.
Defined.

(** A pair that some replica has was not removed under a frontier that all know. *)
Lemma recent_allowed net f obsolete m :
  net_ok net → (∀ n r, replicas net !! n = Some r → f ⊑c known net r) →
  recent net f obsolete m → allows net f m.
Proof.
  intros Hok Hf. destruct m as [from K|to K delta|clock st]; simpl; [by intros [? _]| |by intros [? _]].
  intros Hheld e d Hin Hrem. apply (proj1 (Forall_forall _ _) Hheld) in Hin as (n & r & Hn & Hadd).
  destruct (nok_replicas _ Hok n r Hn) as [_ _ _ _ Hrep].
  apply (rep_adds _ _ _ _ Hrep) in Hadd as (_ & _ & Hnot). apply Hnot.
  eapply removed_by_mono; [by eapply Hf|done].
Qed.

Lemma recent_mentions net f obsolete m p c :
  recent net f obsolete m → p ∈ obsolete → departed net !! p = Some c → mentions net p c m.
Proof.
  intros Hm Hp%elem_of_elements Hc. rewrite <- (get_or0_Some _ _ _ Hc).
  destruct m as [from K|to K delta|clock st]; simpl in *; [by apply Hm|done|by apply Hm].
Qed.

(** A collection may always run if what is too old gets lost. *)
Lemma quiet_collection net n r f (obsolete : gset NodeId) :
  net_ok net → replicas net !! n = Some r →
  (∀ m r', replicas net !! m = Some r' → f ⊑c known net r') →
  (∀ p, p ∈ obsolete → ∃ c, departed net !! p = Some c ∧
     ∀ m r', replicas net !! m = Some r' → c <= get_or0 (known net r') p) →
  ∃ net', rtc net_step net net' ∧ replicas net' = <[n := observed r n f obsolete]> (replicas net) ∧
    departed net' = departed net ∧ epoch_recorded net' f obsolete ∧
    ∀ m, m ∈ pool net → recent net f obsolete m → m ∈ pool net'.
Proof.
  intros Hok Hr Hf Hobs.
  set (net1 := with_pool net (filter (recent net f obsolete) (pool net))).
  assert (net_step net net1) as H1.
  { apply step_lose. intros m [_ Hin]%list_elem_of_filter. done. }
  destruct (net_step_ok _ _ H1 Hok) as [Hok1 _].
  destruct (collection_run net1 n r f obsolete) as (net' & Hs & Hep); [done|done|done|..].
  - intros m [Hm _]%list_elem_of_filter. by apply (recent_allowed net f obsolete).
  - intros p Hp. destruct (Hobs p Hp) as (c & Hc & Hall). exists c. split_and!; [done|done|].
    intros m [Hm _]%list_elem_of_filter. by apply (recent_mentions net f obsolete m).
  - exists net'. rewrite observed_collected. split_and!; [|apply Hs|apply Hs|done|].
    + eapply rtc_l; [exact H1|apply Hs].
    + intros m Hin Hm. rewrite (sb_pool _ _ _ _ Hs). by apply list_elem_of_filter.
Qed.

(** *** Properties *)
(** A replica [n] that collects, with the members that discovery lists and the
    final counters that it reads, which are those of the departed for every node
    that is not listed. *)
Section collection.
Context (net : Net E) (n : NodeId) (r : Replica E) (self : GcCoordinator) (members : list NodeId)
  (final_dots : gmap NodeId Counter).
Hypothesis Hreach : reachable net.
Hypothesis Hr : replicas net !! n = Some r.
Hypothesis Hsound : matrix_sound net self.
Hypothesis Hcover : ∀ p, is_Some (replicas net !! p) → p ∈ members.
Hypothesis Hdots : ∀ p, p ∉ members → final_dots !! p = departed net !! p.

Let outcome := compute_stable_timestamp self n members final_dots (knowledge r).
Let obsolete : gset NodeId := outcome.2.
Let frontier : CausalContext := without (elements obsolete) outcome.1.

(** Everything on its way is at least as recent as the frontier. *)
Hypothesis Hpool : ∀ msg, msg ∈ pool net →
  allows net frontier msg ∧
  ∀ p c, p ∈ obsolete → departed net !! p = Some c → mentions net p c msg.

Lemma frontier_known p rp : replicas net !! p = Some rp → frontier ⊑c known net rp.
Proof.
  intros Hp. pose proof (frontier_below net n r self members final_dots p rp Hr Hsound Hcover Hp) as Hf.
  fold outcome in Hf. unfold frontier, obsolete. by destruct outcome.
Qed.

Lemma obsolete_forgettable p : p ∈ obsolete → forgettable net p.
Proof.
  intros Hp. destruct (obsolete_known net n r self members final_dots p) as (c & Hc & Hall); [done..|].
  exists c. split_and!; [done|done|]. intros msg Hin. by apply (Hpool msg).
Qed.

Lemma collection_recorded :
  ∃ net', same_but net net' n (observed r n frontier obsolete) ∧ epoch_recorded net' frontier obsolete.
Proof.
  rewrite observed_collected. apply collection_run; [by apply reachable_ok|done|..].
  - intros m rm. apply frontier_known.
  - intros msg Hin. by apply Hpool.
  - apply obsolete_forgettable.
Qed.

(** C11. Collecting is safe: when the matrix rows are lower bounds, the
    members cover the replicas, the final counters of all others are read, and nothing
    on its way is older than the frontier,
    the collection that [initiate_gc] does (forgetting the obsolete nodes, dropping
    tombstones) is a run of the network; everybody knows what is collected,
    including every event of the nodes forgotten, which are gone; the members of
    the set do not change. *)
Theorem collection_is_a_network_step :
  (∃ net', rtc net_step net net' ∧ pool net' = pool net ∧
     replicas net' = <[n := observed r n frontier obsolete]> (replicas net)) ∧
  (∀ p rp, replicas net !! p = Some rp → frontier ⊑c known net rp) ∧
  (∀ p, p ∈ obsolete → ∃ c, departed net !! p = Some c ∧ replicas net !! p = None ∧
     ∀ m rm, replicas net !! m = Some rm → get_or0 (known net rm) p = c) ∧
  ∀ e, OrSetImpl.contains (r_set (observed r n frontier obsolete)) e =
       OrSetImpl.contains (r_set r) e.
Proof.
  pose proof (reachable_ok _ Hreach) as Hok. split_and!.
  - destruct collection_recorded as (net' & [? ? ? _ _] & _). by exists net'.
  - apply frontier_known.
  - intros p Hp. destruct (obsolete_forgettable p Hp) as (c & Hc & Hall & _). exists c.
    split_and!; [done|by apply (nok_departed _ Hok _ _ Hc)|]. intros m rm Hm.
    destruct (nok_replicas _ Hok m rm Hm) as [_ _ [Hi _] _ _]. specialize (Hi p).
    rewrite (issued_departed net p c Hok Hc) in Hi. specialize (Hall m rm Hm). lia.
  - intros e. unfold observed. rewrite forget_all_replica. simpl. by apply (engine_gc_members net n r).
Qed.

(** C12. The epoch can be observed, under the conditions of the collection (sound
    rows, members that cover the replicas, the final counters of all others, nothing
    older on its way): however the network goes on after the
    collection (further operations, messages, joins, departures and collections),
    any replica that is there may observe the epoch at any time, and its members
    do not change either; the consistency theorems hold of the result. *)
Theorem collected_epoch_can_be_observed :
  ∃ net1, rtc net_step net net1 ∧
    replicas net1 = <[n := observed r n frontier obsolete]> (replicas net) ∧
    ∀ net2 m rm, rtc net_step net1 net2 → replicas net2 !! m = Some rm →
      (∃ net3, rtc net_step net2 net3 ∧ pool net3 = pool net2 ∧
         replicas net3 = <[m := observed rm m frontier obsolete]> (replicas net2)) ∧
      ∀ e, OrSetImpl.contains (r_set (observed rm m frontier obsolete)) e =
           OrSetImpl.contains (r_set rm) e.
Proof.
  destruct collection_recorded as (net1 & Hs & Hep). exists net1. split_and!; [apply Hs..|].
  intros net2 m rm Hsteps Hm.
  destruct (same_but_later _ _ _ _ (reachable_ok _ Hreach) Hs) as [Hok1 _].
  destruct (net_steps_ok _ _ Hsteps Hok1) as [Hok2 Hl2].
  apply (epoch_recorded_later _ _ _ _ Hl2) in Hep. split.
  - destruct (observation_run net2 m rm frontier obsolete) as (net3 & [? ? ? _ _]); [done..|].
    by exists net3.
  - intros e. unfold observed. rewrite forget_all_replica. simpl. by apply (engine_gc_members net2 m rm).
Qed.
End collection.
End safety.

(** ** Concrete instances *)
(** Final counters that are not read are not harmless.  [A] left after one event,
    and its final counter cannot be read (its id has an underscore, or writing it
    failed); [B] knows the event and has a row for [A], [C] knows nothing of it.
    Then the missing counter equals the missing entry, and [A] is obsolete. *)
Example unread_departure_is_obsolete :
  let b := update_matrix_clock (<["C" := ∅]> ∅) (demo_gc "B" "A" {["A" := 1]}) in
  compute_stable_timestamp b "B" ["B"; "C"] ∅ {["A" := 1]} = (∅, {["A"]}) ∧
  compute_stable_timestamp b "B" ["B"; "C"] {["A" := 1]} {["A" := 1]} = (∅, ∅).
Proof. split; vm_compute; reflexivity. Qed.

(** [A] added an element, which [B] pulled; [A]'s matrix has recorded it. *)
Definition demo_self : GcCoordinator := demo_gc "A" "B" {["A" := 1]}.

Lemma demo_self_ok : coordinator_ok demo_self.
Proof. apply with_matrix_ok, new_coordinator_ok. Qed.

Lemma demo_self_sound : matrix_sound demo2 demo_self.
Proof.
  intros p ctx.
  assert (default (∅ : MatrixClock) (matrix_clock demo_self) = <["B" := {["A" := 1]}]> ∅)
    as -> by (vm_compute; reflexivity).
  intros [[<- <-]|[_ Hp]]%lookup_insert_Some; [|by rewrite lookup_empty in Hp].
  assert (replicas demo2 !! "B" = Some demo_b) as Hb by done.
  split; [left; by eexists|]. intros r Hr. rewrite Hb in Hr. injection Hr as <-.
  assert (knowledge demo_b = {["A" := 1]}) as <- by (vm_compute; reflexivity). apply known_above.
Qed.

(** After [A] left, [B] still has a row for it. *)
Definition demo_self_b : GcCoordinator := demo_gc "B" "A" {["A" := 1]}.

Lemma demo4_reachable : reachable demo4.
Proof.
  eapply reachable_steps; [apply demo2_reachable|].
  eapply rtc_l; [by apply step_lose, list_subseteq_nil|].
  by apply rtc_once, (step_leave (with_pool demo2 []) "A" demo_a).
Qed.

Lemma demo_self_b_sound : matrix_sound demo4 demo_self_b.
Proof.
  intros p ctx.
  assert (default (∅ : MatrixClock) (matrix_clock demo_self_b) = <["A" := {["A" := 1]}]> ∅)
    as -> by (vm_compute; reflexivity).
  intros [[<- <-]|[_ Hp]]%lookup_insert_Some; [|by rewrite lookup_empty in Hp].
  split; [right; eexists; vm_compute; reflexivity|]. intros r Hr.
  assert (replicas demo4 !! "A" = None) as Ha by (vm_compute; reflexivity). congruence.
Qed.

Lemma demo4_members p : is_Some (replicas demo4 !! p) → p ∈ ["B"].
Proof.
  intros Hp%elem_of_dom. assert (dom (replicas demo4) = {["B"]}) as Hdom by (vm_compute; reflexivity).
  rewrite Hdom in Hp. set_solver.
Qed.

Lemma demo4_pool : ∀ msg f (obsolete : gset NodeId), msg ∈ pool demo4 →
  allows demo4 f msg ∧
  ∀ p c, p ∈ obsolete → departed demo4 !! p = Some c → mentions demo4 p c msg.
Proof. intros msg f obs Hin. by apply elem_of_nil in Hin. Qed.

(** [B] forgets [A] and keeps what [A] added. *)
Lemma collection_is_a_network_step_witness :
  (∃ net', rtc net_step demo4 net' ∧ replicas net' !! "B" = Some (observed demo_b "B" ∅ {["A"]})) ∧
  OrSetImpl.contains (r_set (observed demo_b "B" ∅ {["A"]})) "x" = true ∧
  knowledge (observed demo_b "B" ∅ {["A"]}) !! "A" = None.
Proof.
  destruct (collection_is_a_network_step demo4 "B" demo_b demo_self_b ["B"] _ demo4_reachable eq_refl
    demo_self_b_sound demo4_members (λ _ _, eq_refl) (λ msg, demo4_pool msg _ _)) as ((net' & Hsteps & _ & Hrep) & _).
  assert (compute_stable_timestamp demo_self_b "B" ["B"] (departed demo4) (knowledge demo_b) =
          ({["A" := 1]}, {["A"]})) as Hc by (vm_compute; reflexivity).
  rewrite Hc in Hrep. assert (without (elements ({["A"]} : gset NodeId)) {["A" := 1]} = ∅) as Hw
    by (vm_compute; reflexivity).
  simpl in Hrep. rewrite Hw in Hrep.
  split; [|split; vm_compute; reflexivity].
  exists net'. split; [exact Hsteps|]. rewrite Hrep. apply lookup_insert_eq.
Defined.

(** The old messages are gone. *)
Definition demo_quiet : Net string := with_pool demo2 [].

Lemma demo_quiet_reachable : reachable demo_quiet.
Proof.
  eapply reachable_steps; [apply demo2_reachable|]. by apply rtc_once, step_lose, list_subseteq_nil.
Qed.

Lemma demo_quiet_members p : is_Some (replicas demo_quiet !! p) → p ∈ ["A"; "B"].
Proof.
  intros Hp%elem_of_dom. assert (dom (replicas demo_quiet) = list_to_set ["A"; "B"]) as Hdom
    by (vm_compute; reflexivity).
  rewrite Hdom in Hp. by apply elem_of_list_to_set in Hp.
Qed.

Lemma demo_quiet_pool : ∀ msg f (obsolete : gset NodeId), msg ∈ pool demo_quiet →
  allows demo_quiet f msg ∧
  ∀ p c, p ∈ obsolete → departed demo_quiet !! p = Some c → mentions demo_quiet p c msg.
Proof. intros msg f obs Hin. by apply elem_of_nil in Hin. Qed.

(** [B] observes the epoch that [A] commits. *)
Lemma collected_epoch_can_be_observed_witness :
  ∃ net3, rtc net_step demo_quiet net3 ∧
    replicas net3 !! "B" = Some (observed demo_b "B" {["A" := 1]} ∅).
Proof.
  destruct (collected_epoch_can_be_observed demo_quiet "A" demo_a demo_self ["A"; "B"] _
    demo_quiet_reachable eq_refl demo_self_sound demo_quiet_members (λ _ _, eq_refl) (λ msg, demo_quiet_pool msg _ _))
    as (net1 & Hsteps & Hrep & Hobs).
  destruct (Hobs net1 "B" demo_b) as [(net3 & Hsteps3 & _ & Hrep3) _]; [done| |].
  - rewrite Hrep. reflexivity.
  - exists net3. split; [by etrans|]. rewrite Hrep3, lookup_insert_eq.
    assert (compute_stable_timestamp demo_self "A" ["A"; "B"] (departed demo_quiet) (knowledge demo_a) =
          ({["A" := 1]}, ∅)) as Hc by (vm_compute; reflexivity).
    rewrite Hc. reflexivity.
Defined.

Lemma matrix_rows_are_lower_bounds_witness :
  matrix_sound demo2 (update_matrix_clock (<["B" := ∅]> ∅) demo_self).
Proof.
  assert (PullRequest "B" ∅ ∈ pool demo2) as Hreq.
  { assert (knowledge (engine_new "B" : Replica string) = ∅) as <- by (vm_compute; reflexivity).
    right. left. }
  destruct (matrix_rows_are_lower_bounds (Tx := nat) demo2 demo2 demo_self demo_self
    PeerRegistryImpl.new "B" ∅ ∅ demo2_reachable (rtc_refl _ _) demo_self_ok
    demo_self_sound demo_self_ok demo_self_sound Hreq eq_refl)
    as (_ & Hs & _).
  exact Hs.
Defined.
