(* ===== verification/GcOverS3.v ===== *)
(** * Garbage collection over the bucket

    The composition of the coordinator's protocol with the S3 storage and
    discovery: nodes register and deregister, and replicas run the methods of
    [Coordinator] call by call on [s3_exec], all on one bucket.  The simulation
    theorem shows that every such run is a run of the abstract system of
    [GcProtocol], so that its safety theorem holds of the objects of the bucket. *)
From Stdlib Require Import Strings.Byte Strings.String Strings.Ascii.
From stdpp Require Import base gmap sets list strings fin_maps relations.
From S2P Require Import Prelude Text S3 Discovery Clocks Proto Crdt OrSet Replication Registry.
From S2P Require Import Dissemination GcStorage Coordinator S3Storage GcProtocol.
Import S3ClientImpl S3GcStorageImpl GcCoordinatorImpl.
Local Open Scope N_scope.
Local Open Scope string_scope.

Section deployment.
Context {C Op Delta : Type} `{DeltaCrdt C Op Delta}.
Context {W T : Type} `{AwsS3 W} `{Chrono T}
  `{Json EpochMetadata} `{Json EpochState} `{Json GcIntentRecord}.
Context {objects : W → string → gmap string bytes} `{!AwsS3Ok W objects}.
Context (cfg : GcStorageConfig).

(** ** Deployments *)
(** The replicas that run a method, and the world with the bucket. *)
Record Deployment := mkDeployment { dp_world : W; dp_threads : list Thread }.

(** Enough fuel for every listing of the bucket. *)
Definition enough (fuel : nat) (w : W) : Prop :=
  ∀ p, (length (pages w (bucket cfg) p) <= fuel)%nat.

(** A replica starts a method, its next call runs on the bucket, or a node
    registers or leaves. *)
Inductive dep_step : Deployment → Deployment → Prop :=
| dep_start w ts p :
    gc_program (C := C) p →
    dep_step (mkDeployment w ts) (mkDeployment w (ts ++ [mkThread p None]))
| dep_call fuel w ts i c k held r w' :
    ts !! i = Some (mkThread (Call c k) held) → enough fuel w →
    s3_exec (T := T) fuel cfg c w = Some (r, w') →
    dep_step (mkDeployment w ts) (mkDeployment w' (<[i := mkThread (k r) (hold c r held)]> ts))
| dep_register fuel (self : Discovery) (expiry : result T) w ts r w' :
    dc_bucket (d_config self) = bucket cfg → enough fuel w →
    register fuel self expiry w = Some (r, w') →
    dep_step (mkDeployment w ts) (mkDeployment w' ts)
| dep_deregister fuel (self : Discovery) final_dot final_state w ts r w' :
    dc_bucket (d_config self) = bucket cfg → enough fuel w →
    deregister fuel self (cfg_prefix cfg) final_dot final_state w = Some (r, w') →
    dep_step (mkDeployment w ts) (mkDeployment w' ts).

(** ** What discovery writes *)
(** The registrations and the final dots. *)
Definition node_key (k : string) : Prop :=
  starts_with DISCOVERY_NODES_PREFIX k = true ∨ ∃ n d, k = final_dot_key cfg n d.

Definition only_nodes (w w' : W) : Prop :=
  ∀ k, ¬ node_key k → objects w' (bucket cfg) !! k = objects w (bucket cfg) !! k.

#[local] Instance only_nodes_preorder : PreOrder only_nodes.
Proof. split; [done|]. intros w1 w2 w3 H12 H23 k Hk. by rewrite H23, H12. Qed.

Lemma only_nodes_same w w' :
  objects w' (bucket cfg) = objects w (bucket cfg) → only_nodes w w'.
Proof. intros Hw k _. by rewrite Hw. Qed.

Lemma put_only_nodes k v t w :
  node_key k → only_nodes w (put_object (bucket cfg) k v t w).2.
Proof.
  intros Hk. pose proof (put_object_ok (bucket cfg) k v t w) as Hp.
  destruct (put_object _ k v t w) as [r w']. simpl. destruct Hp as [Hp|[_ Hp]];
    [|by apply only_nodes_same].
  intros k' Hk'. rewrite Hp, lookup_insert_ne; [done|]. by intros <-.
Qed.

Lemma delete_only_nodes k w : node_key k → only_nodes w (delete_object (bucket cfg) k w).2.
Proof.
  intros Hk. pose proof (delete_object_ok (bucket cfg) k w) as Hp.
  destruct (delete_object _ k w) as [r w']. simpl. destruct Hp as [Hp|[_ Hp]];
    [|by apply only_nodes_same].
  intros k' Hk'. rewrite Hp, lookup_delete_ne; [done|]. by intros <-.
Qed.

Lemma deletes_only_nodes keys w :
  Forall node_key keys →
  only_nodes w (foldl (λ w old_key, (delete_object (bucket cfg) old_key w).2) w keys).
Proof.
  revert w. induction keys as [|k keys IH]; intros w; simpl; [done|].
  intros [Hk Hkeys]%Forall_cons. etrans; [by apply delete_only_nodes|by apply IH].
Qed.

Lemma registration_node_key n (t : T) g addr : node_key (registration_key n t g addr).
Proof. left. apply starts_with_spec. unfold registration_key. by eexists. Qed.

Lemma register_only_nodes fuel (self : Discovery) (expiry : result T) w r w' :
  dc_bucket (d_config self) = bucket cfg → enough fuel w →
  register fuel self expiry w = Some (r, w') → only_nodes w w'.
Proof.
  intros Hb Hfuel. unfold register. rewrite Hb. destruct expiry as [t|e]; [|by intros [= _ <-]].
  destruct (list_object_keys_ok fuel (bucket cfg) (registration_key_prefix (d_self_id self)) w
    (Hfuel _)) as (l & w1 & -> & Hobj & _). simpl.
  destruct l as [keys|e]; [|intros [= _ <-]; by apply only_nodes_same].
  case_decide; [|intros [= _ <-]; by apply only_nodes_same].
  intros [= Hput]. etrans; [by apply only_nodes_same|].
  pose proof (put_only_nodes _ [x22; x22] "application/json" w1
    (registration_node_key (d_self_id self) t (dc_gc_replica (d_config self))
       (listen_host self ++ ":" ++ listen_port self))) as Hn.
  by rewrite Hput in Hn.
Qed.

Lemma deregister_only_nodes fuel (self : Discovery) d payload w r w' :
  dc_bucket (d_config self) = bucket cfg → enough fuel w →
  deregister fuel self (cfg_prefix cfg) d payload w = Some (r, w') → only_nodes w w'.
Proof.
  intros Hb Hfuel. unfold deregister. rewrite Hb. fold (final_dot_key cfg (d_self_id self) d).
  destruct (list_object_keys_ok fuel (bucket cfg) (registration_key_prefix (d_self_id self)) w
    (Hfuel _)) as (l & w1 & -> & Hobj & Hl). simpl.
  destruct l as [keys|e]; [|intros [= _ <-]; by apply only_nodes_same].
  assert (node_key (final_dot_key cfg (d_self_id self) d)) as Hkey by (right; eauto).
  pose proof (put_only_nodes _ payload "application/json" w1 Hkey) as Hput.
  destruct (put_object _ _ payload _ w1) as [[[]|e] w2]; simpl in Hput; intros [= _ <-];
    (etrans; [by apply only_nodes_same|]); (etrans; [exact Hput|]); [|done].
  apply deletes_only_nodes. apply Forall_forall. intros k Hk. left.
  rewrite Hl, elem_of_listing in Hk. by eapply registration_prefix_nodes, Hk.
Qed.

(** ** The simulation *)
Hypothesis apart : apart_from_nodes cfg.
Hypothesis trimmed : trim_end_matches "/"%char (cfg_prefix cfg) = cfg_prefix cfg.
Context `{!JsonOk EpochMetadata} `{!JsonOk EpochState} `{!JsonOk GcIntentRecord}.

Lemma record_not_node k : record_key cfg k → ¬ node_key k.
Proof.
  intros Hk [Hn|(n & d & ->)].
  - destruct Hk as [-> | [-> | [m ->]]]; unfold epoch_metadata_key, epoch_state_key, gc_intent_key, key in Hn;
      by rewrite apart in Hn.
  - assert (starts_with (final_dots_key_prefix cfg) (final_dot_key cfg n d) = true) as Hs.
    { apply starts_with_spec. unfold final_dots_key_prefix, key, final_dot_key. rewrite trimmed.
      eexists. by rewrite !string_app_assoc. }
    destruct Hk as [Hk|[Hk|[m Hk]]];
      [rewrite (records_outside_final_dots cfg 0) in Hs
      |rewrite (records_outside_final_dots cfg 0) in Hs
      |rewrite (records_outside_final_dots cfg m) in Hs]; by auto.
Qed.

(** Nodes that come and go change the members and the final dots only. *)
Lemma store_rel_nodes w w' st :
  store_rel (T := T) cfg (objects w (bucket cfg)) st → only_nodes w w' →
  ∃ dots members, store_rel (T := T) cfg (objects w' (bucket cfg))
    (mkStore (st_metadata st) (st_state st) (st_intents st) dots members).
Proof.
  intros [Hm Hs Hi _ _] Hsame. eexists _, _. split; simpl; [| | |reflexivity|reflexivity].
  - rewrite Hsame; [done|]. apply record_not_node. by left.
  - rewrite Hsame; [done|]. apply record_not_node. by right; left.
  - intros n. rewrite Hsame; [done|]. apply record_not_node. right; right. by exists n.
Qed.

(** The bucket of a deployment stands for the storage of a system. *)
Definition dep_rel (d : Deployment) (sys : System) : Prop :=
  store_rel (T := T) cfg (objects (dp_world d) (bucket cfg)) (s_store sys) ∧
  s_threads sys = dp_threads d.

Lemma dep_step_simulated d d' sys :
  dep_step d d' → dep_rel d sys → ∃ sys', sys_step (C := C) sys sys' ∧ dep_rel d' sys'.
Proof.
  intros Hstep [Hrel Hts]. destruct sys as [st ts']; simpl in *. subst ts'.
  destruct Hstep as [w ts p Hp|fuel w ts i c k held r w' Hi Hf Hx
    |fuel self expiry w ts r w' Hb Hf Hx|fuel self d payload w ts r w' Hb Hf Hx]; simpl in *.
  - eexists. split; [by apply sys_start|]. done.
  - destruct (s3_call_refines (T := T) cfg fuel c w st apart Hrel Hf) as (r' & w2 & Hx' & Hr).
    rewrite Hx in Hx'. injection Hx' as <- <-. destruct r as [v|e].
    + destruct Hr as (st' & Hst & Hrel'). pose proof (sys_call st ts i c k held Hi) as Hs.
      rewrite Hst in Hs. eexists. split; [exact Hs|]. done.
    + destruct Hr as [Hr|Hr];
        [pose proof (sys_fail st ts i c k held e false Hi) as Hs
        |pose proof (sys_fail st ts i c k held e true Hi) as Hs];
        (eexists; split; [exact Hs|]; done).
  - destruct (store_rel_nodes w w' st Hrel) as (dots & members & Hrel');
      [by eapply register_only_nodes|].
    eexists. split; [apply (sys_members st ts dots members)|]. done.
  - destruct (store_rel_nodes w w' st Hrel) as (dots & members & Hrel');
      [by eapply deregister_only_nodes|].
    eexists. split; [apply (sys_members st ts dots members)|]. done.
Qed.

Lemma dep_steps_simulated d d' sys :
  rtc dep_step d d' → dep_rel d sys → ∃ sys', rtc (sys_step (C := C)) sys sys' ∧ dep_rel d' sys'.
Proof.
  intros Hsteps. revert sys. induction Hsteps as [d|d1 d2 d3 Hstep _ IH]; intros sys Hrel; [by exists sys|].
  destruct (dep_step_simulated _ _ _ Hstep Hrel) as (sys' & Hs & Hrel').
  destruct (IH sys' Hrel') as (sys2 & Hs2 & Hrel2). exists sys2. split; [by eapply rtc_l|done].
Qed.

(** ** Properties *)
(** C16. Replicas that initiate, observe and
    bootstrap on a bucket, interleaved call by call with each other and with
    nodes that register and leave, on a service that may fail any request before
    or after applying it: whatever they do, the abstract system does with the
    same answers, and the objects of the bucket stand for its storage. *)
Theorem deployment_implements_system w d st :
  store_rel (T := T) cfg (objects w (bucket cfg)) st → rtc dep_step (mkDeployment w []) d →
  ∃ st', rtc (sys_step (C := C)) (mkSystem st []) (mkSystem st' (dp_threads d)) ∧
    store_rel (T := T) cfg (objects (dp_world d) (bucket cfg)) st'.
Proof.
  intros Hrel Hsteps. destruct (dep_steps_simulated _ _ (mkSystem st []) Hsteps) as (sys & Hs & Hrel').
  { by split. }
  destruct sys as [st' ts]. destruct Hrel' as [Hr Hts]. simpl in *. subst ts. by exists st'.
Qed.

(** C17. On the bucket itself: when a replica is
    about to put the state or the metadata of an epoch, the intent of that epoch
    is an object of the bucket, and no other replica is about to put either
    record of it. *)
Theorem bucket_epoch_writes_are_exclusive w d i t n :
  objects w (bucket cfg) = ∅ → rtc dep_step (mkDeployment w []) d →
  dp_threads d !! i = Some t → writes_next (t_prog t) n →
  is_Some (objects (dp_world d) (bucket cfg) !! gc_intent_key cfg n) ∧
  ∀ j u, dp_threads d !! j = Some u → j ≠ i → ¬ writes_next (t_prog u) n.
Proof.
  intros Hw Hsteps Ht Hwrite.
  assert (dep_rel (mkDeployment w []) (mkSystem (mkStore None None ∅ ∅ []) [])) as Hrel.
  { split; [|done]. simpl. rewrite Hw. by apply store_rel_empty. }
  destruct (dep_steps_simulated _ _ _ Hsteps Hrel) as (sys & Hs & Hr & Hts).
  rewrite <- Hts in Ht.
  destruct (writer_is_exclusive sys i t n) as (_ & Hi & Hother); [|done..|].
  { apply (sys_reachable_ok (C := C)). by eexists. }
  split.
  - rewrite (sr_intents _ _ _ Hr n). destruct Hi as [rec ->]. by eexists.
  - intros j u Hu Hj. apply (Hother j u); [by rewrite Hts|done].
Qed.
End deployment.

(** ** Witnesses *)
#[local] Existing Instances metadata_json metadata_json_ok state_json state_json_ok
  intent_json intent_json_ok.
#[local] Existing Instances demo_delta_message demo_op_message demo_format.

Abbreviation Millis := ({ z : Z | in_i64 z = true }) (only parsing).

(** The scheduler lets replica [i] make its next call on the bucket. *)
Definition call_thread (i : nat) (d : Deployment (W := Buckets)) : Deployment :=
  match dp_threads d !! i with
  | Some (mkThread (Call c k) held) =>
      match s3_exec (T := Millis) 1 demo_storage c (dp_world d) with
      | Some (r, w) => mkDeployment w (<[i := mkThread (k r) (hold c r held)]> (dp_threads d))
      | None => d
      end
  | _ => d
  end.

Abbreviation demo_step := (dep_step (C := OrSet RustString) (T := Millis)
  (objects := bucket_objects) demo_storage) (only parsing).

Lemma demo_enough (w : Buckets) : enough (objects := bucket_objects) demo_storage 1 w.
Proof. intros p. simpl. lia. Qed.

Lemma call_thread_steps i d : rtc demo_step d (call_thread i d).
Proof.
  unfold call_thread. destruct d as [w ts]; simpl.
  destruct (ts !! i) as [[[a|c k|] held]|] eqn:Hi; try done.
  destruct (s3_exec 1 demo_storage c w) as [[r w']|] eqn:Hx; [|done].
  apply rtc_once. by eapply dep_call; [|apply demo_enough|].
Qed.

(** [A] and [B] have registered. *)
Definition demo_registered : Buckets :=
  let reg node w := default w (snd <$> register 1 node (Ok demo_time) w) in
  reg (mkDiscovery (demo_discovery_config false) "B" "B" "10.0.0.2" "7000") (reg demo_node ∅).

(** [A] has claimed the intent and is about to put the state. *)
Definition demo_deployment : Deployment :=
  Nat.iter 5 (call_thread 0)
    (mkDeployment demo_registered [mkThread (erase (initiate_gc "A" (demo_local "A" "B"))) None]).

Lemma demo_deployment_steps : rtc demo_step (mkDeployment ∅ []) demo_deployment.
Proof.
  eapply rtc_l; [eapply (dep_register _ 1 demo_node (Ok demo_time)); [done|apply demo_enough|reflexivity]|].
  eapply rtc_l; [eapply (dep_register _ 1 (mkDiscovery (demo_discovery_config false) "B" "B" "10.0.0.2" "7000")
    (Ok demo_time)); [done|apply demo_enough|reflexivity]|].
  eapply rtc_l; [apply dep_start, (run_initiate "A" (demo_local "A" "B"))|].
  unfold demo_deployment. generalize 5%nat. intros n. induction n as [|n IH]; [done|].
  simpl. etrans; [apply IH|apply call_thread_steps].
Qed.

Lemma demo_deployment_writes :
  ∃ t, dp_threads demo_deployment !! 0%nat = Some t ∧ writes_next (t_prog t) 1.
Proof.
  assert (from_option (λ t, writes_next (t_prog t) 1) False (dp_threads demo_deployment !! 0%nat)) as Hw
    by (vm_compute; reflexivity).
  destruct (dp_threads demo_deployment !! 0%nat) as [t|]; [|done]. by exists t.
Qed.

Lemma demo_empty :
  store_rel (T := Millis) demo_storage (bucket_objects ∅ (bucket demo_storage))
    (mkStore None None ∅ ∅ []).
Proof.
  assert (bucket_objects ∅ (bucket demo_storage) = ∅) as -> by reflexivity. apply store_rel_empty.
Qed.

Lemma deployment_implements_system_witness :
  ∃ st', rtc (sys_step (C := OrSet RustString)) (mkSystem (mkStore None None ∅ ∅ []) [])
    (mkSystem st' (dp_threads demo_deployment)).
Proof.
  destruct (deployment_implements_system (C := OrSet RustString) (T := Millis)
    (objects := bucket_objects) demo_storage demo_apart eq_refl ∅ demo_deployment
    (mkStore None None ∅ ∅ []) demo_empty demo_deployment_steps)
    as (st' & Hs & _).
  exists st'. exact Hs.
Defined.

Lemma bucket_epoch_writes_are_exclusive_witness :
  is_Some (bucket_objects (dp_world demo_deployment) "crdt-peers" !! gc_intent_key demo_storage 1).
Proof.
  destruct demo_deployment_writes as (t & Ht & Hw).
  exact (proj1 (bucket_epoch_writes_are_exclusive (C := OrSet RustString) (T := Millis)
    (objects := bucket_objects) demo_storage demo_apart eq_refl ∅ demo_deployment 0 t 1 eq_refl
    demo_deployment_steps Ht Hw)).
Defined.
