(* ===== verification/Engine.v ===== *)
(** * The replication engine ([src/src/engine/crdt_engine.rs])

    The engine owns a CRDT, its vector, the dissemination strategy and the
    garbage-collection coordinator, and handles one request at a time.  It is
    written against the interfaces [DeltaCrdt] and [DisseminationStrategy]; the
    world [W] holds the channels, the random source, the shared registry
    ([registry_of]) and the storage ([exec]).  The theorems show what each
    request does, that every request is handled, and when the timers of pulling,
    collecting and observing put their requests in the queue. *)
From Stdlib Require Import Strings.Byte Strings.String.
From stdpp Require Import base gmap sets list strings fin_maps.
From S2P Require Import Prelude Clocks Proto Crdt OrSet Replication Registry Dissemination.
From S2P Require Import GcStorage Coordinator GcProtocol.
Local Open Scope N_scope.
Local Open Scope rust_scope.

(** ** Requests *)
(** [Tok] stands for the sending half of a oneshot channel. *)
Inductive CrdtEngineRequest (Op Tok : Type) : Type :=
| DoPullRound
| ClientOperation (op : Op)
| PrintState (resp_tx : Tok)
| PrintInternals (resp_tx : Tok)
| PrintMatrix (resp_tx : Tok)
| GetRandomElement (resp_tx : Tok)
| DeltaRequest (from_node : NodeId) (crdt_id : string) (knowledge : CausalContext)
| DeltaResp (from_node : NodeId) (crdt_id : string) (payload : bytes)
    (knowledge_matrix : option MatrixClock)
| DeregistrationState (resp_tx : Tok)
| InitiateGc
| ObserveEpochChange
| LogCrdtMetrics.
Arguments DoPullRound {Op Tok}.
Arguments ClientOperation {Op Tok} op.
Arguments PrintState {Op Tok} resp_tx.
Arguments PrintInternals {Op Tok} resp_tx.
Arguments PrintMatrix {Op Tok} resp_tx.
Arguments GetRandomElement {Op Tok} resp_tx.
Arguments DeltaRequest {Op Tok} from_node crdt_id knowledge.
Arguments DeltaResp {Op Tok} from_node crdt_id payload knowledge_matrix.
Arguments DeregistrationState {Op Tok} resp_tx.
Arguments InitiateGc {Op Tok}.
Arguments ObserveEpochChange {Op Tok}.
Arguments LogCrdtMetrics {Op Tok}.

(** What is sent on a oneshot channel. *)
Inductive Reply (Tok : Type) : Type :=
| TextReply (resp_tx : Tok) (text : string)
| StateReply (resp_tx : Tok) (final_dot : Counter) (final_state : bytes).
Arguments TextReply {Tok} resp_tx text.
Arguments StateReply {Tok} resp_tx final_dot final_state.

(** ** The engine *)
Record CrdtEngine (C D : Type) := mkEngine {
  node_id : NodeId;
  crdt_id : string;
  gc : GcCoordinator;
  dissemination : D;
  crdt : C;
  dvv : DotVersionVector
}.
Arguments mkEngine {C D}.
Arguments node_id {C D}.
Arguments crdt_id {C D}.
Arguments gc {C D}.
Arguments dissemination {C D}.
Arguments crdt {C D}.
Arguments dvv {C D}.

Module CrdtEngineImpl.
Section impl.
Context {C Op Delta D Tx W Tok : Type} `{DeltaCrdt C Op Delta}
  `{DisseminationStrategy D Tx W}.
Context (registry_of : W → PeerRegistry Tx) (exec : Exec W) (debug_matrix : MatrixClock → string).
Implicit Types self : CrdtEngine C D.

Definition new (node_id : NodeId) (crdt_id : string) (crdt : C) (dissemination : D)
    (config : GcConfig) : CrdtEngine C D :=
  {| node_id := node_id; crdt_id := crdt_id;
     gc := GcCoordinatorImpl.new config;
     dissemination := dissemination; crdt := crdt; dvv := Dvv.new node_id |}.

(** *** Changes of one field *)
Definition set_dissemination self (d : D) : CrdtEngine C D :=
  mkEngine (node_id self) (crdt_id self) (gc self) d (crdt self) (dvv self).

Definition set_gc self (g : GcCoordinator) : CrdtEngine C D :=
  mkEngine (node_id self) (crdt_id self) g (dissemination self) (crdt self) (dvv self).

Definition set_state self (c : C) (v : DotVersionVector) : CrdtEngine C D :=
  mkEngine (node_id self) (crdt_id self) (gc self) (dissemination self) c v.

Definition gc_flag self : bool := gc_replica (config (gc self)).

Definition local self : Local C := mkLocal (gc self) (crdt self) (dvv self).

(** A coordinator method called with [&mut self.crdt, &mut self.dvv]. *)
Definition run_gc {A} (m : GcM C A) self (w : W) : option (result A * CrdtEngine C D * W) :=
  '(r, l, w') ← run_prog exec (m (local self)) w;
  Some (r, mkEngine (node_id self) (crdt_id self) (l_gc l) (dissemination self)
             (l_crdt l) (l_dvv l), w').

(** [let _ = self.gc.log_metrics(..).await] *)
Definition log_metrics self (w : W) : option W :=
  '(_, w') ← run_prog exec (GcCoordinatorImpl.log_metrics (node_id self) (local self)) w;
  Some w'.

(** *** Handlers *)
Definition do_pull_round_request self (w : W) : CrdtEngine C D * W :=
  let '(d, w') := do_pull_round (dissemination self) (registry_of w) (node_id self) (crdt_id self)
                    (gc_flag self) (Dvv.effective_map (dvv self)) w in
  (set_dissemination self d, w').

Definition client_operation self (op : Op) (w : W) : CrdtEngine C D * W :=
  let dvv := Dvv.event (dvv self) in
  let dot := mkDot (d_node_id (dot dvv)) (d_counter (dot dvv)) in
  let crdt := apply_local (crdt self) dot op in
  let self := set_state self crdt dvv in
  let '(d, w') := push_version_vector (dissemination self) (registry_of w) (node_id self)
                    (crdt_id self) (gc_flag self) (Dvv.effective_map dvv) w in
  (set_dissemination self d, w').

Definition server_delta self (delta_crdt_id : string) (payload : bytes)
    (knowledge_matrix : option MatrixClock) (w : W) : option (CrdtEngine C D * W) :=
  if decide (delta_crdt_id ≠ crdt_id self) then Some (self, w)
  else
    match decode_delta payload with
    | Err _ => Some (self, w)
    | Ok delta =>
        '(self, w) ← match knowledge_matrix with
                     | Some matrix =>
                         let self := set_gc self
                           (GcCoordinatorImpl.update_matrix_clock matrix (gc self)) in
                         w' ← log_metrics self w; Some (self, w')
                     | None => Some (self, w)
                     end;
        let crdt := merge_delta (crdt self) delta in
        let '(ctx, node, counter) := causal_context delta in
        let remote_dvv := {| dot := mkDot node counter; context := ctx |} in
        let dvv := Dvv.merge (dvv self) remote_dvv in
        let self := set_state self crdt dvv in
        let '(d, w') := on_post_merge (dissemination self) (registry_of w) (node_id self)
                          (crdt_id self) (gc_flag self) (Dvv.effective_map dvv) w in
        Some (set_dissemination self d, w')
    end.

(** [registry.get(&from_node).map(|(gc_replica, _)| gc_replica).unwrap_or(false)] *)
Definition is_gc_peer (registry : PeerRegistry Tx) (from_node : NodeId) : bool :=
  default false (fst <$> PeerRegistryImpl.get registry from_node).

Definition server_pull_request self (from_node : NodeId) (pull_crdt_id : string)
    (remote_knowledge : CausalContext) (w : W) : option (CrdtEngine C D * W) :=
  if decide (pull_crdt_id ≠ crdt_id self) then Some (self, w)
  else
    let knowledge := <[from_node := remote_knowledge]> ∅ in
    let self := set_gc self (GcCoordinatorImpl.update_matrix_clock knowledge (gc self)) in
    w ← log_metrics self w;
    let our_knowledge := Dvv.effective_map (dvv self) in
    let communication_between_gc_replicas :=
      gc_flag self && is_gc_peer (registry_of w) from_node in
    let dvv_delta := Dvv.delta_since (dvv self) remote_knowledge in
    let delta_payload :=
      if communication_between_gc_replicas || negb (d_counter (dot dvv_delta) =? 0) ||
         negb (bool_decide (context dvv_delta = ∅))
      then Some (encode_delta (delta_since (crdt self) remote_knowledge (dvv self)))
      else None in
    let we_are_fully_ahead :=
      forallb (λ e, e.2 <=? get_or0 our_knowledge e.1) (map_to_list remote_knowledge) in
    let our_knowledge_request := if negb we_are_fully_ahead then Some our_knowledge else None in
    let knowledge_matrix :=
      if is_gc_peer (registry_of w) from_node
      then GcCoordinatorImpl.get_knowledge_matrix (gc self) (registry_of w)
      else None in
    let '(d, w') := respond_to_pull_request (dissemination self) (registry_of w) from_node
                      (crdt_id self) (node_id self) delta_payload (gc_flag self)
                      knowledge_matrix our_knowledge_request w in
    Some (set_dissemination self d, w').

Definition observe_epoch_change self (w : W) : option (result bool * CrdtEngine C D * W) :=
  run_gc (GcCoordinatorImpl.observe_epoch_change (node_id self)) self w.

Definition initiate_gc self (w : W)
    : option (result (option GcInitiationAbortReason) * CrdtEngine C D * W) :=
  run_gc (GcCoordinatorImpl.initiate_gc (node_id self)) self w.

Definition new_replica_bootstrap (fuel : nat) self (w : W)
    : option (result unit * CrdtEngine C D * W) :=
  run_gc (GcCoordinatorImpl.new_replica_bootstrap fuel (node_id self)) self w.

Definition get_final_state_for_deregistration self : Counter * bytes :=
  let final_state_delta := full_state (crdt self) (dvv self) in
  let final_dot := (causal_context final_state_delta).2 in
  (final_dot, encode_delta final_state_delta).

(** What clients ask to see. *)
Definition get_random_element self : option string := get_random_element (crdt self).

Definition print_internals self : string := print_internals (crdt self).

Definition print_matrix_clock self : string :=
  GcCoordinatorImpl.print_matrix_clock debug_matrix (gc self).

Definition print_state self : string := print_state (crdt self).

(** *** The main loop *)
(** One iteration: errors of the collection protocol are logged. *)
Definition handle self (request : CrdtEngineRequest Op Tok) (w : W)
    : option (CrdtEngine C D * list (Reply Tok) * W) :=
  match request with
  | DoPullRound => let '(self, w) := do_pull_round_request self w in Some (self, [], w)
  | ClientOperation op => let '(self, w) := client_operation self op w in Some (self, [], w)
  | GetRandomElement resp_tx =>
      let element := default "error: empty crdt" (get_random_element self) in
      Some (self, [TextReply resp_tx element], w)
  | PrintState resp_tx => Some (self, [TextReply resp_tx (print_state self)], w)
  | PrintInternals resp_tx => Some (self, [TextReply resp_tx (print_internals self)], w)
  | PrintMatrix resp_tx =>
      Some (self, [TextReply resp_tx (print_matrix_clock self)], w)
  | DeltaRequest from_node crdt_id knowledge =>
      '(self, w) ← server_pull_request self from_node crdt_id knowledge w; Some (self, [], w)
  | DeltaResp _ crdt_id payload knowledge_matrix =>
      '(self, w) ← server_delta self crdt_id payload knowledge_matrix w; Some (self, [], w)
  | DeregistrationState resp_tx =>
      let '(final_dot, final_state) := get_final_state_for_deregistration self in
      Some (self, [StateReply resp_tx final_dot final_state], w)
  | InitiateGc => '(_, self, w) ← initiate_gc self w; Some (self, [], w)
  | ObserveEpochChange => '(_, self, w) ← observe_epoch_change self w; Some (self, [], w)
  | LogCrdtMetrics => Some (self, [], w)
  end.

Fixpoint handle_all self (requests : list (CrdtEngineRequest Op Tok)) (w : W)
    : option (CrdtEngine C D * list (Reply Tok) * W) :=
  match requests with
  | [] => Some (self, [], w)
  | request :: requests' =>
      '(self, replies, w) ← handle self request w;
      '(self, replies', w) ← handle_all self requests' w;
      Some (self, replies ++ replies', w)
  end.

(** The requests are those received until the channel closes; the result of the
    bootstrap is ignored. *)
Definition run (fuel : nat) self (requests : list (CrdtEngineRequest Op Tok)) (w : W)
    : option (CrdtEngine C D * list (Reply Tok) * W) :=
  '(_, self, w) ← new_replica_bootstrap fuel self w;
  handle_all self requests w.
End impl.

(** The pause of the collection loop, in nanoseconds: the interval with a jitter
    drawn from [-jitter_range ..= jitter_range].  [n as i64] keeps the low 64
    bits, the highest of them the sign. *)
Definition as_i64 (n : N) : Z :=
  let m := Z.of_N (n mod u64_modulus) in
  if (m <? 2 ^ 63)%Z then m else (m - 2 ^ 64)%Z.

Definition jitter_range (interval : N) : Z := as_i64 (interval / 20).

Definition sleep_duration (interval : N) (jitter_nanos : Z) : N :=
  if (0 <=? jitter_nanos)%Z then interval + Z.to_N jitter_nanos
  else interval - Z.to_N (- jitter_nanos).

(** The tasks that put requests in the engine's queue, for a number of ticks; a
    request that cannot be sent is skipped. *)
Section loops.
Context {Op Tok Tx W : Type} `{Sender Tx (CrdtEngineRequest Op Tok) W} (engine_tx : Tx).

Definition tick (request : CrdtEngineRequest Op Tok) (w : W) : W := (send engine_tx request w).2.

Definition pull_loop (ticks : nat) (w : W) : W := Nat.iter ticks (tick DoPullRound) w.

(** [start_pull_loop] of the trait and of the strategies: the task, if there is one. *)
Definition start_pull_loop : option (nat → W → W) := None.

Definition pull_start_pull_loop : option (nat → W → W) := Some pull_loop.

Definition pp_start_pull_loop : option (nat → W → W) := Some pull_loop.

(** [jitters]: the draws, one before each request; with the pauses. *)
Fixpoint initiate_loop (interval : N) (jitters : list Z) (w : W) : list N * W :=
  match jitters with
  | [] => ([], w)
  | jitter_nanos :: jitters' =>
      let pause := sleep_duration interval jitter_nanos in
      let '(pauses, w) := initiate_loop interval jitters' (tick InitiateGc w) in
      (pause :: pauses, w)
  end.

Definition observe_loop (ticks : nat) (w : W) : W := Nat.iter ticks (tick ObserveEpochChange) w.
End loops.
End CrdtEngineImpl.

Import CrdtEngineImpl.

(** ** Lemmas *)
(** *** Programs without loops *)
Fixpoint loop_free {A} (p : Prog A) : Prop :=
  match p with
  | Ret _ => True
  | Call c k => ∀ r, loop_free (k r)
  | OutOfFuel => False
  end.

Lemma loop_free_run {A W} (exec : Exec W) (p : Prog A) w :
  loop_free p → is_Some (run_prog exec p w).
Proof.
  revert w. induction p as [a|c k IH|]; intros w; simpl; [eauto| |done].
  intros Hk. destruct (exec c w). by apply IH.
Qed.

Lemma loop_free_gc_bind {C A B} (m : GcM C A) (f : A → GcM C B) l :
  loop_free (m l) → (∀ a l', loop_free (f a l')) → loop_free (gc_bind m f l).
Proof.
  intros Hm Hf. unfold gc_bind. induction (m l) as [[[a|e] l']|c k IH|]; simpl in *;
    [apply Hf|done| |done]. intros r. apply IH, Hm.
Qed.

Ltac loop_free_step := apply loop_free_gc_bind; [done|intros; cbv beta zeta].

Section lemmas.
Context {C Op Delta D Tx W Tok : Type} `{DeltaCrdt C Op Delta}
  `{DisseminationStrategy D Tx W}.
Context (registry_of : W → PeerRegistry Tx) (exec : Exec W) (debug_matrix : MatrixClock → string).
Implicit Types self : CrdtEngine C D.

Lemma live_members_loop_free (l : Local C) : loop_free (live_members l).
Proof. simpl. by intros []. Qed.

Lemma log_metrics_loop_free id (l : Local C) :
  loop_free (GcCoordinatorImpl.log_metrics id l).
Proof.
  unfold GcCoordinatorImpl.log_metrics. loop_free_step. case_match; [done|]. case_match; [|done].
  apply loop_free_gc_bind; [apply live_members_loop_free|intros]. loop_free_step. done.
Qed.

Lemma observe_loop_free id (l : Local C) :
  loop_free (GcCoordinatorImpl.observe_epoch_change id l).
Proof.
  unfold GcCoordinatorImpl.observe_epoch_change. do 2 loop_free_step. case_match; [done|].
  do 3 loop_free_step. done.
Qed.

Lemma initiate_loop_free id (l : Local C) :
  loop_free (GcCoordinatorImpl.initiate_gc id l).
Proof.
  unfold GcCoordinatorImpl.initiate_gc. loop_free_step.
  apply loop_free_gc_bind; [apply live_members_loop_free|intros]. loop_free_step.
  case_match; [done|]. apply loop_free_gc_bind; [apply live_members_loop_free|intros].
  case_match; [loop_free_step; done|]. do 2 loop_free_step.
  destruct (GcCoordinatorImpl.compute_stable_timestamp _ _ _ _ _). case_match; [loop_free_step; done|].
  apply loop_free_gc_bind.
  { unfold GcCoordinatorImpl.collect. by destruct (foldl _ _ _). }
  intros. do 4 loop_free_step. done.
Qed.

Lemma log_metrics_returns self w : is_Some (log_metrics exec self w).
Proof.
  unfold log_metrics.
  destruct (loop_free_run exec (GcCoordinatorImpl.log_metrics (node_id self) (local self)) w)
    as [[] ->]; [apply log_metrics_loop_free|]. simpl. eauto.
Qed.

Lemma run_gc_returns {A} (m : GcM C A) self w :
  loop_free (m (local self)) → is_Some (run_gc exec m self w).
Proof.
  intros Hm. unfold run_gc. destruct (loop_free_run exec _ w Hm) as [[[] ?] ->]. simpl. eauto.
Qed.

(** *** What the answer to a pull request is made of *)
Lemma fully_ahead_spec (ours K : CausalContext) :
  forallb (λ e : NodeId * Counter, e.2 <=? get_or0 ours e.1) (map_to_list K) = vv_leq K ours.
Proof.
  apply eq_true_iff_eq. rewrite vv_leq_spec, forallb_forall. split.
  - intros Hall k. destruct (K !! k) as [v|] eqn:Hk.
    + rewrite (get_or0_Some _ _ _ Hk). apply N.leb_le, (Hall (k, v)).
      by apply list_elem_of_In, elem_of_map_to_list.
    + unfold get_or0 at 1. rewrite Hk. simpl. lia.
  - intros Hle [k v] Hin. apply list_elem_of_In, elem_of_map_to_list in Hin. simpl.
    apply N.leb_le. rewrite <- (get_or0_Some _ _ _ Hin). apply Hle.
Qed.

Lemma nonempty_delta_spec x K :
  dot_outside x →
  negb (d_counter (dot (Dvv.delta_since x K)) =? 0) ||
    negb (bool_decide (context (Dvv.delta_since x K) = ∅)) =
  negb (vv_leq (Dvv.effective_map x) K).
Proof.
  intros Hout. rewrite <- negb_andb. f_equal. apply eq_true_iff_eq.
  rewrite andb_true_iff, N.eqb_eq, bool_decide_eq_true, vv_leq_spec.
  by apply delta_empty_iff.
Qed.

(** The delta and the request of an answer. *)
Definition delta_for self (gc_pair : bool) (K : CausalContext) : option bytes :=
  if gc_pair || negb (vv_leq (Dvv.effective_map (dvv self)) K)
  then Some (encode_delta (delta_since (crdt self) K (dvv self))) else None.

Definition request_for self (K : CausalContext) : option CausalContext :=
  if vv_leq K (Dvv.effective_map (dvv self)) then None else Some (Dvv.effective_map (dvv self)).
End lemmas.

(** The channel a request waits on, and the channel a reply goes to. *)
Definition waiting {Op Tok} (request : CrdtEngineRequest Op Tok) : list Tok :=
  match request with
  | PrintState t | PrintInternals t | PrintMatrix t | GetRandomElement t
  | DeregistrationState t => [t]
  | _ => []
  end.

Definition reply_to {Tok} (reply : Reply Tok) : Tok :=
  match reply with TextReply t _ | StateReply t _ _ => t end.

Section frames.
Context {C Op Delta D Tx W Tok : Type} `{DeltaCrdt C Op Delta}
  `{DisseminationStrategy D Tx W}.
Context (registry_of : W → PeerRegistry Tx) (exec : Exec W) (debug_matrix : MatrixClock → string).
Implicit Types self : CrdtEngine C D.

(** [x] is the result of a handler that finishes and leaves the engine that of
    the same node and CRDT. *)
Definition keeps_identity self (x : option (CrdtEngine C D * W)) : Prop :=
  ∃ self' w', x = Some (self', w') ∧ node_id self' = node_id self ∧ crdt_id self' = crdt_id self.

Lemma run_gc_identity {A} (m : GcM C A) self w :
  loop_free (m (local self)) →
  keeps_identity self ('(_, self', w') ← run_gc exec m self w; Some (self', w')).
Proof.
  intros Hm. unfold run_gc, keeps_identity.
  destruct (loop_free_run exec _ w Hm) as [[[] ?] ->]; simpl. naive_solver.
Qed.

Lemma server_delta_identity self cid b km w :
  keeps_identity self (server_delta registry_of exec self cid b km w).
Proof.
  unfold server_delta, keeps_identity. case_decide; [naive_solver|].
  destruct (decode_delta b) as [delta|]; [|naive_solver].
  destruct km as [m|]; simpl.
  1: destruct (log_metrics_returns exec
       (set_gc self (GcCoordinatorImpl.update_matrix_clock m (gc self))) w) as [w1 ->]; simpl.
  all: destruct (causal_context delta) as [[]]; destruct (on_post_merge _ _ _ _ _ _ _);
    naive_solver.
Qed.

Lemma server_pull_identity self from cid K w :
  keeps_identity self (server_pull_request registry_of exec self from cid K w).
Proof.
  unfold server_pull_request, keeps_identity. case_decide; [naive_solver|].
  destruct (log_metrics_returns exec (set_gc self (GcCoordinatorImpl.update_matrix_clock
    (<[from := K]> ∅) (gc self))) w) as [w1 ->]; simpl.
  destruct (respond_to_pull_request _ _ _ _ _ _ _ _ _ _). naive_solver.
Qed.

Lemma handle_identity self (request : CrdtEngineRequest Op Tok) w :
  ∃ self' replies w',
    handle registry_of exec debug_matrix self request w = Some (self', replies, w') ∧
    node_id self' = node_id self ∧ crdt_id self' = crdt_id self ∧
    reply_to <$> replies = waiting request.
Proof.
  destruct request; simpl; try naive_solver.
  - unfold do_pull_round_request. destruct (do_pull_round _ _ _ _ _ _ _). naive_solver.
  - unfold client_operation. destruct (push_version_vector _ _ _ _ _ _ _). naive_solver.
  - destruct (server_pull_identity self from_node crdt_id0 knowledge w) as (?&?&->&?&?).
    naive_solver.
  - destruct (server_delta_identity self crdt_id0 payload knowledge_matrix w) as (?&?&->&?&?).
    naive_solver.
  - destruct (run_gc_identity (GcCoordinatorImpl.initiate_gc (node_id self)) self w)
      as (?&?&Heq&?&?); [apply initiate_loop_free|]. unfold initiate_gc.
    destruct (run_gc _ _ _ _) as [[[]]|]; naive_solver.
  - destruct (run_gc_identity (GcCoordinatorImpl.observe_epoch_change (node_id self)) self w)
      as (?&?&Heq&?&?); [apply observe_loop_free|]. unfold observe_epoch_change.
    destruct (run_gc _ _ _ _) as [[[]]|]; naive_solver.
Qed.

Lemma handle_all_app self (l l' : list (CrdtEngineRequest Op Tok)) w :
  handle_all registry_of exec debug_matrix self (l ++ l') w =
    '(self, replies, w) ← handle_all registry_of exec debug_matrix self l w;
    '(self, replies', w) ← handle_all registry_of exec debug_matrix self l' w;
    Some (self, replies ++ replies', w).
Proof.
  revert self w. induction l as [|request l IH]; intros self w; simpl.
  - by destruct (handle_all _ _ _ _ _ _) as [[[]]|].
  - destruct (handle _ _ _ _ _ _) as [[[self1 replies1] w1]|]; simpl; [|done]. rewrite IH.
    destruct (handle_all _ _ _ self1 l w1) as [[[self2 replies2] w2]|]; simpl; [|done].
    destruct (handle_all _ _ _ self2 l' w2) as [[[]]|]; simpl; [|done]. by rewrite app_assoc.
Qed.

Lemma handle_all_replies self (l : list (CrdtEngineRequest Op Tok)) w self' replies w' :
  handle_all registry_of exec debug_matrix self l w = Some (self', replies, w') →
  reply_to <$> replies = l ≫= waiting.
Proof.
  revert self w replies. induction l as [|request l IH]; intros self w replies; simpl; [by intros [= <- <- <-]|].
  destruct (handle_identity self request w) as (self1 & replies1 & w1 & -> & _ & _ & <-); simpl.
  destruct (handle_all _ _ _ self1 l w1) as [[[self2 replies2] w2]|] eqn:Hl; simpl; [|done].
  intros [= <- <- <-]. by rewrite fmap_app, (IH _ _ _ Hl).
Qed.
End frames.

Section answers.
Context {C Op Delta D Tx W : Type} `{DeltaCrdt C Op Delta}
  `{!DisseminationStrategy D Tx W} `{Channel Tx Envelope W} `{!Rng W}
  `{!DisseminationOk D Tx W}.
Context (registry_of : W → PeerRegistry Tx) (exec : Exec W).
Implicit Types self : CrdtEngine C D.

Lemma server_pull_request_spec self from K w :
  dot_outside (dvv self) →
  let gc' := GcCoordinatorImpl.update_matrix_clock (<[from := K]> ∅) (gc self) in
  ∃ self' w1 w' e,
    server_pull_request registry_of exec self from (crdt_id self) K w = Some (self', w') ∧
    crdt self' = crdt self ∧ dvv self' = dvv self ∧ gc self' = gc' ∧
    log_metrics exec (set_gc self gc') w = Some w1 ∧
    answers (crdt_id self) (node_id self)
      (delta_for self (gc_flag self && is_gc_peer (registry_of w1) from) K)
      (gc_flag self)
      (if is_gc_peer (registry_of w1) from
       then GcCoordinatorImpl.get_knowledge_matrix gc' (registry_of w1) else None)
      (request_for self K) e ∧
    w' = send_response (registry_of w1) from e w1.
Proof.
  intros Hout. cbv zeta. unfold server_pull_request, delta_for, request_for.
  rewrite decide_False by (intros []; done).
  assert (gc_flag (set_gc self (GcCoordinatorImpl.update_matrix_clock (<[from:=K]> ∅) (gc self))) =
    gc_flag self) as Hflag.
  { unfold gc_flag. cbn [gc set_gc]. f_equal. apply with_matrix_config. }
  set (self1 := set_gc self _) in *. destruct (log_metrics_returns exec self1 w) as [w1 Hw1].
  rewrite Hw1. cbn [option_bind mbind]. rewrite <- orb_assoc, nonempty_delta_spec by done.
  rewrite fully_ahead_spec, Hflag, if_negb.
  destruct (respond_to_pull_request _ _ _ _ _ _ _ _ _ _) as [d w'] eqn:Hresp.
  match type of Hresp with respond_to_pull_request ?d ?reg _ ?c ?n ?delta ?g ?km ?our ?w = _ =>
    destruct (respond_answers d reg from c n delta g km our w) as (e & He & Hw') end.
  rewrite Hresp in Hw'. eexists _, w1, w', e. by split_and!.
Qed.
End answers.

(** ** Properties *)
(** The pause between two collections stays within a twentieth
    of the interval, for every jitter of its range: the subtraction does not
    saturate and zero is always in the range.  Only for intervals of more than
    [20 * 2^63] nanoseconds does the cast make the range negative, so that there
    is no jitter to draw. *)
Theorem gc_pause_bounds interval jitter :
  (interval / 20 < 2 ^ 63 →
   (- jitter_range interval <= jitter <= jitter_range interval)%Z →
   19 * interval <= 20 * sleep_duration interval jitter <= 21 * interval) ∧
  (interval / 20 < 2 ^ 63 → (- jitter_range interval <= 0 <= jitter_range interval)%Z) ∧
  (2 ^ 63 < interval / 20 < 2 ^ 64 → (jitter_range interval < - jitter_range interval)%Z).
Proof.
  assert (Hdiv : 20 * (interval / 20) <= interval) by (apply N.Div0.mul_div_le).
  unfold jitter_range, as_i64, sleep_duration, u64_modulus. change (2 ^ 63) with 9223372036854775808.
  change (2 ^ 64) with 18446744073709551616. change (2 ^ 63)%Z with 9223372036854775808%Z.
  change (2 ^ 64)%Z with 18446744073709551616%Z.
  set (q := interval / 20) in *.
  split_and!.
  - intros Hq. rewrite N.mod_small by lia. rewrite (proj2 (Z.ltb_lt _ _)) by lia.
    intros Hj. destruct (Z.leb_spec 0 jitter); lia.
  - intros Hq. rewrite N.mod_small by lia. rewrite (proj2 (Z.ltb_lt _ _)) by lia. lia.
  - intros Hq. rewrite N.mod_small by lia. rewrite (proj2 (Z.ltb_ge _ _)) by lia. lia.
Qed.

(** *** The timers *)
Section timers.
Context {Op Tok Tx W : Type} `{Sender Tx (CrdtEngineRequest Op Tok) W}
  {received : W → Tx → list (CrdtEngineRequest Op Tok)} {is_open : W → Tx → bool}
  `{!SenderOk Tx (CrdtEngineRequest Op Tok) W received is_open} (engine_tx : Tx).

Lemma tick_arrives request w :
  is_open w engine_tx = true →
  received (tick engine_tx request w) engine_tx = received w engine_tx ++ [request] ∧
  is_open (tick engine_tx request w) engine_tx = true.
Proof. intros Hopen. by destruct (send_open engine_tx request w Hopen) as (_ & ? & ?). Qed.

(** While the engine runs, every tick of the timers of pulling and observing is a
    request in its queue; once it is gone the ticks go nowhere, and do not
    end the loops. *)
Theorem ticks_reach_the_engine ticks w :
  (is_open w engine_tx = true →
   received (pull_loop engine_tx ticks w) engine_tx = received w engine_tx ++ replicate ticks DoPullRound ∧
   received (observe_loop engine_tx ticks w) engine_tx =
     received w engine_tx ++ replicate ticks ObserveEpochChange) ∧
  (is_open w engine_tx = false → pull_loop engine_tx ticks w = w ∧ observe_loop engine_tx ticks w = w).
Proof.
  unfold pull_loop, observe_loop. split.
  - intros Hopen.
    assert (∀ request, received (Nat.iter ticks (tick engine_tx request) w) engine_tx =
      received w engine_tx ++ replicate ticks request ∧
      is_open (Nat.iter ticks (tick engine_tx request) w) engine_tx = true) as Hall; [|split; apply Hall].
    intros request. induction ticks as [|ticks [IH Ho]]; [by rewrite app_nil_r|].
    destruct (tick_arrives request _ Ho) as [Hr Ho']. cbn [Nat.iter]. split; [|done].
    cbn [replicate]. rewrite replicate_cons_app, app_assoc, <- IH. exact Hr.
  - intros Hclosed.
    assert (∀ request, Nat.iter ticks (tick engine_tx request) w = w) as Hall; [|split; apply Hall].
    intros request. induction ticks as [|ticks IH]; [done|].
    change (tick engine_tx request (Nat.iter ticks (tick engine_tx request) w) = w). rewrite IH.
    by destruct (send_closed (received := received) engine_tx request w Hclosed) as [_ ?].
Qed.

(** C40. A collector asks its engine to collect once for each draw of its jitter, and
    never two times within nineteen twentieths of the interval. *)
Theorem collections_are_paced interval jitters w :
  interval / 20 < 2 ^ 63 →
  Forall (λ j, (- jitter_range interval <= j <= jitter_range interval)%Z) jitters →
  is_open w engine_tx = true →
  let '(pauses, w') := initiate_loop engine_tx interval jitters w in
  received w' engine_tx = received w engine_tx ++ replicate (length jitters) InitiateGc ∧
  length pauses = length jitters ∧
  Forall (λ pause, 19 * interval <= 20 * pause <= 21 * interval) pauses.
Proof.
  intros Hi Hj. revert w. induction Hj as [|j jitters Hj Hjs IH]; intros w Hopen; cbn [initiate_loop].
  { rewrite app_nil_r. by split_and!. }
  destruct (tick_arrives InitiateGc w Hopen) as [Hr Ho]. specialize (IH _ Ho).
  destruct (initiate_loop engine_tx interval jitters _) as [pauses w'].
  destruct IH as (Hrec & Hlen & Hp). rewrite Hrec, Hr, <- app_assoc. cbn. rewrite Hlen.
  split_and!; [done|done|]. constructor; [|done].
  destruct (gc_pause_bounds interval j) as [Hb _]. by apply Hb.
Qed.
End timers.

Section theorems.
Context {C Op Delta D Tx W Tok : Type} `{DeltaCrdt C Op Delta}
  `{!DisseminationStrategy D Tx W} `{Channel Tx Envelope W} `{!Rng W}
  `{!DisseminationOk D Tx W}.
Context (registry_of : W → PeerRegistry Tx) (exec : Exec W) (debug_matrix : MatrixClock → string).
Implicit Types self : CrdtEngine C D.

(** C26. The engine gets through every list of requests, whatever the storage
    answers and whatever the messages hold, stays the engine of the same node and
    CRDT, and answers every request that waits for an answer exactly once, in
    order; only the bootstrap before the loop can wait. *)
Theorem every_request_is_handled self (requests : list (CrdtEngineRequest Op Tok)) w :
  ∃ self' replies w',
    handle_all registry_of exec debug_matrix self requests w = Some (self', replies, w') ∧
    node_id self' = node_id self ∧ crdt_id self' = crdt_id self ∧
    reply_to <$> replies = requests ≫= waiting.
Proof.
  revert self w. induction requests as [|request requests IH]; intros self w; simpl; [naive_solver|].
  destruct (handle_identity registry_of exec debug_matrix self request w)
    as (self1 & replies1 & w1 & -> & ? & ? & <-); simpl.
  destruct (IH self1 w1) as (self2 & replies2 & w2 & -> & ? & ? & Hr); simpl.
  eexists _, _, _. split; [done|]. rewrite fmap_app, Hr. split_and!; [congruence..|done].
Qed.

(** How a pull request is answered: the delta since the advertised
    knowledge is sent when the replica knows something the requester does not (or
    both collect garbage), the own knowledge is sent when the requester knows
    something the replica does not, and neither otherwise; the answer goes to the
    requester only, the advertised knowledge is recorded in its row, and the CRDT
    and the vector do not change. *)
Theorem pull_request_answer self from K w :
  dot_outside (dvv self) →
  let gc' := GcCoordinatorImpl.update_matrix_clock (<[from := K]> ∅) (gc self) in
  ∃ self' w1 w' e,
    server_pull_request registry_of exec self from (crdt_id self) K w = Some (self', w') ∧
    crdt self' = crdt self ∧ dvv self' = dvv self ∧ gc self' = gc' ∧
    log_metrics exec (set_gc self gc') w = Some w1 ∧
    answers (crdt_id self) (node_id self)
      (delta_for self (gc_flag self && is_gc_peer (registry_of w1) from) K)
      (gc_flag self)
      (if is_gc_peer (registry_of w1) from
       then GcCoordinatorImpl.get_knowledge_matrix gc' (registry_of w1) else None)
      (request_for self K) e ∧
    w' = send_response (registry_of w1) from e w1.
Proof. apply server_pull_request_spec. Qed.
End theorems.

(** ** Witnesses *)
(** A jitter of minus one second in an interval of a minute. *)
Lemma gc_pause_bounds_witness :
  sleep_duration 60000000000 (-1000000000) = 59000000000 ∧
  19 * 60000000000 <= 20 * sleep_duration 60000000000 (-1000000000).
Proof.
  split; [reflexivity|].
  refine (proj1 (proj1 (gc_pause_bounds 60000000000 (-1000000000)) _ _)).
  - reflexivity.
  - split; vm_compute; discriminate.
Defined.

Lemma collections_are_paced_witness :
  (initiate_loop (Op := nat) (Tok := nat) tt 60000000000 [(-1000000000)%Z; 2000000000%Z] [DoPullRound]).2 =
    [DoPullRound; InitiateGc; InitiateGc].
Proof.
  pose proof (collections_are_paced (Op := nat) (Tok := nat) (received := λ queue _, queue) tt 60000000000
    [(-1000000000)%Z; 2000000000%Z] [DoPullRound] eq_refl
    ltac:(repeat constructor; vm_compute; congruence) eq_refl) as Ht.
  destruct (initiate_loop _ _ _ _) as [pauses w']. exact (proj1 Ht).
Defined.
