(* ===== verification/PeerMessages.v ===== *)
(** * Routing peer messages to the engine ([src/src/server/peer_message_handler.rs])

    Received envelopes become requests of the engine, sent over its queue (a
    [Sender]).  The theorem shows that the envelopes [Dissemination] makes come
    out as the requests they stand for. *)
From Stdlib Require Import Strings.Byte Strings.String.
From stdpp Require Import base gmap sets list strings fin_maps.
From S2P Require Import Prelude Proto Registry Dissemination Engine.
Local Open Scope N_scope.

(** ** The handler *)
Section handler.
Context {Op Tok Tx W : Type} `{Sender Tx (CrdtEngineRequest Op Tok) W}.

Definition matrix_of_proto (km : KnowledgeMatrix) : MatrixClock := vc_entries <$> km_entries km.

Definition handle_received_envelope (envelope : Envelope) (engine_tx : Tx) (w : W) : W :=
  match env_payload envelope with
  | Some (PCrdtOp crdt_op) =>
      let origin_id := op_origin_node_id crdt_op in
      let cid := op_crdt_id crdt_op in
      let requester_knowledge := op_requester_knowledge crdt_op in
      match send engine_tx (DeltaResp origin_id cid (op_payload crdt_op)
                              (matrix_of_proto <$> op_knowledge_matrix crdt_op)) w with
      | (Err _, w) => w
      | (Ok _, w) =>
          match requester_knowledge with
          | Some vc =>
              if negb (bool_decide (vc_entries vc = ∅))
              then (send engine_tx (DeltaRequest origin_id cid (vc_entries vc)) w).2
              else w
          | None => w
          end
      end
  | Some (PCrdtPullRequest req) =>
      let knowledge := default ∅ (vc_entries <$> pr_knowledge req) in
      (send engine_tx (DeltaRequest (pr_origin_node_id req) (pr_crdt_id req) knowledge) w).2
  | _ => w
  end.
End handler.

(** ** Lemmas *)
(** The requests an envelope stands for. *)
Definition routed {Op Tok} (envelope : Envelope) : list (CrdtEngineRequest Op Tok) :=
  match env_payload envelope with
  | Some (PCrdtOp o) =>
      DeltaResp (op_origin_node_id o) (op_crdt_id o) (op_payload o)
        (matrix_of_proto <$> op_knowledge_matrix o) ::
      match op_requester_knowledge o with
      | Some vc => if decide (vc_entries vc = ∅) then []
                   else [DeltaRequest (op_origin_node_id o) (op_crdt_id o) (vc_entries vc)]
      | None => []
      end
  | Some (PCrdtPullRequest r) =>
      [DeltaRequest (pr_origin_node_id r) (pr_crdt_id r) (default ∅ (vc_entries <$> pr_knowledge r))]
  | _ => []
  end.

Lemma matrix_of_proto_of_matrix (m : MatrixClock) :
  matrix_of_proto {| km_entries := mkVectorClock <$> m |} = m.
Proof. unfold matrix_of_proto; simpl. rewrite <- map_fmap_compose. apply map_fmap_id. Qed.

Lemma routed_op {Op Tok} cid n payload km rk :
  routed (Op := Op) (Tok := Tok) (make_crdt_op_envelope cid n payload km rk) =
  DeltaResp n cid payload km ::
    match rk with
    | Some K => if decide (K = ∅) then [] else [DeltaRequest n cid K]
    | None => []
    end.
Proof.
  unfold routed, make_crdt_op_envelope; simpl.
  assert (matrix_of_proto <$> ((λ m : MatrixClock, {| km_entries := mkVectorClock <$> m |}) <$> km) = km)
    as -> by (destruct km; simpl; by rewrite ?matrix_of_proto_of_matrix).
  by destruct rk.
Qed.

Lemma routed_pull {Op Tok} cid n gc K :
  routed (Op := Op) (Tok := Tok) (make_pull_request_envelope cid n gc K) = [DeltaRequest n cid K].
Proof. done. Qed.

Section lemmas.
Context {Op Tok Tx W : Type} `{Sender Tx (CrdtEngineRequest Op Tok) W}.
Context {received : W → Tx → list (CrdtEngineRequest Op Tok)} {is_open : W → Tx → bool}.
Context `{!SenderOk Tx (CrdtEngineRequest Op Tok) W received is_open}.

Lemma handle_routes envelope c w :
  is_open w c = true →
  received (handle_received_envelope envelope c w) c = received w c ++ routed envelope.
Proof.
  intros Hopen. unfold handle_received_envelope, routed.
  destruct (env_payload envelope) as [[h|o|r]|]; simpl; rewrite ?app_nil_r; try done.
  - match goal with |- context [send c ?m w] =>
      destruct (send_open (received := received) c m w Hopen) as (H1 & H2 & H3);
      destruct (send c m w) as [res w1] eqn:Hs end.
    simpl in *. subst res.
    destruct (op_requester_knowledge o) as [vc|]; simpl; [|done].
    case_decide as Hvc; simpl.
    + by rewrite bool_decide_true.
    + rewrite bool_decide_false by done. simpl.
      match goal with |- context [send c ?m w1] =>
        destruct (send_open (received := received) c m w1 H3) as (_ & -> & _) end.
      by rewrite H2, <- app_assoc.
  - by apply send_open.
Qed.

Lemma handle_closed envelope c w :
  is_open w c = false → handle_received_envelope envelope c w = w.
Proof.
  intros Hc. unfold handle_received_envelope.
  destruct (env_payload envelope) as [[h|o|r]|]; [done| | |done].
  - match goal with |- context [send c ?m w] =>
      destruct (send_closed (received := received) c m w Hc) as [H1 H2];
      destruct (send c m w) as [[] w1] end; simpl in *; [done|by subst].
  - by apply send_closed.
Qed.
End lemmas.

(** ** Properties *)
Section theorems.
Context {Op Tok Tx W : Type} `{Sender Tx (CrdtEngineRequest Op Tok) W}.
Context {received : W → Tx → list (CrdtEngineRequest Op Tok)} {is_open : W → Tx → bool}.
Context `{!SenderOk Tx (CrdtEngineRequest Op Tok) W received is_open}.

(** The envelopes the strategies send reach the engine as the requests
    they stand for: a delta with its CRDT, origin, payload and knowledge matrix,
    then the piggybacked request unless its knowledge is empty; a pull request
    with its knowledge.  Handshakes and empty envelopes reach nobody, and nothing
    is sent to a closed engine. *)
Theorem envelopes_are_routed cid n payload km rk gc K hs c w :
  (is_open w c = true →
    received (handle_received_envelope (make_crdt_op_envelope cid n payload km rk) c w) c =
      received w c ++ DeltaResp n cid payload km ::
        (if decide (rk = None ∨ rk = Some ∅) then [] else [DeltaRequest n cid (default ∅ rk)]) ∧
    received (handle_received_envelope (make_pull_request_envelope cid n gc K) c w) c =
      received w c ++ [DeltaRequest n cid K]) ∧
  (∀ e, is_open w c = false ∨ env_payload e = None ∨ env_payload e = Some (PHandshake hs) →
    handle_received_envelope e c w = w).
Proof.
  split.
  - intros Hopen. rewrite !(handle_routes (received := received)) by done. rewrite routed_op.
    split; [|done]. do 2 f_equal. destruct rk as [K'|]; [|done]. simpl.
    repeat case_decide; naive_solver.
  - intros e [Hc|He]; [by apply (handle_closed (received := received))|].
    unfold handle_received_envelope. by destruct He as [-> | ->].
Qed.
End theorems.

Lemma envelopes_are_routed_witness :
  handle_received_envelope (Op := nat) (Tok := unit)
    (make_crdt_op_envelope "default-orset" "A" [] None (Some {["B" := 1]})) tt [] =
  [DeltaResp "A" "default-orset" [] None; DeltaRequest "A" "default-orset" {["B" := 1]}].
Proof.
  destruct (envelopes_are_routed (Op := nat) (Tok := unit) (received := λ w _, w)
    (is_open := λ _ _, true) "default-orset" "A" [] None (Some {["B" := 1]}) false ∅
    (mkHandshake "" "" 1 false) tt []) as [Hr _].
  exact (proj1 (Hr eq_refl)).
Defined.
