(* ===== verification/Connector.v ===== *)
(** * Keeping connections in step with discovery
    ([src/src/peers/peer_connector.rs], [src/src/network/mod.rs],
    [src/src/network/simulated.rs], the loop of [src/src/peers/discovery.rs])

    The trait [Network] as a class: spawning an outbound connection gives a task
    handle in the world [W], and aborting one is tokio's.  The connector keeps the
    outbound tasks; a tick of the discovery loop compares the live peers with the
    registry.  The theorems say exactly which connections a tick opens and closes,
    and that of two nodes one dials the other. *)
From Stdlib Require Import Strings.Byte Strings.String.
From stdpp Require Import base gmap sets list strings fin_maps.
From S2P Require Import Prelude Text Proto Registry S3 Discovery.
Local Open Scope N_scope.
Local Open Scope rust_scope.

(** ** Networks *)
Class Network (Handle W : Type) := {
  spawn_outbound : string → NodeId → NodeId → bool → W → Handle * W;
  start_network_background : string → NodeId → NodeId → bool → W → Handle * W;
  abort : Handle → W → W;
  allow_bidirectional : bool
}.

(** The tasks that the two networks spawn: over TCP, a supervised connection and a
    listener; in the simulation, a writer and a task that only logs. *)
Inductive NetworkTask : Type :=
| TcpOutbound (address : string) (local_node_id local_node_name : NodeId) (gc_replica : bool)
| TcpListening (listen_port : string) (node_id node_name : NodeId) (gc_replica : bool)
| SimulatedOutbound (address : string) (local_node_id : NodeId)
| SimulatedRunning (listen_port : string) (node_id node_name : NodeId) (gc_replica : bool).

Class Tasks (Handle W : Type) := {
  spawn_task : NetworkTask → W → Handle * W;
  abort_task : Handle → W → W
}.

Section networks.
Context {Handle W : Type} `{Tasks Handle W}.

Definition TcpNetwork : Network Handle W := {|
  spawn_outbound := λ address local_node_id local_node_name gc_replica,
    spawn_task (TcpOutbound address local_node_id local_node_name gc_replica);
  start_network_background := λ listen_port node_id node_name gc_replica,
    spawn_task (TcpListening listen_port node_id node_name gc_replica);
  abort := abort_task;
  allow_bidirectional := false
|}.

Definition SimulatedNetwork : Network Handle W := {|
  spawn_outbound := λ address local_node_id _ _, spawn_task (SimulatedOutbound address local_node_id);
  start_network_background := λ listen_port node_id node_name gc_replica,
    spawn_task (SimulatedRunning listen_port node_id node_name gc_replica);
  abort := abort_task;
  allow_bidirectional := true
|}.
End networks.

(** ** The connector *)
Record PeerConnector := mkPeerConnector {
  pc_node_id : NodeId;
  pc_node_name : string;
  pc_gc_replica : bool
}.

Definition new_connector (node_id : NodeId) (node_name : string) (gc_replica : bool) : PeerConnector :=
  {| pc_node_id := node_id; pc_node_name := node_name; pc_gc_replica := gc_replica |}.

(** The outbound tasks and the registry, which the connector shares. *)
Record Connections (Handle Tx : Type) := mkConnections {
  outbound_tasks : gmap NodeId Handle;
  registry : PeerRegistry Tx
}.
Arguments mkConnections {Handle Tx}.
Arguments outbound_tasks {Handle Tx}.
Arguments registry {Handle Tx}.

Section connector.
Context {Handle Tx W : Type} `{Network Handle W}.
Implicit Types st : Connections Handle Tx.

Definition add_peer (self : PeerConnector) (node_id : NodeId) (addr : string) st (w : W)
    : Connections Handle Tx * W :=
  if negb allow_bidirectional && String.leb node_id (pc_node_id self) then (st, w)
  else
    match outbound_tasks st !! node_id with
    | Some _ => (st, w)
    | None =>
        let '(handle, w) := spawn_outbound addr (pc_node_id self) (pc_node_name self)
                              (pc_gc_replica self) w in
        (mkConnections (<[node_id := handle]> (outbound_tasks st)) (registry st), w)
    end.

Definition remove_peer (self : PeerConnector) (node_id : NodeId) st (w : W)
    : Connections Handle Tx * W :=
  let '(tasks, w) :=
    match outbound_tasks st !! node_id with
    | Some handle => (delete node_id (outbound_tasks st), abort handle w)
    | None => (outbound_tasks st, w)
    end in
  (mkConnections tasks (PeerRegistryImpl.remove (registry st) node_id).2, w).

(** ** The discovery loop *)
Context {T : Type} `{Chrono T}.

Definition desired_peers (live_peers : list (NodeRegistration T)) : gmap NodeId (NodeRegistration T) :=
  foldl (λ m r, <[reg_node_id r := r]> m) ∅ live_peers.

Definition connect_new (conn : PeerConnector) (desired : gmap NodeId (NodeRegistration T))
    (s : Connections Handle Tx * W) (node_id : NodeId) : Connections Handle Tx * W :=
  match desired !! node_id with
  | Some registration => add_peer conn node_id (reg_addr registration) s.1 s.2
  | None => s
  end.

Definition reconcile (conn : PeerConnector) (live_peers : list (NodeRegistration T)) st (w : W)
    : Connections Handle Tx * W :=
  let desired := desired_peers live_peers in
  let current : gset NodeId := list_to_set (PeerRegistryImpl.peer_ids (registry st)) in
  let desired_ids : gset NodeId := dom desired in
  let s := foldl (connect_new conn desired) (st, w) (elements (desired_ids ∖ current)) in
  foldl (λ s node_id, remove_peer conn node_id s.1 s.2) s (elements (current ∖ desired_ids)).

Context `{AwsS3 W}.

(** One tick; [expiry] is the registration's expiry at that time. *)
Definition discovery_tick (fuel : nat) (self : Discovery) (conn : PeerConnector) (expiry : result T)
    st (w : W) : option (Connections Handle Tx * W) :=
  '(r, w) ← register fuel self expiry w;
  match r with
  | Err _ => Some (st, w)
  | Ok _ =>
      '(live, w) ← list_live_peers (T := T) fuel self w;
      Some match live with
           | Err _ => (st, w)
           | Ok live_peers => reconcile conn live_peers st w
           end
  end.
End connector.

(** ** The simulated network *)
Section simulated.
Context {Tx W : Type} `{Sender Tx Envelope W}.

(** The peers a node can reach, by address. *)
Abbreviation PeerChannels := (gmap string (NodeId * bool * Tx)) (only parsing).

(** Forwards what is queued for the peer until the peer's channel closes. *)
Fixpoint sim_writer_loop (remote_tx : Tx) (rx : list Envelope) (w : W) : W :=
  match rx with
  | [] => w
  | envelope :: rx' =>
      match send remote_tx envelope w with
      | (Err _, w) => w
      | (Ok _, w) => sim_writer_loop remote_tx rx' w
      end
  end.

(** [tx] is the new channel, [rx] what is sent on it. *)
Definition sim_run_connection (peer_channels : PeerChannels) (addr : string) (local_node_id : NodeId)
    (registry : PeerRegistry Tx) (tx : Tx) (rx : list Envelope) (w : W)
    : result NodeId * PeerRegistry Tx * W :=
  match peer_channels !! addr with
  | Some (remote_node_id, remote_gc_replica, remote_tx) =>
      (Ok remote_node_id,
       PeerRegistryImpl.insert registry remote_node_id remote_gc_replica (mkPeerHandle tx),
       sim_writer_loop remote_tx rx w)
  | None => (Ok local_node_id, registry, w)
  end.

(** [SimulatedNetwork::spawn_outbound]: the task logs the result. *)
Definition sim_spawn_outbound (peer_channels : PeerChannels) (address : string)
    (local_node_id : NodeId) (registry : PeerRegistry Tx) (tx : Tx) (rx : list Envelope) (w : W)
    : PeerRegistry Tx * W :=
  let '(_, registry, w) :=
    sim_run_connection peer_channels address local_node_id registry tx rx w in
  (registry, w).
End simulated.

(** ** Lemmas *)
Section lemmas.
Context {Handle Tx W : Type} `{Network Handle W} {T : Type} `{Chrono T}.
Implicit Types st : Connections Handle Tx.
Implicit Types conn : PeerConnector.

(** Whether this node opens the connection to the other. *)
Definition dials conn (n : NodeId) : bool :=
  (allow_bidirectional (Handle := Handle) (W := W) || negb (String.leb n (pc_node_id conn))).

Lemma connect_loop conn (desired : gmap NodeId (NodeRegistration T)) l st w :
  (∀ n, n ∈ l → is_Some (desired !! n)) →
  let st' := (foldl (connect_new conn desired) (st, w) l).1 in
  registry st' = registry st ∧
  (∀ n h, outbound_tasks st !! n = Some h → outbound_tasks st' !! n = Some h) ∧
  (∀ n, is_Some (outbound_tasks st' !! n) ↔
        is_Some (outbound_tasks st !! n) ∨ (n ∈ l ∧ dials conn n = true)).
Proof.
  revert st w. induction l as [|k l IH]; intros st w Hl; simpl.
  { split_and!; [done|done|]. intros n. set_solver. }
  assert (∃ st1 w1, connect_new conn desired (st, w) k = (st1, w1) ∧ registry st1 = registry st ∧
    (∀ n h, outbound_tasks st !! n = Some h → outbound_tasks st1 !! n = Some h) ∧
    (∀ n, is_Some (outbound_tasks st1 !! n) ↔
       is_Some (outbound_tasks st !! n) ∨ (n = k ∧ dials conn n = true)))
    as (st1 & w1 & -> & Hreg & Hkeep & Hadd).
  { destruct (Hl k) as [r Hr]; [by left|]. unfold connect_new. rewrite Hr. unfold add_peer. simpl.
    unfold dials. destruct (allow_bidirectional || negb (String.leb k (pc_node_id conn))) eqn:Hd.
    - replace (negb allow_bidirectional && String.leb k (pc_node_id conn)) with false
        by (symmetry; by destruct allow_bidirectional, (String.leb _ _)).
      destruct (outbound_tasks st !! k) as [h|] eqn:Hk.
      + eexists _, _. split_and!; [done..|]. intros n. split; [by left|]. intros [?|[-> _]]; [done|].
        by eexists.
      + destruct (spawn_outbound _ _ _ _ w) as [h w1]. eexists _, _. split_and!; [done|done|..]; simpl.
        * intros n h' Hn. rewrite lookup_insert_ne; [done|]. intros <-. congruence.
        * intros n. rewrite lookup_insert. case_decide; subst; [|naive_solver].
          split; [|by eauto]. intros _. by right.
    - replace (negb allow_bidirectional && String.leb k (pc_node_id conn)) with true
        by (symmetry; by destruct allow_bidirectional, (String.leb _ _)).
      eexists _, _. split_and!; [done..|]. intros n. split; [by left|].
      intros [?|[-> Hn]]; [done|congruence]. }
  destruct (IH st1 w1) as (Hreg' & Hkeep' & Hadd'); [set_solver|].
  split_and!; [congruence|naive_solver|]. intros n. rewrite Hadd', Hadd. set_solver.
Qed.

Lemma remove_loop conn l st w :
  let st' := (foldl (λ s node_id, remove_peer conn node_id s.1 s.2) (st, w) l).1 in
  ∀ n, outbound_tasks st' !! n = (if decide (n ∈ l) then None else outbound_tasks st !! n) ∧
       peers (registry st') !! n = (if decide (n ∈ l) then None else peers (registry st) !! n).
Proof.
  revert st w. induction l as [|k l IH]; intros st w; simpl; [done|]. intros n.
  destruct (remove_peer conn k st w) as [st1 w1] eqn:Hr. destruct (IH st1 w1 n) as [-> ->].
  unfold remove_peer in Hr.
  assert (outbound_tasks st1 = delete k (outbound_tasks st) ∧
    peers (registry st1) = delete k (peers (registry st))) as [-> ->].
  { destruct (outbound_tasks st !! k) as [h|] eqn:Hk; simplify_eq/=; [done|].
    by rewrite delete_id. }
  rewrite !lookup_delete. repeat case_decide; set_solver.
Qed.

Lemma desired_peers_dom (live : list (NodeRegistration T)) n :
  n ∈ dom (desired_peers live) ↔ n ∈ reg_node_id <$> live.
Proof.
  unfold desired_peers. rewrite elem_of_dom.
  enough (∀ m : gmap NodeId (NodeRegistration T),
    is_Some (foldl (λ m r, <[reg_node_id r := r]> m) m live !! n) ↔
    is_Some (m !! n) ∨ n ∈ reg_node_id <$> live) as Hall.
  { rewrite Hall, lookup_empty. split; [intros [[? ?]|?]; done|by right]. }
  induction live as [|r live IH]; intros m; simpl; [set_solver|].
  rewrite IH, elem_of_cons, lookup_insert. case_decide; subst; [|naive_solver].
  split; [by right; left|]. intros _. left. by eexists.
Qed.
End lemmas.

(** ** Properties *)
Section theorems.
Context {Handle Tx W : Type} `{Network Handle W} {T : Type} `{Chrono T}.

(** C35. What one round does, whatever the order of its sets.  Registered
    peers that are no longer live lose their entry and their outbound task;
    every other entry and task stays; a live peer that is not registered gets one
    task, unless the other end is the one that dials.  The task of a peer that
    departs before it was ever registered is not found, and stays. *)
Theorem reconcile_follows_discovery (conn : PeerConnector) (live : list (NodeRegistration T))
    (st : Connections Handle Tx) w n :
  let st' := (reconcile conn live st w).1 in
  let registered := is_Some (peers (registry st) !! n) in
  let is_live := n ∈ reg_node_id <$> live in
  (peers (registry st') !! n = if decide is_live then peers (registry st) !! n else None) ∧
  (is_Some (outbound_tasks st' !! n) ↔
     (is_Some (outbound_tasks st !! n) ∧ ¬ (registered ∧ ¬ is_live)) ∨
     (is_live ∧ ¬ registered ∧ dials (Handle := Handle) (W := W) conn n = true)) ∧
  (∀ h, outbound_tasks st !! n = Some h → ¬ (registered ∧ ¬ is_live) →
        outbound_tasks st' !! n = Some h).
Proof.
  intros st' registered is_live.
  set (desired := desired_peers live).
  set (current := list_to_set (PeerRegistryImpl.peer_ids (registry st)) : gset NodeId).
  assert (n ∈ current ↔ registered) as Hcur.
  { unfold current. by rewrite elem_of_list_to_set, elem_of_peer_ids. }
  assert (n ∈ dom desired ↔ is_live) as Hlive by apply desired_peers_dom.
  destruct (connect_loop conn desired (elements (dom desired ∖ current)) st w)
    as (Hreg & Hkeep & Hadd).
  { intros m Hm. apply elem_of_dom. set_solver. }
  unfold st', reconcile. fold desired current.
  destruct (foldl (connect_new conn desired) (st, w) _) as [st1 w1]. simpl in *.
  destruct (remove_loop conn (elements (current ∖ dom desired)) st1 w1 n) as [Htasks Hpeers].
  rewrite Htasks, Hpeers, Hreg. specialize (Hadd n). specialize (Hkeep n).
  assert (n ∈ elements (dom desired ∖ current) ↔ is_live ∧ ¬ registered) as Hnew
    by (rewrite elem_of_elements, elem_of_difference; tauto).
  assert (n ∈ elements (current ∖ dom desired) ↔ registered ∧ ¬ is_live) as Hgone
    by (rewrite elem_of_elements, elem_of_difference; tauto).
  rewrite Hnew in Hadd. unfold registered in *.
  destruct (decide (n ∈ elements (current ∖ dom desired))) as [Hg|Hg]; rewrite Hgone in Hg.
  - destruct Hg as [Hr Hnl]. rewrite decide_False by done. split_and!; [done| |tauto].
    split; [by intros [? ?]|tauto].
  - split_and!; [|rewrite Hadd; tauto|by auto]. case_decide; [done|].
    apply eq_None_not_Some. tauto.
Qed.

(** On a network that does not allow both directions, of two different
    nodes exactly one dials the other. *)
Theorem one_end_dials (a b : PeerConnector) :
  allow_bidirectional (Handle := Handle) (W := W) = false → pc_node_id a ≠ pc_node_id b →
  dials (Handle := Handle) (W := W) a (pc_node_id b) =
    negb (dials (Handle := Handle) (W := W) b (pc_node_id a)).
Proof.
  unfold dials. intros -> Hne. simpl.
  pose proof (String.leb_total (pc_node_id a) (pc_node_id b)).
  pose proof (String.leb_antisym (pc_node_id a) (pc_node_id b)).
  destruct (String.leb (pc_node_id a) (pc_node_id b)), (String.leb (pc_node_id b) (pc_node_id a));
    simpl; try done; [by destruct Hne; auto|naive_solver].
Qed.
End theorems.

(** Over TCP a pair of nodes shares the one connection that the node with the
    smaller id opens; in the simulation, where a connection carries messages one
    way only, each end opens its own. *)
Theorem who_dials {Handle W : Type} `{Tasks Handle W} (a b : PeerConnector) :
  pc_node_id a ≠ pc_node_id b →
  dials (H := TcpNetwork (Handle := Handle) (W := W)) a (pc_node_id b) =
    String.ltb (pc_node_id a) (pc_node_id b) ∧
  dials (H := TcpNetwork (Handle := Handle) (W := W)) b (pc_node_id a) =
    negb (String.ltb (pc_node_id a) (pc_node_id b)) ∧
  dials (H := SimulatedNetwork (Handle := Handle) (W := W)) a (pc_node_id b) = true ∧
  dials (H := SimulatedNetwork (Handle := Handle) (W := W)) b (pc_node_id a) = true.
Proof.
  intros Hne. unfold dials, String.leb, String.ltb. cbn.
  rewrite (String.compare_antisym (pc_node_id a)).
  destruct (String.compare (pc_node_id b) (pc_node_id a)) eqn:Hc; cbn; [|done..].
  apply String.compare_eq_iff in Hc. congruence.
Qed.

Section simulation.
Context {Tx W : Type} `{Sender Tx Envelope W}.
Context {received : W → Tx → list Envelope} {is_open : W → Tx → bool}
  `{!SenderOk Tx Envelope W received is_open}.

Lemma sim_writer_delivers remote rx w :
  is_open w remote = true →
  received (sim_writer_loop remote rx w) remote = received w remote ++ rx.
Proof.
  revert w. induction rx as [|e rx IH]; intros w Hopen; simpl; [by rewrite app_nil_r|].
  destruct (send_open (received := received) remote e w Hopen) as (Hok & Hr & Ho).
  destruct (send remote e w) as [r w1]. simpl in *. subst r.
  by rewrite IH, Hr, <- app_assoc.
Qed.

(** The simulated network: a node that connects to a known address registers
    the replica behind it, and everything it queues for it arrives, in order,
    while that replica runs; it arrives nowhere once the replica is gone, and an
    unknown address changes nothing. *)
Theorem simulated_network_delivers (channels : gmap string (NodeId * bool * Tx)) addr id registry
    (tx : Tx) rx (w : W) :
  let '(registry', w') := sim_spawn_outbound channels addr id registry tx rx w in
  match channels !! addr with
  | Some (remote_id, gc, remote) =>
      PeerRegistryImpl.get registry' remote_id = Some (gc, mkPeerHandle tx) ∧
      (is_open w remote = true → received w' remote = received w remote ++ rx) ∧
      (is_open w remote = false → w' = w)
  | None => registry' = registry ∧ w' = w
  end.
Proof.
  unfold sim_spawn_outbound, sim_run_connection. destruct (channels !! addr) as [[[n g] remote]|]; [|done].
  split_and!; [apply lookup_insert_eq|apply sim_writer_delivers|]. intros Hclosed.
  destruct rx as [|e rx]; simpl; [done|].
  destruct (send_closed (received := received) remote e w Hclosed) as [Herr Hw].
  destruct (send remote e w) as [[] w1]; simpl in *; [done|by subst].
Qed.
End simulation.

(** ** Witnesses *)
(** Tasks are numbered, and only one end dials. *)
#[export] Instance counting_network : Network nat nat := {|
  spawn_outbound := λ _ _ _ _ w, (w, S w);
  start_network_background := λ _ _ _ _ w, (w, S w);
  abort := λ _ w, w;
  allow_bidirectional := false
|}.

Lemma one_end_dials_witness :
  dials (Handle := nat) (W := nat) (mkPeerConnector "A" "A" false) "B" = true.
Proof.
  exact (one_end_dials (Handle := nat) (W := nat) (mkPeerConnector "A" "A" false)
    (mkPeerConnector "B" "B" false) eq_refl ltac:(discriminate)).
Defined.
