(* ===== verification/Framing.v ===== *)
(** * Length-delimited frames ([src/src/network/protocol.rs])

    A frame is the length of the encoded envelope as four big-endian bytes,
    followed by the encoding.  The byte streams are tokio's [AsyncRead] and
    [AsyncWrite]: their operations are the classes below, with the documented
    behaviour of [read_exact] (all the bytes asked for, or the error that ends
    the stream) and of [write_all] as law classes.  The errors are the crate's
    own [Error] ([src/src/common/error.rs]). *)
From Stdlib Require Import Strings.Byte Strings.String.
From stdpp Require Import base gmap sets list strings fin_maps.
From S2P Require Import Prelude Proto.
Local Open Scope N_scope.

(** ** Errors *)
Inductive IoError : Type :=
| UnexpectedEof
| OtherIo (message : string).

Inductive Error : Type :=
| Io (e : IoError)
| Decode (message : string)
| Encode (message : string)
| ConnectionClosed (addr : string)
| HandshakeFailed (addr : string) (reason : string).

Inductive fallible (A : Type) : Type :=
| Good (a : A)
| Bad (e : Error).
Arguments Good {A} a.
Arguments Bad {A} e.

(** ** Byte streams *)
Class AsyncRead (R : Type) := { read_exact : N → R → (bytes + IoError) * R }.

Class AsyncWrite (W : Type) := {
  write_all : bytes → W → option IoError * W;
  flush : W → option IoError * W
}.

(** The bytes still to come, and the error (end of file, or another) after them. *)
Class AsyncReadOk (R : Type) `{AsyncRead R} (incoming : R → bytes) (ending : R → IoError) := {
  read_exact_enough : ∀ n r, n <= N.of_nat (length (incoming r)) →
    (read_exact n r).1 = inl (take (N.to_nat n) (incoming r)) ∧
    incoming (read_exact n r).2 = drop (N.to_nat n) (incoming r) ∧
    ending (read_exact n r).2 = ending r;
  read_exact_short : ∀ n r, N.of_nat (length (incoming r)) < n →
    (read_exact n r).1 = inr (ending r) ∧ incoming (read_exact n r).2 = [] ∧
    ending (read_exact n r).2 = ending r
}.

(** While the connection is up, what is written arrives. *)
Class AsyncWriteOk (W : Type) `{AsyncWrite W} (written : W → bytes) (is_up : W → bool) := {
  write_all_up : ∀ b w, is_up w = true →
    (write_all b w).1 = None ∧ written (write_all b w).2 = written w ++ b ∧
    is_up (write_all b w).2 = true;
  flush_up : ∀ w, is_up w = true →
    (flush w).1 = None ∧ written (flush w).2 = written w ∧ is_up (flush w).2 = true
}.

(** ** 32-bit lengths *)
Definition u32_modulus : N := 4294967296.

Definition as_u32 (n : N) : N := n mod u32_modulus.

(** [u32::to_be_bytes] and [BufMut::put_u32]. *)
Definition to_be_bytes (n : N) : bytes :=
  [to_byte (n / 16777216); to_byte (n / 65536); to_byte (n / 256); to_byte n].

(** [u32::from_be_bytes]. *)
Definition from_be_bytes (l : bytes) : N := foldl (λ n b, n * 256 + Byte.to_N b) 0 l.

(** ** Frames *)
Definition MAX_FRAME_LEN : N := 16 * 1024 * 1024.

Section frames.
Context `{Message Envelope}.

Definition write_envelope {W : Type} `{AsyncWrite W} (envelope : Envelope) (writer : W)
    : fallible unit * W :=
  let len := encoded_len envelope in
  let buf := to_be_bytes (as_u32 len) ++ encode_to_vec envelope in
  match write_all buf writer with
  | (Some e, writer) => (Bad (Io e), writer)
  | (None, writer) =>
      match flush writer with
      | (Some e, writer) => (Bad (Io e), writer)
      | (None, writer) => (Good tt, writer)
      end
  end.

Definition read_envelope {R : Type} `{AsyncRead R} (reader : R) : fallible (option Envelope) * R :=
  match read_exact 4 reader with
  | (inr UnexpectedEof, reader) => (Good None, reader)
  | (inr e, reader) => (Bad (Io e), reader)
  | (inl len_buf, reader) =>
      let len := from_be_bytes len_buf in
      if MAX_FRAME_LEN <? len then (Bad (Io (OtherIo "frame too large")), reader)
      else
        match read_exact len reader with
        | (inr e, reader) => (Bad (Io e), reader)
        | (inl payload, reader) =>
            match decode payload with
            | Err e => (Bad (Decode e), reader)
            | Ok envelope => (Good (Some envelope), reader)
            end
        end
  end.

(** What [write_envelope] puts on the wire. *)
Definition frame (envelope : Envelope) : bytes :=
  to_be_bytes (as_u32 (encoded_len envelope)) ++ encode_to_vec envelope.
End frames.

(** ** Lemmas *)
Lemma to_N_to_byte n : Byte.to_N (to_byte n) = n mod 256.
Proof.
  unfold to_byte. destruct (Byte.of_N (n mod 256)) as [b|] eqn:Hb; simpl.
  - by apply Byte.to_of_N.
  - apply Byte.of_N_None_iff in Hb. pose proof (N.mod_lt n 256). lia.
Qed.

Lemma from_to_be_bytes n : n < u32_modulus → from_be_bytes (to_be_bytes n) = n.
Proof.
  unfold u32_modulus, from_be_bytes, to_be_bytes. intros Hn. simpl. rewrite !to_N_to_byte.
  rewrite (N.mod_small (n / 16777216)) by (apply N.Div0.div_lt_upper_bound; lia).
  change 65536 with (256 * 256). change 16777216 with (256 * 256 * 256).
  rewrite <- !N.Div0.div_div.
  pose proof (N.Div0.div_mod n 256). pose proof (N.Div0.div_mod (n / 256) 256).
  pose proof (N.Div0.div_mod (n / 256 / 256) 256). lia.
Qed.

Lemma length_to_be_bytes n : length (to_be_bytes n) = 4%nat.
Proof. done. Qed.

Lemma as_u32_small n : n <= MAX_FRAME_LEN → as_u32 n = n.
Proof. intros. unfold as_u32. apply N.mod_small. unfold u32_modulus, MAX_FRAME_LEN in *. lia. Qed.

Section lemmas.
Context `{Message Envelope}.
Context {R : Type} `{AsyncRead R} {incoming : R → bytes} {ending : R → IoError}
  `{!AsyncReadOk R incoming ending}.

(** A read that the stream can satisfy. *)
Lemma read_exact_app (a b : bytes) r n :
  incoming r = a ++ b → n = N.of_nat (length a) →
  ∃ r', read_exact n r = (inl a, r') ∧ incoming r' = b ∧ ending r' = ending r.
Proof.
  intros Hr ->. destruct (read_exact_enough (N.of_nat (length a)) r) as (H1 & H2 & H3).
  { rewrite Hr, length_app. lia. }
  destruct (read_exact _ r) as [x r']. simpl in *. exists r'.
  rewrite Nat2N.id, Hr in H1, H2. rewrite take_app_length in H1. rewrite drop_app_length in H2.
  by subst x.
Qed.

Lemma read_exact_eof r n :
  N.of_nat (length (incoming r)) < n →
  ∃ r', read_exact n r = (inr (ending r), r') ∧ incoming r' = [] ∧ ending r' = ending r.
Proof.
  intros Hn. destruct (read_exact_short n r Hn) as (H1 & H2 & H3).
  destruct (read_exact n r) as [x r']. simpl in *. exists r'. by subst x.
Qed.

(** Reading a length prefix. *)
Lemma read_length n rest r :
  n < u32_modulus → incoming r = to_be_bytes n ++ rest →
  ∃ r', incoming r' = rest ∧ ending r' = ending r ∧
    read_envelope r =
      if MAX_FRAME_LEN <? n then (Bad (Io (OtherIo "frame too large")), r')
      else match read_exact n r' with
           | (inr e, reader) => (Bad (Io e), reader)
           | (inl payload, reader) =>
               match decode payload with
               | Err e => (Bad (Decode e), reader)
               | Ok envelope => (Good (Some envelope), reader)
               end
           end.
Proof.
  intros Hn Hr. destruct (read_exact_app (to_be_bytes n) rest r 4) as (r' & Hread & Hr' & He);
    [done|done|].
  exists r'. split_and!; [done..|]. unfold read_envelope. rewrite Hread. cbv zeta.
  by rewrite from_to_be_bytes.
Qed.

Context {wf : Envelope → Prop} `{!MessageOk Envelope wf}.

Lemma read_frame e rest r :
  wf e → encoded_len e <= MAX_FRAME_LEN → incoming r = frame e ++ rest →
  ∃ r', read_envelope r = (Good (Some e), r') ∧ incoming r' = rest ∧ ending r' = ending r.
Proof.
  intros He Hlen Hr. unfold frame in Hr. rewrite <- app_assoc, as_u32_small in Hr by done.
  destruct (read_length (encoded_len e) (encode_to_vec e ++ rest) r) as (r1 & H1 & He1 & ->).
  { unfold u32_modulus, MAX_FRAME_LEN in *. lia. }
  { done. }
  destruct (N.ltb_spec MAX_FRAME_LEN (encoded_len e)); [lia|].
  destruct (read_exact_app (encode_to_vec e) rest r1 (encoded_len e)) as (r2 & -> & Hr2 & He2);
    [done|done|].
  exists r2. rewrite decode_encode by done. split_and!; congruence.
Qed.

Lemma read_end r :
  incoming r = [] → ending r = UnexpectedEof →
  ∃ r', read_envelope r = (Good None, r') ∧ incoming r' = [] ∧ ending r' = UnexpectedEof.
Proof.
  intros Hr He. destruct (read_exact_eof r 4) as (r' & Hread & Hr' & He'); [by rewrite Hr|].
  exists r'. unfold read_envelope. rewrite Hread, He. split_and!; congruence.
Qed.
End lemmas.

Lemma write_envelope_up `{Message Envelope} {W : Type} `{AsyncWrite W} {written : W → bytes}
    {is_up : W → bool} `{!AsyncWriteOk W written is_up} e w :
  is_up w = true →
  ∃ w', write_envelope e w = (Good tt, w') ∧ written w' = written w ++ frame e ∧ is_up w' = true.
Proof.
  intros Hw. unfold write_envelope. fold (frame e).
  destruct (write_all_up (frame e) w Hw) as (H1 & H2 & H3).
  destruct (write_all (frame e) w) as [x w1]. simpl in *. subst x.
  destruct (flush_up w1 H3) as (H4 & H5 & H6). destruct (flush w1) as [y w2]. simpl in *. subst y.
  exists w2. split_and!; congruence.
Qed.

(** Reading until the end of the stream. *)
Section streams.
Context `{Message Envelope} {R : Type} `{AsyncRead R}.

Fixpoint read_all (fuel : nat) (reader : R) : option (list Envelope * Error + list Envelope) :=
  match fuel with
  | O => None
  | S fuel' =>
      match read_envelope reader with
      | (Bad e, _) => Some (inl ([], e))
      | (Good None, _) => Some (inr [])
      | (Good (Some env), reader) =>
          match read_all fuel' reader with
          | Some (inr l) => Some (inr (env :: l))
          | Some (inl (l, e)) => Some (inl (env :: l, e))
          | None => None
          end
      end
  end.
End streams.

Definition write_envelopes `{Message Envelope} {W : Type} `{AsyncWrite W} (es : list Envelope)
    (writer : W) : W := foldl (λ w e, (write_envelope e w).2) writer es.

(** ** Properties *)
Section theorems.
Context `{Message Envelope} {wf : Envelope → Prop} `{!MessageOk Envelope wf}.
Context {W : Type} `{AsyncWrite W} {written : W → bytes} {is_up : W → bool}
  `{!AsyncWriteOk W written is_up}.
Context {R : Type} `{AsyncRead R} {incoming : R → bytes} {ending : R → IoError}
  `{!AsyncReadOk R incoming ending}.

Lemma write_envelopes_up es w :
  is_up w = true → written (write_envelopes es w) = written w ++ concat (frame <$> es).
Proof.
  revert w. induction es as [|e es IH]; intros w Hw; simpl; [by rewrite app_nil_r|].
  destruct (write_envelope_up (written := written) e w Hw) as (w' & -> & Hwr & Hw'). simpl.
  by rewrite IH, Hwr, <- app_assoc.
Qed.

Lemma read_all_frames es rest r :
  Forall (λ e, wf e ∧ encoded_len e <= MAX_FRAME_LEN) es →
  incoming r = concat (frame <$> es) ++ rest →
  ∃ r', incoming r' = rest ∧ ending r' = ending r ∧ ∀ fuel,
    read_all (length es + fuel) r =
      match read_all fuel r' with
      | Some (inr l) => Some (inr (es ++ l))
      | Some (inl (l, e)) => Some (inl (es ++ l, e))
      | None => None
      end.
Proof.
  revert r. induction es as [|e es IH]; intros r; simpl.
  - intros _ Hr. exists r. split_and!; [done..|]. intros fuel. by destruct (read_all fuel r) as [[[]|]|].
  - intros [[He Hlen] Hes]%Forall_cons Hr. rewrite <- app_assoc in Hr.
    destruct (read_frame e _ r He Hlen Hr) as (r1 & Hread & Hr1 & He1).
    destruct (IH r1 Hes Hr1) as (r' & Hr' & He' & Hall). exists r'.
    split_and!; [done|congruence|]. intros fuel. rewrite Hread, Hall.
    by destruct (read_all fuel r') as [[[]|]|].
Qed.

(** C33. Envelopes written one after the other are read back in the same
    order, one per frame and with nothing left over, and then the clean end of
    the stream; an error that ends the stream is reported after them. *)
Theorem frames_round_trip es w r :
  is_up w = true → written w = [] →
  Forall (λ e, wf e ∧ encoded_len e <= MAX_FRAME_LEN) es →
  incoming r = written (write_envelopes es w) →
  read_all (S (length es)) r =
    Some match ending r with
         | UnexpectedEof => inr es
         | OtherIo m => inl (es, Io (OtherIo m))
         end.
Proof.
  intros Hw Hnil Hes Hr. rewrite write_envelopes_up, Hnil in Hr by done. simpl in Hr.
  rewrite <- (app_nil_r (concat _)) in Hr.
  destruct (read_all_frames es [] r Hes Hr) as (r' & Hr' & He' & Hall).
  replace (S (length es)) with (length es + 1)%nat by lia. rewrite Hall. simpl.
  unfold read_envelope. destruct (read_exact_eof r' 4) as (r2 & -> & _ & _); [by rewrite Hr'|].
  rewrite He'. destruct (ending r); by rewrite app_nil_r.
Qed.

(** C34. Frames that cannot be trusted.  A length above 16 MiB is refused
    before any of its payload is read; a payload that the stream cuts off, or
    that does not decode, is an error.  The writer does not know the cap: the
    frame it makes of an envelope whose encoding is longer (and below 4 GiB) is
    refused by every reader.  A stream cut inside the length prefix is reported
    as a clean end. *)
Theorem bad_frames_are_rejected n payload r e w :
  (MAX_FRAME_LEN < n → n < u32_modulus → incoming r = to_be_bytes n ++ payload →
    ∃ r', read_envelope r = (Bad (Io (OtherIo "frame too large")), r') ∧ incoming r' = payload) ∧
  (n <= MAX_FRAME_LEN → N.of_nat (length payload) < n → incoming r = to_be_bytes n ++ payload →
    ∃ r', read_envelope r = (Bad (Io (ending r)), r')) ∧
  (N.of_nat (length payload) = n → n <= MAX_FRAME_LEN → is_ok (decode (T := Envelope) payload) = false →
    incoming r = to_be_bytes n ++ payload → ∃ m r', read_envelope r = (Bad (Decode m), r')) ∧
  (MAX_FRAME_LEN < encoded_len e → encoded_len e < u32_modulus →
    is_up w = true → written w = [] → incoming r = written (write_envelope e w).2 →
    (write_envelope e w).1 = Good tt ∧
    ∃ r', read_envelope r = (Bad (Io (OtherIo "frame too large")), r')) ∧
  (N.of_nat (length (incoming r)) < 4 → ending r = UnexpectedEof →
    (read_envelope r).1 = Good None).
Proof.
  assert (∀ n payload, MAX_FRAME_LEN < n → n < u32_modulus → incoming r = to_be_bytes n ++ payload →
    ∃ r', read_envelope r = (Bad (Io (OtherIo "frame too large")), r') ∧ incoming r' = payload) as Hlarge.
  { intros k p Hk Hk2 Hr. destruct (read_length k p r Hk2 Hr) as (r' & Hr' & _ & ->).
    exists r'. destruct (N.ltb_spec MAX_FRAME_LEN k); [done|lia]. }
  assert (∀ k, k <= MAX_FRAME_LEN → k < u32_modulus ∧ (MAX_FRAME_LEN <? k) = false) as Hsmall.
  { intros k Hk. unfold u32_modulus, MAX_FRAME_LEN in *. split; [lia|]. apply N.ltb_ge. lia. }
  split_and!; [by apply Hlarge| | | |].
  - intros Hn Hlen Hr. destruct (Hsmall _ Hn) as [Hu Hle].
    destruct (read_length n payload r Hu Hr) as (r1 & Hr1 & He1 & ->). rewrite Hle.
    destruct (read_exact_eof r1 n) as (r2 & -> & _ & _); [by rewrite Hr1|].
    exists r2. by rewrite He1.
  - intros Hlen Hn Hdec Hr. destruct (Hsmall _ Hn) as [Hu Hle].
    destruct (read_length n payload r Hu Hr) as (r1 & Hr1 & He1 & ->). rewrite Hle.
    destruct (read_exact_app payload [] r1 n) as (r2 & -> & _ & _); [by rewrite app_nil_r|done|].
    destruct (decode payload); [done|]. by eexists _, _.
  - intros Hlen Hu Hw Hnil Hr.
    destruct (write_envelope_up (written := written) e w Hw) as (w' & Heq & Hwr & _).
    rewrite Heq in *. split; [done|]. simpl in Hr. rewrite Hwr, Hnil in Hr.
    unfold frame, as_u32 in Hr. rewrite N.mod_small in Hr by done.
    destruct (Hlarge _ _ Hlen Hu Hr) as (r' & ? & _). eauto.
  - intros Hlen He. unfold read_envelope.
    destruct (read_exact_eof r 4) as (r2 & -> & _ & _); [done|]. by rewrite He.
Qed.
End theorems.

(** ** A concrete stream *)
#[export] Instance bytes_writer : AsyncWrite bytes := {|
  write_all := λ b w, (None, w ++ b);
  flush := λ w, (None, w)
|}.

#[export] Instance bytes_writer_ok : AsyncWriteOk bytes id (λ _, true).
Proof. by split. Qed.

(** The bytes to come, then the end of the file. *)
#[export] Instance bytes_reader : AsyncRead bytes := {|
  read_exact := λ n r,
    if n <=? N.of_nat (length r) then (inl (take (N.to_nat n) r), drop (N.to_nat n) r)
    else (inr UnexpectedEof, [])
|}.

#[export] Instance bytes_reader_ok : AsyncReadOk bytes id (λ _, UnexpectedEof).
Proof. split; intros n r Hn; unfold read_exact, bytes_reader, id in *; by case_ltb; try lia. Qed.

#[local] Instance envelope_codec : Message Envelope := countable_message Envelope.
#[local] Instance envelope_codec_ok : MessageOk Envelope envelope_ok.
Proof. apply countable_message_ok. Qed.

Definition demo_envelope : Envelope :=
  mkEnvelope (Some (PHandshake (mkHandshake "A" "A" 1 false))).

Lemma frames_round_trip_witness :
  read_all 3 (write_envelopes [demo_envelope; demo_envelope] ([] : bytes)) =
    Some (inr [demo_envelope; demo_envelope]).
Proof.
  refine (frames_round_trip (wf := envelope_ok) (written := id) (is_up := λ _, true)
    (incoming := id) (ending := λ _, UnexpectedEof) [demo_envelope; demo_envelope] [] _ _ _ _ _).
  - reflexivity.
  - reflexivity.
  - repeat constructor; vm_compute; discriminate.
  - reflexivity.
Defined.

Lemma bad_frames_are_rejected_witness :
  ∃ r', read_envelope (to_be_bytes 16777217 ++ [x00]) =
    (Bad (Io (OtherIo "frame too large")), r') ∧ id r' = [x00].
Proof.
  refine (proj1 (bad_frames_are_rejected (written := id) (is_up := λ _, true) (incoming := id)
    (ending := λ _, UnexpectedEof) 16777217 [x00] (to_be_bytes 16777217 ++ [x00]) demo_envelope [])
    _ _ _); reflexivity.
Defined.
