(* ===== verification/Connection.v ===== *)
(** * Connections to peers ([src/src/network/tcp_connection.rs])

    The handshake, the reader and writer loops, the life of one connection,
    accepting, and the supervised reconnection of an outbound peer.  A connection
    is the pair of a reader and a writer ([Framing]); the world [W] holds the
    queue of received envelopes.  Opening sockets and asking the name server are
    tokio's: each attempt of the supervisor, each accept and each lookup is given
    with its outcome. *)
From Stdlib Require Import Strings.Byte Strings.String.
From stdpp Require Import base gmap sets list strings fin_maps.
From S2P Require Import Prelude Proto Registry Framing.
Local Open Scope N_scope.

(** ** Tunables, in seconds *)
Definition RECONNECT_BASE : N := 1.

Definition RECONNECT_MAX : N := 30.

Definition next_backoff (backoff : N) : N := N.min (backoff * 2) RECONNECT_MAX.

(** ** Resolving an address ([src/src/common/mod.rs]) *)
(** [lookup_host] is tokio's. *)
Definition lookup (lookup_host : string → result (list string)) (addr : string) : result string :=
  match lookup_host addr with
  | Err e => Err e
  | Ok (a :: _) => Ok a
  | Ok [] => Err ("could not resolve address: " ++ addr)%string
  end.

Section connection.
Context `{Message Envelope}.
Context {R Wr Tx AppTx W : Type} `{AsyncRead R} `{AsyncWrite Wr} `{Sender AppTx Envelope W}.
(** The debug format of a payload and the decimal format of a number. *)
Context (debug_payload : option Payload → string) (show_n : N → string).

(** ** Handshake *)
Definition receive_handshake (reader : R) (addr : string) : fallible (string * bool) * R :=
  match read_envelope reader with
  | (Bad e, reader) => (Bad e, reader)
  | (Good None, reader) => (Bad (HandshakeFailed addr "EOF before handshake"), reader)
  | (Good (Some envelope), reader) =>
      match env_payload envelope with
      | Some (PHandshake hs) =>
          if negb (hs_version hs =? 1)
          then (Bad (HandshakeFailed addr ("unsupported version " ++ show_n (hs_version hs))), reader)
          else (Good (hs_node_id hs, hs_gc_replica hs), reader)
      | other => (Bad (HandshakeFailed addr ("expected Handshake, got " ++ debug_payload other)), reader)
      end
  end.

Definition handshake_envelope (local_node_id local_node_name : NodeId) (gc_replica : bool)
    : Envelope :=
  {| env_payload := Some (PHandshake
       {| hs_node_id := local_node_id; hs_node_name := local_node_name;
          hs_version := 1; hs_gc_replica := gc_replica |}) |}.

Definition handshake (reader : R) (writer : Wr) (local_node_id local_node_name : NodeId)
    (gc_replica : bool) (addr : string) (initiator : bool)
    : fallible (string * bool) * R * Wr :=
  let hs := handshake_envelope local_node_id local_node_name gc_replica in
  if initiator then
    match write_envelope hs writer with
    | (Bad e, writer) => (Bad e, reader, writer)
    | (Good _, writer) => let '(r, reader) := receive_handshake reader addr in (r, reader, writer)
    end
  else
    match receive_handshake reader addr with
    | (Bad e, reader) => (Bad e, reader, writer)
    | (Good (remote_id, gc_replica), reader) =>
        match write_envelope hs writer with
        | (Bad e, writer) => (Bad e, reader, writer)
        | (Good _, writer) => (Good (remote_id, gc_replica), reader, writer)
        end
    end.

(** ** The reader *)
Definition dispatch (envelope : Envelope) (app_tx : AppTx) (w : W) : W :=
  match env_payload envelope with
  | Some (PCrdtOp _) | Some (PCrdtPullRequest _) | Some (PHandshake _) =>
      (send app_tx envelope w).2
  | None => w
  end.

Fixpoint reader_loop (fuel : nat) (reader : R) (addr : string) (app_tx : AppTx) (w : W)
    : option (fallible unit * W) :=
  match fuel with
  | O => None
  | S fuel' =>
      match read_envelope reader with
      | (Bad e, _) => Some (Bad e, w)
      | (Good (Some env), reader) => reader_loop fuel' reader addr app_tx (dispatch env app_tx w)
      | (Good None, _) => Some (Bad (ConnectionClosed addr), w)
      end
  end.

(** ** The writer *)
(** Drains the peer's channel; a failed write ends the task. *)
Fixpoint writer_loop (rx : list Envelope) (writer : Wr) : Wr :=
  match rx with
  | [] => writer
  | envelope :: rx' =>
      match write_envelope envelope writer with
      | (Bad _, writer) => writer
      | (Good _, writer) => writer_loop rx' writer
      end
  end.

(** ** One connection *)
(** [tx] is the channel made for the peer; [writer] is left to the writer task. *)
Definition run_connection (fuel : nat) (reader : R) (writer : Wr) (tx : Tx) (addr : string)
    (local_node_id local_node_name : NodeId) (gc_replica : bool) (registry : PeerRegistry Tx)
    (app_tx : AppTx) (initiator : bool) (w : W)
    : option (fallible NodeId * PeerRegistry Tx * Wr * W) :=
  match handshake reader writer local_node_id local_node_name gc_replica addr initiator with
  | (Bad e, _, writer) => Some (Bad e, registry, writer, w)
  | (Good (remote_node_id, remote_gc_replica), reader, writer) =>
      let registry :=
        PeerRegistryImpl.insert registry remote_node_id remote_gc_replica (mkPeerHandle tx) in
      '(reader_result, w) ← reader_loop fuel reader addr app_tx w;
      Some (match reader_result with
            | Good _ => Good remote_node_id
            | Bad e => Bad e
            end, registry, writer, w)
  end.

(** ** The supervisor of an outbound peer *)
(** An attempt to connect: refused, or the stream it opened. *)
Inductive Attempt : Type :=
| Refused
| Connected (reader : R) (writer : Wr) (tx : Tx).

(** The pauses between the attempts, with the registry and the world they leave. *)
Fixpoint outbound_loop (fuel : nat) (backoff : N) (attempts : list Attempt) (addr : string)
    (local_node_id local_node_name : NodeId) (gc_replica : bool) (registry : PeerRegistry Tx)
    (app_tx : AppTx) (w : W) : option (list N * PeerRegistry Tx * W) :=
  match attempts with
  | [] => Some ([], registry, w)
  | attempt :: attempts' =>
      '(backoff, registry, w) ←
        match attempt with
        | Refused => Some (backoff, registry, w)
        | Connected reader writer tx =>
            '(_, registry, _, w) ← run_connection fuel reader writer tx addr local_node_id
                                     local_node_name gc_replica registry app_tx true w;
            Some (RECONNECT_BASE, registry, w)
        end;
      '(sleeps, registry, w) ←
        outbound_loop fuel (next_backoff backoff) attempts' addr local_node_id local_node_name
          gc_replica registry app_tx w;
      Some (backoff :: sleeps, registry, w)
  end.

(** The address is resolved once, before the first attempt. *)
Definition spawn_outbound (fuel : nat) (addr : result string) (attempts : list Attempt)
    (local_node_id local_node_name : NodeId) (gc_replica : bool) (registry : PeerRegistry Tx)
    (app_tx : AppTx) (w : W) : option (list N * PeerRegistry Tx * W) :=
  match addr with
  | Err _ => Some ([], registry, w)
  | Ok addr =>
      outbound_loop fuel RECONNECT_BASE attempts addr local_node_id local_node_name gc_replica
        registry app_tx w
  end.

(** ** The listener *)
(** A stream that was accepted, with the channel made for its peer. *)
Record Inbound := mkInbound {
  in_reader : R;
  in_writer : Wr;
  in_tx : Tx;
  in_remote_addr : string
}.

Definition handle_inbound (fuel : nat) (stream : Inbound) (local_node_id local_node_name : NodeId)
    (gc_replica : bool) (registry : PeerRegistry Tx) (app_tx : AppTx) (w : W)
    : option (PeerRegistry Tx * Wr * W) :=
  '(_, registry, writer, w) ←
    run_connection fuel (in_reader stream) (in_writer stream) (in_tx stream) (in_remote_addr stream)
      local_node_id local_node_name gc_replica registry app_tx false w;
  Some (registry, writer, w).

(** [tasks] are the streams whose tasks were spawned. *)
Definition handle_accepted_connection (tasks : list Inbound) (accept_result : Inbound + IoError)
    : list Inbound :=
  match accept_result with
  | inl stream => (tasks ++ [stream])%list
  | inr _ => tasks
  end.

(** The tasks spawned after the given accepts; [parse] and [bind] are the
    standard library's and tokio's. *)
Definition bind_and_listen (parse : string → result string) (bind : string → result unit)
    (listen_port : string) (accepts : list (Inbound + IoError)) : result (list Inbound) :=
  match parse ("0.0.0.0:" ++ listen_port)%string with
  | Err e => Err e
  | Ok listen_addr =>
      match bind listen_addr with
      | Err e => Err e
      | Ok _ => Ok (foldl handle_accepted_connection [] accepts)
      end
  end.
End connection.

(** ** Lemmas *)
Section lemmas.
Context `{Message Envelope} `{!MessageOk Envelope envelope_ok}.
Context {R Wr Tx AppTx W : Type} `{AsyncRead R} `{AsyncWrite Wr} `{Sender AppTx Envelope W}.
Context {incoming : R → bytes} {ending : R → IoError} `{!AsyncReadOk R incoming ending}.
Context {written : Wr → bytes} {is_up : Wr → bool} `{!AsyncWriteOk Wr written is_up}.
Context {received : W → AppTx → list Envelope} {is_open : W → AppTx → bool}
  `{!SenderOk AppTx Envelope W received is_open}.
Context (debug_payload : option Payload → string) (show_n : N → string).

(** An envelope that fits in a frame. *)
Definition sendable (e : Envelope) : Prop := envelope_ok e ∧ encoded_len e <= MAX_FRAME_LEN.

Lemma receive_handshake_ok id name gc rest r addr :
  sendable (handshake_envelope id name gc) →
  incoming r = frame (handshake_envelope id name gc) ++ rest →
  ∃ r', receive_handshake debug_payload show_n r addr = (Good (id, gc), r') ∧
    incoming r' = rest ∧ ending r' = ending r.
Proof.
  intros [He Hlen] Hr. destruct (read_frame (wf := envelope_ok) _ rest r He Hlen Hr)
    as (r' & Hread & Hrest & Hend).
  exists r'. unfold receive_handshake. by rewrite Hread.
Qed.

Lemma receive_handshake_bad e rest r addr :
  sendable e → incoming r = frame e ++ rest →
  (∀ hs, env_payload e = Some (PHandshake hs) → hs_version hs ≠ 1) →
  ∃ m r', receive_handshake debug_payload show_n r addr = (Bad (HandshakeFailed addr m), r').
Proof.
  intros [He Hlen] Hr Hbad. destruct (read_frame (wf := envelope_ok) _ rest r He Hlen Hr)
    as (r' & Hread & _).
  unfold receive_handshake. rewrite Hread.
  destruct (env_payload e) as [[hs|o|q]|]; [|by eexists _, _..].
  destruct (N.eqb_spec (hs_version hs) 1); [by edestruct Hbad|]. by eexists _, _.
Qed.

(** The envelopes that reach the application. *)
Definition with_payload (es : list Envelope) : list Envelope :=
  List.filter (λ e, bool_decide (env_payload e ≠ None)) es.

Lemma dispatch_received e c w :
  is_open w c = true →
  received (dispatch e c w) c = received w c ++ with_payload [e] ∧ is_open (dispatch e c w) c = true.
Proof.
  intros Hopen. destruct (send_open (received := received) c e w Hopen) as (_ & Hs & Ho).
  unfold dispatch, with_payload; simpl.
  destruct (env_payload e) as [[]|]; simpl; rewrite ?app_nil_r; done.
Qed.

Lemma reader_loop_delivers es r addr c w :
  Forall sendable es → incoming r = concat (frame <$> es) → is_open w c = true →
  ∃ w', reader_loop (S (length es)) r addr c w =
      Some (Bad match ending r with
                | UnexpectedEof => ConnectionClosed addr
                | OtherIo m => Io (OtherIo m)
                end, w') ∧
    received w' c = received w c ++ with_payload es.
Proof.
  revert r w. induction es as [|e es IH]; intros r w.
  - intros _ Hr Hopen. simpl in *. unfold read_envelope.
    destruct (read_exact_eof r 4) as (r2 & -> & _ & _); [by rewrite Hr|].
    exists w. rewrite app_nil_r. by destruct (ending r).
  - intros [[He Hlen] Hes]%Forall_cons Hr Hopen.
    destruct (read_frame (wf := envelope_ok) e _ r He Hlen Hr) as (r1 & Hread & Hr1 & He1).
    destruct (dispatch_received e c w Hopen) as [Hrec Hopen1].
    destruct (IH r1 _ Hes Hr1 Hopen1) as (w' & Hloop & Hw'). exists w'.
    change (reader_loop (S (length (e :: es))) r addr c w) with
      (match read_envelope r with
       | (Bad e, _) => Some (Bad e, w)
       | (Good (Some env), reader) => reader_loop (S (length es)) reader addr c (dispatch env c w)
       | (Good None, _) => Some (Bad (ConnectionClosed addr), w)
       end).
    rewrite Hread, Hloop, He1. split; [done|]. rewrite Hw', Hrec, <- app_assoc. f_equal.
    by unfold with_payload; rewrite <- List.filter_app.
Qed.

Lemma writer_loop_writes es w :
  is_up w = true → written (writer_loop es w) = written w ++ concat (frame <$> es).
Proof.
  revert w. induction es as [|e es IH]; intros w Hw; simpl; [by rewrite app_nil_r|].
  destruct (write_envelope_up (written := written) e w Hw) as (w' & -> & Hwr & Hw').
  by rewrite IH, Hwr, <- app_assoc.
Qed.
End lemmas.

Section supervisor.
Context `{Message Envelope}.
Context {R Wr Tx AppTx W : Type} `{AsyncRead R} `{AsyncWrite Wr} `{Sender AppTx Envelope W}.
Context (debug_payload : option Payload → string) (show_n : N → string).
Implicit Types attempts : list (Attempt (R := R) (Wr := Wr) (Tx := Tx)).

Definition is_connected (a : Attempt (R := R) (Wr := Wr) (Tx := Tx)) : bool :=
  match a with Connected _ _ _ => true | Refused => false end.

(** The pauses, which depend on the outcomes of the attempts only. *)
Fixpoint pauses (backoff : N) attempts : list N :=
  match attempts with
  | [] => []
  | a :: attempts' =>
      let b := if is_connected a then RECONNECT_BASE else backoff in
      b :: pauses (next_backoff b) attempts'
  end.

Lemma outbound_pauses fuel b attempts addr id name gc registry c w sleeps registry' w' :
  outbound_loop debug_payload show_n fuel b attempts addr id name gc registry c w =
    Some (sleeps, registry', w') →
  sleeps = pauses b attempts.
Proof.
  revert b registry w sleeps. induction attempts as [|a attempts IH]; intros b registry w sleeps;
    [by intros [= <- _ _]|].
  destruct a as [|r wr tx]; simpl.
  - destruct (outbound_loop _ _ _ _ _ _ _ _ _ _ _ _) as [[[l g] w1]|] eqn:Hl; [|done].
    intros [= <- -> ->]. f_equal. by eapply IH.
  - destruct (run_connection _ _ _ _ _ _ _ _ _ _ _ _ _ _) as [[[[x g] y] w1]|]; [|done]; simpl.
    destruct (outbound_loop _ _ _ _ _ _ _ _ _ _ _ _) as [[[l g'] w2]|] eqn:Hl; [|done].
    intros [= <- -> ->]. f_equal. by eapply IH.
Qed.

Lemma pauses_bounded b attempts :
  1 <= b <= RECONNECT_MAX → Forall (λ s, 1 <= s <= RECONNECT_MAX) (pauses b attempts).
Proof.
  revert b. induction attempts as [|a attempts IH]; intros b Hb; simpl; [constructor|].
  assert (1 <= (if is_connected a then RECONNECT_BASE else b) <= RECONNECT_MAX) as Hb'.
  { destruct (is_connected a); [by vm_compute|done]. }
  constructor; [done|]. apply IH. unfold next_backoff, RECONNECT_MAX in *. lia.
Qed.

Lemma pauses_app b pre attempts :
  ∃ b', drop (length pre) (pauses b (pre ++ attempts)) = pauses b' attempts.
Proof.
  revert b. induction pre as [|a pre IH]; intros b; simpl; [by exists b|]. apply IH.
Qed.

Lemma pauses_refused b n k :
  (k < n)%nat → 1 <= b <= RECONNECT_MAX →
  pauses b (replicate n Refused) !! k = Some (N.min RECONNECT_MAX (b * 2 ^ N.of_nat k)).
Proof.
  revert b k. induction n as [|n IH]; intros b k Hk Hb; [lia|]. destruct k as [|k]; simpl.
  - rewrite N.mul_1_r. f_equal. lia.
  - rewrite IH by (unfold next_backoff, RECONNECT_MAX in *; lia). f_equal.
    rewrite Nat2N.inj_succ, N.pow_succ_r'. unfold next_backoff, RECONNECT_MAX in *.
    assert (1 <= 2 ^ N.of_nat k). { pose proof (N.pow_nonzero 2 (N.of_nat k)). lia. }
    destruct (N.min_spec (b * 2) 30) as [[? ->]|[? ->]]; [f_equal; lia|].
    rewrite !N.min_l; [done|nia|nia].
Qed.
End supervisor.

(** ** Properties *)
Section theorems.
Context `{Message Envelope} `{!MessageOk Envelope envelope_ok}.
Context {R Wr Tx AppTx W : Type} `{AsyncRead R} `{AsyncWrite Wr} `{Sender AppTx Envelope W}.
Context {incoming : R → bytes} {ending : R → IoError} `{!AsyncReadOk R incoming ending}.
Context {written : Wr → bytes} {is_up : Wr → bool} `{!AsyncWriteOk Wr written is_up}.
Context {received : W → AppTx → list Envelope} {is_open : W → AppTx → bool}
  `{!SenderOk AppTx Envelope W received is_open}.
Context (debug_payload : option Payload → string) (show_n : N → string).

(** Whichever side it is on, a node that meets a peer of the same
    protocol version learns the peer's id and role, has sent its own exactly
    once, and leaves the rest of the stream unread.  Anything but a version 1
    handshake fails the connection, and the accepting side then sends nothing. *)
Theorem handshake_identifies_peers id name gc peer peer_name peer_gc initiator addr rest r w e :
  is_up w = true →
  sendable (handshake_envelope peer peer_name peer_gc) → sendable e →
  (∀ hs, env_payload e = Some (PHandshake hs) → hs_version hs ≠ 1) →
  (incoming r = frame (handshake_envelope peer peer_name peer_gc) ++ rest →
   ∃ r' w', handshake debug_payload show_n r w id name gc addr initiator =
       (Good (peer, peer_gc), r', w') ∧
     incoming r' = rest ∧ written w' = written w ++ frame (handshake_envelope id name gc)) ∧
  ((incoming r = [] ∧ ending r = UnexpectedEof) ∨ incoming r = frame e ++ rest →
   ∃ m r' w', handshake debug_payload show_n r w id name gc addr initiator =
       (Bad (HandshakeFailed addr m), r', w') ∧
     (initiator = false → written w' = written w)).
Proof.
  intros Hw Hpeer He Hbad.
  destruct (write_envelope_up (written := written) (handshake_envelope id name gc) w Hw)
    as (w1 & Hwrite & Hw1 & _).
  split.
  - intros Hr. destruct (receive_handshake_ok debug_payload show_n peer peer_name peer_gc rest r addr Hpeer Hr)
      as (r' & Hrec & Hrest & _).
    exists r', w1. unfold handshake. destruct initiator; by rewrite ?Hwrite, Hrec, ?Hwrite.
  - intros Hr.
    assert (∃ m r', receive_handshake debug_payload show_n r addr = (Bad (HandshakeFailed addr m), r'))
      as (m & r' & Hrec).
    { destruct Hr as [[Hnil Hend]|Hr]; [|by eapply receive_handshake_bad].
      destruct (read_end r Hnil Hend) as (r' & Hread & _).
      eexists _, r'. unfold receive_handshake. by rewrite Hread. }
    unfold handshake. destruct initiator; rewrite ?Hwrite, Hrec; by eexists _, _, _.
Qed.

(** A connection, on either side of it, whose stream carries a peer's
    handshake and then the envelopes [es]. *)
Lemma run_connection_delivers initiator id name gc peer peer_name peer_gc addr registry tx c es r w world :
  is_up w = true → is_open world c = true →
  Forall sendable (handshake_envelope peer peer_name peer_gc :: es) →
  incoming r = concat (frame <$> handshake_envelope peer peer_name peer_gc :: es) →
  ending r = UnexpectedEof →
  ∃ w' world',
    run_connection (Tx := Tx) debug_payload show_n (S (length es)) r w tx addr id name gc registry c
      initiator world =
      Some (Bad (ConnectionClosed addr),
            PeerRegistryImpl.insert registry peer peer_gc (mkPeerHandle tx), w', world') ∧
    received world' c = (received world c ++ with_payload es)%list ∧
    written w' = (written w ++ frame (handshake_envelope id name gc))%list ∧ is_up w' = true.
Proof.
  intros Hw Hopen [Hhs Hes]%Forall_cons Hr Hend. cbn [fmap list_fmap concat] in Hr.
  destruct (receive_handshake_ok debug_payload show_n peer peer_name peer_gc _ r addr Hhs Hr)
    as (r1 & Hrec & Hrest & Hend1).
  destruct (write_envelope_up (written := written) (handshake_envelope id name gc) w Hw)
    as (w1 & Hwrite & Hw1 & Hup1).
  destruct (reader_loop_delivers es r1 addr c world Hes Hrest Hopen) as (world' & Hloop & Hrecv).
  exists w1, world'. unfold run_connection, handshake.
  destruct initiator; rewrite ?Hwrite, Hrec, ?Hwrite, Hloop, Hend1, Hend; done.
Qed.

(** One connection from end to end.  When a peer writes its
    handshake and then everything queued for it, the accepting node registers the
    peer under the announced id and role with the new channel, answers with its own handshake,
    and hands every envelope that has a payload to the application, once and in
    order; the connection then ends as closed by the peer. *)
Theorem connection_delivers_in_order id name gc peer peer_name peer_gc addr registry tx c es wp r w world :
  is_up wp = true → written wp = [] → is_up w = true → is_open world c = true →
  Forall sendable (handshake_envelope peer peer_name peer_gc :: es) →
  incoming r = written (writer_loop (handshake_envelope peer peer_name peer_gc :: es) wp) →
  ending r = UnexpectedEof →
  ∃ registry' w' world',
    run_connection (Tx := Tx) debug_payload show_n (S (length es)) r w tx addr id name gc registry c
      false world = Some (Bad (ConnectionClosed addr), registry', w', world') ∧
    received world' c = received world c ++ with_payload es ∧
    written w' = written w ++ frame (handshake_envelope id name gc) ∧
    PeerRegistryImpl.get registry' peer = Some (peer_gc, mkPeerHandle tx) ∧
    ∀ n, n ≠ peer → PeerRegistryImpl.get registry' n = PeerRegistryImpl.get registry n.
Proof.
  intros Hwp Hnil Hw Hopen Hes Hr Hend. rewrite writer_loop_writes, Hnil in Hr by done.
  destruct (run_connection_delivers false id name gc peer peer_name peer_gc addr registry tx c es
    r w world Hw Hopen Hes Hr Hend) as (w' & world' & Hrun & Hrecv & Hwr & _).
  eexists _, w', world'. split; [exact Hrun|]. split_and!; [done|done|apply lookup_insert_eq|].
  intros n Hn. by apply lookup_insert_ne.
Qed.

(** C27. Both ends of a connection.  Node A dials and queues [es]
    for B, node B accepts and queues [fs] for A: the bytes each end writes,
    handshake and then queue, are the stream the other reads, and on them each end
    registers the other under its own id and role and hands everything the other
    queued, once and in order, to its application. *)
Theorem both_ends_meet a b gc_a gc_b addr_a addr_b reg_a reg_b tx_a tx_b c_a c_b es fs
    r_a w_a world_a r_b w_b world_b :
  is_up w_a = true → is_up w_b = true → written w_a = [] → written w_b = [] →
  is_open world_a c_a = true → is_open world_b c_b = true →
  Forall sendable (handshake_envelope a a gc_a :: es) →
  Forall sendable (handshake_envelope b b gc_b :: fs) →
  incoming r_b = concat (frame <$> handshake_envelope a a gc_a :: es) →
  incoming r_a = concat (frame <$> handshake_envelope b b gc_b :: fs) →
  ending r_a = UnexpectedEof → ending r_b = UnexpectedEof →
  ∃ reg_a' w_a' world_a' reg_b' w_b' world_b',
    run_connection (Tx := Tx) debug_payload show_n (S (length fs)) r_a w_a tx_a addr_b a a gc_a
      reg_a c_a true world_a = Some (Bad (ConnectionClosed addr_b), reg_a', w_a', world_a') ∧
    handle_inbound (Tx := Tx) debug_payload show_n (S (length es)) (mkInbound r_b w_b tx_b addr_a) b b gc_b
      reg_b c_b world_b = Some (reg_b', w_b', world_b') ∧
    written (writer_loop es w_a') = incoming r_b ∧ written (writer_loop fs w_b') = incoming r_a ∧
    PeerRegistryImpl.get reg_a' b = Some (gc_b, mkPeerHandle tx_a) ∧
    PeerRegistryImpl.get reg_b' a = Some (gc_a, mkPeerHandle tx_b) ∧
    received world_a' c_a = received world_a c_a ++ with_payload fs ∧
    received world_b' c_b = received world_b c_b ++ with_payload es.
Proof.
  intros Hwa Hwb Hna Hnb Hoa Hob Hes Hfs Hrb Hra Hea Heb.
  destruct (run_connection_delivers true a a gc_a b b gc_b addr_b reg_a tx_a c_a fs r_a w_a world_a)
    as (wa' & worlda' & Hruna & Hreca & Hwra & Hupa); [done..|].
  destruct (run_connection_delivers false b b gc_b a a gc_a addr_a reg_b tx_b c_b es r_b w_b world_b)
    as (wb' & worldb' & Hrunb & Hrecb & Hwrb & Hupb); [done..|].
  eexists _, wa', worlda', _, wb', worldb'. split; [exact Hruna|].
  split; [unfold handle_inbound; cbn [in_reader in_writer in_tx in_remote_addr]; by rewrite Hrunb|].
  rewrite !writer_loop_writes, Hwra, Hwrb, Hna, Hnb, Hrb, Hra by done.
  split_and!; [done|done|apply lookup_insert_eq|apply lookup_insert_eq|done|done].
Qed.

(** The supervisor pauses once per attempt, between one and thirty
    seconds; the pause doubles with every refused attempt, from one second at the
    start and again after every connection, up to the cap. *)
Theorem reconnect_pauses fuel attempts addr id name gc (registry : PeerRegistry Tx) c (w : W)
    sleeps registry' w' :
  spawn_outbound (R := R) (Wr := Wr) debug_payload show_n fuel (Ok addr) attempts id name gc registry c w =
    Some (sleeps, registry', w') →
  length sleeps = length attempts ∧ Forall (λ s, 1 <= s <= RECONNECT_MAX) sleeps ∧
  ∀ pre n k, (k < n)%nat →
    (attempts = replicate n Refused ∧ pre = [] ∨
     ∃ a, is_connected a = true ∧ attempts = pre ++ a :: replicate (pred n) Refused) →
    sleeps !! (length pre + k)%nat = Some (N.min RECONNECT_MAX (2 ^ N.of_nat k)).
Proof.
  intros Hs. apply outbound_pauses in Hs as ->.
  assert (1 <= RECONNECT_BASE <= RECONNECT_MAX) as Hb by (by vm_compute).
  split; [|split; [by apply pauses_bounded|]].
  { generalize RECONNECT_BASE. induction attempts as [|a l IH]; intros b; simpl; [done|].
    by rewrite IH. }
  intros pre n k Hk [[-> ->]|(a & Ha & ->)].
  - simpl. rewrite pauses_refused by done. by rewrite N.mul_1_l.
  - rewrite <- lookup_drop.
    destruct (pauses_app RECONNECT_BASE pre (a :: replicate (pred n) Refused)) as [b ->].
    simpl. rewrite Ha. destruct k as [|k]; [done|]. simpl.
    change (next_backoff RECONNECT_BASE) with 2.
    rewrite pauses_refused by (unfold RECONNECT_MAX; lia). f_equal.
    rewrite Nat2N.inj_succ, N.pow_succ_r'. reflexivity.
Qed.
End theorems.

(** ** Witnesses *)
#[local] Instance envelope_codec : Message Envelope := countable_message Envelope.
#[local] Instance envelope_codec_ok : MessageOk Envelope envelope_ok.
Proof. apply countable_message_ok. Qed.

Definition demo_handshake : Envelope := handshake_envelope "B" "B" true.

Definition demo_request : Envelope :=
  mkEnvelope (Some (PCrdtPullRequest (mkCrdtPullRequest "default-orset" "B" None true))).

Definition quiet (_ : option Payload) : string := "".

Definition quiet_n (_ : N) : string := "".

Lemma demo_sendable : Forall sendable [demo_handshake; demo_request; mkEnvelope None].
Proof. repeat constructor; vm_compute; discriminate. Qed.

Lemma handshake_identifies_peers_witness :
  ∃ r' w', handshake quiet quiet_n (frame demo_handshake) [] "A" "A" false "addr" true =
    (Good ("B", true), r', w') ∧ id r' = [] ∧
    id w' = id [] ++ frame (handshake_envelope "A" "A" false).
Proof.
  refine (proj1 (handshake_identifies_peers (incoming := id) (ending := λ _, UnexpectedEof)
    (written := id) (is_up := λ _, true) quiet quiet_n "A" "A" false "B" "B" true true "addr" []
    (frame demo_handshake) [] (mkEnvelope None) _ _ _ _) _).
  - reflexivity.
  - exact (proj1 (proj1 (Forall_cons _ _ _) demo_sendable)).
  - apply (proj1 (Forall_forall _ _) demo_sendable). repeat constructor.
  - intros hs [=].
  - symmetry. apply app_nil_r.
Defined.

Lemma connection_delivers_in_order_witness :
  ∃ registry' w' (world' : list Envelope),
    run_connection quiet quiet_n 3 (writer_loop [demo_handshake; demo_request; mkEnvelope None] ([] : bytes))
      ([] : bytes) 7%nat "addr" "A" "A" false PeerRegistryImpl.new tt false [] =
      Some (Bad (ConnectionClosed "addr"), registry', w', world') ∧
    world' = [demo_request] ∧
    PeerRegistryImpl.get registry' "B" = Some (true, mkPeerHandle 7%nat).
Proof.
  destruct (connection_delivers_in_order (Tx := nat) (incoming := id) (ending := λ _, UnexpectedEof)
    (written := id) (is_up := λ _, true) (received := λ w _, w) (is_open := λ _ _, true) quiet quiet_n
    "A" "A" false "B" "B" true "addr" PeerRegistryImpl.new 7%nat tt
    [demo_request; mkEnvelope None] [] (writer_loop [demo_handshake; demo_request; mkEnvelope None] [])
    [] []) as (registry' & w' & world' & Hrun & Hrecv & _ & Hget & _);
    [reflexivity|reflexivity|reflexivity|reflexivity|exact demo_sendable|reflexivity|reflexivity|].
  exists registry', w', world'. split; [exact Hrun|]. split; [exact Hrecv|exact Hget].
Defined.

Lemma reconnect_pauses_witness :
  ∃ sleeps registry' w',
    spawn_outbound (R := bytes) (Wr := bytes) quiet quiet_n 1 (Ok "addr") (replicate 7 Refused) "A" "A"
      false (PeerRegistryImpl.new (Tx := nat)) tt ([] : list Envelope) = Some (sleeps, registry', w') ∧
    sleeps !! 5%nat = Some 30.
Proof.
  eexists _, _, _. split; [reflexivity|].
  refine (proj2 (proj2 (reconnect_pauses (R := bytes) (Wr := bytes) quiet quiet_n 1
    (replicate 7 Refused) "addr" "A" "A" false (PeerRegistryImpl.new (Tx := nat)) tt
    ([] : list Envelope) _ _ _ eq_refl)) [] 7%nat 5%nat _ _); [lia|].
  left. split; reflexivity.
Defined.

Lemma both_ends_meet_witness :
  ∃ reg_a' w_a' (world_a' : list Envelope) reg_b' w_b' (world_b' : list Envelope),
    run_connection quiet quiet_n 2 (concat (frame <$> [demo_handshake; mkEnvelope None])) ([] : bytes)
      7%nat "B:1" "A" "A" false PeerRegistryImpl.new tt true [] =
      Some (Bad (ConnectionClosed "B:1"), reg_a', w_a', world_a') ∧
    handle_inbound quiet quiet_n 2
      (mkInbound (concat (frame <$> [handshake_envelope "A" "A" false; demo_request])) ([] : bytes)
         8%nat "A:1") "B" "B" true PeerRegistryImpl.new tt [] = Some (reg_b', w_b', world_b') ∧
    PeerRegistryImpl.get reg_b' "A" = Some (false, mkPeerHandle 8%nat) ∧ world_b' = [demo_request].
Proof.
  destruct (both_ends_meet (Tx := nat) (incoming := id) (ending := λ _, UnexpectedEof)
    (written := id) (is_up := λ _, true) (received := λ w _, w) (is_open := λ _ _, true) quiet quiet_n
    "A" "B" false true "A:1" "B:1" PeerRegistryImpl.new PeerRegistryImpl.new 7%nat 8%nat tt tt
    [demo_request] [mkEnvelope None]
    (concat (frame <$> [demo_handshake; mkEnvelope None])) [] []
    (concat (frame <$> [handshake_envelope "A" "A" false; demo_request])) [] [])
    as (ra & wa & wda & rb & wb & wdb & Ha & Hb & _ & _ & _ & Hget & _ & Hrecv);
    [try reflexivity; repeat constructor; vm_compute; discriminate..|].
  exists ra, wa, wda, rb, wb, wdb. split; [exact Ha|]. split; [exact Hb|]. split; [exact Hget|exact Hrecv].
Defined.
