(* ===== verification/EngineSpec.v ===== *)
(** * What the engine's requests do to the replica

    The invariant of the engine, and the proof that on the OR-Set its handlers
    are the replica operations that [Replication] reasons about: a client
    operation is [engine_apply_local], a delta is [engine_merge_delta], a
    collection only drops tombstones, everything else leaves the replica alone.
    The last theorem follows one pull through every layer of both nodes. *)
From Stdlib Require Import Strings.Byte Strings.String.
From stdpp Require Import base gmap sets list strings fin_maps.
From S2P Require Import Prelude Clocks Proto Crdt OrSet Replication Registry Dissemination.
From S2P Require Import GcStorage Coordinator GcProtocol Engine PeerMessages.
Import CrdtEngineImpl.
Local Open Scope N_scope.
Local Open Scope rust_scope.

(** ** Every result of a program *)
Fixpoint post {A} (P : A → Prop) (p : Prog A) : Prop :=
  match p with
  | Ret a => P a
  | Call c k => ∀ r, post P (k r)
  | OutOfFuel => True
  end.

Lemma post_run {A W} (exec : Exec W) (P : A → Prop) (p : Prog A) w a w' :
  post P p → run_prog exec p w = Some (a, w') → P a.
Proof.
  revert w. induction p as [b|c k IH|]; intros w; simpl; [congruence| |done].
  intros Hk. destruct (exec c w). by apply IH.
Qed.

Lemma post_gc_bind {C A B} (m : GcM C A) (f : A → GcM C B) l (P : result B * Local C → Prop) :
  post (λ x, match x.1 with Ok a => post P (f a x.2) | Err e => P (Err e, x.2) end) (m l) →
  post P (gc_bind m f l).
Proof.
  unfold gc_bind. induction (m l) as [[[a|e] l']|c k IH|]; simpl in *; auto.
Qed.

Section collections.
Context {C Op Delta : Type} `{DeltaCrdt C Op Delta}.
Implicit Types l : Local C.

(** What collecting does to a coordinator: a new epoch, a departed node. *)
Definition gc_closed (P : GcCoordinator → Prop) : Prop :=
  (∀ n g, P g → P (GcCoordinatorImpl.set_epoch g n)) ∧
  (∀ p g, P g → P (GcCoordinatorImpl.remove_matrix_clock_column p
                     (GcCoordinatorImpl.remove_matrix_clock_row p g))).

Lemma coordinator_ok_closed : gc_closed coordinator_ok.
Proof. split; [done|]. intros. by apply with_matrix_ok, with_matrix_ok. Qed.

(** A collection step: tombstones are dropped under some frontier, entries of
    departed nodes leave the vector and the matrix clock. *)
Definition collects l l' : Prop :=
  (l_crdt l' = l_crdt l ∨ ∃ frontier, l_crdt l' = perform_gc (l_crdt l) frontier) ∧
  (∃ ps, l_dvv l' = {| dot := dot (l_dvv l); context := without ps (context (l_dvv l)) |}) ∧
  (∀ P, gc_closed P → P (l_gc l) → P (l_gc l')).

Lemma collects_refl l : collects l l.
Proof. split_and!; [by left| |done]. exists []. by destruct (l_dvv l). Qed.

Lemma forget_loop_closed P ps l v :
  gc_closed P → P (l_gc l) → P (l_gc (foldl GcCoordinatorImpl.forget (l, v) ps).1).
Proof.
  intros [Hn Hp]. revert l v. induction ps as [|p ps IH]; intros l v Hl; simpl; [done|].
  by apply IH, Hp.
Qed.

Lemma drop_loop_closed P ps l :
  gc_closed P → P (l_gc l) → P (l_gc (foldl GcCoordinatorImpl.drop_departed l ps)).
Proof.
  intros [Hn Hp]. revert l. induction ps as [|p ps IH]; intros l Hl; simpl; [done|]. apply IH. simpl.
  destruct (gc_replica _); [by apply Hp|done].
Qed.

Ltac post_call := cbn; intros [?|?]; [cbn|by apply collects_refl].

Lemma observe_collects id l :
  post (λ x, collects l x.2) (GcCoordinatorImpl.observe_epoch_change id l).
Proof.
  post_call. destruct (_ <=? _); [apply collects_refl|]. cbn.
  match goal with |- collects l (foldl _ ?l0 ?ps) =>
    pose proof (drop_loop ps l0) as (Hcrdt & Hdvv & _) end.
  split_and!; [right; rewrite Hcrdt; by eexists|by eexists|].
  intros P HP Hl. apply drop_loop_closed; [done|]. by apply HP.
Qed.

Lemma initiate_collects id l :
  post (λ x, collects l x.2) (GcCoordinatorImpl.initiate_gc id l).
Proof.
  post_call. post_call. intros [[]|?]; [cbn|by apply collects_refl..].
  post_call. destruct (new_member_exists _ _); [by cbn; intros; apply collects_refl|].
  post_call. destruct (GcCoordinatorImpl.compute_stable_timestamp _ _ _ _ _) as [v obsolete].
  destruct (vv_leq _ _); [by cbn; intros; apply collects_refl|].
  unfold GcCoordinatorImpl.collect. cbn.
  pose proof (forget_loop (elements obsolete) l v) as Hf.
  pose proof (λ P, forget_loop_closed P (elements obsolete) l v) as Hok.
  destruct (foldl _ _ _) as [l1 v1]. destruct Hf as (Hcrdt & -> & Hdvv & _). cbn in *.
  assert (∀ g, (∀ P, gc_closed P → P (l_gc l) → P g) →
    collects l (mkLocal g (perform_gc (l_crdt l1)
      (frontier_dvv id (without (elements obsolete) v))) (l_dvv l1))) as Hc.
  { intros g Hg. split_and!; cbn; [rewrite Hcrdt; eauto|by eexists|done]. }
  intros [?|?]; cbn; [|by apply Hc]. intros [?|?]; cbn; [|by apply Hc].
  intros. apply Hc. intros P HP Hl. apply HP. by apply Hok.
Qed.
End collections.

(** ** The effect of a request *)
Section effects.
Context {C Op Delta D Tx W Tok : Type} `{DeltaCrdt C Op Delta}
  `{DisseminationStrategy D Tx W}.
Context (registry_of : W → PeerRegistry Tx) (exec : Exec W) (debug_matrix : MatrixClock → string).
Implicit Types self : CrdtEngine C D.

Definition request_effect self (request : CrdtEngineRequest Op Tok) self' : Prop :=
  match request with
  | ClientOperation op =>
      let v := Dvv.event (dvv self) in
      dvv self' = v ∧ gc self' = gc self ∧
      crdt self' = apply_local (crdt self) (mkDot (d_node_id (dot v)) (d_counter (dot v))) op
  | DeltaResp _ cid payload _ =>
      match decode_delta payload with
      | Ok delta =>
          if decide (cid = crdt_id self)
          then dvv self' = Dvv.merge (dvv self) (dvv_of_context (causal_context delta)) ∧
               crdt self' = merge_delta (crdt self) delta
          else self' = self
      | Err _ => self' = self
      end
  | DeltaRequest _ cid _ =>
      crdt self' = crdt self ∧ dvv self' = dvv self ∧ (cid ≠ crdt_id self → self' = self)
  | InitiateGc | ObserveEpochChange => collects (local self) (local self')
  | _ => crdt self' = crdt self ∧ dvv self' = dvv self ∧ gc self' = gc self
  end.

(** The rows that a request adds to the matrix clock. *)
Definition brings_rows (request : CrdtEngineRequest Op Tok) (m : MatrixClock) : Prop :=
  match request with
  | DeltaRequest from _ K => m = <[from := K]> ∅
  | DeltaResp _ _ _ km => km = Some m
  | _ => False
  end.

Lemma server_delta_effect P self cid b km w self' w' :
  server_delta registry_of exec self cid b km w = Some (self', w') →
  match decode_delta b with
  | Ok delta =>
      if decide (cid = crdt_id self)
      then dvv self' = Dvv.merge (dvv self) (dvv_of_context (causal_context delta)) ∧
           crdt self' = merge_delta (crdt self) delta
      else self' = self
  | Err _ => self' = self
  end ∧
  ((∀ m g, km = Some m → P g → P (GcCoordinatorImpl.update_matrix_clock m g)) →
   P (gc self) → P (gc self')).
Proof.
  unfold server_delta. case_decide as Hc.
  { intros [= <- <-]. destruct (decode_delta b); [by rewrite decide_False|done]. }
  destruct (decode_delta b) as [delta|]; [|by intros [= <- <-]].
  rewrite decide_True by (by destruct (decide (cid = crdt_id self))).
  destruct km as [m|]; simpl.
  1: destruct (log_metrics_returns exec
       (set_gc self (GcCoordinatorImpl.update_matrix_clock m (gc self))) w) as [w1 ->]; simpl.
  all: unfold dvv_of_context; destruct (causal_context delta) as [[]];
    destruct (on_post_merge _ _ _ _ _ _ _); intros [= <- <-]; simpl; split; auto.
Qed.

Lemma server_pull_effect P self from cid K w self' w' :
  server_pull_request registry_of exec self from cid K w = Some (self', w') →
  crdt self' = crdt self ∧ dvv self' = dvv self ∧ (cid ≠ crdt_id self → self' = self) ∧
  ((∀ g, P g → P (GcCoordinatorImpl.update_matrix_clock (<[from := K]> ∅) g)) →
   P (gc self) → P (gc self')).
Proof.
  unfold server_pull_request. case_decide as Hc; [by intros [= <- <-]|].
  destruct (log_metrics_returns exec (set_gc self (GcCoordinatorImpl.update_matrix_clock
    (<[from := K]> ∅) (gc self))) w) as [w1 ->]; simpl.
  destruct (respond_to_pull_request _ _ _ _ _ _ _ _ _ _). intros [= <- <-]; simpl.
  split_and!; [done..|naive_solver|auto].
Qed.

Lemma run_gc_collects {A} (m : GcM C A) self w r self' w' :
  post (λ x, collects (local self) x.2) (m (local self)) →
  run_gc exec m self w = Some (r, self', w') → collects (local self) (local self').
Proof.
  intros Hm. unfold run_gc.
  destruct (run_prog exec (m (local self)) w) as [[[r1 l] w1]|] eqn:Hrun; [|done].
  intros [= <- <- <-]. apply (post_run _ _ _ _ _ _ Hm) in Hrun. by destruct l.
Qed.

Lemma handle_effect_closed P self request w self' replies w' :
  handle registry_of exec debug_matrix self request w = Some (self', replies, w') →
  request_effect self request self' ∧
  (gc_closed P →
   (∀ m g, brings_rows request m → P g → P (GcCoordinatorImpl.update_matrix_clock m g)) →
   P (gc self) → P (gc self')).
Proof.
  destruct request; simpl; try by intros [= <- _ _].
  - unfold do_pull_round_request. destruct (do_pull_round _ _ _ _ _ _ _).
    by intros [= <- _ _].
  - unfold client_operation. destruct (push_version_vector _ _ _ _ _ _ _).
    by intros [= <- _ _].
  - destruct (server_pull_request _ _ _ _ _ _ _) as [[s1 w1]|] eqn:Hp; [|done].
    intros [= <- _ _]. apply (server_pull_effect P) in Hp as (? & ? & ? & Hg). split; [done|].
    intros _ Hm. apply Hg. intros g. by apply Hm.
  - destruct (server_delta _ _ _ _ _ _ _) as [[s1 w1]|] eqn:Hp; [|done].
    intros [= <- _ _]. apply (server_delta_effect P) in Hp as [? Hg]. split; [done|].
    intros _ Hm. by apply Hg.
  - unfold initiate_gc. destruct (run_gc _ _ _ _) as [[[r s1] w1]|] eqn:Hp; [|done].
    intros [= <- _ _]. apply run_gc_collects in Hp; [|apply initiate_collects].
    split; [done|]. intros HP _. by apply Hp.
  - unfold observe_epoch_change. destruct (run_gc _ _ _ _) as [[[r s1] w1]|] eqn:Hp; [|done].
    intros [= <- _ _]. apply run_gc_collects in Hp; [|apply observe_collects].
    split; [done|]. intros HP _. by apply Hp.
Qed.

Lemma handle_effect self request w self' replies w' :
  handle registry_of exec debug_matrix self request w = Some (self', replies, w') →
  request_effect self request self' ∧ (coordinator_ok (gc self) → coordinator_ok (gc self')).
Proof.
  intros Hh. apply (handle_effect_closed coordinator_ok) in Hh as [Heff Hok]. split; [done|].
  apply Hok; [apply coordinator_ok_closed|]. intros m g _. apply with_matrix_ok.
Qed.
End effects.

(** A request always has its effect. *)
Section returns.
Context {C Op Delta D Tx W Tok : Type} `{DeltaCrdt C Op Delta}
  `{DisseminationStrategy D Tx W}.
Context (registry_of : W → PeerRegistry Tx) (exec : Exec W) (debug_matrix : MatrixClock → string).
Implicit Types self : CrdtEngine C D.

Lemma handle_returns self (request : CrdtEngineRequest Op Tok) w :
  waiting request = [] →
  ∃ self' w', handle registry_of exec debug_matrix self request w = Some (self', [], w') ∧
    crdt_id self' = crdt_id self ∧ request_effect self request self'.
Proof.
  intros Hw.
  destruct (handle_identity registry_of exec debug_matrix self request w)
    as (self' & replies & w' & Hh & _ & Hid & Hr).
  rewrite Hw in Hr. apply fmap_nil_inv in Hr as ->.
  exists self', w'. split_and!; [done..|]. by apply handle_effect in Hh as [? _].
Qed.
End returns.

(** ** The OR-Set engine *)
Record engine_ok {C D} (self : CrdtEngine C D) : Prop := {
  eo_node : d_node_id (dot (dvv self)) = node_id self;
  eo_outside : dot_outside (dvv self);
  eo_gc : coordinator_ok (gc self)
}.

Definition replica_of {E D} `{Countable E} (self : CrdtEngine (OrSet E) D) : Replica E :=
  mkReplica (crdt self) (dvv self).

Lemma without_dot_outside x ps :
  dot_outside x → dot_outside {| dot := dot x; context := without ps (context x) |}.
Proof.
  unfold dot_outside, get_or0; simpl. rewrite lookup_without. case_decide; simpl; lia.
Qed.

(** The requests that carry what a peer answered. *)
Definition carries_delta (answer : option Envelope) : bool :=
  match answer with
  | Some {| env_payload := Some (PCrdtOp _) |} => true
  | _ => false
  end.

Section theorems.
Context {C Op Delta D Tx W Tok : Type} `{DeltaCrdt C Op Delta}
  `{DisseminationStrategy D Tx W}.
Context (registry_of : W → PeerRegistry Tx) (exec : Exec W) (debug_matrix : MatrixClock → string).

(** C24. A new engine mints dots under its own node id, keeps its dot
    outside its context and has a matrix clock exactly when it is a GC replica;
    every request keeps this, whatever a message or the storage contains, while
    the counter of the node does not wrap. *)
Theorem engine_keeps_its_invariant (self : CrdtEngine C D) (request : CrdtEngineRequest Op Tok)
    w self' replies w' n cid (c : C) (d : D) cfg :
  engine_ok (CrdtEngineImpl.new n cid c d cfg) ∧
  (engine_ok self →
   (∀ op, request = ClientOperation op → d_counter (dot (dvv self)) < u64_max) →
   handle registry_of exec debug_matrix self request w = Some (self', replies, w') →
   engine_ok self').
Proof.
  split.
  - split; simpl; [done|apply new_dot_outside|apply new_coordinator_ok].
  - intros [Hn Hout Hgc] Hmax Hh.
    destruct (handle_identity registry_of exec debug_matrix self request w)
      as (s' & r' & w1 & Hh' & Hid & _). rewrite Hh in Hh'. simplify_eq.
    apply handle_effect in Hh as [Heff Hok]. specialize (Hok Hgc).
    enough (d_node_id (dot (dvv s')) = d_node_id (dot (dvv self)) ∧ dot_outside (dvv s')) as [? ?]
      by (split; congruence).
    destruct request; simpl in Heff; try (destruct Heff as (_ & -> & _); done).
    + destruct Heff as (-> & _). split; [done|]. apply event_dot_outside; [done|]. by eapply Hmax.
    + destruct (decode_delta payload) as [delta|]; [|by subst].
      case_decide; [|by subst]. destruct Heff as [-> _].
      split; [apply merge_node|by apply merge_dot_outside].
    + destruct Heff as (_ & (ps & Hdvv) & _). simpl in Hdvv. rewrite Hdvv.
      split; [done|]. by apply without_dot_outside.
    + destruct Heff as (_ & (ps & Hdvv) & _). simpl in Hdvv. rewrite Hdvv.
      split; [done|]. by apply without_dot_outside.
Qed.
End theorems.

Section orset.
Context {E D Tx W Tok : Type} `{Countable E} `{ElementCodec E} `{ElementFormat E}
  `{!Message ProtoOrSetDelta, !Message ProtoOrSetOp} `{!DisseminationStrategy D Tx W}.
Context (registry_of : W → PeerRegistry Tx) (exec : Exec W) (debug_matrix : MatrixClock → string).
Implicit Types self : CrdtEngine (OrSet E) D.

(** C10. The engine over the OR-Set makes the state changes the
    convergence theorems are about: a client operation is one local event, a
    delta for this CRDT that decodes is one merge and any other delta does
    nothing, a collection keeps every pair and the own dot, and the remaining
    requests leave set and vector alone. *)
Theorem engine_implements_replication self (request : CrdtEngineRequest (OrSetOp E) Tok) w
    self' replies w' :
  handle registry_of exec debug_matrix self request w = Some (self', replies, w') →
  match request with
  | ClientOperation op => replica_of self' = engine_apply_local (replica_of self) op
  | DeltaResp _ cid payload _ =>
      replica_of self' =
        match OrSetImpl.decode_delta payload with
        | Ok delta => if decide (cid = crdt_id self)
                      then engine_merge_delta (replica_of self) delta else replica_of self
        | Err _ => replica_of self
        end
  | InitiateGc | ObserveEpochChange =>
      (r_set (replica_of self') = r_set (replica_of self) ∨
       ∃ frontier, r_set (replica_of self') = r_set (engine_gc (replica_of self) frontier)) ∧
      (∀ e d, in_adds (crdt self') e d ↔ in_adds (crdt self) e d) ∧
      dot (dvv self') = dot (dvv self) ∧ knowledge (replica_of self') ⊑c knowledge (replica_of self)
  | _ => replica_of self' = replica_of self
  end.
Proof.
  intros Hh. apply handle_effect in Hh as [Heff _]. unfold replica_of.
  assert (collects (local self) (local self') →
    ((crdt self' = crdt self ∨ ∃ frontier, crdt self' = OrSetImpl.perform_gc (crdt self) frontier) ∧
     (∀ e d, in_adds (crdt self') e d ↔ in_adds (crdt self) e d) ∧
     dot (dvv self') = dot (dvv self) ∧
     Dvv.effective_map (dvv self') ⊑c Dvv.effective_map (dvv self))) as Hgc.
  { intros (Hset & (ps & Hdvv) & _). simpl in *. split_and!.
    - done.
    - by destruct Hset as [-> | [f ->]].
    - by rewrite Hdvv.
    - rewrite Hdvv. intros k. rewrite !get_or0_effective_map. unfold Dvv.effective_counter; simpl.
      assert (get_or0 (without ps (context (dvv self))) k <= get_or0 (context (dvv self)) k).
      { unfold get_or0. rewrite lookup_without. case_decide; simpl; lia. }
      case_decide; lia. }
  destruct request; simpl in Heff; try (destruct Heff as (-> & -> & _); done).
  - destruct Heff as (-> & _ & ->). done.
  - destruct (OrSetImpl.decode_delta payload) as [delta|] eqn:Hd; [|by subst].
    case_decide; [|by subst]. by destruct Heff as [-> ->].
  - by apply Hgc.
  - by apply Hgc.
Qed.

Context `{!Channel Tx Envelope W} `{!Rng W} `{!DisseminationOk D Tx W} `{!ElementCodecOk E}
  `{!MessageOk ProtoOrSetDelta proto_or_set_delta_ok}.

(** C9. One pull through every layer.  The request that advertises [A]'s
    knowledge is routed to [B]'s engine, which stays as it was and answers [A]
    only; whatever the answer is, routing it to [A]'s engine makes [A] exactly
    the replica [pull] computes, and an answer without a delta is sent only when
    [A] already knows everything [B] knows. *)
Theorem wire_pull_is_pull A B w :
  crdt_id A = crdt_id B → dot_outside (dvv B) →
  let K := knowledge (replica_of A) in
  orset_delta_ok (engine_delta_since (replica_of B) K) →
  ∃ B' w' w1 answer,
    handle_all registry_of exec debug_matrix B
      (routed (Tok := Tok)
         (make_pull_request_envelope (crdt_id A) (node_id A) (gc_flag A) K)) w =
      Some (B', [], w') ∧
    replica_of B' = replica_of B ∧
    w' = send_response (registry_of w1) (node_id A) answer w1 ∧
    ∀ wA, ∃ A' wA',
      handle_all registry_of exec debug_matrix A
        (match answer with Some e => routed (Tok := Tok) e | None => [] end) wA =
        Some (A', [], wA') ∧
      if carries_delta answer
      then replica_of A' = pull (replica_of A) (replica_of B)
      else replica_of A' = replica_of A ∧ knowledge (replica_of B) ⊑c K.
Proof.
  intros Hcid Hout K Hdelta.
  destruct (server_pull_request_spec registry_of exec B (node_id A) K w Hout)
    as (B' & w1 & w' & answer & Hpull & Hcrdt & Hdvv & _ & _ & Hans & Hsend).
  exists B', w', w1, answer. rewrite Hcid. split_and!; [|by unfold replica_of; congruence|done|].
  { simpl. by rewrite Hpull. }
  intros wA. unfold answers, delta_for in Hans.
  match type of Hans with context [if ?b then _ else None] => destruct b eqn:Hb end.
  - destruct Hans as (rk & _ & ->). rewrite routed_op. simpl carries_delta. cbv iota.
    match goal with |- context [handle_all _ _ _ A (?req :: _) wA] =>
      destruct (handle_returns registry_of exec debug_matrix A req wA)
        as (A1 & wA1 & Hh1 & Hid1 & Heff1); [done|] end.
    cbn -[OrSetImpl.decode_delta] in Heff1. rewrite decode_encode_orset_delta, decide_True in Heff1 by done.
    assert (replica_of A1 = pull (replica_of A) (replica_of B)) as HA1.
    { destruct Heff1 as [Hd1 Hc1]. unfold replica_of at 1. by rewrite Hd1, Hc1. }
    cbn [handle_all]. rewrite Hh1. cbn [mbind option_bind].
    destruct rk as [K'|]; [case_decide|]; [by eexists _, _| |by eexists _, _].
    destruct (handle_returns (Tok := Tok) registry_of exec debug_matrix A1
      (DeltaRequest (node_id B) (crdt_id B) K') wA1) as (A2 & wA2 & Hh2 & Hid2 & Heff2); [done|].
    exists A2, wA2. cbn [handle_all]. rewrite Hh2. cbn [mbind option_bind]. split; [done|].
    rewrite <- HA1. unfold replica_of. by destruct Heff2 as (-> & -> & _).
  - apply orb_false_iff in Hb as [_ Hb]. apply negb_false_iff, vv_leq_spec in Hb.
    destruct Hans as [-> | (K' & _ & ->)]; [by eexists _, _|].
    destruct (handle_returns (Tok := Tok) registry_of exec debug_matrix A
      (DeltaRequest (node_id B) (crdt_id B) K') wA) as (A2 & wA2 & Hh2 & Hid2 & Heff2); [done|].
    exists A2, wA2. rewrite routed_pull. cbn [handle_all]. rewrite Hh2. cbn [mbind option_bind]. split; [done|]. split; [|done].
    unfold replica_of. by destruct Heff2 as (-> & -> & _).
Qed.

(** What a leaving node publishes: its own counter, which is
    what its vector holds for itself, and a payload that decodes to its whole
    state; a replica that merges it contains every pair that the leaving node
    contained unless it saw the pair removed. *)
Theorem deregistration_state_is_final self :
  dot_outside (dvv self) → orset_wf (crdt self) →
  orset_delta_ok (engine_full_state (replica_of self)) →
  let '(final_dot, payload) := get_final_state_for_deregistration self in
  final_dot = get_or0 (knowledge (replica_of self)) (d_node_id (dot (dvv self))) ∧
  ∃ delta, OrSetImpl.decode_delta payload = Ok delta ∧
    ∀ r e d, in_adds (crdt self) e d → ¬ tombed (r_set r) d →
      in_adds (r_set (engine_merge_delta r delta)) e d.
Proof.
  intros Hout Hwf Hok. cbn. split.
  { unfold knowledge. rewrite get_or0_effective_map. symmetry.
    by apply effective_counter_own_outside. }
  eexists. split; [by apply decode_encode_orset_delta|].
  intros r e d Hin Hnt. apply in_adds_merge. right. split.
  - by apply full_state_adds.
  - intros Ht. apply tombed_merge in Ht as [Ht|Ht]; [|done].
    apply fst_tombstones_tombed in Ht. by eapply wf_live.
Qed.

(** The engine goes on after it has given its final state, until its
    task is aborted: an operation that it takes meanwhile has a dot beyond the
    final counter that the collectors read, which says that there is none. *)
Theorem late_operation_outruns_final_dot self (reply : Tok) e w self' replies w' :
  d_counter (dot (dvv self)) < u64_max →
  handle_all registry_of exec debug_matrix self [DeregistrationState reply; ClientOperation (Add e)] w =
    Some (self', replies, w') →
  ∃ final_dot payload, replies = [StateReply reply final_dot payload] ∧
    in_adds (crdt self') e (mkDot (d_node_id (dot (dvv self))) (final_dot + 1)).
Proof.
  intros Hlt. cbn [handle_all]. cbn -[handle_all client_operation OrSetImpl.encode_delta].
  destruct (client_operation registry_of self (Add e) w) as [s1 w1] eqn:Hop. cbn -[OrSetImpl.encode_delta].
  intros [= <- <- <-]. eexists _, _. split; [reflexivity|].
  assert (handle registry_of exec debug_matrix self (ClientOperation (Add e) : CrdtEngineRequest _ Tok) w =
    Some (s1, [], w1)) as [(_ & _ & Hc) _]%handle_effect by (simpl; by rewrite Hop).
  rewrite Hc. apply in_adds_apply_add. left. split; [done|]. cbn. rewrite u64_add_small; [done|].
  unfold u64_max, u64_modulus in *. lia.
Qed.
End orset.

(** ** Two concrete nodes *)
#[local] Instance delta_codec : Message ProtoOrSetDelta := countable_message ProtoOrSetDelta.
#[local] Instance op_codec : Message ProtoOrSetOp := countable_message ProtoOrSetOp.
#[local] Instance delta_codec_ok : MessageOk ProtoOrSetDelta proto_or_set_delta_ok.
Proof. apply countable_message_ok. Qed.

#[local] Instance text_format : ElementFormat RustString := {|
  display := λ e, `e;
  debug := λ e, `e;
  debug_add_entry := λ p, `p.1;
  debug_tombstone_entry := λ p, d_node_id p.1
|}.

Definition demo_registry (_ : Queues) : PeerRegistry nat := two_peers.

(** A storage in which nothing was ever written. *)
Definition demo_exec : Exec Queues := λ c w,
  ((store_exec c (mkStore None None ∅ ∅ ["B"; "A"])).1, w).

Abbreviation DemoRequest := (CrdtEngineRequest (OrSetOp RustString) nat) (only parsing).

Definition demo_debug (_ : MatrixClock) : string := "".

Definition demo_engine (n : NodeId) : CrdtEngine (OrSet RustString) PushPull :=
  CrdtEngineImpl.new n "default-orset" OrSetImpl.new (push_pull_new 1) demo_config.

(** ["B"] has added one element. *)
Definition demo_writer_engine : CrdtEngine (OrSet RustString) PushPull :=
  (client_operation demo_registry (demo_engine "B") (Add hello) two_queues).1.

Lemma demo_writer_outside : dot_outside (dvv demo_writer_engine).
Proof. left. vm_compute. reflexivity. Qed.

Lemma demo_writer_delta_ok f :
  f = OrSetImpl.delta_since (crdt demo_writer_engine) ∅ ∨
  f = OrSetImpl.full_state (crdt demo_writer_engine) →
  orset_delta_ok (f (dvv demo_writer_engine)).
Proof.
  intros Hf. assert (f (dvv demo_writer_engine) =
    mkOrSetDelta [(hello, mkDot "B" 1)] [] {["B" := 1]} "B" 1) as ->.
  { destruct Hf as [-> | ->]; vm_compute; reflexivity. }
  split_and!; [by repeat constructor|constructor| |done|done].
  apply map_Forall_singleton. by split.
Qed.

Lemma engine_keeps_its_invariant_witness :
  engine_ok demo_writer_engine.
Proof.
  refine (proj2 (engine_keeps_its_invariant (Tok := nat) demo_registry demo_exec demo_debug
    (demo_engine "B") (ClientOperation (Add hello)) two_queues demo_writer_engine [] _
    "B" "default-orset" OrSetImpl.new (push_pull_new 1) demo_config) _ _ _).
  - split; [reflexivity|apply new_dot_outside|apply new_coordinator_ok].
  - intros op _. reflexivity.
  - reflexivity.
Defined.

Lemma engine_implements_replication_witness :
  replica_of demo_writer_engine = engine_apply_local (engine_new "B") (Add hello).
Proof.
  refine (engine_implements_replication (Tok := nat) demo_registry demo_exec demo_debug
    (demo_engine "B") (ClientOperation (Add hello)) two_queues demo_writer_engine [] _ _).
  reflexivity.
Defined.

Lemma deregistration_state_is_final_witness :
  (get_final_state_for_deregistration demo_writer_engine).1 = 1.
Proof.
  refine (eq_trans (proj1 (deregistration_state_is_final demo_writer_engine _ _ _)) _).
  - apply demo_writer_outside.
  - split.
    + intros e He. change (adds (crdt demo_writer_engine)) with
        ({[hello := {[mkDot "B" 1]} ∪ ∅]} : gmap RustString (gset Dot)) in He.
      destruct (decide (hello = e)) as [<-|Hne].
      * rewrite lookup_singleton_eq in He. injection He as He. set_solver.
      * by rewrite lookup_singleton_ne in He.
    + intros e d _ [r Hr]. done.
    + intros e e' d. unfold in_adds. change (adds (crdt demo_writer_engine)) with
        ({[hello := {[mkDot "B" 1]} ∪ ∅]} : gmap RustString (gset Dot)).
      rewrite !lookup_singleton. repeat case_decide; simpl; set_solver.
  - apply demo_writer_delta_ok. by right.
  - vm_compute. reflexivity.
Defined.

Lemma pull_request_answer_witness :
  ∃ self' w',
    server_pull_request demo_registry demo_exec demo_writer_engine "A" "default-orset" ∅ two_queues =
      Some (self', w') ∧
    dvv self' = dvv demo_writer_engine ∧ is_Some (delta_for demo_writer_engine true ∅).
Proof.
  destruct (pull_request_answer demo_registry demo_exec demo_writer_engine "A" ∅ two_queues
    demo_writer_outside) as (self' & w1 & w' & e & Hp & _ & Hd & _).
  exists self', w'. split; [exact Hp|]. split; [exact Hd|]. eexists. reflexivity.
Defined.

Lemma wire_pull_is_pull_witness :
  ∃ B' w' w1 answer,
    handle_all (Tok := nat) demo_registry demo_exec demo_debug demo_writer_engine
      (routed (make_pull_request_envelope "default-orset" "A" true ∅)) two_queues =
      Some (B', [], w') ∧
    w' = send_response (demo_registry w1) "A" answer w1 ∧
    (carries_delta answer = false → knowledge (replica_of demo_writer_engine) ⊑c ∅).
Proof.
  destruct (wire_pull_is_pull (Tok := nat) demo_registry demo_exec demo_debug (demo_engine "A")
    demo_writer_engine two_queues eq_refl demo_writer_outside)
    as (B' & w' & w1 & answer & HB & _ & Hw & HA).
  - apply demo_writer_delta_ok. left. reflexivity.
  - exists B', w', w1, answer. split; [exact HB|]. split; [exact Hw|].
    intros Hc. destruct (HA two_queues) as (A' & wA' & _ & Hres). rewrite Hc in Hres. apply Hres.
Defined.
