(* ===== verification/GcEffects.v ===== *)
(** * What the collection protocol does to a node

    The effects of the three methods of the coordinator, with the answers of the
    storage that they depend on: what [initiate_gc] drops and writes is computed
    from the members and final counters it was told, what [observe_epoch_change]
    drops is in the metadata it read, what a newcomer installs is the state it
    read. *)
From Stdlib Require Import Strings.Byte Strings.String.
From stdpp Require Import base gmap sets list strings fin_maps.
From S2P Require Import Prelude Clocks Proto Crdt Registry Dissemination.
From S2P Require Import GcStorage Coordinator GcProtocol Engine.
Local Open Scope N_scope.
Local Open Scope rust_scope.

(** ** The calls of a run *)
Fixpoint calls_of {A W} (exec : Exec W) (p : Prog A) (w : W) : list Event :=
  match p with
  | Ret _ | OutOfFuel => []
  | Call c k => let '(r, w') := exec c w in mkEvent c r :: calls_of exec (k r) w'
  end.

Lemma calls_of_trace {A W} (exec : Exec W) (p : Prog A) w a w' :
  run_prog exec p w = Some (a, w') → trace_of p (calls_of exec p w) a.
Proof.
  revert w. induction p as [b|c k IH|]; intros w; simpl; [intros [= -> ->]; done| |done].
  destruct (exec c w) as [r w1]. intros Hrun. exists r. split; [done|by apply IH].
Qed.

Lemma calls_of_answer {A W} (exec : Exec W) (p : Prog A) w ev :
  ev ∈ calls_of exec p w → ∃ w0, ev_resp ev = (exec (ev_call ev) w0).1.
Proof.
  revert w. induction p as [b|c k IH|]; intros w; simpl; [by intros ?%elem_of_nil| |by intros ?%elem_of_nil].
  destruct (exec c w) as [r w1] eqn:Hc. intros [->|Hin]%elem_of_cons; [|by eapply IH].
  exists w. simpl. by rewrite Hc.
Qed.

(** What a call returned, and what the calls wrote. *)
Abbreviation answered tr c a := (mkEvent c (Ok a) ∈ tr).

Definition written_states (tr : list Event) : list EpochState :=
  omap (λ ev, match ev_call ev with WriteEpochState s => Some s | _ => None end) tr.

Definition written_metadata (tr : list Event) : list EpochMetadata :=
  omap (λ ev, match ev_call ev with WriteEpochMetadata m => Some m | _ => None end) tr.

Lemma trace_bind {A B} (f : A → Prog B) (p : Prog A) tr b :
  trace_of (prog_bind f p) tr b →
  ∃ tr1 tr2 a, tr = tr1 ++ tr2 ∧ trace_of p tr1 a ∧ trace_of (f a) tr2 b.
Proof.
  revert tr. induction p as [a|c k IH|]; intros tr; simpl.
  - intros Htr. by exists [], tr, a.
  - destruct tr as [|ev tr]; [done|]. intros (r & -> & Htr).
    destruct (IH r tr Htr) as (tr1 & tr2 & a & -> & H1 & H2).
    exists (mkEvent c r :: tr1), tr2, a. split; [done|]. split; [|done]. by exists r.
  - done.
Qed.

Lemma trace_gc_bind {C A B} (m : GcM C A) (f : A → GcM C B) l tr b l' :
  trace_of (gc_bind m f l) tr (Ok b, l') →
  ∃ tr1 tr2 a l1, tr = tr1 ++ tr2 ∧ trace_of (m l) tr1 (Ok a, l1) ∧ trace_of (f a l1) tr2 (Ok b, l').
Proof.
  intros (tr1 & tr2 & [[a|e] l1] & -> & H1 & H2)%trace_bind; simpl in H2.
  - by exists tr1, tr2, a, l1.
  - by destruct H2 as [_ [=]].
Qed.

(** ** The effects *)
Section effects.
Context {C Op Delta : Type} `{DeltaCrdt C Op Delta}.
Implicit Types l : Local C.

Definition same_replica l l' : Prop := l_crdt l' = l_crdt l ∧ l_dvv l' = l_dvv l.

(** The replica drops the tombstones under [f] and the entries of the nodes. *)
Definition drops (id : NodeId) (f : CausalContext) (obsolete : gset NodeId) l l' : Prop :=
  l_crdt l' = perform_gc (l_crdt l) (frontier_dvv id f) ∧
  l_dvv l' = {| dot := dot (l_dvv l); context := without (elements obsolete) (context (l_dvv l)) |}.

(** The members and the final counters that [initiate_gc] was told. *)
Definition told (tr : list Event) (members : list NodeId) (final_dots : gmap NodeId Counter) : Prop :=
  (∃ regs, answered tr ListLiveNodeIds regs ∧ members = dedup (sort_ids regs)) ∧
  answered tr ReadFinalDots final_dots.

Definition collected (id : NodeId) (v : CausalContext) (obsolete : gset NodeId) (tr : list Event) l l' : Prop :=
  let f := without (elements obsolete) v in
  drops id f obsolete l l' ∧ written_states tr ≠ [] ∧
  (∀ s, s ∈ written_states tr → es_initiator_clock s = Dvv.effective_map (l_dvv l') ∧
     es_state_payload s = encode_delta (full_state (l_crdt l') (l_dvv l'))) ∧
  ∀ m, m ∈ written_metadata tr → em_v_stable m = f ∧ em_obsolete_dots m = obsolete.

Lemma initiate_effect id l tr res l' :
  trace_of (GcCoordinatorImpl.initiate_gc id l) tr (res, l') →
  (same_replica l l' ∧ written_states tr = [] ∧ written_metadata tr = []) ∨
  ∃ members final_dots, told tr members final_dots ∧
    let '(v, obsolete) := GcCoordinatorImpl.compute_stable_timestamp (l_gc l) id members final_dots
                            (Dvv.effective_map (l_dvv l)) in
    collected id v obsolete tr l l'.
Proof.
  intros Htr.
  next_call Htr. destruct r as [previous|e]; [|by ended Htr; left].
  next_call Htr. destruct r as [regs|e]; [|by ended Htr; left].
  next_call Htr. destruct r as [[]|e]; [|by ended Htr; left..].
  next_call Htr. destruct r as [regs'|e]; [|by ended Htr; left].
  cbn in Htr. destruct (new_member_exists _ _); [by next_call Htr; ended Htr; left|].
  next_call Htr. destruct r as [fd|e]; [|by ended Htr; left].
  cbn in Htr. destruct (GcCoordinatorImpl.compute_stable_timestamp _ _ _ _ _) as [v obsolete] eqn:Hc.
  destruct (vv_leq _ _); [by next_call Htr; ended Htr; left|].
  unfold GcCoordinatorImpl.collect in Htr. cbn in Htr.
  pose proof (forget_loop (elements obsolete) l v) as Hf.
  destruct (foldl GcCoordinatorImpl.forget (l, v) (elements obsolete)) as [l1 v1].
  destruct Hf as (Hcrdt & -> & Hdvv & _). cbn in Htr. right.
  exists (dedup (sort_ids regs')), fd. split.
  { split; [exists regs'; split; [|done]|]; next_call Htr; rewrite !elem_of_cons; tauto. }
  rewrite Hc. unfold collected, drops.
  next_call Htr. destruct r as [[]|e]; [next_call Htr; destruct r as [[]|e]; [next_call Htr|]|].
  all: ended Htr; rewrite Hcrdt, Hdvv; split_and!; try done; intros s Hs;
    rewrite ?list_elem_of_singleton in Hs; subst; try done; by apply elem_of_nil in Hs.
Qed.

(** The replica collects before it commits: when writing the state fails, its
    tombstones are dropped and its obsolete entries forgotten, and what the bucket
    offers to newcomers is still the state from before. *)
Theorem failed_commit_has_collected id l tr e l' :
  trace_of (GcCoordinatorImpl.initiate_gc id l) tr (Err e, l') → written_states tr ≠ [] →
  ∃ f obsolete, drops id f obsolete l l'.
Proof.
  intros [(_ & Hnone & _)|(members & fd & _ & Hcol)]%initiate_effect Hw; [done|].
  destruct (GcCoordinatorImpl.compute_stable_timestamp _ _ _ _ _) as [v obsolete].
  destruct Hcol as [Hdrops _]. by exists (without (elements obsolete) v), obsolete.
Qed.

Lemma observe_effect id l tr res l' :
  trace_of (GcCoordinatorImpl.observe_epoch_change id l) tr (res, l') →
  same_replica l l' ∨
  ∃ md, answered tr ReadEpochMetadata md ∧ epoch (l_gc l) < em_epoch md ∧
    drops id (em_v_stable md) (em_obsolete_dots md) l l'.
Proof.
  intros Htr. next_call Htr. destruct r as [md|e]; [|by ended Htr; left].
  cbn in Htr. destruct (_ <=? _) eqn:Hle; [by ended Htr; left|].
  cbn in Htr. destruct Htr as [-> [= _ <-]].
  match goal with |- context [foldl _ ?l0 ?ps] =>
    pose proof (drop_loop ps l0) as (Hcrdt & Hdvv & _) end.
  right. exists md. split_and!; [left|by apply N.leb_gt|]. by split.
Qed.

(** What a newcomer ends with. *)
Definition installed (id : NodeId) (s : EpochState) l l' : Prop :=
  es_epoch s = epoch (l_gc l') ∧ l_gc l' = GcCoordinatorImpl.set_epoch (l_gc l) (es_epoch s) ∧
  ∃ delta, decode_delta (es_state_payload s) = Ok delta ∧
    l_crdt l' = merge_delta (l_crdt l) delta ∧
    l_dvv l' = Dvv.merge (l_dvv l) (frontier_dvv id (es_initiator_clock s)).

Lemma await_intent_local fuel next n l tr res l' :
  trace_of (GcCoordinatorImpl.await_intent fuel next n l) tr (Ok res, l') → l' = l.
Proof.
  revert tr. induction fuel as [|fuel IH]; intros tr Htr; [done|].
  next_call Htr. next_call Htr. destruct r0 as [md|e]; [|by ended Htr].
  next_call Htr. destruct r0 as [i|e]; [|by ended Htr]. cbn in Htr.
  destruct (_ || _); [by ended Htr|]. by apply IH in Htr.
Qed.

Lemma await_state_answer fuel n l tr s l' :
  trace_of (GcCoordinatorImpl.await_state fuel n l) tr (Ok s, l') →
  l' = l ∧ es_epoch s = n ∧ answered tr ReadEpochState s.
Proof.
  revert tr. induction fuel as [|fuel IH]; intros tr Htr; [done|].
  next_call Htr. destruct r as [st|e]; [|by ended Htr].
  cbn in Htr. destruct (es_epoch st =? n) eqn:Hn.
  - ended Htr. split_and!; [done|by apply N.eqb_eq|left].
  - next_call Htr. apply IH in Htr as (-> & ? & ?). split_and!; [done..|by do 2 right].
Qed.

Lemma bootstrap_effect fuel id l tr l' :
  trace_of (GcCoordinatorImpl.new_replica_bootstrap fuel id l) tr (Ok tt, l') →
  ∃ s, answered tr ReadEpochState s ∧ installed id s l l'.
Proof.
  intros Htr. next_call Htr. destruct r as [md|e]; [|by ended Htr].
  next_call Htr. destruct r as [intent|e]; [|by ended Htr].
  apply trace_gc_bind in Htr as (tr1 & tr2 & n & l1 & -> & H1 & Htr).
  assert (l1 = l) as ->.
  { destruct intent; [by eapply await_intent_local|by ended H1]. }
  apply trace_gc_bind in Htr as (tr3 & tr4 & s & l1 & -> & H2 & Htr).
  apply await_state_answer in H2 as (-> & Hn & Hs).
  exists s. split; [do 2 right; apply elem_of_app; right; apply elem_of_app; by left|].
  cbn in Htr. unfold gc_lift in Htr. destruct (decode_delta (es_state_payload s)) as [delta|e] eqn:Hd; [|by ended Htr].
  cbn in Htr. destruct Htr as [-> [= <-]]. split_and!; [done|by rewrite Hn|]. by exists delta.
Qed.
End effects.

(** ** The engine's requests *)
Section engine.
Context {C Op Delta D Tx W Tok : Type} `{DeltaCrdt C Op Delta} `{DisseminationStrategy D Tx W}.
Context (registry_of : W → PeerRegistry Tx) (exec : Exec W) (debug_matrix : MatrixClock → string).
Implicit Types self : CrdtEngine C D.
Import CrdtEngineImpl.

(** The calls that a method of the coordinator makes for an engine. *)
Definition gc_calls {A} (m : GcM C A) self (w : W) : list Event := calls_of exec (m (local self)) w.

Lemma run_gc_trace {A} (m : GcM C A) self w r self' w' :
  run_gc exec m self w = Some (r, self', w') →
  trace_of (m (local self)) (gc_calls m self w) (r, local self').
Proof.
  unfold run_gc. destruct (run_prog exec (m (local self)) w) as [[[r1 l] w1]|] eqn:Hrun; [|done].
  intros [= <- <- <-]. apply calls_of_trace in Hrun. by destruct l.
Qed.

Lemma handle_initiate_effect self w self' replies w' :
  handle (Op := Op) (Tok := Tok) registry_of exec debug_matrix self InitiateGc w =
    Some (self', replies, w') →
  let tr := gc_calls (GcCoordinatorImpl.initiate_gc (node_id self)) self w in
  (same_replica (local self) (local self') ∧ written_states tr = [] ∧ written_metadata tr = []) ∨
  ∃ members final_dots, told tr members final_dots ∧
    let '(v, obsolete) := GcCoordinatorImpl.compute_stable_timestamp (gc self) (node_id self)
                            members final_dots (Dvv.effective_map (dvv self)) in
    collected (node_id self) v obsolete tr (local self) (local self').
Proof.
  simpl. unfold initiate_gc. destruct (run_gc _ _ _ _) as [[[r s1] w1]|] eqn:Hp; [|done].
  intros [= <- _ _]. apply run_gc_trace in Hp. by apply initiate_effect in Hp.
Qed.

Lemma handle_observe_effect self w self' replies w' :
  handle (Op := Op) (Tok := Tok) registry_of exec debug_matrix self ObserveEpochChange w =
    Some (self', replies, w') →
  let tr := gc_calls (GcCoordinatorImpl.observe_epoch_change (node_id self)) self w in
  same_replica (local self) (local self') ∨
  ∃ md, answered tr ReadEpochMetadata md ∧ epoch (gc self) < em_epoch md ∧
    drops (node_id self) (em_v_stable md) (em_obsolete_dots md) (local self) (local self').
Proof.
  simpl. unfold observe_epoch_change. destruct (run_gc _ _ _ _) as [[[r s1] w1]|] eqn:Hp; [|done].
  intros [= <- _ _]. apply run_gc_trace in Hp. by apply observe_effect in Hp.
Qed.

Lemma engine_bootstrap_effect fuel self w self' w' :
  new_replica_bootstrap exec fuel self w = Some (Ok tt, self', w') →
  ∃ s, answered (gc_calls (GcCoordinatorImpl.new_replica_bootstrap fuel (node_id self)) self w)
         ReadEpochState s ∧ installed (node_id self) s (local self) (local self').
Proof. intros Hp%run_gc_trace. by apply bootstrap_effect in Hp. Qed.
End engine.
