(* ===== verification/Sending.v ===== *)
(** * What the engine sends

    Everything a request makes the engine queue for its peers: an advertisement
    of its knowledge, or the answer to the peer that asked.  A property of the
    envelopes in each channel is kept by a request when it holds of these; the
    lemma is used by [Typing] for the types of the envelopes and by [Cluster] for
    where they go. *)
From Stdlib Require Import Strings.Byte Strings.String.
From stdpp Require Import base gmap sets list strings fin_maps.
From S2P Require Import Prelude Clocks Proto Crdt Registry Dissemination.
From S2P Require Import GcStorage Coordinator Engine EngineSpec.
Import CrdtEngineImpl.
Local Open Scope N_scope.
Local Open Scope rust_scope.

(** ** Worlds *)
(** [leads c n]: the channel [c] feeds a connection to [n].  The worlds of
    interest are those in which the handle registered for a peer leads to that
    peer; other tasks may change the table during a storage call, as long as it
    stays so, but only the engine queues envelopes. *)
Class WiredOk {Tx W : Type} `{Channel Tx Envelope W} `{Rng W} (registry_of : W → PeerRegistry Tx)
    (exec : Exec W) (queued : W → Tx → list Envelope)
    (leads : Tx → NodeId → Prop) (world_ok : W → Prop) := {
  wired_registered : ∀ w n g h,
    world_ok w → peers (registry_of w) !! n = Some (g, h) → leads (tx h) n;
  wired_send : ∀ c e w, world_ok w → world_ok (try_send c e w).2;
  wired_choose : ∀ l w, world_ok w → world_ok (choose l w).2;
  wired_exec : ∀ call w, world_ok w → world_ok (exec call w).2;
  exec_queued : ∀ call w c, queued (exec call w).2 c = queued w c
}.

(** The world is one of those, and everything in the channels has the property. *)
Definition sound {Tx W} (queued : W → Tx → list Envelope) (world_ok : W → Prop)
    (P : Tx → Envelope → Prop) (w : W) : Prop :=
  world_ok w ∧ ∀ c, Forall (P c) (queued w c).

Section sending.
Context {Tx W : Type} `{Channel Tx Envelope W} `{!Rng W} `{EqDecision Tx}
  {queued : W → Tx → list Envelope} {has_room : W → Tx → bool}
  `{!ChannelOk Tx Envelope W queued has_room} `{!RngOk Tx W queued has_room}.
Context (registry_of : W → PeerRegistry Tx) (exec : Exec W)
  {leads : Tx → NodeId → Prop} {world_ok : W → Prop}
  `{!WiredOk registry_of exec queued leads world_ok}.
Implicit Types reg : PeerRegistry Tx.
Implicit Types P : Tx → Envelope → Prop.

Abbreviation sound := (sound queued world_ok).

Lemma send_to_peer_sound P reg n e w :
  (∀ g h, peers reg !! n = Some (g, h) → P (tx h) e) → sound P w →
  sound P (PeerRegistryImpl.send_to_peer reg n e w).2.
Proof.
  intros He [Hok Hw]. destruct (peers reg !! n) as [[g h]|] eqn:Hn.
  - split.
    + destruct (send_to_peer_registered reg n g h e w Hn) as [-> _].
      by apply (wired_send (registry_of := registry_of) (exec := exec)).
    + intros c. rewrite (send_to_peer_queued (has_room := has_room) reg n g h e w c Hn).
      apply Forall_app. split; [done|]. repeat case_decide; subst; repeat case_match; eauto.
  - by destruct (send_to_peer_unknown reg n e w Hn) as [-> _].
Qed.

Lemma choose_sound P l w : sound P w → sound P (choose l w).2.
Proof.
  intros [Hok Hw]. split; [by apply (wired_choose (registry_of := registry_of) (exec := exec))|].
  intros c. by destruct (choose_queues (has_room := has_room) l w c) as [-> _].
Qed.

Lemma gossips_sound P w0 e w w' :
  world_ok w0 → (∀ c n, leads c n → P c e) → gossips (registry_of w0) e w w' →
  sound P w → sound P w'.
Proof.
  intros H0 He [-> |[r ->]] Hw; [done|]. unfold gossip.
  pose proof (choose_sound P (PeerRegistryImpl.peer_ids (registry_of w0)) w Hw) as Hq.
  destruct (choose _ w) as [[m|] w1]; [|done]. apply send_to_peer_sound; [|done].
  intros g h Hm. eapply He. by eapply wired_registered.
Qed.

Lemma send_response_sound P w0 n answer w :
  world_ok w0 → (∀ c e, leads c n → answer = Some e → P c e) →
  sound P w → sound P (send_response (registry_of w0) n answer w).
Proof.
  intros H0 He. destruct answer as [e|]; simpl; [|done]. apply send_to_peer_sound.
  intros g h Hn. eapply He; [|done]. by eapply wired_registered.
Qed.

Lemma run_prog_sound {A} P (p : Prog A) w a w' :
  run_prog exec p w = Some (a, w') → sound P w → sound P w'.
Proof.
  revert w. induction p as [b|call k IH|]; intros w; simpl; [by intros [= _ <-]| |done].
  intros Hrun [Hok Hw].
  pose proof (wired_exec (registry_of := registry_of) (exec := exec) call w Hok) as Hok1.
  pose proof (exec_queued (registry_of := registry_of) (exec := exec) call w) as Hq.
  destruct (exec call w) as [r w1]. eapply IH; [exact Hrun|]. split; [done|].
  intros c. simpl in Hq. by rewrite Hq.
Qed.
End sending.

(** ** The envelopes of a request *)
Section engine.
Context {C Op Delta D Tx W Tok : Type} `{DeltaCrdt C Op Delta} `{Channel Tx Envelope W} `{!Rng W}
  `{EqDecision Tx} {queued : W → Tx → list Envelope} {has_room : W → Tx → bool}
  `{!ChannelOk Tx Envelope W queued has_room} `{!RngOk Tx W queued has_room}
  `{!DisseminationStrategy D Tx W} `{!DisseminationOk D Tx W}.
Context (registry_of : W → PeerRegistry Tx) (exec : Exec W) (debug_matrix : MatrixClock → string)
  {leads : Tx → NodeId → Prop} {world_ok : W → Prop}
  `{!WiredOk registry_of exec queued leads world_ok}.
Implicit Types self : CrdtEngine C D.
Implicit Types P : Tx → Envelope → Prop.

(** The engine advertises what it knows. *)
Definition advertisement self : Envelope :=
  make_pull_request_envelope (crdt_id self) (node_id self) (gc_flag self)
    (Dvv.effective_map (dvv self)).

(** The engine answers a peer that has advertised [K]. *)
Definition answer_to self (K : CausalContext) (e : Envelope) : Prop :=
  ∃ delta km our, answers (crdt_id self) (node_id self) delta (gc_flag self) km our (Some e) ∧
    (delta = None ∨ delta = Some (encode_delta (delta_since (crdt self) K (dvv self)))) ∧
    (km = None ∨ ∃ registry : PeerRegistry Tx,
       km = GcCoordinatorImpl.get_knowledge_matrix (gc self) registry) ∧
    (our = None ∨ our = Some (Dvv.effective_map (dvv self))).

Abbreviation sound := (sound queued world_ok).

Lemma log_metrics_sound P self w w' :
  log_metrics exec self w = Some w' → sound P w → sound P w'.
Proof.
  unfold log_metrics. destruct (run_prog _ _ w) as [[r w1]|] eqn:Hrun; [|done]. intros [= <-].
  by eapply (run_prog_sound registry_of exec).
Qed.

Lemma run_gc_sound {A} P (m : GcM C A) self w r self' w' :
  run_gc exec m self w = Some (r, self', w') → sound P w → sound P w'.
Proof.
  unfold run_gc. destruct (run_prog exec _ w) as [[[r1 l] w1]|] eqn:Hrun; [|done].
  intros [= _ _ <-]. by eapply (run_prog_sound registry_of exec).
Qed.

Lemma server_pull_sound P self from cid K w self' w' :
  server_pull_request registry_of exec self from cid K w = Some (self', w') → sound P w →
  (∀ c e, leads c from → answer_to self' K e → P c e) → sound P w'.
Proof.
  unfold server_pull_request. case_decide; [by intros [= _ <-]|].
  set (self1 := set_gc _ _).
  destruct (log_metrics exec self1 w) as [w1|] eqn:Hlog; [|done].
  intros Hp Hw Hans. apply (log_metrics_sound P) in Hlog as Hw1; [|done].
  cbn [mbind option_bind] in Hp.
  match type of Hp with context [respond_to_pull_request ?d ?reg ?f ?c ?n ?delta ?g ?km ?our ?w] =>
    destruct (respond_answers d reg f c n delta g km our w) as (e & He & Hw');
    destruct (respond_to_pull_request d reg f c n delta g km our w) as [d' w2] end.
  injection Hp as <- <-. simpl in Hw'. subst w2.
  eapply (send_response_sound registry_of exec); [exact (proj1 Hw1)| |done]. intros c x Hc ->. apply Hans; [done|].
  eexists _, _, _. split; [exact He|]. split_and!.
  - match goal with |- context [if ?b then _ else _] => destruct b end; auto.
  - destruct (is_gc_peer _ _); eauto.
  - match goal with |- context [if ?b then Some (Dvv.effective_map _) else _] => destruct b end; auto.
Qed.

Lemma server_delta_sound P self cid b km w self' w' :
  server_delta registry_of exec self cid b km w = Some (self', w') → sound P w →
  (∀ c n, leads c n → P c (advertisement self')) → sound P w'.
Proof.
  unfold server_delta. case_decide; [by intros [= _ <-]|].
  destruct (decode_delta b) as [delta|]; [|by intros [= _ <-]]. intros Hp Hw Hadv.
  match type of Hp with mbind _ ?m = _ =>
    assert (∀ s2 w2, m = Some (s2, w2) → sound P w2) as Hm2; [|destruct m as [[s2 w2]|]; [|done]] end.
  { intros s2 w2. destruct km as [m|]; [|by intros [= _ <-]].
    destruct (log_metrics _ _ w) as [w3|] eqn:Hlog; [|done]. intros [= _ <-].
    by eapply log_metrics_sound. }
  specialize (Hm2 _ _ eq_refl).
  cbn [mbind option_bind] in Hp. destruct (causal_context delta) as [[ctx node] counter].
  match type of Hp with context [on_post_merge ?d ?reg ?n ?c ?g ?K ?w] =>
    pose proof (merge_gossips d reg n c g K w) as Hg;
    destruct (on_post_merge d reg n c g K w) as [d' w3] end.
  injection Hp as <- <-. by eapply (gossips_sound registry_of exec); [exact (proj1 Hm2)| |exact Hg|].
Qed.

(** A property of the envelopes in every channel is kept by a request, when it
    holds of what the engine advertises afterwards, in any channel, and of
    its answers, in the channels that lead to the peer that asked. *)
Lemma handle_sound P self (request : CrdtEngineRequest Op Tok) w self' replies w' :
  handle registry_of exec debug_matrix self request w = Some (self', replies, w') → sound P w →
  (∀ c n, leads c n → P c (advertisement self')) →
  (∀ from cid K, request = DeltaRequest from cid K →
     ∀ c e, leads c from → answer_to self' K e → P c e) →
  sound P w'.
Proof.
  intros Hh Hw Hadv Hans. destruct request; simpl in Hh; try by (injection Hh as _ _ <-).
  - unfold do_pull_round_request in Hh.
    match type of Hh with context [do_pull_round ?d ?reg ?n ?c ?g ?K ?w] =>
      pose proof (round_gossips d reg n c g K w) as Hg; destruct (do_pull_round d reg n c g K w) end.
    injection Hh as <- _ <-. by eapply (gossips_sound registry_of exec); [exact (proj1 Hw)| |exact Hg|].
  - unfold client_operation in Hh.
    match type of Hh with context [push_version_vector ?d ?reg ?n ?c ?g ?K ?w] =>
      pose proof (push_gossips d reg n c g K w) as Hg;
      destruct (push_version_vector d reg n c g K w) end.
    injection Hh as <- _ <-. by eapply (gossips_sound registry_of exec); [exact (proj1 Hw)| |exact Hg|].
  - destruct (server_pull_request _ _ _ _ _ _ _) as [[s1 w1]|] eqn:Hp; [|done].
    injection Hh as <- _ <-. eapply server_pull_sound; [exact Hp|done|by apply (Hans _ crdt_id)].
  - destruct (server_delta _ _ _ _ _ _ _) as [[s1 w1]|] eqn:Hp; [|done].
    injection Hh as <- _ <-. by eapply server_delta_sound.
  - unfold initiate_gc in Hh. destruct (run_gc _ _ _ _) as [[[r s1] w1]|] eqn:Hp; [|done].
    injection Hh as _ _ <-. by eapply run_gc_sound.
  - unfold observe_epoch_change in Hh. destruct (run_gc _ _ _ _) as [[[r s1] w1]|] eqn:Hp; [|done].
    injection Hh as _ _ <-. by eapply run_gc_sound.
Qed.
End engine.
