(* ===== verification/Typing.v ===== *)
(** * The types of the wire

    Rust's types promise that node ids are UTF-8 and counters fit in 64 bits;
    the model's strings and numbers do not.  Here that promise is an invariant:
    an engine over the OR-Set whose state holds such values keeps it through
    every request, whatever its peers send, and everything it queues for them is
    well formed down to the encoded delta, so that they can decode it. *)
From Stdlib Require Import Strings.Byte Strings.String.
From stdpp Require Import base gmap sets list strings fin_maps.
From S2P Require Import Prelude Clocks Proto Crdt OrSet Replication Registry Dissemination.
From S2P Require Import GcStorage Coordinator GcProtocol Engine PeerMessages EngineSpec Sending.
Import CrdtEngineImpl.
Local Open Scope N_scope.
Local Open Scope rust_scope.

(** ** Clocks *)
Lemma clock_ok_lookup (m : CausalContext) :
  clock_ok m ↔ ∀ k v, m !! k = Some v → rust_string k ∧ v < u64_modulus.
Proof. done. Qed.

Lemma clock_ok_empty : clock_ok ∅.
Proof. apply map_Forall_empty. Qed.

Lemma clock_ok_max m m' k v :
  clock_ok m → clock_ok m' → max_opt (m !! k) (m' !! k) = Some v → rust_string k ∧ v < u64_modulus.
Proof.
  intros Hm Hm'. specialize (Hm k). specialize (Hm' k).
  destruct (m' !! k) as [v'|]; simpl; [|by apply Hm].
  intros [= <-]. destruct (Hm' v' eq_refl) as [? ?]. split; [done|].
  destruct (m !! k) as [v0|]; simpl; [destruct (Hm v0 eq_refl)|]; lia.
Qed.

Lemma clock_ok_join a b : clock_ok a → clock_ok b → clock_ok (vv_join a b).
Proof. intros Ha Hb k v. rewrite lookup_vv_join. by apply clock_ok_max. Qed.

Lemma clock_ok_entry_max k v m :
  rust_string k → v < u64_modulus → clock_ok m → clock_ok (entry_max k v m).
Proof.
  intros Hk Hv Hm k' v'. unfold entry_max. intros [[<- <-]|[_ Hk']]%lookup_insert_Some; [|by apply Hm].
  split; [done|]. unfold get_or0. specialize (Hm k). destruct (m !! k) as [v0|]; simpl; [|lia].
  destruct (Hm v0 eq_refl). lia.
Qed.

Definition dvv_ok (x : DotVersionVector) : Prop := dot_ok (dot x) ∧ clock_ok (context x).

Lemma dvv_ok_new n : rust_string n → dvv_ok (Dvv.new n).
Proof. intros Hn. split; [by split|apply clock_ok_empty]. Qed.

Lemma effective_map_ok x : dvv_ok x → clock_ok (Dvv.effective_map x).
Proof.
  intros [[Hn Hc] Hx]. unfold Dvv.effective_map. case_ltb; [|done]. by apply clock_ok_entry_max.
Qed.

Lemma event_ok x : dvv_ok x → dvv_ok (Dvv.event x).
Proof.
  intros Hx. pose proof (effective_map_ok x Hx) as Heff. destruct Hx as [[Hn Hc] Hx].
  split; [|exact Heff]. split; [done|]. simpl. unfold u64_add. by apply N.mod_lt.
Qed.

Lemma merge_ok x y : dvv_ok x → clock_ok (Dvv.effective_map y) → dvv_ok (Dvv.merge x y).
Proof.
  intros [[Hn Hc] Hx] Hy.
  assert (∀ k v, get_or0 (Dvv.effective_map y) k = v → v < u64_modulus) as Hget.
  { intros k v <-. unfold get_or0. specialize (Hy k).
    destruct (Dvv.effective_map y !! k) as [v|]; simpl; [by destruct (Hy v)|done]. }
  split; [split|].
  - by rewrite merge_node.
  - rewrite merge_counter. specialize (Hget _ _ (get_or0_effective_map y (d_node_id (dot x)))). lia.
  - intros k v. rewrite lookup_merge. case_decide as Hk; [|by apply clock_ok_max].
    specialize (Hx k). specialize (Hy k). unfold merge_own.
    destruct (Dvv.effective_map y !! k) as [r|]; [|by apply Hx].
    destruct (Hy r eq_refl) as [? ?].
    assert (∀ v0, v0 < u64_modulus → N.max (default 0 (context x !! k)) v0 < u64_modulus) as Hmax.
    { intros v0 Hv0. destruct (context x !! k) as [c|]; simpl; [destruct (Hx c eq_refl)|]; lia. }
    repeat case_ltb; [..|by apply Hx]; intros [= <-]; (split; [done|apply Hmax; lia]).
Qed.

Lemma without_ok x ps :
  dvv_ok x → dvv_ok {| dot := dot x; context := without ps (context x) |}.
Proof.
  intros [Hd Hx]. split; [done|]. intros k v. simpl. rewrite lookup_without.
  case_decide; [done|]. apply Hx.
Qed.

(** ** Matrix clocks *)
Definition matrix_ok (mc : MatrixClock) : Prop := map_Forall (λ k ctx, rust_string k ∧ clock_ok ctx) mc.

Definition coordinator_typed (g : GcCoordinator) : Prop := matrix_ok (default ∅ (matrix_clock g)).

Lemma with_matrix_typed f g :
  (∀ mc, matrix_ok mc → matrix_ok (f mc)) → coordinator_typed g →
  coordinator_typed (GcCoordinatorImpl.with_matrix f g).
Proof.
  intros Hf Hg. unfold coordinator_typed, GcCoordinatorImpl.with_matrix in *.
  destruct (negb _); [done|]. destruct (matrix_clock g) as [mc|] eqn:Hmc; [by apply Hf|by rewrite Hmc].
Qed.

Lemma update_entries_ok l mc :
  Forall (λ e, rust_string e.1 ∧ clock_ok e.2) l → matrix_ok mc →
  matrix_ok (foldl GcCoordinatorImpl.update_entry mc l).
Proof.
  revert mc. induction l as [|[k ctx] l IH]; intros mc; simpl; [done|].
  intros [[Hk Hctx] Hl]%Forall_cons Hmc. simpl in *. apply IH; [done|].
  unfold GcCoordinatorImpl.update_entry. simpl. specialize (Hmc k) as Hold.
  destruct (mc !! k) as [old|]; apply map_Forall_insert_2; try done.
  destruct (Hold old eq_refl). split; [done|]. by apply clock_ok_join.
Qed.

Lemma update_matrix_typed km g :
  matrix_ok km → coordinator_typed g →
  coordinator_typed (GcCoordinatorImpl.update_matrix_clock km g).
Proof.
  intros Hkm. apply with_matrix_typed. intros mc. apply update_entries_ok.
  apply Forall_forall. intros [k ctx] Hin%elem_of_map_to_list. by apply Hkm.
Qed.

Lemma coordinator_typed_closed : gc_closed coordinator_typed.
Proof.
  split; [done|]. intros p g Hg. apply with_matrix_typed; [|apply with_matrix_typed; [|done]].
  - intros mc Hmc k ctx (ctx0 & <- & Hk)%lookup_fmap_Some.
    destruct (Hmc k ctx0 Hk) as [? Hctx]. split; [done|]. intros k' v.
    intros [_ Hk']%lookup_delete_Some. by apply Hctx.
  - intros mc Hmc k ctx [_ Hk]%lookup_delete_Some. by apply Hmc.
Qed.

Lemma knowledge_matrix_ok {Tx} g (registry : PeerRegistry Tx) km :
  coordinator_typed g → GcCoordinatorImpl.get_knowledge_matrix g registry = Some km → matrix_ok km.
Proof.
  unfold coordinator_typed, GcCoordinatorImpl.get_knowledge_matrix. intros Hg.
  destruct (negb _); [done|]. destruct (matrix_clock g) as [mc|]; [|done]. intros [= <-] k ctx.
  rewrite restrict_loop_lookup, lookup_empty. case_decide; [|done].
  destruct (mc !! k) as [c|] eqn:Hk; [|done]. intros [= <-]. by apply Hg.
Qed.

(** ** The set and its deltas *)
Section orset.
Context {E : Type} `{Countable E}.
Implicit Types s : OrSet E.

Definition set_ok s : Prop :=
  (∀ e d, in_adds s e d → dot_ok d) ∧
  (∀ d r, tombstones s !! d = Some r → dot_ok d ∧ dot_ok r).

Lemma new_ok : set_ok OrSetImpl.new.
Proof. split; [intros e d|intros d r]; simpl; [unfold in_adds; simpl|]; rewrite lookup_empty; [set_solver|done]. Qed.

Lemma apply_local_ok s d op : set_ok s → dot_ok d → set_ok (OrSetImpl.apply_local s d op).
Proof.
  intros [Ha Ht] Hd. destruct op as [e|e]; split.
  - intros e' d' [[_ ->]|Hin]%in_adds_apply_add; [done|by eapply Ha].
  - exact Ht.
  - intros e' d' [_ Hin]%in_adds_apply_remove. by eapply Ha.
  - intros d' r. rewrite lookup_tombstones_remove. case_decide as Hin; [|apply Ht].
    intros [= <-]. split; [by eapply Ha|done].
Qed.

Lemma merge_delta_ok s (delta : OrSetDelta E) :
  set_ok s → orset_delta_ok delta → set_ok (OrSetImpl.merge_delta s delta).
Proof.
  intros [Ha Ht] (Hda & Hdt & _). pose proof (proj1 (Forall_forall _ _) Hda) as Hda'. pose proof (proj1 (Forall_forall _ _) Hdt) as Hdt'.
  split.
  - intros e d [[Hin _]|[Hin _]]%in_adds_merge; [by eapply Ha|by apply (Hda' (e, d))].
  - intros d r Hr. pose proof (lookup_tombstones_merge s delta d) as Hm. rewrite Hr in Hm.
    destruct Hm as [Hin|[_ Hr']]; [by apply (Hdt' (d, r))|by apply Ht].
Qed.

Lemma perform_gc_ok s f : set_ok s → set_ok (OrSetImpl.perform_gc s f).
Proof.
  intros [Ha Ht]. split; [exact Ha|]. intros d r [Hr _]%lookup_tombstones_gc. by apply Ht.
Qed.

(** A delta of dots of the set, with the metadata of the vector. *)
Lemma produced_delta_ok s x (delta : OrSetDelta E) :
  set_ok s → dvv_ok x →
  (∀ e d, (e, d) ∈ delta_adds delta → in_adds s e d) →
  (∀ d r, (d, r) ∈ delta_tombstones delta → tombstones s !! d = Some r) →
  causal_context delta = dvv_metadata x → orset_delta_ok delta.
Proof.
  intros [Ha Ht] Hx Hadds Htombs Hctx. injection Hctx as Hc Hn Hd. split_and!.
  - apply Forall_forall. intros [e d] Hin. by eapply Ha, Hadds.
  - apply Forall_forall. intros [d r] Hin. by apply Ht, Htombs.
  - rewrite Hc. by apply effective_map_ok.
  - rewrite Hn. apply Hx.
  - rewrite Hd. apply Hx.
Qed.

Lemma delta_since_ok s K x : set_ok s → dvv_ok x → orset_delta_ok (OrSetImpl.delta_since s K x).
Proof.
  intros Hs Hx. apply (produced_delta_ok s x); [done|done|..|done].
  - intros e d Hin. by apply delta_since_adds in Hin as [? _].
  - intros d r Hin. by apply delta_since_tombstones in Hin as [? _].
Qed.

Lemma full_state_ok s x : set_ok s → dvv_ok x → orset_delta_ok (OrSetImpl.full_state s x).
Proof.
  intros Hs Hx. apply (produced_delta_ok s x); [done|done|..|done].
  - intros e d. apply full_state_adds.
  - intros d r. apply full_state_tombstones.
Qed.

Context `{ElementCodec E} `{!Message ProtoOrSetDelta, !Message ProtoOrSetOp}.

Lemma decode_dots_ok (l : list ProtoElemDot) (l' : list (E * Dot)) :
  Forall (λ e, opt_ok proto_dot_ok (ped_dot e)) l →
  collect_results (OrSetImpl.decode_elem_dot (E := E)) l = Ok l' → Forall (λ p, dot_ok p.2) l'.
Proof.
  revert l'. induction l as [|p l IH]; intros l'; simpl; [by intros _ [= <-]|].
  intros [Hp Hl]%Forall_cons. destruct (OrSetImpl.decode_elem_dot p) as [q|] eqn:Hq; [|done].
  destruct (collect_results _ l) as [q'|]; [|done]. intros [= <-]. constructor; [|by apply IH].
  unfold OrSetImpl.decode_elem_dot in Hq. destruct (decode_elem _); [|done].
  destruct (ped_dot p); simpl in *; [|done]. by injection Hq as <-.
Qed.

Lemma decode_pairs_ok (l : list ProtoDotPair) l' :
  Forall (λ p, opt_ok proto_dot_ok (pdp_add_dot p) ∧ opt_ok proto_dot_ok (pdp_remove_dot p)) l →
  collect_results OrSetImpl.decode_dot_pair l = Ok l' → Forall (λ p, dot_ok p.1 ∧ dot_ok p.2) l'.
Proof.
  revert l'. induction l as [|p l IH]; intros l'; simpl; [by intros _ [= <-]|].
  intros [[Ha Hr] Hl]%Forall_cons. destruct (OrSetImpl.decode_dot_pair p) as [q|] eqn:Hq; [|done].
  destruct (collect_results _ l) as [q'|]; [|done]. intros [= <-]. constructor; [|by apply IH].
  unfold OrSetImpl.decode_dot_pair in Hq.
  destruct (pdp_add_dot p), (pdp_remove_dot p); simpl in *; try done. by injection Hq as <-.
Qed.

Context `{!MessageTyped ProtoOrSetDelta proto_or_set_delta_ok}.

Lemma decode_delta_ok b (delta : OrSetDelta E) :
  OrSetImpl.decode_delta b = Ok delta → orset_delta_ok delta.
Proof.
  unfold OrSetImpl.decode_delta. destruct (decode b) as [p|] eqn:Hp; [|done].
  apply (decode_typed (wf := proto_or_set_delta_ok)) in Hp as (Ha & Ht & Hc & Hn & Hd).
  unfold OrSetImpl.delta_of_proto. destruct (collect_results _ (pod_adds p)) as [a|] eqn:Hca; [|done].
  destruct (collect_results _ (pod_tombstones p)) as [t|] eqn:Hct; [|done]. intros [= <-].
  split_and!; [by eapply decode_dots_ok|by eapply decode_pairs_ok|done..].
Qed.
End orset.

(** ** Typed engines *)
Section engine.
Context {E D Tx W Tok : Type} `{Countable E} `{ElementCodecOk E} `{ElementFormat E}
  `{!Message ProtoOrSetDelta, !Message ProtoOrSetOp}
  `{!MessageOk ProtoOrSetDelta proto_or_set_delta_ok}
  `{!MessageTyped ProtoOrSetDelta proto_or_set_delta_ok}
  `{!Message Envelope} `{!MessageOk Envelope envelope_ok} `{!MessageTyped Envelope envelope_ok}.
Context `{Channel Tx Envelope W} `{!Rng W} `{EqDecision Tx}
  {queued : W → Tx → list Envelope} {has_room : W → Tx → bool}
  `{!ChannelOk Tx Envelope W queued has_room} `{!RngOk Tx W queued has_room}
  `{!DisseminationStrategy D Tx W} `{!DisseminationOk D Tx W}.
Context (registry_of : W → PeerRegistry Tx) (exec : Exec W) (debug_matrix : MatrixClock → string).
Hypothesis exec_queues : ∀ call w c, queued (exec call w).2 c = queued w c.
Implicit Types self : CrdtEngine (OrSet E) D.

Record engine_typed self : Prop := {
  et_node : rust_string (node_id self);
  et_crdt_id : rust_string (crdt_id self);
  et_set : set_ok (crdt self);
  et_dvv : dvv_ok (dvv self);
  et_matrix : coordinator_typed (gc self)
}.

(** What a peer asks or answers. *)
Definition request_typed (request : CrdtEngineRequest (OrSetOp E) Tok) : Prop :=
  match request with
  | DeltaRequest from_node _ knowledge => rust_string from_node ∧ clock_ok knowledge
  | DeltaResp _ _ _ knowledge_matrix => opt_ok matrix_ok knowledge_matrix
  | _ => True
  end.

(** A well-formed message whose payload is a delta. *)
Definition sendable_envelope (e : Envelope) : Prop :=
  envelope_ok e ∧
  match env_payload e with
  | Some (PCrdtOp o) => is_ok (OrSetImpl.decode_delta (E := E) (op_payload o)) = true
  | _ => True
  end.

Definition reply_typed (r : Reply Tok) : Prop :=
  match r with
  | StateReply _ final_dot final_state =>
      final_dot < u64_modulus ∧ is_ok (OrSetImpl.decode_delta (E := E) final_state) = true
  | TextReply _ _ => True
  end.

(** Every envelope in the channels is sendable. *)
Definition all_sendable (w : W) : Prop := ∀ c, Forall sendable_envelope (queued w c).

(** Where the envelopes go does not matter here. *)
#[local] Instance anywhere : WiredOk registry_of exec queued (λ _ _, True) (λ _, True).
Proof. by split. Qed.

Lemma pull_request_sendable cid n gcr K :
  rust_string cid → rust_string n → clock_ok K →
  sendable_envelope (make_pull_request_envelope cid n gcr K).
Proof. by intros. Qed.

Lemma crdt_op_sendable cid n (delta : OrSetDelta E) km rk :
  rust_string cid → rust_string n → orset_delta_ok delta → opt_ok matrix_ok km → opt_ok clock_ok rk →
  sendable_envelope (make_crdt_op_envelope cid n (OrSetImpl.encode_delta delta) km rk).
Proof.
  intros Hc Hn Hd Hkm Hrk. split; [|by simpl; rewrite decode_encode_orset_delta].
  split_and!; [done|done|by destruct rk|]. destruct km as [m|]; [|done].
  intros k vc [ctx [<- Hk]]%lookup_fmap_Some. by apply Hkm.
Qed.

Lemma typed_after_effect self (request : CrdtEngineRequest (OrSetOp E) Tok) w self' replies w' :
  engine_typed self → request_typed request →
  handle registry_of exec debug_matrix self request w = Some (self', replies, w') →
  engine_typed self'.
Proof.
  intros [Hn Hc Hs Hv Hm] Hreq Hh.
  destruct (handle_identity registry_of exec debug_matrix self request w)
    as (s' & r' & w1 & Hh' & Hid & Hcid & _). rewrite Hh in Hh'. simplify_eq.
  apply (handle_effect_closed registry_of exec debug_matrix coordinator_typed) in Hh as [Heff Hgc].
  assert (coordinator_typed (gc s')) as Hm'.
  { apply Hgc; [apply coordinator_typed_closed| |done]. intros m g Hb. apply update_matrix_typed.
    destruct request; simpl in Hb; try done; [subst m|by subst; simpl in Hreq].
    apply map_Forall_insert_2; [exact Hreq|apply map_Forall_empty]. }
  enough (set_ok (crdt s') ∧ dvv_ok (dvv s')) as [? ?]
    by (split; rewrite ?Hid, ?Hcid; done).
  assert (∀ l, collects l (local s') → set_ok (l_crdt l) → dvv_ok (l_dvv l) →
    set_ok (crdt s') ∧ dvv_ok (dvv s')) as Hcollects.
  { intros l (Hset & (ps & Hdvv) & _) ? ?. simpl in *. rewrite Hdvv. split; [|by apply without_ok].
    destruct Hset as [-> |[f ->]]; [done|by apply perform_gc_ok]. }
  destruct request; simpl in Heff; try (destruct Heff as (-> & -> & _); done).
  - destruct Heff as (-> & _ & ->). pose proof (event_ok _ Hv) as Hev. split; [|done].
    apply apply_local_ok; [done|exact (proj1 Hev)].
  - destruct (OrSetImpl.decode_delta payload) as [delta|] eqn:Hd; [|by subst].
    case_decide; [|by subst]. destruct Heff as [-> ->].
    apply decode_delta_ok in Hd as Hok. split; [by apply merge_delta_ok|].
    apply merge_ok; [done|]. apply effective_map_ok. destruct Hok as (_ & _ & ? & ? & ?).
    split; [by split|done].
  - by eapply Hcollects.
  - by eapply Hcollects.
Qed.

Lemma advertisement_sendable self : engine_typed self → sendable_envelope (advertisement self).
Proof. intros []. apply pull_request_sendable; [done|done|by apply effective_map_ok]. Qed.

Lemma answer_sendable self K e :
  engine_typed self → answer_to (Tx := Tx) self K e → sendable_envelope e.
Proof.
  intros [Hn Hc Hs Hv Hm] (delta & km & our & Hans & Hdelta & Hkm & Hour).
  assert (opt_ok clock_ok our) as Hok by (destruct Hour as [-> | ->]; [done|by apply effective_map_ok]).
  assert (opt_ok matrix_ok km) as Hkmok.
  { destruct Hkm as [-> | [reg ->]]; [done|].
    destruct (GcCoordinatorImpl.get_knowledge_matrix _ _) eqn:Hg; [by eapply knowledge_matrix_ok|done]. }
  destruct Hdelta as [-> | ->]; simpl in Hans.
  - destruct Hans as [?|(K' & -> & [= ->])]; [done|]. by apply pull_request_sendable.
  - destruct Hans as (rk & Hrk & [= ->]).
    apply crdt_op_sendable; [done|done|by apply delta_since_ok|done|by destruct Hrk as [-> | ->]].
Qed.

Lemma routed_typed e : envelope_ok e → Forall request_typed (routed e).
Proof.
  unfold envelope_ok, routed. destruct (env_payload e) as [[h|o|q]|]; simpl; try by constructor.
  - intros (Hc & Hn & Hrk & Hkm). constructor.
    + simpl. destruct (op_knowledge_matrix o) as [km|]; [|done]. simpl in *.
      intros k ctx [vc [<- Hk]]%lookup_fmap_Some. by apply (Hkm k vc).
    + destruct (op_requester_knowledge o) as [vc|]; [|constructor]. case_decide; [constructor|].
      constructor; [by split|constructor].
  - intros (Hc & Hn & Hk). constructor; [|constructor]. split; [done|].
    destruct (pr_knowledge q); [done|apply clock_ok_empty].
Qed.

Lemma handle_sent self (request : CrdtEngineRequest (OrSetOp E) Tok) w self' replies w' :
  engine_typed self → request_typed request → all_sendable w →
  handle registry_of exec debug_matrix self request w = Some (self', replies, w') →
  all_sendable w' ∧ Forall reply_typed replies.
Proof.
  intros Hself Hreq Hw Hh. pose proof (typed_after_effect _ _ _ _ _ _ Hself Hreq Hh) as Hself'.
  split.
  - apply (handle_sound registry_of exec debug_matrix (λ _, sendable_envelope)) in Hh as [_ Hw'];
      [exact Hw'|by split|intros; by apply advertisement_sendable|].
    intros ? ? ? _ ? ? _. by apply answer_sendable.
  - apply Forall_forall. intros r Hr. destruct request; simpl in Hh; simplify_option_eq;
      repeat case_match; simplify_eq; try by apply elem_of_nil in Hr.
    all: apply list_elem_of_singleton in Hr as ->; simpl; try done.
    destruct Hself as [_ _ Hs Hv _]. split; [apply Hv|].
    by rewrite decode_encode_orset_delta by (by apply full_state_ok).
Qed.

Lemma new_typed n cid (d : D) cfg :
  rust_string n → rust_string cid → engine_typed (CrdtEngineImpl.new n cid OrSetImpl.new d cfg).
Proof.
  intros Hn Hc. split; simpl; [done|done|apply new_ok|by apply dvv_ok_new|].
  unfold coordinator_typed, GcCoordinatorImpl.new; simpl.
  destruct (gc_replica cfg); intros k ctx Hk; simpl in Hk; by rewrite lookup_empty in Hk.
Qed.

(** C25. Ids stay UTF-8 and counters stay below [2^64].  A new
    engine holds such values; whatever bytes a peer sends, the requests they are
    routed to are typed; a typed request keeps the engine typed, and every
    envelope the engine queues, and the state it publishes when it leaves, decode
    at the other end, the deltas in them included. *)
Theorem engine_is_typed n cid (d : D) cfg self w :
  (rust_string n → rust_string cid →
   engine_typed (CrdtEngineImpl.new n cid OrSetImpl.new d cfg)) ∧
  (∀ b e, decode b = Ok e → Forall request_typed (routed e)) ∧
  (engine_typed self → all_sendable w →
   ∀ (request : CrdtEngineRequest (OrSetOp E) Tok) self' replies w',
     request_typed request →
     handle registry_of exec debug_matrix self request w = Some (self', replies, w') →
     engine_typed self' ∧ all_sendable w' ∧ Forall reply_typed replies ∧
     ∀ c e, e ∈ queued w' c → decode (encode_to_vec e) = Ok e ∧
       ∀ o, env_payload e = Some (PCrdtOp o) →
         is_ok (OrSetImpl.decode_delta (E := E) (op_payload o)) = true).
Proof.
  split_and!.
  - apply new_typed.
  - intros b e He. apply (decode_typed (wf := envelope_ok)) in He. by apply routed_typed.
  - intros Hself Hw request self' replies w' Hreq Hh.
    destruct (handle_sent _ _ _ _ _ _ Hself Hreq Hw Hh) as [Hw' Hreplies].
    split_and!; [by eapply typed_after_effect|done|done|]. intros c e Hin.
    destruct (proj1 (Forall_forall _ _) (Hw' c) e Hin) as [He Hpay].
    split; [by apply decode_encode|]. intros o Ho. by rewrite Ho in Hpay.
Qed.
End engine.

(** ** Witnesses *)
#[local] Instance rust_string_dec s : Decision (rust_string s) := decide (utf8_valid (as_bytes s) = true).
#[local] Instance clock_ok_dec m : Decision (clock_ok m).
Proof. unfold clock_ok. apply _. Defined.
#[local] Instance opt_ok_dec {A} (P : A → Prop) `{∀ a, Decision (P a)} o : Decision (opt_ok P o).
Proof. destruct o; simpl; apply _. Defined.
#[local] Instance proto_dot_ok_dec d : Decision (proto_dot_ok d).
Proof. unfold proto_dot_ok. apply _. Defined.
#[local] Instance delta_ok_dec d : Decision (proto_or_set_delta_ok d).
Proof. unfold proto_or_set_delta_ok. apply _. Defined.
#[local] Instance payload_ok_dec p : Decision (payload_ok p).
Proof. destruct p; simpl; unfold handshake_ok, crdt_op_ok, pull_request_ok; apply _. Defined.
#[local] Instance envelope_ok_dec e : Decision (envelope_ok e).
Proof. unfold envelope_ok. apply _. Defined.

#[local] Instance typed_delta : Message ProtoOrSetDelta :=
  checked_message ProtoOrSetDelta proto_or_set_delta_ok.
#[local] Instance typed_delta_ok : MessageOk ProtoOrSetDelta proto_or_set_delta_ok.
Proof. apply checked_message_ok. Qed.
#[local] Instance typed_delta_typed : MessageTyped ProtoOrSetDelta proto_or_set_delta_ok.
Proof. apply checked_message_typed. Qed.
#[local] Instance typed_envelope : Message Envelope := checked_message Envelope envelope_ok.
#[local] Instance typed_envelope_ok : MessageOk Envelope envelope_ok.
Proof. apply checked_message_ok. Qed.
#[local] Instance typed_envelope_typed : MessageTyped Envelope envelope_ok.
Proof. apply checked_message_typed. Qed.
#[local] Existing Instances op_codec text_format.

Definition typed_start : CrdtEngine (OrSet RustString) PushPull :=
  CrdtEngineImpl.new "B" "default-orset" OrSetImpl.new (push_pull_new 1) demo_config.

Lemma nothing_queued (P : Envelope → Prop) c : Forall P (queues_queued two_queues c).
Proof.
  unfold queues_queued, two_queues. rewrite !lookup_insert, lookup_empty.
  repeat case_decide; constructor.
Qed.

Lemma engine_is_typed_witness :
  ∃ self' w', handle demo_registry demo_exec demo_debug typed_start
      (ClientOperation (Add hello) : DemoRequest) two_queues = Some (self', [], w') ∧
    engine_typed self' ∧
    ∀ c e, e ∈ queues_queued w' c → decode (encode_to_vec e) = Ok e.
Proof.
  destruct (engine_is_typed (E := RustString) (Tok := nat) (queued := queues_queued)
    (has_room := queues_room) demo_registry demo_exec demo_debug (λ _ _ _, eq_refl)
    "B" "default-orset" (push_pull_new 1) demo_config typed_start two_queues) as (Hnew & _ & Hstep).
  eexists _, _. split; [reflexivity|].
  destruct (Hstep (Hnew eq_refl eq_refl) (nothing_queued _)
    (ClientOperation (Add hello)) _ _ _ I eq_refl) as (Ht & _ & _ & Hdec).
  split; [exact Ht|]. intros c e Hin. apply (Hdec c e Hin).
Defined.
