(* ===== verification/Cluster.v ===== *)
(** * Whole nodes on a network

    The composition of the layers: hosts that each run an engine over the OR-Set
    with its queue of requests and its channels, the frames between them, and what
    the bucket holds.  A task of a host takes one step at a time, in any order: a
    client's command or a timer queues a request, the engine handles one, a writer
    takes an envelope from its channel, a reader hands one to the message handler,
    the table of peers changes, frames are lost.  Hosts join from the state of an
    epoch and leave with their final counter.  Every step is a run of the network
    of [Network], whose theorems then hold of the engines. *)
From Stdlib Require Import Strings.Byte Strings.String.
From stdpp Require Import base gmap sets list strings fin_maps relations.
From S2P Require Import Prelude Clocks Proto Crdt OrSet Replication Network Registry Dissemination.
From S2P Require Import GcStorage Coordinator GcProtocol GcSafety Engine PeerMessages EngineSpec.
From S2P Require Import GcEffects Sending Typing.
Import CrdtEngineImpl.
Local Open Scope N_scope.
Local Open Scope rust_scope.

(** ** Hosts *)
Record Host (E D W Tok : Type) `{Countable E} := mkHost {
  h_engine : CrdtEngine (OrSet E) D;
  h_world : W;
  h_requests : list (CrdtEngineRequest (OrSetOp E) Tok)
}.
Arguments mkHost {E D W Tok _ _}.
Arguments h_engine {E D W Tok _ _}.
Arguments h_world {E D W Tok _ _}.
Arguments h_requests {E D W Tok _ _}.

(** [wire]: the frames on the way to a host.  [gone]: the final counters that
    departed hosts left in the bucket.  [epochs]: the metadata of the epochs ever
    committed.  [states]: the states that a newcomer may read. *)
Record Cluster (E D W Tok : Type) `{Countable E} := mkCluster {
  hosts : gmap NodeId (Host E D W Tok);
  wire : list (NodeId * bytes);
  gone : gmap NodeId Counter;
  epochs : list EpochMetadata;
  states : list EpochState
}.
Arguments mkCluster {E D W Tok _ _}.
Arguments hosts {E D W Tok _ _}.
Arguments wire {E D W Tok _ _}.
Arguments gone {E D W Tok _ _}.
Arguments epochs {E D W Tok _ _}.
Arguments states {E D W Tok _ _}.

Section cluster.
Context {E D Tx W Tok : Type} `{Countable E} `{ElementCodecOk E} `{ElementFormat E}
  `{!Message ProtoOrSetDelta, !Message ProtoOrSetOp}
  `{!MessageOk ProtoOrSetDelta proto_or_set_delta_ok}
  `{!MessageTyped ProtoOrSetDelta proto_or_set_delta_ok}
  `{!Message Envelope} `{!MessageOk Envelope envelope_ok} `{!MessageTyped Envelope envelope_ok}.
Context `{Channel Tx Envelope W} `{!Rng W} `{EqDecision Tx}
  {queued : W → Tx → list Envelope} {has_room : W → Tx → bool}
  `{!ChannelOk Tx Envelope W queued has_room} `{!RngOk Tx W queued has_room}
  `{!DisseminationStrategy D Tx W} `{!DisseminationOk D Tx W}.
(** The host at the other end of a channel. *)
Context (peer_of : Tx → NodeId).
Context (registry_of : W → PeerRegistry Tx) (exec : Exec W) (debug_matrix : MatrixClock → string)
  {world_ok : W → Prop} `{!WiredOk registry_of exec queued (λ c n, peer_of c = n) world_ok}.

Abbreviation Request := (CrdtEngineRequest (OrSetOp E) Tok).
Abbreviation Host := (Host E D W Tok).
Abbreviation Cluster := (Cluster E D W Tok).
Implicit Types cl : Cluster.
Implicit Types h : Host.
Implicit Types self : CrdtEngine (OrSet E) D.
Implicit Types net : Net E.

(** A step of the host [n]: the frames, the epochs and the states it leaves. *)
Definition update (n : NodeId) h (wire' : list (NodeId * bytes)) (epochs' : list EpochMetadata)
    (states' : list EpochState) cl : Cluster :=
  {| hosts := <[n := h]> (hosts cl); wire := wire'; gone := gone cl; epochs := epochs'; states := states' |}.

Definition put (n : NodeId) h cl : Cluster := update n h (wire cl) (epochs cl) (states cl) cl.

Definition take_away (n : NodeId) h cl : Cluster :=
  {| hosts := delete n (hosts cl); wire := wire cl;
     gone := <[n := (get_final_state_for_deregistration (h_engine h)).1]> (gone cl);
     epochs := epochs cl; states := states cl |}.

Definition keep (wire' : list (NodeId * bytes)) (states' : list EpochState) cl : Cluster :=
  {| hosts := hosts cl; wire := wire'; gone := gone cl; epochs := epochs cl; states := states' |}.

(** What clients and timers ask of an engine. *)
Definition local_request (q : Request) : bool :=
  match q with DeltaRequest _ _ _ | DeltaResp _ _ _ _ => false | _ => true end.

Definition collects_request (q : Request) : bool :=
  match q with InitiateGc | ObserveEpochChange => true | _ => false end.

(** The requests that a host has received or that are on their way to it. *)
Definition in_flight cl (m : NodeId) (q : Request) : Prop :=
  (∃ h, hosts cl !! m = Some h ∧ q ∈ h_requests h) ∨
  (∃ n h c e, hosts cl !! n = Some h ∧ e ∈ queued (h_world h) c ∧ peer_of c = m ∧ q ∈ routed e) ∨
  (∃ b e, (m, b) ∈ wire cl ∧ decode b = Ok e ∧ q ∈ routed e).

(** *** What a collection relies on *)
(** The bucket's answers: every host is listed, the final counter of a node that
    is not listed is the one it left with, the metadata is that of an epoch once
    committed. *)
Definition truthful cl (tr : list Event) : Prop :=
  (∀ regs, answered tr ListLiveNodeIds regs → ∀ p, is_Some (hosts cl !! p) → p ∈ regs) ∧
  (∀ regs fd, answered tr ListLiveNodeIds regs → answered tr ReadFinalDots fd →
     ∀ p, p ∉ regs → fd !! p = gone cl !! p) ∧
  ∀ md, answered tr ReadEpochMetadata md → md ∈ epochs cl ∨ em_epoch md = 0.

(** An epoch already dropped the node. *)
Definition dropped cl (p : NodeId) : Prop := ∃ md, md ∈ epochs cl ∧ p ∈ em_obsolete_dots md.

(** A vector that is not older than the frontier: it has seen that much of every
    node, and all of the obsolete ones, unless the node was dropped already. *)
Definition recent_clock cl (f : CausalContext) (obsolete : gset NodeId) (K : CausalContext) : Prop :=
  (∀ k, get_or0 f k <= get_or0 K k ∨ dropped cl k) ∧
  ∀ p, p ∈ obsolete → get_or0 (gone cl) p <= get_or0 K p ∨ dropped cl p.

(** A request on its way is not older than the frontier; an answer on its way
    adds nothing that every host has removed. *)
Definition recent_request cl (f : CausalContext) (obsolete : gset NodeId) (q : Request) : Prop :=
  match q with
  | DeltaRequest _ _ K => recent_clock cl f obsolete K
  | DeltaResp _ _ payload _ => ∀ delta, OrSetImpl.decode_delta payload = Ok delta →
      ∀ x, x ∈ delta_adds delta →
        ∃ m h, hosts cl !! m = Some h ∧ in_adds (crdt (h_engine h)) x.1 x.2
  | _ => True
  end.

Definition all_recent cl (f : CausalContext) (obsolete : gset NodeId) : Prop :=
  (∀ m q, in_flight cl m q → recent_request cl f obsolete q) ∧
  ∀ s, s ∈ states cl → recent_clock cl f obsolete (es_initiator_clock s).

(** The frontier that the answers give, when the collection goes on to write. *)
Definition timely cl n self (tr : list Event) : Prop :=
  ∀ members final_dots, told tr members final_dots → written_states tr ≠ [] →
    let '(v, obsolete) := GcCoordinatorImpl.compute_stable_timestamp (gc self) n members final_dots
                            (Dvv.effective_map (dvv self)) in
    all_recent cl (without (elements obsolete) v) obsolete.

(** Other tasks of a host changed its world: the table of peers, channels that
    were closed or drained. *)
Definition world_changes (w w' : W) : Prop :=
  world_ok w' ∧ ∀ c, queued w' c ⊆ queued w c.

(** *** Steps *)
(** The steps of hosts whose collections are timely: [cl_initiate] asks for answers
    of the bucket that are [truthful] and for nothing on its way that is older than
    the frontier ([timely]), [cl_observe] for truthful answers, [cl_join] for a state
    that was published for its epoch.  The program checks none of this; what it does
    when they fail is in [misled_step]. *)
Inductive timely_step : Cluster → Cluster → Prop :=
| cl_ask cl n h q :
    hosts cl !! n = Some h → local_request q = true →
    timely_step cl (put n (mkHost (h_engine h) (h_world h) (h_requests h ++ [q])) cl)
| cl_handle cl n h q rest self' replies w' :
    hosts cl !! n = Some h → h_requests h = q :: rest → collects_request q = false →
    (∀ op, q = ClientOperation op → d_counter (dot (dvv (h_engine h))) < u64_max) →
    handle registry_of exec debug_matrix (h_engine h) q (h_world h) = Some (self', replies, w') →
    timely_step cl (put n (mkHost self' w' rest) cl)
| cl_initiate cl n h rest self' replies w' :
    hosts cl !! n = Some h → h_requests h = InitiateGc :: rest →
    handle registry_of exec debug_matrix (h_engine h) (InitiateGc : Request) (h_world h) =
      Some (self', replies, w') →
    let tr := gc_calls exec (GcCoordinatorImpl.initiate_gc n) (h_engine h) (h_world h) in
    truthful cl tr → timely cl n (h_engine h) tr →
    timely_step cl (update n (mkHost self' w' rest) (wire cl) (written_metadata tr ++ epochs cl)
                       (written_states tr ++ states cl) cl)
| cl_observe cl n h rest self' replies w' :
    hosts cl !! n = Some h → h_requests h = ObserveEpochChange :: rest →
    handle registry_of exec debug_matrix (h_engine h) (ObserveEpochChange : Request) (h_world h) =
      Some (self', replies, w') →
    truthful cl (gc_calls exec (GcCoordinatorImpl.observe_epoch_change n) (h_engine h) (h_world h)) →
    timely_step cl (put n (mkHost self' w' rest) cl)
| cl_write cl n h c e w' :
    hosts cl !! n = Some h → e ∈ queued (h_world h) c → world_changes (h_world h) w' →
    timely_step cl (update n (mkHost (h_engine h) w' (h_requests h))
                       ((peer_of c, encode_to_vec e) :: wire cl) (epochs cl) (states cl) cl)
| cl_read cl m h b e wire' :
    hosts cl !! m = Some h → (m, b) ∈ wire cl → decode b = Ok e → wire' ⊆ wire cl →
    timely_step cl (update m (mkHost (h_engine h) (h_world h)
                                  (handle_received_envelope e tt (h_requests h)))
                       wire' (epochs cl) (states cl) cl)
| cl_world cl n h w' :
    hosts cl !! n = Some h → world_changes (h_world h) w' →
    timely_step cl (put n (mkHost (h_engine h) w' (h_requests h)) cl)
| cl_lose cl wire' states' :
    wire' ⊆ wire cl → states' ⊆ states cl → timely_step cl (keep wire' states' cl)
| cl_join cl n fuel cid d cfg w self' w' :
    hosts cl !! n = None → gone cl !! n = None → rust_string n → rust_string cid →
    let self := CrdtEngineImpl.new n cid OrSetImpl.new d cfg in
    new_replica_bootstrap exec fuel self w = Some (Ok tt, self', w') →
    (∀ s, answered (gc_calls exec (GcCoordinatorImpl.new_replica_bootstrap fuel n) self w)
            ReadEpochState s → es_epoch s = epoch (gc self') → s ∈ states cl) →
    world_ok w' → (∀ c, queued w' c = []) →
    timely_step cl (put n (mkHost self' w' []) cl)
| cl_leave cl n h :
    hosts cl !! n = Some h → timely_step cl (take_away n h cl).

(** The same handlers when the bucket's answers are not truthful, or when something
    on its way is older than what is collected. *)
Inductive misled_step : Cluster → Cluster → Prop :=
| misled_initiate cl n h rest self' replies w' :
    hosts cl !! n = Some h → h_requests h = InitiateGc :: rest →
    handle registry_of exec debug_matrix (h_engine h) (InitiateGc : Request) (h_world h) =
      Some (self', replies, w') →
    let tr := gc_calls exec (GcCoordinatorImpl.initiate_gc n) (h_engine h) (h_world h) in
    ¬ (truthful cl tr ∧ timely cl n (h_engine h) tr) →
    misled_step cl (update n (mkHost self' w' rest) (wire cl) (written_metadata tr ++ epochs cl)
                      (written_states tr ++ states cl) cl)
| misled_observe cl n h rest self' replies w' :
    hosts cl !! n = Some h → h_requests h = ObserveEpochChange :: rest →
    handle registry_of exec debug_matrix (h_engine h) (ObserveEpochChange : Request) (h_world h) =
      Some (self', replies, w') →
    ¬ truthful cl (gc_calls exec (GcCoordinatorImpl.observe_epoch_change n) (h_engine h) (h_world h)) →
    misled_step cl (put n (mkHost self' w' rest) cl)
| misled_join cl n fuel cid d cfg w self' w' :
    hosts cl !! n = None → gone cl !! n = None → rust_string n → rust_string cid →
    let self := CrdtEngineImpl.new n cid OrSetImpl.new d cfg in
    new_replica_bootstrap exec fuel self w = Some (Ok tt, self', w') →
    ¬ (∀ s, answered (gc_calls exec (GcCoordinatorImpl.new_replica_bootstrap fuel n) self w)
              ReadEpochState s → es_epoch s = epoch (gc self') → s ∈ states cl) →
    world_ok w' → (∀ c, queued w' c = []) →
    misled_step cl (put n (mkHost self' w' []) cl).

(** Hosts whose bucket may answer anything and whose frames may be of any age. *)
Definition code_step : Cluster → Cluster → Prop := either timely_step misled_step.

(** New engines with empty queues, and a bucket without an epoch. *)
Definition cluster_init cl : Prop :=
  (wire cl = [] ∧ gone cl = ∅ ∧ epochs cl = []) ∧
  (∀ s, s ∈ states cl → es_initiator_clock s = ∅ ∧
     ∃ x, OrSetImpl.decode_delta (es_state_payload s) = Ok (OrSetImpl.full_state (E := E) OrSetImpl.new x)) ∧
  ∀ n h, hosts cl !! n = Some h →
    (∃ cid d cfg, rust_string n ∧ rust_string cid ∧
       h_engine h = CrdtEngineImpl.new n cid OrSetImpl.new d cfg) ∧
    h_requests h = [] ∧ world_ok (h_world h) ∧ ∀ c, queued (h_world h) c = [].

(** ** The simulation relation *)
(** What a request on its way to [m] stands for in the network. *)
Definition carried net (m : NodeId) (q : Request) : Prop :=
  request_typed q ∧
  match q with
  | DeltaRequest from _ K => PullRequest from K ∈ pool net
  | DeltaResp _ _ payload km =>
      (∃ K delta, OrSetImpl.decode_delta payload = Ok delta ∧ DeltaResponse m K delta ∈ pool net) ∧
      ∀ rows, km = Some rows → rows_sound net rows
  | _ => True
  end.

(** What a state in the bucket stands for. *)
Definition published net (s : EpochState) : Prop :=
  clock_ok (es_initiator_clock s) ∧
  ∃ state, OrSetImpl.decode_delta (es_state_payload s) = Ok state ∧
    Snapshot (es_initiator_clock s) state ∈ pool net.

Definition committed_in net (md : EpochMetadata) : Prop :=
  epoch_recorded net (em_v_stable md) (em_obsolete_dots md).

Record host_ok net (n : NodeId) h : Prop := {
  ho_node : node_id (h_engine h) = n;
  ho_typed : engine_typed (h_engine h);
  ho_gc : coordinator_ok (gc (h_engine h));
  ho_matrix : matrix_sound net (gc (h_engine h));
  ho_world : world_ok (h_world h);
  ho_queues : all_sendable (E := E) (queued := queued) (h_world h)
}.

(** The network has everything that is on its way. *)
Record carries net cl : Prop := {
  ca_flight : ∀ m q, in_flight cl m q → carried net m q;
  ca_states : ∀ s, s ∈ states cl → published net s;
  ca_epochs : ∀ md, md ∈ epochs cl → committed_in net md
}.

Record simulates net cl : Prop := {
  sim_reachable : reachable net;
  sim_replicas : replicas net = (λ h, replica_of (h_engine h)) <$> hosts cl;
  sim_gone : departed net = gone cl;
  sim_hosts : ∀ n h, hosts cl !! n = Some h → host_ok net n h;
  sim_carries : carries net cl
}.

Lemma sim_replica net cl n h :
  simulates net cl → hosts cl !! n = Some h → replicas net !! n = Some (replica_of (h_engine h)).
Proof. intros Hsim Hn. by rewrite (sim_replicas _ _ Hsim), lookup_fmap, Hn. Qed.

Lemma sim_ok net cl : simulates net cl → net_ok net.
Proof. intros Hsim. by apply reachable_ok, Hsim. Qed.

Lemma in_flight_update cl n h' wire' epochs' states' m q :
  in_flight (update n h' wire' epochs' states' cl) m q →
  in_flight cl m q ∨ (m = n ∧ q ∈ h_requests h') ∨
  (∃ c e, e ∈ queued (h_world h') c ∧ peer_of c = m ∧ q ∈ routed e) ∨
  ∃ b e, (m, b) ∈ wire' ∧ decode b = Ok e ∧ q ∈ routed e.
Proof.
  intros [(h1 & Hm & Hq)|[(n1 & h1 & c & e & Hn1 & He)|Hw]]; simpl in *; [| |by eauto].
  - apply lookup_insert_Some in Hm as [[-> ->]|[? Hm]]; [by auto|]. left; left. eauto.
  - apply lookup_insert_Some in Hn1 as [[-> ->]|[? Hn1]]; [by eauto 10|].
    left; right; left. by exists n1, h1, c, e.
Qed.

(** *** What is on its way stays there *)
Lemma later_of net net' : reachable net → rtc net_step net net' → net_later net net'.
Proof. intros Hreach Hsteps. by apply (net_steps_ok _ _ Hsteps), reachable_ok. Qed.

Lemma carried_grows net net' m q :
  reachable net → rtc net_step net net' → pool net ⊆ pool net' → carried net m q → carried net' m q.
Proof.
  intros Hreach Hsteps Hpool [Htyped Hq]. split; [done|]. destruct q; try done; simpl in *; [by auto|].
  destruct Hq as [(K & delta & Hd & Hin) Hrows]. split; [exists K, delta; auto|].
  intros rows Hkm. eapply rows_sound_steps; [done..|by apply Hrows].
Qed.

Lemma published_grows net net' s : pool net ⊆ pool net' → published net s → published net' s.
Proof. intros Hp (Hc & state & Hd & Hin). split; [done|]. exists state. auto. Qed.

Lemma carries_grow net net' cl :
  reachable net → rtc net_step net net' → pool net ⊆ pool net' → carries net cl → carries net' cl.
Proof.
  intros Hreach Hsteps Hpool [Hf Hs He]. split.
  - intros m q Hin. eapply carried_grows; [done..|by apply Hf].
  - intros s Hin. eapply published_grows; [done|by apply Hs].
  - intros md Hin. eapply epoch_recorded_later; [by apply later_of|by apply He].
Qed.

(** *** The replica takes its step *)
(** The network can make [r'] of the replica of [n] and commit the epochs. *)
Definition follows net cl n (r' : Replica E) (committed : list EpochMetadata) : Prop :=
  ∃ net', rtc net_step net net' ∧ replicas net' = <[n := r']> (replicas net) ∧
    departed net' = departed net ∧ carries net' cl ∧ ∀ md, md ∈ committed → committed_in net' md.

Lemma follows_same net cl n r :
  replicas net !! n = Some r → carries net cl → follows net cl n r [].
Proof. intros Hr Hc. exists net. split_and!; [done|by rewrite insert_id|done..|set_solver]. Qed.

Lemma follows_once net net' cl n r' :
  reachable net → net_step net net' → replicas net' = <[n := r']> (replicas net) →
  departed net' = departed net → pool net' = pool net → carries net cl → follows net cl n r' [].
Proof.
  intros Hreach Hstep Heq Hd Hp Hc. exists net'. pose proof (rtc_once _ _ Hstep) as Hsteps.
  split_and!; [done..| |set_solver]. eapply carries_grow; [done..|by rewrite Hp|done].
Qed.

(** Everybody knows all the events of a node that an epoch has dropped. *)
Lemma dropped_node net cl p :
  simulates net cl → dropped cl p →
  ∃ c, departed net !! p = Some c ∧ c <= get_or0 (forgotten net) p.
Proof.
  intros Hsim (md & Hmd & Hp).
  destruct (ca_epochs _ _ (sim_carries _ _ Hsim) md Hmd) as [_ Hrec]. by apply Hrec.
Qed.

Lemma dropped_known net cl p n h :
  simulates net cl → hosts cl !! n = Some h → dropped cl p →
  get_or0 (known net (replica_of (h_engine h))) p = get_or0 (departed net) p.
Proof.
  intros Hsim Hn Hp. destruct (dropped_node _ _ _ Hsim Hp) as (c & Hc & Hle).
  pose proof (sim_ok _ _ Hsim) as Hok. pose proof (sim_replica _ _ _ _ Hsim Hn) as Hr.
  destruct (nok_replicas _ Hok n _ Hr) as [_ _ [Hi _] _ _]. specialize (Hi p).
  rewrite (issued_departed net p c Hok Hc) in Hi. rewrite (get_or0_Some _ _ _ Hc).
  unfold known in *. rewrite get_or0_learnt in *. lia.
Qed.

(** A vector that is recent for the cluster is recent for the network. *)
Lemma recent_clock_vector net cl f obsolete K m r :
  simulates net cl → replicas net !! m = Some r → f ⊑c known net r →
  recent_clock cl f obsolete K → recent_vector net f obsolete K.
Proof.
  intros Hsim Hr Hf [HK Hobs]. pose proof (sim_ok _ _ Hsim) as Hok.
  assert (∀ p, dropped cl p → ∃ c, departed net !! p = Some c ∧ c <= get_or0 (learnt net K) p) as Hdrop.
  { intros p Hp. destruct (dropped_node _ _ _ Hsim Hp) as (c & Hc & Hle). exists c.
    split; [done|]. rewrite get_or0_learnt. lia. }
  split.
  - intros k. destruct (HK k) as [Hle|(c & Hc & Hle)%Hdrop]; [rewrite get_or0_learnt; lia|].
    specialize (Hf k). destruct (nok_replicas _ Hok m r Hr) as [_ _ [Hi _] _ _]. specialize (Hi k).
    rewrite (issued_departed net k c Hok Hc) in Hi. lia.
  - intros p Hp%elem_of_elements. destruct (Hobs p Hp) as [Hle|(c & Hc & Hle)%Hdrop].
    + rewrite (sim_gone _ _ Hsim), get_or0_learnt. lia.
    + by rewrite (get_or0_Some _ _ _ Hc).
Qed.

(** What is on its way survives a collection that loses what is too old. *)
Lemma carries_recent net net' cl f obsolete m r :
  simulates net cl → replicas net !! m = Some r → f ⊑c known net r →
  rtc net_step net net' → all_recent cl f obsolete →
  (∀ msg, msg ∈ pool net → recent net f obsolete msg → msg ∈ pool net') → carries net' cl.
Proof.
  intros Hsim Hr Hf Hsteps [Hreq Hst] Hpool. pose proof (sim_carries _ _ Hsim) as [Hc1 Hc2 Hc3].
  pose proof (sim_reachable _ _ Hsim) as Hreach.
  assert (∀ K, recent_clock cl f obsolete K → recent_vector net f obsolete K) as Hvec
    by (intros K; by eapply recent_clock_vector).
  split.
  - intros m' q Hin. destruct (Hc1 m' q Hin) as [Ht Hq]. specialize (Hreq m' q Hin).
    split; [done|]. destruct q; try done; simpl in *; [by apply Hpool, Hvec|].
    destruct Hq as [(K & delta & Hd & Hmsg) Hrows]. split.
    + exists K, delta. split; [done|]. apply Hpool; [done|]. apply Forall_forall. intros x Hx.
      destruct (Hreq delta Hd x Hx) as (n & h & Hn & Hadd).
      exists n, (replica_of (h_engine h)). split; [by apply (sim_replica _ _ _ _ Hsim)|done].
    + intros rows Hkm. eapply rows_sound_steps; [done..|by apply Hrows].
  - intros s Hin. destruct (Hc2 s Hin) as (Hc & state & Hd & Hmsg). split; [done|].
    exists state. split; [done|]. by apply Hpool, Hvec, Hst.
  - intros md Hin. eapply epoch_recorded_later; [by apply later_of|by apply Hc3].
Qed.

Lemma drops_observed n f obsolete self self' :
  drops n f obsolete (local self) (local self') →
  replica_of self' = observed (replica_of self) n f obsolete.
Proof.
  intros [Hcrdt Hdvv]. simpl in Hcrdt, Hdvv. unfold observed. rewrite forget_all_replica.
  unfold replica_of. by rewrite Hcrdt, Hdvv.
Qed.

Lemma follows_initiate net cl n h w self' replies w' :
  simulates net cl → hosts cl !! n = Some h →
  handle registry_of exec debug_matrix (h_engine h) (InitiateGc : Request) w = Some (self', replies, w') →
  let tr := gc_calls exec (GcCoordinatorImpl.initiate_gc n) (h_engine h) w in
  truthful cl tr → timely cl n (h_engine h) tr →
  follows net cl n (replica_of self') (written_metadata tr) ∧
  ∀ s, s ∈ written_states tr → es_initiator_clock s = knowledge (replica_of self') ∧
    es_state_payload s = encode_delta (full_state (crdt self') (dvv self')).
Proof.
  intros Hsim Hn Hh tr (Hlist & Hgone & _) Htimely.
  pose proof (sim_replica _ _ _ _ Hsim Hn) as Hr. pose proof (sim_hosts _ _ Hsim _ _ Hn) as Hho.
  apply handle_initiate_effect in Hh. rewrite (ho_node _ _ _ Hho) in Hh. fold tr in Hh.
  destruct Hh as [([Hcrdt Hdvv] & -> & ->)|(members & fd & Htold & Hcol)].
  - split; [|set_solver]. simpl in Hcrdt, Hdvv.
    assert (replica_of self' = replica_of (h_engine h)) as -> by (unfold replica_of; congruence).
    apply follows_same; [done|apply Hsim].
  - specialize (Htimely _ _ Htold). destruct Htold as [(regs & Hregs & Hmem) Hfd].
    assert (∀ p, is_Some (replicas net !! p) → p ∈ members) as Hcover.
    { intros p. rewrite (sim_replicas _ _ Hsim), lookup_fmap, fmap_is_Some, Hmem.
      rewrite elem_of_dedup, elem_of_sort_ids. by apply Hlist. }
    assert (∀ p, p ∉ members → fd !! p = departed net !! p) as Hdots.
    { intros p Hp. rewrite (sim_gone _ _ Hsim). apply (Hgone regs fd); [done..|].
      intros Hin. apply Hp. by rewrite Hmem, elem_of_dedup, elem_of_sort_ids. }
    pose proof (λ m r', frontier_below net n (replica_of (h_engine h)) (gc (h_engine h)) members
      fd m r' Hr (ho_matrix _ _ _ Hho) Hcover) as Hbelow.
    pose proof (obsolete_known net n (replica_of (h_engine h)) (gc (h_engine h)) members fd) as Hobs.
    unfold knowledge in Hobs, Hbelow. simpl in Hobs, Hbelow.
    destruct (GcCoordinatorImpl.compute_stable_timestamp _ _ _ _ _) as [v obsolete].
    destruct Hcol as (Hdrops & Hw & Hs & Hm). specialize (Htimely Hw). apply drops_observed in Hdrops as Hrep.
    destruct (quiet_collection net n (replica_of (h_engine h)) (without (elements obsolete) v) obsolete)
      as (net' & Hsteps & Heq & Hdep & Hep & Hpool);
      [by eapply sim_ok|done|done|intros p Hp; by apply Hobs; [..|apply Hho| | |]|].
    split; [|done]. exists net'. rewrite Hrep. split_and!; [done..| |].
    + by eapply carries_recent; [| |eapply Hbelow|..].
    + intros md Hmd. destruct (Hm md Hmd) as [He1 He2]. unfold committed_in. by rewrite He1, He2.
Qed.

Lemma follows_observe net cl n h w self' replies w' :
  simulates net cl → hosts cl !! n = Some h →
  handle registry_of exec debug_matrix (h_engine h) (ObserveEpochChange : Request) w = Some (self', replies, w') →
  truthful cl (gc_calls exec (GcCoordinatorImpl.observe_epoch_change n) (h_engine h) w) →
  follows net cl n (replica_of self') [].
Proof.
  intros Hsim Hn Hh (_ & _ & Htrue).
  pose proof (sim_replica _ _ _ _ Hsim Hn) as Hr. pose proof (sim_hosts _ _ Hsim _ _ Hn) as Hho.
  apply handle_observe_effect in Hh. rewrite (ho_node _ _ _ Hho) in Hh.
  destruct Hh as [[Hcrdt Hdvv]|(md & Hmd & Hlt & Hdrops)].
  - simpl in Hcrdt, Hdvv.
    assert (replica_of self' = replica_of (h_engine h)) as -> by (unfold replica_of; congruence).
    apply follows_same; [done|apply Hsim].
  - destruct (Htrue md Hmd) as [Hin|Hz]; [|lia]. apply drops_observed in Hdrops as ->.
    pose proof (ca_epochs _ _ (sim_carries _ _ Hsim) md Hin) as Hep.
    destruct (observation_run net n (replica_of (h_engine h)) (em_v_stable md) (em_obsolete_dots md))
      as (net' & [Hsteps Heq Hpool _ Hdep]); [by eapply sim_ok|done|done|].
    exists net'. split_and!; [done..| |set_solver].
    eapply carries_grow; [apply Hsim|done|by rewrite Hpool|apply Hsim].
Qed.

Lemma follows_plain net cl n h q rest self' replies w' :
  simulates net cl → hosts cl !! n = Some h → h_requests h = q :: rest → collects_request q = false →
  (∀ op, q = ClientOperation op → d_counter (dot (dvv (h_engine h))) < u64_max) →
  handle registry_of exec debug_matrix (h_engine h) q (h_world h) = Some (self', replies, w') →
  follows net cl n (replica_of self') [].
Proof.
  intros Hsim Hn Hq Hcol Hmax Hh. pose proof (sim_replica _ _ _ _ Hsim Hn) as Hr.
  apply handle_effect in Hh as [Heff _].
  assert (carried net n q) as [_ Hcar].
  { apply (ca_flight _ _ (sim_carries _ _ Hsim)). left. exists h. split; [done|]. rewrite Hq. left. }
  assert (replica_of self' = replica_of (h_engine h) → follows net cl n (replica_of self') [])
    as Hsame by (intros ->; apply follows_same; [done|apply Hsim]).
  destruct q; simpl in Heff; try done; try (apply Hsame; unfold replica_of; by destruct Heff as (-> & -> & _)).
  - destruct Heff as (Hdvv & _ & Hcrdt).
    assert (replica_of self' = engine_apply_local (replica_of (h_engine h)) op) as ->
      by (unfold replica_of at 1; by rewrite Hdvv, Hcrdt).
    eapply follows_once; [apply Hsim|apply step_op; [exact Hr|by eapply Hmax]|done..|apply Hsim].
  - destruct Hcar as [(K & delta & Hd & Hin) _]. simpl in Hd. rewrite Hd in Heff.
    case_decide; [|by apply Hsame; rewrite Heff]. destruct Heff as [Hdvv Hcrdt].
    assert (replica_of self' = engine_merge_delta (replica_of (h_engine h)) delta) as ->
      by (unfold replica_of at 1; by rewrite Hdvv, Hcrdt).
    eapply follows_once; [apply Hsim|by eapply step_deliver|done..|apply Hsim].
Qed.

(** *** The matrix clock stays below what the replicas know *)
Lemma with_matrix_sound net f g :
  (∀ mc, rows_sound net mc → rows_sound net (f mc)) → matrix_sound net g →
  matrix_sound net (GcCoordinatorImpl.with_matrix f g).
Proof.
  intros Hf Hg. unfold matrix_sound, GcCoordinatorImpl.with_matrix in *.
  destruct (negb _); [done|]. destruct (matrix_clock g) as [mc|] eqn:Hmc; simpl in *; [by apply Hf|].
  by rewrite Hmc.
Qed.

Lemma matrix_sound_closed net : gc_closed (λ g, coordinator_ok g ∧ matrix_sound net g).
Proof.
  split; [done|]. intros p g [Hok Hg]. split; [by apply with_matrix_ok, with_matrix_ok|].
  apply with_matrix_sound; [|apply with_matrix_sound; [|done]].
  - intros mc Hmc k ctx (ctx0 & <- & Hk)%lookup_fmap_Some.
    eapply kept_below; [|by apply (Hmc k ctx0)].
    intros k'. unfold get_or0. rewrite lookup_delete. case_decide; simpl; lia.
  - intros mc Hmc k ctx [_ Hk]%lookup_delete_Some. by apply Hmc.
Qed.

Lemma coordinator_simulated net net' n h q self' replies w' :
  reachable net → rtc net_step net net' → host_ok net n h → carried net' n q →
  handle registry_of exec debug_matrix (h_engine h) q (h_world h) = Some (self', replies, w') →
  coordinator_ok (gc self') ∧ matrix_sound net' (gc self').
Proof.
  intros Hreach Hsteps Hh [_ Hcar] Hhandle.
  apply (handle_effect_closed _ _ _ (λ g, coordinator_ok g ∧ matrix_sound net' g)) in Hhandle as [_ Hgc].
  apply Hgc; [apply matrix_sound_closed| |].
  - intros rows g Hrows [Hok Hg]. split; [by apply with_matrix_ok|]. apply update_sound; [done..|].
    destruct q; simpl in Hrows; try done; [subst rows|by apply Hcar].
    intros p ctx [[<- <-]|[_ Hp]]%lookup_insert_Some; [|by rewrite lookup_empty in Hp].
    pose proof (reachable_ok _ (reachable_steps _ _ Hreach Hsteps)) as Hnet.
    by destruct (nok_pool _ Hnet _ Hcar) as (_ & _ & ?).
  - split; [apply Hh|]. eapply rows_sound_steps; [done..|apply Hh].
Qed.

(** *** Everything sent stands for a message *)
Definition goes net (c : Tx) (e : Envelope) : Prop :=
  sendable_envelope (E := E) e ∧ Forall (carried net (peer_of c)) (routed e).

(** The messages that a host may send are in the pool, and its state. *)
Record may_send net (q : Request) self : Prop := {
  ms_request : PullRequest (node_id self) (knowledge (replica_of self)) ∈ pool net;
  ms_answer : ∀ from cid K, q = DeltaRequest from cid K →
    ∃ K', DeltaResponse from K' (engine_delta_since (replica_of self) K) ∈ pool net;
  ms_state : Snapshot (knowledge (replica_of self)) (engine_full_state (replica_of self)) ∈ pool net
}.

Lemma advertisement_goes net q self c :
  engine_typed self → may_send net q self → goes net c (advertisement self).
Proof.
  intros Ht [Hadv _ _]. pose proof (advertisement_sendable _ Ht) as Hs. split; [done|].
  pose proof (routed_typed (E := E) (Tok := Tok) _ (proj1 Hs)) as Hr. revert Hr.
  unfold advertisement. rewrite routed_pull, !Forall_singleton. by intros Hr.
Qed.

Lemma answer_goes net q from cid K self c e :
  engine_typed self → coordinator_ok (gc self) → matrix_sound net (gc self) →
  q = DeltaRequest from cid K → may_send net q self →
  peer_of c = from → answer_to (Tx := Tx) self K e → goes net c e.
Proof.
  intros Ht Hok Hms Hq [Hadv Hdelta _] Hc Hans.
  pose proof (answer_sendable _ _ _ Ht Hans) as Hs. split; [done|].
  pose proof (routed_typed (E := E) (Tok := Tok) _ (proj1 Hs)) as Hr.
  destruct Hans as (delta & km & our & He & Hd & Hkm & Hour).
  assert (∀ K', our = Some K' → K' = knowledge (replica_of self)) as Hknow
    by (intros K' ->; by destruct Hour as [|[= ->]]).
  destruct (Hdelta _ _ _ Hq) as [K0 Hin]. rewrite Hc.
  destruct Hd as [-> | ->]; simpl in He.
  - destruct He as [?|(K' & -> & [= ->])]; [done|]. rewrite routed_pull, Forall_singleton in *.
    split; [done|]. by rewrite (Hknow K').
  - destruct He as (rk & Hrk & [= ->]). rewrite routed_op in *.
    apply Forall_cons in Hr as [Hr1 Hr2]. constructor.
    + split; [done|]. split.
      * eexists _, _. split; [|exact Hin]. apply decode_encode_orset_delta.
        destruct Ht as [_ _ Hset Hdvv _]. by apply delta_since_ok.
      * intros rows ->. destruct Hkm as [|[reg Hkm]]; [done|]. by eapply restricted_sound.
    + destruct rk as [K'|]; [|constructor]. case_decide; [constructor|].
      rewrite Forall_singleton in *. split; [done|].
      by rewrite (Hknow K') by (by destruct Hrk as [|<-]).
Qed.

(** *** A request handled is a run of the network *)
Lemma follows_ready net cl n q self committed :
  reachable net → carried net n q → in_flight cl n q → node_id self = n →
  follows net cl n (replica_of self) committed →
  ∃ net', rtc net_step net net' ∧ replicas net' = <[n := replica_of self]> (replicas net) ∧
    departed net' = departed net ∧ carries net' cl ∧ (∀ md, md ∈ committed → committed_in net' md) ∧
    may_send net' q self.
Proof.
  intros Hreach Hq Hin Hid (net1 & Hsteps1 & Heq1 & Hd1 & Hc1 & Hep1).
  assert (replicas net1 !! n = Some (replica_of self)) as Hr1 by (by rewrite Heq1, lookup_insert_eq).
  pose proof (reachable_steps _ _ Hreach Hsteps1) as Hreach1.
  set (messages := [PullRequest n (knowledge (replica_of self));
    Snapshot (knowledge (replica_of self)) (engine_full_state (replica_of self))]).
  set (answers := match q with
    | DeltaRequest from _ K => [DeltaResponse from K (engine_delta_since (replica_of self) K)]
    | _ => [] end).
  set (net2 := with_pool net1 (answers ++ pool net1)).
  assert (rtc net_step net1 net2) as Hsteps2.
  { unfold net2, answers. destruct q; simpl; try (destruct net1; apply rtc_refl).
    destruct (ca_flight _ _ Hc1 _ _ Hin) as [_ Hc]. by eapply rtc_once, step_answer. }
  set (net3 := with_pool net2 (messages ++ pool net2)).
  assert (rtc net_step net2 net3) as Hsteps3.
  { eapply rtc_l; [by apply (step_publish net2 n (replica_of self))|].
    match goal with |- rtc _ ?net0 _ => by apply rtc_once, (step_request net0 n (replica_of self)) end. }
  assert (rtc net_step net1 net3) as Hsteps by (by etrans).
  exists net3. split_and!; [by etrans|done|done| | |].
  - eapply carries_grow; [exact Hreach1|done| |done]. simpl. set_solver.
  - intros md Hmd. eapply epoch_recorded_later; [by apply later_of|by apply Hep1].
  - split; simpl; rewrite ?Hid.
    + left.
    + intros from cid K ->. exists K. simpl. do 2 right. left.
    + right. left.
Qed.

(** A change of one host, of the wire and of the bucket. *)
Lemma simulates_update net net' cl n h' wire' epochs' states' :
  simulates net cl → rtc net_step net net' → carries net' cl → departed net' = departed net →
  replicas net' = <[n := replica_of (h_engine h')]> (replicas net) → host_ok net' n h' →
  (∀ q, q ∈ h_requests h' → carried net' n q) →
  (∀ c e q, e ∈ queued (h_world h') c → q ∈ routed e → carried net' (peer_of c) q) →
  (∀ m b e q, (m, b) ∈ wire' → decode b = Ok e → q ∈ routed e → carried net' m q) →
  (∀ s, s ∈ states' → published net' s) → (∀ md, md ∈ epochs' → committed_in net' md) →
  simulates net' (update n h' wire' epochs' states' cl).
Proof.
  intros [Hreach Hrep Hgone Hhosts _] Hsteps [Hflight _ _] Hd Heq Hh' Hq1 Hq2 Hq3 Hs He. split; simpl.
  - by eapply reachable_steps.
  - by rewrite Heq, Hrep, fmap_insert.
  - by rewrite Hd.
  - intros m h1 [[<- <-]|[Hnm Hm]]%lookup_insert_Some; [done|].
    destruct (Hhosts _ _ Hm) as [? ? ? Hms ? ?]. split; try done. by eapply rows_sound_steps.
  - split; simpl; [|done..].
    intros m q [Hin|[[-> ?]|[(c & e & ? & <- & ?)|(b & e & ? & ? & ?)]]]%in_flight_update.
    + by apply Hflight.
    + by apply Hq1.
    + by eapply Hq2.
    + by eapply Hq3.
Qed.

Lemma handle_simulated net cl n h q rest self' replies w' committed new_states :
  simulates net cl → hosts cl !! n = Some h → h_requests h = q :: rest →
  handle registry_of exec debug_matrix (h_engine h) q (h_world h) = Some (self', replies, w') →
  follows net cl n (replica_of self') committed →
  (∀ s, s ∈ new_states → es_initiator_clock s = knowledge (replica_of self') ∧
     es_state_payload s = encode_delta (full_state (crdt self') (dvv self'))) →
  ∃ net', rtc net_step net net' ∧
    simulates net' (update n (mkHost self' w' rest) (wire cl) (committed ++ epochs cl)
                      (new_states ++ states cl) cl).
Proof.
  intros Hsim Hn Hq Hh Hfollows Hstates.
  pose proof (sim_hosts _ _ Hsim _ _ Hn) as Hho. pose proof (ca_flight _ _ (sim_carries _ _ Hsim)) as Hflight.
  assert (in_flight cl n q) as Hin by (left; exists h; split; [done|]; rewrite Hq; left).
  assert (node_id self' = n) as Hid.
  { destruct (handle_identity registry_of exec debug_matrix (h_engine h) q (h_world h))
      as (? & ? & ? & Hh' & Hid & _). rewrite Hh in Hh'. simplify_eq. rewrite Hid. apply Hho. }
  destruct (follows_ready net cl n q self' committed) as (net' & Hsteps & Heq & Hd & Hc & Hep & Hsend);
    [apply Hsim|by apply Hflight|done..|].
  pose proof (ca_flight _ _ Hc) as Hflight'.
  assert (engine_typed self') as Ht'.
  { eapply typed_after_effect; [apply Hho|apply (Hflight _ _ Hin)|exact Hh]. }
  destruct (coordinator_simulated net net' n h q self' replies w') as [Hok' Hms'];
    [apply Hsim|done|done|by apply Hflight'|exact Hh|].
  assert (sound queued world_ok (goes net') w') as [Hw' Hq'].
  { eapply (handle_sound registry_of exec debug_matrix); [exact Hh| | |].
    - split; [apply Hho|]. intros c. apply Forall_forall. intros e He. split.
      + by apply (proj1 (Forall_forall _ _) (ho_queues _ _ _ Hho c)).
      + apply Forall_forall. intros q' Hq'. apply Hflight'. right; left. by exists n, h, c, e.
    - intros c m _. by eapply advertisement_goes.
    - intros from cid K Hreq c e Hc'. by eapply answer_goes. }
  exists net'. split; [done|]. apply (simulates_update net net'); try done; simpl.
  - split; simpl; try done. intros c. eapply Forall_impl; [apply Hq'|]. by intros e [? _].
  - intros q' Hin'. apply Hflight'. left. exists h. split; [done|]. rewrite Hq. by right.
  - intros c e q' He Hqe. destruct (proj1 (Forall_forall _ _) (Hq' c) e He) as [_ Hall].
    by apply (proj1 (Forall_forall _ _) Hall).
  - intros m b e q' ? ? ?. apply Hflight'. right; right. by exists b, e.
  - intros s [Hs|Hs]%elem_of_app; [|by apply Hc]. destruct (Hstates s Hs) as [Hclock Hpay].
    destruct Ht' as [_ _ Hset Hdvv _]. split; rewrite Hclock; [by apply effective_map_ok|].
    exists (engine_full_state (replica_of self')). split; [|apply Hsend].
    rewrite Hpay. by apply decode_encode_orset_delta, full_state_ok.
  - intros md [Hmd|Hmd]%elem_of_app; [by apply Hep|by apply Hc].
Qed.

(** *** The other steps of a host leave the network as it is *)
Lemma quiet_simulated net cl n h w' requests' wire' :
  simulates net cl → hosts cl !! n = Some h → world_changes (h_world h) w' →
  (∀ q, q ∈ requests' → in_flight cl n q ∨ local_request q = true) →
  (∀ m b e q, (m, b) ∈ wire' → decode b = Ok e → q ∈ routed e → in_flight cl m q) →
  simulates net (update n (mkHost (h_engine h) w' requests') wire' (epochs cl) (states cl) cl).
Proof.
  intros Hsim Hn [Hok Hsub] Hreq Hwire. pose proof (sim_carries _ _ Hsim) as [Hflight Hst Hep].
  destruct (sim_hosts _ _ Hsim _ _ Hn) as [? ? ? ? ? Hqueues].
  apply (simulates_update net net); try done; simpl.
  - by rewrite insert_id by (by apply (sim_replica _ _ _ _ Hsim)).
  - split; try done. intros c. apply Forall_forall. intros e He.
    apply (proj1 (Forall_forall _ _) (Hqueues c)). by apply Hsub.
  - intros q Hq. destruct (Hreq q Hq) as [?|Hl]; [by apply Hflight|]. by destruct q.
  - intros c e q He Hqe. apply Hflight. right; left. exists n, h, c, e. split_and!; [done|by apply Hsub|done..].
  - intros m b e q ? ? ?. apply Hflight. by eapply Hwire.
Qed.

Lemma received_requests e (requests : list Request) :
  handle_received_envelope e tt requests = requests ++ routed e.
Proof. by apply (handle_routes (received := λ w _, w) (is_open := λ _ _, true)). Qed.

Lemma world_same w : world_ok w → world_changes w w.
Proof. done. Qed.

Lemma on_the_wire cl m b e q : (m, b) ∈ wire cl → decode b = Ok e → q ∈ routed e → in_flight cl m q.
Proof. intros ? ? ?. right; right. by exists b, e. Qed.

Lemma keep_simulated net cl wire' states' :
  simulates net cl → wire' ⊆ wire cl → states' ⊆ states cl → simulates net (keep wire' states' cl).
Proof.
  intros [? ? ? ? [Hflight Hst Hep]] Hw Hs. split; try done. split; simpl; [|by auto|done].
  intros m q Hin. apply Hflight. destruct Hin as [?|[?|(b & e & Hb & ? & ?)]]; [by left|by right; left|].
  apply (on_the_wire cl m b e); [by apply Hw|done..].
Qed.

(** *** Joining and leaving *)
Lemma leave_simulated net cl n h :
  simulates net cl → hosts cl !! n = Some h →
  ∃ net', rtc net_step net net' ∧ simulates net' (take_away n h cl).
Proof.
  intros Hsim Hn. pose proof (sim_replica _ _ _ _ Hsim Hn) as Hr.
  destruct (Hsim) as [Hreach Hrep Hgone Hhosts Hc].
  assert (rtc net_step net (leave_net net n (replica_of (h_engine h)))) as Hsteps
    by (by apply rtc_once, step_leave).
  eexists. split; [exact Hsteps|]. split; simpl.
  - by eapply reachable_steps.
  - by rewrite Hrep, fmap_delete.
  - by rewrite Hgone.
  - intros m h1 [_ Hm]%lookup_delete_Some. destruct (Hhosts _ _ Hm) as [? ? ? Hms ? ?].
    split; try done. by eapply rows_sound_steps.
  - apply (carries_grow _ _ _ Hreach Hsteps) in Hc as [Hflight Hst Hep]; [|done].
    split; simpl; [|done..]. intros m q Hin. apply Hflight.
    destruct Hin as [(h1 & Hm & Hq)|[(n1 & h1 & c & e & Hn1 & He)|?]]; simpl in *.
    + apply lookup_delete_Some in Hm as [_ Hm]. left. by exists h1.
    + apply lookup_delete_Some in Hn1 as [_ Hn1]. right; left. by exists n1, h1, c, e.
    + by right; right.
Qed.

Lemma bootstrapped_typed n cid (d : D) cfg s self' :
  rust_string n → rust_string cid → clock_ok (es_initiator_clock s) →
  node_id self' = n → crdt_id self' = cid →
  installed n s (local (CrdtEngineImpl.new n cid (OrSetImpl.new (E := E)) d cfg)) (local self') →
  engine_typed self'.
Proof.
  intros Hn Hcid Hclock Hid Hcid' (_ & Hgc & delta & Hd & Hcrdt & Hdvv).
  destruct (new_typed (E := E) n cid d cfg Hn Hcid) as [_ _ Hset Hv Hm].
  simpl in Hgc, Hcrdt, Hdvv. split; [by rewrite Hid|by rewrite Hcid'|..].
  - rewrite Hcrdt. apply merge_delta_ok; [done|]. exact (decode_delta_ok _ _ Hd).
  - rewrite Hdvv. apply merge_ok; [done|]. apply effective_map_ok. split; [split; [done|]|done]. simpl.
    destruct (es_initiator_clock s !! n) as [c|] eqn:Hc; [by destruct (Hclock n c Hc)|done].
  - rewrite Hgc. exact Hm.
Qed.

Lemma new_matrix_sound net cfg : matrix_sound net (GcCoordinatorImpl.new cfg).
Proof.
  intros p ctx. unfold GcCoordinatorImpl.new; simpl.
  destruct (gc_replica cfg); simpl; by rewrite lookup_empty.
Qed.

Lemma join_simulated net cl n fuel cid d cfg w self' w' :
  simulates net cl → hosts cl !! n = None → gone cl !! n = None → rust_string n → rust_string cid →
  let self := CrdtEngineImpl.new n cid OrSetImpl.new d cfg in
  new_replica_bootstrap exec fuel self w = Some (Ok tt, self', w') →
  (∀ s, answered (gc_calls exec (GcCoordinatorImpl.new_replica_bootstrap fuel n) self w)
          ReadEpochState s → es_epoch s = epoch (gc self') → s ∈ states cl) →
  world_ok w' → (∀ c, queued w' c = []) →
  ∃ net', rtc net_step net net' ∧ simulates net' (put n (mkHost self' w' []) cl).
Proof.
  intros Hsim Hnone Hgone Hn Hcid self Hboot Hstates Hw Hq.
  assert (node_id self' = n ∧ crdt_id self' = cid) as [Hid Hcid'].
  { unfold new_replica_bootstrap, run_gc in Hboot.
    destruct (run_prog exec _ w) as [[[r l] w1]|]; [|done]. by injection Hboot as _ <- _. }
  apply engine_bootstrap_effect in Hboot as (s & Hs & Hinst).
  assert (s ∈ states cl) as Hin by (apply Hstates; [done|apply Hinst]).
  destruct (ca_states _ _ (sim_carries _ _ Hsim) s Hin) as (Hclock & state & Hdec & Hmsg).
  assert (¬ used net n) as Hunused.
  { intros [Hu|Hu]; [|by rewrite (sim_gone _ _ Hsim), Hgone in Hu; destruct Hu].
    rewrite (sim_replicas _ _ Hsim), lookup_fmap, Hnone in Hu. by destruct Hu. }
  assert (replica_of self' = engine_bootstrap n (engine_new n) state (es_initiator_clock s)) as Hrep.
  { destruct Hinst as (_ & _ & delta & Hd & Hcrdt & Hdvv). simpl in Hd, Hcrdt, Hdvv.
    rewrite Hdec in Hd. injection Hd as <-. unfold replica_of. by rewrite Hcrdt, Hdvv. }
  pose proof (step_join net n (es_initiator_clock s) state Hmsg Hunused) as Hstep.
  apply rtc_once in Hstep as Hsteps. eexists. split; [exact Hsteps|].
  pose proof (carries_grow _ _ _ (sim_reachable _ _ Hsim) Hsteps ltac:(done) (sim_carries _ _ Hsim)) as Hc.
  apply (simulates_update net); try done; simpl.
  - by rewrite Hrep.
  - split; simpl; [done|by apply (bootstrapped_typed n cid d cfg s)| | |done|].
    + destruct Hinst as (_ & Hgc & _). simpl in Hgc. rewrite Hgc. exact (new_coordinator_ok cfg).
    + destruct Hinst as (_ & Hgc & _). simpl in Hgc. rewrite Hgc. exact (new_matrix_sound _ cfg).
    + intros c. rewrite Hq. constructor.
  - intros q Hin'. by apply elem_of_nil in Hin'.
  - intros c e q He. rewrite Hq in He. by apply elem_of_nil in He.
  - intros m b e q ? ? ?. apply (ca_flight _ _ Hc). by eapply on_the_wire.
  - apply Hc.
  - apply Hc.
Qed.

(** *** Every step *)
Lemma step_simulated net cl cl' :
  simulates net cl → timely_step cl cl' → ∃ net', rtc net_step net net' ∧ simulates net' cl'.
Proof.
  intros Hsim Hstep. pose proof (λ m b e q, on_the_wire cl m b e q) as Hw.
  assert (∀ n h q, hosts cl !! n = Some h → q ∈ h_requests h → in_flight cl n q) as Hr
    by (intros n h q ? ?; left; by exists h).
  destruct Hstep as [cl n h q Hn Hq|cl n h q rest self' replies w' Hn Hq Hcol Hmax Hh
    |cl n h rest self' replies w' Hn Hq Hh tr Htrue Htime|cl n h rest self' replies w' Hn Hq Hh Htrue
    |cl n h c e w' Hn He Hw'|cl m h b e wire' Hm Hb He Hwire|cl n h w' Hn Hw'|cl wire' states' Hwire Hst
    |cl n fuel cid d cfg w self' w' Hn Hg Hsn Hsc self Hboot Hst Hw' Hq|cl n h Hn].
  - exists net. split; [done|].
    eapply quiet_simulated; [done..|by apply world_same, (sim_hosts _ _ Hsim n)| |done].
    intros q' [?|Hq'%list_elem_of_singleton]%elem_of_app; subst; eauto.
  - eapply (handle_simulated _ _ _ _ _ _ _ _ _ [] []); [done..|by eapply follows_plain|set_solver].
  - destruct (follows_initiate net cl n h (h_world h) self' replies w') as [Hf Hs]; [done..|].
    by eapply handle_simulated.
  - eapply (handle_simulated _ _ _ _ _ _ _ _ _ [] []); [done..|by eapply follows_observe|set_solver].
  - exists net. split; [done|]. eapply quiet_simulated; [done..|by eauto|].
    intros m b e' q [[= -> ->]|Hin]%elem_of_cons Hd Hq; [|by eapply Hw].
    destruct (sim_hosts _ _ Hsim n h) as [_ _ _ _ _ Hqueues]; [done|].
    destruct (proj1 (Forall_forall _ _) (Hqueues c) e) as [Hok _]; [done|].
    rewrite (decode_encode (wf := envelope_ok)) in Hd by done. simplify_eq.
    right; left. by exists n, h, c, e'.
  - exists net. split; [done|]. rewrite received_requests.
    eapply quiet_simulated; [done..|by apply world_same, (sim_hosts _ _ Hsim m)| |].
    + intros q [?|?]%elem_of_app; left; eauto.
    + intros m' b' e' q Hin. apply Hw. set_solver.
  - exists net. split; [done|]. eapply quiet_simulated; [done..|by eauto|done].
  - exists net. split; [done|by apply keep_simulated].
  - by eapply join_simulated.
  - by apply leave_simulated.
Qed.

Lemma init_simulated cl : cluster_init cl → ∃ net, simulates net cl.
Proof.
  intros ((Hwire & Hgone & Hep) & Hst & Hinit).
  set (net := {| replicas := (λ h, replica_of (h_engine h)) <$> hosts cl;
    pool := (λ s, match OrSetImpl.decode_delta (es_state_payload s) with
                  | Ok state => Snapshot ∅ state
                  | Err _ => Snapshot ∅ (OrSetImpl.full_state OrSetImpl.new (Dvv.new ""))
                  end) <$> states cl;
    history := ∅; stable := ∅; departed := ∅; forgotten := ∅ |} : Net E).
  exists net. split; simpl; [|done|done| |].
  - exists net. split; [|apply rtc_refl]. split_and!; try done.
    + intros n r. simpl. rewrite lookup_fmap. intros (h & Hn & ->)%fmap_Some.
      destruct (Hinit n h Hn) as [(cid & d & cfg & _ & _ & ->) _]. done.
    + intros m (s & -> & Hs)%list_elem_of_fmap. destruct (Hst s Hs) as [_ [x Hx]].
      exists x. by rewrite Hx.
  - intros n h Hn. destruct (Hinit n h Hn) as [(cid & d & cfg & Hs & Hc & He) (_ & Hw & Hq)].
    split; rewrite ?He; [done|by apply new_typed|apply new_coordinator_ok|apply new_matrix_sound|done|].
    intros c. rewrite Hq. constructor.
  - split; [| |intros md Hmd; rewrite Hep in Hmd; by apply elem_of_nil in Hmd].
    + intros m q [(h & Hm & Hq)|[(n & h & c & e & Hn & He & _)|(b & e & Hb & _)]].
      * destruct (Hinit m h Hm) as [_ [Hr _]]. rewrite Hr in Hq. by apply elem_of_nil in Hq.
      * destruct (Hinit n h Hn) as [_ (_ & _ & Hnone)]. rewrite Hnone in He. by apply elem_of_nil in He.
      * rewrite Hwire in Hb. by apply elem_of_nil in Hb.
    + intros s Hs. destruct (Hst s Hs) as [Hclock [x Hx]]. unfold published. rewrite Hclock, Hx.
      split; [apply clock_ok_empty|]. eexists. split; [done|]. apply list_elem_of_fmap.
      exists s. split; [|done]. by rewrite Hx.
Qed.

Lemma cluster_simulated net cl cl' :
  simulates net cl → rtc timely_step cl cl' → ∃ net', rtc net_step net net' ∧ simulates net' cl'.
Proof.
  intros Hsim Hsteps. revert net Hsim.
  induction Hsteps as [cl|cl1 cl2 cl3 Hstep _ IH]; intros net Hsim; [by exists net|].
  destruct (step_simulated _ _ _ Hsim Hstep) as (net2 & Hn2 & Hsim2).
  destruct (IH _ Hsim2) as (net3 & Hn3 & Hsim3). exists net3. split; [by etrans|done].
Qed.
End cluster.
