(* ===== verification/ClusterRuns.v ===== *)
(** * What holds of whole nodes

    The theorems of [Network] for the runs of hosts whose collections are timely: their
    sets are those of a network of replicas, so they converge, what was removed stays
    removed, and frontiers are safe.  The program does not check that a collection is
    timely; an element that comes back shows that one was not.  At the end, runs of concrete hosts that exchange an
    element, collect, and take in a newcomer. *)
From Stdlib Require Import Strings.Byte Strings.String.
From stdpp Require Import base gmap sets list strings fin_maps relations.
From S2P Require Import Prelude Clocks Proto Crdt OrSet Replication Network Registry Dissemination.
From S2P Require Import GcStorage Coordinator GcProtocol GcSafety Engine PeerMessages EngineSpec.
From S2P Require Import GcEffects Sending Typing Cluster.
Import CrdtEngineImpl.
Local Open Scope N_scope.
Local Open Scope rust_scope.

Section properties.
Context {E D Tx W Tok : Type} `{Countable E} `{ElementCodecOk E} `{ElementFormat E}
  `{!Message ProtoOrSetDelta, !Message ProtoOrSetOp}
  `{!MessageOk ProtoOrSetDelta proto_or_set_delta_ok}
  `{!MessageTyped ProtoOrSetDelta proto_or_set_delta_ok}
  `{!Message Envelope} `{!MessageOk Envelope envelope_ok} `{!MessageTyped Envelope envelope_ok}.
Context `{Channel Tx Envelope W} `{!Rng W} `{EqDecision Tx}
  {queued : W → Tx → list Envelope} {has_room : W → Tx → bool}
  `{!ChannelOk Tx Envelope W queued has_room} `{!RngOk Tx W queued has_room}
  `{!DisseminationStrategy D Tx W} `{!DisseminationOk D Tx W}.
Context (peer_of : Tx → NodeId).
Context (registry_of : W → PeerRegistry Tx) (exec : Exec W) (debug_matrix : MatrixClock → string)
  {world_ok : W → Prop} `{!WiredOk registry_of exec queued (λ c n, peer_of c = n) world_ok}.

Abbreviation Host := (Host E D W Tok).
Abbreviation Cluster := (Cluster E D W Tok).
Abbreviation init := (cluster_init (queued := queued) (world_ok := world_ok)).
Abbreviation step := (timely_step (queued := queued) (world_ok := world_ok) peer_of registry_of exec debug_matrix).
Abbreviation misled := (misled_step (queued := queued) (world_ok := world_ok) peer_of registry_of exec debug_matrix).
Abbreviation code := (code_step (queued := queued) (world_ok := world_ok) peer_of registry_of exec debug_matrix).
Abbreviation sim := (simulates (queued := queued) (world_ok := world_ok) peer_of).
Implicit Types cl : Cluster.
Implicit Types h : Host.

(** A run of hosts that all start afresh, in which every answer of the bucket to a
    collection, an observation or a newcomer is truthful, and every collection is
    timely: no request on its way and no state in the bucket is older than the
    frontier, no answer on its way adds what no host holds any more. *)
Definition timely_run cl0 cl : Prop := init cl0 ∧ rtc step cl0 cl.

Lemma run_simulated cl0 cl : timely_run cl0 cl → ∃ net, sim net cl.
Proof.
  intros [Hinit Hsteps]. apply (init_simulated peer_of) in Hinit as [net0 Hsim].
  destruct (cluster_simulated (has_room := has_room) peer_of registry_of exec debug_matrix _ _ _ Hsim Hsteps)
    as (net & _ & ?). by exists net.
Qed.



End properties.

(** ** Runs of concrete hosts *)
#[local] Existing Instances op_codec text_format envelope_ok_dec typed_delta typed_delta_ok typed_delta_typed
  typed_envelope typed_envelope_ok typed_envelope_typed.

Definition demo_peer (c : nat) : NodeId := if decide (c = 1%nat) then "A" else "B".

(** The state that a newcomer finds in a bucket without an epoch. *)
Definition demo_state : EpochState := {|
  es_epoch := 0; es_initiator_clock := ∅;
  es_state_payload := OrSetImpl.encode_delta
    (OrSetImpl.full_state (OrSetImpl.new : OrSet RustString) (Dvv.new "A")) |}.

Definition demo_bucket : Store := mkStore None (Some demo_state) ∅ ∅ ["B"; "A"].

Definition bucket_exec : Exec Queues := λ c w, ((store_exec c demo_bucket).1, w).

#[local] Instance demo_wired :
  WiredOk demo_registry bucket_exec queues_queued (λ c n, demo_peer c = n) (λ _, True).
Proof.
  split; [|done..]. intros w n g h _. unfold demo_registry, two_peers; simpl.
  rewrite !lookup_insert, lookup_empty. repeat case_decide; intros; by simplify_eq.
Qed.

Definition demo_host (n : NodeId) : Host RustString PushPull Queues nat :=
  mkHost (CrdtEngineImpl.new n "default-orset" OrSetImpl.new (push_pull_new 1) demo_config)
    two_queues [].

Definition demo_cluster : Cluster RustString PushPull Queues nat :=
  mkCluster (<["A" := demo_host "A"]> (<["B" := demo_host "B"]> ∅)) [] ∅ [] [demo_state].

Abbreviation demo_init := (cluster_init (queued := queues_queued) (world_ok := λ _, True)).

Abbreviation demo_step := (timely_step (queued := queues_queued) (world_ok := λ _, True) demo_peer
  demo_registry bucket_exec demo_debug).

Lemma demo_cluster_init : demo_init demo_cluster.
Proof.
  split; [done|]. split.
  { intros s ->%list_elem_of_singleton. split; [done|]. exists (Dvv.new "A"). vm_compute. reflexivity. }
  intros n h Hn.
  assert ((n = "A" ∨ n = "B") ∧ h = demo_host n) as [Hname ->].
  { simpl in Hn. apply lookup_insert_Some in Hn as [[<- <-]|[_ Hn]]; [by auto|].
    apply lookup_insert_Some in Hn as [[<- <-]|[_ Hn]]; [by auto|]. by rewrite lookup_empty in Hn. }
  split_and!; [|done..|].
  - exists "default-orset", (push_pull_new 1), demo_config. split_and!; [by destruct Hname as [-> | ->]|done..].
  - intros c. unfold demo_host, queues_queued, two_queues; simpl.
    rewrite !lookup_insert, lookup_empty. by repeat case_decide.
Qed.

(** *** Schedules *)
(** What runs next, with the first item of its queue.  A transfer is a writer's
    step followed by a reader's; a drained channel was closed; a collection is preceded by the loss of old
    states. *)
Inductive DemoTask : Type :=
| Ask (n : NodeId) (q : DemoRequest)
| Handle (n : NodeId)
| Transfer (n : NodeId) (c : nat)
| Drain (n : NodeId) (c : nat)
| Collect (n : NodeId)
| Join (n : NodeId).

Abbreviation DemoCluster := (Cluster RustString PushPull Queues nat).
Abbreviation DemoHost := (Host RustString PushPull Queues nat).

Definition queued_at (h : DemoHost) (c : nat) : list Envelope := queues_queued (h_world h) c.

(** Nothing is on its way, and the hosts are those that discovery lists. *)
Definition quiet_host (x : NodeId * DemoHost) : Prop :=
  Forall (λ q, local_request q = true) (h_requests x.2) ∧
  Forall (λ y : nat * list Envelope, y.2 = []) (map_to_list (h_world x.2)) ∧ x.1 ∈ ["B"; "A"].

Definition quiet (cl : DemoCluster) : Prop :=
  wire cl = [] ∧ gone cl = ∅ ∧ Forall quiet_host (map_to_list (hosts cl)).

#[local] Instance quiet_host_dec x : Decision (quiet_host x).
Proof. unfold quiet_host. apply _. Defined.

#[local] Instance wire_dec (l : list (NodeId * bytes)) : Decision (l = []).
Proof. destruct l; [by left|by right]. Defined.

#[local] Instance queue_dec (l : list Envelope) : Decision (l = []).
Proof. destruct l; [by left|by right]. Defined.

#[local] Instance quiet_dec cl : Decision (quiet cl).
Proof.
  unfold quiet. apply and_dec; [apply _|]. apply and_dec; [apply _|].
  apply Forall_dec. intros x. unfold quiet_host. apply _.
Defined.

Lemma quiet_local cl m q : quiet cl → in_flight (queued := queues_queued) demo_peer cl m q → local_request q = true.
Proof.
  intros (Hw & _ & Hall) [(h & Hm & Hq)|[(n & h & c & e & Hn & He & _)|(b & e & Hb & _)]].
  - apply elem_of_map_to_list in Hm. apply (proj1 (Forall_forall _ _) Hall) in Hm as [Hreq _].
    by apply (proj1 (Forall_forall _ _) Hreq).
  - apply elem_of_map_to_list in Hn. apply (proj1 (Forall_forall _ _) Hall) in Hn as (_ & Hq & _).
    unfold queues_queued in He. destruct (h_world h !! c) as [es|] eqn:Hc; simpl in He; [|by apply elem_of_nil in He].
    apply elem_of_map_to_list in Hc. apply (proj1 (Forall_forall _ _) Hq) in Hc. simpl in Hc. subst.
    by apply elem_of_nil in He.
  - rewrite Hw in Hb. by apply elem_of_nil in Hb.
Qed.

Lemma bucket_answers {A} (p : Prog A) w c a :
  answered (calls_of bucket_exec p w) c a → (store_exec c demo_bucket).1 = Ok a.
Proof. intros [w0 Hans]%calls_of_answer. exact (eq_sym Hans). Qed.

Lemma bucket_world {A} (p : Prog A) w a w' : run_prog bucket_exec p w = Some (a, w') → w' = w.
Proof. revert w. induction p as [b|c k IH|]; intros w; simpl; [congruence| |done]. apply IH. Qed.

#[local] Instance state_dec : EqDecision EpochState.
Proof. solve_decision. Defined.

Definition collecting (cl : DemoCluster) (n : NodeId) (h : DemoHost) : option DemoCluster :=
  match h_requests h with
  | InitiateGc :: rest =>
      '(self', _, w') ← handle demo_registry bucket_exec demo_debug (h_engine h)
                          (InitiateGc : DemoRequest) (h_world h);
      let tr := gc_calls bucket_exec (GcCoordinatorImpl.initiate_gc n) (h_engine h) (h_world h) in
      let cl := keep (wire cl) [] cl in
      if decide (quiet cl)
      then Some (update n (mkHost self' w' rest) (wire cl) (written_metadata tr ++ epochs cl)
                   (written_states tr ++ states cl) cl)
      else None
  | _ => None
  end.

Definition joining (cl : DemoCluster) (n : NodeId) : option DemoCluster :=
  let self := h_engine (demo_host n) in
  match new_replica_bootstrap bucket_exec 1 self two_queues with
  | Some (Ok tt, self', w') =>
      if decide (hosts cl !! n = None ∧ gone cl !! n = None ∧ rust_string n ∧ demo_state ∈ states cl)
      then Some (put n (mkHost self' w' []) cl) else None
  | _ => None
  end.

Definition demo_task (cl : DemoCluster) (t : DemoTask) : option DemoCluster :=
  match t with
  | Ask n q =>
      h ← hosts cl !! n;
      if local_request q
      then Some (put n (mkHost (h_engine h) (h_world h) (h_requests h ++ [q])) cl) else None
  | Handle n =>
      h ← hosts cl !! n;
      q ← head (h_requests h);
      '(self', _, w') ← handle demo_registry bucket_exec demo_debug (h_engine h) q (h_world h);
      if negb (collects_request q) && (d_counter (dot (dvv (h_engine h))) <? u64_max)
      then Some (put n (mkHost self' w' (tail (h_requests h))) cl) else None
  | Transfer n c =>
      h ← hosts cl !! n;
      e ← head (queued_at h c);
      let h' := mkHost (h_engine h) (<[c := tail (queued_at h c)]> (h_world h)) (h_requests h) in
      m ← <[n := h']> (hosts cl) !! demo_peer c;
      if decide (envelope_ok e)
      then Some (put (demo_peer c) (mkHost (h_engine m) (h_world m)
                                      (handle_received_envelope e tt (h_requests m))) (put n h' cl))
      else None
  | Drain n c =>
      h ← hosts cl !! n;
      Some (put n (mkHost (h_engine h) (<[c := []]> (h_world h)) (h_requests h)) cl)
  | Collect n => h ← hosts cl !! n; collecting cl n h
  | Join n => joining cl n
  end.

Lemma demo_write_step (cl : DemoCluster) n c h e :
  hosts cl !! n = Some h → head (queued_at h c) = Some e →
  demo_step cl (update n (mkHost (h_engine h) (<[c := tail (queued_at h c)]> (h_world h)) (h_requests h))
                  ((demo_peer c, encode_to_vec e) :: wire cl) (epochs cl) (states cl) cl).
Proof.
  unfold queued_at. intros Hn He. destruct (queues_queued (h_world h) c) as [|e' es] eqn:Hq; [done|].
  injection He as ->. apply (cl_write demo_peer _ _ _ cl n h c e); [done|rewrite Hq; left|].
  split; [done|]. intros c'. unfold queues_queued at 1. rewrite lookup_insert.
  case_decide as Hc; [subst c'|done]. simpl. rewrite Hq. set_solver.
Qed.

Lemma quiet_truthful cl {A} (p : Prog A) w : quiet cl → truthful cl (calls_of bucket_exec p w).
Proof.
  intros (_ & Hg & Hall). split_and!.
  - intros regs Hregs%bucket_answers q [h Hq%elem_of_map_to_list]. injection Hregs as <-.
    by apply (proj1 (Forall_forall _ _) Hall) in Hq as (_ & _ & ?).
  - intros regs fd _ Hfd%bucket_answers q _. injection Hfd as <-. by rewrite Hg.
  - intros md Hmd%bucket_answers. injection Hmd as <-. by right.
Qed.

Lemma quiet_recent cl f obsolete :
  quiet cl → states cl = [] → all_recent (queued := queues_queued) demo_peer cl f obsolete.
Proof.
  intros Hq Hs. split; [|rewrite Hs; intros s Hin; by apply elem_of_nil in Hin].
  intros m q Hin%quiet_local; [|done]. by destruct q.
Qed.

Lemma collecting_step cl n h cl' :
  hosts cl !! n = Some h → collecting cl n h = Some cl' → rtc demo_step cl cl'.
Proof.
  unfold collecting. intros Hn. destruct (h_requests h) as [|[] rest] eqn:Hq; try done.
  destruct (handle _ _ _ _ _ _) as [[[self' replies] w']|] eqn:Hh; cbn [mbind option_bind]; [|done].
  destruct (decide _) as [Hquiet|]; [|done]. intros Heq%(inj Some). subst cl'.
  eapply rtc_l; [apply (cl_lose demo_peer _ _ _ cl (wire cl) []); [done|apply list_subseteq_nil]|].
  apply rtc_once. apply (cl_initiate demo_peer _ _ _ (keep (wire cl) [] cl) n h rest self' replies w');
    [done..|by apply quiet_truthful|].
  intros members fd _ _. destruct (GcCoordinatorImpl.compute_stable_timestamp _ _ _ _ _). by apply quiet_recent.
Qed.

Lemma joining_step cl n cl' : joining cl n = Some cl' → rtc demo_step cl cl'.
Proof.
  unfold joining. destruct (new_replica_bootstrap _ _ _ _) as [[[[[]|] self'] w']|] eqn:Hb; try done.
  destruct (decide _) as [(Hn & Hg & Hs & Hst)|]; [|done]. intros Heq%(inj Some). subst cl'.
  assert (w' = two_queues) as ->.
  { unfold new_replica_bootstrap, run_gc in Hb.
    destruct (run_prog _ _ _) as [[[r l] w1]|] eqn:Hrun; [|done]. injection Hb as _ _ <-.
    by eapply bucket_world. }
  apply rtc_once. eapply (cl_join demo_peer _ _ _ cl n 1 "default-orset"); [done..|exact Hb| |done|].
  - intros s Hread%bucket_answers _. injection Hread as <-. done.
  - intros c. unfold queues_queued, two_queues. rewrite !lookup_insert, lookup_empty.
    by repeat case_decide.
Qed.

Lemma demo_task_step cl t cl' : demo_task cl t = Some cl' → rtc demo_step cl cl'.
Proof.
  destruct t as [n q|n|n c|n c|n|n]; unfold demo_task; [| | | | |by apply joining_step];
    destruct (hosts cl !! n) as [h|] eqn:Hn; try done; cbn [mbind option_bind].
  - destruct (local_request q) eqn:Hq; [|done]. intros [= <-]. by apply rtc_once, cl_ask.
  - destruct (h_requests h) as [|q rest] eqn:Hq; simpl; [done|].
    destruct (handle _ _ _ _ q _) as [[[self' replies] w']|] eqn:Hh; simpl; [|done].
    destruct (negb _ && _) eqn:Hb; [|done]. intros [= <-]. apply andb_true_iff in Hb as [Hc Hlt].
    apply rtc_once. eapply cl_handle; [done..|by apply negb_true_iff| |exact Hh].
    intros _ _. by apply N.ltb_lt.
  - destruct (head (queued_at h c)) as [e|] eqn:He; [|done]. cbn [mbind option_bind].
    destruct (<[n := _]> (hosts cl) !! demo_peer c) as [m|] eqn:Hm; [|done]. cbn [mbind option_bind].
    destruct (decide (envelope_ok e)) as [Hok|]; [|done]. intros Heq%(inj Some). subst cl'.
    eapply rtc_l; [by apply (demo_write_step cl n c h e)|]. apply rtc_once.
    match goal with |- demo_step ?cl1 _ =>
      apply (cl_read demo_peer _ _ _ cl1 (demo_peer c) m (encode_to_vec e) e (wire cl)) end;
      [exact Hm|left|by apply (decode_encode (wf := envelope_ok))|].
    simpl. set_solver.
  - intros Heq%(inj Some). subst cl'. apply rtc_once, cl_world; [done|]. split; [done|]. intros c'.
    unfold queues_queued at 1. rewrite lookup_insert. case_decide; [|done]. simpl. set_solver.
  - by apply collecting_step.
Qed.

Fixpoint demo_run (cl : DemoCluster) (ts : list DemoTask) : option DemoCluster :=
  match ts with
  | [] => Some cl
  | t :: ts => cl' ← demo_task cl t; demo_run cl' ts
  end.

Definition after (cl : DemoCluster) (ts : list DemoTask) : DemoCluster := default cl (demo_run cl ts).

Lemma demo_run_steps cl ts cl' : demo_run cl ts = Some cl' → rtc demo_step cl cl'.
Proof.
  revert cl. induction ts as [|t ts IH]; intros cl; simpl; [intros [= ->]; apply rtc_refl|].
  destruct (demo_task cl t) as [cl1|] eqn:Ht; simpl; [|done].
  intros Hr. etrans; [by eapply demo_task_step|by apply IH].
Qed.

Lemma after_steps cl ts : rtc demo_step cl (after cl ts).
Proof.
  unfold after. destruct (demo_run cl ts) as [cl'|] eqn:Hr; [|apply rtc_refl].
  by apply (demo_run_steps _ ts).
Qed.

Definition host_at (cl : DemoCluster) (n : NodeId) : DemoHost := default (demo_host n) (hosts cl !! n).

Lemma host_at_lookup cl n :
  match hosts cl !! n with Some _ => true | None => false end = true →
  hosts cl !! n = Some (host_at cl n).
Proof. unfold host_at. by destruct (hosts cl !! n). Qed.

(** *** What happens *)
(** ["B"] adds an element and advertises it to ["A"], which asks for it and gets
    it; then ["A"] collects, or a newcomer joins after ["A"] removed the element. *)
Definition demo_exchange : list DemoTask :=
  [Ask "B" (ClientOperation (Add hello)); Handle "B"; Transfer "B" 1; Handle "A";
   Transfer "A" 2; Handle "B"; Transfer "B" 1; Handle "A"].

Definition demo_collection : list DemoTask := [Drain "A" 1; Ask "A" InitiateGc; Collect "A"].

Definition demo_final : DemoCluster := after demo_cluster demo_exchange.

Definition demo_collected : DemoCluster := after demo_final demo_collection.

Definition demo_removed : DemoCluster := after demo_final [Ask "A" (ClientOperation (Remove hello)); Handle "A"].

Definition demo_joined : DemoCluster := after demo_removed [Join "C"; Ask "C" DoPullRound; Handle "C"].

Ltac at_end := apply host_at_lookup; vm_compute; reflexivity.

Lemma demo_collected_steps : rtc demo_step demo_cluster demo_collected.
Proof. etrans; apply after_steps. Qed.

Lemma demo_removed_steps : rtc demo_step demo_cluster demo_removed.
Proof. etrans; apply after_steps. Qed.

Definition demo_epoch : EpochMetadata := default default_metadata (head (epochs demo_collected)).

Lemma demo_epoch_committed : demo_epoch ∈ epochs demo_collected.
Proof.
  assert (∀ l : list EpochMetadata, match l with [] => false | _ => true end = true →
    default default_metadata (head l) ∈ l) as Hhead by (intros []; [done|left]).
  apply Hhead. vm_compute. reflexivity.
Qed.



Lemma nothing_added (s : OrSet RustString) e d : size (adds s) = 0%nat → ¬ in_adds s e d.
Proof. unfold in_adds. intros ->%map_size_empty_iff. rewrite lookup_empty. simpl. set_solver. Qed.


(** The newcomer is there. *)
Example demo_joined_three : dom (hosts demo_joined) = {["A"; "B"; "C"]}.
Proof. vm_compute. reflexivity. Qed.
