(* ===== verification/SharedBucket.v ===== *)
(** * Whole nodes over one bucket

    The hosts of [Cluster], with the bucket they share: the calls of every host are
    made on it, nodes register before they join, and nodes that leave deposit their
    final counter.  The bucket is any type of the class [Bucket] that stands for a
    [Store] ([BucketOk]), and its calls may fail; [SharedS3] is the one of S3.
    What [Cluster] supposes of the answers that a collection relies on is proved
    here, so its theorems hold of every run of nodes that share a bucket and collect
    only when it is timely.  The whole of an initiation is one step, and so is the
    whole of a departure: [GcProtocol] and [GcOverS3] are about the calls of several. *)
From Stdlib Require Import Strings.Byte Strings.String.
From stdpp Require Import base gmap sets list strings fin_maps relations.
From S2P Require Import Prelude Clocks Proto Crdt OrSet Replication Network Registry Dissemination.
From S2P Require Import GcStorage Coordinator GcProtocol GcSafety Engine PeerMessages EngineSpec.
From S2P Require Import GcEffects Sending Typing Cluster ClusterRuns.
Import CrdtEngineImpl.
Local Open Scope N_scope.
Local Open Scope rust_scope.

(** ** A bucket *)
(** What the nodes do with it: the calls of the coordinator, a node that
    registers, a node that leaves with its final counter and state. *)
Class Bucket (B : Type) := {
  bucket_call : Exec B;
  enters : NodeId → B → B → Prop;
  departs : NodeId → Counter → bytes → B → B → Prop
}.

(** No call changes who is listed or what the departed have left, no node that
    comes or goes changes the records of an epoch. *)
Definition same_nodes (st st' : Store) : Prop :=
  st_members st' = st_members st ∧ st_final_dots st' = st_final_dots st.

Definition same_records (st st' : Store) : Prop :=
  st_metadata st' = st_metadata st ∧ st_state st' = st_state st.

(** What the nodes rely on, in terms of the storage that the bucket stands for.
    A call that fails may have been made or not; a node that did not manage to
    leave is still listed. *)
Class BucketOk (B : Type) `{Bucket B} (stands : B → Store → Prop) := {
  call_ok : ∀ c b st, stands b st →
    ∃ st', stands (bucket_call c b).2 st' ∧ (st' = st ∨ st' = (store_exec c st).2) ∧
      ∀ v, (bucket_call c b).1 = Ok v → store_exec c st = (Ok v, st');
  enters_ok : ∀ n b b' st, stands b st → enters n b b' →
    ∃ st', stands b' st' ∧ same_records st st' ∧ st_final_dots st' = st_final_dots st ∧
      ∀ p, p ∈ st_members st → p ∈ st_members st';
  departs_ok : ∀ n d x b b' st, stands b st → departs n d x b b' → d < u64_modulus →
    n ∈ st_members st → st_final_dots st !! n = None →
    ∃ st', stands b' st' ∧ same_records st st' ∧
      (∀ p, p ≠ n → st_final_dots st' !! p = st_final_dots st !! p) ∧
      (∀ p, p ≠ n → p ∈ st_members st → p ∈ st_members st') ∧
      (n ∉ st_members st' → st_final_dots st' !! n = Some d);
  one_state : ∀ b st st', stands b st → stands b st' → st_state st = st_state st'
}.

(** A part of the world is what the node sees of the bucket. *)
Class HasBucket (W B : Type) := {
  bucket_of : W → B;
  set_bucket : B → W → W
}.

Lemma reads_keep c st : is_read c = true → (store_exec c st).2 = st.
Proof. by destruct c. Qed.

Lemma exec_same_nodes c st : same_nodes st (store_exec c st).2.
Proof. destruct c; try done. simpl. by destruct (st_intents st !! _). Qed.

Section calls.
Context {W B : Type} `{HasBucket W B} `{Bucket B} {stands : B → Store → Prop} `{!BucketOk B stands}.

Definition shared_exec : Exec W := λ c w,
  let '(r, b) := bucket_call c (bucket_of w) in (r, set_bucket b w).

(** The same calls by a task that may not write. *)
Definition reading_exec : Exec W := λ c w,
  let '(r, b) := bucket_call c (bucket_of w) in (r, set_bucket (if is_read c then b else bucket_of w) w).

Lemma reading_run {A} (p : Prog A) w :
  read_only p → run_prog reading_exec p w = run_prog shared_exec p w.
Proof.
  revert w. induction p as [a|c k IH|]; intros w; simpl; [done| |done]. intros [Hc Hk].
  unfold reading_exec at 1, shared_exec at 1. rewrite Hc. destruct (bucket_call c (bucket_of w)). by apply IH.
Qed.

Context (Hset : ∀ b w, bucket_of (set_bucket b w) = b).

Lemma shared_call c w st :
  stands (bucket_of w) st →
  ∃ st', stands (bucket_of (shared_exec c w).2) st' ∧ (st' = st ∨ st' = (store_exec c st).2) ∧
    ∀ v, (shared_exec c w).1 = Ok v → store_exec c st = (Ok v, st').
Proof using Hset BucketOk0.
  intros (st' & Hst & Hor & Hv)%(call_ok c). unfold shared_exec. destruct (bucket_call c (bucket_of w)) as [r b].
  simpl in *. exists st'. by rewrite Hset.
Qed.

Lemma reading_call c w st :
  stands (bucket_of w) st → is_read c = true →
  stands (bucket_of (shared_exec c w).2) st ∧
  ∀ v, (shared_exec c w).1 = Ok v → (store_exec c st).1 = Ok v.
Proof using Hset BucketOk0.
  intros (st' & Hst & Hor & Hv)%(shared_call c) Hc%(reads_keep c st). rewrite Hc in Hor.
  assert (st' = st) as -> by tauto. split; [done|]. intros v Hr. by rewrite (Hv v Hr).
Qed.

Lemma only_reads_store {A} (p : Prog A) w a w' st :
  stands (bucket_of w) st → read_only p → run_prog shared_exec p w = Some (a, w') → stands (bucket_of w') st.
Proof using Hset BucketOk0.
  revert w. induction p as [b|c k IH|]; intros w Hst; simpl; [by intros _ [= _ <-]| |done]. intros [Hc Hk].
  destruct (reading_call c w st Hst Hc) as [Hst' _]. destruct (shared_exec c w) as [r w1]. by apply IH.
Qed.

(** An answer is that of the storage. *)
Definition right_answer (st : Store) (ev : Event) : Prop :=
  ∀ v, ev_resp ev = Ok v → (store_exec (ev_call ev) st).1 = Ok v.

(** What a program is told: of the bucket as it was, if it only reads. *)
Lemma only_reads_answer {A} (p : Prog A) w c v st :
  stands (bucket_of w) st → read_only p → answered (calls_of shared_exec p w) c v → (store_exec c st).1 = Ok v.
Proof using Hset BucketOk0.
  revert w. induction p as [b|c' k IH|]; intros w Hst; simpl;
    [by intros _ ?%elem_of_nil| |by intros _ ?%elem_of_nil].
  intros [Hc Hk]. destruct (reading_call c' w st Hst Hc) as [Hst' Hv].
  destruct (shared_exec c' w) as [r w1]. simpl in *. intros [Heq|Hin]%elem_of_cons; [|by eapply IH].
  change (right_answer st (mkEvent c' r)) in Hv. rewrite <- Heq in Hv. by apply Hv.
Qed.

Lemma calls_same_nodes {A} (p : Prog A) w c v st :
  stands (bucket_of w) st → answered (calls_of shared_exec p w) c v →
  ∃ st', same_nodes st st' ∧ (store_exec c st').1 = Ok v.
Proof using Hset BucketOk0.
  revert w st. induction p as [b|c' k IH|]; intros w st Hst; simpl; [by intros ?%elem_of_nil| |by intros ?%elem_of_nil].
  destruct (shared_call c' w st Hst) as (st' & Hst' & Hor & Hv). destruct (shared_exec c' w) as [r w1]. simpl in *.
  intros [Heq|Hin]%elem_of_cons.
  - exists st. split; [done|]. assert (right_answer st (mkEvent c' r)) as Hr
      by (intros x Hx; simpl in *; by rewrite (Hv x)). rewrite <- Heq in Hr. by apply Hr.
  - destruct (IH _ w1 st' Hst' Hin) as (st2 & [Hm Hf] & Hr). exists st2. split; [|done].
    destruct (exec_same_nodes c' st) as [Hm1 Hf1]. destruct Hor as [-> | ->]; split; congruence.
Qed.

(** What a run leaves in the bucket. *)
Record leaves (tr : list Event) (st st' : Store) : Prop := {
  lv_nodes : same_nodes st st';
  lv_metadata : st_metadata st' = st_metadata st ∨
    ∃ md, st_metadata st' = Some md ∧ md ∈ written_metadata tr;
  lv_state : st_state st' = st_state st ∨ ∃ s, st_state st' = Some s ∧ s ∈ written_states tr
}.

Lemma call_leaves c r st : leaves [mkEvent c r] st (store_exec c st).2.
Proof.
  split; [apply exec_same_nodes|..]; destruct c; simpl; try by left.
  all: try (destruct (st_intents st !! _); by left).
  all: right; eexists; split; [done|left].
Qed.

Lemma leaves_trans ev tr st st1 st2 : leaves [ev] st st1 → leaves tr st1 st2 → leaves (ev :: tr) st st2.
Proof.
  intros [[Hm Hf] H1 H2] [[Hm' Hf'] H1' H2']. change (ev :: tr) with ([ev] ++ tr).
  split; [split; congruence|..]; unfold written_metadata, written_states in *; setoid_rewrite omap_app;
    setoid_rewrite elem_of_app.
  - destruct H1' as [->|(md & ? & ?)]; [destruct H1 as [->|(md & ? & ?)]|]; eauto 6.
  - destruct H2' as [->|(x & ? & ?)]; [destruct H2 as [->|(x & ? & ?)]|]; eauto 6.
Qed.

Lemma run_leaves {A} (p : Prog A) w a w' st :
  stands (bucket_of w) st → run_prog shared_exec p w = Some (a, w') →
  ∃ st', stands (bucket_of w') st' ∧ leaves (calls_of shared_exec p w) st st'.
Proof using Hset BucketOk0.
  revert w st. induction p as [b|c k IH|]; intros w st Hst; simpl; [| |done].
  { intros [= _ <-]. exists st. split; [done|]. split; [done|by left|by left]. }
  destruct (shared_call c w st Hst) as (st1 & Hst1 & Hor & _). destruct (shared_exec c w) as [r w1]. simpl in *.
  intros Hrun. destruct (IH _ w1 st1 Hst1 Hrun) as (st' & Hst' & Hl). exists st'. split; [done|].
  eapply leaves_trans; [|exact Hl]. destruct Hor as [-> | ->]; [|apply call_leaves].
  split; [done|by left|by left].
Qed.
End calls.

(** ** What the engine reads *)
Section programs.
Context {C Op Delta : Type} `{DeltaCrdt C Op Delta}.
Implicit Types l : Local C.

Lemma log_metrics_reads id l : read_only (GcCoordinatorImpl.log_metrics id l).
Proof.
  unfold GcCoordinatorImpl.log_metrics. apply read_only_gc_bind; [done|intros l1 l2].
  case_match; [done|]. case_match; [|done].
  apply read_only_gc_bind; [split; [done|by intros []]|intros].
  apply read_only_gc_bind; [by split; [|intros []]|done].
Qed.

(** An initiation reads the metadata of the epoch before it does anything else,
    and never again. *)
Ltac quiet_call H := next_call H; constructor; [done|].
Ltac quiet_end H := by ended H; constructor.

Lemma initiate_reads_first id l tr res l' :
  trace_of (GcCoordinatorImpl.initiate_gc id l) tr (res, l') →
  ∃ r tr', tr = mkEvent ReadEpochMetadata r :: tr' ∧ Forall (λ ev, ev_call ev ≠ ReadEpochMetadata) tr'.
Proof.
  intros Htr. next_call Htr. exists r, tr0. split; [done|].
  destruct r as [previous|e]; [|quiet_end Htr].
  quiet_call Htr. destruct r as [regs|e]; [|quiet_end Htr].
  quiet_call Htr. destruct r as [[]|e]; [|quiet_end Htr..].
  quiet_call Htr. destruct r as [regs'|e]; [|quiet_end Htr].
  cbn in Htr. destruct (new_member_exists _ _); [quiet_call Htr; quiet_end Htr|].
  quiet_call Htr. destruct r as [fd|e]; [|quiet_end Htr].
  cbn in Htr. destruct (GcCoordinatorImpl.compute_stable_timestamp _ _ _ _ _) as [v obsolete].
  destruct (vv_leq _ _); [quiet_call Htr; quiet_end Htr|].
  unfold GcCoordinatorImpl.collect in Htr. cbn in Htr.
  destruct (foldl GcCoordinatorImpl.forget (l, v) (elements obsolete)) as [l1 v1]. cbn in Htr.
  quiet_call Htr. destruct r as [[]|e]; [|quiet_end Htr].
  quiet_call Htr. destruct r as [[]|e]; [|quiet_end Htr].
  quiet_call Htr. quiet_end Htr.
Qed.
End programs.

(** ** Nodes and their bucket *)
Record Shared (E D W Tok B : Type) `{Countable E} := mkShared {
  nodes : Cluster E D W Tok;
  bucket : B
}.
Arguments mkShared {E D W Tok B _ _}.
Arguments nodes {E D W Tok B _ _}.
Arguments bucket {E D W Tok B _ _}.

(** What a newcomer reads. *)
Definition current_state (st : Store) : EpochState := default default_state (st_state st).

(** The laws of the worlds: the bucket is a part of its own. *)
Class HasBucketOk (Tx W B : Type) `{Channel Tx Envelope W} `{Rng W} `{HasBucket W B}
    (queued : W → Tx → list Envelope) (world_ok : W → Prop) := {
  bucket_of_set : ∀ b w, bucket_of (set_bucket b w) = b;
  set_bucket_queued : ∀ b w c, queued (set_bucket b w) c = queued w c;
  set_bucket_ok : ∀ b w, world_ok w → world_ok (set_bucket b w);
  send_bucket : ∀ c e w, bucket_of (try_send c e w).2 = bucket_of w;
  choose_bucket : ∀ l w, bucket_of (choose l w).2 = bucket_of w
}.

Section shared.
Context {E D Tx W Tok B : Type} `{Countable E} `{ElementCodecOk E} `{ElementFormat E}
  `{!Message ProtoOrSetDelta, !Message ProtoOrSetOp}
  `{!MessageOk ProtoOrSetDelta proto_or_set_delta_ok}
  `{!MessageTyped ProtoOrSetDelta proto_or_set_delta_ok}
  `{!Message Envelope} `{!MessageOk Envelope envelope_ok} `{!MessageTyped Envelope envelope_ok}.
Context `{Channel Tx Envelope W} `{!Rng W} `{EqDecision Tx}
  {queued : W → Tx → list Envelope} {has_room : W → Tx → bool}
  `{!ChannelOk Tx Envelope W queued has_room} `{!RngOk Tx W queued has_room}
  `{!DisseminationStrategy D Tx W} `{!DisseminationOk D Tx W}.
Context `{!Bucket B} {stands : B → Store → Prop} `{!BucketOk B stands}.
Context (peer_of : Tx → NodeId) `{!HasBucket W B} {world_ok : W → Prop} `{!HasBucketOk Tx W B queued world_ok}.
Context (registry_of : W → PeerRegistry Tx) (debug_matrix : MatrixClock → string)
  `{!WiredOk registry_of shared_exec queued (λ c n, peer_of c = n) world_ok}.

Abbreviation Request := (CrdtEngineRequest (OrSetOp E) Tok).
Abbreviation Host := (Host E D W Tok).
Abbreviation Cluster := (Cluster E D W Tok).
Abbreviation Shared := (Shared E D W Tok B).
Abbreviation init := (cluster_init (queued := queued) (world_ok := world_ok)).
Abbreviation step := (timely_step (queued := queued) (world_ok := world_ok) peer_of registry_of
  shared_exec debug_matrix).
Abbreviation timely := (timely (queued := queued) peer_of).
Abbreviation world_changes := (world_changes (queued := queued) (world_ok := world_ok)).
Implicit Types cl : Cluster.
Implicit Types h : Host.
Implicit Types s : Shared.

(** An engine that runs sees the bucket as it is. *)
Definition seen s h : W := set_bucket (bucket s) (h_world h).

Definition looking s n h : Cluster := put n (mkHost (h_engine h) (seen s h) (h_requests h)) (nodes s).

(** A task of one host runs, or a node comes or goes.  [old] is the state of the
    bucket if it survived the collection: it is gone once a new one is written.  As in
    [timely_step], a collection that writes is timely, which no task checks. *)
Inductive shared_step : Shared → Shared → Prop :=
| sh_ask s n h q :
    hosts (nodes s) !! n = Some h → local_request q = true →
    shared_step s (mkShared (put n (mkHost (h_engine h) (h_world h) (h_requests h ++ [q])) (nodes s)) (bucket s))
| sh_handle s n h q rest self' replies w' :
    hosts (nodes s) !! n = Some h → h_requests h = q :: rest → collects_request q = false →
    (∀ op, q = ClientOperation op → d_counter (dot (dvv (h_engine h))) < u64_max) →
    handle registry_of shared_exec debug_matrix (h_engine h) q (seen s h) = Some (self', replies, w') →
    shared_step s (mkShared (put n (mkHost self' w' rest) (nodes s)) (bucket_of w'))
| sh_initiate s n h rest self' replies w' st' old :
    hosts (nodes s) !! n = Some h → h_requests h = InitiateGc :: rest →
    handle registry_of shared_exec debug_matrix (h_engine h) (InitiateGc : Request) (seen s h) =
      Some (self', replies, w') →
    let tr := gc_calls shared_exec (GcCoordinatorImpl.initiate_gc n) (h_engine h) (seen s h) in
    old ⊆ states (nodes s) → stands (bucket_of w') st' → current_state st' ∈ written_states tr ++ old →
    timely (keep (wire (nodes s)) old (looking s n h)) n (h_engine h) tr →
    shared_step s
      (mkShared (update n (mkHost self' w' rest) (wire (nodes s)) (written_metadata tr ++ epochs (nodes s))
                   [current_state st'] (nodes s))
         (bucket_of w'))
| sh_observe s n h rest self' replies w' :
    hosts (nodes s) !! n = Some h → h_requests h = ObserveEpochChange :: rest →
    handle registry_of shared_exec debug_matrix (h_engine h) (ObserveEpochChange : Request) (seen s h) =
      Some (self', replies, w') →
    shared_step s (mkShared (put n (mkHost self' w' rest) (nodes s)) (bucket_of w'))
| sh_write s n h c e w' :
    hosts (nodes s) !! n = Some h → e ∈ queued (h_world h) c → world_changes (h_world h) w' →
    shared_step s
      (mkShared (update n (mkHost (h_engine h) w' (h_requests h))
                   ((peer_of c, encode_to_vec e) :: wire (nodes s)) (epochs (nodes s)) (states (nodes s)) (nodes s))
         (bucket s))
| sh_read s m h b e wire' :
    hosts (nodes s) !! m = Some h → (m, b) ∈ wire (nodes s) → decode b = Ok e → wire' ⊆ wire (nodes s) →
    shared_step s
      (mkShared (update m (mkHost (h_engine h) (h_world h) (handle_received_envelope e tt (h_requests h)))
                   wire' (epochs (nodes s)) (states (nodes s)) (nodes s))
         (bucket s))
| sh_world s n h w' :
    hosts (nodes s) !! n = Some h → world_changes (h_world h) w' →
    shared_step s (mkShared (put n (mkHost (h_engine h) w' (h_requests h)) (nodes s)) (bucket s))
| sh_lose s wire' :
    wire' ⊆ wire (nodes s) → shared_step s (mkShared (keep wire' (states (nodes s)) (nodes s)) (bucket s))
| sh_register s n b' : enters n (bucket s) b' → shared_step s (mkShared (nodes s) b')
| sh_join s n fuel cid d cfg w self' w' :
    hosts (nodes s) !! n = None → gone (nodes s) !! n = None → rust_string n → rust_string cid →
    (∀ st, stands (bucket s) st → n ∈ st_members st) →
    let self := CrdtEngineImpl.new n cid OrSetImpl.new d cfg in
    new_replica_bootstrap shared_exec fuel self (set_bucket (bucket s) w) = Some (Ok tt, self', w') →
    world_ok w → (∀ c, queued w c = []) →
    shared_step s (mkShared (put n (mkHost self' w' []) (nodes s)) (bucket_of w'))
| sh_leave s n h b' :
    hosts (nodes s) !! n = Some h →
    (let '(final_dot, final_state) := get_final_state_for_deregistration (h_engine h) in
     departs n final_dot final_state (bucket s) b') →
    shared_step s (mkShared (take_away n h (nodes s)) b').

(** What the storage says is true: every host is listed, and the final counter of
    a node that is not listed is the one that it left with. *)
Record says cl (st : Store) : Prop := {
  sy_members : ∀ p, is_Some (hosts cl !! p) → p ∈ st_members st;
  sy_final_dots : ∀ p, p ∉ st_members st → st_final_dots st !! p = gone cl !! p;
  sy_departed : ∀ p, gone cl !! p = None → st_final_dots st !! p = None;
  sy_metadata : ∀ md, st_metadata st = Some md → md ∈ epochs cl;
  sy_state : states cl = [current_state st]
}.

Definition bucket_ok s : Prop := ∃ st, stands (bucket s) st ∧ says (nodes s) st.

(** ** Lemmas *)
Lemma update_put n h h' wire' epochs' states' cl :
  update n h' wire' epochs' states' (put n h cl) = update n h' wire' epochs' states' cl.
Proof. unfold update, put, update. simpl. by rewrite insert_insert_eq. Qed.

Lemma look_step s n h : hosts (nodes s) !! n = Some h → world_ok (h_world h) → step (nodes s) (looking s n h).
Proof using HasBucketOk0.
  intros Hn Hok. apply cl_world; [done|]. split; [by apply (set_bucket_ok (queued := queued))|].
  intros c. unfold seen. rewrite (set_bucket_queued (world_ok := world_ok)). done.
Qed.

Lemma seen_bucket s h : bucket_of (seen s h) = bucket s.
Proof using HasBucketOk0. apply (bucket_of_set (queued := queued)). Qed.

(** What is asked of the bucket about the nodes is answered truthfully. *)
Lemma told_of_nodes {A} cl (p : Prog A) w st :
  stands (bucket_of w) st →
  (∀ n, is_Some (hosts cl !! n) → n ∈ st_members st) →
  (∀ n, n ∉ st_members st → st_final_dots st !! n = gone cl !! n) →
  (∀ md, answered (calls_of shared_exec p w) ReadEpochMetadata md → md ∈ epochs cl ∨ em_epoch md = 0) →
  truthful cl (calls_of shared_exec p w).
Proof using HasBucketOk0 BucketOk0.
  intros Hst Hm Hf Hmd.
  assert (∀ regs, answered (calls_of shared_exec p w) ListLiveNodeIds regs → regs = st_members st) as Hregs.
  { intros regs Hin. apply (calls_same_nodes (bucket_of_set (queued := queued)) _ _ _ _ st Hst) in Hin
      as (st' & [<- _] & Hr). by injection Hr. }
  split_and!; [| |done].
  - intros regs ->%Hregs. apply Hm.
  - intros regs fd ->%Hregs Hin. apply (calls_same_nodes (bucket_of_set (queued := queued)) _ _ _ _ st Hst) in Hin
      as (st' & [_ Heq] & Hr). injection Hr as <-. rewrite Heq. apply Hf.
Qed.

(** A request that does not collect leaves the bucket alone. *)
Lemma handle_reading self (q : Request) w :
  collects_request q = false →
  handle registry_of reading_exec debug_matrix self q w = handle registry_of shared_exec debug_matrix self q w.
Proof.
  assert (∀ (self : CrdtEngine (OrSet E) D) w,
    log_metrics reading_exec self w = log_metrics shared_exec self w) as Hlog.
  { intros self1 w1. unfold log_metrics. by rewrite reading_run by apply log_metrics_reads. }
  destruct q; try done; intros _; simpl.
  - unfold server_pull_request. by rewrite Hlog.
  - unfold server_delta. destruct (decide _); [done|]. destruct (decode_delta payload); [|done].
    destruct knowledge_matrix; [|done]. by rewrite Hlog.
Qed.

Lemma reading_wired st :
  WiredOk registry_of reading_exec queued (λ _ _, True) (λ w, stands (bucket_of w) st).
Proof using HasBucketOk0 BucketOk0.
  split; try done.
  - intros c e w Hst. by rewrite (send_bucket (world_ok := world_ok) (queued := queued)).
  - intros l w Hst. by rewrite (choose_bucket (world_ok := world_ok) (queued := queued)).
  - intros c w Hst. unfold reading_exec. destruct (is_read c) eqn:Hc.
    + apply (reading_call (bucket_of_set (queued := queued)) c w st Hst) in Hc as [Hst' _].
      unfold shared_exec in Hst'. by destruct (bucket_call c (bucket_of w)).
    + destruct (bucket_call c (bucket_of w)). simpl. by rewrite (bucket_of_set (queued := queued)).
  - intros c w d. unfold reading_exec. destruct (bucket_call c (bucket_of w)). simpl.
    apply (set_bucket_queued (world_ok := world_ok)).
Qed.

Lemma handle_keeps_bucket self (q : Request) w self' replies w' st :
  stands (bucket_of w) st → collects_request q = false →
  handle registry_of shared_exec debug_matrix self q w = Some (self', replies, w') → stands (bucket_of w') st.
Proof using All.
  intros Hst Hq Hh. rewrite <- handle_reading in Hh by done. pose proof (reading_wired st) as Hwired.
  assert (sound queued (λ w', stands (bucket_of w') st) (λ _ _, True) w') as [Hs _]; [|done].
  eapply (handle_sound registry_of reading_exec debug_matrix (leads := λ _ _, True) (has_room := has_room));
    [exact Hh|split; [done|intros c; by apply Forall_true]|done..].
Qed.

(** *** What the storage says stays true *)
(** A run of the coordinator at a host, whatever it left in the bucket. *)
Lemma says_left cl st st' n h' wire' tr :
  says cl st → is_Some (hosts cl !! n) → leaves tr st st' →
  says (update n h' wire' (written_metadata tr ++ epochs cl) [current_state st'] cl) st'.
Proof.
  intros [Hm Hf Hd Hmd _] Hn [[Hmem Hdots] Hmeta _]. split; simpl; rewrite ?Hmem, ?Hdots; try done.
  - intros p. rewrite lookup_insert. case_decide; subst; auto.
  - intros md Heq. rewrite elem_of_app. destruct Hmeta as [Hsame|(md' & Hmd' & Hin)]; [right; apply Hmd|left]; congruence.
Qed.

(** A step of one host that leaves the bucket as it is. *)
Lemma says_put cl st n h' wire' :
  says cl st → is_Some (hosts cl !! n) → says (update n h' wire' (epochs cl) (states cl) cl) st.
Proof.
  intros Hs Hn. pose proof (says_left cl st st n h' wire' [] Hs Hn) as Hl. simpl in Hl.
  rewrite (sy_state _ _ Hs). apply Hl. split; [done|by left|by left].
Qed.

Lemma bucket_untouched s n h' wire' :
  bucket_ok s → is_Some (hosts (nodes s) !! n) →
  bucket_ok (mkShared (update n h' wire' (epochs (nodes s)) (states (nodes s)) (nodes s)) (bucket s)).
Proof. intros (st & Hst & Hs) Hn. exists st. split; [done|by apply says_put]. Qed.

Lemma run_gc_leaves {A} (m : GcM (OrSet E) A) (self : CrdtEngine (OrSet E) D) w r self' w' st :
  stands (bucket_of w) st → run_gc shared_exec m self w = Some (r, self', w') →
  ∃ st', stands (bucket_of w') st' ∧ leaves (gc_calls shared_exec m self w) st st'.
Proof using HasBucketOk0 BucketOk0.
  intros Hst. unfold run_gc, gc_calls.
  destruct (run_prog shared_exec (m (local self)) w) as [[[r1 l] w1]|] eqn:Hrun; [|done].
  intros [= _ _ <-]. by apply (run_leaves (bucket_of_set (queued := queued)) _ _ _ _ _ Hst) in Hrun.
Qed.

Lemma run_gc_reads {A} (m : GcM (OrSet E) A) (self : CrdtEngine (OrSet E) D) w r self' w' st :
  stands (bucket_of w) st → read_only (m (local self)) → run_gc shared_exec m self w = Some (r, self', w') →
  stands (bucket_of w') st.
Proof using HasBucketOk0 BucketOk0.
  intros Hst. unfold run_gc. destruct (run_prog shared_exec (m (local self)) w) as [[[r1 l] w1]|] eqn:Hrun; [|done].
  intros Hreads [= _ _ <-]. by eapply (only_reads_store (bucket_of_set (queued := queued))).
Qed.

(** The metadata that an initiation reads is that of an epoch: it reads it first. *)
Lemma initiate_metadata n (l : Local (OrSet E)) w st md a w' :
  stands (bucket_of w) st → run_prog shared_exec (GcCoordinatorImpl.initiate_gc n l) w = Some (a, w') →
  answered (calls_of shared_exec (GcCoordinatorImpl.initiate_gc n l) w) ReadEpochMetadata md →
  md = default default_metadata (st_metadata st).
Proof using HasBucketOk0 BucketOk0.
  intros Hst Hrun Hin. apply calls_of_trace in Hrun. destruct a as [res l'].
  apply initiate_reads_first in Hrun as (r & tr' & Htr & Hnone).
  assert (∃ k, GcCoordinatorImpl.initiate_gc n l = Call ReadEpochMetadata k) as [k Hk] by (eexists; reflexivity).
  destruct (reading_call (bucket_of_set (queued := queued)) ReadEpochMetadata w st Hst eq_refl) as [_ Hv].
  rewrite Hk in Hin, Htr. simpl in Hin, Htr. destruct (shared_exec ReadEpochMetadata w) as [r' w1].
  injection Htr as _ Htr. rewrite Htr in Hin. apply elem_of_cons in Hin as [Heq|Hin].
  - change (right_answer st (mkEvent ReadEpochMetadata r')) in Hv. rewrite <- Heq in Hv.
    specialize (Hv md eq_refl). by injection Hv.
  - by apply (proj1 (Forall_forall _ _) Hnone) in Hin.
Qed.

Lemma says_metadata cl st md :
  says cl st → md = default default_metadata (st_metadata st) → md ∈ epochs cl ∨ em_epoch md = 0.
Proof.
  intros Hs ->. destruct (st_metadata st) as [md|] eqn:Hmd; [left; by apply (sy_metadata _ _ Hs)|by right].
Qed.

Lemma says_looking s n h st p :
  says (nodes s) st → hosts (nodes s) !! n = Some h → is_Some (hosts (looking s n h) !! p) → p ∈ st_members st.
Proof.
  intros Hs Hn. simpl. rewrite lookup_insert. case_decide; subst; intros ?; apply (sy_members _ _ Hs); eauto.
Qed.

(** *** Every step is one of the hosts *)
Abbreviation sim := (simulates (queued := queued) (world_ok := world_ok) peer_of).
Abbreviation follows s s' := (rtc step (nodes s) (nodes s') ∧ bucket_ok s').

Lemma looking_host s n h : hosts (looking s n h) !! n = Some (mkHost (h_engine h) (seen s h) (h_requests h)).
Proof. apply lookup_insert_eq. Qed.

Lemma sim_world net s n h : sim net (nodes s) → hosts (nodes s) !! n = Some h → world_ok (h_world h).
Proof. intros Hsim Hn. by eapply ho_world, sim_hosts. Qed.

Lemma handle_follows net s n h q rest self' replies w' :
  sim net (nodes s) → bucket_ok s → hosts (nodes s) !! n = Some h → h_requests h = q :: rest →
  collects_request q = false →
  (∀ op, q = ClientOperation op → d_counter (dot (dvv (h_engine h))) < u64_max) →
  handle registry_of shared_exec debug_matrix (h_engine h) q (seen s h) = Some (self', replies, w') →
  follows s (mkShared (put n (mkHost self' w' rest) (nodes s)) (bucket_of w')).
Proof using All.
  intros Hsim (st & Hst & Hs) Hn Hq Hcol Hlt Hh. split.
  - eapply rtc_l; [apply look_step; [done|by eapply sim_world]|].
    cbn [nodes]. unfold put. rewrite <- (update_put n (mkHost (h_engine h) (seen s h) (h_requests h))).
    apply rtc_once. by eapply (cl_handle peer_of _ _ _ (looking s n h) n); [apply looking_host|..].
  - exists st. split; [|apply says_put; [done|by eexists]].
    eapply handle_keeps_bucket; [by rewrite seen_bucket|exact Hcol|exact Hh].
Qed.

Lemma observe_follows net s n h rest self' replies w' :
  sim net (nodes s) → bucket_ok s → hosts (nodes s) !! n = Some h → h_requests h = ObserveEpochChange :: rest →
  handle registry_of shared_exec debug_matrix (h_engine h) (ObserveEpochChange : Request) (seen s h) =
    Some (self', replies, w') →
  follows s (mkShared (put n (mkHost self' w' rest) (nodes s)) (bucket_of w')).
Proof using All.
  intros Hsim (st & Hst & Hs) Hn Hq Hh. assert (stands (bucket_of (seen s h)) st) as Hseen by by rewrite seen_bucket.
  split.
  - eapply rtc_l; [apply look_step; [done|by eapply sim_world]|].
    cbn [nodes]. unfold put. rewrite <- (update_put n (mkHost (h_engine h) (seen s h) (h_requests h))).
    apply rtc_once. eapply (cl_observe peer_of _ _ _ (looking s n h) n); [apply looking_host|done|exact Hh|].
    unfold gc_calls. apply (told_of_nodes _ _ _ st); [done|intros p; by apply says_looking|apply Hs|].
    intros md Hin. apply (only_reads_answer (bucket_of_set (queued := queued)) _ _ _ _ st Hseen) in Hin;
      [|apply observe_read_only]. injection Hin as <-. by eapply (says_metadata (nodes s)).
  - exists st. split; [|apply says_put; [done|by eexists]].
    simpl in Hh. unfold observe_epoch_change in Hh.
    destruct (run_gc _ _ _ _) as [[[r s1] w1]|] eqn:Hrun; [|done]. injection Hh as -> _ ->.
    eapply run_gc_reads; [exact Hseen|apply observe_read_only|exact Hrun].
Qed.

Lemma initiate_follows net s n h rest self' replies w' st' old :
  sim net (nodes s) → bucket_ok s → hosts (nodes s) !! n = Some h → h_requests h = InitiateGc :: rest →
  handle registry_of shared_exec debug_matrix (h_engine h) (InitiateGc : Request) (seen s h) =
    Some (self', replies, w') →
  let tr := gc_calls shared_exec (GcCoordinatorImpl.initiate_gc n) (h_engine h) (seen s h) in
  old ⊆ states (nodes s) → stands (bucket_of w') st' → current_state st' ∈ written_states tr ++ old →
  timely (keep (wire (nodes s)) old (looking s n h)) n (h_engine h) tr →
  follows s (mkShared (update n (mkHost self' w' rest) (wire (nodes s)) (written_metadata tr ++ epochs (nodes s))
               [current_state st'] (nodes s)) (bucket_of w')).
Proof using All.
  intros Hsim (st & Hst & Hs) Hn Hq Hh tr Hold Hst' Hcur Htimely.
  assert (stands (bucket_of (seen s h)) st) as Hseen by by rewrite seen_bucket.
  assert (node_id (h_engine h) = n) as Hid by by eapply ho_node, sim_hosts.
  assert (∃ r, run_gc shared_exec (GcCoordinatorImpl.initiate_gc n) (h_engine h) (seen s h) =
    Some (r, self', w')) as [r Hrun].
  { simpl in Hh. unfold initiate_gc in Hh. rewrite Hid in Hh.
    destruct (run_gc _ _ _ _) as [[[r s1] w1]|]; [|done]. injection Hh as -> _ ->. by exists r. }
  set (cl1 := keep (wire (nodes s)) old (looking s n h)).
  assert (truthful cl1 tr) as Htruth.
  { apply (told_of_nodes _ _ _ st); [done|intros p; by apply says_looking|apply Hs|].
    intros md Hin. apply (says_metadata (nodes s) st); [done|]. unfold run_gc in Hrun.
    destruct (run_prog _ _ _) as [[a w1]|] eqn:Hprog; [|done].
    by eapply (initiate_metadata n _ _ st md a w1 Hseen Hprog). }
  split.
  - eapply rtc_l; [apply look_step; [done|by eapply sim_world]|]. cbn [nodes].
    eapply rtc_l; [by apply (cl_lose peer_of _ _ _ (looking s n h) (wire (nodes s)) old)|].
    set (mid := update n (mkHost self' w' rest) (wire (nodes s)) (written_metadata tr ++ epochs (nodes s))
      (written_states tr ++ old) cl1).
    apply (rtc_l _ _ mid).
    { by apply (cl_initiate peer_of registry_of shared_exec debug_matrix cl1 n
        (mkHost (h_engine h) (seen s h) (h_requests h)) rest self' replies w'); [apply looking_host|..]. }
    apply rtc_once. rewrite <- (update_put n (mkHost (h_engine h) (seen s h) (h_requests h))).
    apply (cl_lose peer_of _ _ _ mid (wire (nodes s)) [current_state st']); [done|].
    by intros y ->%list_elem_of_singleton.
  - destruct (run_gc_leaves _ _ _ _ _ _ _ Hseen Hrun) as (st1 & Hst1 & Hleaves). exists st1. split; [done|].
    assert (current_state st' = current_state st1) as ->
      by (unfold current_state; by rewrite (one_state (bucket_of w') st' st1)).
    apply (says_left (nodes s) st); [done|by eexists|done].
Qed.

Lemma join_follows s n fuel cid d cfg w self' w' :
  bucket_ok s → hosts (nodes s) !! n = None → gone (nodes s) !! n = None → rust_string n → rust_string cid →
  (∀ st, stands (bucket s) st → n ∈ st_members st) →
  let self := CrdtEngineImpl.new n cid OrSetImpl.new d cfg in
  new_replica_bootstrap shared_exec fuel self (set_bucket (bucket s) w) = Some (Ok tt, self', w') →
  world_ok w → (∀ c, queued w c = []) →
  follows s (mkShared (put n (mkHost self' w' []) (nodes s)) (bucket_of w')).
Proof using All.
  intros (st & Hst & Hs) Hn Hg Hrn Hrc Hmem self Hb Hw Hq.
  assert (stands (bucket_of (set_bucket (bucket s) w)) st) as Hseen
    by by rewrite (bucket_of_set (queued := queued)).
  unfold new_replica_bootstrap in Hb.
  assert (sound queued world_ok (λ _ _, False) w') as [Hw' Hq'].
  { eapply (run_gc_sound registry_of shared_exec); [exact Hb|]. split; [by apply (set_bucket_ok (queued := queued))|].
    intros c. rewrite (set_bucket_queued (world_ok := world_ok)), Hq. constructor. }
  split.
  - apply rtc_once. apply (cl_join peer_of registry_of shared_exec debug_matrix (nodes s) n fuel cid d cfg
      (set_bucket (bucket s) w)); [done..|exact Hb| |done|].
    + intros x Hin _.
      apply (only_reads_answer (bucket_of_set (queued := queued)) _ _ _ _ st Hseen) in Hin; [|apply bootstrap_read_only].
      injection Hin as <-. rewrite (sy_state _ _ Hs). left.
    + intros c. specialize (Hq' c). by destruct (queued w' c) as [|e l]; [|inversion Hq'].
  - exists st. split; [eapply run_gc_reads; [exact Hseen|apply bootstrap_read_only|exact Hb]|].
    destruct Hs as [Hm Hf Hd Hmd Hs]. split; [|done..]. intros p. simpl. rewrite lookup_insert.
    case_decide; subst; auto.
Qed.

Lemma register_follows s n b' : bucket_ok s → enters n (bucket s) b' → follows s (mkShared (nodes s) b').
Proof using BucketOk0.
  intros (st & Hst & [Hm Hf Hd Hmd Hs]) Hn. split; [apply rtc_refl|].
  destruct (enters_ok n _ _ st Hst Hn) as (st' & Hst' & [Hmeta Hstate] & Hdots & Hmem). exists st'.
  split; [done|]. split; simpl; rewrite ?Hdots; auto.
  - by rewrite Hmeta.
  - unfold current_state. by rewrite Hstate.
Qed.

Lemma leave_follows net s n h b' :
  sim net (nodes s) → bucket_ok s → hosts (nodes s) !! n = Some h →
  (let '(final_dot, final_state) := get_final_state_for_deregistration (h_engine h) in
   departs n final_dot final_state (bucket s) b') →
  follows s (mkShared (take_away n h (nodes s)) b').
Proof using All.
  intros Hsim (st & Hst & [Hm Hf Hd Hmd Hs]) Hn Hdep. split; [by apply rtc_once, cl_leave|].
  assert (gone (nodes s) !! n = None) as Hgone.
  { rewrite <- (sim_gone _ _ _ Hsim). destruct (departed net !! n) as [c|] eqn:Hc; [|done].
    apply (nok_departed _ (sim_ok _ _ _ Hsim)) in Hc.
    by rewrite (sim_replicas _ _ _ Hsim), lookup_fmap, Hn in Hc. }
  destruct (departs_ok n _ _ _ b' st Hst Hdep) as (st' & Hst' & [Hmeta Hstate] & Hother & Hmem & Hown);
    [|by apply Hm; eexists|by apply Hd|].
  { destruct (et_dvv _ (ho_typed _ _ _ (sim_hosts _ _ _ Hsim _ _ Hn))) as [[_ Hc] _]. exact Hc. }
  exists st'. split; [done|]. split; simpl.
  - intros p. rewrite lookup_delete. case_decide as Hp; [by intros [? ?]|]. auto.
  - intros p Hp. rewrite lookup_insert. case_decide as Hpn; [subst p; by apply Hown|].
    rewrite Hother by done. auto.
  - intros p. rewrite lookup_insert. case_decide as Hpn; [done|]. rewrite Hother by done. apply Hd.
  - by rewrite Hmeta.
  - unfold current_state. by rewrite Hstate.
Qed.

Lemma shared_step_follows net s s' :
  sim net (nodes s) → bucket_ok s → shared_step s s' → follows s s'.
Proof using All.
  intros Hsim Hok Hstep.
  assert (∀ n h, hosts (nodes s) !! n = Some h → is_Some (hosts (nodes s) !! n)) as Hhost by (intros; by eexists).
  destruct Hstep.
  - split; [by apply rtc_once, cl_ask|]. by eapply bucket_untouched, Hhost.
  - by eapply handle_follows.
  - by eapply initiate_follows.
  - by eapply observe_follows.
  - split; [by eapply rtc_once, cl_write|]. by eapply bucket_untouched, Hhost.
  - split; [by eapply rtc_once, cl_read|]. by eapply bucket_untouched, Hhost.
  - split; [by eapply rtc_once, cl_world|]. by eapply bucket_untouched, Hhost.
  - split; [by apply rtc_once, cl_lose|]. destruct Hok as (st & Hst & []). exists st. by repeat split.
  - by eapply register_follows.
  - by eapply join_follows.
  - by eapply leave_follows.
Qed.

(** ** Runs *)
(** A run of nodes that all start afresh on a bucket that lists them. *)
Definition shared_run s0 s : Prop := init (nodes s0) ∧ bucket_ok s0 ∧ rtc shared_step s0 s.

Abbreviation timely_run := (timely_run (queued := queued) (world_ok := world_ok) peer_of registry_of
  shared_exec debug_matrix).

(** The nodes are a run of [Cluster], and the bucket stands for a storage that
    says what is true of them. *)
Lemma shared_run_follows s0 s : shared_run s0 s → timely_run (nodes s0) (nodes s) ∧ bucket_ok s.
Proof using All.
  intros (Hinit & Hok0 & Hsteps). apply (init_simulated peer_of) in Hinit as Hsim. destruct Hsim as [net0 Hsim].
  assert (rtc step (nodes s0) (nodes s) ∧ bucket_ok s) as [Hrun Hok]; [|done].
  clear Hinit. revert net0 Hsim. induction Hsteps as [s|s s1 s2 Hstep Hsteps IH]; intros net Hsim; [by split; [apply rtc_refl|]|].
  destruct (shared_step_follows net s s1) as [Hs1 Hok1]; [done..|].
  destruct (cluster_simulated (has_room := has_room) peer_of registry_of shared_exec debug_matrix _ _ _ Hsim Hs1)
    as (net1 & _ & Hsim1).
  destruct (IH Hok1 net1 Hsim1) as [Hrun Hok]. split; [by etrans|done].
Qed.
End shared.
