(* ===== verification/SharedS3.v ===== *)
(** * Whole nodes over one S3 bucket

    The bucket of [SharedBucket] as the objects of S3: the calls are those of the
    S3 storage ([s3_exec]), nodes come and go by [register] and [deregister] of
    discovery, and every request to the service may fail, before or after it was
    applied.  A run of nodes on such a bucket whose collections are timely is a run of
    [Cluster], and the objects say what is true of the nodes. *)
From Stdlib Require Import Strings.Byte Strings.String Strings.Ascii.
From stdpp Require Import base gmap sets list strings fin_maps relations.
From S2P Require Import Prelude Text S3 Discovery Clocks Proto Crdt OrSet Replication Network Registry Dissemination.
From S2P Require Import GcStorage Coordinator S3Storage GcProtocol GcSafety GcOverS3 Engine PeerMessages EngineSpec.
From S2P Require Import GcEffects Sending Typing Cluster ClusterRuns SharedBucket.
Import CrdtEngineImpl S3ClientImpl S3GcStorageImpl.
Local Open Scope N_scope.
Local Open Scope string_scope.

(** ** The bucket *)
Section bucket.
Context {B T : Type} `{AwsS3 B} `{Chrono T}
  `{Json EpochMetadata} `{Json EpochState} `{Json GcIntentRecord}.
Context (cfg : GcStorageConfig) (fuel_for : B → nat).

(** A node whose id has an underscore never leaves its final counter in a key that
    is read, so it is not among those that leave. *)
#[local] Instance s3_bucket : Bucket B := {|
  bucket_call c b :=
    match s3_exec (T := T) (fuel_for b) cfg c b with
    | Some x => x
    | None => (Err "the listing did not end", b)
    end;
  enters n b b' := ∃ (self : Discovery) (expiry : result T) r,
    d_self_id self = n ∧ dc_bucket (d_config self) = bucket cfg ∧
    register (fuel_for b) self expiry b = Some (r, b');
  departs n d x b b' := ∃ (self : Discovery) r,
    d_self_id self = n ∧ dc_bucket (d_config self) = bucket cfg ∧ char_free "_"%char n = true ∧
    deregister (fuel_for b) self (cfg_prefix cfg) d x b = Some (r, b')
|}.

Context {objects : B → string → gmap string bytes} `{!AwsS3Ok B objects}
  `{!JsonOk EpochMetadata} `{!JsonOk EpochState} `{!JsonOk GcIntentRecord}.
Hypothesis apart : apart_from_nodes cfg.
Hypothesis trimmed : trim_end_matches "/"%char (cfg_prefix cfg) = cfg_prefix cfg.
Hypothesis Hfuel : ∀ b, enough cfg (fuel_for b) b.

Abbreviation objs b := (objects b (bucket cfg)).

Definition s3_stands (b : B) (st : Store) : Prop := store_rel (T := T) cfg (objs b) st.

(** ** What discovery changes *)
Lemma register_keys (self : Discovery) (expiry : result T) b r b' :
  dc_bucket (d_config self) = bucket cfg → register (fuel_for b) self expiry b = Some (r, b') →
  objs b' = objs b ∨
  ∃ k v, starts_with (registration_key_prefix (d_self_id self)) k = true ∧ objs b' = <[k := v]> (objs b).
Proof using AwsS3Ok0 Hfuel.
  intros Hb. unfold register. rewrite Hb. destruct expiry as [t|e]; [|by intros [= _ <-]; left].
  destruct (list_object_keys_ok (fuel_for b) (bucket cfg) (registration_key_prefix (d_self_id self)) b
    (Hfuel b _)) as (l & b1 & -> & Hobj & _). simpl.
  destruct l as [keys|e]; [|by intros [= _ <-]; left]. case_decide; [|by intros [= _ <-]; left].
  intros [= Hput].
  pose proof (put_object_ok (bucket cfg) (registration_key (d_self_id self) t (dc_gc_replica (d_config self))
    (listen_host self ++ ":" ++ listen_port self)) [x22; x22] "application/json" b1) as Hp.
  rewrite Hput, Hobj in Hp. destruct Hp as [Hp|[_ Hp]]; [right|by left].
  eexists _, _. split; [|exact Hp]. apply registration_key_own.
Qed.

Lemma delete_loop_others keys b k :
  k ∉ keys → objs (foldl (λ w old_key, (delete_object (bucket cfg) old_key w).2) b keys) !! k = objs b !! k.
Proof using AwsS3Ok0.
  revert b. induction keys as [|k' keys IH]; intros b; simpl; [done|].
  intros [Hne Hk]%not_elem_of_cons. rewrite IH by done.
  pose proof (delete_object_ok (bucket cfg) k' b) as Hd.
  destruct (delete_object (bucket cfg) k' b) as [r b1]. simpl in *.
  destruct Hd as [-> | [_ ->]]; [|done]. by rewrite lookup_delete_ne.
Qed.

Lemma final_dot_key_records n d :
  starts_with DISCOVERY_NODES_PREFIX (final_dot_key cfg n d) = false.
Proof using apart trimmed. unfold final_dot_key. rewrite <- trimmed. apply apart. Qed.

Lemma deregister_keys (self : Discovery) d x b r b' :
  let n := d_self_id self in
  dc_bucket (d_config self) = bucket cfg →
  deregister (fuel_for b) self (cfg_prefix cfg) d x b = Some (r, b') →
  (∀ k, starts_with (registration_key_prefix n) k = false → k ≠ final_dot_key cfg n d → objs b' !! k = objs b !! k) ∧
  (objs b' = objs b ∨ objs b' !! final_dot_key cfg n d = Some x).
Proof using AwsS3Ok0 Hfuel apart trimmed.
  intros n Hb. unfold deregister. rewrite Hb. fold n. fold (final_dot_key cfg n d).
  destruct (list_object_keys_ok (fuel_for b) (bucket cfg) (registration_key_prefix n) b (Hfuel b _))
    as (l & b1 & -> & Hobj & Hl). simpl.
  destruct l as [keys|e]; [|intros [= _ <-]; rewrite Hobj; by split; [|left]]. subst keys.
  pose proof (put_object_ok (bucket cfg) (final_dot_key cfg n d) x "application/json" b1) as Hput.
  rewrite Hobj in Hput.
  destruct (put_object _ _ x _ b1) as [[[]|e] b2]; intros [= _ <-].
  - destruct Hput as [Hput|[? _]]; [|done].
    assert (∀ k, starts_with (registration_key_prefix n) k = false →
      k ∉ listing (registration_key_prefix n) (objs b)) as Hout.
    { intros k Hk [Hs _]%elem_of_listing. congruence. }
    split.
    + intros k Hk Hne. rewrite delete_loop_others by by apply Hout. by rewrite Hput, lookup_insert_ne.
    + right. rewrite delete_loop_others; [by rewrite Hput, lookup_insert_eq|]. apply Hout.
      apply not_true_iff_false. intros Hs%registration_prefix_nodes. by rewrite final_dot_key_records in Hs.
  - destruct Hput as [Hput|[_ Hput]]; rewrite Hput; [|by split; [|left]].
    split; [intros k _ Hne; by rewrite lookup_insert_ne|right; apply lookup_insert_eq].
Qed.

(** ** The bucket keeps its promises *)
(** The storage that changed objects stand for, when no record changed. *)
Lemma stands_again b b' st :
  s3_stands b st → only_nodes cfg (objects := objects) b b' →
  s3_stands b' (mkStore (st_metadata st) (st_state st) (st_intents st)
    (collect_final_dots cfg (listing (final_dots_key_prefix cfg) (objs b'))) (live_ids_of (T := T) (objs b'))).
Proof using apart trimmed.
  intros [Hm Hs Hi _ _] Hsame.
  assert (∀ k, record_key cfg k → objs b' !! k = objs b !! k) as Hrec.
  { intros k Hk. apply Hsame. by apply record_not_node. }
  split; simpl; [by rewrite Hrec; [|left]|by rewrite Hrec; [|right; left]| |done..].
  intros n. rewrite Hrec; [done|]. right; right. by eexists.
Qed.

Lemma s3_enters_ok n b b' st :
  s3_stands b st → enters n b b' →
  ∃ st', s3_stands b' st' ∧ same_records st st' ∧ st_final_dots st' = st_final_dots st ∧
    ∀ p, p ∈ st_members st → p ∈ st_members st'.
Proof using AwsS3Ok0 Hfuel apart trimmed.
  intros Hst (self & expiry & r & <- & Hb & Hreg). eexists. split.
  { apply (stands_again b b' st Hst). eapply (register_only_nodes cfg); [exact Hb|apply Hfuel|exact Hreg]. }
  split; [done|]. destruct Hst as [_ _ _ Hf Hm]. simpl. rewrite Hf, Hm.
  apply register_keys in Hreg as [->|(k & v & Hk%registration_prefix_nodes & ->)]; [done| |done]. split.
  - f_equal. apply listing_insert. apply not_true_iff_false. intros [rest Hrest]%starts_with_spec.
    unfold final_dots_key_prefix, key in Hrest. rewrite !string_app_assoc in Hrest.
    rewrite Hrest in Hk. by rewrite apart in Hk.
  - intros p. apply live_ids_keep. intros k' reg _ _ Hk'. rewrite lookup_insert. by case_decide.
Qed.

Lemma s3_departs_ok n d x b b' st :
  s3_stands b st → departs n d x b b' → d < u64_modulus → n ∈ st_members st → st_final_dots st !! n = None →
  ∃ st', s3_stands b' st' ∧ same_records st st' ∧
    (∀ p, p ≠ n → st_final_dots st' !! p = st_final_dots st !! p) ∧
    (∀ p, p ≠ n → p ∈ st_members st → p ∈ st_members st') ∧
    (n ∉ st_members st' → st_final_dots st' !! n = Some d).
Proof using AwsS3Ok0 Hfuel apart trimmed.
  intros Hst (self & r & <- & Hb & Hfree & Hder) Hd Hmem Hnone. set (n := d_self_id self) in *.
  eexists. split.
  { apply (stands_again b b' st Hst). eapply (deregister_only_nodes cfg); [exact Hb|apply Hfuel|exact Hder]. }
  split; [done|]. destruct Hst as [_ _ _ Hf Hm]. simpl. rewrite Hf in Hnone |- *. rewrite Hm in Hmem |- *.
  destruct (parse_final_dot_key_ok cfg n d trimmed Hd) as [Hparse Hstarts]. rewrite Hfree in Hparse.
  fold (final_dot_key cfg n d) in Hparse, Hstarts.
  apply deregister_keys in Hder as [Hsame Hput]; [|done]. fold n in Hsame, Hput. split_and!.
  - intros p Hp. symmetry. apply collect_final_dots_same. intros k c Hk. rewrite Hsame; [done| |congruence].
    apply not_true_iff_false. intros Hs%registration_prefix_nodes.
    apply parse_final_dot_key_apart in Hk; [congruence|done].
  - intros p Hp. apply live_ids_keep. intros k reg Hk Hreg [v Hv]. exists v. rewrite Hsame; [done| |].
    + apply not_true_iff_false. intros Hs. apply Hp. rewrite <- Hreg. eapply parse_registration_owner; [done|by apply char_free_pair|done].
    + intros ->. apply parse_registration_prefix, registration_prefix_nodes in Hk.
      by rewrite final_dot_key_records in Hk.
  - intros Hgone. destruct Hput as [Heq|Hput]; [by rewrite Heq in Hgone|].
    apply (collect_final_dots_lookup cfg _ (final_dot_key cfg n d)); [|by apply elem_of_listing; eauto|done].
    intros k c [Hs Hk]%elem_of_listing Hc. destruct (decide (k = final_dot_key cfg n d)) as [->|Hne]; [congruence|].
    assert (starts_with (registration_key_prefix n) k = false) as Hk'.
    { apply not_true_iff_false. intros Hn%registration_prefix_nodes.
      apply parse_final_dot_key_apart in Hc; [congruence|done]. }
    rewrite Hsame in Hk by done. exfalso. eapply (collect_final_dots_None cfg _ k); [exact Hnone| |exact Hc].
    by apply elem_of_listing.
Qed.

Lemma s3_call_ok c b st :
  s3_stands b st →
  ∃ st', s3_stands (bucket_call c b).2 st' ∧ (st' = st ∨ st' = (store_exec c st).2) ∧
    ∀ v, (bucket_call c b).1 = Ok v → store_exec c st = (Ok v, st').
Proof using All.
  intros Hst. destruct (s3_call_refines (T := T) cfg (fuel_for b) c b st apart Hst (Hfuel b))
    as (r & b' & Hx & Hr). unfold bucket_call, s3_bucket. rewrite Hx. simpl. destruct r as [v|e].
  - destruct Hr as (st' & Hex & Hst'). exists st'. rewrite Hex. split; [done|]. split; [by right|].
    by intros v' [= <-].
  - destruct Hr as [Hst'|Hst']; eexists; (split; [exact Hst'|]); split; by auto.
Qed.

#[local] Instance s3_bucket_ok : BucketOk B s3_stands.
Proof using All.
  split; [apply s3_call_ok|apply s3_enters_ok|intros; by eapply s3_departs_ok|].
  intros b st st' [_ Hs _ _ _] [_ Hs' _ _ _]. rewrite Hs in Hs'.
  destruct (st_state st) as [x|], (st_state st') as [y|]; simplify_eq/=; [|done].
  apply (f_equal (json_from_slice (T := EpochState))) in Hs'. rewrite !json_round_trip in Hs'. congruence.
Qed.
End bucket.

(** ** Nodes *)
Section nodes.
Context {E D Tx W Tok : Type} `{Countable E} `{ElementCodecOk E} `{ElementFormat E}
  `{!Message ProtoOrSetDelta, !Message ProtoOrSetOp}
  `{!MessageOk ProtoOrSetDelta proto_or_set_delta_ok}
  `{!MessageTyped ProtoOrSetDelta proto_or_set_delta_ok}
  `{!Message Envelope} `{!MessageOk Envelope envelope_ok} `{!MessageTyped Envelope envelope_ok}.
Context `{Channel Tx Envelope W} `{!Rng W} `{EqDecision Tx}
  {queued : W → Tx → list Envelope} {has_room : W → Tx → bool}
  `{!ChannelOk Tx Envelope W queued has_room} `{!RngOk Tx W queued has_room}
  `{!DisseminationStrategy D Tx W} `{!DisseminationOk D Tx W}.
Context {B T : Type} `{AwsS3 B} `{Chrono T}
  `{Json EpochMetadata} `{Json EpochState} `{Json GcIntentRecord}
  {objects : B → string → gmap string bytes} `{!AwsS3Ok B objects}
  `{!JsonOk EpochMetadata} `{!JsonOk EpochState} `{!JsonOk GcIntentRecord}.
Context (cfg : GcStorageConfig) (fuel_for : B → nat).
#[local] Existing Instances s3_bucket s3_bucket_ok.
Hypothesis apart : apart_from_nodes cfg.
Hypothesis trimmed : trim_end_matches "/"%char (cfg_prefix cfg) = cfg_prefix cfg.
Hypothesis Hfuel : ∀ b, enough cfg (fuel_for b) b.
Context (peer_of : Tx → NodeId) `{!HasBucket W B} {world_ok : W → Prop} `{!HasBucketOk Tx W B queued world_ok}.
Abbreviation s3_calls := (shared_exec (H := HasBucket0) (H0 := s3_bucket (T := T) cfg fuel_for)).
Context (registry_of : W → PeerRegistry Tx) (debug_matrix : MatrixClock → string)
  `{!WiredOk registry_of s3_calls queued (λ c n, peer_of c = n) world_ok}.
Implicit Types s : Shared E D W Tok B.

Abbreviation run := (shared_run (Bucket0 := s3_bucket (T := T) cfg fuel_for) (stands := s3_stands (T := T) cfg (objects := objects))
  (queued := queued) (world_ok := world_ok) peer_of registry_of debug_matrix).
Abbreviation timely_run := (timely_run (queued := queued) (world_ok := world_ok) peer_of registry_of
  s3_calls debug_matrix).

End nodes.

(** ** Nodes on a concrete bucket *)
#[local] Existing Instances op_codec text_format envelope_ok_dec typed_delta typed_delta_ok typed_delta_typed
  typed_envelope typed_envelope_ok typed_envelope_typed metadata_json metadata_json_ok state_json state_json_ok
  intent_json intent_json_ok EpochState_eq_dec s3_bucket s3_bucket_ok.

Abbreviation Millis := ({ z : Z | in_i64 z = true }) (only parsing).

#[local] Instance demo_bucket_calls : Bucket Buckets := s3_bucket (T := Millis) demo_storage (λ _, 1%nat).

Abbreviation demo_stands := (s3_stands (T := Millis) demo_storage (objects := bucket_objects)).

#[local] Instance demo_bucket_calls_ok : BucketOk Buckets demo_stands :=
  s3_bucket_ok demo_storage (λ _, 1%nat) demo_apart eq_refl demo_enough.

Abbreviation World := (Queues * Buckets)%type (only parsing).

Definition world_queued (w : World) : nat → list Envelope := queues_queued w.1.

Definition world_room (w : World) : nat → bool := queues_room w.1.

#[local] Instance world_channel : Channel nat Envelope World := {|
  try_send := λ c e w, let '(r, q) := try_send c e w.1 in (r, (q, w.2))
|}.

#[local] Instance world_rng : Rng World := {| choose := λ l w, (head l, w) |}.

#[local] Instance world_store : HasBucket World Buckets := {| bucket_of := snd; set_bucket := λ b w, (w.1, b) |}.

#[local] Instance world_channel_ok : ChannelOk nat Envelope World world_queued world_room.
Proof.
  unfold world_queued, world_room. split; intros c e [q st]; simpl.
  - intros Hr. pose proof (try_send_room (queued := queues_queued) c e q Hr) as Hs. revert Hs. simpl.
    by destruct (queues_room q c).
  - intros Hr. pose proof (try_send_full (queued := queues_queued) c e q Hr) as Hs. revert Hs. simpl.
    destruct (queues_room q c); simpl; [by intros []|]. intros [? _]. by split.
  - intros c' Hc. pose proof (try_send_other (queued := queues_queued) (has_room := queues_room) c e q c' Hc) as Hs.
    revert Hs. simpl. by destruct (queues_room q c).
Qed.

#[local] Instance world_rng_ok : RngOk nat World world_queued world_room.
Proof.
  split; simpl; [|by intros [|? ?]|done].
  intros l w n. destruct l as [|m l]; simpl; [done|]. intros [= ->]. left.
Qed.

#[local] Instance world_store_ok : HasBucketOk nat World Buckets world_queued (λ _, True).
Proof. split; try done. intros c e [q st]. simpl. by destruct (queues_room q c). Qed.

Definition world_registry (w : World) : PeerRegistry nat := demo_registry w.1.

#[local] Instance world_wired :
  WiredOk world_registry shared_exec world_queued (λ c n, demo_peer c = n) (λ _, True).
Proof.
  split; [|done..|].
  - intros w n g h _. unfold world_registry, demo_registry, two_peers; simpl.
    rewrite !lookup_insert, lookup_empty. repeat case_decide; intros; by simplify_eq.
  - intros c w d. unfold shared_exec. by destruct (bucket_call c (bucket_of w)).
Qed.

(** ["A"] and ["B"] have registered, and the bucket has a first state. *)
Definition demo_objects : Buckets := (write_epoch_state demo_storage demo_state demo_registered).2.

Definition fresh_host (n : NodeId) : Host RustString PushPull World nat :=
  mkHost (CrdtEngineImpl.new n "default-orset" OrSetImpl.new (push_pull_new 1) demo_config)
    (two_queues, ∅) [].

Abbreviation DemoShared := (Shared RustString PushPull World nat Buckets).
Abbreviation DemoNode := (Host RustString PushPull World nat).

Definition demo_shared : DemoShared :=
  mkShared (mkCluster (<["A" := fresh_host "A"]> (<["B" := fresh_host "B"]> ∅)) [] ∅ [] [demo_state]) demo_objects.

Abbreviation demo_shared_step := (shared_step (stands := demo_stands) (queued := world_queued) (world_ok := λ _, True)
  demo_peer world_registry demo_debug).
Abbreviation demo_shared_run := (shared_run (stands := demo_stands) (queued := world_queued) (world_ok := λ _, True)
  demo_peer world_registry demo_debug).

(** *** Schedules *)
(** A node asks itself for something, its engine runs, its channels are drained,
    it collects and writes; a node registers, joins and leaves. *)
Inductive SharedTask : Type :=
| Asks (n : NodeId) (q : DemoRequest)
| Serves (n : NodeId)
| Drains (n : NodeId)
| Initiates (n : NodeId)
| Registers (self : Discovery)
| Enters (n : NodeId)
| Departs (self : Discovery).

Definition silent_host (x : NodeId * DemoNode) : Prop :=
  Forall (λ q, local_request q = true) (h_requests x.2) ∧
  Forall (λ y : nat * list Envelope, y.2 = []) (map_to_list (h_world x.2).1).

Definition silent (s : DemoShared) : Prop :=
  wire (nodes s) = [] ∧ Forall silent_host (map_to_list (hosts (nodes s))).

#[local] Instance silent_host_dec x : Decision (silent_host x).
Proof.
  apply and_dec; [apply _|]. apply Forall_dec. intros [? []]; [by left|by right].
Defined.

#[local] Instance silent_dec s : Decision (silent s).
Proof. apply and_dec; [destruct (wire _); [by left|by right]|apply _]. Defined.

Definition demo_objs (b : Buckets) : gmap string bytes := bucket_objects b (bucket demo_storage).

(** What the bucket offers to newcomers. *)
Definition offered (b : Buckets) : EpochState :=
  match demo_objs b !! epoch_state_key demo_storage with
  | Some x => match json_from_slice x with Ok st => st | Err _ => default_state end
  | None => default_state
  end.

Definition shared_task (s : DemoShared) (t : SharedTask) : option DemoShared :=
  match t with
  | Asks n q =>
      h ← hosts (nodes s) !! n;
      if local_request q
      then Some (mkShared (put n (mkHost (h_engine h) (h_world h) (h_requests h ++ [q])) (nodes s))
                   (SharedBucket.bucket s))
      else None
  | Serves n =>
      h ← hosts (nodes s) !! n;
      q ← head (h_requests h);
      '(self', _, w') ← handle world_registry shared_exec demo_debug (h_engine h) q (seen s h);
      if negb (collects_request q) && (d_counter (dot (dvv (h_engine h))) <? u64_max)%N
      then Some (mkShared (put n (mkHost self' w' (tail (h_requests h))) (nodes s)) (bucket_of w')) else None
  | Drains n =>
      h ← hosts (nodes s) !! n;
      Some (mkShared (put n (mkHost (h_engine h) (fmap (λ _, []) (h_world h).1, (h_world h).2) (h_requests h))
                        (nodes s)) (SharedBucket.bucket s))
  | Initiates n =>
      h ← hosts (nodes s) !! n;
      match h_requests h with
      | InitiateGc :: rest =>
          '(self', _, w') ← handle world_registry shared_exec demo_debug (h_engine h)
                              (InitiateGc : DemoRequest) (seen s h);
          let tr := gc_calls shared_exec (GcCoordinatorImpl.initiate_gc n) (h_engine h) (seen s h) in
          if decide (silent s ∧ node_id (h_engine h) = n ∧ offered (bucket_of w') ∈ written_states tr)
          then Some (mkShared (update n (mkHost self' w' rest) (wire (nodes s))
                                 (written_metadata tr ++ epochs (nodes s)) [offered (bucket_of w')] (nodes s))
                       (bucket_of w'))
          else None
      | _ => None
      end
  | Registers self =>
      if decide (dc_bucket (d_config self) = bucket demo_storage)
      then '(_, b) ← register 1 self (Ok demo_time) (SharedBucket.bucket s); Some (mkShared (nodes s) b) else None
  | Enters n =>
      let self := h_engine (fresh_host n) in
      match new_replica_bootstrap shared_exec 1 self (two_queues, SharedBucket.bucket s) with
      | Some (Ok tt, self', w') =>
          if decide (hosts (nodes s) !! n = None ∧ gone (nodes s) !! n = None ∧ rust_string n ∧
                     n ∈ live_ids_of (T := Millis) (demo_objs (SharedBucket.bucket s)))
          then Some (mkShared (put n (mkHost self' w' []) (nodes s)) (bucket_of w')) else None
      | _ => None
      end
  | Departs self =>
      let n := d_self_id self in
      h ← hosts (nodes s) !! n;
      let '(final_dot, final_state) := get_final_state_for_deregistration (h_engine h) in
      if decide (dc_bucket (d_config self) = bucket demo_storage ∧ char_free "_"%char n = true)
      then '(_, b) ← deregister 1 self (cfg_prefix demo_storage) final_dot final_state (SharedBucket.bucket s);
           Some (mkShared (take_away n h (nodes s)) b)
      else None
  end.

Fixpoint shared_tasks (s : DemoShared) (ts : list SharedTask) : option DemoShared :=
  match ts with
  | [] => Some s
  | t :: ts => s' ← shared_task s t; shared_tasks s' ts
  end.

Definition thereafter (s : DemoShared) (ts : list SharedTask) : DemoShared := default s (shared_tasks s ts).

Definition discovery_of (n : NodeId) : Discovery := mkDiscovery (demo_discovery_config true) n n "10.0.0.9" "7000".

(** Where all is silent, only requests that nodes make of themselves are on their way. *)
Lemma silent_local s n h m q :
  silent s → hosts (nodes s) !! n = Some h →
  in_flight (queued := world_queued) demo_peer (keep (wire (nodes s)) [] (looking s n h)) m q →
  local_request q = true.
Proof.
  intros [Hw Hall] Hn.
  assert (∀ k g, hosts (put n (mkHost (h_engine h) (seen s h) (h_requests h)) (nodes s)) !! k = Some g →
    Forall (λ q, local_request q = true) (h_requests g) ∧ ∀ c, world_queued (h_world g) c = []) as Hsil.
  { assert (∀ k g, hosts (nodes s) !! k = Some g →
      Forall (λ q, local_request q = true) (h_requests g) ∧ ∀ c, world_queued (h_world g) c = []) as Hsil.
    { intros k g Hg%elem_of_map_to_list. apply (proj1 (Forall_forall _ _) Hall) in Hg as [Hreq Hq].
      split; [done|]. intros c. unfold world_queued, queues_queued.
      destruct ((h_world g).1 !! c) as [es|] eqn:Hc; [|done].
      apply elem_of_map_to_list in Hc. by apply (proj1 (Forall_forall _ _) Hq) in Hc. }
    intros k g. simpl. intros [[<- <-]|[_ Hg]]%lookup_insert_Some; [|by eapply Hsil]. by destruct (Hsil n h Hn). }
  intros [(g & Hm & Hq)|[(k & g & c & e & Hk & He & _)|(b & e & Hb & _)]].
  - apply Hsil in Hm as [Hreq _]. by apply (proj1 (Forall_forall _ _) Hreq).
  - apply Hsil in Hk as [_ Hq]. rewrite Hq in He. by apply elem_of_nil in He.
  - simpl in Hb. rewrite Hw in Hb. by apply elem_of_nil in Hb.
Qed.

Lemma stands_offered b st : demo_stands b st → offered b = current_state st.
Proof.
  intros Hst. unfold offered, current_state, demo_objs. rewrite (sr_state _ _ _ Hst).
  destruct (st_state st) as [x|]; [|done]. cbn [fmap option_fmap option_map]. by rewrite (json_round_trip x).
Qed.

(** A collection that wrote its state. *)
Lemma initiate_task s n h rest self' replies w' :
  bucket_ok (stands := demo_stands) s → hosts (nodes s) !! n = Some h → h_requests h = InitiateGc :: rest →
  handle world_registry shared_exec demo_debug (h_engine h) (InitiateGc : DemoRequest) (seen s h) =
    Some (self', replies, w') →
  let tr := gc_calls shared_exec (GcCoordinatorImpl.initiate_gc n) (h_engine h) (seen s h) in
  silent s → node_id (h_engine h) = n → offered (bucket_of w') ∈ written_states tr →
  demo_shared_step s
    (mkShared (update n (mkHost self' w' rest) (wire (nodes s)) (written_metadata tr ++ epochs (nodes s))
                 [offered (bucket_of w')] (nodes s)) (bucket_of w')).
Proof.
  intros (st & Hst & _) Hn Hq Hh tr Hsil Hid Hoff.
  assert (∃ r, run_gc shared_exec (GcCoordinatorImpl.initiate_gc n) (h_engine h) (seen s h) =
    Some (r, self', w')) as [r Hrun].
  { simpl in Hh. unfold initiate_gc in Hh. rewrite Hid in Hh.
    destruct (run_gc _ _ _ _) as [[[r s1] w1]|]; [|done]. injection Hh as -> _ ->. by exists r. }
  assert (demo_stands (bucket_of (seen s h)) st) as Hseen by exact Hst.
  destruct (run_gc_leaves _ _ _ _ _ _ _ Hseen Hrun) as (st1 & Hst1 & _).
  rewrite (stands_offered _ _ Hst1) in Hoff |- *.
  apply (sh_initiate demo_peer world_registry demo_debug s n h rest self' replies w' st1 []);
    [done..|apply list_subseteq_nil|done|by rewrite app_nil_r|].
  intros members fd _ _. destruct (GcCoordinatorImpl.compute_stable_timestamp _ _ _ _ _).
  split; [|by intros ? ?%elem_of_nil]. intros m q Hin%silent_local; [|done..]. by destruct q.
Qed.

Lemma shared_task_step s t s' :
  bucket_ok (stands := demo_stands) s → shared_task s t = Some s' → demo_shared_step s s'.
Proof.
  intros Hok. destruct t as [n q|n|n|n|self|n|self]; unfold shared_task;
    try (destruct (hosts (nodes s) !! _) as [h|] eqn:Hn; [|done]; cbn [mbind option_bind]).
  - destruct (local_request q) eqn:Hq; [|done]. intros [= <-]. by apply sh_ask.
  - destruct (h_requests h) as [|q rest] eqn:Hq; simpl; [done|].
    destruct (handle _ _ _ _ q _) as [[[self' replies] w']|] eqn:Hh; simpl; [|done].
    destruct (negb _ && _) eqn:Hb; [|done]. intros [= <-]. apply andb_true_iff in Hb as [Hc Hlt].
    eapply sh_handle; [done..|by apply negb_true_iff| |exact Hh].
    intros _ _. by apply N.ltb_lt.
  - intros [= <-]. apply sh_world; [done|]. split; [done|]. intros c. unfold world_queued, queues_queued; simpl.
    rewrite lookup_fmap. by destruct ((h_world h).1 !! c); simpl; intros e He%elem_of_nil.
  - destruct (h_requests h) as [|[] rest] eqn:Hq; try done.
    destruct (handle _ _ _ _ _ _) as [[[self' replies] w']|] eqn:Hh; cbn [mbind option_bind]; [|done].
    destruct (decide _) as [(Hsil & Hid & Hoff)|]; [|done]. intros Heq%(inj Some). subst s'.
    by eapply initiate_task.
  - destruct (decide _) as [Hb|]; [|done]. destruct (register _ _ _ _) as [[r b]|] eqn:Hr; [|done].
    intros [= <-]. apply (sh_register demo_peer world_registry demo_debug s (d_self_id self)). by exists self, (Ok demo_time), r.
  - destruct (new_replica_bootstrap _ _ _ _) as [[[[[]|] self'] w']|] eqn:Hb; try done.
    destruct (decide _) as [(? & Hg & Hs & Hst)|]; [|done]. intros Heq%(inj Some). subst s'.
    eapply (sh_join demo_peer _ _ s n 1 "default-orset" _ _ (two_queues, SharedBucket.bucket s));
      [done..| |exact Hb|done|].
    + intros st Hstands. by rewrite (sr_members _ _ _ Hstands).
    + intros c. unfold world_queued, queues_queued, two_queues; simpl. rewrite !lookup_insert, lookup_empty.
      by repeat case_decide.
  - destruct (get_final_state_for_deregistration _) as [d x] eqn:Hfin.
    destruct (decide _) as [[Hb Hfree]|]; [|done]. destruct (deregister _ _ _ _ _ _) as [[r b]|] eqn:Hr; [|done].
    intros [= <-]. apply sh_leave; [done|]. rewrite Hfin. by exists self, r.
Qed.

Lemma thereafter_run s ts : demo_shared_run demo_shared s → demo_shared_run demo_shared (thereafter s ts).
Proof.
  unfold thereafter. intros Hrun. destruct (shared_tasks s ts) as [s'|] eqn:Hts; [|exact Hrun]. simpl.
  revert s Hrun Hts. induction ts as [|t ts IH]; intros s Hrun; simpl; [by intros [= ->]|].
  destruct (shared_task s t) as [s1|] eqn:Ht; simpl; [|done]. apply IH.
  destruct (shared_run_follows (has_room := world_room) demo_peer world_registry demo_debug demo_shared s Hrun)
    as [_ Hok]. destruct Hrun as (Hinit & Hok0 & Hsteps). split; [exact Hinit|]. split; [exact Hok0|].
  eapply rtc_r; [exact Hsteps|by apply shared_task_step in Ht].
Qed.

(** The bucket to start with: two registrations, then the state. *)
Lemma demo_bucket_stands :
  ∃ st, demo_stands demo_objects st ∧ st_metadata st = None ∧ st_state st = Some demo_state ∧
    st_final_dots st = ∅.
Proof.
  assert (demo_stands (∅ : Buckets) (mkStore None None ∅ ∅ [])) as H0 by apply store_rel_empty.
  set (b1 := default ∅ (snd <$> register 1 demo_node (Ok demo_time) (∅ : Buckets))).
  assert (∃ st, demo_stands b1 st ∧ same_records (mkStore None None ∅ ∅ []) st ∧ st_final_dots st = ∅)
    as (st1 & H1 & [Hm1 Hs1] & Hf1).
  { destruct (enters_ok "A" _ b1 _ H0) as (st & ? & ? & ? & _); [|by exists st].
    eexists demo_node, (Ok demo_time), _. split_and!; [done..|reflexivity]. }
  assert (∃ st, demo_stands demo_registered st ∧ same_records st1 st ∧ st_final_dots st = st_final_dots st1)
    as (st2 & H2 & [Hm2 Hs2] & Hf2).
  { destruct (enters_ok "B" _ demo_registered _ H1) as (st & ? & ? & ? & _); [|by exists st].
    eexists (mkDiscovery (demo_discovery_config false) "B" "B" "10.0.0.2" "7000"), (Ok demo_time), _.
    split_and!; [done..|reflexivity]. }
  eexists. split; [apply (store_rel_state demo_storage _ st2 demo_state demo_apart H2)|].
  simpl. by rewrite Hm2, Hm1, Hf2, Hf1.
Qed.

Lemma demo_shared_starts : demo_shared_run demo_shared demo_shared.
Proof.
  assert (∀ n h, hosts (nodes demo_shared) !! n = Some h → (n = "A" ∨ n = "B") ∧ h = fresh_host n) as Hhosts.
  { simpl. intros n h [[<- <-]|[_ Hn]]%lookup_insert_Some; [by auto|].
    apply lookup_insert_Some in Hn as [[<- <-]|[_ Hn]]; [by auto|]. by rewrite lookup_empty in Hn. }
  split_and!; [| |apply rtc_refl].
  - split; [done|]. split; [exact (proj1 (proj2 demo_cluster_init))|].
    intros n h [Hname ->]%Hhosts. split_and!; [|done..|].
    + exists "default-orset", (push_pull_new 1), demo_config. split_and!; [by destruct Hname as [-> | ->]|done..].
    + intros c. unfold fresh_host, world_queued, queues_queued, two_queues; simpl.
      rewrite !lookup_insert, lookup_empty. by repeat case_decide.
  - destruct demo_bucket_stands as (st & Hst & Hm & Hs & Hf). exists st. split; [exact Hst|]. split.
    + intros p [h [Hp _]%Hhosts]. rewrite (sr_members _ _ _ Hst).
      assert (live_ids_of (T := Millis) (demo_objs demo_objects) = ["A"; "B"]) as Hl by (vm_compute; reflexivity).
      unfold demo_objs in Hl. change (SharedBucket.bucket demo_shared) with demo_objects. rewrite Hl.
      destruct Hp as [-> | ->]; [left|right; left].
    + intros p _. by rewrite Hf.
    + intros p _. by rewrite Hf.
    + intros md Hmd. congruence.
    + unfold current_state. by rewrite Hs.
Qed.

(** ["B"] leaves, ["A"] collects what it added, and ["C"] starts from what the
    bucket then holds. *)
Definition demo_handover : DemoShared :=
  thereafter demo_shared
    [Asks "A" (ClientOperation (Add hello)); Serves "A"; Drains "A"; Departs (discovery_of "B"); Asks "A" InitiateGc;
     Initiates "A"; Registers (discovery_of "C"); Enters "C"].

Definition newcomer : DemoNode := default (fresh_host "C") (hosts (nodes demo_handover) !! "C").

Definition has_some {A} (o : option A) : bool := match o with Some _ => true | None => false end.

Lemma has_some_is {A} (o : option A) : has_some o = true → is_Some o.
Proof. by destruct o. Qed.

