(* ===== verification/ClientRequests.v ===== *)
(** * Client commands ([src/src/server/client_requests_handler.rs],
    [src/src/client/crdt_client.rs])

    One client connection: frames of a length and a protobuf command, answered by
    frames of a length and a text.  The engine is reached through its queue and
    oneshot channels, the class [EngineClient]; [served] is its implementation
    by an engine that handles what it is sent.  The theorems follow a command
    from the client's terminal to the engine and back. *)
From Stdlib Require Import Strings.Byte Strings.String Strings.Ascii.
From stdpp Require Import base gmap sets list strings fin_maps.
From S2P Require Import Prelude Text Clocks Proto Crdt OrSet Replication Registry Dissemination.
From S2P Require Import GcStorage Coordinator Engine EngineSpec Framing.
Import CrdtEngineImpl.
Local Open Scope N_scope.
Local Open Scope rust_scope.
Local Open Scope string_scope.

(** ** Reaching the engine *)
Class EngineClient (E Tok W : Type) := {
  enqueue : CrdtEngineRequest (OrSetOp E) Tok → W → result unit * W;
  oneshot : W → Tok * W;
  await_reply : Tok → W → result string * W
}.

Section handler.
Context {E Tok W : Type} `{EngineClient E Tok W}.
(** [OrSet<String>]: the element of a text. *)
Context (of_string : string → E).

Definition send_engine_request (request : CrdtEngineRequest (OrSetOp E) Tok) (w : W) : string * W :=
  match enqueue request w with
  | (Err e, w) => ("error: " ++ e, w)
  | (Ok _, w) => ("ok", w)
  end.

Definition send_engine_request_and_wait_response (request : CrdtEngineRequest (OrSetOp E) Tok)
    (response_rx : Tok) (w : W) : string * W :=
  match enqueue request w with
  | (Err e, w) => ("error: " ++ e, w)
  | (Ok _, w) =>
      match await_reply response_rx w with
      | (Ok state_str, w) => (state_str, w)
      | (Err e, w) => ("error: " ++ e, w)
      end
  end.

(** A request with a fresh oneshot channel. *)
Definition ask (request : Tok → CrdtEngineRequest (OrSetOp E) Tok) (w : W) : string * W :=
  let '(t, w) := oneshot w in send_engine_request_and_wait_response (request t) t w.

Context `{Message ProtoClientCommand}.

Definition client_response (msg_buf : bytes) (w : W) : string * W :=
  match decode (T := ProtoClientCommand) msg_buf with
  | Ok cmd =>
      match command cmd with
      | Some (CmdAdd value) => send_engine_request (ClientOperation (Add (of_string value))) w
      | Some (CmdRemove value) => send_engine_request (ClientOperation (Remove (of_string value))) w
      | Some (CmdRemoveRandom _) =>
          let '(random_element, w) := ask GetRandomElement w in
          if starts_with "error:" random_element then (random_element, w)
          else send_engine_request (ClientOperation (Remove (of_string random_element))) w
      | Some (CmdPrintState _) => ask PrintState w
      | Some (CmdPrintInternals _) => ask PrintInternals w
      | Some (CmdPrintMatrix _) => ask PrintMatrix w
      | None => ("error: empty command", w)
      end
  | Err e => ("error: " ++ e, w)
  end.

(** A frame of the client protocol. *)
Definition client_frame (payload : bytes) : bytes :=
  to_be_bytes (as_u32 (N.of_nat (length payload))) ++ payload.

(** The loop of one connection. *)
Fixpoint client_session {R Wr : Type} `{AsyncRead R} `{AsyncWrite Wr} (fuel : nat) (read_half : R)
    (write_half : Wr) (w : W) : option (Wr * W) :=
  match fuel with
  | O => None
  | S fuel' =>
      match read_exact 4 read_half with
      | (inr _, _) => Some (write_half, w)
      | (inl len_buf, read_half) =>
          match read_exact (from_be_bytes len_buf) read_half with
          | (inr _, _) => Some (write_half, w)
          | (inl msg_buf, read_half) =>
              let '(response, w) := client_response msg_buf w in
              let resp_bytes := as_bytes response in
              match write_all (to_be_bytes (as_u32 (N.of_nat (length resp_bytes)))) write_half with
              | (Some _, write_half) => Some (write_half, w)
              | (None, write_half) =>
                  match write_all resp_bytes write_half with
                  | (Some _, write_half) => Some (write_half, w)
                  | (None, write_half) => client_session fuel' read_half write_half w
                  end
              end
          end
      end
  end.
End handler.

(** ** The listener *)
Section listener.
Context {S W : Type} (parse : string → result string) (bind : string → W → result unit * W)
  (spawn_session : S → W → W).

(** An accepted stream gets a task of its own, which runs [client_session]; an
    error of [accept] is logged. *)
Definition accept_client (w : W) (accepted : result S) : W :=
  match accepted with
  | Ok stream => spawn_session stream w
  | Err _ => w
  end.

(** [None]: the address does not parse, and the task panics; a port that cannot
    be bound ends it.  [accepts]: what [accept] gives, in order. *)
Definition client_listener (port : string) (accepts : list (result S)) (w : W) : option W :=
  match parse ("0.0.0.0:" ++ port) with
  | Err _ => None
  | Ok client_addr =>
      Some match bind client_addr w with
           | (Err _, w) => w
           | (Ok _, w) => foldl accept_client w accepts
           end
  end.

Definition start_client_handle (client_port : option string) (accepts : list (result S)) (w : W)
    : option (option W) :=
  (λ port, client_listener port accepts w) <$> client_port.

(** Errors of [accept] cost no client its session. *)
Lemma listener_serves_every_client port accepts w addr w' :
  parse ("0.0.0.0:" ++ port) = Ok addr → bind addr w = (Ok tt, w') →
  client_listener port accepts w =
    Some (foldl (λ w stream, spawn_session stream w) w'
            (omap (λ a, if a is Ok stream then Some stream else None) accepts)).
Proof.
  intros Hp Hb. unfold client_listener. rewrite Hp, Hb. f_equal. clear Hb. revert w'.
  induction accepts as [|[stream|e] accepts IH]; intros w'; [done|..]; cbn; by rewrite IH.
Qed.
End listener.

(** ** The client *)
(** [debug] is the standard library's debug format. *)
Definition unknown_command (debug : string → string) (line : string) : string :=
  "Unknown command: " ++ debug line ++
  ". Try: add <v>, remove <v>, print-state, print-internals, print-matrix, quit".

Definition parse_line (debug : string → string) (line : string) : result (option Command) :=
  match splitn 2 " " (trim line) with
  | [cmd; value] =>
      if decide (cmd = "add") then Ok (Some (CmdAdd value))
      else if decide (cmd = "remove") then Ok (Some (CmdRemove value))
      else Err (unknown_command debug (trim line))
  | [cmd] =>
      if decide (cmd = "remove-random") then Ok (Some (CmdRemoveRandom true))
      else if decide (cmd = "print-state") then Ok (Some (CmdPrintState true))
      else if decide (cmd = "print-internals") then Ok (Some (CmdPrintInternals true))
      else if decide (cmd = "print-matrix") then Ok (Some (CmdPrintMatrix true))
      else if decide (cmd = "quit" ∨ cmd = "exit") then Ok None
      else if decide (cmd = "") then Err ""
      else Err (unknown_command debug (trim line))
  | _ => Err ""
  end.

Definition send_command `{Message ProtoClientCommand} {Wr : Type} `{AsyncWrite Wr} (writer : Wr)
    (cmd : Command) : option IoError * Wr :=
  let payload := encode_to_vec {| command := Some cmd |} in
  let len := as_u32 (N.of_nat (length payload)) in
  match write_all (to_be_bytes len) writer with
  | (Some e, writer) => (Some e, writer)
  | (None, writer) =>
      match write_all payload writer with
      | (Some e, writer) => (Some e, writer)
      | (None, writer) => flush writer
      end
  end.

Definition recv_response {R : Type} `{AsyncRead R} (reader : R) : (bytes + IoError) * R :=
  match read_exact 4 reader with
  | (inr e, reader) => (inr e, reader)
  | (inl len_buf, reader) => read_exact (from_be_bytes len_buf) reader
  end.

(** ** An engine behind the queue *)
Section served.
Context {E D W : Type} `{Countable E} `{ElementCodec E} `{ElementFormat E}
  `{!Message ProtoOrSetDelta, !Message ProtoOrSetOp}.
Context {Tx : Type} `{!DisseminationStrategy D Tx W}.
Context (registry_of : W → PeerRegistry Tx) (exec : Exec W) (debug_matrix : MatrixClock → string).

(** The engine has handled everything it was sent; [replies] answered the last
    request. *)
Record Served := mkServed {
  sv_engine : CrdtEngine (OrSet E) D;
  sv_world : W;
  sv_replies : list (Reply nat);
  sv_next : nat
}.

Definition served_enqueue (request : CrdtEngineRequest (OrSetOp E) nat) (s : Served)
    : result unit * Served :=
  match handle registry_of exec debug_matrix (sv_engine s) request (sv_world s) with
  | Some (engine, replies, w) => (Ok tt, mkServed engine w replies (sv_next s))
  | None => (Err "channel closed", s)
  end.

Definition served_await (t : nat) (s : Served) : result string * Served :=
  match sv_replies s with
  | [TextReply t' text] => if decide (t = t') then (Ok text, s) else (Err "channel closed", s)
  | _ => (Err "channel closed", s)
  end.

Definition served_oneshot (s : Served) : nat * Served :=
  (sv_next s, mkServed (sv_engine s) (sv_world s) (sv_replies s) (S (sv_next s))).

Definition served : EngineClient E nat Served := {|
  enqueue := served_enqueue; oneshot := served_oneshot; await_reply := served_await
|}.
#[local] Existing Instance served.

Definition served_replica (s : Served) : Replica E := replica_of (sv_engine s).

(** ** Lemmas *)
Lemma served_ask (request : nat → CrdtEngineRequest (OrSetOp E) nat) text s :
  (∀ t, handle registry_of exec debug_matrix (sv_engine s) (request t) (sv_world s) =
        Some (sv_engine s, [TextReply t text], sv_world s)) →
  ∃ s', ask request s = (text, s') ∧ sv_engine s' = sv_engine s ∧ sv_world s' = sv_world s.
Proof.
  intros Hh. unfold ask, send_engine_request_and_wait_response. cbn. unfold served_enqueue. cbn.
  rewrite Hh. cbn. rewrite decide_True by done. by eexists.
Qed.

Lemma served_operation op s :
  ∃ s', send_engine_request (ClientOperation op) s = ("ok", s') ∧
    served_replica s' = engine_apply_local (served_replica s) op.
Proof.
  unfold send_engine_request. cbn. unfold served_enqueue, served_replica. cbn [handle].
  unfold client_operation. destruct (push_version_vector _ _ _ _ _ _ _) as [d w].
  eexists. split; [done|]. done.
Qed.

Context (of_string : string → E) `{!Message ProtoClientCommand}.

(** C36. What the bytes of a client's message do, and what is answered: additions
    and removals are local operations of the replica, answered [ok]; the state, the
    internals and the matrix clock are printed without a change of the engine; a
    random element is removed, or the empty set reported.  An element whose text
    starts with [error:] is returned instead of removed.  A message that does not
    decode is answered with the error, an empty one with its own, and neither
    reaches the engine. *)
Theorem client_commands_reach_the_engine msg_buf s :
  let '(response, s') := client_response of_string msg_buf s in
  let self := sv_engine s in
  let r := served_replica s in
  match decode (T := ProtoClientCommand) msg_buf with
  | Err e => response = "error: " ++ e ∧ s' = s
  | Ok cmd =>
      match command cmd with
      | None => response = "error: empty command" ∧ s' = s
      | Some (CmdAdd v) =>
          response = "ok" ∧ served_replica s' = engine_apply_local r (Add (of_string v))
      | Some (CmdRemove v) =>
          response = "ok" ∧ served_replica s' = engine_apply_local r (Remove (of_string v))
      | Some (CmdRemoveRandom _) =>
          match OrSetImpl.get_random_element display (r_set r) with
          | None => response = "error: empty crdt" ∧ sv_engine s' = self
          | Some text =>
              if starts_with "error:" text
              then response = text ∧ sv_engine s' = self
              else response = "ok" ∧ served_replica s' = engine_apply_local r (Remove (of_string text))
          end
      | Some (CmdPrintState _) =>
          response = OrSetImpl.print_state debug (r_set r) ∧ sv_engine s' = self
      | Some (CmdPrintInternals _) =>
          response = OrSetImpl.print_internals debug_add_entry debug_tombstone_entry (r_set r) ∧
          sv_engine s' = self
      | Some (CmdPrintMatrix _) =>
          response = GcCoordinatorImpl.print_matrix_clock debug_matrix (gc self) ∧ sv_engine s' = self
      end
  end.
Proof.
  unfold client_response. destruct (decode msg_buf) as [[cmd]|e]; [|done]. cbn [command].
  destruct cmd as [[v|v|b|b|b|b]|]; [| | | | | |done].
  - destruct (served_operation (Add (of_string v)) s) as (s' & -> & Hs'). by split.
  - destruct (served_operation (Remove (of_string v)) s) as (s' & -> & Hs'). by split.
  - edestruct (served_ask PrintState) as (s' & -> & He & _); [done|]. by split.
  - edestruct (served_ask PrintInternals) as (s' & -> & He & _); [done|]. by split.
  - edestruct (served_ask PrintMatrix) as (s' & -> & He & _); [done|]. by split.
  - edestruct (served_ask GetRandomElement) as (s' & -> & He & _); [done|]. cbn [crdt].
    change (CrdtEngineImpl.get_random_element (sv_engine s)) with
      (OrSetImpl.get_random_element display (r_set (served_replica s))).
    assert (served_replica s' = served_replica s) as Hs' by (unfold served_replica; by rewrite He).
    destruct (OrSetImpl.get_random_element _ _) as [text|]; cbn [default id]; [|by split].
    destruct (starts_with "error:" text); [by split|].
    destruct (served_operation (Remove (of_string text)) s') as (s2 & -> & Hs2).
    by rewrite Hs2, Hs'.
Qed.
End served.

(** ** The terminal *)
(** A line of the client's terminal: [add] and [remove] take the rest
    of the line, spaces included, as their value (unless white space ends it),
    each of the other commands is its word alone, [quit] and [exit] end the
    session and an empty line does nothing. *)
Theorem terminal_reads_commands dbg v :
  v ≠ "" → trim_end v = v →
  parse_line dbg ("add " ++ v) = Ok (Some (CmdAdd v)) ∧
  parse_line dbg ("remove " ++ v) = Ok (Some (CmdRemove v)) ∧
  (∀ line c, (line, c) ∈ [("remove-random", CmdRemoveRandom true); ("print-state", CmdPrintState true);
     ("print-internals", CmdPrintInternals true); ("print-matrix", CmdPrintMatrix true)] →
     parse_line dbg (" " ++ line ++ " ") = Ok (Some c)) ∧
  parse_line dbg "quit" = Ok None ∧ parse_line dbg "exit" = Ok None ∧ parse_line dbg " " = Err "" ∧
  is_ok (parse_line dbg "add") = false.
Proof.
  intros Hv Ht. split_and!.
  - unfold parse_line, trim. change (trim_start _ ("add " ++ v)) with ("add " ++ v).
    destruct (trim_end_ascii "add " v Hv Ht) as [-> _]; [done|]. reflexivity.
  - unfold parse_line, trim. change (trim_start _ ("remove " ++ v)) with ("remove " ++ v).
    destruct (trim_end_ascii "remove " v Hv Ht) as [-> _]; [done|]. reflexivity.
  - intros line c Hin. repeat (apply elem_of_cons in Hin as [[= -> ->]|Hin]; [reflexivity|]).
    set_solver.
  - reflexivity.
  - reflexivity.
  - reflexivity.
  - reflexivity.
Qed.

(** ** A session *)
#[local] Arguments client_frame : simpl never.

Section session.
Context {E Tok W : Type} `{EngineClient E Tok W} (of_string : string → E).
Context `{!Message ProtoClientCommand}.
Context {R : Type} `{AsyncRead R} {incoming : R → bytes} {ending : R → IoError}
  `{!AsyncReadOk R incoming ending}.
Context {Wr : Type} `{AsyncWrite Wr} {written : Wr → bytes} {is_up : Wr → bool}
  `{!AsyncWriteOk Wr written is_up}.

(** The answers to a list of messages. *)
Fixpoint responses (msgs : list bytes) (w : W) : list string * W :=
  match msgs with
  | [] => ([], w)
  | msg :: msgs' =>
      let '(response, w) := client_response of_string msg w in
      let '(l, w) := responses msgs' w in
      (response :: l, w)
  end.

Lemma responses_length msgs w : length (responses msgs w).1 = length msgs.
Proof.
  revert w. induction msgs as [|m msgs IH]; intros w; simpl; [done|].
  destruct (client_response of_string m w) as [t w1]. specialize (IH w1).
  destruct (responses msgs w1). simpl in *. by rewrite IH.
Qed.

(** [n] answers read by the client. *)
Fixpoint recv_responses (n : nat) (reader : R) : list (bytes + IoError) :=
  match n with
  | O => []
  | S n' => let '(x, reader) := recv_response reader in x :: recv_responses n' reader
  end.

Definition short (l : bytes) : Prop := N.of_nat (length l) < u32_modulus.

Lemma as_u32_short l : short l → as_u32 (N.of_nat (length l)) = N.of_nat (length l).
Proof. intros. by apply N.mod_small. Qed.

(** Reading a frame of the client protocol. *)
Lemma recv_frame l rest r :
  short l → incoming r = (client_frame l ++ rest)%list →
  ∃ r1 r2, read_exact 4 r = (inl (to_be_bytes (N.of_nat (length l))), r1) ∧
    from_be_bytes (to_be_bytes (N.of_nat (length l))) = N.of_nat (length l) ∧
    read_exact (N.of_nat (length l)) r1 = (inl l, r2) ∧ incoming r2 = rest.
Proof.
  intros Hl Hr. unfold client_frame in Hr. rewrite as_u32_short, <- app_assoc in Hr by done.
  destruct (read_exact_app (to_be_bytes (N.of_nat (length l))) (l ++ rest)%list r 4)
    as (r1 & Hr1 & Hrest & _); [done|done|].
  destruct (read_exact_app l rest r1 (N.of_nat (length l))) as (r2 & Hr2 & Hrest2 & _); [done|done|].
  exists r1, r2. split_and!; [done| |done|done]. by apply from_to_be_bytes.
Qed.

Lemma write_all_written b w :
  is_up w = true →
  ∃ w', write_all b w = (None, w') ∧ written w' = (written w ++ b)%list ∧ is_up w' = true.
Proof.
  intros Hw. destruct (write_all_up b w Hw) as (H1' & H2' & H3').
  destruct (write_all b w) as [x w']. simpl in *. subst x. by exists w'.
Qed.

Lemma send_command_written cmd w :
  is_up w = true →
  ∃ w', send_command w cmd = (None, w') ∧ is_up w' = true ∧
    written w' = (written w ++ client_frame (encode_to_vec (mkProtoClientCommand (Some cmd))))%list.
Proof.
  intros Hw. unfold send_command.
  destruct (write_all_written (to_be_bytes (as_u32 (N.of_nat (length
    (encode_to_vec (mkProtoClientCommand (Some cmd))))))) w Hw) as (w1 & -> & Hw1 & Hup1).
  destruct (write_all_written (encode_to_vec (mkProtoClientCommand (Some cmd))) w1 Hup1)
    as (w2 & -> & Hw2 & Hup2).
  destruct (flush_up w2 Hup2) as (H1' & H2' & H3'). destruct (flush w2) as [x w3]. simpl in *. subst x.
  exists w3. split_and!; [done|done|]. rewrite H2', Hw2, Hw1. unfold client_frame.
  by rewrite app_assoc.
Qed.

Lemma send_commands_written cmds w :
  is_up w = true →
  written (foldl (λ w c, (send_command w c).2) w cmds) =
    (written w ++ concat ((λ c, client_frame (encode_to_vec (mkProtoClientCommand (Some c)))) <$> cmds))%list.
Proof.
  revert w. induction cmds as [|c cmds IH]; intros w Hw; simpl; [by rewrite app_nil_r|].
  destruct (send_command_written c w Hw) as (w' & -> & Hup & Hwr). simpl.
  by rewrite IH, Hwr, <- app_assoc.
Qed.

Lemma session_answers msgs r wr w resps w' :
  is_up wr = true → Forall short msgs → responses msgs w = (resps, w') →
  Forall (λ t, short (as_bytes t)) resps →
  incoming r = concat (client_frame <$> msgs) →
  ∃ wr', client_session of_string (S (length msgs)) r wr w = Some (wr', w') ∧
    written wr' = (written wr ++ concat ((λ t, client_frame (as_bytes t)) <$> resps))%list.
Proof.
  revert r wr w resps. induction msgs as [|msg msgs IH]; intros r wr w resps Hup Hmsgs Hres Hshort Hr.
  - injection Hres as <- <-. simpl. destruct (read_exact_eof r 4) as (r' & -> & _); [by rewrite Hr|].
    exists wr. by rewrite app_nil_r.
  - apply Forall_cons in Hmsgs as [Hmsg Hmsgs]. simpl in Hres.
    destruct (client_response of_string msg w) as [resp w1] eqn:Hresp.
    destruct (responses msgs w1) as [l w2] eqn:Hl. injection Hres as <- <-.
    apply Forall_cons in Hshort as [Hs Hshort].
    destruct (recv_frame msg _ r Hmsg Hr) as (r1 & r2 & Hr1 & Hlen & Hr2 & Hrest).
    destruct (write_all_written (to_be_bytes (as_u32 (N.of_nat (length (as_bytes resp))))) wr Hup)
      as (wr1 & Hwr1 & Hw1 & Hup1).
    destruct (write_all_written (as_bytes resp) wr1 Hup1) as (wr2 & Hwr2 & Hw2 & Hup2).
    destruct (IH r2 wr2 w1 l Hup2 Hmsgs Hl Hshort Hrest) as (wr' & Hses & Hwr').
    exists wr'. change (length (msg :: msgs)) with (S (length msgs)).
    change (client_session of_string (S (S (length msgs))) r wr w) with
      (match read_exact 4 r with
       | (inr _, _) => Some (wr, w)
       | (inl len_buf, r) =>
           match read_exact (from_be_bytes len_buf) r with
           | (inr _, _) => Some (wr, w)
           | (inl msg_buf, r) =>
               let '(response, w) := client_response of_string msg_buf w in
               match write_all (to_be_bytes (as_u32 (N.of_nat (length (as_bytes response))))) wr with
               | (Some _, wr) => Some (wr, w)
               | (None, wr) =>
                   match write_all (as_bytes response) wr with
                   | (Some _, wr) => Some (wr, w)
                   | (None, wr) => client_session of_string (S (length msgs)) r wr w
                   end
               end
           end
       end).
    rewrite Hr1, Hlen, Hr2, Hresp, Hwr1, Hwr2. split; [exact Hses|].
    rewrite Hwr', Hw2, Hw1. cbn [fmap list_fmap concat]. unfold client_frame. by rewrite <- !app_assoc.
Qed.

Lemma recv_responses_frames resps r :
  Forall (λ t, short (as_bytes t)) resps →
  incoming r = concat ((λ t, client_frame (as_bytes t)) <$> resps) →
  recv_responses (length resps) r = (λ t, inl (as_bytes t)) <$> resps.
Proof.
  revert r. induction resps as [|t resps IH]; intros r Hs Hr; [done|].
  apply Forall_cons in Hs as [Ht Hs].
  destruct (recv_frame (as_bytes t) _ r Ht Hr) as (r1 & r2 & Hr1 & Hlen & Hr2 & Hrest).
  simpl. unfold recv_response. rewrite Hr1, Hlen, Hr2. cbn. f_equal. by apply IH.
Qed.

(** A session from the client's end: commands written one after the
    other are handled in that order, each once, and reading the stream back gives
    the client the text of each answer in the same order; the session ends when
    the client closes. *)
Theorem session_answers_in_order cmds r wc wr w :
  is_up wc = true → written wc = [] → is_up wr = true → written wr = [] →
  let msgs := (λ c, encode_to_vec (mkProtoClientCommand (Some c))) <$> cmds in
  Forall short msgs →
  incoming r = written (foldl (λ w c, (send_command w c).2) wc cmds) →
  let '(resps, w') := responses msgs w in
  Forall (λ t, short (as_bytes t)) resps →
  ∃ wr', client_session of_string (S (length cmds)) r wr w = Some (wr', w') ∧
    ∀ rc, incoming rc = written wr' →
      recv_responses (length cmds) rc = (λ t, inl (as_bytes t)) <$> resps.
Proof.
  intros Hwc Hnil Hwr Hnil' msgs Hmsgs Hr. destruct (responses msgs w) as [resps w'] eqn:Hres.
  intros Hresps. rewrite send_commands_written, Hnil in Hr by done. simpl in Hr.
  assert (incoming r = concat (client_frame <$> msgs)) as Hframes.
  { unfold msgs. by rewrite <- list_fmap_compose. }
  assert (length resps = length cmds) as Hlen.
  { pose proof (responses_length msgs w) as Hl. rewrite Hres in Hl. simpl in Hl.
    rewrite Hl. apply length_fmap. }
  destruct (session_answers msgs r wr w resps w' Hwr Hmsgs Hres Hresps Hframes) as (wr' & Hses & Hwr').
  exists wr'. split; [rewrite <- Hses; unfold msgs; by rewrite length_fmap|].
  intros rc Hrc. rewrite <- Hlen. apply recv_responses_frames; [done|].
  by rewrite Hrc, Hwr', Hnil'.
Qed.
End session.

(** ** Witnesses *)
#[local] Instance command_codec : Message ProtoClientCommand := countable_message ProtoClientCommand.
#[local] Instance command_codec_ok : MessageOk ProtoClientCommand command_ok.
Proof. apply countable_message_ok. Qed.
#[local] Instance delta_codec : Message ProtoOrSetDelta := countable_message ProtoOrSetDelta.
#[local] Instance op_codec : Message ProtoOrSetOp := countable_message ProtoOrSetOp.
#[local] Instance text_format : ElementFormat RustString := {|
  display := λ e, `e;
  debug := λ e, `e;
  debug_add_entry := λ p, `p.1;
  debug_tombstone_entry := λ p, d_node_id p.1
|}.

(** The text of a command, which prost has checked to be UTF-8. *)
Definition as_rust_string (s : string) : RustString :=
  match decide (utf8_valid (as_bytes s) = true) with
  | left Hs => s ↾ Hs
  | right _ => "" ↾ eq_refl
  end.

Definition demo_served : Served (E := RustString) (D := PushPull) (W := Queues) :=
  mkServed (CrdtEngineImpl.new "A" "default-orset" OrSetImpl.new (push_pull_new 1) demo_config)
    two_queues [] 0.

#[local] Instance demo_client : EngineClient RustString nat (Served (E := RustString) (D := PushPull) (W := Queues)) :=
  served demo_registry demo_exec demo_debug.

Lemma client_commands_reach_the_engine_witness :
  (client_response as_rust_string (encode_to_vec (mkProtoClientCommand (Some (CmdAdd "hello"))))
     demo_served).1 = "ok".
Proof.
  pose proof (client_commands_reach_the_engine demo_registry demo_exec demo_debug as_rust_string
    (encode_to_vec (mkProtoClientCommand (Some (CmdAdd "hello")))) demo_served) as Hc.
  rewrite (decode_encode (wf := command_ok)) in Hc by done.
  destruct (client_response _ _ _) as [response s']. apply Hc.
Defined.

Lemma session_answers_in_order_witness :
  ∃ wr' w', client_session as_rust_string 2
      (foldl (λ w c, (send_command w c).2) ([] : bytes) [CmdAdd "hello"]) ([] : bytes) demo_served =
      Some (wr', w') ∧
    recv_responses 1 (wr' : bytes) = [inl (as_bytes "ok")].
Proof.
  pose proof (session_answers_in_order as_rust_string (incoming := id) (ending := λ _, UnexpectedEof)
    (written := id) (is_up := λ _, true) [CmdAdd "hello"]
    (foldl (λ w c, (send_command w c).2) ([] : bytes) [CmdAdd "hello"]) [] [] demo_served
    eq_refl eq_refl eq_refl eq_refl) as Hs.
  destruct (Hs ltac:(repeat constructor; vm_compute; reflexivity) eq_refl
    ltac:(repeat constructor; vm_compute; reflexivity)) as (wr' & Hrun & Hrecv).
  exists wr'. eexists. split; [exact Hrun|exact (Hrecv wr' eq_refl)].
Defined.

Lemma terminal_reads_commands_witness :
  parse_line id "add two words" = Ok (Some (CmdAdd "two words")).
Proof. exact (proj1 (terminal_reads_commands id "two words" ltac:(discriminate) eq_refl)). Defined.
