(* ===== verification/Server.v ===== *)
(** * The server ([src/src/server/mod.rs], [src/src/server/initializer.rs])

    A server ties the parts together: it spawns the tasks, feeds received
    envelopes to the engine's queue, and on shutdown asks the engine for its
    final state, deregisters and aborts everything.  Spawned tasks are the type
    [Task] and the runtime is the class [Runtime]; the arms of the main loop's
    [select!] come as a list of [ServerEvent]s, in the order in which they are
    taken.  [Node] is a world with the engine behind its queue, in which the
    theorem on graceful shutdown is stated. *)
From Stdlib Require Import Strings.Byte Strings.String Strings.Ascii.
From stdpp Require Import base gmap sets list strings fin_maps.
From S2P Require Import Prelude Text S3 Discovery Clocks Proto Crdt OrSet Replication.
From S2P Require Import Registry Dissemination GcStorage Coordinator S3Storage Engine.
From S2P Require Import PeerMessages Connector EngineSpec.
Import CrdtEngineImpl S3ClientImpl.
Local Open Scope N_scope.
Local Open Scope rust_scope.
Local Open Scope string_scope.

(** ** Configuration and tasks *)
Record ServerConfig := mkServerConfig {
  sc_listen_host : string;
  sc_listen_port : string;
  sc_node_name : string;
  sc_gc_replica : bool;
  sc_experiment : bool;
  sc_client_port : option string
}.

(** The registry and the outbound tasks are the [Connections] of [Connector]. *)
Record Server := mkServer {
  srv_node_id : NodeId;
  srv_node_name : string;
  srv_gc_replica : bool;
  srv_experiment : bool;
  srv_listen_port : string;
  srv_client_port : option string;
  srv_discovery : Discovery
}.

Inductive Task : Type :=
| PullLoop
| ClientListener (port : string)
| DiscoveryLoop (connector : PeerConnector)
| InitiateGcLoop (interval : N)
| ObserveLoop (interval : N)
| EngineRun.

Class Runtime (Handle W : Type) := { spawn : Task → W → Handle * W }.

(** The oneshot channel on which the engine sends its final state. *)
Class StateChannel (Tok W : Type) := {
  state_channel : W → Tok * W;
  await_state : Tok → W → result (Counter * bytes) * W
}.

(** The arms of the main loop. *)
Inductive ServerEvent : Type :=
| Received (envelope : Envelope)
| MetricsTick
| Cancelled.

Section server.
Context {E Tok Tx Handle W T : Type} `{AwsS3 W} `{Chrono T} `{Network Handle W} `{Runtime Handle W}.
Context `{Sender Tx (CrdtEngineRequest (OrSetOp E) Tok) W} `{StateChannel Tok W}.
Context (of_string : string → E).

Definition new (server_config : ServerConfig) (discovery_config : DiscoveryConfig) (w : W)
    : result Server * W :=
  let node_id := sc_node_name server_config in
  match new_discovery discovery_config node_id (sc_node_name server_config)
          (sc_listen_host server_config) (sc_listen_port server_config) w with
  | (Err e, w) => (Err e, w)
  | (Ok discovery, w) =>
      (Ok {| srv_node_id := node_id;
             srv_node_name := sc_node_name server_config;
             srv_gc_replica := sc_gc_replica server_config;
             srv_experiment := sc_experiment server_config;
             srv_listen_port := sc_listen_port server_config;
             srv_client_port := sc_client_port server_config;
             srv_discovery := discovery |}, w)
  end.

(** *** Starting *)
Definition start_discovery (fuel : nat) (self : Server) (expiry : result T) (w : W)
    : option (result Handle * W) :=
  '(r, w) ← register fuel (srv_discovery self) expiry w;
  match r with
  | Err e => Some (Err e, w)
  | Ok _ =>
      let connector := new_connector (srv_node_id self) (srv_node_name self) (srv_gc_replica self) in
      let '(h, w) := spawn (DiscoveryLoop connector) w in
      Some (Ok h, w)
  end.

Definition start_gc_loops (config : GcConfig) (w : W) : list Handle * W :=
  let '(handles, w) :=
    match GcCoordinatorImpl.initiate_interval (GcCoordinatorImpl.new config) with
    | Some interval => let '(h, w) := spawn (InitiateGcLoop interval) w in ([h], w)
    | None => ([], w)
    end in
  let '(h, w) := spawn (ObserveLoop (GcCoordinatorImpl.observe_interval (GcCoordinatorImpl.new config))) w in
  ((handles ++ [h])%list, w).

Definition start_background_tasks (fuel : nat) (self : Server) (config : GcConfig) (engine_tx : Tx)
    (expiry : result T) (w : W) : option (result (list Handle) * W) :=
  let '(handles, w) :=
    match srv_client_port self with
    | Some port => let '(h, w) := spawn (ClientListener port) w in ([h], w)
    | None => ([], w)
    end in
  let '(network_handle, w) :=
    start_network_background (srv_listen_port self) (srv_node_id self) (srv_node_name self)
      (srv_gc_replica self) w in
  '(r, w) ← start_discovery fuel self expiry w;
  match r with
  | Err e => Some (Err e, w)
  | Ok discovery_handle =>
      let '(gc_handles, w) := start_gc_loops config w in
      let '(engine_handle, w) := spawn EngineRun w in
      let handles := (handles ++ [network_handle; discovery_handle] ++ gc_handles ++ [engine_handle])%list in
      if srv_experiment self then
        match send engine_tx (ClientOperation (Add (of_string ("test-" ++ srv_node_id self)))) w with
        | (Err e, w) => Some (Err e, w)
        | (Ok _, w) => Some (Ok handles, w)
        end
      else Some (Ok handles, w)
  end.

(** *** Stopping *)
Definition abort_all (handles : list Handle) (w : W) : W := foldl (λ w h, abort h w) w handles.

Definition handle_shutdown (fuel : nat) (self : Server) (engine_tx : Tx) (handles : list Handle)
    (gc_prefix : string) (outbound_tasks : gmap NodeId Handle) (w : W)
    : option (result unit * gmap NodeId Handle * W) :=
  let '(tx_shutdown, w) := state_channel w in
  match send engine_tx (DeregistrationState tx_shutdown) w with
  | (Err e, w) => Some (Err e, outbound_tasks, w)
  | (Ok _, w) =>
      match await_state tx_shutdown w with
      | (Err e, w) => Some (Err e, outbound_tasks, w)
      | (Ok (final_dot, final_state), w) =>
          '(_, w) ← deregister fuel (srv_discovery self) gc_prefix final_dot final_state w;
          let w := abort_all handles w in
          Some (Ok tt, ∅, abort_all (map_to_list outbound_tasks).*2 w)
      end
  end.

(** *** The main loop *)
(** [None] in the result: the loop has handled the events and waits for more. *)
Fixpoint main_loop (fuel : nat) (self : Server) (engine_tx : Tx) (handles : list Handle)
    (prefix : string) (outbound_tasks : gmap NodeId Handle) (events : list ServerEvent) (w : W)
    : option (option (result unit) * gmap NodeId Handle * W) :=
  match events with
  | [] => Some (None, outbound_tasks, w)
  | Received envelope :: events' =>
      main_loop fuel self engine_tx handles prefix outbound_tasks events'
        (handle_received_envelope envelope engine_tx w)
  | MetricsTick :: events' =>
      match send engine_tx LogCrdtMetrics w with
      | (Err e, w) => Some (Some (Err e), outbound_tasks, w)
      | (Ok _, w) => main_loop fuel self engine_tx handles prefix outbound_tasks events' w
      end
  | Cancelled :: _ =>
      '(r, tasks, w) ← handle_shutdown fuel self engine_tx handles prefix outbound_tasks w;
      Some (Some r, tasks, w)
  end.

(** [outbound_tasks]: those that the discovery loop has spawned by the time of
    the shutdown. *)
Definition run (fuel : nat) (self : Server) (config : GcConfig) (engine_tx : Tx) (expiry : result T)
    (outbound_tasks : gmap NodeId Handle) (events : list ServerEvent) (w : W)
    : option (option (result unit) * gmap NodeId Handle * W) :=
  let prefix := cfg_prefix (storage_config config) in
  let '(pull_handle, w) := spawn PullLoop w in
  '(r, w) ← start_background_tasks fuel self config engine_tx expiry w;
  match r with
  | Err e => Some (Some (Err e), outbound_tasks, w)
  | Ok new_handles =>
      main_loop fuel self engine_tx (pull_handle :: new_handles) prefix outbound_tasks events w
  end.
End server.

(** ** A node: an engine behind its queue *)
Record Node (E D W : Type) `{Countable E} := mkNode {
  nd_engine : CrdtEngine (OrSet E) D;
  nd_queue : list (CrdtEngineRequest (OrSetOp E) nat);
  nd_next : nat;
  nd_world : W
}.
Arguments mkNode {E D W _ _}.
Arguments nd_engine {E D W _ _}.
Arguments nd_queue {E D W _ _}.
Arguments nd_next {E D W _ _}.
Arguments nd_world {E D W _ _}.

(** The requests that an event puts in the engine's queue. *)
Definition event_requests {Op Tok} (event : ServerEvent) : list (CrdtEngineRequest Op Tok) :=
  match event with
  | Received envelope => routed envelope
  | MetricsTick => [LogCrdtMetrics]
  | Cancelled => []
  end.

(** The state sent on a channel, among the replies. *)
Fixpoint state_reply (t : nat) (replies : list (Reply nat)) : option (Counter * bytes) :=
  match replies with
  | [] => None
  | StateReply t' final_dot final_state :: replies' =>
      if decide (t = t') then Some (final_dot, final_state) else state_reply t replies'
  | TextReply _ _ :: replies' => state_reply t replies'
  end.

Section node.
Context {E D W Tx : Type} `{Countable E} `{ElementCodec E} `{ElementFormat E}
  `{!Message ProtoOrSetDelta, !Message ProtoOrSetOp} `{!DisseminationStrategy D Tx W}.
Context (registry_of : W → PeerRegistry Tx) (exec : Exec W) (debug_matrix : MatrixClock → string).
Abbreviation Node := (Node E D W) (only parsing).
Implicit Types nd : Node.

Definition set_world nd (w : W) : Node := mkNode (nd_engine nd) (nd_queue nd) (nd_next nd) w.

Definition on_world {A} (f : W → A * W) nd : A * Node :=
  let '(a, w) := f (nd_world nd) in (a, set_world nd w).

(** Sending enqueues; waiting for a state lets the engine catch up. *)
Definition node_sender : Sender unit (CrdtEngineRequest (OrSetOp E) nat) Node := {|
  send := λ _ r nd, (Ok tt, mkNode (nd_engine nd) (nd_queue nd ++ [r]) (nd_next nd) (nd_world nd))
|}.

Definition node_await (t : nat) nd : result (Counter * bytes) * Node :=
  match handle_all registry_of exec debug_matrix (nd_engine nd) (nd_queue nd) (nd_world nd) with
  | Some (engine, replies, w) =>
      (match state_reply t replies with Some s => Ok s | None => Err "channel closed" end,
       mkNode engine [] (nd_next nd) w)
  | None => (Err "channel closed", nd)
  end.

Definition node_state_channel : StateChannel nat Node := {|
  state_channel := λ nd, (nd_next nd, mkNode (nd_engine nd) (nd_queue nd) (S (nd_next nd)) (nd_world nd));
  await_state := node_await
|}.

Definition node_s3 `{AwsS3 W} : AwsS3 Node := {|
  aws_head_bucket := λ b, on_world (aws_head_bucket b);
  aws_create_bucket := λ b, on_world (aws_create_bucket b);
  aws_put_object := λ b k v t c, on_world (aws_put_object b k v t c);
  aws_get_object := λ b k, on_world (aws_get_object b k);
  aws_delete_object := λ b k, on_world (aws_delete_object b k);
  aws_list_objects_v2 := λ b p t, on_world (aws_list_objects_v2 b p t);
  sdk_display := sdk_display (W := W)
|}.

Definition node_network {Handle} `{Network Handle W} : Network Handle Node := {|
  Connector.spawn_outbound := λ addr id name gc, on_world (Connector.spawn_outbound addr id name gc);
  start_network_background := λ port id name gc, on_world (start_network_background port id name gc);
  abort := λ h nd, set_world nd (abort h (nd_world nd));
  allow_bidirectional := allow_bidirectional (Handle := Handle) (W := W)
|}.

(** *** Lemmas *)
Lemma on_world_run {A} (f : W → A * W) nd :
  (on_world f nd).1 = (f (nd_world nd)).1 ∧ nd_world (on_world f nd).2 = (f (nd_world nd)).2.
Proof. unfold on_world. by destruct (f (nd_world nd)). Qed.

Lemma node_s3_ok `{AwsS3 W} {objects : W → string → gmap string bytes} `{!AwsS3Ok W objects} :
  @AwsS3Ok Node node_s3 (λ nd, objects (nd_world nd)).
Proof.
  refine (@Build_AwsS3Ok Node node_s3 (λ nd, objects (nd_world nd))
    (λ nd, pages (nd_world nd)) (λ nd, page_token (nd_world nd)) _ _ _ _ _ _).
  - intros b k v t nd. cbn. destruct (on_world_run (aws_put_object b k v t false) nd) as [-> ->].
    apply aws_put_ok.
  - intros b k v t nd. cbn. destruct (on_world_run (aws_put_object b k v t true) nd) as [-> ->].
    apply aws_put_absent_ok.
  - intros b k nd. cbn. destruct (on_world_run (aws_get_object b k) nd) as [-> ->]. apply aws_get_ok.
  - intros b k nd. cbn. destruct (on_world_run (aws_delete_object b k) nd) as [-> ->].
    apply aws_delete_ok.
  - intros b p nd. apply pages_ok.
  - intros b p i page nd Hi. cbn.
    destruct (on_world_run (aws_list_objects_v2 b p (if decide (i = 0%nat) then None
      else Some (page_token (nd_world nd) b p i))) nd) as [-> ->].
    by apply aws_list_ok.
Defined.
End node.

(** ** Lemmas *)
Lemma state_reply_last t replies d p :
  t ∉ reply_to <$> replies → state_reply t (replies ++ [StateReply t d p]) = Some (d, p).
Proof.
  induction replies as [|[t' x|t' d' p'] replies IH]; simpl; intros Ht.
  - by rewrite decide_True.
  - apply IH. set_solver.
  - rewrite decide_False by set_solver. apply IH. set_solver.
Qed.

Lemma abort_all_world {Handle W A} `{Network Handle W} (f : W → A) (handles : list Handle) w :
  (∀ h w, f (abort h w) = f w) → f (abort_all handles w) = f w.
Proof.
  intros Habort. unfold abort_all. revert w.
  induction handles as [|h handles IH]; intros w; simpl; [done|]. by rewrite IH, Habort.
Qed.

Lemma deregister_reliable {W} `{AwsS3 W} {objects : W → string → gmap string bytes}
    `{!AwsS3Ok W objects} fuel (self : Discovery) prefix d payload w :
  reliable (W := W) →
  (∀ p, (length (pages w (dc_bucket (d_config self)) p) <= fuel)%nat) →
  ∃ w', deregister fuel self prefix d payload w = Some (Ok tt, w').
Proof.
  intros Hrel Hfuel. unfold deregister.
  destruct (list_object_keys_ok fuel (dc_bucket (d_config self)) (registration_key_prefix (d_self_id self))
    w (Hfuel _)) as (r & w1 & Hl & _). rewrite Hl. apply list_pages_reliable in Hl; [|done].
  destruct r as [keys|]; [|done]. simpl.
  match goal with |- context [put_object ?b ?k ?v ?t w1] =>
    pose proof (put_reliable Hrel b k v t w1) as Hput; destruct (put_object b k v t w1) as [[[]|] w2] end;
    [eauto|done].
Qed.

Section shutdown.
Context {E D W Tx Handle T : Type} `{Countable E} `{ElementCodec E} `{ElementFormat E}
  `{!Message ProtoOrSetDelta, !Message ProtoOrSetOp} `{!DisseminationStrategy D Tx W}
  `{AwsS3 W} `{Network Handle W}.
Context (registry_of : W → PeerRegistry Tx) (exec : Exec W) (debug_matrix : MatrixClock → string).
Implicit Types nd : Node E D W.
#[local] Existing Instances node_sender node_s3 node_network.
#[local] Instance node_channel : StateChannel nat (Node E D W) :=
  node_state_channel registry_of exec debug_matrix.

Definition enqueued nd (l : list (CrdtEngineRequest (OrSetOp E) nat)) : Node E D W :=
  mkNode (nd_engine nd) (nd_queue nd ++ l) (nd_next nd) (nd_world nd).

Lemma enqueued_app nd l l' : enqueued (enqueued nd l) l' = enqueued nd (l ++ l').
Proof. unfold enqueued. cbn. by rewrite <- app_assoc. Qed.

Lemma node_receives envelope nd :
  handle_received_envelope envelope tt nd = enqueued nd (routed envelope).
Proof.
  unfold handle_received_envelope, routed, enqueued.
  destruct (env_payload envelope) as [[h|o|r]|]; cbn; rewrite ?app_nil_r; try by destruct nd.
  destruct (op_requester_knowledge o) as [vc|]; cbn; [|done].
  case_decide as Hvc.
  - by rewrite bool_decide_true.
  - rewrite bool_decide_false by done. cbn. by rewrite <- app_assoc.
Qed.

(** What happens before the shutdown is queued before it. *)
Lemma node_main_loop fuel self handles prefix tasks events nd :
  Cancelled ∉ events →
  main_loop fuel self tt handles prefix tasks (events ++ [Cancelled]) nd =
    '(r, tasks, nd) ← handle_shutdown fuel self tt handles prefix tasks
                        (enqueued nd (events ≫= event_requests));
    Some (Some r, tasks, nd).
Proof.
  revert nd. induction events as [|event events IH]; intros nd Hno.
  { cbn -[handle_shutdown]. unfold enqueued. rewrite app_nil_r. by destruct nd. }
  rewrite not_elem_of_cons in Hno. destruct Hno as [Hne Hno].
  destruct event as [envelope| |]; [| |done]; cbn -[handle_shutdown handle_received_envelope].
  - by rewrite node_receives, IH, enqueued_app.
  - change (mkNode _ _ _ _) with (enqueued nd [LogCrdtMetrics]). by rewrite IH, enqueued_app.
Qed.

(** The engine catches up with its queue before it answers. *)
Lemma node_final_state nd engine replies w :
  nd_next nd ∉ nd_queue nd ≫= waiting →
  handle_all registry_of exec debug_matrix (nd_engine nd) (nd_queue nd) (nd_world nd) =
    Some (engine, replies, w) →
  node_await registry_of exec debug_matrix (nd_next nd)
    (mkNode (nd_engine nd) (nd_queue nd ++ [DeregistrationState (nd_next nd)]) (S (nd_next nd)) (nd_world nd)) =
  (Ok (get_final_state_for_deregistration engine), mkNode engine [] (S (nd_next nd)) w).
Proof.
  intros Hfresh Hall. unfold node_await. cbn. rewrite handle_all_app, Hall. cbn.
  pose proof (handle_all_replies _ _ _ _ _ _ _ _ _ Hall) as Hr.
  rewrite state_reply_last; [done|by rewrite Hr].
Qed.

Lemma node_shutdown fuel self (handles : list Handle) prefix tasks nd engine replies w :
  nd_next nd ∉ nd_queue nd ≫= waiting →
  handle_all registry_of exec debug_matrix (nd_engine nd) (nd_queue nd) (nd_world nd) =
    Some (engine, replies, w) →
  handle_shutdown fuel self tt handles prefix tasks nd =
    let '(final_dot, final_state) := get_final_state_for_deregistration engine in
    '(_, nd) ← deregister fuel (srv_discovery self) prefix final_dot final_state
                 (mkNode engine [] (S (nd_next nd)) w);
    Some (Ok tt, ∅, abort_all (map_to_list tasks).*2 (abort_all handles nd)).
Proof.
  intros Hfresh Hall. unfold handle_shutdown. cbn -[deregister abort_all node_await].
  by rewrite (node_final_state nd engine replies w).
Qed.

Lemma node_reliable : reliable (W := W) → reliable (W := Node E D W).
Proof.
  intros Hrel. split.
  - intros b k v t nd. pose proof (put_reliable Hrel b k v t (nd_world nd)) as Hp. revert Hp.
    unfold put_object, question. cbn. unfold on_world.
    by destruct (aws_put_object b k v t false (nd_world nd)) as [[|] ?].
  - intros b k nd. pose proof (delete_reliable Hrel b k (nd_world nd)) as Hp. revert Hp.
    unfold delete_object, question. cbn. unfold on_world.
    by destruct (aws_delete_object b k (nd_world nd)) as [[|] ?].
  - intros b p t nd. destruct (list_reliable Hrel b p t (nd_world nd)) as [x Hx]. exists x. cbn.
    by destruct (on_world_run (aws_list_objects_v2 b p t) nd) as [-> _].
Qed.

(** ** Properties *)
Context {objects : W → string → gmap string bytes} `{!AwsS3Ok W objects} `{Chrono T}
  `{!ElementCodecOk E} `{!MessageOk ProtoOrSetDelta proto_or_set_delta_ok}.
Context (cfg : GcStorageConfig).

(** A node that is told to stop handles everything it received before,
    then leaves: with a bucket that answers, it is no longer listed, the
    collectors read as its final dot the counter that its vector holds for
    itself (unless its id has an underscore), and its whole final state is
    published under that dot. *)
Theorem graceful_shutdown fuel (self : Server) (handles : list Handle) tasks events nd
    (engine : CrdtEngine (OrSet E) D) replies w1 :
  let nd1 := enqueued nd (events ≫= event_requests) in
  let n := d_self_id (srv_discovery self) in
  let b := S3GcStorageImpl.bucket cfg in
  let final_dot := d_counter (dot (dvv engine)) in
  dc_bucket (d_config (srv_discovery self)) = b → apart_from_nodes cfg →
  trim_end_matches "/"%char (cfg_prefix cfg) = cfg_prefix cfg →
  reliable (W := W) → (∀ (h : Handle) w, objects (abort h w) = objects w) →
  Cancelled ∉ events →
  nd_next nd1 ∉ nd_queue nd1 ≫= waiting →
  handle_all registry_of exec debug_matrix (nd_engine nd1) (nd_queue nd1) (nd_world nd1) =
    Some (engine, replies, w1) →
  dot_outside (dvv engine) → final_dot < u64_modulus →
  orset_delta_ok (engine_full_state (replica_of engine)) →
  (∀ p, (length (pages w1 b p) <= fuel)%nat) →
  (∀ k c, is_Some (objects w1 b !! k) →
     S3GcStorageImpl.parse_final_dot_key cfg k = Some (n, c) → c = final_dot) →
  ∃ nd', main_loop fuel self tt handles (cfg_prefix cfg) tasks (events ++ [Cancelled]) nd =
      Some (Some (Ok tt), ∅ : gmap NodeId Handle, nd') ∧
    let objs := objects (nd_world nd') b in
    n ∉ live_ids_of (T := T) objs ∧
    S3GcStorageImpl.collect_final_dots cfg (listing (S3GcStorageImpl.final_dots_key_prefix cfg) objs) !! n =
      (if char_free "_"%char n then Some final_dot else None) ∧
    final_dot = get_or0 (knowledge (replica_of engine)) (d_node_id (dot (dvv engine))) ∧
    ∃ payload, objs !! final_dot_key cfg n final_dot = Some payload ∧
      OrSetImpl.decode_delta payload = Ok (engine_full_state (replica_of engine)).
Proof.
  intros nd1 n b final_dot Hb Hap Htrim Hrel Habort Hno Hfresh Hall Hout Hmod Hok Hfuel Huniq.
  rewrite node_main_loop by done.
  fold nd1. rewrite (node_shutdown fuel self handles (cfg_prefix cfg) tasks nd1 engine replies w1) by done.
  unfold get_final_state_for_deregistration. cbn -[deregister abort_all OrSetImpl.encode_delta].
  set (payload := OrSetImpl.encode_delta _). set (nd2 := mkNode engine [] _ w1).
  pose (Hs3 := node_s3_ok (E := E) (D := D) (objects := objects)).
  destruct (deregister_reliable (objects := λ nd, objects (nd_world nd)) fuel (srv_discovery self)
    (cfg_prefix cfg) final_dot payload nd2) as [nd3 Hder].
  { by apply node_reliable. }
  { rewrite Hb. exact Hfuel. }
  assert (∀ hs nd, objects (nd_world (abort_all hs nd)) = objects (nd_world nd)) as Hkeep.
  { intros hs nd'. apply (abort_all_world (λ nd, objects (nd_world nd))). intros. apply Habort. }
  change (d_counter (dot (dvv engine))) with final_dot. rewrite Hder. eexists. split; [reflexivity|].
  cbv zeta. rewrite !Hkeep.
  destruct (departed_bucket cfg (T := T) n final_dot payload (objects w1 b) (objects (nd_world nd3) b))
    as (Hlive & Hpub & Hdots); [done..| |].
  { apply (deregister_objects (objects := λ nd, objects (nd_world nd)) cfg fuel (srv_discovery self)
      final_dot payload nd2 nd3); [done|exact Hfuel| | |done].
    - apply (delete_reliable (node_reliable Hrel)).
    - unfold final_dot_key. rewrite <- Htrim. apply Hap. }
  split_and!; [done|done| |exists payload; split; [done|by apply decode_encode_orset_delta]].
  unfold knowledge. rewrite get_or0_effective_map. symmetry. by apply effective_counter_own_outside.
Qed.
End shutdown.

Section heartbeat.
Context {W T : Type} `{AwsS3 W} {objects : W → string → gmap string bytes} `{!AwsS3Ok W objects}
  `{ChronoOk T}.
Context (cfg : GcStorageConfig).

Lemma register_reliable fuel (self : Discovery) (t : T) w :
  reliable (W := W) →
  (∀ p, (length (pages w (dc_bucket (d_config self)) p) <= fuel)%nat) →
  ∃ w', register fuel self (Ok t) w = Some (Ok tt, w').
Proof.
  intros Hrel Hfuel. unfold register.
  destruct (list_object_keys_ok fuel (dc_bucket (d_config self)) (registration_key_prefix (d_self_id self))
    w (Hfuel _)) as (r & w1 & Hl & _). rewrite Hl. apply list_pages_reliable in Hl; [|done].
  destruct r as [keys|]; [|done]. simpl. case_decide; [|eauto].
  match goal with |- context [put_object ?b ?k ?v ?t w1] =>
    pose proof (put_reliable Hrel b k v t w1) as Hput; destruct (put_object b k v t w1) as [[[]|] w2] end;
    [eauto|done].
Qed.

(** The discovery loop is aborted only after the node has deregistered.  A
    heartbeat in between finds no key of the node and registers it again: the
    node is gone, and a listed member for ever, with its final dot beside. *)
Theorem late_heartbeat_revives_node fuel (self : Discovery) d payload (t : T) w w' :
  let n := d_self_id self in
  let b := S3GcStorageImpl.bucket cfg in
  dc_bucket (d_config self) = b → apart_from_nodes cfg →
  trim_end_matches "/"%char (cfg_prefix cfg) = cfg_prefix cfg →
  reliable (W := W) →
  (∀ p, (length (pages w b p) <= fuel)%nat) → (∀ p, (length (pages w' b p) <= fuel)%nat) →
  node_id_ok n → pair_free "_"%char (listen_host self ++ ":" ++ listen_port self) = true →
  deregister fuel self (cfg_prefix cfg) d payload w = Some (Ok tt, w') →
  ∃ w'', register fuel self (Ok t) w' = Some (Ok tt, w'') ∧
    n ∈ live_ids_of (T := T) (objects w'' b) ∧
    objects w'' b !! final_dot_key cfg n d = Some payload.
Proof.
  intros n b Hb Hap Htrim Hrel Hfuel Hfuel' Hn Haddr Hder.
  assert (starts_with DISCOVERY_NODES_PREFIX (final_dot_key cfg n d) = false) as Hkey
    by (unfold final_dot_key; rewrite <- Htrim; apply Hap).
  pose proof (deregister_objects cfg fuel self d payload w w' Hb Hfuel (delete_reliable Hrel) Hkey Hder)
    as Hobjs. fold n b in Hobjs.
  assert (∀ k, starts_with (registration_key_prefix n) k = true → k ≠ final_dot_key cfg n d) as Hne
    by (intros k Hk%registration_prefix_nodes ->; congruence).
  destruct (register_reliable fuel self t w' Hrel) as [w'' Hreg]; [by rewrite Hb|].
  exists w''. split; [done|].
  destruct (registration_is_written_once (objects := objects) fuel self t w' w'') as [_ Hfirst];
    [by rewrite Hb|done|]. rewrite Hb in Hfirst. fold n b in Hfirst.
  destruct Hfirst as [Hwritten Hlive]; [intros k Hk; by rewrite Hobjs, decide_True|].
  split; [by apply Hlive|].
  rewrite Hwritten, lookup_insert_ne; [|apply Hne, registration_key_own].
  rewrite Hobjs, decide_False, decide_True; [done|done|]. intros Hs. by apply Hne in Hs.
Qed.
End heartbeat.

(** ** Witnesses *)
#[local] Instance delta_codec : Message ProtoOrSetDelta := countable_message ProtoOrSetDelta.
#[local] Instance op_codec : Message ProtoOrSetOp := countable_message ProtoOrSetOp.
#[local] Instance delta_codec_ok : MessageOk ProtoOrSetDelta proto_or_set_delta_ok.
Proof. apply countable_message_ok. Qed.

#[local] Instance text_format : ElementFormat RustString := {|
  display := λ e, `e;
  debug := λ e, `e;
  debug_add_entry := λ p, `p.1;
  debug_tombstone_entry := λ p, d_node_id p.1
|}.

(** A bucket, no open channel, and tasks that are numbers. *)
#[local] Instance closed_channels : Channel nat Envelope Buckets := {|
  try_send := λ _ _ w, (Err "channel closed", w)
|}.
#[local] Instance first_peer : Rng Buckets := {| choose := λ l w, (head l, w) |}.
#[local] Instance numbered_tasks : Network nat Buckets := {|
  Connector.spawn_outbound := λ _ _ _ _ w, (0%nat, w);
  start_network_background := λ _ _ _ _ w, (0%nat, w);
  abort := λ _ w, w;
  allow_bidirectional := false
|}.

Lemma memory_reliable : reliable (W := Buckets).
Proof. split; [done|done|]. intros b p t w. by eexists. Qed.

Definition demo_peers (_ : Buckets) : PeerRegistry nat := two_peers.

Definition demo_calls : Exec Buckets := λ c w,
  ((store_exec c (mkStore None None ∅ ∅ ["B"; "A"])).1, w).

Definition demo_server : Server :=
  mkServer "B" "B" false false "7000" None
    (mkDiscovery (demo_discovery_config false) "B" "B" "10.0.0.1" "7000").

(** An addition is queued, and the metrics are due, when the node is stopped. *)
Definition demo_node_state : Node RustString PushPull Buckets :=
  mkNode (demo_engine "B") [ClientOperation (Add hello)] 0 ∅.

Definition demo_stopped : CrdtEngine (OrSet RustString) PushPull :=
  default (demo_engine "B")
    ((λ x, x.1.1) <$> handle_all (Tok := nat) demo_peers demo_calls demo_debug (demo_engine "B")
       [ClientOperation (Add hello); LogCrdtMetrics] ∅).

Lemma graceful_shutdown_witness :
  ∃ nd' : Node RustString PushPull Buckets,
    let objs := bucket_objects (nd_world nd') "crdt-peers" in
    "B" ∉ live_ids_of (T := { z : Z | in_i64 z = true }) objs ∧
    S3GcStorageImpl.collect_final_dots demo_storage
      (listing (S3GcStorageImpl.final_dots_key_prefix demo_storage) objs) !! "B" = Some 1.
Proof.
  destruct (graceful_shutdown (T := { z : Z | in_i64 z = true }) (objects := bucket_objects)
    demo_peers demo_calls demo_debug demo_storage 1 demo_server [] ∅ [MetricsTick] demo_node_state
    demo_stopped [] ∅) as (nd' & _ & Hlive & Hdots & _).
  - reflexivity.
  - exact demo_apart.
  - reflexivity.
  - exact memory_reliable.
  - reflexivity.
  - by intros ?%list_elem_of_singleton.
  - by intros ?%elem_of_nil.
  - unfold demo_stopped. reflexivity.
  - left. vm_compute. reflexivity.
  - vm_compute. reflexivity.
  - exact (demo_writer_delta_ok (OrSetImpl.full_state (crdt demo_writer_engine)) (or_intror eq_refl)).
  - intros p. apply le_n.
  - intros k c [v Hv]. vm_compute in Hv. discriminate Hv.
  - exists nd'. split; [exact Hlive|]. refine (eq_trans Hdots _). vm_compute. reflexivity.
Defined.

Lemma late_heartbeat_revives_node_witness :
  ∃ w', deregister 1 demo_node "gc" 7 [x00] (∅ : Buckets) = Some (Ok tt, w') ∧
    ∃ w'', register 1 demo_node (Ok demo_time) w' = Some (Ok tt, w'') ∧
      "A" ∈ live_ids_of (T := { z : Z | in_i64 z = true }) (bucket_objects w'' "crdt-peers").
Proof.
  eexists. split; [reflexivity|].
  edestruct (late_heartbeat_revives_node (objects := bucket_objects) demo_storage 1 demo_node 7 [x00]
    demo_time (∅ : Buckets)) as (w'' & Hreg & Hlive & _); cycle -1.
  - exists w''. split; [exact Hreg|exact Hlive].
  - reflexivity.
  - exact demo_apart.
  - reflexivity.
  - exact memory_reliable.
  - intros p. apply le_n.
  - intros p. apply le_n.
  - split; [discriminate|reflexivity].
  - reflexivity.
  - reflexivity.
Defined.
