(* ===== verification/Config.v ===== *)
(** * Configurations ([src/src/main.rs], [src/src/experiment/experiment.rs])

    How the command line of the server becomes the configurations of its parts,
    and the replicas and the topology of the experiment runner.  [clap] fills
    the records [Cli] and [ConfigCliInfo].  The theorems show that a list of
    node ids is read back as it was joined, and that the experiment's topology
    is symmetric, connected within three hops and balanced. *)
From Stdlib Require Import Strings.String Strings.Ascii.
From stdpp Require Import base gmap sets list strings.
From S2P Require Import Prelude Text Discovery Coordinator Server.
Local Open Scope rust_scope.
Local Open Scope string_scope.
Local Open Scope N_scope.

(** [Duration::from_secs], in nanoseconds. *)
Definition from_secs (secs : N) : N := secs * 1000000000.

(** ** The server's command line *)
Module MainCli.
Record Cli := mkCli {
  listen_host : string;
  listen_port : string;
  name : option string;
  client_port : option string;
  s3_endpoint : string;
  s3_bucket : string;
  s3_region : string;
  s3_access_key : string;
  s3_secret_key : string;
  discovery_interval_secs : N;
  registration_ttl_secs : N;
  discovery_connect_node_ids : option string;
  gc_replica : bool;
  gc_prefix : string;
  gc_initiate_interval_secs : N;
  gc_observe_interval_secs : N;
  metrics_path : string
}.

(** The ids separated by commas; no id at all means no restriction. *)
Definition split_ids (raw : string) : gset NodeId :=
  list_to_set (List.filter (λ id, negb (bool_decide (id = ""))) (trim <$> split_char ","%char raw)).

Definition connect_node_ids (cli : Cli) : option (gset NodeId) :=
  raw ← discovery_connect_node_ids cli;
  let set := split_ids raw in
  if decide (set = ∅) then None else Some set.

Definition discovery_config (cli : Cli) : DiscoveryConfig := {|
  dc_endpoint := s3_endpoint cli;
  dc_bucket := s3_bucket cli;
  dc_region := s3_region cli;
  dc_access_key := s3_access_key cli;
  dc_secret_key := s3_secret_key cli;
  poll_interval := from_secs (discovery_interval_secs cli);
  registration_ttl := from_secs (registration_ttl_secs cli);
  dc_gc_replica := gc_replica cli;
  Discovery.connect_node_ids := connect_node_ids cli
|}.

Definition server_config (cli : Cli) : ServerConfig := {|
  sc_listen_host := listen_host cli;
  sc_listen_port := listen_port cli;
  sc_node_name := default (listen_host cli) (name cli);
  sc_gc_replica := gc_replica cli;
  sc_experiment := false;
  sc_client_port := client_port cli
|}.

Definition gc_config (cli : Cli) : GcConfig := {|
  Coordinator.gc_replica := gc_replica cli;
  observe_interval := from_secs (gc_observe_interval_secs cli);
  storage_config := mkGcStorageConfig (s3_bucket cli) (gc_prefix cli);
  gc_replica_config :=
    if gc_replica cli
    then Some (mkGcReplicaConfig (from_secs (gc_initiate_interval_secs cli)))
    else None
|}.
End MainCli.

(** ** The experiment *)
Module ExperimentCli.
Record Cli := mkCli {
  listen_host : string;
  client_port : option string;
  s3_endpoint : string;
  s3_bucket : string;
  s3_region : string;
  s3_access_key : string;
  s3_secret_key : string;
  discovery_interval_secs : N;
  registration_ttl_secs : N;
  num_gc_replicas : N;
  num_normal_replicas : N;
  gc_prefix : string;
  gc_initiate_interval_secs : N;
  gc_observe_interval_secs : N;
  metrics_path : string
}.
End ExperimentCli.

Module Experiment.
Record ConfigCliInfo := mkConfigCliInfo {
  endpoint : string;
  bucket : string;
  region : string;
  access_key : string;
  secret_key : string;
  discovery_interval_secs : N;
  registration_ttl_secs : N;
  gc_prefix : string;
  listen_host : string;
  gc_observe_interval_secs : N;
  gc_initiate_interval_secs : N;
  num_gc_replicas : N;
  num_normal_replicas : N
}.

Definition config_info (cli : ExperimentCli.Cli) : ConfigCliInfo := {|
  endpoint := ExperimentCli.s3_endpoint cli;
  bucket := ExperimentCli.s3_bucket cli;
  region := ExperimentCli.s3_region cli;
  access_key := ExperimentCli.s3_access_key cli;
  secret_key := ExperimentCli.s3_secret_key cli;
  discovery_interval_secs := ExperimentCli.discovery_interval_secs cli;
  registration_ttl_secs := ExperimentCli.registration_ttl_secs cli;
  gc_prefix := ExperimentCli.gc_prefix cli;
  listen_host := ExperimentCli.listen_host cli;
  gc_observe_interval_secs := ExperimentCli.gc_observe_interval_secs cli;
  gc_initiate_interval_secs := ExperimentCli.gc_initiate_interval_secs cli;
  num_gc_replicas := ExperimentCli.num_gc_replicas cli;
  num_normal_replicas := ExperimentCli.num_normal_replicas cli
|}.

(** [1..=n] *)
Definition one_to (n : N) : list N := N.of_nat <$> seq 1 (N.to_nat n).

Definition gc_name (i : N) : NodeId := "gc-server-" ++ show_u64 i.

Definition normal_name (i : N) : NodeId := "normal-server-" ++ show_u64 i.

(** The address, name, port and role of each replica. *)
Definition gc_replica_of (host : string) (r : N) : string * NodeId * N * bool :=
  let gc_port := u64_add 8000 r in
  (host ++ ":" ++ show_u64 gc_port, gc_name r, gc_port, true).

Definition normal_replica_of (host : string) (r : N) : string * NodeId * N * bool :=
  let gc_port := u64_add 6000 r in
  (host ++ ":" ++ show_u64 gc_port, normal_name r, gc_port, false).

Definition replicas (host : string) (num_gc_replicas num_normal_replicas : N)
    : list (string * NodeId * N * bool) :=
  ((gc_replica_of host <$> one_to num_gc_replicas) ++
   (normal_replica_of host <$> one_to num_normal_replicas))%list.

(** The channels by address; the channel of a replica is its position. *)
Definition insert_channel (m : gmap string (NodeId * bool * nat))
    (e : nat * (string * NodeId * N * bool)) : gmap string (NodeId * bool * nat) :=
  let '(i, (node_addr, node_name, _, gc_replica)) := e in <[node_addr := (node_name, gc_replica, i)]> m.

Definition channels_map (l : list (string * NodeId * N * bool)) : gmap string (NodeId * bool * nat) :=
  foldl insert_channel ∅ (imap pair l).

(** The channels a replica is started with: the one it sends its own messages
    to, found by its address, and the one it receives from. *)
Definition app_channels (l : list (string * NodeId * N * bool)) : list (option nat * nat) :=
  imap (λ i e, (snd <$> channels_map l !! e.1.1.1, i)) l.

(** The collector of a normal node; [None] is the panic of a remainder by zero. *)
Definition round_robin (i gc_count : N) : option N :=
  if gc_count =? 0 then None
  else Some (((i + u64_max) mod u64_modulus) mod gc_count + 1).

Definition gc_peers (gc_count idx : N) : list N :=
  List.filter (λ j, negb (j =? idx)) (one_to gc_count).

Definition normal_peers (gc_count normal_count idx : N) : list N :=
  List.filter (λ i, bool_decide (round_robin i gc_count = Some idx)) (one_to normal_count).

(** [None] is a panic. *)
Definition compute_connect_node_ids (node_name : NodeId) (gc_replica : bool)
    (gc_count normal_count : N) : option (gset NodeId) :=
  if gc_replica then
    idx ← strip_prefix "gc-server-" node_name ≫= parse_u64;
    if (gc_count =? 0) && (0 <? normal_count) then None
    else Some (list_to_set ((gc_name <$> gc_peers gc_count idx) ++
                            (normal_name <$> normal_peers gc_count normal_count idx))%list)
  else
    idx ← strip_prefix "normal-server-" node_name ≫= parse_u64;
    gc_idx ← round_robin idx gc_count;
    Some {[gc_name gc_idx]}.

(** The configurations of one server of the experiment. *)
Definition connect_node_ids (info : ConfigCliInfo) (node_name : NodeId) (gc_replica : bool)
    : option (option (gset NodeId)) :=
  if num_normal_replicas info =? 0 then Some None
  else Some <$> compute_connect_node_ids node_name gc_replica (num_gc_replicas info)
                  (num_normal_replicas info).

Definition server_setup (info : ConfigCliInfo) (node_name : NodeId) (listen_port : N)
    (gc_replica : bool) : option (DiscoveryConfig * ServerConfig * GcConfig) :=
  ids ← connect_node_ids info node_name gc_replica;
  Some
    ({| dc_endpoint := endpoint info;
        dc_bucket := bucket info;
        dc_region := region info;
        dc_access_key := access_key info;
        dc_secret_key := secret_key info;
        poll_interval := from_secs (discovery_interval_secs info);
        registration_ttl := from_secs (registration_ttl_secs info);
        dc_gc_replica := gc_replica;
        Discovery.connect_node_ids := ids |},
     {| sc_listen_host := listen_host info;
        sc_listen_port := show_u64 listen_port;
        sc_node_name := node_name;
        sc_gc_replica := gc_replica;
        sc_experiment := true;
        sc_client_port := None |},
     {| Coordinator.gc_replica := gc_replica;
        observe_interval := from_secs (gc_observe_interval_secs info);
        storage_config := mkGcStorageConfig (bucket info) (gc_prefix info);
        gc_replica_config :=
          if gc_replica
          then Some (mkGcReplicaConfig (from_secs (gc_initiate_interval_secs info)))
          else None |}).
End Experiment.
Import Experiment.

(** ** Lemmas *)
Lemma elem_of_one_to n x : x ∈ one_to n ↔ 1 <= x <= n.
Proof.
  unfold one_to. rewrite list_elem_of_fmap. split.
  - intros (k & -> & Hk%elem_of_seq). lia.
  - intros Hx. exists (N.to_nat x). rewrite elem_of_seq. lia.
Qed.

Lemma one_to_succ n : one_to (n + 1) = (one_to n ++ [n + 1])%list.
Proof.
  unfold one_to. replace (N.to_nat (n + 1)) with (S (N.to_nat n)) by lia.
  rewrite seq_S, fmap_app. simpl. do 2 f_equal. lia.
Qed.

Definition home (g k : N) : N := (k - 1) mod g + 1.

Lemma home_range g k : 0 < g → 1 <= home g k <= g.
Proof.
  intros Hg. unfold home. pose proof (N.mod_lt (k - 1) g ltac:(lia)) as Hm.
  generalize dependent ((k - 1) mod g). intros m Hm. lia.
Qed.

Lemma round_robin_home i g : 0 < g → 1 <= i < u64_modulus → round_robin i g = Some (home g i).
Proof.
  intros Hg [Hi Hlt]. unfold round_robin. rewrite (proj2 (N.eqb_neq g 0)) by lia.
  unfold home. do 3 f_equal. unfold u64_max, u64_modulus in *.
  replace (i + 18446744073709551615) with ((i - 1) + 1 * 18446744073709551616) by lia.
  rewrite N.Div0.mod_add. by apply N.mod_small; lia.
Qed.

Lemma elem_of_gc_peers g i j : j ∈ gc_peers g i ↔ 1 <= j <= g ∧ j ≠ i.
Proof.
  unfold gc_peers. rewrite list_elem_of_In, filter_In, <- list_elem_of_In, elem_of_one_to.
  by rewrite negb_true_iff, N.eqb_neq.
Qed.

Lemma elem_of_normal_peers g n i k :
  0 < g → n < u64_modulus → k ∈ normal_peers g n i ↔ 1 <= k <= n ∧ home g k = i.
Proof.
  intros Hg Hn. unfold normal_peers.
  rewrite list_elem_of_In, filter_In, <- list_elem_of_In, elem_of_one_to, bool_decide_eq_true.
  split.
  - intros [Hk Hr]. rewrite round_robin_home in Hr by lia. by simplify_eq.
  - intros [Hk <-]. split; [done|]. apply round_robin_home; lia.
Qed.

Lemma div_step g n i :
  0 < g → 1 <= i <= g →
  (n + 1 + g - i) / g = (n + g - i) / g + (if home g (n + 1) =? i then 1 else 0).
Proof.
  intros Hg Hi. unfold home. replace (n + 1 - 1) with n by lia.
  pose proof (N.div_mod n g ltac:(lia)) as Hn. pose proof (N.mod_lt n g ltac:(lia)) as Hr.
  set (q := n / g) in *. set (r := n mod g) in *.
  destruct (N.lt_ge_cases r i) as [Hlt|Hge].
  - replace ((n + g - i) / g) with q by (apply (N.div_unique _ _ _ (r + g - i)); lia).
    destruct (N.eqb_spec (r + 1) i) as [Heq|Hne].
    + symmetry. apply (N.div_unique _ _ _ 0); lia.
    + symmetry. apply (N.div_unique _ _ _ (r + 1 + g - i)); lia.
  - rewrite (proj2 (N.eqb_neq (r + 1) i)) by lia.
    replace ((n + g - i) / g) with (q + 1) by (apply (N.div_unique _ _ _ (r - i)); lia).
    symmetry. apply (N.div_unique _ _ _ (r + 1 - i)); lia.
Qed.

Lemma normal_peers_count g n i :
  0 < g → 1 <= i <= g → n < u64_modulus →
  N.of_nat (length (normal_peers g n i)) = (n + g - i) / g.
Proof.
  intros Hg Hi. induction n as [|n IH] using N.peano_ind; intros Hn.
  { simpl. symmetry. apply N.div_small. lia. }
  rewrite <- N.add_1_r, div_step, <- IH by (done || lia).
  unfold normal_peers. rewrite one_to_succ, List.filter_app, length_app. simpl.
  rewrite round_robin_home by lia. case_bool_decide as Hb; simplify_eq; simpl.
  - rewrite N.eqb_refl. lia.
  - rewrite (proj2 (N.eqb_neq _ _)) by congruence. lia.
Qed.

(** *** Names *)
Lemma gc_name_inj i j : gc_name i = gc_name j → i = j.
Proof. intros H%string_app_inj_l. by apply show_u64_inj. Qed.

Lemma normal_name_inj i j : normal_name i = normal_name j → i = j.
Proof. intros H%string_app_inj_l. by apply show_u64_inj. Qed.

Lemma parse_gc_name i : i < u64_modulus → strip_prefix "gc-server-" (gc_name i) ≫= parse_u64 = Some i.
Proof. intros Hi. unfold gc_name. rewrite strip_prefix_app. by apply parse_u64_show. Qed.

Lemma parse_normal_name i :
  i < u64_modulus → strip_prefix "normal-server-" (normal_name i) ≫= parse_u64 = Some i.
Proof. intros Hi. unfold normal_name. rewrite strip_prefix_app. by apply parse_u64_show. Qed.

(** ** The nodes of an experiment *)
Inductive Server_id : Type := Gc (i : N) | Normal (k : N).

#[export] Instance Server_id_eq_dec : EqDecision Server_id.
Proof. solve_decision. Defined.

Definition name_of (a : Server_id) : NodeId :=
  match a with Gc i => gc_name i | Normal k => normal_name k end.

Definition is_gc (a : Server_id) : bool := match a with Gc _ => true | Normal _ => false end.

Definition in_experiment (g n : N) (a : Server_id) : Prop :=
  match a with Gc i => 1 <= i <= g | Normal k => 1 <= k <= n end.

(** [a] connects to [b]. *)
Definition connects (g n : N) (a b : Server_id) : Prop :=
  ∃ ids, compute_connect_node_ids (name_of a) (is_gc a) g n = Some ids ∧ name_of b ∈ ids.

Definition neighbours (g : N) (a b : Server_id) : Prop :=
  match a, b with
  | Gc i, Gc j => i ≠ j
  | Gc i, Normal k | Normal k, Gc i => home g k = i
  | Normal _, Normal _ => False
  end.

Lemma topology_defined g n a :
  0 < g → g < u64_modulus → n < u64_modulus → in_experiment g n a →
  ∃ ids, compute_connect_node_ids (name_of a) (is_gc a) g n = Some ids ∧
    ∀ b, in_experiment g n b → name_of b ∈ ids ↔ neighbours g a b.
Proof.
  intros Hg Hgm Hn Ha. destruct a as [i|k]; cbn [in_experiment name_of is_gc] in *;
    unfold compute_connect_node_ids.
  - rewrite parse_gc_name by lia. cbn [mbind option_bind].
    rewrite (proj2 (N.eqb_neq g 0)) by lia. cbn [andb]. eexists. split; [done|].
    intros b Hb. rewrite elem_of_list_to_set, elem_of_app, !list_elem_of_fmap.
    destruct b as [j|k]; simpl in *.
    + split.
      * intros [(j' & ->%gc_name_inj & Hj%elem_of_gc_peers)|(k & Hk & _)]; [naive_solver|discriminate Hk].
      * intros Hne. left. exists j. by rewrite elem_of_gc_peers.
    + split.
      * intros [(j' & Hj & _)|(k' & ->%normal_name_inj & Hk)]; [discriminate Hj|].
        by apply elem_of_normal_peers in Hk as [_ ?].
      * intros Hh. right. exists k. by rewrite elem_of_normal_peers.
  - rewrite parse_normal_name by lia. cbn [mbind option_bind].
    rewrite round_robin_home by lia. cbn [mbind option_bind]. eexists. split; [done|].
    intros b Hb. rewrite elem_of_singleton. destruct b as [j|k']; simpl in *.
    + split; [by intros ->%gc_name_inj|by intros ->].
    + split; [discriminate|done].
Qed.

Lemma connects_neighbours g n a b :
  0 < g → g < u64_modulus → n < u64_modulus → in_experiment g n a → in_experiment g n b →
  connects g n a b ↔ neighbours g a b.
Proof.
  intros Hg Hgm Hn Ha Hb. destruct (topology_defined g n a) as (ids & Hids & Hspec); [done..|].
  rewrite <- Hspec by done. unfold connects. rewrite Hids. naive_solver.
Qed.

(** ** Properties *)
(** C38. The topology of the experiment, with at least one collector: every node computes
    its peers without a panic and never itself; connections are mutual, so both
    ends agree on them; a normal node has one collector; any two nodes are at
    most three hops apart, over their collectors; and the collectors share the
    normal nodes evenly. *)
Theorem experiment_topology g n :
  0 < g → g < u64_modulus → n < u64_modulus →
  (∀ a, in_experiment g n a →
     is_Some (compute_connect_node_ids (name_of a) (is_gc a) g n) ∧ ¬ connects g n a a) ∧
  (∀ a b, in_experiment g n a → in_experiment g n b → connects g n a b ↔ connects g n b a) ∧
  (∀ k, 1 <= k <= n →
     compute_connect_node_ids (normal_name k) false g n = Some {[gc_name (home g k)]}) ∧
  (∀ a b, in_experiment g n a → in_experiment g n b →
     ∃ c d, in_experiment g n c ∧ in_experiment g n d ∧
       (a = c ∨ connects g n a c) ∧ (c = d ∨ connects g n c d) ∧ (d = b ∨ connects g n d b)) ∧
  (∀ i, 1 <= i <= g →
     n / g <= N.of_nat (length (normal_peers g n i)) <= n / g + 1).
Proof.
  intros Hg Hgm Hn. split_and!.
  - intros a Ha. split.
    + destruct (topology_defined g n a) as (ids & -> & _); [done..|]. by eexists.
    + rewrite connects_neighbours by done. destruct a; simpl; tauto.
  - intros a b Ha Hb. rewrite !connects_neighbours by done. destruct a, b; simpl; naive_solver.
  - intros k Hk. unfold compute_connect_node_ids. rewrite parse_normal_name by lia.
    cbn [mbind option_bind]. by rewrite round_robin_home by lia.
  - intros a b Ha Hb.
    set (hub := λ s, match s with Gc i => Gc i | Normal k => Gc (home g k) end).
    assert (∀ s, in_experiment g n s → in_experiment g n (hub s)) as Hhub.
    { intros [i|k] Hs; simpl in *; [done|by apply home_range]. }
    exists (hub a), (hub b). split_and!; [by apply Hhub..| | |].
    + destruct a as [i|k]; [by left|right]. by apply connects_neighbours; [..|apply (Hhub (Normal k))|].
    + destruct (decide (hub a = hub b)) as [He|Hne]; [by left|right].
      apply connects_neighbours; [done..|by apply Hhub|by apply Hhub|].
      destruct a, b; simpl in *; congruence.
    + destruct b as [i|k]; [by left|right]. by apply connects_neighbours; [..|apply (Hhub (Normal k))| |].
  - intros i Hi. rewrite normal_peers_count by done.
    pose proof (N.div_mod n g ltac:(lia)). pose proof (N.mod_lt n g ltac:(lia)). split.
    + apply N.Div0.div_le_mono. lia.
    + rewrite <- (N.div_add n 1 g) by lia. apply N.Div0.div_le_mono. lia.
Qed.

(** [l.join(",")] *)
Fixpoint join (sep : string) (l : list string) : string :=
  match l with
  | [] => ""
  | [a] => a
  | a :: l' => a ++ sep ++ join sep l'
  end.

Lemma split_join l :
  l ≠ [] → Forall (λ a, char_free ","%char a = true) l → split_char ","%char (join "," l) = l.
Proof.
  intros Hne Hl. induction Hl as [|a l Ha Hl IH]; [by destruct Hne|].
  destruct l as [|b l]; [by apply split_char_free|].
  change (join "," (a :: b :: l)) with (a ++ String "," (join "," (b :: l))).
  rewrite split_char_app, IH by done. done.
Qed.

(** The node ids that a server may connect to
    are read back as they were joined with commas; when none
    is given there is no restriction. *)
Theorem configured_ids_are_read_back cli l :
  Forall (λ id, id ≠ "" ∧ trim id = id ∧ char_free ","%char id = true) l →
  MainCli.discovery_connect_node_ids cli = Some (join "," l) →
  Discovery.connect_node_ids (MainCli.discovery_config cli) =
    (if decide (l = []) then None else Some (list_to_set l)).
Proof.
  intros Hl Hraw. simpl. unfold MainCli.connect_node_ids. rewrite Hraw. cbn [mbind option_bind].
  unfold MainCli.split_ids. destruct (decide (l = [])) as [->|Hne].
  { by rewrite decide_True by (vm_compute; reflexivity). }
  rewrite split_join by (done || by eapply Forall_impl; [done|]; simpl; tauto).
  assert (List.filter (λ id, negb (bool_decide (id = ""))) (trim <$> l) = l) as ->.
  { clear Hraw Hne. induction Hl as [|a l (Ha & Ht & _) Hl IH]; simpl; [done|].
    rewrite Ht, bool_decide_false by done. simpl. by f_equal. }
  rewrite decide_False; [done|]. destruct l; [done|]. simpl. set_solver.
Qed.

(** Replicas with addresses of their own find their own channel. *)
Lemma channels_loop (l : list (nat * (string * NodeId * N * bool))) m i e :
  NoDup ((λ p, p.2.1.1.1) <$> l) → (i, e) ∈ l →
  foldl insert_channel m l !! e.1.1.1 = Some (e.1.1.2, e.2, i).
Proof.
  revert m. induction l as [|[j p] l IH] using rev_ind; intros m; [set_solver|].
  rewrite fmap_app, NoDup_app, foldl_app. intros (Hnd & Hni & _) Hin.
  destruct p as [[[addr n] port] g]. simpl. destruct e as [[[addr' n'] port'] g'].
  simpl in *. rewrite lookup_insert. apply elem_of_app in Hin as [Hin|Hin].
  - rewrite decide_False; [by apply IH|]. intros <-. apply (Hni addr); [|set_solver].
    apply list_elem_of_fmap. by exists (i, (addr, n', port', g')).
  - apply list_elem_of_singleton in Hin. injection Hin as -> -> -> -> ->. by rewrite decide_True.
Qed.

Lemma own_channel (l : list (string * NodeId * N * bool)) :
  NoDup ((λ p, p.1.1.1) <$> l) → ∀ tx rx, (tx, rx) ∈ app_channels l → tx = Some rx.
Proof.
  intros Hnd tx rx. unfold app_channels. rewrite elem_of_lookup_imap.
  intros (i & e & [= -> ->] & He). unfold channels_map. rewrite (channels_loop _ _ i e); [done| |].
  - enough ((λ p : nat * (string * NodeId * N * bool), p.2.1.1.1) <$> imap pair l =
      (λ p, p.1.1.1) <$> l) as -> by done.
    apply list_eq. intros k. rewrite !list_lookup_fmap, list_lookup_imap. by destruct (l !! k).
  - apply elem_of_lookup_imap. by exists i, e.
Qed.

(** The replicas of the experiment have addresses of their
    own as long as there are at most 2000 normal ones, and then each is started
    with both ends of one channel; with more, a normal
    replica takes the address of a collector, and the map from addresses to
    channels keeps one of the two. *)
Theorem replica_addresses host g n :
  g < u64_modulus - 8000 → n < u64_modulus - 6000 →
  (n <= 2000 →
     NoDup ((λ p, p.1.1.1) <$> replicas host g n) ∧
     ∀ tx rx, (tx, rx) ∈ app_channels (replicas host g n) → tx = Some rx) ∧
  (1 <= g → 2000 < n → ∃ p q, p ∈ replicas host g n ∧ q ∈ replicas host g n ∧
     p.1.1.1 = q.1.1.1 ∧ p.2 = true ∧ q.2 = false).
Proof.
  unfold u64_modulus. intros Hg Hn.
  assert (∀ a r, a <= 8000 → a + r < u64_modulus → u64_add a r = a + r) as Hadd
    by (intros; by apply u64_add_small).
  split.
  - intros Hle. enough (NoDup ((λ p, p.1.1.1) <$> replicas host g n)) as Hnd
      by (split; [done|by apply own_channel]).
    unfold replicas. rewrite fmap_app, <- !list_fmap_compose. apply NoDup_app.
    assert (∀ a n', a <= 8000 → a + n' < u64_modulus →
      NoDup ((λ r, host ++ ":" ++ show_u64 (u64_add a r)) <$> one_to n')) as Hnd.
    { intros a n' Ha Hn'. unfold one_to. rewrite <- list_fmap_compose. apply NoDup_fmap_2_strong, NoDup_seq.
      intros x y Hx%elem_of_seq Hy%elem_of_seq. simpl.
      intros Heq%string_app_inj_l%string_app_inj_l%show_u64_inj. rewrite !Hadd in Heq; lia. }
    split_and!; [apply Hnd; unfold u64_modulus; lia| |apply Hnd; unfold u64_modulus; lia].
    intros s (r & -> & Hr%elem_of_one_to)%list_elem_of_fmap (r' & Heq & Hr'%elem_of_one_to)%list_elem_of_fmap.
    simpl in Heq. apply string_app_inj_l, string_app_inj_l, show_u64_inj in Heq.
    unfold u64_modulus in Hadd. rewrite !Hadd in Heq; lia.
  - intros Hg1 Hn1. exists (gc_replica_of host 1), (normal_replica_of host 2001).
    unfold replicas. rewrite !elem_of_app, !list_elem_of_fmap.
    split_and!; [left; exists 1; by rewrite elem_of_one_to; split; [|lia]|
                 right; exists 2001; by rewrite elem_of_one_to; split; [|lia]|done..].
Qed.

(** ** Witnesses *)
Lemma experiment_topology_witness :
  connects 3 10 (Gc 2) (Normal 5) ∧ connects 3 10 (Normal 5) (Gc 2).
Proof.
  destruct (experiment_topology 3 10 eq_refl eq_refl eq_refl) as (_ & Hsym & Hhome & _).
  assert (connects 3 10 (Normal 5) (Gc 2)) as Hc.
  { exists {[gc_name (home 3 5)]}. split; [apply (Hhome 5); lia|].
    change (name_of (Gc 2)) with (gc_name (home 3 5)). by apply elem_of_singleton. }
  split; [|exact Hc]. apply (Hsym (Gc 2) (Normal 5)); [simpl; lia..|exact Hc].
Defined.

Definition demo_cli (ids : string) : MainCli.Cli :=
  MainCli.mkCli "localhost" "9000" None None "http://localhost:9000" "crdt-peers" "us-east-1" "key"
    "secret" 30 30 (Some ids) false "gc" 300 120 "/var/log/crdt/server.log".

Lemma configured_ids_are_read_back_witness :
  Discovery.connect_node_ids (MainCli.discovery_config (demo_cli "gc-server-1,gc-server-2")) =
    Some (list_to_set ["gc-server-1"; "gc-server-2"]).
Proof.
  apply (configured_ids_are_read_back (demo_cli "gc-server-1,gc-server-2") ["gc-server-1"; "gc-server-2"]).
  - repeat constructor; vm_compute; congruence.
  - reflexivity.
Defined.

Lemma replica_addresses_witness :
  NoDup ((λ p, p.1.1.1) <$> replicas "localhost" 2 5).
Proof.
  refine (proj1 (proj1 (replica_addresses "localhost" 2 5 _ _) _)); vm_compute; congruence.
Defined.
