(* ===== verification/Client.v ===== *)
(** * The command-line client ([src/src/client/crdt_client.rs])

    The three modes of the client on a connection [C] that it writes commands
    to and reads answers from: the terminal, the benchmark, and one request per
    server.  [Peer] is a connection to the request handler of a server: what the
    client flushes is handled by [client_session].  The theorems say that the
    terminal prints the server's answers to its commands, in order, and when the
    benchmark ends. *)
From Stdlib Require Import Strings.Byte Strings.String Strings.Ascii.
From stdpp Require Import base gmap sets list strings.
From S2P Require Import Prelude Text Proto Crdt OrSet Registry Dissemination Engine Framing.
From S2P Require Import ClientRequests.
Local Open Scope rust_scope.
Local Open Scope string_scope.
Local Open Scope N_scope.

(** ** The modes *)
(** What the client writes to its terminal.  An answer stands as its bytes:
    [from_utf8_lossy] changes only what is not UTF-8. *)
Inductive Output : Type :=
| Stdout (text : bytes)
| Stderr (text : string).

Definition println (text : string) : Output := Stdout (as_bytes text).

(** The benchmark's draws: a key below a bound, and whether to remove. *)
Class BenchRng (G : Type) := {
  gen_range : N → G → N * G;
  gen_bool : G → bool * G
}.

(** Opening a connection to a named server. *)
Class Dialer (C W : Type) := { dial : string → W → (C + IoError) * W }.

Section modes.
Context {C : Type} `{AsyncRead C} `{AsyncWrite C} `{Message ProtoClientCommand}.
Context (debug : string → string) (show_io : IoError → string).

(** A command and its answer. *)
Definition exchange (conn : C) (cmd : Command) : (bytes + IoError) * C :=
  match send_command conn cmd with
  | (Some e, conn) => (inr e, conn)
  | (None, conn) => recv_response conn
  end.

(** The lines of the terminal, up to its end or an error of reading it. *)
Fixpoint interactive_loop (lines : list (result string)) (conn : C)
    : result unit * list Output * C :=
  match lines with
  | [] => (Ok tt, [Stderr "> "; Stderr "Disconnected."], conn)
  | Err e :: _ => (Err e, [Stderr "> "], conn)
  | Ok line :: lines' =>
      match parse_line debug line with
      | Ok (Some cmd) =>
          match exchange conn cmd with
          | (inr e, conn) => (Err (show_io e), [Stderr "> "], conn)
          | (inl resp, conn) =>
              let '(r, out, conn) := interactive_loop lines' conn in
              (r, Stderr "> " :: Stdout resp :: out, conn)
          end
      | Ok None => (Ok tt, [Stderr "> "; Stderr "Disconnected."], conn)
      | Err e =>
          let '(r, out, conn) := interactive_loop lines' conn in
          (r, (Stderr "> " :: if decide (e = "") then out else Stderr e :: out), conn)
      end
  end.

Definition run_interactive (addr_str : string) (lines : list (result string)) (conn : C)
    : result unit * list Output * C :=
  let '(r, out, conn) := interactive_loop lines conn in
  (r, Stderr ("Connected to " ++ addr_str ++
              ". Commands: add, remove, print-state, print-internals, print-matrix, quit") :: out,
   conn).

(** The commands sent are part of the result; [key_space] is not 0. *)
Fixpoint run_bench {G} `{BenchRng G} (fuel : nat) (requests : option N) (key_space count : N)
    (rng : G) (conn : C) : option (result unit * list Command * C) :=
  match fuel with
  | O => None
  | S fuel' =>
      if match requests with Some max_requests => max_requests <=? count | None => false end
      then Some (Ok tt, [], conn)
      else
        let '(key, rng) := gen_range key_space rng in
        let '(remove, rng) := if negb (count =? 0) then gen_bool rng else (false, rng) in
        let cmd := if remove then CmdRemoveRandom true else CmdAdd ("key-" ++ show_u64 key) in
        match exchange conn cmd with
        | (inr e, conn) => Some (Err (show_io e), [cmd], conn)
        | (inl _, conn) =>
            '(r, sent, conn) ← run_bench fuel' requests key_space (u64_add count 1) rng conn;
            Some (r, cmd :: sent, conn)
        end
  end.

(** The servers of one kind, each asked to add a key of its own. *)
Fixpoint request_each {G W} `{BenchRng G} `{Dialer C W} (prefix : string) (servers : list string)
    (key_space : N) (rng : G) (w : W) : result unit * list Output * G * W :=
  match servers with
  | [] => (Ok tt, [], rng, w)
  | lookup_addr :: servers' =>
      let looking := println ("Looking up address for " ++ lookup_addr ++ "...") in
      match dial lookup_addr w with
      | (inr e, w) => (Err (show_io e), [looking], rng, w)
      | (inl conn, w) =>
          let '(key, rng) := gen_range key_space rng in
          match exchange conn (CmdAdd (prefix ++ show_u64 key)) with
          | (inr e, _) => (Err (show_io e), [looking], rng, w)
          | (inl resp, _) =>
              let '(r, out, rng, w) := request_each prefix servers' key_space rng w in
              (r, looking :: Stdout resp :: out, rng, w)
          end
      end
  end.

(** The servers of a kind, numbered from 1. *)
Definition server_addresses (kind : string) (n : N) : list string :=
  (λ i, kind ++ show_u64 (N.of_nat i) ++ ":9100") <$> seq 1 (N.to_nat n).

Definition run_one_request_per_server {G W} `{BenchRng G} `{Dialer C W}
    (num_gc_servers num_normal_servers key_space : N) (rng : G) (w : W)
    : result unit * list Output * G * W :=
  let sending := println ("Sending one request to each of " ++ show_u64 num_gc_servers ++
    " GC servers and " ++ show_u64 num_normal_servers ++ " normal servers.") in
  match request_each "gc-key-" (server_addresses "gc-server-" num_gc_servers) key_space rng w with
  | (Ok _, out, rng, w) =>
      let '(r, out', rng, w) :=
        request_each "normal-key-" (server_addresses "normal-server-" num_normal_servers)
          key_space rng w in
      (r, (sending :: out ++ out')%list, rng, w)
  | (Err e, out, rng, w) => (Err e, sending :: out, rng, w)
  end.
End modes.

(** ** A connection to a server *)
(** What is written waits for the flush; the server's task then answers it. *)
Record Peer (W : Type) := mkPeer { outgoing : bytes; answered : bytes; peer_world : W }.
Arguments mkPeer {W}.
Arguments outgoing {W}.
Arguments answered {W}.
Arguments peer_world {W}.

Section peer.
Context {E Tok W : Type} `{EngineClient E Tok W} (of_string : string → E)
  `{Message ProtoClientCommand}.

Definition peer_read : AsyncRead (Peer W) := {|
  read_exact := λ n p,
    let '(x, rest) := read_exact n (answered p) in (x, mkPeer (outgoing p) rest (peer_world p))
|}.

Definition peer_write : AsyncWrite (Peer W) := {|
  write_all := λ b p, (None, mkPeer (outgoing p ++ b)%list (answered p) (peer_world p));
  flush := λ p,
    match client_session of_string 2 (outgoing p) (answered p) (peer_world p) with
    | Some (answered, w) => (None, mkPeer [] answered w)
    | None => (Some UnexpectedEof, p)
    end
|}.
#[local] Existing Instances peer_read peer_write.

(** ** Lemmas *)
#[local] Arguments client_frame : simpl never.

Definition encoded (cmd : Command) : bytes := encode_to_vec (mkProtoClientCommand (Some cmd)).

(** A command is answered by the server's response to it. *)
Lemma exchange_peer cmd w :
  let '(resp, w') := client_response of_string (encoded cmd) w in
  short (encoded cmd) → short (as_bytes resp) →
  exchange (mkPeer [] [] w) cmd = (inl (as_bytes resp), mkPeer [] [] w').
Proof.
  destruct (client_response of_string (encoded cmd) w) as [resp w'] eqn:Hresp. intros Hc Hs.
  assert (responses of_string [encoded cmd] w = ([resp], w')) as Hres by (simpl; by rewrite Hresp).
  destruct (session_answers of_string (incoming := id) (ending := λ _, UnexpectedEof)
    (written := id) (is_up := λ _, true) [encoded cmd] (client_frame (encoded cmd)) [] w [resp] w')
    as (wr' & Hses & Hwr); [done|by repeat constructor|done|by repeat constructor|
    simpl; by rewrite app_nil_r|].
  unfold id in Hwr. cbn [fmap list_fmap concat app] in Hwr.
  rewrite app_nil_r in Hwr. subst wr'.
  unfold exchange, send_command. cbn [write_all flush peer_write outgoing answered peer_world].
  fold (encoded cmd). rewrite app_nil_l. fold (client_frame (encoded cmd)).
  change 2%nat with (S (length [encoded cmd])). rewrite Hses.
  destruct (recv_frame (incoming := id) (ending := λ _, UnexpectedEof) (as_bytes resp) []
    (client_frame (as_bytes resp)) Hs) as (r1 & r2 & Hr1 & Hlen & Hr2 & Hrest);
    [by rewrite app_nil_r|].
  unfold recv_response. cbn [read_exact peer_read answered outgoing peer_world].
  rewrite Hr1. cbv beta iota. cbn [answered outgoing peer_world].
  rewrite Hlen, Hr2. unfold id in Hrest. by subst r2.
Qed.

Context (debug : string → string) (show_io : IoError → string).

(** The commands of a terminal's lines, up to the one that ends the session. *)
Fixpoint commands_of (lines : list string) : list Command :=
  match lines with
  | [] => []
  | line :: lines' =>
      match parse_line debug line with
      | Ok (Some cmd) => cmd :: commands_of lines'
      | Ok None => []
      | Err _ => commands_of lines'
      end
  end.

(** What was written to the standard output. *)
Fixpoint printed (out : list Output) : list bytes :=
  match out with
  | [] => []
  | Stdout text :: out' => text :: printed out'
  | Stderr _ :: out' => printed out'
  end.

(** C37. The terminal and the server together:
    whatever is typed, the session ends without an error, the server has handled
    exactly the commands typed before [quit], [exit] or the end of the input,
    and the terminal has printed its answers to them, each once and in order;
    lines that are no command print no answer. *)
Theorem interactive_prints_the_answers addr lines w :
  let cmds := commands_of lines in
  let '(resps, w') := responses of_string (encoded <$> cmds) w in
  Forall short (encoded <$> cmds) → Forall (λ t, short (as_bytes t)) resps →
  let '(r, out, conn) := run_interactive debug show_io addr (Ok <$> lines) (mkPeer [] [] w) in
  r = Ok tt ∧ printed out = as_bytes <$> resps ∧ conn = mkPeer [] [] w'.
Proof.
  cbn zeta. unfold run_interactive. revert w.
  induction lines as [|line lines IH]; intros w; [done|]. cbn [commands_of fmap list_fmap].
  cbn [interactive_loop]. destruct (parse_line debug line) as [[cmd|]|e]; [|done|].
  - cbn [fmap list_fmap responses]. specialize (exchange_peer cmd w). fold (encoded cmd).
    destruct (client_response of_string (encoded cmd) w) as [resp w1]. intros Hex. specialize (IH w1).
    destruct (responses of_string (encoded <$> commands_of lines) w1) as [resps w2].
    intros [Hc Hcs]%Forall_cons [Hr Hrs]%Forall_cons. rewrite (Hex Hc Hr).
    specialize (IH Hcs Hrs).
    destruct (interactive_loop debug show_io (Ok <$> lines) (mkPeer [] [] w1)) as [[r out] conn].
    destruct IH as (-> & Hout & ->). simpl in *. by rewrite Hout.
  - specialize (IH w). destruct (responses of_string _ w) as [resps w2]. intros Hcs Hrs.
    specialize (IH Hcs Hrs).
    destruct (interactive_loop debug show_io (Ok <$> lines) (mkPeer [] [] w)) as [[r out] conn].
    destruct IH as (-> & Hout & ->). split_and!; [done| |done]. simpl in *.
    by destruct (decide (e = "")).
Qed.
End peer.

(** ** The benchmark *)
Section bench.
Context {C : Type} `{AsyncRead C} `{AsyncWrite C} `{Message ProtoClientCommand}.
Context (show_io : IoError → string) {G : Type} `{BenchRng G}.

Definition is_add (cmd : Command) : bool := if cmd is CmdAdd _ then true else false.

(** The loop, from any count. *)
Lemma run_bench_requests k requests key_space count rng conn :
  requests < u64_modulus → count + N.of_nat k = requests →
  ∃ r sent conn', run_bench show_io (S k) (Some requests) key_space count rng conn =
      Some (r, sent, conn') ∧
    (is_ok r = true → length sent = k) ∧ (length sent ≤ k)%nat ∧
    (count = 0 → forallb is_add (take 1 sent) = true).
Proof.
  intros Hr. revert count rng conn. induction k as [|k IH]; intros count rng conn Hk.
  - exists (Ok tt), [], conn. split_and!; [|done|done|done]. simpl.
    by rewrite (proj2 (N.leb_le requests count)) by lia.
  - remember (S k) as fuel eqn:Hf. cbn [run_bench]. rewrite (proj2 (N.leb_gt _ _)) by lia.
    destruct (gen_range key_space rng) as [key rng1].
    destruct (if negb (count =? 0) then gen_bool rng1 else (false, rng1)) as [remove rng2] eqn:Hrm.
    set (cmd := if remove then _ else _).
    assert (count = 0 → is_add cmd = true) as Hadd.
    { intros ->. simpl in Hrm. by injection Hrm as <- <-. }
    destruct (exchange conn cmd) as [[resp|e] conn1].
    + subst fuel. destruct (IH (u64_add count 1) rng2 conn1) as (r & sent & conn' & -> & Hok & Hlen & _).
      { unfold u64_add. rewrite N.mod_small by lia. lia. }
      exists r, (cmd :: sent), conn'. split_and!; [done| | |].
      * intros Hr1. simpl. by rewrite Hok.
      * simpl. lia.
      * intros Hc. simpl. by rewrite Hadd.
    + exists (Err (show_io e)), [cmd], conn1. split_and!; [done|done|simpl; lia|].
      intros Hc. simpl. by rewrite Hadd.
Qed.

(** The benchmark: with a number of requests it
    ends, without an error after exactly that many commands and with an error
    after at most that many, the first of them an addition; without a number it
    ends with an error of the connection or not at all. *)
Theorem bench_sends_its_requests requests key_space rng conn :
  requests < u64_modulus →
  (∃ r sent conn',
     run_bench show_io (S (N.to_nat requests)) (Some requests) key_space 0 rng conn =
       Some (r, sent, conn') ∧
     (is_ok r = true → N.of_nat (length sent) = requests) ∧ N.of_nat (length sent) ≤ requests ∧
     forallb is_add (take 1 sent) = true) ∧
  ∀ fuel, match run_bench show_io fuel None key_space 0 rng conn with
          | Some (r, _, _) => is_ok r = false
          | None => True
          end.
Proof.
  intros Hr. split.
  - destruct (run_bench_requests (N.to_nat requests) requests key_space 0 rng conn Hr)
      as (r & sent & conn' & Hrun & Hok & Hlen & Hadd); [lia|].
    exists r, sent, conn'. split_and!; [done|intros; rewrite Hok by done; lia|lia|by apply Hadd].
  - intros fuel. clear Hr. generalize 0 as count. revert rng conn.
    induction fuel as [|fuel IH]; intros rng conn count; [done|]. cbn [run_bench].
    destruct (gen_range key_space rng) as [key rng1].
    destruct (if negb (count =? 0) then gen_bool rng1 else (false, rng1)) as [remove rng2].
    destruct (exchange conn _) as [[resp|e] conn1]; [|done].
    specialize (IH rng2 conn1 (u64_add count 1)).
    destruct (run_bench show_io fuel None key_space (u64_add count 1) rng2 conn1)
      as [[[r sent] conn']|]; [|done]. exact IH.
Qed.
End bench.

(** ** Witnesses *)
#[local] Existing Instances command_codec command_codec_ok delta_codec op_codec text_format demo_client.
#[local] Existing Instance peer_read.
#[local] Instance demo_peer_write :
  AsyncWrite (Peer (Served (E := RustString) (D := PushPull) (W := Queues))) :=
  peer_write as_rust_string.

(** Draws that take turns. *)
#[local] Instance demo_draws : BenchRng bool := {|
  gen_range := λ n b, (N.pred n, b);
  gen_bool := λ b, (b, negb b)
|}.

Lemma all_short {A} (f : A → bytes) (l : list A) :
  forallb (λ x, N.of_nat (length (f x)) <? u32_modulus) l = true → Forall (λ x, short (f x)) l.
Proof.
  induction l as [|x l IH]; simpl; [by constructor|]. intros [Hx Hl]%andb_prop.
  constructor; [by apply N.ltb_lt|by apply IH].
Qed.

Lemma interactive_prints_the_answers_witness :
  let '(r, out, _) := run_interactive id (λ _, "error") "server:9100"
      (Ok <$> ["add hello"; "what"; "print-state"; "quit"; "add more"]) (mkPeer [] [] demo_served) in
  r = Ok tt ∧ length (printed out) = 2%nat.
Proof.
  pose proof (interactive_prints_the_answers as_rust_string id (λ _, "error") "server:9100"
    ["add hello"; "what"; "print-state"; "quit"; "add more"] demo_served) as Ht. cbv zeta in Ht.
  assert (length (responses as_rust_string (encoded <$> commands_of id
    ["add hello"; "what"; "print-state"; "quit"; "add more"]) demo_served).1 = 2%nat) as Hlen
    by (vm_compute; reflexivity).
  assert (Forall (λ t, short (as_bytes t)) (responses as_rust_string (encoded <$> commands_of id
    ["add hello"; "what"; "print-state"; "quit"; "add more"]) demo_served).1) as Hshort
    by (apply all_short; vm_compute; reflexivity).
  destruct (responses _ _ _) as [resps w']. cbn [fst] in Hlen, Hshort.
  specialize (Ht ltac:(apply (all_short id); vm_compute; reflexivity) Hshort).
  destruct (run_interactive _ _ _ _ _) as [[r out] conn]. destruct Ht as (-> & -> & _).
  by rewrite length_fmap.
Defined.

Lemma bench_sends_its_requests_witness :
  ∃ r sent conn', run_bench (G := bool) (λ _, "error") 3 (Some 2) 10 0 true
      (mkPeer [] [] demo_served) = Some (r, sent, conn') ∧ N.of_nat (length sent) <= 2.
Proof.
  destruct (bench_sends_its_requests (G := bool) (λ _, "error") 2 10 true
    (mkPeer [] [] demo_served) eq_refl) as [(r & sent & conn' & Hrun & _ & Hlen & _) _].
  exists r, sent, conn'. split; [exact Hrun|exact Hlen].
Defined.
