(* ===== verification/Logging.v ===== *)
(** * Logging ([src/src/logging/], the metrics of [src/src/crdt/or_set.rs])

    What a process sets up before anything else: a console that shows everything
    of level info or above but the metrics, and the layer of [Metrics] on a file
    that is opened for appending.  The line of the set's own metrics.  A field's
    text is the standard library's. *)
From Stdlib Require Import Strings.String Strings.Ascii.
From stdpp Require Import base gmap sets list strings fin_maps.
From S2P Require Import Prelude Text Metrics Clocks Proto Crdt OrSet Config Client.
Local Open Scope N_scope.
Local Open Scope rust_scope.
Local Open Scope string_scope.

(** ** Files *)
(** [Path::parent], [fs::create_dir_all] and opening a file to create it or append
    to it, which has some lines already. *)
Class PathApi := { path_parent : string → option string }.

Class FileSystem (W : Type) := {
  create_dir_all : string → W → result unit * W;
  open_append : string → W → result (list string) * W
}.

Module MetricsLayerImpl.
(** [None]: one of the two [expect]s panics. *)
Definition new {W} `{PathApi} `{FileSystem W} (path : string) (w : W)
    : option MetricsLayer * list Output * W :=
  let out := [println ("Metrics will be logged to: " ++ path)] in
  let '(r, w) :=
    match path_parent path with
    | Some parent => create_dir_all parent w
    | None => (Ok tt, w)
    end in
  match r with
  | Err _ => (None, out, w)
  | Ok _ =>
      match open_append path w with
      | (Err _, w) => (None, out, w)
      | (Ok lines, w) => (Some (mkMetricsLayer lines false), out, w)
      end
  end.
End MetricsLayerImpl.

(** ** The subscriber *)
Record Subscriber (F64 : Type) := mkSubscriber {
  shown : list (Event F64);
  metrics_layer : MetricsLayer
}.
Arguments mkSubscriber {F64}.
Arguments shown {F64}.
Arguments metrics_layer {F64}.

(** [EnvFilter::new("info")] *)
Definition info_enabled (level : string) : bool := bool_decide (level ∈ ["ERROR"; "WARN"; "INFO"]).

Definition initialize_logging {F64 W} `{PathApi} `{FileSystem W} (metrics_path : string) (w : W)
    : option (Subscriber F64) * list Output * W :=
  let '(layer, out, w) := MetricsLayerImpl.new metrics_path w in
  (mkSubscriber [] <$> layer, out, w).

Section events.
Context {F64 : Type} (json_f64 : F64 → Json) (show_i64 : Z → string) (show_u64 : N → string).
Context (show_entry : string → string → gmap string Json → string).

(** Both layers see every event. *)
Definition emit (self : Subscriber F64) (event : string * Event F64) : Subscriber F64 :=
  mkSubscriber
    (if info_enabled (ev_level event.2) && on_console event.2 then (shown self ++ [event.2])%list
     else shown self)
    (on_event json_f64 show_i64 show_u64 show_entry (metrics_layer self) event.1 event.2).

Definition emit_all : Subscriber F64 → list (string * Event F64) → Subscriber F64 := foldl emit.

Lemma emit_shown self event :
  shown (emit self event) =
    (shown self ++ List.filter (λ e, info_enabled (ev_level e) && on_console e) [event.2])%list.
Proof. simpl. destruct (_ && _); simpl; [done|by rewrite app_nil_r]. Qed.

(** One event of the metrics target with a listed name is one more line. *)
Lemma on_event_line layer t event :
  ev_target event = "metrics" → ml_poisoned layer = false →
  written_event (event_name json_f64 show_i64 show_u64 event) = true →
  on_event json_f64 show_i64 show_u64 show_entry layer t event =
    mkMetricsLayer (ml_file layer ++ [show_entry t (ev_level event)
                      (visit json_f64 show_i64 show_u64 event)]) false.
Proof.
  unfold on_event. intros -> Hp Hw. rewrite bool_decide_true by done. cbn [negb].
  fold (event_name json_f64 show_i64 show_u64 event). by rewrite Hw, Hp.
Qed.

(** A process that could set up its logging appends to the metrics file: the
    lines of earlier processes stay in front, then one line for each listed
    metric; the console shows, in order, the events of level info or above that
    are not metrics, and no event goes both ways. *)
Theorem logging_splits_events {W} `{PathApi} `{FileSystem W} path (w : W) events :
  match (initialize_logging path w).1.1 with
  | Some self =>
      ∃ lines, ml_file (metrics_layer self) = lines ∧
        let self' := emit_all self events in
        shown self' = List.filter (λ e, info_enabled (ev_level e) && on_console e) events.*2 ∧
        (∃ more, ml_file (metrics_layer self') = (lines ++ more)%list ∧
           length more = length (List.filter (λ te, negb (on_console te.2) &&
             written_event (event_name json_f64 show_i64 show_u64 te.2)) events)) ∧
        ml_poisoned (metrics_layer self') = false
  | None => True
  end.
Proof.
  unfold initialize_logging. destruct (MetricsLayerImpl.new path w) as [[layer out] w'] eqn:Hnew.
  destruct layer as [layer|]; simpl; [|done].
  assert (ml_poisoned layer = false) as Hp.
  { unfold MetricsLayerImpl.new in Hnew. repeat case_match; by simplify_eq. }
  exists (ml_file layer). split; [done|]. clear Hnew.
  assert (∀ self, ml_poisoned (metrics_layer self) = false →
    shown (emit_all self events) =
      (shown self ++ List.filter (λ e, info_enabled (ev_level e) && on_console e) events.*2)%list ∧
    (∃ more, ml_file (metrics_layer (emit_all self events)) = (ml_file (metrics_layer self) ++ more)%list ∧
       length more = length (List.filter (λ te, negb (on_console te.2) &&
         written_event (event_name json_f64 show_i64 show_u64 te.2)) events)) ∧
    ml_poisoned (metrics_layer (emit_all self events)) = false) as Hall; [|by apply Hall].
  induction events as [|[t e] events IH]; intros self Hself; simpl.
  { rewrite app_nil_r. split_and!; [done|exists []; by rewrite app_nil_r|done]. }
  set (self1 := emit self (t, e)).
  assert (ml_poisoned (metrics_layer self1) = false ∧
    ∃ more, ml_file (metrics_layer self1) = (ml_file (metrics_layer self) ++ more)%list ∧
      length more = if negb (on_console e) && written_event (event_name json_f64 show_i64 show_u64 e)
                    then 1%nat else 0%nat) as (Hp1 & more1 & Hm1 & Hlen1).
  { unfold self1. simpl. unfold on_console, on_event. fold (event_name json_f64 show_i64 show_u64 e).
    rewrite negb_involutive. destruct (bool_decide (ev_target e = "metrics")); simpl.
    2: { split; [done|]. exists []. by rewrite app_nil_r. }
    destruct (written_event _); simpl; [|split; [done|]; exists []; by rewrite app_nil_r].
    rewrite Hself. split; [done|]. by eexists. }
  destruct (IH self1 Hp1) as (Hs & (more & Hm & Hlen) & Hpoison).
  split_and!; [|exists (more1 ++ more)%list; split|done].
  - rewrite Hs. unfold self1. rewrite emit_shown, <- app_assoc. f_equal. cbn [List.filter app snd].
    destruct (info_enabled (ev_level e) && on_console e); done.
  - by rewrite Hm, Hm1, app_assoc.
  - rewrite length_app, Hlen1, Hlen. by destruct (_ && _).
Qed.

(** *** The metrics of the set *)
(** [iter]: the order in which the entries of a vector come. *)
Definition vector_text (iter : CausalContext → list (NodeId * Counter)) (dvv : DotVersionVector) : string :=
  join ", " ((λ e, e.1 ++ ":" ++ show_u64 e.2) <$> iter (Dvv.effective_map dvv)).

Definition log_metrics {E} `{Countable E} (iter : CausalContext → list (NodeId * Counter)) (self : OrSet E)
    (dissemination_round : N) (dvv : DotVersionVector) (epoch : N) : Event F64 :=
  let num_adds := N.of_nat (size (adds self)) in
  let num_tombstones := N.of_nat (size (tombstones self)) in
  metric [("event", StrValue "or_set_metrics");
          ("node_id", StrValue (d_node_id (dot dvv)));
          ("dissemination_round", U64Value dissemination_round);
          ("adds", U64Value num_adds);
          ("tombstones", U64Value num_tombstones);
          ("vector_clock", StrValue (vector_text iter dvv));
          ("epoch", U64Value epoch)].

(** The set's metrics are one line of the file, never of the console, with the
    number of its elements, of its tombstones and the vector; a collection shows
    in the file as fewer tombstones with the same elements. *)
Theorem set_metrics_reach_the_file {E} `{Countable E} iter (s : OrSet E) round dvv epoch t self :
  ml_poisoned (metrics_layer self) = false →
  let event := log_metrics iter s round dvv epoch in
  let fields := visit json_f64 show_i64 show_u64 event in
  shown (emit self (t, event)) = shown self ∧
  ml_file (metrics_layer (emit self (t, event))) =
    (ml_file (metrics_layer self) ++ [show_entry t "TRACE" fields])%list ∧
  fields !! "adds" = Some (JNumber (show_u64 (N.of_nat (size (adds s))))) ∧
  fields !! "tombstones" = Some (JNumber (show_u64 (N.of_nat (size (tombstones s))))) ∧
  fields !! "vector_clock" = Some (JString (vector_text iter dvv)).
Proof. intros Hp event fields. cbn -[on_event]. by rewrite on_event_line. Qed.
End events.
