(* ===== verification/Processes.v ===== *)
(** * The processes ([src/src/main.rs], [src/src/experiment/experiment.rs],
    the [main] of [src/src/client/crdt_client.rs], [src/src/common/mod.rs])

    What the three binaries do from their command line to their exit: logging,
    the configurations of [Config], the server of [Server] in a task, the wait for
    a signal, the cancellation, and the wait for the tasks.  What happens to a
    process while it runs is a list: what its server sees, and the signals.  A
    panic in a task ends the task; a panic in [main] ends the process.  The
    theorems follow a server from its start to its exit, also when it cannot
    start, and say which experiments lose tasks to a panic. *)
From Stdlib Require Import Strings.Byte Strings.String Strings.Ascii.
From stdpp Require Import base gmap sets list strings fin_maps.
From S2P Require Import Prelude Text Metrics S3 Discovery Clocks Proto Crdt OrSet Replication.
From S2P Require Import Registry Dissemination GcStorage Coordinator S3Storage Engine.
From S2P Require Import PeerMessages Connector Framing Connection EngineSpec ClientRequests Server.
From S2P Require Import Config Client Logging.
Import S3ClientImpl.
Local Open Scope N_scope.
Local Open Scope rust_scope.
Local Open Scope string_scope.

(** ** Signals and tasks ([src/src/common/mod.rs]) *)
Inductive Signal : Type :=
| CtrlC
| Terminate.

(** The wait is over after what came before the first signal, still going on,
    or has panicked. *)
Inductive Waited (A : Type) : Type :=
| Woken (before : list A)
| StillWaiting (so_far : list A)
| NoHandler.
Arguments Woken {A}.
Arguments StillWaiting {A}.
Arguments NoHandler {A}.

Fixpoint until_signal {A} (inputs : list (A + Signal)) : Waited A :=
  match inputs with
  | [] => StillWaiting []
  | inr _ :: _ => Woken []
  | inl a :: inputs' =>
      match until_signal inputs' with
      | Woken before => Woken (a :: before)
      | StillWaiting so_far => StillWaiting (a :: so_far)
      | NoHandler => NoHandler
      end
  end.

(** [installs]: whether the handler of a signal can be installed. *)
Definition wait_for_shutdown_signal {A} (installs : Signal → bool) (inputs : list (A + Signal))
    : Waited A :=
  if installs CtrlC && installs Terminate then until_signal inputs else NoHandler.

(** What joining a task gives: [Err] is a panic. *)
Abbreviation Joined := (result unit) (only parsing).

Definition report_panic (res : Joined) : list Output :=
  match res with
  | Ok _ => []
  | Err e => [Stderr ("task panicked: " ++ e)]
  end.

(** [joined]: the spawned tasks as they end after the cancellation. *)
Definition shutdown_processes (joined : list Joined) : result unit * list Output :=
  (Ok tt, joined ≫= report_panic).

(** What has become of a process. *)
Inductive Process : Type :=
| Running
| Exited (r : result unit)
| Panicked.

(** ** The server's process ([src/src/main.rs]) *)
Section server_main.
Context {E Tok Tx Handle W T : Type} `{AwsS3 W} `{Chrono T} `{Network Handle W} `{Runtime Handle W}.
Context `{Sender Tx (CrdtEngineRequest (OrSetOp E) Tok) W} `{StateChannel Tok W}.
Context `{PathApi} `{FileSystem W}.
Context (of_string : string → E) (installs : Signal → bool) (debug_error : string → string).

(** The server's task, up to where the events take it. *)
Definition server_task (fuel : nat) (cli : MainCli.Cli) (server : Server) (engine_tx : Tx)
    (expiry : result T) (outbound_tasks : gmap NodeId Handle) (events : list ServerEvent) (w : W)
    : option (list Output * W) :=
  '(r, _, w) ← Server.run of_string fuel server (MainCli.gc_config cli) engine_tx expiry outbound_tasks events w;
  Some (match r with
        | Some (Err e) => [Stderr ("server run failed: " ++ debug_error e)]
        | _ => []
        end, w).

(** [main]; the token's cancellation is the last event of the server's loop. *)
Definition server_main (fuel : nat) (cli : MainCli.Cli) (engine_tx : Tx) (expiry : result T)
    (outbound_tasks : gmap NodeId Handle) (inputs : list (ServerEvent + Signal)) (w : W)
    : option (Process * list Output * W) :=
  let '(logging, out, w) := initialize_logging (F64 := unit) (MainCli.metrics_path cli) w in
  match logging with
  | None => Some (Panicked, out, w)
  | Some _ =>
      match Server.new (MainCli.server_config cli) (MainCli.discovery_config cli) w with
      | (Err e, w) => Some (Exited (Err e), out, w)
      | (Ok server, w) =>
          match wait_for_shutdown_signal installs inputs with
          | NoHandler => Some (Panicked, out, w)
          | StillWaiting events =>
              '(printed, w) ← server_task fuel cli server engine_tx expiry outbound_tasks events w;
              Some (Running, (out ++ printed)%list, w)
          | Woken events =>
              '(printed, w) ← server_task fuel cli server engine_tx expiry outbound_tasks
                                (events ++ [Cancelled]) w;
              let '(r, reported) := shutdown_processes [Ok tt] in
              Some (Exited r, (out ++ printed ++ reported)%list, w)
          end
      end
  end.
End server_main.

(** ** The client's process *)
Module ClientCli.
Inductive Mode : Type :=
| Interactive
| Bench (requests : option N) (sleep_ms : N) (remove_chance : string) (key_space : N)
| OneRequestPerServer (num_gc_servers num_normal_servers key_space : N).

(** The chance of a removal stands as its text: the draws are [BenchRng]'s. *)
Record Cli := mkCli {
  addr : string;
  mode : Mode;
  metrics_path : string
}.
End ClientCli.

Section client_main.
Context {C G W : Type} `{AsyncRead C} `{AsyncWrite C} `{Message ProtoClientCommand}.
Context `{BenchRng G} `{Dialer C W} `{PathApi} `{FileSystem W}.
Context (debug : string → string) (show_io : IoError → string) (lookup_host : string → result (list string)).

(** The address is looked up in every mode, and used in two; [lines]: the
    terminal's; [fuel]: the requests of a benchmark. *)
Definition client_main (fuel : nat) (cli : ClientCli.Cli) (lines : list (result string)) (rng : G) (w : W)
    : option (Process * list Output * W) :=
  let '(logging, out, w) := initialize_logging (F64 := unit) (ClientCli.metrics_path cli) w in
  match logging with
  | None => Some (Panicked, out, w)
  | Some _ =>
      match lookup lookup_host (ClientCli.addr cli) with
      | Err e => Some (Exited (Err e), out, w)
      | Ok addr =>
          match ClientCli.mode cli with
          | ClientCli.Interactive =>
              match dial addr w with
              | (inr e, w) => Some (Exited (Err (show_io e)), out, w)
              | (inl conn, w) =>
                  let '(r, printed, _) := run_interactive debug show_io (ClientCli.addr cli) lines conn in
                  Some (Exited r, (out ++ printed)%list, w)
              end
          | ClientCli.Bench requests _ _ key_space =>
              match dial addr w with
              | (inr e, w) => Some (Exited (Err (show_io e)), out, w)
              | (inl conn, w) =>
                  '(r, _, _) ← run_bench show_io fuel requests key_space 0 rng conn;
                  Some (Exited r, out, w)
              end
          | ClientCli.OneRequestPerServer num_gc_servers num_normal_servers key_space =>
              let '(r, printed, _, w) :=
                run_one_request_per_server show_io num_gc_servers num_normal_servers key_space rng w in
              Some (Exited r, (out ++ printed)%list, w)
          end
      end
  end.
End client_main.

(** ** The experiment's process ([src/src/experiment/experiment.rs]) *)
(** The metric of a server's place in the topology. *)
Definition network_topology {F64} (iter : gset NodeId → list NodeId) (node_name : NodeId)
    (gc_replica : bool) (connect_node_ids : option (gset NodeId)) : Metrics.Event F64 :=
  let connect_node_ids_str :=
    match connect_node_ids with
    | Some ids => join "," (iter ids)
    | None => ""
    end in
  metric [("event", StrValue "network_topology");
          ("node_id", StrValue node_name);
          ("gc_replica", BoolValue gc_replica);
          ("connect_node_ids", StrValue connect_node_ids_str)].

(** What is left of a replica's task: it has panicked, or [run] returned or is
    still in its loop. *)
Inductive ReplicaTask : Type :=
| TaskPanicked
| TaskRan (r : option (result unit)).

Section experiment_main.
Context {E Tok Tx Handle W T : Type} `{AwsS3 W} `{Chrono T} `{Network Handle W} `{Runtime Handle W}.
Context `{Sender Tx (CrdtEngineRequest (OrSetOp E) Tok) W} `{StateChannel Tok W}.
Context `{PathApi} `{FileSystem W}.
Context (of_string : string → E) (installs : Signal → bool) (debug_error : string → string).
Context (iter : gset NodeId → list NodeId).

Definition init_and_run_server {F64} (fuel : nat) (config_info : Experiment.ConfigCliInfo)
    (node_name : NodeId) (listen_port : N) (gc_replica : bool) (engine_tx : Tx) (expiry : result T)
    (outbound_tasks : gmap NodeId Handle) (events : list ServerEvent) (w : W)
    : option (ReplicaTask * list (Metrics.Event F64) * W) :=
  match Experiment.connect_node_ids config_info node_name gc_replica,
        Experiment.server_setup config_info node_name listen_port gc_replica with
  | Some ids, Some (discovery_cfg, server_config, gc_config) =>
      let metrics := [network_topology iter node_name gc_replica ids] in
      match Server.new server_config discovery_cfg w with
      | (Err e, w) => Some (TaskRan (Some (Err e)), metrics, w)
      | (Ok server, w) =>
          '(r, _, w) ← Server.run of_string fuel server gc_config engine_tx expiry outbound_tasks events w;
          Some (TaskRan r, metrics, w)
      end
  | _, _ => Some (TaskPanicked, [], w)
  end.

(** What a replica's task prints, and what joining it gives; the message of its
    panic is given. *)
Definition replica_printed (node_addr : string) (task : ReplicaTask) : list Output :=
  match task with
  | TaskRan (Some (Err e)) =>
      [Stderr ("Error running server " ++ node_addr ++ ": " ++ debug_error e)]
  | _ => []
  end.

Definition replica_joined (panic_message : string) (task : ReplicaTask) : Joined :=
  match task with
  | TaskPanicked => Err panic_message
  | TaskRan _ => Ok tt
  end.

(** The replicas' tasks, as [main] spawns them: the address, the name, the port,
    the role and the position of its own channel of each.  [None]: the address of
    a replica is missing from the map. *)
Definition replica_tasks (cli : ExperimentCli.Cli)
    : option (list (string * NodeId * N * bool * nat)) :=
  let l := Experiment.replicas (ExperimentCli.listen_host cli) (ExperimentCli.num_gc_replicas cli)
             (ExperimentCli.num_normal_replicas cli) in
  mapM (λ e, app_tx ← snd <$> Experiment.channels_map l !! e.1.1.1; Some (e, app_tx)) l.

(** What a replica's task sees: its engine's queue, the expiry of its
    registration, the connections that discovery made, the events of its loop,
    and the world it runs in, with what the others do to it. *)
Record Seen := mkSeen {
  sn_engine_tx : Tx;
  sn_expiry : result T;
  sn_outbound_tasks : gmap NodeId Handle;
  sn_events : list ServerEvent;
  sn_world : W
}.

(** The task of a replica; after a signal, the cancellation is its last event. *)
Definition replica_task {F64} (fuel : nat) (cli : ExperimentCli.Cli) (cancelled : bool)
    (seen : string * NodeId * N * bool * nat → Seen) (e : string * NodeId * N * bool * nat)
    : option (ReplicaTask * list (Metrics.Event F64)) :=
  let '(_, node_name, node_port, gc_replica, _) := e in
  '(task, metrics, _) ← init_and_run_server fuel (Experiment.config_info cli) node_name node_port
      gc_replica (sn_engine_tx (seen e)) (sn_expiry (seen e)) (sn_outbound_tasks (seen e))
      (sn_events (seen e) ++ if cancelled then [Cancelled] else [])%list (sn_world (seen e));
  Some (task, metrics).

(** [order]: the order in which the tasks are joined.  The lines of the tasks
    stand before those of the joins. *)
Definition experiment_main {F64} (fuel : nat) (cli : ExperimentCli.Cli) (panic_message : string)
    (seen : string * NodeId * N * bool * nat → Seen)
    (order : list (string * NodeId * N * bool * nat) → list (string * NodeId * N * bool * nat))
    (inputs : list (unit + Signal)) (w : W) : option (Process * list Output * list (Metrics.Event F64)) :=
  let '(logging, out, w) := initialize_logging (F64 := F64) (ExperimentCli.metrics_path cli) w in
  match logging with
  | None => Some (Panicked, out, [])
  | Some _ =>
      match replica_tasks cli with
      | None => Some (Panicked, out, [])
      | Some replicas =>
          match wait_for_shutdown_signal installs inputs with
          | NoHandler => Some (Panicked, out, [])
          | StillWaiting _ =>
              ends ← mapM (replica_task fuel cli false seen) (order replicas);
              let printed := zip_with (λ e t, replica_printed e.1.1.1.1 t.1) (order replicas) ends in
              Some (Running, (out ++ concat printed)%list, ends ≫= snd)
          | Woken _ =>
              ends ← mapM (replica_task fuel cli true seen) (order replicas);
              let printed := zip_with (λ e t, replica_printed e.1.1.1.1 t.1) (order replicas) ends in
              let '(r, reported) := shutdown_processes (replica_joined panic_message ∘ fst <$> ends) in
              Some (Exited r, (out ++ concat printed ++ reported)%list, ends ≫= snd)
          end
      end
  end.
End experiment_main.

(** ** Lemmas *)
Lemma until_signal_inl {A} (before : list A) (rest : list (A + Signal)) :
  until_signal ((inl <$> before) ++ rest) =
    match until_signal rest with
    | Woken l => Woken (before ++ l)
    | StillWaiting l => StillWaiting (before ++ l)
    | NoHandler => NoHandler
    end.
Proof.
  induction before as [|a before IH]; [by simpl; destruct (until_signal rest)|].
  rewrite fmap_cons. cbn [app until_signal]. rewrite IH. by destruct (until_signal rest).
Qed.

Lemma until_signal_handled {A} (inputs : list (A + Signal)) : until_signal inputs ≠ NoHandler.
Proof. induction inputs as [|[a|s] inputs IH]; simpl; [done| |done]. by destruct (until_signal inputs). Qed.

(** *** The world of a node *)
Section node_world.
Context {E D W : Type} `{Countable E} `{AwsS3 W}.
Implicit Types nd : Node E D W.
#[local] Existing Instance node_s3.

Definition node_runtime {Handle} `{Runtime Handle W} : Runtime Handle (Node E D W) := {|
  spawn := λ task, on_world (spawn task)
|}.

Definition node_files `{FileSystem W} : FileSystem (Node E D W) := {|
  create_dir_all := λ path, on_world (create_dir_all path);
  open_append := λ path, on_world (open_append path)
|}.

(** An operation of the bucket on a node is the one on its world. *)
Lemma node_list_pages fuel b p token keys nd :
  list_pages fuel b p token keys nd =
    (λ x, (x.1, set_world nd x.2)) <$> list_pages fuel b p token keys (nd_world nd).
Proof.
  revert token keys nd. induction fuel as [|fuel IH]; intros token keys nd; [done|]. simpl.
  unfold on_world. destruct (aws_list_objects_v2 b p token (nd_world nd)) as [[[contents [next|]]|e] w];
    [|done..]. by rewrite IH.
Qed.

Lemma node_put b k v t nd :
  put_object b k v t nd =
    ((put_object b k v t (nd_world nd)).1, set_world nd (put_object b k v t (nd_world nd)).2).
Proof.
  unfold put_object, question. cbn. unfold on_world.
  by destruct (aws_put_object b k v t false (nd_world nd)) as [[|] w].
Qed.

Lemma node_register {T} `{Chrono T} fuel (self : Discovery) (expiry : result T) nd :
  register fuel self expiry nd =
    (λ x, (x.1, set_world nd x.2)) <$> register fuel self expiry (nd_world nd).
Proof.
  destruct expiry as [t|e]; [|by destruct nd]. unfold register, list_object_keys.
  rewrite node_list_pages. destruct (list_pages _ _ _ _ _ (nd_world nd)) as [[[keys|e] w]|]; simpl; [|done..].
  case_decide; [|done]. by rewrite node_put.
Qed.

Lemma node_ensure b nd :
  ensure_bucket b nd =
    ((ensure_bucket b (nd_world nd)).1, set_world nd (ensure_bucket b (nd_world nd)).2).
Proof.
  unfold ensure_bucket. cbn. unfold on_world.
  destruct (aws_head_bucket b (nd_world nd)) as [[|] w]; [done|]. cbn.
  by destruct (aws_create_bucket b w) as [[|] w'].
Qed.
End node_world.

(** ** A server from its start to its exit *)
Section lifecycle.
Context {E D W Tx Handle T : Type} `{Countable E} `{ElementCodec E} `{ElementFormat E}
  `{!Message ProtoOrSetDelta, !Message ProtoOrSetOp} `{!DisseminationStrategy D Tx W}
  `{AwsS3 W} `{Network Handle W} `{Runtime Handle W} `{PathApi} `{FileSystem W}.
Context {objects : W → string → gmap string bytes} `{!AwsS3Ok W objects} `{ChronoOk T}
  `{!ElementCodecOk E} `{!MessageOk ProtoOrSetDelta proto_or_set_delta_ok}.
Context (registry_of : W → PeerRegistry Tx) (exec : Exec W) (debug_matrix : MatrixClock → string).
Context (of_string : string → E) (debug_error : string → string).
Implicit Types nd : Node E D W.
#[local] Existing Instances node_sender node_s3 node_network node_runtime node_files.
#[local] Instance node_channel : StateChannel nat (Node E D W) :=
  node_state_channel registry_of exec debug_matrix.

(** Nothing but the node's own requests changes the objects of the bucket, whose
    requests are answered and whose listings have at most [fuel] pages.  The source
    does not promise this: the discovery task that it spawns refreshes the
    registration, and may do so after the node has deregistered
    ([Server.late_heartbeat_revives_node]); requests can fail. *)
Record calm (fuel : nat) : Prop := {
  calm_reliable : reliable (W := W);
  calm_pages : ∀ w b p, (length (pages w b p) <= fuel)%nat;
  calm_ensure : ∀ b w, (ensure_bucket b w).1 = Ok tt ∧ objects (ensure_bucket b w).2 = objects w;
  calm_spawn : ∀ task w, objects (spawn (Handle := Handle) task w).2 = objects w;
  calm_background : ∀ port id name gc w,
    objects (start_network_background (Handle := Handle) port id name gc w).2 = objects w;
  calm_abort : ∀ (h : Handle) w, objects (abort h w) = objects w;
  calm_create_dir : ∀ path w, objects (create_dir_all path w).2 = objects w;
  calm_open : ∀ path w, objects (open_append path w).2 = objects w
}.

(** [nd'] is [nd] in a world with the same objects. *)
Definition same_node nd nd' : Prop :=
  ∃ w, nd' = set_world nd w ∧ objects w = objects (nd_world nd).

Lemma same_node_refl nd : same_node nd nd.
Proof. exists (nd_world nd). by destruct nd. Qed.

Lemma same_node_trans nd1 nd2 nd3 : same_node nd1 nd2 → same_node nd2 nd3 → same_node nd1 nd3.
Proof. intros (w & -> & Hw) (w' & -> & Hw'). exists w'. split; [done|]. by rewrite Hw'. Qed.

Lemma calm_world {A} (f : W → A * W) nd :
  (∀ w, objects (f w).2 = objects w) → same_node nd (on_world f nd).2.
Proof.
  intros Hf. exists (f (nd_world nd)).2. split; [|apply Hf]. unfold on_world. by destruct (f _).
Qed.

Lemma spawn_same fuel task nd : calm fuel → same_node nd (spawn (Handle := Handle) task nd).2.
Proof. intros Hc. apply calm_world, (calm_spawn _ Hc). Qed.

Lemma gc_loops_same fuel config nd :
  calm fuel → same_node nd (start_gc_loops (Handle := Handle) config nd).2.
Proof.
  intros Hc. unfold start_gc_loops.
  assert (∀ task nd, same_node nd (spawn (Handle := Handle) task nd).2) as Hs
    by (intros; by eapply spawn_same).
  destruct (GcCoordinatorImpl.initiate_interval _) as [i|].
  - pose proof (Hs (InitiateGcLoop i) nd) as Hi. destruct (spawn (InitiateGcLoop i) nd) as [h nd1].
    match goal with |- context [spawn (ObserveLoop ?o) nd1] =>
      pose proof (Hs (ObserveLoop o) nd1) as Ho; destruct (spawn (ObserveLoop o) nd1) as [h' nd2] end.
    by eapply same_node_trans.
  - match goal with |- context [spawn (ObserveLoop ?o) nd] =>
      pose proof (Hs (ObserveLoop o) nd) as Ho; destruct (spawn (ObserveLoop o) nd) as [h' nd2] end.
    done.
Qed.

Lemma logging_same fuel path nd :
  calm fuel → same_node nd (initialize_logging (F64 := unit) path nd).2.
Proof.
  intros Hc. unfold initialize_logging, MetricsLayerImpl.new.
  assert (∀ parent nd, same_node nd (create_dir_all parent nd).2) as Hd
    by (intros; apply calm_world, (calm_create_dir _ Hc)).
  assert (∀ path nd, same_node nd (open_append path nd).2) as Ho
    by (intros; apply calm_world, (calm_open _ Hc)).
  destruct (path_parent path) as [parent|].
  - specialize (Hd parent nd). destruct (create_dir_all parent nd) as [[u|e] nd1]; [|done].
    specialize (Ho path nd1). destruct (open_append path nd1) as [[ls|e] nd2]; by eapply same_node_trans.
  - specialize (Ho path nd). by destruct (open_append path nd) as [[ls|e] nd2].
Qed.

(** A server that is not an experiment's comes up: it registers, once. *)
Lemma server_starts fuel (server : Server) config (t : T) (tasks : gmap NodeId Handle) nd :
  calm fuel → srv_experiment server = false →
  ∃ (handles : list Handle) nd1 nd' w2,
    (∀ events, Server.run of_string fuel server config tt (Ok t) tasks events nd =
       main_loop fuel server tt handles (cfg_prefix (storage_config config)) tasks events nd') ∧
    same_node nd nd1 ∧ register fuel (srv_discovery server) (Ok t) (nd_world nd1) = Some (Ok tt, w2) ∧
    same_node (set_world nd1 w2) nd'.
Proof.
  intros Hc Hexp.
  assert (∀ task nd, same_node nd (spawn (Handle := Handle) task nd).2) as Hs
    by (intros; by eapply spawn_same).
  unfold Server.run, start_background_tasks, start_discovery. rewrite Hexp.
  pose proof (Hs PullLoop nd) as Hp. destruct (spawn PullLoop nd) as [h0 nda].
  assert (∃ hs ndb, match srv_client_port server with
    | Some port => let '(h, w) := spawn (ClientListener port) nda in ([h], w)
    | None => ([], nda)
    end = (hs : list Handle, ndb) ∧ same_node nda ndb) as (hs & ndb & Hcl & Hb).
  { destruct (srv_client_port server) as [port|]; [|eexists _, _; split; [done|apply same_node_refl]].
    pose proof (Hs (ClientListener port) nda) as Hl.
    destruct (spawn (ClientListener port) nda) as [h nd2]. by eexists _, _. }
  set (net := start_network_background (W := Node E D W) (srv_listen_port server) (srv_node_id server)
    (srv_node_name server) (srv_gc_replica server)).
  assert (same_node ndb (net ndb).2) as Hn by (apply calm_world, (calm_background _ Hc)).
  destruct (net ndb) as [hn nd1] eqn:Hnet.
  destruct (register_reliable (objects := objects) fuel (srv_discovery server) t (nd_world nd1)
    (calm_reliable _ Hc)) as [w2 Hreg]; [intros p; apply (calm_pages _ Hc)|].
  assert (same_node nd nd1) as Hsame by (eapply same_node_trans; [done|]; by eapply same_node_trans).
  set (loop := DiscoveryLoop _).
  pose proof (Hs loop (set_world nd1 w2)) as Hd.
  destruct (spawn loop (set_world nd1 w2)) as [hd nd2] eqn:Hdisc.
  pose proof (gc_loops_same fuel config nd2 Hc) as Hg.
  destruct (start_gc_loops config nd2) as [hg nd3] eqn:Hgc.
  pose proof (Hs EngineRun nd3) as He. destruct (spawn EngineRun nd3) as [he nd4] eqn:Hrun.
  exists (h0 :: (hs ++ [hn; hd] ++ hg ++ [he])%list), nd1, nd4, w2. split_and!; [|done|done|].
  - intros events. rewrite Hcl. fold net. rewrite Hnet, node_register, Hreg.
    cbn -[spawn main_loop start_gc_loops]. fold loop. rewrite Hdisc. cbn -[spawn main_loop start_gc_loops].
    rewrite Hgc. cbn -[spawn main_loop]. by rewrite Hrun.
  - eapply same_node_trans; [done|]. by eapply same_node_trans.
Qed.

(** Until it is cancelled, the loop queues what it receives. *)
Lemma node_main_loop_waits fuel (server : Server) (handles : list Handle) prefix tasks events nd :
  Cancelled ∉ events →
  main_loop fuel server tt handles prefix tasks events nd =
    Some (None, tasks, enqueued nd (events ≫= event_requests)).
Proof.
  revert nd. induction events as [|event events IH]; intros nd Hno.
  { unfold enqueued. cbn. rewrite app_nil_r. by destruct nd. }
  rewrite not_elem_of_cons in Hno. destruct Hno as [Hne Hno].
  destruct event as [envelope| |]; [| |done]; cbn -[handle_received_envelope].
  - by rewrite node_receives, IH, enqueued_app.
  - change (mkNode _ _ _ _) with (enqueued nd [LogCrdtMetrics]). by rewrite IH, enqueued_app.
Qed.

(** C23. The whole life of a server's process, when the bucket is [calm]: it answers
    every request, and the tasks that the server spawns leave its objects alone.  (The
    discovery task does not, see [late_heartbeat_revives_node].)  The engine takes up
    the requests it received only at the shutdown, the prefix of the storage ends in no slash, and
    its records are apart from the registrations.  Started on a bucket that holds no
    key of its node, the process is listed as a live member for as long as no signal
    comes, with everything received in its engine's queue and nothing of its own
    changed since.  After the first signal it handles what it received, publishes its
    final state, is no longer listed, and exits without an error; the collectors read
    its final dot, if its id has no underscore and no other final dot of the node
    contradicts it, and they read none if its id has one; what comes after that signal
    is ignored. *)
Theorem server_lifecycle fuel (cli : MainCli.Cli) (t : T) tasks events s rest nd :
  let cfg := storage_config (MainCli.gc_config cli) in
  let b := S3GcStorageImpl.bucket cfg in
  let n := sc_node_name (MainCli.server_config cli) in
  calm fuel → (initialize_logging (F64 := unit) (MainCli.metrics_path cli) nd).1.1 ≠ None →
  apart_from_nodes cfg → trim_end_matches "/"%char (cfg_prefix cfg) = cfg_prefix cfg →
  node_id_ok n → pair_free "_"%char (MainCli.listen_host cli ++ ":" ++ MainCli.listen_port cli) = true →
  (∀ k, starts_with (registration_key_prefix n) k = true → objects (nd_world nd) b !! k = None) →
  Cancelled ∉ events →
  let main := server_main of_string (λ _, true) debug_error fuel cli tt (Ok t) tasks in
  ∃ out w, let nd1 := enqueued (set_world nd w) (events ≫= event_requests) in
    main (inl <$> events) nd = Some (Running, out, nd1) ∧ n ∈ live_ids_of (T := T) (objects w b) ∧
    ∀ engine replies w',
      nd_next nd ∉ nd_queue nd1 ≫= waiting →
      CrdtEngineImpl.handle_all registry_of exec debug_matrix (nd_engine nd) (nd_queue nd1) w =
        Some (engine, replies, w') →
      let final_dot := d_counter (dot (dvv engine)) in
      dot_outside (dvv engine) → final_dot < u64_modulus →
      orset_delta_ok (engine_full_state (replica_of engine)) →
      (∀ k c, is_Some (objects w' b !! k) →
         S3GcStorageImpl.parse_final_dot_key cfg k = Some (n, c) → c = final_dot) →
      ∃ nd', main ((inl <$> events) ++ inr s :: rest)%list nd = Some (Exited (Ok tt), out, nd') ∧
        let objs := objects (nd_world nd') b in
        n ∉ live_ids_of (T := T) objs ∧
        S3GcStorageImpl.collect_final_dots cfg
          (listing (S3GcStorageImpl.final_dots_key_prefix cfg) objs) !! n =
          (if char_free "_"%char n then Some final_dot else None) ∧
        ∃ payload, objs !! final_dot_key cfg n final_dot = Some payload ∧
          OrSetImpl.decode_delta payload =
            Ok (engine_full_state (replica_of engine)).
Proof.
  intros cfg b n Hc Hlog Hap Htrim Hn Haddr Hnew Hno main.
  pose proof (logging_same fuel (MainCli.metrics_path cli) nd Hc) as Hsame.
  destruct (initialize_logging (MainCli.metrics_path cli) nd) as [[[sub|] out] nda] eqn:Hinit; [|done].
  destruct Hsame as (wa & Hnda & Hwa). cbn in Hnda. subst nda.
  destruct (calm_ensure _ Hc (MainCli.s3_bucket cli) wa) as [Hens Hobj].
  set (server := mkServer n n (MainCli.gc_replica cli) false (MainCli.listen_port cli)
    (MainCli.client_port cli) (mkDiscovery (MainCli.discovery_config cli) n n
      (MainCli.listen_host cli) (MainCli.listen_port cli))).
  set (ndb := set_world nd (ensure_bucket (MainCli.s3_bucket cli) wa).2).
  destruct (server_starts fuel server (MainCli.gc_config cli) t tasks ndb Hc eq_refl)
    as (handles & ? & ? & w2 & Hrun & (w1 & -> & Hw1) & Hreg & (w & -> & Hw)).
  change (set_world (set_world (set_world ndb w1) w2) w) with (set_world nd w) in Hrun. cbn in Hw, Hw1, Hreg.
  destruct (registration_is_written_once (objects := objects) fuel (srv_discovery server) t w1 w2)
    as [_ Hfirst]; [intros p; apply (calm_pages _ Hc)|done|].
  destruct Hfirst as [_ Hlive].
  { intros k Hk. change (dc_bucket _) with b. rewrite Hw1, Hobj, Hwa. by apply Hnew. }
  assert (∀ inputs, main inputs nd =
    match until_signal inputs with
    | Woken l => '(printed, nd') ← server_task of_string debug_error fuel cli server tt (Ok t) tasks
                                  (l ++ [Cancelled])%list ndb;
                 Some (Exited (Ok tt), (out ++ printed ++ [])%list, nd')
    | StillWaiting l => '(printed, nd') ← server_task of_string debug_error fuel cli server tt (Ok t) tasks l ndb;
                        Some (Running, (out ++ printed)%list, nd')
    | NoHandler => Some (Panicked, out, ndb)
    end) as Hmain.
  { intros inputs. unfold main, server_main. rewrite Hinit. unfold Server.new, new_discovery.
    rewrite node_ensure. cbn -[ensure_bucket server_task]. rewrite Hens.
    cbn -[ensure_bucket server_task]. by destruct (until_signal inputs). }
  exists out, w. split_and!.
  - rewrite Hmain, <- (app_nil_r (inl <$> events)), until_signal_inl. cbn [until_signal].
    rewrite app_nil_r. unfold server_task. rewrite Hrun, node_main_loop_waits by done. cbn.
    by rewrite app_nil_r.
  - change (dc_bucket _) with b in Hlive. rewrite Hw. by apply Hlive.
  - intros engine replies w' Hfresh Hall final_dot Hout Hmod Hok Huniq.
    destruct (graceful_shutdown (objects := objects) (T := T) registry_of exec debug_matrix cfg fuel
      server handles tasks events (set_world nd w) engine replies w') as (nd' & Hloop & Hleft & Hdots & _ & Hpub);
      try done; [apply (calm_reliable _ Hc)|apply (calm_abort _ Hc)|intros p; apply (calm_pages _ Hc)|].
    exists nd'. split; [|done].
    rewrite Hmain, until_signal_inl. cbn [until_signal]. rewrite app_nil_r. unfold server_task.
    rewrite (eq_trans (Hrun _) Hloop). cbn. by rewrite app_nil_r.
Qed.
End lifecycle.

(** ** The client *)
(** The address on the command line has to resolve in every mode, or the client
    exits with an error before it connects to anything; for one request per server
    it is not used otherwise. *)
Theorem client_looks_its_address_up {C G W : Type} `{AsyncRead C} `{AsyncWrite C}
    `{Message ProtoClientCommand} `{BenchRng G} `{Dialer C W} `{PathApi} `{FileSystem W}
    debug show_io lookup_host fuel mode path lines (rng : G) (w : W) sub out w1 :
  initialize_logging (F64 := unit) path w = (Some sub, out, w1) →
  let main := λ addr, client_main (C := C) debug show_io lookup_host fuel
                        (ClientCli.mkCli addr mode path) lines rng w in
  (∀ addr e, lookup lookup_host addr = Err e → main addr = Some (Exited (Err e), out, w1)) ∧
  (∀ g n key_space, mode = ClientCli.OneRequestPerServer g n key_space →
   ∀ addr addr', is_ok (lookup lookup_host addr) = true → is_ok (lookup lookup_host addr') = true →
     main addr = main addr').
Proof.
  intros Hlog main. unfold main, client_main. cbn. rewrite Hlog. split.
  - by intros addr e ->.
  - intros g n key_space -> addr addr'.
    by destruct (lookup lookup_host addr), (lookup lookup_host addr').
Qed.

(** ** A server that cannot start *)
Section failed.
Context {E Tok Tx Handle W T : Type} `{AwsS3 W} `{Chrono T} `{Network Handle W} `{Runtime Handle W}.
Context `{Sender Tx (CrdtEngineRequest (OrSetOp E) Tok) W} `{StateChannel Tok W}.
Context `{PathApi} `{FileSystem W}.
Context (of_string : string → E) (debug_error : string → string).

(** A start that fails is over whatever comes after it. *)
Lemma failed_start fuel (server : Server) config (engine_tx : Tx) (expiry : result T) tasks w e tasks' w' events :
  Server.run of_string fuel server config engine_tx expiry tasks [] w = Some (Some (Err e), tasks', w') →
  Server.run of_string fuel server config engine_tx expiry tasks events w = Some (Some (Err e), tasks', w').
Proof.
  unfold Server.run. destruct (spawn PullLoop w) as [h w1].
  destruct (start_background_tasks _ _ _ _ _ _ w1) as [[[hs|e'] w2]|]; cbn; [done..|done].
Qed.

(** A server whose start fails, with its bucket out of reach or its expiry out of
    range, says so once and is dead, but its process is not: it
    runs until a signal comes and then exits without an error, as if it had
    served.  Only a bucket that cannot be made ends the process with an error. *)
Theorem failed_server_keeps_waiting fuel cli (engine_tx : Tx) (expiry : result T) tasks w sub out w1 server w2 :
  initialize_logging (F64 := unit) (MainCli.metrics_path cli) w = (Some sub, out, w1) →
  Server.new (MainCli.server_config cli) (MainCli.discovery_config cli) w1 = (server, w2) →
  match server with
  | Err e => ∀ inputs,
      server_main of_string (λ _, true) debug_error fuel cli engine_tx expiry tasks inputs w =
        Some (Exited (Err e), out, w2)
  | Ok server => ∀ e tasks' w3,
      Server.run of_string fuel server (MainCli.gc_config cli) engine_tx expiry tasks [] w2 =
        Some (Some (Err e), tasks', w3) →
      ∀ inputs,
        server_main of_string (λ _, true) debug_error fuel cli engine_tx expiry tasks inputs w =
          Some (match until_signal inputs with Woken _ => Exited (Ok tt) | _ => Running end,
                (out ++ [Stderr ("server run failed: " ++ debug_error e)])%list, w3)
  end.
Proof.
  intros Hlog Hnew. destruct server as [server|e]; [intros e tasks' w3 Hrun inputs|intros inputs];
    unfold server_main; rewrite Hlog, Hnew; [|done].
  cbn -[server_task until_signal]. pose proof (until_signal_handled inputs).
  destruct (until_signal inputs); [| |done]; unfold server_task; by erewrite failed_start.
Qed.
End failed.

(** ** The experiment *)
Section experiment.
Context {E Tok Tx Handle W T : Type} `{AwsS3 W} `{Chrono T} `{Network Handle W} `{Runtime Handle W}.
Context `{Sender Tx (CrdtEngineRequest (OrSetOp E) Tok) W} `{StateChannel Tok W}.
Context `{PathApi} `{FileSystem W}.
Context (of_string : string → E) (debug_error : string → string) (iter : gset NodeId → list NodeId).
Abbreviation Replica := (string * NodeId * N * bool * nat)%type (only parsing).

(** The replicas of a command line, by their server ids. *)
Lemma replicas_named host g n addr name port gc :
  (addr, name, port, gc) ∈ Experiment.replicas host g n →
  ∃ a, in_experiment g n a ∧ name = name_of a ∧ gc = is_gc a.
Proof.
  unfold Experiment.replicas. rewrite elem_of_app, !list_elem_of_fmap.
  intros [(i & [= -> -> -> ->] & Hi%elem_of_one_to)|(i & [= -> -> -> ->] & Hi%elem_of_one_to)].
  - by exists (Gc i).
  - by exists (Normal i).
Qed.

Lemma channels_keep (l : list (nat * (string * NodeId * N * bool))) m addr :
  is_Some (m !! addr) ∨ addr ∈ (λ p, p.2.1.1.1) <$> l →
  is_Some (foldl Experiment.insert_channel m l !! addr).
Proof.
  revert m. induction l as [|[i [[[a n] p] g]] l IH]; intros m; [by intros [?|?%elem_of_nil]|].
  rewrite fmap_cons, elem_of_cons. intros Hin. apply IH. cbn.
  rewrite lookup_insert. case_decide as Ha; [left; by eexists|].
  destruct Hin as [?|[?|?]]; [by left|by destruct Ha|by right].
Qed.

(** No address is missing from the map: the [unwrap] cannot panic. *)
Lemma replica_tasks_found cli :
  ∃ l, replica_tasks cli = Some l ∧
    fst <$> l = Experiment.replicas (ExperimentCli.listen_host cli)
      (ExperimentCli.num_gc_replicas cli) (ExperimentCli.num_normal_replicas cli).
Proof.
  unfold replica_tasks. set (l := Experiment.replicas _ _ _).
  assert (∀ l', l' ⊆ l → ∃ r, mapM (λ e, app_tx ← snd <$> Experiment.channels_map l !! e.1.1.1;
    Some (e, app_tx)) l' = Some r ∧ fst <$> r = l') as Hall; [|by apply Hall].
  induction l' as [|e l' IH]; intros Hsub; [by exists []|].
  destruct IH as (r & Hr & Hfst); [set_solver|].
  destruct (channels_keep (imap pair l) ∅ e.1.1.1) as [[[n' g'] i] Hi].
  { right. apply list_elem_of_fmap. assert (e ∈ l) as [k Hk]%list_elem_of_lookup by set_solver.
    exists (k, e). split; [done|]. apply elem_of_lookup_imap. by exists k, e. }
  exists ((e, i) :: r). split; [|by rewrite fmap_cons, Hfst].
  cbn [mapM]. unfold Experiment.channels_map. rewrite Hi. cbn.
  unfold Experiment.channels_map in Hr. by rewrite Hr.
Qed.

(** Without collectors the place of a normal replica cannot be computed. *)
Lemma replica_without_collector {F64} fuel cli cancelled seen (e : Replica) host :
  ExperimentCli.num_gc_replicas cli = 0 → 0 < ExperimentCli.num_normal_replicas cli →
  ExperimentCli.num_normal_replicas cli < u64_modulus →
  e.1 ∈ Experiment.replicas host 0 (ExperimentCli.num_normal_replicas cli) →
  replica_task (F64 := F64) (Tx := Tx) (Handle := Handle) (W := W) (T := T) of_string iter fuel cli
    cancelled seen e = Some (TaskPanicked, []).
Proof.
  intros Hg Hn Hmod He. destruct e as [[[[addr name] port] gc] i].
  apply replicas_named in He as ([j|k] & Hin & -> & ->); cbn in Hin; [lia|].
  assert (Experiment.connect_node_ids (Experiment.config_info cli) (name_of (Normal k)) false = None) as Hnone.
  { unfold Experiment.connect_node_ids, Experiment.config_info.
    cbn [Experiment.num_normal_replicas Experiment.num_gc_replicas].
    rewrite (proj2 (N.eqb_neq _ 0)) by lia. unfold Experiment.compute_connect_node_ids.
    cbn [name_of]. by rewrite parse_normal_name, Hg by lia. }
  unfold replica_task, init_and_run_server. cbn [is_gc]. by rewrite Hnone.
Qed.

(** Otherwise it can, and the task gets to its server. *)
Lemma replica_with_collector {F64} fuel cli cancelled seen (e : Replica) host task metrics :
  let g := ExperimentCli.num_gc_replicas cli in
  let n := ExperimentCli.num_normal_replicas cli in
  g < u64_modulus → n < u64_modulus → 0 < g ∨ n = 0 → e.1 ∈ Experiment.replicas host g n →
  replica_task (F64 := F64) (Tx := Tx) (Handle := Handle) (W := W) (T := T) of_string iter fuel cli
    cancelled seen e = Some (task, metrics) →
  (∃ r, task = TaskRan r) ∧ ∃ ids, metrics = [network_topology iter e.1.1.1.2 e.1.2 ids] ∧
    Experiment.connect_node_ids (Experiment.config_info cli) e.1.1.1.2 e.1.2 = Some ids.
Proof.
  intros g n Hg Hn Hor He. destruct e as [[[[addr name] port] gc] i].
  apply replicas_named in He as (a & Hin & -> & ->). cbn [fst snd] in *.
  assert (∃ ids, Experiment.connect_node_ids (Experiment.config_info cli) (name_of a) (is_gc a) = Some ids)
    as [ids Hids].
  { unfold Experiment.connect_node_ids. cbn. fold n g. case_match eqn:Hz; [by eexists|].
    apply N.eqb_neq in Hz. destruct (topology_defined g n a) as (ids & -> & _); [lia|done..|by eexists]. }
  unfold replica_task, init_and_run_server, Experiment.server_setup. rewrite Hids. cbn -[Server.run Server.new].
  destruct (Server.new _ _ _) as [[server|e] w].
  - destruct (Server.run _ _ _ _ _ _ _ _ _) as [[[r tasks] w']|]; cbn; [|done]. intros [= <- <-].
    split; [by eexists|by exists ids].
  - intros [= <- <-]. split; [by eexists|by exists ids].
Qed.

Lemma all_panic {F64} fuel cli cancelled seen l :
  let n := ExperimentCli.num_normal_replicas cli in
  ExperimentCli.num_gc_replicas cli = 0 → 0 < n → n < u64_modulus →
  fst <$> l ≡ₚ Experiment.replicas (ExperimentCli.listen_host cli) 0 n →
  mapM (replica_task (F64 := F64) (Tx := Tx) (Handle := Handle) (W := W) (T := T) of_string iter fuel cli
    cancelled seen) l = Some (replicate (N.to_nat n) (TaskPanicked, [])).
Proof.
  intros n Hg Hn Hmod Hl. apply mapM_Some.
  replace (N.to_nat n) with (length l).
  2: { rewrite <- (length_fmap fst l), (Permutation_length Hl).
       unfold Experiment.replicas, Experiment.one_to. by rewrite length_app, !length_fmap, !length_seq. }
  assert (∀ e, e ∈ l → e.1 ∈ Experiment.replicas (ExperimentCli.listen_host cli) 0 n) as Hall.
  { intros e He. rewrite <- Hl. by apply list_elem_of_fmap_2. }
  clear Hl. induction l as [|e l IH]; simpl; constructor.
  - eapply replica_without_collector; [done..|]. apply Hall. by left.
  - apply IH. intros e' He'. apply Hall. by right.
Qed.

Lemma silent_panics {A M} (f : A → string) (m : M) (l : list A) k :
  concat (zip_with (λ e t, replica_printed debug_error (f e) t.1) l (replicate k (TaskPanicked, m))) = [].
Proof. revert l. induction k as [|k IH]; intros [|e l]; [done..|]. simpl. apply IH. Qed.

Lemma reported_panics {M} msg (m : M) k :
  (replica_joined msg ∘ fst <$> replicate k (TaskPanicked, m)) ≫= report_panic =
    replicate k (Stderr ("task panicked: " ++ msg)).
Proof.
  rewrite fmap_replicate. induction k as [|k IH]; [done|].
  cbn [replicate]. by rewrite bind_cons, IH.
Qed.

Lemma no_metrics {A M} (a : A) k : replicate k (a, [] : list M) ≫= snd = [].
Proof. by induction k. Qed.

(** What an experiment needs to run at all is a collector.  With normal replicas
    and no collector, the task of every replica panics before it reaches the
    bucket, no metric of the topology is recorded, and the process waits in silence for a signal, after
    which it reports one panic for each replica and exits without an error.  In
    every other experiment no task panics before its server runs, and each records its place. *)
Theorem experiment_needs_a_collector {F64} fuel cli panic_message seen
    (order : list Replica → list Replica) (inputs : list (unit + Signal)) (w w1 : W) sub out :
  let g := ExperimentCli.num_gc_replicas cli in
  let n := ExperimentCli.num_normal_replicas cli in
  initialize_logging (F64 := F64) (ExperimentCli.metrics_path cli) w = (Some sub, out, w1) →
  (∀ l, order l ≡ₚ l) → g < u64_modulus → n < u64_modulus →
  if (g =? 0)%N && (0 <? n)%N then
    experiment_main (F64 := F64) (Tx := Tx) (Handle := Handle) (T := T) of_string (λ _, true) debug_error
      iter fuel cli panic_message seen order inputs w =
      Some (match until_signal inputs with
            | Woken _ =>
                (Exited (Ok tt),
                 (out ++ replicate (N.to_nat n) (Stderr ("task panicked: " ++ panic_message)))%list)
            | _ => (Running, out)
            end, [])
  else
    ∀ cancelled l e task metrics, replica_tasks cli = Some l → e ∈ l →
      replica_task (F64 := F64) (Tx := Tx) (Handle := Handle) (W := W) (T := T) of_string iter fuel cli
        cancelled seen e = Some (task, metrics) →
      (∃ r, task = TaskRan r) ∧ ∃ ids, metrics = [network_topology iter e.1.1.1.2 e.1.2 ids] ∧
        Experiment.connect_node_ids (Experiment.config_info cli) e.1.1.1.2 e.1.2 = Some ids.
Proof.
  intros g n Hlog Horder Hg Hn. destruct (replica_tasks_found cli) as (l & Hl & Hfst). fold g n in Hfst.
  destruct ((g =? 0)%N && (0 <? n)%N) eqn:Hempty.
  - apply andb_prop in Hempty as [Hg0%N.eqb_eq Hn0%N.ltb_lt].
    assert (fst <$> order l ≡ₚ Experiment.replicas (ExperimentCli.listen_host cli) 0 n) as Hperm
      by (rewrite (Horder l), Hfst, Hg0; done).
    unfold experiment_main. rewrite Hlog, Hl. cbn -[until_signal replica_task].
    pose proof (until_signal_handled inputs).
    destruct (until_signal inputs); [| |done]; rewrite all_panic by done;
      cbn -[concat zip_with report_panic replicate replica_joined]; rewrite silent_panics.
    + by rewrite reported_panics, no_metrics.
    + by rewrite app_nil_r, no_metrics.
  - intros cancelled l' e task metrics Hl' He. eapply replica_with_collector; [done..| |].
    + apply andb_false_iff in Hempty as [?%N.eqb_neq|?%N.ltb_ge]; [left|right]; fold g; fold n; lia.
    + fold g n. rewrite <- Hfst. apply list_elem_of_fmap_2. congruence.
Qed.
End experiment.

(** ** Witnesses *)
#[local] Existing Instances Server.delta_codec Server.op_codec Server.delta_codec_ok Server.text_format.
#[local] Existing Instances Server.closed_channels Server.first_peer Server.numbered_tasks.

(** Tasks that are never seen again, and files that can always be opened. *)
#[local] Instance numbered_runtime : Runtime nat Buckets := {| spawn := λ _ w, (0%nat, w) |}.
#[local] Instance no_parents : PathApi := {| path_parent := λ _, None |}.
#[local] Instance empty_files : FileSystem Buckets := {|
  create_dir_all := λ _ w, (Ok tt, w);
  open_append := λ _ w, (Ok [], w)
|}.

Definition demo_server_cli : MainCli.Cli :=
  MainCli.mkCli "10.0.0.1" "7000" (Some "B") None "http://localhost:9000" "crdt-peers" "us-east-1" "key"
    "secret" 30 30 None false "gc" 300 120 "server.log".

Lemma memory_calm : calm (W := Buckets) (Handle := nat) (objects := bucket_objects) 1.
Proof. by split; [exact memory_reliable|..]. Qed.

Definition demo_main (inputs : list (ServerEvent + Signal)) :
    option (Process * list Output * Node RustString PushPull Buckets) :=
  server_main (Handle := nat) (T := { z : Z | in_i64 z = true }) (Tok := nat)
    (H := node_s3) (H1 := node_network) (H2 := node_runtime) (H3 := node_sender)
    (H4 := node_state_channel demo_peers demo_calls demo_debug) (H6 := node_files)
    (λ _, hello) (λ _, true) id 1 demo_server_cli tt (Ok demo_time) ∅ inputs demo_node_state.

(** While it runs, the bucket holds its registration. *)
Definition demo_world : Buckets := default ∅ ((λ x, nd_world x.2) <$> demo_main [inl MetricsTick]).

Lemma demo_world_objects :
  bucket_objects demo_world "crdt-peers" =
    {[registration_key "B" demo_time false "10.0.0.1:7000" := [x22; x22]]}.
Proof. vm_compute. reflexivity. Qed.

Lemma server_lifecycle_witness :
  ∃ nd nd' out,
    demo_main [inl MetricsTick] = Some (Running, out, nd) ∧
    "B" ∈ live_ids_of (T := { z : Z | in_i64 z = true }) (bucket_objects (nd_world nd) "crdt-peers") ∧
    demo_main [inl MetricsTick; inr Terminate; inr CtrlC] = Some (Exited (Ok tt), out, nd') ∧
    "B" ∉ live_ids_of (T := { z : Z | in_i64 z = true }) (bucket_objects (nd_world nd') "crdt-peers").
Proof.
  destruct (server_lifecycle (Handle := nat) (T := { z : Z | in_i64 z = true }) (objects := bucket_objects)
    demo_peers demo_calls demo_debug (λ _, hello) id 1 demo_server_cli demo_time ∅ [MetricsTick] Terminate
    [inr CtrlC] demo_node_state memory_calm) as (out & w & Hrun & Hlive & Hexit).
  - discriminate.
  - exact demo_apart.
  - reflexivity.
  - split; [discriminate|reflexivity].
  - reflexivity.
  - intros k _. reflexivity.
  - by intros ?%list_elem_of_singleton.
  - destruct (Hexit demo_stopped [] w) as (nd' & Hmain & Hleft & _).
    + by intros ?%elem_of_nil.
    + reflexivity.
    + left. vm_compute. reflexivity.
    + vm_compute. reflexivity.
    + exact (demo_writer_delta_ok (OrSetImpl.full_state (crdt demo_writer_engine)) (or_intror eq_refl)).
    + pose proof (f_equal (λ o, default ∅ ((λ x, nd_world x.2) <$> o)) Hrun : demo_world = w) as <-.
      change (S3GcStorageImpl.bucket _) with "crdt-peers". rewrite demo_world_objects.
      intros k c [v [<- _]%lookup_singleton_Some] Hp. vm_compute in Hp. discriminate Hp.
    + eexists _, nd', out. split_and!; [exact Hrun|exact Hlive|exact Hmain|exact Hleft].
Defined.
